(* ===== verification/_CoqProject ===== *)
-Q . S2P
Prelude.v
Errors.v
Protocol.v
Codec.v
Wire3.v
Routes.v
Responses.v
StreamCodec.v
Shared.v
Session.v
SessionFacts.v
Multiplex.v
Supervisor.v
SupervisorFacts.v
Transport.v
Sockets.v
Reconnect.v
Observability.v
Heartbeat.v
Conn.v
Subscriptions.v
Kv.v
Queue.v
SharedSubs.v
Schedule.v
StreamClient.v
Notice.v
Lease.v
WithLease.v
LeaseObserver.v
ObserverFacts.v
ObserverLive.v
Rpc.v
RpcWorker.v
RpcWorkerFacts.v
Client.v
Conformance.v
Scenarios.v
LeaseScenarios.v
