(* ===== verification/Prelude.v ===== *)
(** * Prelude: the Fitz client, verified

    This library is a verification development of [cntryl_fitz], the Rust
    client of the Fitz broker (the crate under [src/]): an asynchronous client
    that multiplexes the commands of seven domains (KV, Queue, Notice, Stream,
    Schedule, Lease, RPC) over one TCP or WebSocket connection, reconnects, and
    restores its subscriptions.  The definitions are translated from the code;
    the theorems are what makes it correct, or show where it is not.

    ** The program's parts and the files that model them

    - [Prelude] (this file): results, bytes, machine integers, formatting,
      UTF-8 and byte order; tactics and hint databases.  A Rust [String] or
      [Vec<u8>] is a [list byte]; an unsigned integer is an [N] with its
      wrap-around, saturation or width written out where the code has it.
    - [Errors] ([error.rs]): codes, errors, classification, rendering.
    - [Protocol] ([protocol.rs]): message types.
    - [Codec] ([codec.rs]): payload encoder and decoder, frame header.  The
      decoder is a state monad; [Exact] and [Whole] state that a reader accepts
      exactly the encodings of a format, and compose, so every round trip of the
      development is derived from the readers' shape ([exact_step],
      [whole_step]).
    - [Wire3] ([wire3.rs]): the extension envelope and capability negotiation.
    - [Routes] ([domains/routes.rs]): route scanner, validators and the
      backtracking pattern matcher, against a declarative glob relation.
    - [Responses] ([client_domains/mod.rs]): status responses and the common
      error envelope.
    - [StreamCodec] ([domains/stream.rs]): Stream filters, records, pages.
      [serde_json] is a parameter.
    - [Shared], [Session], [SessionFacts], [Multiplex], [Supervisor], [SupervisorFacts],
      [Transport], [Sockets], [Reconnect], [Heartbeat], [Conn] ([async_connection.rs]).  [Shared] is the state the
      handles and the supervisor task share.  [Session] is the session task:
      [run_io] and [run_websocket] as step functions over the events of their
      [select!] (a command, a cancellation, a frame, a heartbeat tick), with the
      tables of outstanding requests and the effects (frames written, responders
      answered or dropped) as data.  [Multiplex] is the callers, the command
      queue, the sessions one after another and the broker, a step relation over
      the interleavings of submissions, cancellations, responses, losses and
      reconnects.  [Supervisor] opens, authenticates, restores and reconnects;
      [Reconnect] ties its sessions to those of [Multiplex].  [Transport] is TCP framing under partial reads
      and cancellation; [Sockets] runs the session loops over the bytes and
      messages of their sockets; [Heartbeat] follows the WebSocket loop's timer
      in time.  [Conn] is the caller's side: requests, replays and
      back-off over a scripted [World], behind the interface [BrokerLink] with
      its laws [LinkLaws], which [World] satisfies.  The generation a caller
      checks and the one its command is stamped with are separate loads: what
      other threads do between them is part of the script ([x_before_stamp]),
      and the interface tells the two apart ([generation_of], [stamp_of], equal
      when [undisturbed]).
    - [Subscriptions] ([notifications.rs] and the [poll_next] loops): the
      registry of broadcast channels, over a [Broadcast] interface for tokio's
      channel, and the polling of a subscription.
    - [Kv], [Queue], [Schedule], [StreamClient], [Notice]
      ([client_domains/*.rs]): the domain clients, over any [BrokerLink].
      [SharedSubs] is the reference-counted subscription map the Schedule and
      Stream clients share; [Holder] also keeps which unsubscriptions
      failed.  [Queue] models an item's atomic state under any
      interleaving of the tasks that settle it.
    - [Lease] ([client_domains/lease.rs]): acquisition with its deferred
      completions, LIST pages, handles and subscriptions.  [WithLease]: the
      callback supervised under a lease ([with_lease]), a run over the turns of
      its [select!].  [LeaseObserver]: the observer's task as a machine over its
      awaits ([At], [wake]), between which anything else may happen;
      [ObserverFacts] puts it into a system with a session and a broker that
      notifies changes and serves listings page by page (a step relation with
      an executable copy, [act]; a reconnection may fail to restore the
      subscription) and proves the invariant of a ready view; [ObserverLive] proves that it
      settles.
    - [Rpc] ([client_domains/rpc.rs]): the caller's side of RPC, a call being a
      state that its stream, its tasks and its drop step in any order.
      [RpcWorker] ([client_domains/rpc/worker.rs]): the worker's side - the
      bounded inbox, the task that fills, cancels and clears it, requests,
      responses and clean-up; [RpcWorkerFacts] runs it with the owner of its
      requests, and crosses the two sides.
    - [Observability] ([observability.rs] and [emit_lifecycle]): the calls the
      installed sinks are given, and the language of the lifecycle events.
    - [Client] ([lib.rs]): builder, lifecycle, readiness wait, domain handles.
    - [Conformance], [Scenarios], [LeaseScenarios]: the tests the source files
      carry, under their names, as booleans that the model evaluates to true - the
      unit tests of the pure code, and the tests against a scripted broker with
      the fixture of [test_support.rs].  They tie the definitions to outputs the
      Rust code is known to give.

    ** How they interact

    A domain client encodes a payload, submits it through the connection handle
    ([Conn]: an id is allocated, a command is queued, the caller waits on its
    responder with a timeout and a cancellation guard), and decodes the reply.
    The session task takes the command ([Session.handle_request]), writes a
    frame ([Codec], [Wire3]), and answers the responder when the reply frame
    arrives.  When the session ends, [Supervisor] opens another one and
    re-registers the subscriptions; the generation counter marks handles of
    earlier sessions as stale.

    ** What the theorems show

    - Encodings: frame headers, extension envelopes, error envelopes and the
      KV, Lease, Schedule and Stream pages are accepted exactly when they are
      the canonical encoding of what is returned; what an RPC caller and a
      worker send each other reads back; TCP framing survives any chunking.
    - Routes: the matcher returns on every input, and decides the glob relation
      on routes without a [**] segment; validation
      accepts exactly the patterns some concrete route matches.
    - Sessions: every responder is settled exactly once; an established session
      stays correlated and within its limits; final frames pair by correlation id,
      no caller is lost or answered twice over any number of sessions,
      and every caller gets the broker's answer to its own request as long as
      ids are drawn and stamped under one session; a session over a byte stream is the session loop on its frames.
    - Reconnecting: what an opened session guarantees, what restoring changes,
      the back-off schedule, and that each session starts as the system of
      sessions assumes.
    - Liveness of the peer: once the peer is silent and this side makes no
      requests, the heartbeat ends the session by its second due poll, and never
      one whose peer answered.
    - Observability: the lifecycle events follow one protocol, and every sink
      learns of the same events in the same order.
    - Requests: replays keep to their budget, generation and delays, which are
      given in closed form; waiting for readiness goes on only after transient
      errors; an enqueue is resubmitted only after the broker confirmed that it had no effect.
    - Handles: transactions, stream sessions and queue items submit nothing once
      they are seen to be stale, and otherwise commands stamped with their
      generation, as long as no other thread moves it after the check; an item
      is acknowledged at most once under any interleaving, and the commands
      under way for it are accounted; a live subscription handle keeps its wire
      subscription unless an UNSUBSCRIBE of its pattern failed; a listing
      returns exactly the matching entries; an RPC call
      is cancelled at most once and its stream ends with its terminal frame; a
      worker's requests are bounded, ordered, and within reach of cancellation.
    - Leases: a handle's commands carry the token the broker answered last; a
      supervised callback runs only under a lease, is renewed with those tokens,
      and its result says what failed; a ready observer's view is the broker's
      inventory or the observer is going to learn otherwise, with two exceptions
      (a subscription that could not be restored, a periodic pass that failed),
      and once nothing changes it settles.
    - Defects: theorems of kind [error], and lemmas and examples beside them,
      exhibit reachable misbehaviour: stale cancellations, answers that cross a
      reconnect, reads that are not cancel-safe, the back-off panic, late
      generations and the race between a check and a stamp
      ([Kv.stale_write_under_new_generation]), lost counts and uncertain
      unsubscriptions ([SharedSubs.uncertain_unsubscribe_leaves_no_subscription]),
      uncorrelated completions, a forgotten invalidation and an observer whose
      subscription was not restored
      ([ObserverFacts.failed_restoration_hides_changes]), a silent peer under
      request traffic ([Heartbeat.requests_hide_silence]).

    ** Bounds and fuel

    Loops that the code bounds by its input are structural or take fuel that a
    lemma shows is enough: [Routes.match_loop] ([match_fuel]),
    [Wire3.decode_loop], [Transport.drain] ([drain_total]),
    [LeaseObserver.drain_loop] ([ObserverLive.drain_quiet]: one poll per event
    of the buffer, and one more),
    [Schedule.decode_entries_fuel] ([decode_entries_enough]).  Loops the broker
    drives ([Schedule.list_pages]) and the environment drives
    ([Client.ready_loop], the scripts of [World]) stop with the script or the
    fuel and say so in their result; their theorems give the fuel that is
    enough.  [usize] has 64 bits.  Durations are nanoseconds in [N].  A field
    longer than [u32::MAX] bytes panics in the encoder ([enc_panic]); layouts
    are stated for fields that fit.

    ** What is not modelled

    Sockets, TLS, WebSocket framing, the clock, the tokio scheduler and JSON
    are inputs: event sequences, scripts or parameters.  What the observability
    sinks and the token provider do is the application's.  The jitter of the
    observer's periodic timer ([jittered]) hashes the clock: in [ObserverFacts]
    the timer may be due at any poll.  Of the tests, the sockets, sleeps and
    deadlines are left out, and where the scheduler chooses, the scenario takes
    the order the test's comments describe; the two tests of
    [OperationOptions::run], which wait on a clock, the test files of their own
    ([domains/stream_tests.rs], [domains/stream_error_tests.rs],
    [client_domains/rpc/tests.rs]) and the integration tests are not run. *)

From Stdlib Require Export NArith ZArith Lia Bool List.
From Stdlib Require Import Strings.Byte Strings.String DecimalString HexadecimalString DecimalN HexadecimalN.
From stdpp Require Export base tactics numbers list option strings gmap.

#[global] Set Default Goal Selector "!".

(** ** Results

    Rust's [Result<T, E>], with the [?] operator as the bind of the error
    monad. *)

Inductive result (E A : Type) : Type :=
| Ok (a : A)
| Err (e : E).
Arguments Ok {E A} a.
Arguments Err {E A} e.

Definition result_bind {E A B : Type} (f : A -> result E B) (m : result E A) : result E B :=
  match m with
  | Ok a => f a
  | Err e => Err e
  end.

(** [Result::map_err]. *)
Definition map_err {E F A : Type} (f : E -> F) (m : result E A) : result F A :=
  match m with
  | Ok a => Ok a
  | Err e => Err (f e)
  end.

(** [Result::is_ok]. *)
Definition is_ok {E A : Type} (m : result E A) : bool :=
  match m with Ok _ => true | Err _ => false end.

#[export] Instance result_mret E : MRet (result E) := fun A a => Ok a.
#[export] Instance result_mbind E : MBind (result E) := fun A B f m => result_bind f m.

Declare Scope fitz_scope.
Delimit Scope fitz_scope with fitz.
Notation "x <- m ;; k" := (mbind (fun x => k) m)
  (at level 100, m at next level, right associativity) : fitz_scope.
Notation "'let*' ' p := m 'in' k" := (mbind (fun x => let p := x in k) m)
  (at level 10, p pattern, m at level 200, k at level 200) : fitz_scope.
Notation "m ;; k" := (mbind (fun _ => k) m)
  (at level 100, right associativity) : fitz_scope.
(** Method chaining on a builder: [e .> put_u8 1 .> put_u64 x]. *)
Notation "e .> f" := (f e) (at level 50, left associativity, only parsing) : fitz_scope.
#[global] Open Scope fitz_scope.
#[global] Open Scope N_scope.

(** ** Bytes and byte strings

    A Rust [Vec<u8>], [&[u8]], [String] or [&str] is a list of bytes; a string
    carries the extra fact that its bytes are valid UTF-8 ([utf8_valid]). *)

Abbreviation byte := Byte.byte.
Abbreviation bytes := (list byte).

#[export] Instance byte_eq_dec : EqDecision byte := Byte.byte_eq_dec.
#[export] Program Instance byte_countable : Countable byte :=
  inj_countable Byte.to_N Byte.of_N _.
Next Obligation. intros b. apply Byte.of_to_N. Qed.

(** A string literal as its bytes. *)
Definition str (s : String.string) : bytes := String.list_byte_of_string s.
Arguments str s%_string.

Definition byte_of_N (n : N) : byte :=
  match Byte.of_N (n mod 256) with
  | Some b => b
  | None => x00
  end.

(** [bytes.len()] as a machine integer. *)
Definition blen {A : Type} (l : list A) : N := N.of_nat (length l).

(** [buf[i..j]], for [i <= j <= buf.len()]. *)
Definition slice {A : Type} (i j : N) (l : list A) : list A :=
  take (N.to_nat (j - i)) (drop (N.to_nat i) l).

Definition bytes_eqb (a b : bytes) : bool := bool_decide (a = b).

(** ** Machine integers *)

Definition u8_max : N := 255.
Definition u16_max : N := 65535.
Definition u32_max : N := 4294967295.
Definition u64_max : N := 18446744073709551615.
(** The targets the crate supports have 64-bit [usize]. *)
Definition usize_max : N := u64_max.

Definition saturating_add (top a b : N) : N := N.min top (a + b).
Definition saturating_mul (top a b : N) : N := N.min top (a * b).
(** [wrapping_add] at width [w] bits. *)
Definition wrapping_add (w a b : N) : N := (a + b) mod 2 ^ w.

(** [x.to_be_bytes()] for a [k]-byte integer, and [from_be_bytes]. *)
Fixpoint be_bytes (k : nat) (n : N) : bytes :=
  match k with
  | O => []
  | S k' => byte_of_N (N.shiftr n (8 * N.of_nat k')) :: be_bytes k' n
  end.

Definition be_step (acc : N) (b : byte) : N := acc * 256 + Byte.to_N b.

Definition from_be (l : bytes) : N := fold_left be_step l 0.

(** ** Formatting: [{}] and [{:#x}] of an unsigned integer *)

Definition dec (n : N) : bytes := str (DecimalString.NilEmpty.string_of_uint (N.to_uint n)).
Definition hex (n : N) : bytes :=
  str "0x" ++ str (HexadecimalString.NilEmpty.string_of_uint (N.to_hex_uint n)).

(** ** UTF-8 validation: the table of [core::str::from_utf8] *)

Definition in_range (lo hi n : N) : bool := (lo <=? n) && (n <=? hi).
Definition utf8_cont (b : byte) : bool := in_range 128 191 (Byte.to_N b).

(** Admissible second bytes of a three-byte and of a four-byte sequence. *)
Definition utf8_second3 (n0 : N) (b1 : byte) : bool :=
  let n1 := Byte.to_N b1 in
  if n0 =? 224 then in_range 160 191 n1
  else if n0 =? 237 then in_range 128 159 n1
  else in_range 128 191 n1.
Definition utf8_second4 (n0 : N) (b1 : byte) : bool :=
  let n1 := Byte.to_N b1 in
  if n0 =? 240 then in_range 144 191 n1
  else if n0 =? 244 then in_range 128 143 n1
  else in_range 128 191 n1.

Fixpoint utf8_valid (l : bytes) : bool :=
  match l with
  | [] => true
  | b0 :: r0 =>
      let n0 := Byte.to_N b0 in
      if n0 <? 128 then utf8_valid r0
      else if in_range 194 223 n0 then
        match r0 with
        | b1 :: r1 => utf8_cont b1 && utf8_valid r1
        | _ => false
        end
      else if in_range 224 239 n0 then
        match r0 with
        | b1 :: b2 :: r2 => utf8_second3 n0 b1 && utf8_cont b2 && utf8_valid r2
        | _ => false
        end
      else if in_range 240 244 n0 then
        match r0 with
        | b1 :: b2 :: b3 :: r3 =>
            utf8_second4 n0 b1 && utf8_cont b2 && utf8_cont b3 && utf8_valid r3
        | _ => false
        end
      else false
  end.

(** ** Lexicographic order on bytes: [<[u8] as Ord>::cmp] *)

Fixpoint bytes_cmp (a b : bytes) : comparison :=
  match a, b with
  | [], [] => Eq
  | [], _ :: _ => Lt
  | _ :: _, [] => Gt
  | x :: a', y :: b' =>
      match Byte.to_N x ?= Byte.to_N y with
      | Eq => bytes_cmp a' b'
      | c => c
      end
  end.

(** ** Automation *)

(** [crush_result] takes a successful or failed monadic hypothesis apart. *)
Ltac unfold_result :=
  unfold mbind, result_mbind, result_bind, mret, result_mret in *; cbn beta iota in *.

Ltac split_matches H :=
  repeat match type of H with
  | context [match ?x with _ => _ end] =>
      let E := fresh "E" in destruct x eqn:E; cbn beta iota in H; try discriminate H
  end.

(** Boolean tests to propositions. *)
Ltac bool_to_prop :=
  repeat match goal with
  | H : (_ <? _) = true |- _ => apply N.ltb_lt in H
  | H : (_ <? _) = false |- _ => apply N.ltb_ge in H
  | H : (_ <=? _) = true |- _ => apply N.leb_le in H
  | H : (_ <=? _) = false |- _ => apply N.leb_gt in H
  | H : (_ =? _) = true |- _ => apply N.eqb_eq in H
  | H : (_ =? _) = false |- _ => apply N.eqb_neq in H
  | H : (_ && _) = true |- _ => apply andb_prop in H; destruct H
  | H : (_ || _) = false |- _ => apply orb_false_elim in H; destruct H
  | H : negb _ = true |- _ => apply negb_true_iff in H
  | H : negb _ = false |- _ => apply negb_false_iff in H
  | H : bool_decide _ = true |- _ => apply bool_decide_eq_true_1 in H
  | H : bool_decide _ = false |- _ => apply bool_decide_eq_false_1 in H
  end.

Create HintDb fitz.
Create Rewrite HintDb fitz.

(** ** Results: equations *)

Lemma result_bind_ok {E A B : Type} (f : A -> result E B) (m : result E A) b :
  mbind f m = Ok b -> exists a, m = Ok a /\ f a = Ok b.
Proof. destruct m; cbn; [eauto | discriminate]. Qed.

Lemma map_err_ok {E F A : Type} (f : E -> F) (m : result E A) a :
  map_err f m = Ok a <-> m = Ok a.
Proof. destruct m; cbn; split; congruence. Qed.

(** [ok_inv H] destructs a chain of binds that returned [Ok]. *)
Ltac ok_inv H :=
  repeat match type of H with
  | mbind _ _ = Ok _ =>
      let a := fresh "a" in let Ha := fresh "Ha" in
      apply result_bind_ok in H; destruct H as (a & Ha & H)
  end.

(** ** Bytes: lemmas *)

Lemma byte_of_to_N b : byte_of_N (Byte.to_N b) = b.
Proof.
  unfold byte_of_N. rewrite N.mod_small.
  - by rewrite Byte.of_to_N.
  - pose proof (Byte.to_N_bounded b). lia.
Qed.

Lemma byte_to_of_N n : Byte.to_N (byte_of_N n) = n mod 256.
Proof.
  unfold byte_of_N. destruct (Byte.of_N (n mod 256)) as [b|] eqn:E.
  - by apply Byte.to_of_N.
  - apply Byte.of_N_None_iff in E.
    pose proof (N.mod_lt n 256). lia.
Qed.

Lemma byte_to_N_lt b : Byte.to_N b < 256.
Proof. pose proof (Byte.to_N_bounded b). lia. Qed.

Lemma byte_to_N_inj b c : Byte.to_N b = Byte.to_N c -> b = c.
Proof. intros H. rewrite <- (byte_of_to_N b), <- (byte_of_to_N c). by rewrite H. Qed.

Lemma blen_app {A} (a b : list A) : blen (a ++ b) = blen a + blen b.
Proof. unfold blen. rewrite length_app. lia. Qed.

Lemma blen_cons {A} (x : A) l : blen (x :: l) = 1 + blen l.
Proof. unfold blen. cbn [length]. lia. Qed.

Lemma blen_nil {A} : blen (@nil A) = 0.
Proof. done. Qed.

Lemma blen_zero {A} (l : list A) : blen l = 0 -> l = [].
Proof. destruct l; [done | rewrite blen_cons; lia]. Qed.

Lemma be_bytes_length k n : length (be_bytes k n) = k.
Proof. induction k; cbn [be_bytes length]; congruence. Qed.

Lemma be_bytes_blen k n : blen (be_bytes k n) = N.of_nat k.
Proof. unfold blen. by rewrite be_bytes_length. Qed.

Lemma from_be_snoc l b : from_be (l ++ [b]) = from_be l * 256 + Byte.to_N b.
Proof. unfold from_be. by rewrite fold_left_app. Qed.

Lemma fold_be_acc l acc : fold_left be_step l acc = acc * 2 ^ (8 * blen l) + from_be l.
Proof.
  revert acc. induction l as [|b l IH]; intros acc.
  - change (acc = acc * 1 + 0). lia.
  - unfold from_be. cbn [fold_left]. rewrite !(IH (be_step _ b)).
    unfold be_step. rewrite blen_cons.
    replace (8 * (1 + blen l)) with (8 + 8 * blen l) by lia.
    rewrite N.pow_add_r. change (2 ^ 8) with 256. lia.
Qed.

Lemma from_be_cons b l : from_be (b :: l) = Byte.to_N b * 2 ^ (8 * blen l) + from_be l.
Proof. unfold from_be at 1. cbn [fold_left]. rewrite fold_be_acc. done. Qed.

Lemma from_be_bound l : from_be l < 2 ^ (8 * blen l).
Proof.
  induction l as [|b l IH].
  - cbn. lia.
  - rewrite from_be_cons, blen_cons.
    replace (8 * (1 + blen l)) with (8 + 8 * blen l) by lia.
    rewrite N.pow_add_r. change (2 ^ 8) with 256.
    pose proof (byte_to_N_lt b). nia.
Qed.

Lemma from_be_be_bytes k n : from_be (be_bytes k n) = n mod 2 ^ (8 * N.of_nat k).
Proof.
  induction k as [|k IH].
  - cbn [be_bytes]. change (8 * N.of_nat 0) with 0. by rewrite N.mod_1_r.
  - cbn [be_bytes]. rewrite from_be_cons, IH, byte_to_of_N, be_bytes_blen, N.shiftr_div_pow2.
    replace (8 * N.of_nat (S k)) with (8 * N.of_nat k + 8) by lia.
    rewrite N.pow_add_r. change (2 ^ 8) with 256.
    rewrite N.Div0.mod_mul_r. lia.
Qed.

Lemma from_be_be_bytes_small k n : n < 2 ^ (8 * N.of_nat k) -> from_be (be_bytes k n) = n.
Proof. intros H. rewrite from_be_be_bytes. by apply N.mod_small. Qed.

Lemma from_be_inj a b : length a = length b -> from_be a = from_be b -> a = b.
Proof.
  revert b. induction a as [|x a IH]; intros [|y b] Hlen; try discriminate Hlen; [done|].
  rewrite !from_be_cons. injection Hlen as Hlen.
  assert (Hb : blen a = blen b) by (unfold blen; congruence). rewrite Hb.
  pose proof (from_be_bound a) as Ha. pose proof (from_be_bound b) as Hb'. rewrite Hb in Ha.
  intros Heq.
  assert (Byte.to_N x = Byte.to_N y) by nia.
  assert (from_be a = from_be b) by nia.
  f_equal; [by apply byte_to_N_inj | by apply IH].
Qed.

Lemma be_bytes_from_be l : be_bytes (length l) (from_be l) = l.
Proof.
  apply from_be_inj.
  - apply be_bytes_length.
  - rewrite from_be_be_bytes_small; [done | apply from_be_bound].
Qed.

Lemma be_bytes_from_be' k l : length l = k -> be_bytes k (from_be l) = l.
Proof. intros <-. apply be_bytes_from_be. Qed.

(** ** Slices *)

Lemma slice_app_l {A} (a b : list A) j : j = blen a -> slice 0 j (a ++ b) = a.
Proof.
  intros ->. unfold slice, blen. rewrite N.sub_0_r, Nat2N.id.
  change (drop (N.to_nat 0) (a ++ b)) with (a ++ b). apply take_app_length.
Qed.

Lemma slice_app_r {A} (a b : list A) i j :
  blen a <= i -> slice i j (a ++ b) = slice (i - blen a) (j - blen a) b.
Proof.
  intros Hi. unfold slice, blen in *. rewrite drop_app_ge by lia.
  f_equal; [lia | f_equal; lia].
Qed.

Lemma slice_app_exact {A} (a b : list A) i j :
  i = 0 -> j = blen a -> slice i j (a ++ b) = a.
Proof. intros -> ->. by apply slice_app_l. Qed.

Lemma slice_length {A} i j (l : list A) : i <= j -> j <= blen l -> blen (slice i j l) = j - i.
Proof. unfold slice, blen. intros. rewrite length_take, length_drop. lia. Qed.

Lemma slice_all_from {A} i (l : list A) : slice i (blen l) l = drop (N.to_nat i) l.
Proof.
  unfold slice, blen. apply take_ge. rewrite length_drop. lia.
Qed.

Lemma slice_split {A} i j k (l : list A) :
  i <= j -> j <= k -> slice i j l ++ slice j k l = slice i k l.
Proof.
  intros. unfold slice.
  replace (drop (N.to_nat j) l) with (drop (N.to_nat (j - i)) (drop (N.to_nat i) l))
    by (rewrite drop_drop; f_equal; lia).
  replace (N.to_nat (k - i)) with (N.to_nat (j - i) + N.to_nat (k - j))%nat by lia.
  rewrite take_take_drop. done.
Qed.

Lemma slice_take_drop {A} i (l : list A) : slice 0 i l ++ drop (N.to_nat i) l = l.
Proof. unfold slice. rewrite N.sub_0_r.
  change (drop (N.to_nat 0) l) with l. apply take_drop. Qed.

Lemma bytes_eqb_spec a b : reflect (a = b) (bytes_eqb a b).
Proof. apply bool_decide_reflect. Qed.

Lemma bytes_eqb_refl a : bytes_eqb a a = true.
Proof. by apply bool_decide_eq_true. Qed.

(** ** Byte order *)

Lemma bytes_cmp_eq a b : bytes_cmp a b = Eq <-> a = b.
Proof.
  revert b. induction a as [|x a IH]; intros [|y b]; cbn; split; try done.
  - destruct (N.compare_spec (Byte.to_N x) (Byte.to_N y)) as [E| |]; try done.
    intros H%IH. apply byte_to_N_inj in E. by subst.
  - intros [= -> ->]. rewrite N.compare_refl. by apply IH.
Qed.

Lemma bytes_cmp_refl a : bytes_cmp a a = Eq.
Proof. by apply bytes_cmp_eq. Qed.

Lemma bytes_cmp_antisym a b : bytes_cmp b a = CompOpp (bytes_cmp a b).
Proof.
  revert b. induction a as [|x a IH]; intros [|y b]; cbn; try done.
  rewrite (N.compare_antisym (Byte.to_N x)).
  destruct (Byte.to_N x ?= Byte.to_N y); cbn; auto.
Qed.

Lemma bytes_cmp_lt_trans a b c : bytes_cmp a b = Lt -> bytes_cmp b c = Lt -> bytes_cmp a c = Lt.
Proof.
  revert b c. induction a as [|x a IH]; intros [|y b] [|z c]; cbn; try done.
  destruct (N.compare_spec (Byte.to_N x) (Byte.to_N y)) as [E| |];
    destruct (N.compare_spec (Byte.to_N y) (Byte.to_N z)) as [F| |]; try done;
    destruct (N.compare_spec (Byte.to_N x) (Byte.to_N z)); try done; try lia.
  apply IH.
Qed.

(** ** UTF-8 *)

Lemma utf8_ascii l : Forall (fun b => Byte.to_N b < 128) l -> utf8_valid l = true.
Proof.
  induction 1 as [|b l Hb _ IH]; [done|].
  cbn. apply N.ltb_lt in Hb. by rewrite Hb.
Qed.

#[export] Hint Rewrite @blen_app @blen_cons @blen_nil be_bytes_blen be_bytes_length : fitz.
#[export] Hint Resolve byte_to_N_lt from_be_bound : fitz.
