(* ===== verification/Errors.v ===== *)
(** * Errors

    [src/src/error.rs]: the stable error categories, the error type every
    operation returns, its classification ([kind], [is_retryable],
    [is_auth_failure], [domain_message]), its rendering and the conversion
    from an I/O error. *)

From S2P Require Import Prelude.

(** ** Broker error codes ([error_code]) *)

Module error_code.

Definition KV_INVALID_SUBSCRIPTION_PATTERN : N := 1003.
Definition KV_SUBSCRIPTION_LIMIT : N := 1004.
Definition KV_BUSY : N := 1005.
Definition STREAM_INVALID_SUBSCRIPTION_PATTERN : N := 2003.
Definition STREAM_SUBSCRIPTION_LIMIT : N := 2004.
Definition STREAM_BUSY : N := 2005.
Definition NOTICE_INVALID_PATTERN : N := 3003.
Definition NOTICE_SUBSCRIPTION_LIMIT : N := 3004.
Definition NOTICE_BUSY : N := 3005.
Definition QUEUE_INVALID_SUBSCRIPTION_PATTERN : N := 4003.
Definition QUEUE_SUBSCRIPTION_LIMIT : N := 4004.
Definition LEASE_BAD_REQUEST : N := 5008.
Definition LEASE_QUEUE_FULL : N := 5005.
Definition LEASE_INVALID_SUBSCRIPTION_ROUTE : N := 5002.
Definition LEASE_INVALID_LIST_CURSOR : N := 5057.
Definition LEASE_INVALID_LIST_PATTERN : N := 5003.
Definition RPC_INVALID_SUBSCRIPTION_PATTERN : N := 6003.
Definition RPC_SUBSCRIPTION_LIMIT : N := 6004.
Definition SCHEDULE_INVALID_SUBSCRIPTION_PATTERN : N := 7003.
Definition SCHEDULE_SUBSCRIPTION_LIMIT : N := 7004.
Definition SCHEDULE_BACKEND_ERROR : N := 7006.

End error_code.

(** ** Error categories and errors *)

Inductive FitzErrorKind : Set :=
| KAuthentication
| KCanceled
| KTimeout
| KConnection
| KTransport
| KProtocol
| KBackpressure
| KStaleHandle
| KDomain
| KLeaseAlreadyQueued
| KClosed
| KConnectionClosed.

Inductive FitzError : Set :=
| Authentication (message : bytes)
| Canceled
| Timeout
| Connection (message : bytes)
| Transport (message : bytes)
| Protocol (message : bytes)
| VersionMismatch (code : N) (message : bytes)
| Codec (message : bytes)
| Backpressure (message : bytes)
| StaleHandle
| Domain (code : N) (message : bytes)
| DomainWire (code class effect : N) (message : bytes)
| DomainError (message : bytes)
| LeaseAlreadyQueued
| AuthFailed (message : bytes)
| ConnectionClosed
| FrameTooLarge (size : N)
| SerializationError (message : bytes)
| Closed.

#[export] Instance FitzErrorKind_eq_dec : EqDecision FitzErrorKind.
Proof. solve_decision. Defined.
#[export] Instance FitzError_eq_dec : EqDecision FitzError.
Proof. solve_decision. Defined.

(** [Result<T>] of the crate. *)
Abbreviation Result := (result FitzError).

Definition kind (e : FitzError) : FitzErrorKind :=
  match e with
  | Authentication _ | AuthFailed _ => KAuthentication
  | Canceled => KCanceled
  | Timeout => KTimeout
  | Connection _ => KConnection
  | Transport _ => KTransport
  | Protocol _ | VersionMismatch _ _ | Codec _ | FrameTooLarge _ | SerializationError _ =>
      KProtocol
  | Backpressure _ => KBackpressure
  | StaleHandle => KStaleHandle
  | Domain _ _ | DomainWire _ _ _ _ | DomainError _ => KDomain
  | LeaseAlreadyQueued => KLeaseAlreadyQueued
  | Closed => KClosed
  | ConnectionClosed => KConnectionClosed
  end.

Definition is_retryable (e : FitzError) : bool :=
  match e with
  | Timeout | Connection _ | Transport _ | Backpressure _ | ConnectionClosed => true
  | DomainWire code class effect _ =>
      (effect =? 0)
      && ((class =? 5)
          || ((code =? 1053) || (code =? 5050) || (code =? 5056) || (code =? 6051)))
  | _ => false
  end.

Definition domain_message (e : FitzError) : option bytes :=
  match e with
  | Domain _ message | DomainWire _ _ _ message | DomainError message => Some message
  | _ => None
  end.

Definition is_auth_failure (e : FitzError) : bool :=
  match e with
  | Authentication _ | AuthFailed _ => true
  | _ => false
  end.

(** [Display], from the [#[error("...")]] attributes. *)
Definition to_string (e : FitzError) : bytes :=
  match e with
  | Authentication message => str "authentication rejected: " ++ message
  | Canceled => str "operation canceled"
  | Timeout => str "operation timed out"
  | Connection m => str "connection error: " ++ m
  | Transport m => str "transport error: " ++ m
  | Protocol m => str "protocol error: " ++ m
  | VersionMismatch code message =>
      str "wire version mismatch (" ++ dec code ++ str "): " ++ message
  | Codec m => str "codec error: " ++ m
  | Backpressure m => str "backpressure limit reached: " ++ m
  | StaleHandle => str "handle belongs to an earlier connection session"
  | Domain code message => str "domain error " ++ dec code ++ str ": " ++ message
  | DomainWire code class effect message =>
      str "domain error " ++ dec code ++ str " (class " ++ dec class ++ str ", effect "
        ++ dec effect ++ str "): " ++ message
  | DomainError m => str "domain error: " ++ m
  | LeaseAlreadyQueued => str "lease acquisition is already queued"
  | AuthFailed m => str "authentication rejected: " ++ m
  | ConnectionClosed => str "connection is closed"
  | FrameTooLarge n => str "frame too large: " ++ dec n
  | SerializationError m => str "serialization error: " ++ m
  | Closed => str "client is closed"
  end.

(** What [From<std::io::Error>] looks at: whether the error's kind is
    [ErrorKind::TimedOut], and its rendering. *)
Record io_error : Set := { io_timed_out : bool; io_text : bytes }.

Definition from_io (error : io_error) : FitzError :=
  if io_timed_out error then Timeout else Transport (io_text error).

(** ** Properties *)

(** An error that reports a domain outcome is retried only when the broker
    confirmed that the command had no effect. *)
Lemma retryable_domain_no_effect code class effect message :
  is_retryable (DomainWire code class effect message) = true -> effect = 0.
Proof. cbn. intros H. bool_to_prop. done. Qed.

Lemma auth_failure_kind e : is_auth_failure e = true <-> kind e = KAuthentication.
Proof. destruct e; cbn; split; done. Qed.

Lemma retryable_not_protocol e : is_retryable e = true -> kind e <> KProtocol.
Proof. destruct e; cbn; done. Qed.

Lemma retryable_not_auth e : is_retryable e = true -> is_auth_failure e = false.
Proof. destruct e; cbn; done. Qed.
