(* ===== verification/Protocol.v ===== *)
(** * Protocol

    [src/src/protocol.rs]: the message types, by domain, and the KV transaction
    modes. *)

From S2P Require Import Prelude.

Module message_type.

(** Control channel messages (0-99) *)
Definition CONNECT : N := 1.
Definition HELLO : N := 2.
Definition CONNECT_REJECTED : N := 3.
Definition GOAWAY : N := 4.

(** KV domain (100-199) *)
Definition KV_BEGIN : N := 100.
Definition KV_COMMIT : N := 101.
Definition KV_ROLLBACK : N := 102.
Definition KV_GET : N := 103.
Definition KV_PUT : N := 104.
Definition KV_INSERT : N := 105.
Definition KV_DELETE : N := 106.
Definition KV_DELETE_RANGE : N := 107.
Definition KV_SCAN : N := 108.
Definition KV_SUBSCRIBE : N := 109.
Definition KV_UNSUBSCRIBE : N := 110.
Definition KV_NOTIFY : N := 111.

(** Queue domain (200-299) *)
Definition QUEUE_ENQUEUE : N := 200.
Definition QUEUE_RESERVE : N := 202.
Definition QUEUE_EXTEND : N := 203.
Definition QUEUE_COMPLETE : N := 204.
Definition QUEUE_SUBSCRIBE : N := 207.
Definition QUEUE_UNSUBSCRIBE : N := 208.
Definition QUEUE_NOTIFY : N := 209.
Definition QUEUE_NACK : N := 210.

(** RPC domain (300-399) *)
Definition RPC_SUBSCRIBE : N := 300.
Definition RPC_UNSUBSCRIBE : N := 301.
Definition RPC_REQUEST : N := 302.
Definition RPC_RESPONSE : N := 303.
Definition RPC_CANCEL : N := 304.
Definition RPC_LIFECYCLE : N := 305.

(** Lease domain (400-499) *)
Definition LEASE_ACQUIRE : N := 400.
Definition LEASE_RENEW : N := 401.
Definition LEASE_RELEASE : N := 402.
Definition LEASE_QUERY : N := 403.
Definition LEASE_SUBSCRIBE : N := 407.
Definition LEASE_UNSUBSCRIBE : N := 408.
Definition LEASE_NOTIFY : N := 409.
Definition LEASE_LIST : N := 410.

(** Notice domain (500-599) *)
Definition NOTICE_PUBLISH : N := 500.
Definition NOTICE_SUBSCRIBE : N := 501.
Definition NOTICE_UNSUBSCRIBE : N := 502.
Definition NOTICE_UNSUBSCRIBE_ALL : N := 503.
Definition NOTICE_NOTIFY : N := 504.

(** Stream domain (600-699) *)
Definition STREAM_BEGIN : N := 600.
Definition STREAM_APPEND : N := 601.
Definition STREAM_COMMIT : N := 602.
Definition STREAM_ROLLBACK : N := 603.
Definition STREAM_READ : N := 604.
Definition STREAM_LAST : N := 605.
Definition STREAM_GET_METADATA : N := 606.
Definition STREAM_SUBSCRIBE : N := 607.
Definition STREAM_UNSUBSCRIBE : N := 608.
Definition STREAM_NOTIFY : N := 609.

(** Schedule domain (700-799) *)
Definition SCHEDULE_CREATE : N := 700.
Definition SCHEDULE_CANCEL : N := 701.
Definition SCHEDULE_LIST_PAGE : N := 702.
Definition SCHEDULE_SUBSCRIBE : N := 703.
Definition SCHEDULE_UNSUBSCRIBE : N := 704.
Definition SCHEDULE_NOTIFY : N := 705.
Definition SCHEDULE_CREATE_BATCH : N := 706.

(** Every message type, in the order of the source. *)
Definition all : list N :=
  [CONNECT; HELLO; CONNECT_REJECTED; GOAWAY;
   KV_BEGIN; KV_COMMIT; KV_ROLLBACK; KV_GET;
   KV_PUT; KV_INSERT; KV_DELETE; KV_DELETE_RANGE;
   KV_SCAN; KV_SUBSCRIBE; KV_UNSUBSCRIBE; KV_NOTIFY;
   QUEUE_ENQUEUE; QUEUE_RESERVE; QUEUE_EXTEND; QUEUE_COMPLETE;
   QUEUE_SUBSCRIBE; QUEUE_UNSUBSCRIBE; QUEUE_NOTIFY; QUEUE_NACK;
   RPC_SUBSCRIBE; RPC_UNSUBSCRIBE; RPC_REQUEST; RPC_RESPONSE;
   RPC_CANCEL; RPC_LIFECYCLE; LEASE_ACQUIRE; LEASE_RENEW;
   LEASE_RELEASE; LEASE_QUERY; LEASE_SUBSCRIBE; LEASE_UNSUBSCRIBE;
   LEASE_NOTIFY; LEASE_LIST; NOTICE_PUBLISH; NOTICE_SUBSCRIBE;
   NOTICE_UNSUBSCRIBE; NOTICE_UNSUBSCRIBE_ALL; NOTICE_NOTIFY; STREAM_BEGIN;
   STREAM_APPEND; STREAM_COMMIT; STREAM_ROLLBACK; STREAM_READ;
   STREAM_LAST; STREAM_GET_METADATA; STREAM_SUBSCRIBE; STREAM_UNSUBSCRIBE;
   STREAM_NOTIFY; SCHEDULE_CREATE; SCHEDULE_CANCEL; SCHEDULE_LIST_PAGE;
   SCHEDULE_SUBSCRIBE; SCHEDULE_UNSUBSCRIBE; SCHEDULE_NOTIFY; SCHEDULE_CREATE_BATCH].

End message_type.

(** [TransactionMode], whose discriminants go on the wire. *)
Inductive TransactionMode : Set := ReadOnly | ReadWrite.

#[export] Instance TransactionMode_eq_dec : EqDecision TransactionMode.
Proof. solve_decision. Defined.

(** [mode as u8]. *)
Definition mode_byte (mode : TransactionMode) : N :=
  match mode with ReadOnly => 0 | ReadWrite => 1 end.

(** No two messages share a type, so a pending queue keyed by message type
    belongs to one operation; none is zero and all fit sixteen bits. *)
Lemma message_types_distinct :
  NoDup message_type.all /\ Forall (fun t => 0 < t < 2 ^ 16) message_type.all.
Proof. split; [by apply (bool_decide_unpack _) | by apply (bool_decide_unpack _)]. Qed.
