(* ===== verification/Codec.v ===== *)
(** * Codec

    [src/src/codec.rs]: the payload encoder and decoder (fixed-order typed
    fields) and the Wire 3 frame header.  The decoder is the state monad
    [Dec]; [Reads g l a] states that the reader [g] consumes exactly the bytes
    [l] and returns [a], and composes along [bind], which is how the round
    trips of the development are proved. *)

From S2P Require Import Prelude Errors.

(** ** PayloadEncoder

    [enc_panic] records that an [expect] of the source failed: a field longer
    than [u32::MAX] bytes panics.  Every other put leaves it alone. *)
Record PayloadEncoder : Type := { enc_buf : bytes; enc_panic : bool }.

Definition PayloadEncoder_new : PayloadEncoder := {| enc_buf := []; enc_panic := false |}.

Definition extend (l : bytes) (e : PayloadEncoder) : PayloadEncoder :=
  {| enc_buf := enc_buf e ++ l; enc_panic := enc_panic e |}.

Definition put_u8 (value : N) (e : PayloadEncoder) : PayloadEncoder := extend [byte_of_N value] e.
Definition put_u16 (value : N) (e : PayloadEncoder) : PayloadEncoder := extend (be_bytes 2 value) e.
Definition put_u32 (value : N) (e : PayloadEncoder) : PayloadEncoder := extend (be_bytes 4 value) e.
Definition put_u64 (value : N) (e : PayloadEncoder) : PayloadEncoder := extend (be_bytes 8 value) e.

Definition put_bytes (l : bytes) (e : PayloadEncoder) : PayloadEncoder :=
  if u32_max <? blen l
  then {| enc_buf := enc_buf e; enc_panic := true |}
  else extend l (extend (be_bytes 4 (blen l)) e).

Definition put_raw (l : bytes) (e : PayloadEncoder) : PayloadEncoder := extend l e.

Definition put_string (s : bytes) (e : PayloadEncoder) : PayloadEncoder :=
  if u32_max <? blen s
  then {| enc_buf := enc_buf e; enc_panic := true |}
  else extend s (extend (be_bytes 4 (blen s)) e).

Definition finish (e : PayloadEncoder) : bytes := enc_buf e.

(** ** PayloadDecoder *)

Record PayloadDecoder : Type := { dec_buf : bytes; dec_pos : N }.

Definition PayloadDecoder_new (buf : bytes) : PayloadDecoder := {| dec_buf := buf; dec_pos := 0 |}.

(** A reader: [&mut PayloadDecoder -> Result<A>].  A decoder is dropped as soon
    as one of its reads fails, so a failed read returns no decoder. *)
Definition Dec (A : Type) : Type := PayloadDecoder -> Result (A * PayloadDecoder).

#[export] Instance Dec_mret : MRet Dec := fun A a d => Ok (a, d).
#[export] Instance Dec_mbind : MBind Dec := fun A B f g d =>
  match g d with
  | Ok (a, d') => f a d'
  | Err e => Err e
  end.

Definition dec_fail {A : Type} (e : FitzError) : Dec A := fun _ => Err e.

Definition not_enough : FitzError := Codec (str "Not enough bytes").

Definition check_len (n : N) (d : PayloadDecoder) : Result unit :=
  if blen (dec_buf d) <? dec_pos d + n then Err not_enough else Ok tt.

Definition advance (n : N) (d : PayloadDecoder) : PayloadDecoder :=
  {| dec_buf := dec_buf d; dec_pos := dec_pos d + n |}.

(** [check_len(n)?; let bytes = &self.buf[pos..pos + n]; self.pos += n;] *)
Definition get_slice (n : N) : Dec bytes := fun d =>
  match check_len n d with
  | Ok _ => Ok (slice (dec_pos d) (dec_pos d + n) (dec_buf d), advance n d)
  | Err e => Err e
  end.

Definition get_u8 : Dec N := l <- get_slice 1;; mret (from_be l).
Definition get_u16 : Dec N := l <- get_slice 2;; mret (from_be l).
Definition get_u32 : Dec N := l <- get_slice 4;; mret (from_be l).
Definition get_u64 : Dec N := l <- get_slice 8;; mret (from_be l).
Definition get_bytes : Dec bytes := len <- get_u32;; get_slice len.
(** [get_fixed::<N>]. *)
Definition get_fixed (n : N) : Dec bytes := get_slice n.
Definition get_string : Dec bytes :=
  l <- get_bytes;;
  if utf8_valid l then mret l else dec_fail (Codec (str "Invalid UTF-8")).

Definition remaining (d : PayloadDecoder) : N := blen (dec_buf d) - dec_pos d.
Definition is_empty (d : PayloadDecoder) : bool := blen (dec_buf d) <=? dec_pos d.

(** [for _ in 0..count { items.push(item(&mut decoder)?) }]. *)
Fixpoint get_list {A : Type} (count : nat) (item : Dec A) : Dec (list A) :=
  match count with
  | O => mret []
  | S count' => x <- item;; l <- get_list count' item;; mret (x :: l)
  end.

(** [decoder.is_empty()] and [decoder.remaining()] as readers that consume
    nothing, for code that tests them between reads. *)
Definition at_end : Dec bool := fun d => Ok (is_empty d, d).
Definition bytes_left : Dec N := fun d => Ok (remaining d, d).

(** [f(..)?] between reads. *)
Definition lift_result {A : Type} (r : Result A) : Dec A := fun d =>
  match r with Ok a => Ok (a, d) | Err e => Err e end.

(** Run a reader on a whole buffer and drop the decoder. *)
Definition run_dec {A : Type} (g : Dec A) (buf : bytes) : Result A :=
  match g (PayloadDecoder_new buf) with
  | Ok (a, _) => Ok a
  | Err e => Err e
  end.

(** ** Frames *)

Definition FRAME_HEADER_LEN : N := 15.
Definition MAX_MESSAGE_SIZE : N := 1048576.
Definition ACK_REQUESTED : N := 1.
Definition RESPONSE_FINAL : N := 2.
(** [wire3::EXTENSIONS_PRESENT], which [VALID_FLAGS] includes. *)
Definition EXTENSIONS_PRESENT : N := 4.
Definition VALID_FLAGS : N := N.lor (N.lor ACK_REQUESTED RESPONSE_FINAL) EXTENSIONS_PRESENT.

Record FrameHeader : Set := {
  message_type : N;
  flags : N;
  correlation_id : N;
  payload_start : N;
}.

Definition unsupported_flags (flags : N) : FitzError :=
  Protocol (str "unsupported frame flags " ++ hex flags).

Definition try_encode_frame (msg_type flags correlation_id : N) (payload : bytes) : Result bytes :=
  let message_size := saturating_add usize_max FRAME_HEADER_LEN (blen payload) in
  if (MAX_MESSAGE_SIZE <? message_size) || (u32_max <? blen payload)
  then Err (FrameTooLarge message_size)
  else if negb (N.ldiff flags VALID_FLAGS =? 0)
  then Err (unsupported_flags flags)
  else Ok (be_bytes 2 msg_type ++ [byte_of_N flags] ++ be_bytes 8 correlation_id
             ++ be_bytes 4 (blen payload) ++ payload).

Definition try_encode_message_frame (msg_type : N) (payload : bytes) : Result bytes :=
  try_encode_frame msg_type 0 0 payload.

Definition decode_frame_header (buf : bytes) : Result FrameHeader :=
  if blen buf <? FRAME_HEADER_LEN
  then Err (Codec (str "truncated Wire 3 frame header"))
  else
    let message_type := from_be (slice 0 2 buf) in
    let flags := from_be (slice 2 3 buf) in
    if negb (N.ldiff flags VALID_FLAGS =? 0)
    then Err (unsupported_flags flags)
    else
      let correlation_id := from_be (slice 3 11 buf) in
      let payload_len := from_be (slice 11 15 buf) in
      let expected := saturating_add usize_max FRAME_HEADER_LEN payload_len in
      if MAX_MESSAGE_SIZE <? expected
      then Err (FrameTooLarge expected)
      else if negb (blen buf =? expected)
      then Err (Codec (str "Wire 3 frame length does not match payload size"))
      else Ok {| message_type := message_type; flags := flags;
                 correlation_id := correlation_id; payload_start := FRAME_HEADER_LEN |}.

(** [&frame[header.payload_start..]]. *)
Definition frame_payload (header : FrameHeader) (frame : bytes) : bytes :=
  drop (N.to_nat (payload_start header)) frame.

(** ** Specification vocabulary *)

(** The bytes a decoder has not consumed, and the decoders that stay inside
    their buffer. *)
Definition rest (d : PayloadDecoder) : bytes := drop (N.to_nat (dec_pos d)) (dec_buf d).
Definition dec_wf (d : PayloadDecoder) : Prop := dec_pos d <= blen (dec_buf d).

(** [g] reads exactly the bytes [l] and returns [a]. *)
Class Reads {A : Type} (g : Dec A) (l : bytes) (a : A) : Prop :=
  reads : forall d tail, dec_wf d -> rest d = l ++ tail -> g d = Ok (a, advance (blen l) d).

(** Whatever [g] returns, it consumed an encoding of it. *)
Class Sound {A : Type} (g : Dec A) (enc : A -> bytes -> Prop) : Prop :=
  sound : forall d a d', dec_wf d -> g d = Ok (a, d') ->
    exists l, enc a l /\ rest d = l ++ rest d' /\ d' = advance (blen l) d /\ dec_wf d'.

(** Both: [g] reads exactly the encodings [enc] describes. *)
Class Exact {A : Type} (g : Dec A) (enc : A -> bytes -> Prop) : Prop := {
  exact_sound :: Sound g enc;
  exact_reads a l : enc a l -> Reads g l a;
}.

(** The encodings of the primitive fields. *)
Definition enc_uint (k : nat) (v : N) (l : bytes) : Prop :=
  v < 2 ^ (8 * N.of_nat k) /\ l = be_bytes k v.
Definition enc_raw (n : N) (v l : bytes) : Prop := l = v /\ blen v = n.
Definition enc_bytes (v l : bytes) : Prop := blen v <= u32_max /\ l = be_bytes 4 (blen v) ++ v.
Definition enc_string (v l : bytes) : Prop := utf8_valid v = true /\ enc_bytes v l.
(** An encoding of a list of items, one after the other. *)
Inductive enc_items {A : Type} (enc : A -> bytes -> Prop) : list A -> bytes -> Prop :=
| enc_items_nil : enc_items enc [] []
| enc_items_cons x l lx ll : enc x lx -> enc_items enc l ll -> enc_items enc (x :: l) (lx ++ ll).

(** ** Decoder facts *)

Lemma dec_bindE {A B} (g : Dec A) (k : A -> Dec B) d :
  mbind k g d = match g d with Ok (a, d') => k a d' | Err e => Err e end.
Proof. done. Qed.

Lemma new_wf buf : dec_wf (PayloadDecoder_new buf).
Proof. unfold dec_wf. cbn. lia. Qed.

Lemma new_rest buf : rest (PayloadDecoder_new buf) = buf.
Proof. done. Qed.

Lemma rest_blen d : blen (rest d) = blen (dec_buf d) - dec_pos d.
Proof. unfold rest, blen. rewrite length_drop. lia. Qed.

Lemma remaining_rest d : remaining d = blen (rest d).
Proof. symmetry. apply rest_blen. Qed.

Lemma is_empty_rest d : dec_wf d -> is_empty d = bool_decide (rest d = []).
Proof.
  intros Hwf. unfold is_empty, dec_wf in *. pose proof (rest_blen d) as Hr.
  destruct (N.leb_spec (blen (dec_buf d)) (dec_pos d)).
  - rewrite bool_decide_eq_true_2; [done|]. apply blen_zero. lia.
  - rewrite bool_decide_eq_false_2; [done|]. intros E. rewrite E, blen_nil in Hr. lia.
Qed.

Lemma rest_advance d l tail :
  rest d = l ++ tail -> rest (advance (blen l) d) = tail.
Proof.
  unfold rest, advance, blen. cbn. intros H.
  rewrite N2Nat.inj_add, Nat2N.id, <- drop_drop, H. apply drop_app_length.
Qed.

Lemma wf_advance d l tail : dec_wf d -> rest d = l ++ tail -> dec_wf (advance (blen l) d).
Proof.
  unfold dec_wf. intros Hwf H. pose proof (rest_blen d) as Hr. rewrite H, blen_app in Hr.
  cbn. lia.
Qed.

Lemma advance_advance a b d : advance b (advance a d) = advance (a + b) d.
Proof. unfold advance. cbn. f_equal. lia. Qed.

Lemma advance_0 d : advance 0 d = d.
Proof. unfold advance. rewrite N.add_0_r. by destruct d. Qed.

Lemma get_slice_spec n d :
  dec_wf d ->
  get_slice n d =
    if n <=? blen (rest d) then Ok (take (N.to_nat n) (rest d), advance n d) else Err not_enough.
Proof.
  intros Hwf. unfold dec_wf in Hwf. unfold get_slice, check_len. rewrite rest_blen.
  destruct (N.ltb_spec (blen (dec_buf d)) (dec_pos d + n));
    destruct (N.leb_spec n (blen (dec_buf d) - dec_pos d)); try lia; [done|].
  unfold slice, rest. replace (dec_pos d + n - dec_pos d) with n by lia. done.
Qed.

(** ** [Reads] and [Sound] compose *)

#[export] Instance reads_ret {A} (a : A) : Reads (mret a) [] a.
Proof. intros d tail _ _. rewrite blen_nil, advance_0. done. Qed.

#[export] Instance reads_bind {A B} (g : Dec A) (k : A -> Dec B) l1 l2 a b :
  Reads g l1 a -> Reads (k a) l2 b -> Reads (mbind k g) (l1 ++ l2) b.
Proof.
  intros H1 H2 d tail Hwf Hd. rewrite <- app_assoc in Hd.
  unfold mbind, Dec_mbind. rewrite (H1 _ _ Hwf Hd).
  rewrite (H2 (advance (blen l1) d) tail).
  - by rewrite advance_advance, blen_app.
  - by eapply wf_advance.
  - by apply rest_advance.
Qed.

Lemma sound_ret {A} (a : A) : Sound (mret a) (fun x l => x = a /\ l = []).
Proof.
  intros d x d' Hwf [= <- <-]. exists []. rewrite blen_nil, advance_0. done.
Qed.

Lemma sound_bind {A B} (g : Dec A) (k : A -> Dec B) E1 E2 :
  Sound g E1 -> (forall a, Sound (k a) (E2 a)) ->
  Sound (mbind k g) (fun b l => exists a l1 l2, l = l1 ++ l2 /\ E1 a l1 /\ E2 a b l2).
Proof.
  intros H1 H2 d b d' Hwf H. unfold mbind, Dec_mbind in H.
  destruct (g d) as [[a d1]|] eqn:E; [|discriminate].
  destruct (H1 _ _ _ Hwf E) as (l1 & He1 & Hr1 & -> & Hwf1).
  destruct (H2 _ _ _ _ Hwf1 H) as (l2 & He2 & Hr2 & -> & Hwf2).
  exists (l1 ++ l2). split; [by exists a, l1, l2|].
  rewrite Hr1, Hr2, app_assoc. rewrite advance_advance, <- blen_app in *. done.
Qed.

Lemma sound_fail {A} e (enc : A -> bytes -> Prop) : Sound (dec_fail e) enc.
Proof. intros d a d' _ H. discriminate H. Qed.

Lemma sound_weaken {A} (g : Dec A) (E F : A -> bytes -> Prop) :
  Sound g E -> (forall a l, E a l -> F a l) -> Sound g F.
Proof.
  intros H HEF d a d' Hwf Hg. destruct (H _ _ _ Hwf Hg) as (l & ? & ? & ? & ?). eauto 6.
Qed.

#[export] Instance reads_slice l : Reads (get_slice (blen l)) l l.
Proof.
  intros d tail Hwf Hd. rewrite get_slice_spec by done. rewrite Hd, blen_app.
  destruct (N.leb_spec (blen l) (blen l + blen tail)); [|lia].
  unfold blen. rewrite Nat2N.id, take_app_length. done.
Qed.

Lemma sound_slice n : Sound (get_slice n) (enc_raw n).
Proof.
  intros d a d' Hwf. rewrite get_slice_spec by done.
  destruct (N.leb_spec n (blen (rest d))) as [Hn|]; intros Hg; [|discriminate].
  injection Hg as <- <-.
  assert (Hl : blen (take (N.to_nat n) (rest d)) = n).
  { unfold blen in *. rewrite length_take. lia. }
  assert (Hr : rest d = take (N.to_nat n) (rest d) ++ drop (N.to_nat n) (rest d))
    by (symmetry; apply take_drop).
  pose proof (rest_advance _ _ _ Hr) as Hr'. pose proof (wf_advance _ _ _ Hwf Hr) as Hwf'.
  rewrite Hl in Hr', Hwf'.
  exists (take (N.to_nat n) (rest d)). rewrite Hr', Hl. done.
Qed.

Lemma reads_uint k v :
  v < 2 ^ (8 * N.of_nat k) ->
  Reads (l <- get_slice (N.of_nat k);; mret (from_be l)) (be_bytes k v) v.
Proof.
  intros Hv. rewrite <- (app_nil_r (be_bytes k v)).
  replace (N.of_nat k) with (blen (be_bytes k v)) by apply be_bytes_blen.
  eapply reads_bind; [apply reads_slice|]. rewrite from_be_be_bytes_small by done.
  apply reads_ret.
Qed.

Lemma sound_uint k : Sound (l <- get_slice (N.of_nat k);; mret (from_be l)) (enc_uint k).
Proof.
  eapply sound_weaken; [eapply sound_bind; [apply sound_slice | intros; apply sound_ret] |].
  intros v ? (a & l1 & l2 & -> & [-> Ha] & -> & ->).
  assert (length a = k) by (unfold blen in Ha; lia).
  rewrite app_nil_r. split.
  - rewrite <- Ha. apply from_be_bound.
  - symmetry. by apply be_bytes_from_be'.
Qed.

Lemma reads_u8 v : v < 256 -> Reads get_u8 (be_bytes 1 v) v.
Proof. apply (reads_uint 1). Qed.
Lemma reads_u16 v : v < 2 ^ 16 -> Reads get_u16 (be_bytes 2 v) v.
Proof. apply (reads_uint 2). Qed.
Lemma reads_u32 v : v < 2 ^ 32 -> Reads get_u32 (be_bytes 4 v) v.
Proof. apply (reads_uint 4). Qed.
Lemma reads_u64 v : v < 2 ^ 64 -> Reads get_u64 (be_bytes 8 v) v.
Proof. apply (reads_uint 8). Qed.

Lemma sound_u8 : Sound get_u8 (enc_uint 1).
Proof. apply (sound_uint 1). Qed.
Lemma sound_u16 : Sound get_u16 (enc_uint 2).
Proof. apply (sound_uint 2). Qed.
Lemma sound_u32 : Sound get_u32 (enc_uint 4).
Proof. apply (sound_uint 4). Qed.
Lemma sound_u64 : Sound get_u64 (enc_uint 8).
Proof. apply (sound_uint 8). Qed.

Lemma reads_bytes v : blen v <= u32_max -> Reads get_bytes (be_bytes 4 (blen v) ++ v) v.
Proof.
  intros Hv. eapply reads_bind; [apply reads_u32 | apply reads_slice].
  unfold u32_max in Hv. lia.
Qed.

Lemma sound_bytes : Sound get_bytes enc_bytes.
Proof.
  eapply sound_weaken; [eapply sound_bind; [apply sound_u32 | intros; apply sound_slice] |].
  intros v ? (n & l1 & l2 & -> & [Hn ->] & -> & Hl). subst n.
  split; [unfold u32_max; change (2 ^ (8 * N.of_nat 4)) with 4294967296 in Hn; lia | done].
Qed.

Lemma reads_string v :
  utf8_valid v = true -> blen v <= u32_max -> Reads get_string (be_bytes 4 (blen v) ++ v) v.
Proof.
  intros Hu Hv. rewrite <- (app_nil_r (_ ++ v)).
  eapply reads_bind; [by apply reads_bytes|]. rewrite Hu. apply reads_ret.
Qed.

Lemma sound_string : Sound get_string enc_string.
Proof.
  eapply sound_weaken.
  - eapply (sound_bind _ _ _ (fun a v l => utf8_valid a = true /\ v = a /\ l = []));
      [apply sound_bytes|].
    intros a. destruct (utf8_valid a); [|apply sound_fail].
    eapply sound_weaken; [apply sound_ret|]. done.
  - intros v ? (a & l1 & l2 & -> & H1 & Hu & -> & ->). rewrite app_nil_r. done.
Qed.

Lemma reads_items {A} (item : Dec A) (enc : A -> bytes) (l : list A) :
  Forall (fun x => Reads item (enc x) x) l ->
  Reads (get_list (length l) item) (concat (map enc l)) l.
Proof.
  induction 1 as [|x l Hx _ IH]; cbn [length get_list map concat]; [apply reads_ret|].
  eapply reads_bind; [exact Hx|]. rewrite <- (app_nil_r (concat _)).
  eapply reads_bind; [exact IH | apply reads_ret].
Qed.

Lemma sound_list {A} (item : Dec A) enc n :
  Sound item enc ->
  Sound (get_list n item) (fun l b => length l = n /\ enc_items enc l b).
Proof.
  intros Hi. induction n as [|n IH]; cbn [get_list].
  - eapply sound_weaken; [apply sound_ret|]. intros l b [-> ->]. split; [done | constructor].
  - eapply sound_weaken.
    + eapply sound_bind; [exact Hi|]. intros x. eapply sound_bind; [exact IH|].
      intros l. apply sound_ret.
    + intros l b (x & l1 & l2 & -> & Hx & xs & l3 & l4 & -> & [Hn Hxs] & -> & ->).
      rewrite app_nil_r. split; [cbn; congruence | by constructor].
Qed.

(** A whole-buffer run: what [Reads] and [Sound] say of [run_dec]. *)
Lemma run_reads {A} (g : Dec A) l a : Reads g l a -> run_dec g l = Ok a.
Proof.
  intros H. unfold run_dec. rewrite (H _ []); [done | apply new_wf | by rewrite app_nil_r].
Qed.

Lemma run_sound {A} (g : Dec A) enc buf a :
  Sound g enc -> run_dec g buf = Ok a -> exists l tail, buf = l ++ tail /\ enc a l.
Proof.
  intros H. unfold run_dec. destruct (g _) as [[x d]|] eqn:E; [|discriminate].
  intros [= ->]. destruct (H _ _ _ (new_wf buf) E) as (l & He & Hr & _).
  rewrite new_rest in Hr. eauto.
Qed.

(** ** Exact readers compose *)

Lemma exact_ret {A} (a : A) : Exact (mret a) (fun x l => x = a /\ l = []).
Proof. split; [apply sound_ret|]. intros ? ? [-> ->]. apply reads_ret. Qed.

Lemma exact_fail {A} e : Exact (A := A) (dec_fail e) (fun _ _ => False).
Proof. split; [apply sound_fail | done]. Qed.

Lemma exact_bind {A B} (g : Dec A) (k : A -> Dec B) E1 E2 :
  Exact g E1 -> (forall a, Exact (k a) (E2 a)) ->
  Exact (mbind k g) (fun b l => exists a l1 l2, l = l1 ++ l2 /\ E1 a l1 /\ E2 a b l2).
Proof.
  intros H1 H2. split.
  - apply sound_bind; [apply H1 | intros; apply H2].
  - intros b l (a & l1 & l2 & -> & He1 & He2). eapply reads_bind; by apply exact_reads.
Qed.

(** A final [mret] consumes nothing. *)
Lemma exact_map {A B} (g : Dec A) (f : A -> B) E :
  Exact g E -> Exact (x <- g;; mret (f x)) (fun b l => exists a, b = f a /\ E a l).
Proof.
  intros H. split.
  - eapply sound_weaken; [apply sound_bind; [apply H | intros; apply sound_ret]|].
    intros b l (a & l1 & l2 & -> & ? & -> & ->). rewrite app_nil_r. eauto.
  - intros b l (a & -> & He). rewrite <- (app_nil_r l).
    eapply reads_bind; [by apply exact_reads | apply reads_ret].
Qed.

Lemma exact_if {A} (b : bool) (g h : Dec A) E F :
  Exact g E -> Exact h F -> Exact (if b then g else h) (fun a l => if b then E a l else F a l).
Proof. by destruct b. Qed.

Lemma enc_uint_intro k v : v < 2 ^ (8 * N.of_nat k) -> enc_uint k v (be_bytes k v).
Proof. done. Qed.
Lemma enc_bytes_intro v : blen v <= u32_max -> enc_bytes v (be_bytes 4 (blen v) ++ v).
Proof. done. Qed.
Lemma enc_string_intro v :
  utf8_valid v = true -> blen v <= u32_max -> enc_string v (be_bytes 4 (blen v) ++ v).
Proof. done. Qed.

Lemma exact_iff {A} (g : Dec A) (E F : A -> bytes -> Prop) :
  Exact g E -> (forall a l, F a l <-> E a l) -> Exact g F.
Proof.
  intros H HEF. split.
  - eapply sound_weaken; [apply H|]. intros. by apply HEF.
  - intros a l ?%HEF. by apply exact_reads.
Qed.

Lemma exact_u8 : Exact get_u8 (enc_uint 1).
Proof. split; [apply sound_u8|]. intros a l [? ->]. by apply reads_u8. Qed.
Lemma exact_u16 : Exact get_u16 (enc_uint 2).
Proof. split; [apply sound_u16|]. intros a l [? ->]. by apply reads_u16. Qed.
Lemma exact_u32 : Exact get_u32 (enc_uint 4).
Proof. split; [apply sound_u32|]. intros a l [? ->]. by apply reads_u32. Qed.
Lemma exact_u64 : Exact get_u64 (enc_uint 8).
Proof. split; [apply sound_u64|]. intros a l [? ->]. by apply reads_u64. Qed.
Lemma exact_bytes : Exact get_bytes enc_bytes.
Proof. split; [apply sound_bytes|]. intros a l [? ->]. by apply reads_bytes. Qed.
Lemma exact_string : Exact get_string enc_string.
Proof. split; [apply sound_string|]. intros a l [? [? ->]]. by apply reads_string. Qed.
Lemma exact_fixed n : Exact (get_fixed n) (enc_raw n).
Proof. split; [apply sound_slice|]. intros a l [-> <-]. apply reads_slice. Qed.

Lemma exact_list {A} (item : Dec A) enc n :
  Exact item enc ->
  Exact (get_list n item) (fun l b => length l = n /\ enc_items enc l b).
Proof.
  intros H. split; [apply sound_list, H|]. intros l b [<- Hl].
  induction Hl; cbn [length get_list]; [apply reads_ret|].
  eapply reads_bind; [by apply exact_reads|]. rewrite <- (app_nil_r ll).
  eapply reads_bind; [done | apply reads_ret].
Qed.

(** An exact reader followed by the trailing-bytes test, on a whole buffer. *)
Lemma run_exact_end {A} (g : Dec A) enc e buf a :
  Exact g enc ->
  run_dec (x <- g;; fin <- at_end;; if fin : bool then mret x else dec_fail e) buf = Ok a <-> enc a buf.
Proof.
  intros H. unfold run_dec, mbind at 1, Dec_mbind at 1. split.
  - destruct (g _) as [[x d]|] eqn:E; [|discriminate].
    destruct (exact_sound _ _ _ (new_wf buf) E) as (l & He & Hr & -> & Hwf).
    unfold mbind, Dec_mbind, at_end. rewrite is_empty_rest by done. case_bool_decide as Hn; [|discriminate].
    intros [= <-]. rewrite new_rest, Hn, app_nil_r in Hr. by subst l.
  - intros He. rewrite (exact_reads a buf He _ []); [|apply new_wf | by rewrite app_nil_r].
    unfold mbind, Dec_mbind, at_end. rewrite is_empty_rest by (eapply wf_advance; [apply new_wf | by rewrite app_nil_r]).
    rewrite (rest_advance _ _ []) by (by rewrite app_nil_r). done.
Qed.

(** A reader that succeeds exactly on what is left of the buffer: one that ends
    with the trailing-bytes test. *)
Class Whole {A : Type} (g : Dec A) (enc : A -> bytes -> Prop) : Prop :=
  whole : forall d a, dec_wf d -> (exists d', g d = Ok (a, d')) <-> enc a (rest d).

Lemma whole_end {A} (g : Dec A) enc e :
  Exact g enc -> Whole (x <- g;; fin <- at_end;; if fin : bool then mret x else dec_fail e) enc.
Proof.
  intros H d a Hwf. unfold mbind at 1, Dec_mbind at 1. split.
  - intros (d' & Hd). destruct (g d) as [[x d1]|] eqn:E; [|discriminate].
    destruct (exact_sound _ _ _ Hwf E) as (l & He & Hr & -> & Hwf').
    revert Hd. unfold mbind, Dec_mbind, at_end. rewrite is_empty_rest by done.
    case_bool_decide as Hn; [|discriminate]. intros [= <- <-]. rewrite Hr, Hn, app_nil_r. done.
  - intros He. pose proof (exact_reads a _ He d []) as ->; [|done | by rewrite app_nil_r].
    unfold mbind, Dec_mbind, at_end.
    rewrite is_empty_rest by (eapply wf_advance; [done | by rewrite app_nil_r]).
    rewrite (rest_advance _ _ []) by (by rewrite app_nil_r). rewrite bool_decide_eq_true_2 by done. eauto.
Qed.

Lemma whole_bind {A B} (g : Dec A) (k : A -> Dec B) E1 E2 :
  Exact g E1 -> (forall a, Whole (k a) (E2 a)) ->
  Whole (mbind k g) (fun b l => exists a l1 l2, l = l1 ++ l2 /\ E1 a l1 /\ E2 a b l2).
Proof.
  intros H1 H2 d b Hwf. unfold mbind, Dec_mbind. split.
  - intros (d' & Hd). destruct (g d) as [[x d1]|] eqn:E; [|discriminate].
    destruct (exact_sound _ _ _ Hwf E) as (l & He & Hr & -> & Hwf').
    exists x, l, (rest (advance (blen l) d)). split; [done|]. split; [done|]. apply H2; eauto.
  - intros (a & l1 & l2 & Hr & He1 & He2). rewrite (exact_reads a _ He1 d l2 Hwf Hr).
    apply H2; [by eapply wf_advance | by rewrite (rest_advance _ _ l2)].
Qed.

Lemma whole_if {A} (b : bool) (g h : Dec A) E F :
  Whole g E -> Whole h F -> Whole (if b then g else h) (fun a l => if b then E a l else F a l).
Proof. by destruct b. Qed.

(** A reader that never returns, such as one that reports an error. *)
Lemma whole_never {A} (g : Dec A) : Exact g (fun _ _ => False) -> Whole g (fun _ _ => False).
Proof.
  intros H d a Hwf. split; [|done]. intros (d' & E). by destruct (exact_sound _ _ _ Hwf E) as (? & [] & _).
Qed.

Lemma run_whole {A} (g : Dec A) enc buf a : Whole g enc -> run_dec g buf = Ok a <-> enc a buf.
Proof.
  intros H. rewrite <- (new_rest buf) at 2. rewrite <- (H _ a (new_wf buf)). unfold run_dec.
  destruct (g _) as [[x d]|]; split; [intros [= ->]; eauto | by intros (? & [= -> ->]) | done | by intros (? & ?)].
Qed.

(** Readers that succeed alike are exact alike. *)
Lemma exact_ext {A} (g h : Dec A) E :
  (forall d x, dec_wf d -> g d = Ok x <-> h d = Ok x) -> Exact h E -> Exact g E.
Proof.
  intros Hgh H. split.
  - intros d a d' Hwf Hg%Hgh; [|done]. by apply (exact_sound d a d').
  - intros a l He d tail Hwf Hr. apply Hgh; [done|]. by apply (exact_reads a l He d tail).
Qed.

(** The same without the test: the encoding is a prefix of the buffer. *)
Lemma run_exact {A} (g : Dec A) enc buf a :
  Exact g enc -> run_dec g buf = Ok a <-> exists l tail, buf = l ++ tail /\ enc a l.
Proof.
  intros H. split; [apply run_sound, H|]. intros (l & tail & -> & He).
  unfold run_dec. rewrite (exact_reads a l He _ tail); [done | apply new_wf | done].
Qed.

(** [exact_step] proves that a straight-line reader is exact, for the encoding
    its shape gives. *)
Ltac exact_step :=
  lazymatch goal with
  | |- Exact (mbind (fun x => mret _) _) _ => eapply exact_map; exact_step
  | |- Exact (mbind _ _) _ => eapply exact_bind; [exact_step | intros; exact_step]
  | |- Exact (if _ then _ else _) _ => apply exact_if; [exact_step | exact_step]
  | |- Exact (mret _) _ => apply exact_ret
  | |- Exact (dec_fail _) _ => apply exact_fail
  | |- Exact ?g _ => let H := fresh in eassert (H : Exact g _) by eauto with fitz; exact H
  end.

(** The same for a reader that ends with the trailing-bytes test. *)
Ltac whole_step :=
  lazymatch goal with
  | |- Whole (mbind (fun x => mbind _ at_end) _) _ => eapply whole_end; exact_step
  | |- Whole (mbind _ _) _ => eapply whole_bind; [exact_step | intros; whole_step]
  | |- Whole (if _ then _ else _) _ => apply whole_if; [whole_step | whole_step]
  | |- Whole _ _ => apply whole_never; exact_step
  end.

#[export] Hint Resolve exact_u8 exact_u16 exact_u32 exact_u64 exact_bytes exact_string exact_fixed
  exact_list exact_ret exact_fail : fitz.

(** ** Canonical encodings *)

(** A length-prefixed field, as a put appends it. *)
Definition field_bytes (v : bytes) : bytes := be_bytes 4 (blen v) ++ v.
(** Optional fields: a tag, then the value. *)
Definition opt_u64_bytes (o : option N) : bytes :=
  match o with None => be_bytes 1 0 | Some v => be_bytes 1 1 ++ be_bytes 8 v end.
Definition opt_u64_ok (o : option N) : Prop := match o with None => True | Some v => v < 2 ^ 64 end.
Definition opt_field_bytes (o : option bytes) : bytes :=
  match o with None => be_bytes 1 0 | Some v => be_bytes 1 1 ++ field_bytes v end.
Definition opt_field_ok (o : option bytes) : Prop :=
  match o with None => True | Some v => blen v <= u32_max end.
Definition any {A : Type} (a : A) : Prop := True.

(** [encodes ok to]: the canonical encoding [to] of the values [ok] admits. *)
Definition encodes {A : Type} (ok : A -> Prop) (to : A -> bytes) (a : A) (l : bytes) : Prop :=
  ok a /\ l = to a.

Lemma encodes_intro {A} (ok : A -> Prop) to a : ok a -> encodes ok to a (to a).
Proof. done. Qed.

#[export] Hint Resolve enc_uint_intro enc_bytes_intro enc_string_intro encodes_intro : fitz.
#[export] Hint Extern 1 (_ < 2 ^ _) => done : fitz.
#[export] Hint Extern 1 (any _) => exact I : fitz.

Lemma enc_tag t l : enc_uint 1 t l <-> t < 256 /\ l = be_bytes 1 t.
Proof. done. Qed.

(** Supplies the pieces of a straight-line encoding, left to right. *)
Ltac enc_fields :=
  repeat match goal with
  | |- exists _ _ _, _ = _ ++ _ /\ _ =>
      do 3 eexists; split; [reflexivity|]; split; [solve [eauto with fitz]|]
  | |- exists _, _ = _ /\ _ => eexists; split; [reflexivity | solve [eauto with fitz]]
  end.
(** Takes a straight-line encoding apart. *)
Ltac enc_inv :=
  repeat match goal with
  | H : exists _, _ |- _ => destruct H
  | H : _ /\ _ |- _ => destruct H
  | H : enc_uint _ _ _ |- _ => destruct H as [? ->]
  | H : enc_bytes _ _ |- _ => destruct H as [? ->]
  | H : enc_string _ _ |- _ => destruct H as [? [? ->]]
  | H : encodes _ _ _ _ |- _ => destruct H as [? ->]
  | H : False |- _ => destruct H
  end; subst.
(** Splits on the tag a reader dispatched on. *)
Ltac tag_cases :=
  repeat match goal with
  | H : if ?t =? ?n then _ else _ |- _ => destruct (N.eqb_spec t n); [subst t | try done]
  end.

Lemma enc_items_encodes {A} (ok : A -> Prop) to l b :
  enc_items (encodes ok to) l b <-> Forall ok l /\ b = concat (map to l).
Proof.
  split.
  - induction 1 as [|x l lx ll [Hx ->] _ [IH ->]]; [done|]. split; [by constructor | done].
  - intros [H ->]. induction H; cbn; constructor; done.
Qed.

Lemma exact_lift {A} (r : Result A) : Exact (lift_result r) (fun a l => r = Ok a /\ l = []).
Proof.
  split.
  - intros d a d' Hwf. unfold lift_result. destruct r; [|done]. intros [= <- <-].
    exists []. by rewrite blen_nil, advance_0.
  - intros a l [-> ->] d tail _ _. by rewrite blen_nil, advance_0.
Qed.
#[export] Hint Resolve exact_lift : fitz.

(** What the puts append. *)
Lemma put_bytes_buf l e :
  blen l <= u32_max -> enc_buf (put_bytes l e) = enc_buf e ++ be_bytes 4 (blen l) ++ l.
Proof.
  intros H. unfold put_bytes. destruct (N.ltb_spec u32_max (blen l)); [lia|].
  cbn. by rewrite <- app_assoc.
Qed.

Lemma put_string_buf l e :
  blen l <= u32_max -> enc_buf (put_string l e) = enc_buf e ++ be_bytes 4 (blen l) ++ l.
Proof. apply put_bytes_buf. Qed.

#[export] Hint Resolve reads_ret reads_bind reads_u8 reads_u16 reads_u32 reads_u64
  reads_bytes reads_string reads_slice : fitz.
#[export] Hint Resolve sound_u8 sound_u16 sound_u32 sound_u64 sound_bytes sound_string
  sound_slice sound_ret sound_fail : fitz.

(** ** Frames *)

(** The fifteen header bytes. *)
Definition header_bytes (t f c n : N) : bytes :=
  be_bytes 2 t ++ [byte_of_N f] ++ be_bytes 8 c ++ be_bytes 4 n.

Lemma header_bytes_blen t f c n : blen (header_bytes t f c n) = 15.
Proof. unfold header_bytes. autorewrite with fitz. done. Qed.

Lemma try_encode_frame_ok t f c p fr :
  try_encode_frame t f c p = Ok fr <->
  15 + blen p <= MAX_MESSAGE_SIZE /\ N.ldiff f VALID_FLAGS = 0
  /\ fr = header_bytes t f c (blen p) ++ p.
Proof.
  unfold try_encode_frame, saturating_add, header_bytes.
  assert (Hb : (be_bytes 2 t ++ [byte_of_N f] ++ be_bytes 8 c ++ be_bytes 4 (blen p) ++ p)
    = (be_bytes 2 t ++ [byte_of_N f] ++ be_bytes 8 c ++ be_bytes 4 (blen p)) ++ p)
    by (rewrite <- !app_assoc; done).
  rewrite Hb. unfold MAX_MESSAGE_SIZE, FRAME_HEADER_LEN, usize_max, u64_max, u32_max.
  destruct (N.ltb_spec 1048576 (N.min 18446744073709551615 (15 + blen p)));
    destruct (N.ltb_spec 4294967295 (blen p)); cbn [orb];
    destruct (N.eqb_spec (N.ldiff f VALID_FLAGS) 0); cbn [negb];
    split; intros H1; try discriminate H1; try (destruct H1 as (? & ? & ?)); try lia;
    [injection H1 as <-; repeat split; [lia | done] | subst; done].
Qed.

Lemma header_slices t f c n p :
  slice 0 2 (header_bytes t f c n ++ p) = be_bytes 2 t /\
  slice 2 3 (header_bytes t f c n ++ p) = [byte_of_N f] /\
  slice 3 11 (header_bytes t f c n ++ p) = be_bytes 8 c /\
  slice 11 15 (header_bytes t f c n ++ p) = be_bytes 4 n /\
  drop 15 (header_bytes t f c n ++ p) = p.
Proof.
  unfold header_bytes. rewrite <- !app_assoc.
  repeat split.
  all: repeat (rewrite slice_app_r by (autorewrite with fitz; lia); autorewrite with fitz).
  all: try (apply slice_app_exact; autorewrite with fitz; lia).
Qed.

Lemma be_bytes_1 f : be_bytes 1 f = [byte_of_N f].
Proof. cbn [be_bytes]. by rewrite N.shiftr_0_r. Qed.

Lemma be_bytes_slice k i j (l : bytes) :
  j - i = N.of_nat k -> i <= j -> j <= blen l -> be_bytes k (from_be (slice i j l)) = slice i j l.
Proof.
  intros Hk Hi Hj. apply be_bytes_from_be'. pose proof (slice_length i j l Hi Hj) as H.
  unfold blen in H. lia.
Qed.

Lemma from_be_slice_bound k i j (l : bytes) :
  j - i = N.of_nat k -> i <= j -> j <= blen l -> from_be (slice i j l) < 2 ^ (8 * N.of_nat k).
Proof.
  intros Hk Hi Hj. rewrite <- Hk, <- (slice_length i j l Hi Hj). apply from_be_bound.
Qed.

Lemma header_bytes_of_buffer buf :
  15 <= blen buf ->
  header_bytes (from_be (slice 0 2 buf)) (from_be (slice 2 3 buf))
    (from_be (slice 3 11 buf)) (from_be (slice 11 15 buf)) ++ drop 15 buf = buf.
Proof.
  intros Hl. unfold header_bytes. rewrite <- be_bytes_1.
  rewrite (be_bytes_slice 2), (be_bytes_slice 1), (be_bytes_slice 8), (be_bytes_slice 4) by lia.
  rewrite (slice_split 3 11 15), (slice_split 2 3 15), (slice_split 0 2 15) by lia.
  apply (slice_take_drop 15).
Qed.

(** The header fields of a buffer, when it decodes. *)
Lemma decode_frame_header_ok buf h :
  decode_frame_header buf = Ok h <->
  15 <= blen buf <= MAX_MESSAGE_SIZE
  /\ N.ldiff (from_be (slice 2 3 buf)) VALID_FLAGS = 0
  /\ from_be (slice 11 15 buf) = blen buf - 15
  /\ h = {| message_type := from_be (slice 0 2 buf); flags := from_be (slice 2 3 buf);
            correlation_id := from_be (slice 3 11 buf); payload_start := FRAME_HEADER_LEN |}.
Proof.
  unfold decode_frame_header, saturating_add, MAX_MESSAGE_SIZE, FRAME_HEADER_LEN, usize_max, u64_max.
  destruct (N.ltb_spec (blen buf) 15).
  { split; [discriminate | lia]. }
  assert (Hn : from_be (slice 11 15 buf) < 2 ^ 32) by (apply (from_be_slice_bound 4); lia).
  destruct (N.eqb_spec (N.ldiff (from_be (slice 2 3 buf)) VALID_FLAGS) 0); cbn [negb];
    [|split; [discriminate | intros (_ & ? & _); done]].
  destruct (N.ltb_spec 1048576 (N.min 18446744073709551615 (15 + from_be (slice 11 15 buf)))).
  { split; [discriminate | lia]. }
  destruct (N.eqb_spec (blen buf) (N.min 18446744073709551615 (15 + from_be (slice 11 15 buf))));
    cbn [negb]; [|split; [discriminate | lia]].
  split.
  - intros [= <-]. repeat split; try done; lia.
  - intros (_ & _ & _ & ->). done.
Qed.

(** What the checked encoder produced decodes to the fields it was given. *)
Lemma decode_encoded t f c p buf :
  t < 2 ^ 16 -> f < 2 ^ 8 -> c < 2 ^ 64 -> try_encode_frame t f c p = Ok buf ->
  let h := {| message_type := t; flags := f; correlation_id := c; payload_start := FRAME_HEADER_LEN |} in
  decode_frame_header buf = Ok h /\ frame_payload h buf = p.
Proof.
  intros Ht Hf Hc He h. apply try_encode_frame_ok in He as (Hm & Hv & ->). split.
  - apply decode_frame_header_ok.
    destruct (header_slices t f c (blen p) p) as (S1 & S2 & S3 & S4 & _).
    rewrite S1, S2, S3, S4, <- be_bytes_1, blen_app, header_bytes_blen.
    rewrite (from_be_be_bytes_small 2 t Ht), (from_be_be_bytes_small 1 f Hf),
      (from_be_be_bytes_small 8 c Hc).
    unfold MAX_MESSAGE_SIZE in *.
    rewrite (from_be_be_bytes_small 4) by (change (2 ^ (8 * N.of_nat 4)) with 4294967296; lia).
    repeat split; try done; lia.
  - unfold frame_payload. cbn [payload_start h]. apply drop_app_length'.
    pose proof (header_bytes_blen t f c (blen p)) as Hl. unfold blen in Hl at 1.
    change (N.to_nat FRAME_HEADER_LEN) with 15%nat. lia.
Qed.

Lemma decoded_frame buf h :
  decode_frame_header buf = Ok h ->
  message_type h < 2 ^ 16 /\ flags h < 2 ^ 8 /\ correlation_id h < 2 ^ 64
  /\ payload_start h = FRAME_HEADER_LEN
  /\ try_encode_frame (message_type h) (flags h) (correlation_id h) (frame_payload h buf) = Ok buf.
Proof.
  rewrite decode_frame_header_ok. intros (Hl & Hf & Hn & ->). unfold frame_payload.
  cbn [message_type flags correlation_id payload_start].
  repeat split; [apply (from_be_slice_bound 2); lia | apply (from_be_slice_bound 1); lia
                | apply (from_be_slice_bound 8); lia |].
  assert (Hd : blen (drop (N.to_nat FRAME_HEADER_LEN) buf) = blen buf - 15).
  { unfold blen. rewrite length_drop. unfold FRAME_HEADER_LEN. lia. }
  apply try_encode_frame_ok. rewrite Hd. split; [lia|]. split; [done|].
  rewrite <- Hn. symmetry. apply header_bytes_of_buffer. lia.
Qed.

(** C17: frame headers round trip and are canonical: a buffer decodes to the
    header [h] exactly when [h] holds in-range fields and the checked encoder,
    applied to those fields and to the bytes after the header, produces that
    very buffer.  So decoding inverts encoding, no two buffers decode alike,
    and no truncated, oversized, trailing or mis-flagged buffer is accepted. *)
Theorem frame_header_roundtrip buf h :
  decode_frame_header buf = Ok h <->
  message_type h < 2 ^ 16 /\ flags h < 2 ^ 8 /\ correlation_id h < 2 ^ 64
  /\ payload_start h = FRAME_HEADER_LEN
  /\ try_encode_frame (message_type h) (flags h) (correlation_id h) (frame_payload h buf) = Ok buf.
Proof.
  split; [apply decoded_frame|]. destruct h as [t f c s]. cbn [message_type flags correlation_id payload_start].
  intros (Ht & Hf & Hc & -> & He). by apply (decode_encoded t f c _ _ Ht Hf Hc He).
Qed.
