(* ===== verification/Wire3.v ===== *)
(** * Wire 3 extension envelopes

    [src/src/wire3.rs]: the envelope
    [[u32 core_length][core][u16 field_id][u32 length][value]...] that carries
    optional fields beside a message's core payload, with the capability list
    of HELLO (field 1). *)

From S2P Require Import Prelude Errors Protocol Codec.
Import message_type.

Definition CLIENT_CAPABILITIES : bytes := map byte_of_N [0; 2; 0; 0; 0; 1; 0; 0; 0; 2].

Definition malformed : FitzError := Protocol (str "malformed Wire 3 extension envelope").

(** ** Encoding *)

Definition field : Type := N * bytes.

Fixpoint encode_fields (previous : N) (fields : list field) (e : PayloadEncoder) :
    Result PayloadEncoder :=
  match fields with
  | [] => Ok e
  | (id, value) :: fields' =>
      if id <=? previous then Err malformed
      else encode_fields id fields' (e .> put_u16 id .> put_bytes value)
  end.

Definition encode (core : bytes) (fields : list field) : Result bytes :=
  e <- encode_fields 0 fields (PayloadEncoder_new .> put_bytes core);;
  match fields with
  | [] => Err malformed
  | _ =>
      let payload := finish e in
      if MAX_MESSAGE_SIZE <? saturating_add usize_max (blen payload) 15
      then Err (FrameTooLarge (blen payload + 15))
      else Ok payload
  end.

(** ** Decoding *)

(** [for _ in 0..count { .. }] over the capability list. *)
Fixpoint decode_capabilities (count : nat) (list : PayloadDecoder) (previous mask : N) : Result N :=
  match count with
  | O => Ok mask
  | S count' =>
      let* '(value, list') := get_u32 list in
      if value <=? previous then Err malformed
      else
        decode_capabilities count' list' value
          (if (value =? 1) || (value =? 2) then N.lor mask (N.shiftl 1 value) else mask)
  end.

(** The body of [if handshake && id == 1 { .. }]: [value] is the field's bytes. *)
Definition decode_capability_field (seen : bool) (value : bytes) (mask : N) : Result N :=
  if seen || (blen value <? 2) then Err malformed
  else
    let* '(count, list) := get_u16 (PayloadDecoder_new value) in
    if negb (blen value =? 2 + 4 * count) then Err malformed
    else decode_capabilities (N.to_nat count) list 0 mask.

(** One iteration of [while cursor < payload.len()]: the next cursor, whether
    the capability list has been seen, and the mask. *)
Definition decode_field (payload : bytes) (handshake : bool) (cursor : N) (seen : bool) (mask : N) :
    Result (N * bool * N) :=
  let* '(id, field) := get_u16 (PayloadDecoder_new (drop (N.to_nat cursor) payload)) in
  let* '(length, _) := get_u32 field in
  let cursor := cursor + 6 in
  if (id =? 0) || (blen payload - cursor <? length) then Err malformed
  else if handshake && (id =? 1) then
    mask <- decode_capability_field seen (slice cursor (cursor + length) payload) mask;;
    Ok (cursor + length, true, mask)
  else Ok (cursor + length, seen, mask).

Fixpoint decode_loop (fuel : nat) (payload : bytes) (handshake : bool) (cursor : N)
    (seen : bool) (mask : N) : option (Result (bool * N)) :=
  if cursor <? blen payload then
    match fuel with
    | O => None
    | S fuel' =>
        match decode_field payload handshake cursor seen mask with
        | Ok (cursor', seen', mask') => decode_loop fuel' payload handshake cursor' seen' mask'
        | Err e => Some (Err e)
        end
    end
  else Some (Ok (seen, mask)).

(** Every iteration advances the cursor, so [payload.len()] iterations are
    enough ([decode_loop_total]). *)
Definition decode (payload : bytes) (message_type flags : N) : Result (bytes * N) :=
  let handshake := message_type =? HELLO in
  if N.land flags EXTENSIONS_PRESENT =? 0 then
    if handshake then Err malformed else Ok (payload, 0)
  else
    let* '(core_length, _) := get_u32 (PayloadDecoder_new payload) in
    let core_end := 4 + core_length in
    if blen payload <=? core_end then Err malformed
    else
      match decode_loop (length payload) payload handshake core_end false 0 with
      | None => Err malformed
      | Some (Err e) => Err e
      | Some (Ok (capabilities_seen, mask)) =>
          if handshake && negb capabilities_seen then Err malformed
          else Ok (slice 4 core_end payload, mask)
      end.

(** ** The envelope grammar *)

Definition field_ok (f : field) : Prop := 0 < f.1 < 2 ^ 16 /\ blen f.2 <= u32_max.
Definition field_bytes (f : field) : bytes := be_bytes 2 f.1 ++ be_bytes 4 (blen f.2) ++ f.2.
Definition fields_bytes (fields : list field) : bytes := concat (map field_bytes fields).
Definition envelope (core : bytes) (fields : list field) : bytes :=
  be_bytes 4 (blen core) ++ core ++ fields_bytes fields.

(** A capability list: a count and strictly increasing positive identifiers. *)
Definition caps_bytes (ids : list N) : bytes :=
  be_bytes 2 (blen ids) ++ concat (map (be_bytes 4) ids).
Fixpoint increasing (previous : N) (ids : list N) : Prop :=
  match ids with
  | [] => True
  | id :: ids' => previous < id /\ increasing id ids'
  end.
Definition cap_bit (mask id : N) : N :=
  if (id =? 1) || (id =? 2) then N.lor mask (N.shiftl 1 id) else mask.
Definition caps_mask (ids : list N) : N := fold_left cap_bit ids 0.
Definition caps_ok (ids : list N) : Prop :=
  blen ids < 2 ^ 16 /\ Forall (fun id => id < 2 ^ 32) ids /\ increasing 0 ids.

(** What a HELLO envelope must hold: exactly one capability field. *)
Definition cap_fields (fields : list field) : list field := filter (fun f => f.1 = 1) fields.
Definition hello_caps (fields : list field) (mask : N) : Prop :=
  exists ids, cap_fields fields = [(1, caps_bytes ids)] /\ caps_ok ids
    /\ mask = caps_mask ids.

(** What one field does to [(capabilities_seen, mask)]. *)
Definition field_step (handshake : bool) (f : field) (s : bool * N) : Result (bool * N) :=
  if handshake && (f.1 =? 1) then
    mask <- decode_capability_field s.1 f.2 s.2;; Ok (true, mask)
  else Ok s.

Fixpoint field_steps (handshake : bool) (fields : list field) (s : bool * N) :
    Result (bool * N) :=
  match fields with
  | [] => Ok s
  | f :: fields' => s' <- field_step handshake f s;; field_steps handshake fields' s'
  end.

(** ** Fields *)

Lemma field_bytes_blen f : blen (field_bytes f) = 6 + blen f.2.
Proof. unfold field_bytes. autorewrite with fitz. lia. Qed.

Lemma drop_blen {A} (c : N) (p l tail : list A) :
  drop (N.to_nat c) p = l ++ tail -> drop (N.to_nat (c + blen l)) p = tail.
Proof.
  intros H. unfold blen. rewrite N2Nat.inj_add, Nat2N.id, <- drop_drop, H.
  apply drop_app_length.
Qed.

Lemma drop_blen_total {A} (c : N) (p l : list A) :
  drop (N.to_nat c) p = l -> c <= blen p -> blen p = c + blen l.
Proof. intros <-. unfold blen. rewrite length_drop. lia. Qed.

Lemma drop_blen_le {A} (c : N) (p l tail : list A) :
  drop (N.to_nat c) p = l ++ tail -> l <> [] -> c + blen l <= blen p.
Proof.
  intros H Hl. assert (Hc := f_equal length H). rewrite length_drop, length_app in Hc.
  destruct l; [done|]. unfold blen. cbn [length] in *. lia.
Qed.

Lemma field_bytes_nonempty f : field_bytes f <> [].
Proof. intros H. pose proof (field_bytes_blen f) as Hb. rewrite H, blen_nil in Hb. lia. Qed.

(** The two reads of a field header. *)
Lemma read_field_header id n tail :
  id < 2 ^ 16 -> n < 2 ^ 32 ->
  exists d d', get_u16 (PayloadDecoder_new (be_bytes 2 id ++ be_bytes 4 n ++ tail)) = Ok (id, d)
    /\ get_u32 d = Ok (n, d').
Proof.
  intros Hid Hn.
  set (d0 := PayloadDecoder_new (be_bytes 2 id ++ be_bytes 4 n ++ tail)).
  assert (H0 : rest d0 = be_bytes 2 id ++ be_bytes 4 n ++ tail) by done.
  assert (W0 : dec_wf d0) by apply new_wf.
  pose proof (reads_u16 id Hid _ _ W0 H0) as E.
  pose proof (rest_advance _ _ _ H0) as H1. pose proof (wf_advance _ _ _ W0 H0) as W1.
  pose proof (reads_u32 n Hn _ _ W1 H1). eauto.
Qed.

Lemma decode_field_complete p hs c seen mask f tail :
  field_ok f -> drop (N.to_nat c) p = field_bytes f ++ tail ->
  decode_field p hs c seen mask =
    (s <- field_step hs f (seen, mask);; Ok (c + blen (field_bytes f), s.1, s.2)).
Proof.
  destruct f as [id v]. intros [[Hid0 Hid] Hv] Hd. cbn [fst snd] in *.
  pose proof (drop_blen_le _ _ _ _ Hd (field_bytes_nonempty _)) as Hle.
  pose proof Hd as Hd'. unfold field_bytes in Hd. cbn [fst snd] in Hd. rewrite <- !app_assoc in Hd.
  unfold decode_field. rewrite Hd.
  destruct (read_field_header id (blen v) (v ++ tail)) as (d & d' & E1 & E2);
    [done | unfold u32_max in Hv; lia |].
  rewrite E1. cbn [mbind result_mbind result_bind]. rewrite E2. cbn [mbind result_mbind result_bind].
  rewrite field_bytes_blen in *. cbn [snd] in *.
  destruct (N.eqb_spec id 0); [lia|].
  destruct (N.ltb_spec (blen p - (c + 6)) (blen v)); [lia|]. cbn [orb].
  assert (Hs : slice (c + 6) (c + 6 + blen v) p = v).
  { unfold slice. replace (c + 6 + blen v - (c + 6)) with (blen v) by lia.
    assert (E : drop (N.to_nat (c + 6)) p = v ++ tail).
    { rewrite app_assoc in Hd. apply (drop_blen c p _ _) in Hd.
      rewrite blen_app, !be_bytes_blen in Hd. done. }
    rewrite E. unfold blen. rewrite Nat2N.id. apply take_app_length. }
  rewrite Hs. replace (c + 6 + blen v) with (c + (6 + blen v)) by lia.
  unfold field_step. cbn [fst snd]. destruct (hs && (id =? 1)); [|done].
  by destruct (decode_capability_field seen v mask).
Qed.

Lemma decode_field_sound p hs c seen mask c' seen' mask' :
  decode_field p hs c seen mask = Ok (c', seen', mask') ->
  exists f tail, field_ok f /\ drop (N.to_nat c) p = field_bytes f ++ tail.
Proof.
  unfold decode_field. set (d0 := PayloadDecoder_new _).
  destruct (get_u16 d0) as [[id d1]|] eqn:E1; [|discriminate].
  cbn [mbind result_mbind result_bind].
  destruct (get_u32 d1) as [[n d2]|] eqn:E2; [|discriminate].
  cbn [mbind result_mbind result_bind].
  destruct (sound_u16 _ _ _ (new_wf _) E1) as (l1 & [Hid ->] & Hr1 & -> & W1).
  destruct (sound_u32 _ _ _ W1 E2) as (l2 & [Hn ->] & Hr2 & -> & W2).
  rewrite Hr2 in Hr1. subst d0. rewrite new_rest in Hr1.
  set (tl := rest _) in Hr1. clearbody tl.
  destruct (N.eqb_spec id 0); [discriminate|].
  destruct (N.ltb_spec (blen p - (c + 6)) n) as [|Hle]; [discriminate|]. intros _.
  assert (Htl : n <= blen tl).
  { assert (Hc := f_equal blen Hr1). autorewrite with fitz in Hc.
    unfold blen in Hc at 1. rewrite length_drop in Hc. unfold blen in *. lia. }
  exists (id, take (N.to_nat n) tl), (drop (N.to_nat n) tl).
  assert (Hb : blen (take (N.to_nat n) tl) = n).
  { unfold blen in *. rewrite length_take. lia. }
  unfold field_ok, field_bytes. cbn [fst snd]. rewrite Hb. split.
  - change (2 ^ (8 * N.of_nat 4)) with 4294967296 in Hn.
    change (8 * N.of_nat 2) with 16 in Hid. unfold u32_max. split; lia.
  - by rewrite Hr1, <- !app_assoc, take_drop.
Qed.

(** ** The loop *)

Lemma decode_loop_complete p hs fields : forall fuel c seen mask,
  Forall field_ok fields -> c <= blen p -> drop (N.to_nat c) p = fields_bytes fields ->
  (length p - N.to_nat c <= fuel)%nat ->
  decode_loop fuel p hs c seen mask = Some (field_steps hs fields (seen, mask)).
Proof.
  induction fields as [|f fields IH]; intros fuel c seen mask Hok Hc Hd Hf.
  - pose proof (drop_blen_total _ _ _ Hd Hc) as Hb. cbn in Hb. rewrite blen_nil in Hb.
    destruct fuel; cbn [decode_loop]; destruct (N.ltb_spec c (blen p)); (lia || done).
  - apply Forall_cons in Hok as [Hf0 Hok].
    change (fields_bytes (f :: fields)) with (field_bytes f ++ fields_bytes fields) in Hd.
    pose proof (drop_blen_le _ _ _ _ Hd (field_bytes_nonempty f)) as Hle.
    pose proof (field_bytes_blen f) as Hb.
    destruct fuel as [|fuel]; [unfold blen in *; lia|].
    cbn [decode_loop]. destruct (N.ltb_spec c (blen p)); [|lia].
    rewrite (decode_field_complete _ _ _ _ _ _ _ Hf0 Hd). cbn [field_steps].
    destruct (field_step hs f (seen, mask)) as [[s m]|]; [|done].
    cbn [mbind result_mbind result_bind fst snd].
    apply IH; [done | done | by apply drop_blen | unfold blen in *; lia].
Qed.

Lemma decode_loop_sound p hs fuel : forall c seen mask r,
  c <= blen p -> decode_loop fuel p hs c seen mask = Some (Ok r) ->
  exists fields, Forall field_ok fields /\ drop (N.to_nat c) p = fields_bytes fields
    /\ field_steps hs fields (seen, mask) = Ok r.
Proof.
  induction fuel as [|fuel IH]; intros c seen mask r Hc; cbn [decode_loop];
    destruct (N.ltb_spec c (blen p)) as [Hlt|]; try discriminate.
  1, 3: intros [= <-]; exists []; split; [done|]; split; [|done];
        apply drop_ge; unfold blen in *; lia.
  destruct (decode_field p hs c seen mask) as [[[c' s'] m']|] eqn:E; [|discriminate].
  intros Hl. destruct (decode_field_sound _ _ _ _ _ _ _ _ E) as (f & tail & Hf & Hd).
  pose proof (drop_blen_le _ _ _ _ Hd (field_bytes_nonempty f)) as Hle.
  rewrite (decode_field_complete _ _ _ _ _ _ _ Hf Hd) in E.
  destruct (field_step hs f (seen, mask)) as [[s m]|] eqn:Es; [|discriminate].
  injection E as <- <- <-.
  destruct (IH _ _ _ _ Hle Hl) as (fields & Hok & Hd2 & Hst).
  rewrite (drop_blen _ _ _ _ Hd) in Hd2. subst tail.
  exists (f :: fields). split; [by constructor|]. split; [done|].
  cbn [field_steps]. rewrite Es. done.
Qed.

(** [payload.len()] iterations are enough. *)
Lemma decode_loop_total p hs fuel : forall c seen mask,
  (length p - N.to_nat c <= fuel)%nat -> decode_loop fuel p hs c seen mask <> None.
Proof.
  induction fuel as [|fuel IH]; intros c seen mask Hf; cbn [decode_loop];
    destruct (N.ltb_spec c (blen p)) as [Hlt|]; try done.
  - unfold blen in Hlt. lia.
  - destruct (decode_field p hs c seen mask) as [[[c' s'] m']|] eqn:E; [|done].
    destruct (decode_field_sound _ _ _ _ _ _ _ _ E) as (f & tail & Hfo & Hd).
    pose proof (drop_blen_le _ _ _ _ Hd (field_bytes_nonempty f)) as Hle.
    rewrite (decode_field_complete _ _ _ _ _ _ _ Hfo Hd), field_bytes_blen in *.
    destruct (field_step hs f (seen, mask)) as [[s m]|]; [|discriminate].
    injection E as <- <- <-. apply IH. unfold blen in *. lia.
Qed.

(** ** Capability lists *)

Lemma decode_capabilities_spec count : forall d previous mask m,
  dec_wf d ->
  decode_capabilities count d previous mask = Ok m <->
  exists ids tail, length ids = count /\ rest d = concat (map (be_bytes 4) ids) ++ tail
    /\ Forall (fun id => id < 2 ^ 32) ids /\ increasing previous ids
    /\ m = fold_left cap_bit ids mask.
Proof.
  induction count as [|count IH]; intros d previous mask m Hwf; cbn [decode_capabilities].
  - split.
    + intros [= <-]. exists [], (rest d). done.
    + intros (ids & tail & Hl & _ & _ & _ & ->). by destruct ids.
  - split.
    + destruct (get_u32 d) as [[v d']|] eqn:E; [|discriminate].
      cbn [mbind result_mbind result_bind].
      destruct (sound_u32 _ _ _ Hwf E) as (l & [Hv ->] & Hr & _ & W).
      destruct (N.leb_spec v previous); [discriminate|].
      intros H1%(IH _ _ _ _ W). destruct H1 as (ids & tail & Hl & Hr' & Hall & Hi & ->).
      exists (v :: ids), tail. cbn [length map concat increasing].
      rewrite Hr, Hr', app_assoc. repeat split; try done; [congruence | by constructor].
    + intros (ids & tail & Hl & Hr & Hall & Hi & ->).
      destruct ids as [|v ids]; [discriminate|]. injection Hl as Hl.
      apply Forall_cons in Hall as [Hv Hall]. destruct Hi as [Hlt Hi].
      cbn [map concat] in Hr. rewrite <- app_assoc in Hr.
      rewrite (reads_u32 v Hv _ _ Hwf Hr). cbn [mbind result_mbind result_bind].
      destruct (N.leb_spec v previous); [lia|].
      apply IH; [by eapply wf_advance|]. exists ids, tail.
      rewrite (rest_advance _ _ _ Hr). done.
Qed.

Lemma concat_be4_blen ids : blen (concat (map (be_bytes 4) ids)) = 4 * blen ids.
Proof.
  induction ids as [|id ids IH]; [done|]. cbn [map concat].
  rewrite blen_app, be_bytes_blen, IH, blen_cons. lia.
Qed.

Lemma caps_bytes_blen ids : blen (caps_bytes ids) = 2 + 4 * blen ids.
Proof. unfold caps_bytes. by rewrite blen_app, be_bytes_blen, concat_be4_blen. Qed.

Lemma decode_capability_field_spec v m :
  decode_capability_field false v 0 = Ok m <->
  exists ids, v = caps_bytes ids /\ caps_ok ids /\ m = caps_mask ids.
Proof.
  unfold decode_capability_field, caps_ok, caps_mask. cbn [orb]. split.
  - destruct (N.ltb_spec (blen v) 2); [discriminate|].
    destruct (get_u16 _) as [[n d]|] eqn:E; [|discriminate].
    cbn [mbind result_mbind result_bind].
    destruct (sound_u16 _ _ _ (new_wf _) E) as (l & [Hn ->] & Hr & _ & W).
    rewrite new_rest in Hr.
    destruct (N.eqb_spec (blen v) (2 + 4 * n)) as [Hlen|]; [|discriminate]. cbn [negb].
    intros H1%(decode_capabilities_spec _ _ _ _ _ W).
    destruct H1 as (ids & tail & Hl & Hr' & Hall & Hi & ->).
    assert (Hids : n = blen ids) by (unfold blen; lia).
    assert (tail = []) as ->.
    { apply blen_zero. assert (Hc := f_equal blen Hr). rewrite Hr', !blen_app, be_bytes_blen, concat_be4_blen in Hc.
      lia. }
    exists ids. unfold caps_bytes. rewrite Hr, Hr', app_nil_r, Hids. rewrite Hids in Hn.
    change (2 ^ (8 * N.of_nat 2)) with (2 ^ 16) in Hn. done.
  - intros (ids & -> & (Hn & Hall & Hi) & ->).
    pose proof (caps_bytes_blen ids) as Hb.
    destruct (N.ltb_spec (blen (caps_bytes ids)) 2); [lia|].
    pose proof (reads_u16 (blen ids) Hn (PayloadDecoder_new (caps_bytes ids)) _ (new_wf _) eq_refl) as E.
    rewrite E. cbn [mbind result_mbind result_bind].
    destruct (N.eqb_spec (blen (caps_bytes ids)) (2 + 4 * blen ids)); [|done]. cbn [negb].
    apply decode_capabilities_spec; [by eapply (wf_advance _ _ _ (new_wf _) eq_refl)|].
    exists ids, []. rewrite (rest_advance (PayloadDecoder_new (caps_bytes ids)) _ _ eq_refl), app_nil_r.
    repeat split; try done. unfold blen. lia.
Qed.

Lemma field_steps_core fields s : field_steps false fields s = Ok s.
Proof. induction fields as [|f fields IH]; [done|]. cbn. apply IH. Qed.

Lemma cap_fields_hit v fields : cap_fields ((1, v) :: fields) = (1, v) :: cap_fields fields.
Proof. unfold cap_fields. by rewrite filter_cons_True. Qed.
Lemma cap_fields_miss id v fields : id <> 1 -> cap_fields ((id, v) :: fields) = cap_fields fields.
Proof. intros H. unfold cap_fields. by rewrite filter_cons_False. Qed.

Lemma field_steps_seen fields m r :
  field_steps true fields (true, m) = Ok r <-> cap_fields fields = [] /\ r = (true, m).
Proof.
  induction fields as [|[id v] fields IH]; cbn [field_steps].
  - split; [by intros [= <-] | by intros [_ ->]].
  - unfold field_step. cbn [fst snd andb]. destruct (N.eqb_spec id 1) as [->|Hne].
    + rewrite cap_fields_hit. split; [discriminate | by intros [? _]].
    + rewrite cap_fields_miss by done. apply IH.
Qed.

Lemma field_steps_hello fields m :
  field_steps true fields (false, 0) = Ok (true, m) <-> hello_caps fields m.
Proof.
  unfold hello_caps.
  induction fields as [|[id v] fields IH]; cbn [field_steps].
  - split; [discriminate | by intros (? & ? & _)].
  - unfold field_step. cbn [fst snd andb]. destruct (N.eqb_spec id 1) as [->|Hne].
    + rewrite cap_fields_hit. split.
      * destruct (decode_capability_field false v 0) as [m'|] eqn:E; [|discriminate].
        cbn [mbind result_mbind result_bind].
        intros [-> [= <-]]%field_steps_seen.
        apply decode_capability_field_spec in E as (ids & -> & Hok & ->). eauto.
      * intros (ids & [= -> Hrest] & Hok & ->).
        rewrite (proj2 (decode_capability_field_spec _ (caps_mask ids))) by eauto.
        cbn [mbind result_mbind result_bind]. by apply field_steps_seen.
    + rewrite cap_fields_miss by done. apply IH.
Qed.

(** ** Envelopes *)

Lemma envelope_core_end core fields :
  blen (envelope core fields) = 4 + blen core + blen (fields_bytes fields)
  /\ slice 4 (4 + blen core) (envelope core fields) = core
  /\ drop (N.to_nat (4 + blen core)) (envelope core fields) = fields_bytes fields.
Proof.
  unfold envelope. split; [autorewrite with fitz; lia|]. split.
  - rewrite slice_app_r by (autorewrite with fitz; lia).
    apply slice_app_exact; autorewrite with fitz; lia.
  - rewrite app_assoc. replace (4 + blen core) with (0 + blen (be_bytes 4 (blen core) ++ core))
      by (autorewrite with fitz; lia).
    apply (drop_blen 0 (_ ++ _) (be_bytes 4 (blen core) ++ core)). done.
Qed.

Lemma fields_bytes_zero fields : blen (fields_bytes fields) = 0 -> fields = [].
Proof.
  destruct fields as [|f fields]; [done|].
  change (fields_bytes (f :: fields)) with (field_bytes f ++ fields_bytes fields).
  rewrite blen_app, field_bytes_blen. lia.
Qed.

(** [decode], with the loop replaced by what it computes on a parsed envelope. *)
Lemma decode_envelope core fields mt fl :
  N.land fl EXTENSIONS_PRESENT <> 0 -> blen core <= u32_max -> Forall field_ok fields ->
  fields <> [] ->
  decode (envelope core fields) mt fl =
    match field_steps (mt =? HELLO) fields (false, 0) with
    | Err e => Err e
    | Ok (seen, mask) =>
        if (mt =? HELLO) && negb seen then Err malformed else Ok (core, mask)
    end.
Proof.
  intros Hfl Hc Hok Hne. destruct (envelope_core_end core fields) as (Hb & Hs & Hd).
  unfold decode. destruct (N.eqb_spec (N.land fl EXTENSIONS_PRESENT) 0); [done|].
  assert (Hc' : blen core < 2 ^ 32) by (unfold u32_max in Hc; lia).
  rewrite (reads_u32 (blen core) Hc' (PayloadDecoder_new (envelope core fields)) _
             (new_wf _) eq_refl).
  cbn [mbind result_mbind result_bind].
  assert (blen (fields_bytes fields) <> 0) by (intros H0%fields_bytes_zero; done).
  destruct (N.leb_spec (blen (envelope core fields)) (4 + blen core)); [lia|].
  rewrite (decode_loop_complete _ _ fields) by (try done; lia).
  destruct (field_steps _ _ _) as [[seen mask]|]; [|done]. by rewrite Hs.
Qed.

Lemma decode_is_envelope p mt fl r :
  N.land fl EXTENSIONS_PRESENT <> 0 -> decode p mt fl = Ok r ->
  exists core fields, p = envelope core fields /\ blen core <= u32_max
    /\ Forall field_ok fields /\ fields <> [].
Proof.
  intros Hfl. unfold decode.
  destruct (N.eqb_spec (N.land fl EXTENSIONS_PRESENT) 0) as [|_]; [done|].
  destruct (get_u32 _) as [[n d]|] eqn:E; [|discriminate].
  cbn [mbind result_mbind result_bind].
  destruct (sound_u32 _ _ _ (new_wf _) E) as (l & [Hn ->] & Hr & _ & _).
  rewrite new_rest in Hr. set (tl := rest d) in Hr. clearbody tl. subst p.
  rewrite blen_app, be_bytes_blen. change (N.of_nat 4) with 4.
  destruct (N.leb_spec (4 + blen tl) (4 + n)) as [|Hlt]; [discriminate|].
  destruct (decode_loop _ _ _ _ _ _) as [[[seen mask]|]|] eqn:El; try discriminate. intros _.
  assert (Hle : 4 + n <= blen (be_bytes 4 n ++ tl)) by (rewrite blen_app, be_bytes_blen; lia).
  destruct (decode_loop_sound _ _ _ _ _ _ _ Hle El) as (fields & Hok & Hd & _).
  assert (Hb : blen (take (N.to_nat n) tl) = n) by (unfold blen in *; rewrite length_take; lia).
  assert (Hcore : drop (N.to_nat (4 + n)) (be_bytes 4 n ++ tl) = drop (N.to_nat n) tl).
  { rewrite N2Nat.inj_add, <- drop_drop. f_equal. }
  rewrite Hcore in Hd.
  exists (take (N.to_nat n) tl), fields. unfold envelope. rewrite Hb, <- Hd, take_drop.
  change (2 ^ (8 * N.of_nat 4)) with 4294967296 in Hn. unfold u32_max.
  split; [done|]. split; [lia|]. split; [done|]. intros ->.
  assert (Hc := f_equal blen Hd). cbn in Hc. rewrite blen_nil in Hc.
  unfold blen in Hc, Hlt. rewrite length_drop in Hc. lia.
Qed.

Lemma envelope_inj core core' fields fields' :
  blen core <= u32_max -> blen core' <= u32_max ->
  envelope core fields = envelope core' fields' ->
  core = core' /\ fields_bytes fields = fields_bytes fields'.
Proof.
  intros H H' He. assert (Hl : blen core = blen core').
  { unfold envelope in He. apply (f_equal (take 4)) in He.
    rewrite !take_app_length' in He by (by rewrite be_bytes_length).
    apply (f_equal from_be) in He. unfold u32_max in *.
    rewrite !from_be_be_bytes_small in He; [done | |];
      change (2 ^ (8 * N.of_nat 4)) with 4294967296; lia. }
  destruct (envelope_core_end core fields) as (_ & S1 & D1).
  destruct (envelope_core_end core' fields') as (_ & S2 & D2).
  rewrite He, Hl in S1, D1. rewrite S1 in S2. rewrite D1 in D2. done.
Qed.

(** The same outside the handshake. *)
Lemma decode_core p mt fl core mask :
  mt <> HELLO -> N.land fl EXTENSIONS_PRESENT <> 0 ->
  decode p mt fl = Ok (core, mask) <->
  mask = 0 /\ exists fields, fields <> [] /\ Forall field_ok fields /\ blen core <= u32_max /\ p = envelope core fields.
Proof.
  intros Hmt Hfl. split.
  - intros H. destruct (decode_is_envelope _ _ _ _ Hfl H) as (core' & fields & -> & Hc & Hok & Hne).
    rewrite decode_envelope in H by done. rewrite (proj2 (N.eqb_neq _ _) Hmt), field_steps_core in H.
    injection H as -> ->. split; [done | by exists fields].
  - intros (-> & fields & Hne & Hok & Hc & ->). rewrite decode_envelope by done.
    by rewrite (proj2 (N.eqb_neq _ _) Hmt), field_steps_core.
Qed.

(** C22: what an extension envelope decodes to.  With the extension flag set,
    [decode] accepts a payload exactly when it is an envelope of the grammar
    [u32 length, core, one or more (u16 id, u32 length, value)] with positive
    identifiers, and - for HELLO - exactly one capability field holding a
    counted, strictly increasing list; it returns the core bytes and the mask
    of the two capabilities the client knows.  Unknown fields are skipped, and
    every other payload is an error. *)
Theorem wire3_decode_spec p mt fl core mask :
  N.land fl EXTENSIONS_PRESENT <> 0 ->
  decode p mt fl = Ok (core, mask) <->
  exists fields, fields <> [] /\ Forall field_ok fields /\ blen core <= u32_max
    /\ p = envelope core fields
    /\ (if mt =? HELLO then hello_caps fields mask else mask = 0).
Proof.
  intros Hfl. split.
  - intros H. destruct (decode_is_envelope _ _ _ _ Hfl H) as (core' & fields & -> & Hc & Hok & Hne).
    rewrite decode_envelope in H by done. exists fields.
    destruct (N.eqb_spec mt HELLO) as [->|].
    + destruct (field_steps true fields (false, 0)) as [[[] m]|] eqn:E; try discriminate H.
      injection H as -> ->. by apply field_steps_hello in E.
    + rewrite field_steps_core in H. by injection H as -> ->.
  - intros (fields & Hne & Hok & Hc & -> & Hm). rewrite decode_envelope by done.
    destruct (N.eqb_spec mt HELLO) as [->|].
    + apply field_steps_hello in Hm. by rewrite Hm.
    + rewrite field_steps_core. by subst.
Qed.

(** ** Encoding *)

Fixpoint increasing_ids (previous : N) (fields : list field) : Prop :=
  match fields with
  | [] => True
  | f :: fields' => previous < f.1 /\ increasing_ids f.1 fields'
  end.

Lemma encode_fields_ok fields : forall previous e r,
  Forall (fun f => blen f.2 <= u32_max) fields ->
  encode_fields previous fields e = Ok r <->
  increasing_ids previous fields
  /\ r = {| enc_buf := enc_buf e ++ fields_bytes fields; enc_panic := enc_panic e |}.
Proof.
  induction fields as [|[id v] fields IH]; intros previous e r Hall; cbn [encode_fields increasing_ids].
  - unfold fields_bytes. cbn. rewrite app_nil_r. destruct e; cbn.
    split; [by intros [= <-] | by intros [_ ->]].
  - apply Forall_cons in Hall as [Hv Hall]. cbn [fst snd] in *.
    destruct (N.leb_spec id previous); [split; [discriminate | intros [[? _] _]; lia]|].
    rewrite IH by done. unfold put_bytes.
    destruct (N.ltb_spec u32_max (blen v)); [lia|].
    unfold put_u16, extend. cbn [enc_buf enc_panic].
    change (fields_bytes ((id, v) :: fields)) with (field_bytes (id, v) ++ fields_bytes fields).
    unfold field_bytes. cbn [fst snd]. rewrite <- !app_assoc.
    split; [intros [? ->]; repeat split; done | intros [[_ ?] ->]; done].
Qed.

Lemma encode_ok core fields p :
  blen core <= u32_max -> Forall (fun f => blen f.2 <= u32_max) fields ->
  encode core fields = Ok p <->
  fields <> [] /\ increasing_ids 0 fields /\ p = envelope core fields
  /\ blen p + 15 <= MAX_MESSAGE_SIZE.
Proof.
  intros Hc Hall. unfold encode, saturating_add, MAX_MESSAGE_SIZE, usize_max, u64_max.
  set (e0 := put_bytes core PayloadEncoder_new).
  assert (He0 : e0 = {| enc_buf := be_bytes 4 (blen core) ++ core; enc_panic := false |}).
  { unfold e0, put_bytes. destruct (N.ltb_spec u32_max (blen core)); [lia|]. done. }
  destruct (encode_fields 0 fields e0) as [e|] eqn:E.
  - apply encode_fields_ok in E as [Hi ->]; [|done].
    cbn [mbind result_mbind result_bind]. rewrite He0. unfold finish. cbn [enc_buf].
    rewrite <- app_assoc. change (be_bytes 4 (blen core) ++ core ++ fields_bytes fields)
      with (envelope core fields).
    destruct fields as [|f fields]; [split; [discriminate | by intros [? _]]|].
    destruct (N.ltb_spec 1048576
      (N.min 18446744073709551615 (blen (envelope core (f :: fields)) + 15))).
    + split; [discriminate | intros (_ & _ & -> & ?); lia].
    + split; [intros [= <-]; repeat split; try done; [by destruct Hi | by destruct Hi | lia]
             | by intros (_ & _ & -> & _)].
  - split; [discriminate|]. intros (_ & Hi & _).
    assert (Hok : encode_fields 0 fields e0 = Ok {| enc_buf := enc_buf e0 ++ fields_bytes fields;
      enc_panic := enc_panic e0 |}) by (by apply encode_fields_ok). congruence.
Qed.

Lemma increasing_positive previous fields :
  increasing_ids previous fields -> Forall (fun f => previous < f.1) fields.
Proof.
  revert previous. induction fields as [|f fields IH]; intros previous Hi; constructor.
  - apply Hi.
  - destruct Hi as [Hlt Hi]. eapply Forall_impl; [apply (IH _ Hi)|]. cbn. lia.
Qed.

(** Encoding and decoding round trip: an envelope the client encodes
    (fields with [u16] identifiers and values that fit a [u32] length) decodes
    back to its core bytes, for every message type but HELLO with an empty
    mask, and HELLO with the client's own capability list with both known
    capabilities set. *)
Theorem wire3_encode_decode core fields mt p :
  blen core <= u32_max -> Forall (fun f => f.1 < 2 ^ 16 /\ blen f.2 <= u32_max) fields ->
  encode core fields = Ok p ->
  (mt <> HELLO -> decode p mt EXTENSIONS_PRESENT = Ok (core, 0))
  /\ (fields = [(1, CLIENT_CAPABILITIES)] -> decode p HELLO EXTENSIONS_PRESENT = Ok (core, 6)).
Proof.
  intros Hc Hall He. apply encode_ok in He as (Hne & Hi & -> & _);
    [|done | by eapply Forall_impl; [exact Hall | intros f [_ ?]]].
  assert (Hok : Forall field_ok fields).
  { apply increasing_positive in Hi. rewrite Forall_forall in *. intros f Hf.
    specialize (Hall f Hf) as [? ?]. specialize (Hi f Hf). unfold field_ok. auto. }
  split.
  - intros Hmt. rewrite decode_envelope by done. destruct (N.eqb_spec mt HELLO); [done|].
    by rewrite field_steps_core.
  - intros ->. rewrite decode_envelope by done. reflexivity.
Qed.

(** The golden vector [hello_wire3_queue_capabilities] of
    [tests/fixtures/wire3_vectors.txt]: its core, and mask 6. *)
Definition golden_hello_core : bytes :=
  map byte_of_N [0;3; 0;0;0;0; 0;16;0;0; 0;0;0;64; 0;0;0;0;0;0;0;42].

Lemma wire3_decode_spec_witness :
  N.land 4 EXTENSIONS_PRESENT <> 0
  /\ decode (envelope golden_hello_core [(1, CLIENT_CAPABILITIES)]) HELLO 4
     = Ok (golden_hello_core, 6).
Proof.
  split; [done|]. apply wire3_decode_spec; [done|].
  exists [(1, CLIENT_CAPABILITIES)]. split; [done|].
  split; [repeat constructor; vm_compute; congruence|]. split; [vm_compute; congruence|].
  split; [done|]. exists [1; 2]. split; [vm_compute; done|].
  split; [|vm_compute; done]. split; [vm_compute; done|].
  split; [repeat constructor | repeat split].
Defined.

Lemma wire3_encode_decode_witness :
  exists p, encode golden_hello_core [(1, CLIENT_CAPABILITIES)] = Ok p
    /\ decode p HELLO EXTENSIONS_PRESENT = Ok (golden_hello_core, 6).
Proof.
  eexists. split; [vm_compute; reflexivity|].
  apply (wire3_encode_decode golden_hello_core [(1, CLIENT_CAPABILITIES)] 104);
    [vm_compute; congruence | repeat constructor; vm_compute; congruence
    | vm_compute; reflexivity | reflexivity].
Defined.
