(* ===== verification/Routes.v ===== *)
(** * Routes

    [src/src/domains/routes.rs]: route-shape validation ([scan] and the
    validators built on it), the Stream selector classes, and the backtracking
    matcher of concrete routes against patterns, with the declarative glob
    relation it is proved equivalent to. *)

From S2P Require Import Prelude Errors.

Definition slash : byte := Byte.x2f.
Definition star : byte := Byte.x2a.
Definition sep : bytes := str "://".
(** The two wildcard segments. *)
Definition one : bytes := str "*".
Definition many : bytes := str "**".

(** [bytes[index]], for an index below the length. *)
Definition byte_at (l : bytes) (index : N) : byte := nth (N.to_nat index) l Byte.x00.
(** [segment.contains(&b)] of a byte or an ASCII character. *)
Definition contains (l : bytes) (b : byte) : bool := existsb (fun c => bool_decide (c = b)) l.

(** [str::split(sep)] on a one-byte separator: at least one piece. *)
Fixpoint split_acc (cur : bytes) (c : byte) (l : bytes) : list bytes :=
  match l with
  | [] => [cur]
  | b :: l' => if bool_decide (b = c) then cur :: split_acc [] c l' else split_acc (cur ++ [b]) c l'
  end.
Definition split (c : byte) (l : bytes) : list bytes := split_acc [] c l.

(** [str::strip_prefix] and [starts_with]. *)
Fixpoint strip_prefix (prefix l : bytes) : option bytes :=
  match prefix, l with
  | [], _ => Some l
  | p :: prefix', b :: l' => if bool_decide (p = b) then strip_prefix prefix' l' else None
  | _, [] => None
  end.
Definition starts_with (prefix l : bytes) : bool :=
  match strip_prefix prefix l with Some _ => true | None => false end.

(** [str::split_once(pat)]: at the first occurrence. *)
Fixpoint split_once (pat l : bytes) : option (bytes * bytes) :=
  match strip_prefix pat l with
  | Some tail => Some ([], tail)
  | None =>
      match l with
      | [] => None
      | b :: l' =>
          match split_once pat l' with
          | Some (h, t) => Some (b :: h, t)
          | None => None
          end
      end
  end.

Definition invalid {A : Type} (message : bytes) : Result A := Err (Protocol message).

(** ** Scanning *)

Record Shape : Set := {
  segments : N;
  first_wildcard : option N;
  double_wildcard : bool;
  double_wildcard_count : N;
  wildcard_suffix : bool;
}.

Definition empty_shape : Shape :=
  {| segments := 0; first_wildcard := None; double_wildcard := false;
     double_wildcard_count := 0; wildcard_suffix := true |}.

(** The part of the loop body after a segment's end is found: the updated
    shape, and whether this segment is [**]. *)
Definition scan_segment (segment : bytes) (shape : Shape) (prev_double_wildcard : bool) :
    Result (Shape * bool) :=
  let wildcard := bytes_eqb segment one in
  let double := bytes_eqb segment many in
  if wildcard || double then
    let first := match first_wildcard shape with
                 | Some i => Some i
                 | None => Some (segments shape)
                 end in
    if double && prev_double_wildcard then invalid (str "adjacent ** segments are not allowed")
    else Ok ({| segments := segments shape + 1; first_wildcard := first;
                double_wildcard := double_wildcard shape || double;
                double_wildcard_count :=
                  if double then double_wildcard_count shape + 1 else double_wildcard_count shape;
                wildcard_suffix := wildcard_suffix shape |}, double)
  else if contains segment star then
    invalid (str "wildcards must occupy a complete segment")
  else Ok ({| segments := segments shape + 1; first_wildcard := first_wildcard shape;
              double_wildcard := double_wildcard shape;
              double_wildcard_count := double_wildcard_count shape;
              wildcard_suffix :=
                match first_wildcard shape with Some _ => false | None => wildcard_suffix shape end
           |}, double).

(** [for index in start..=bytes.len()], [n] iterations from [index]. *)
Fixpoint scan_loop (n : nat) (l : bytes) (index segment_start : N) (shape : Shape)
    (prev_double_wildcard : bool) : Result Shape :=
  match n with
  | O => Ok shape
  | S n' =>
      if negb (index =? blen l) && negb (bool_decide (byte_at l index = slash))
      then scan_loop n' l (index + 1) segment_start shape prev_double_wildcard
      else if index =? segment_start then invalid (str "route contains an empty segment")
      else
        let* '(shape', prev') :=
          scan_segment (slice segment_start index l) shape prev_double_wildcard in
        scan_loop n' l (index + 1) (index + 1) shape' prev'
  end.

Definition scan (route scheme : bytes) : Result Shape :=
  if u16_max <? blen route then
    invalid (str "route exceeds the 65,535-byte TLV value limit")
  else
    let start := blen scheme + 3 in
    if (blen scheme =? 0) || (blen route <=? start) || negb (starts_with scheme route)
       || negb (bytes_eqb (slice (blen scheme) start route) sep)
    then invalid (str "route has the wrong scheme")
    else scan_loop (N.to_nat (blen route + 1 - start)) route start start empty_shape false.

(** ** Validators *)

Definition validate_registration_pattern (route scheme : bytes) (required_segments : N) :
    Result unit :=
  shape <- scan route scheme;;
  if required_segments =? 0 then Ok tt
  else if
    if double_wildcard_count shape =? 0 then segments shape =? required_segments
    else segments shape - double_wildcard_count shape <=? required_segments
  then Ok tt
  else invalid (str "registration pattern cannot match the required route depth").

Definition validate_concrete_route (route scheme : bytes) : Result unit :=
  shape <- scan route scheme;;
  match first_wildcard shape with
  | Some _ => invalid (str "wildcards are not allowed in concrete routes")
  | None => Ok tt
  end.

Definition validate_fixed_route (route scheme : bytes) (segs : N) : Result unit :=
  shape <- scan route scheme;;
  if negb (segments shape =? segs)
     || match first_wildcard shape with Some _ => true | None => false end
  then invalid (str "route has the wrong shape")
  else Ok tt.

Definition validate_response_fixed_route (route scheme : bytes) (segs : N) (operation : bytes) :
    Result unit :=
  map_err (fun _ => Protocol (operation ++ str " response contains invalid concrete " ++ scheme
                                ++ str " route: " ++ route))
    (validate_fixed_route route scheme segs).

(** ** Stream selectors *)

Inductive StreamSelectorScope : Set := Resource | Area | Realm | Global.

#[export] Instance StreamSelectorScope_eq_dec : EqDecision StreamSelectorScope.
Proof. solve_decision. Defined.

Definition wrong_shape {A : Type} : Result A := invalid (str "stream selector has the wrong shape").

Definition classify_stream_selector (route : bytes) : Result StreamSelectorScope :=
  if bytes_eqb route (str "stream://**") then Ok Global
  else
    scan route (str "stream");;
    match strip_prefix (str "stream://") route with
    | None => invalid (str "stream selector has the wrong scheme")
    | Some path =>
        match split slash path with
        | [realm; area] =>
            if bytes_eqb area many && negb (bytes_eqb realm []) && negb (contains realm star)
            then Ok Realm
            else wrong_shape
        | [realm; area; resource] =>
            let literal segment := negb (contains segment star) in
            if (literal realm || bytes_eqb realm one) && (literal area || bytes_eqb area one)
               && (literal resource || bytes_eqb resource one)
            then
              Ok (if bytes_eqb realm one then Global
                  else if bytes_eqb area one then Realm
                  else if bytes_eqb resource one then Area
                  else Resource)
            else wrong_shape
        | _ => wrong_shape
        end
    end.

Definition validate_stream_selector (route : bytes) : Result unit :=
  _ <- classify_stream_selector route;; Ok tt.

(** ** Matching *)

(** [str::find('/')]. *)
Fixpoint find_slash (l : bytes) : option N :=
  match l with
  | [] => None
  | b :: l' =>
      if bool_decide (b = slash) then Some 0
      else match find_slash l' with Some i => Some (1 + i) | None => None end
  end.

Definition next_segment (path : bytes) (start : N) : option (bytes * N) :=
  if blen path <=? start then None
  else
    match find_slash (drop (N.to_nat start) path) with
    | Some offset => Some (slice start (start + offset) path, start + offset + 1)
    | None => Some (drop (N.to_nat start) path, blen path)
    end.

(** [while let Some((segment, next)) = next_segment(pattern_path, pattern_index)]. *)
Fixpoint match_tail (fuel : nat) (pattern_path : bytes) (pattern_index : N) : option bool :=
  match next_segment pattern_path pattern_index with
  | None => Some (pattern_index =? blen pattern_path)
  | Some (segment, next) =>
      match fuel with
      | O => None
      | S fuel' =>
          if negb (bytes_eqb segment many) then Some false
          else match_tail fuel' pattern_path next
      end
  end.

(** [while route_index < route_path.len()]. *)
Fixpoint match_loop (fuel : nat) (route_path pattern_path : bytes) (route_index pattern_index : N)
    (last_double_wildcard : option N) (last_double_match : N) : option bool :=
  if route_index <? blen route_path then
    match fuel with
    | O => None
    | S fuel' =>
        match next_segment route_path route_index with
        | None => Some false
        | Some (route_segment, next_route_index) =>
            let backtrack :=
              match last_double_wildcard with
              | None => Some false
              | Some after =>
                  match next_segment route_path last_double_match with
                  | None => Some false
                  | Some (_, next_double_match) =>
                      match_loop fuel' route_path pattern_path next_double_match after
                        last_double_wildcard next_double_match
                  end
              end in
            match next_segment pattern_path pattern_index with
            | Some (segment, next_pattern_index) =>
                if bytes_eqb segment one || bytes_eqb segment route_segment then
                  match_loop fuel' route_path pattern_path next_route_index next_pattern_index
                    last_double_wildcard last_double_match
                else if bytes_eqb segment many then
                  match_loop fuel' route_path pattern_path route_index next_pattern_index
                    (Some next_pattern_index) route_index
                else backtrack
            | None => backtrack
            end
        end
    end
  else match_tail (length pattern_path) pattern_path pattern_index.

(** Enough iterations for every pair of paths ([match_loop_total]). *)
Definition match_fuel (route_path pattern_path : bytes) : nat :=
  let r := length route_path in
  let p := length pattern_path in
  ((r + p) * (r + 2) + r + 1)%nat.

Definition route_matches_pattern (route pattern : bytes) : bool :=
  match split_once sep route with
  | None => false
  | Some (route_scheme, route_path) =>
      match split_once sep pattern with
      | None => false
      | Some (pattern_scheme, pattern_path) =>
          if negb (bytes_eqb route_scheme pattern_scheme) then false
          else if bytes_eqb route_path [] || bytes_eqb pattern_path [] then false
          else
            match match_loop (match_fuel route_path pattern_path) route_path pattern_path 0 0 None 0 with
            | Some b => b
            | None => false
            end
      end
  end.

(** ** Specifications *)

(** The segments [next_segment] walks through: a trailing slash adds none. *)
Fixpoint path_segments_acc (cur l : bytes) : list bytes :=
  match l with
  | [] => match cur with [] => [] | _ => [cur] end
  | b :: l' =>
      if bool_decide (b = slash) then cur :: path_segments_acc [] l'
      else path_segments_acc (cur ++ [b]) l'
  end.
Definition path_segments (l : bytes) : list bytes := path_segments_acc [] l.

(** The glob relation: [*] stands for one segment, [**] for any number. *)
Inductive glob : list bytes -> list bytes -> Prop :=
| glob_nil : glob [] []
| glob_one r p rs ps : (p = one \/ p = r) -> glob rs ps -> glob (r :: rs) (p :: ps)
| glob_many_skip rs ps : glob rs ps -> glob rs (many :: ps)
| glob_many_eat r rs ps : glob rs (many :: ps) -> glob (r :: rs) (many :: ps).

(** The route grammar. *)
Definition segment_ok (s : bytes) : Prop :=
  s <> [] /\ (s = one \/ s = many \/ contains s star = false).
Fixpoint no_adjacent_many (prev : bool) (segs : list bytes) : Prop :=
  match segs with
  | [] => True
  | s :: segs' => (s = many -> prev = false) /\ no_adjacent_many (bytes_eqb s many) segs'
  end.
Definition count_many (segs : list bytes) : N :=
  blen (filter (fun s => s = many) segs).
(** The scheme and segments of a route that [scan] accepts. *)
Definition well_formed (route scheme : bytes) (segs : list bytes) : Prop :=
  scheme <> [] /\ blen route <= u16_max
  /\ (exists path, route = scheme ++ sep ++ path /\ segs = split slash path)
  /\ Forall segment_ok segs /\ no_adjacent_many false segs.

(** What [scan] does with the pieces between slashes. *)
Fixpoint scan_segments (segs : list bytes) (shape : Shape) (prev : bool) : Result Shape :=
  match segs with
  | [] => Ok shape
  | s :: segs' =>
      if bytes_eqb s [] then invalid (str "route contains an empty segment")
      else let* '(shape', prev') := scan_segment s shape prev in scan_segments segs' shape' prev'
  end.
Definition wildcard (s : bytes) : bool := bytes_eqb s one || bytes_eqb s many.

(** The effect of a segment on the fields the validators read. *)
Definition shape_step (s : bytes) (a b : Shape) : Prop :=
  segments b = segments a + 1
  /\ double_wildcard_count b
     = double_wildcard_count a + (if bytes_eqb s many then 1 else 0)
  /\ (first_wildcard b = None <-> first_wildcard a = None /\ wildcard s = false).

(** Total length with a separator after each segment. *)
Definition size (segs : list bytes) : N := fold_right (fun s n => blen s + 1 + n) 0 segs.

Fixpoint join (segs : list bytes) : bytes :=
  match segs with
  | [] => []
  | [s] => s
  | s :: segs' => s ++ slash :: join segs'
  end.

Definition plain (s : bytes) : Prop := s <> [] /\ contains s star = false.

(** ** Segments of a path *)

Lemma find_slash_none l : find_slash l = None -> forall cur,
  path_segments_acc cur l = match cur ++ l with [] => [] | _ => [cur ++ l] end.
Proof.
  induction l as [|b l IH]; intros H cur; cbn [find_slash path_segments_acc] in *.
  - by rewrite app_nil_r.
  - destruct (bool_decide (b = slash)); [discriminate|].
    destruct (find_slash l); [discriminate|].
    rewrite IH by done. by rewrite <- app_assoc.
Qed.

Lemma find_slash_some l : forall k, find_slash l = Some k ->
  k < blen l /\ forall cur,
    path_segments_acc cur l = (cur ++ take (N.to_nat k) l) :: path_segments (drop (N.to_nat (k + 1)) l).
Proof.
  induction l as [|b l IH]; intros k H; cbn [find_slash path_segments_acc] in *; [discriminate|].
  rewrite blen_cons. destruct (bool_decide (b = slash)) eqn:Eb.
  - injection H as <-. split; [lia|]. intros cur. cbn. by rewrite app_nil_r.
  - destruct (find_slash l) as [k'|]; [|discriminate]. injection H as <-.
    destruct (IH k' eq_refl) as [Hk Hs]. split; [lia|]. intros cur. rewrite Hs.
    replace (N.to_nat (1 + k')) with (S (N.to_nat k')) by lia.
    replace (N.to_nat (1 + k' + 1)) with (S (N.to_nat (k' + 1))) by lia.
    cbn [take drop]. by rewrite <- app_assoc.
Qed.

Lemma next_segment_none p i : next_segment p i = None <-> blen p <= i.
Proof.
  unfold next_segment. destruct (N.leb_spec (blen p) i); [done|].
  destruct (find_slash _); split; (discriminate || lia).
Qed.

Lemma next_segment_some p i s j :
  next_segment p i = Some (s, j) ->
  i < blen p /\ i < j <= blen p
  /\ path_segments (drop (N.to_nat i) p) = s :: path_segments (drop (N.to_nat j) p).
Proof.
  unfold next_segment. destruct (N.leb_spec (blen p) i) as [|Hi]; [discriminate|].
  assert (Hd : blen (drop (N.to_nat i) p) = blen p - i)
    by (unfold blen; rewrite length_drop; lia).
  destruct (find_slash _) as [k|] eqn:E; intros [= <- <-].
  - apply find_slash_some in E as [Hk Hs]. rewrite Hd in Hk. split; [done|]. split; [lia|].
    unfold path_segments at 1. rewrite Hs, drop_drop. unfold slice.
    replace (i + k - i) with k by lia.
    replace (N.to_nat i + N.to_nat (k + 1))%nat with (N.to_nat (i + k + 1)) by lia. done.
  - split; [done|]. split; [lia|]. unfold path_segments at 1.
    rewrite (find_slash_none _ E). cbn [app].
    rewrite (drop_ge p (N.to_nat (blen p))) by (unfold blen; lia).
    destruct (drop (N.to_nat i) p); [cbn in Hd; rewrite ?blen_nil in Hd; lia | done].
Qed.

Lemma drop_segments_end p i : blen p <= i -> path_segments (drop (N.to_nat i) p) = [].
Proof. intros H. rewrite drop_ge; [done | unfold blen in H; lia]. Qed.

(** ** The glob relation *)

Lemma one_not_many : one <> many.
Proof. done. Qed.

Lemma glob_cons r rs p ps :
  p <> many -> glob (r :: rs) (p :: ps) <-> (p = one \/ p = r) /\ glob rs ps.
Proof.
  intros Hp. split.
  - inversion 1; subst; done.
  - intros [? ?]. by constructor.
Qed.

Lemma glob_nil_cons p ps : glob [] (p :: ps) <-> p = many /\ glob [] ps.
Proof. split; [by inversion 1; subst | intros [-> ?]; by constructor]. Qed.

Lemma glob_cons_nil r rs : ~ glob (r :: rs) [].
Proof. inversion 1. Qed.

Lemma glob_many rs ps : glob rs (many :: ps) <-> exists k, glob (drop k rs) ps.
Proof.
  split.
  - induction rs as [|r rs IH].
    + intros [_ ?]%glob_nil_cons. by exists 0%nat.
    + inversion 1; subst; [by exists 1%nat | by exists 0%nat |].
      destruct IH as [k ?]; [done|]. by exists (S k).
  - intros [k Hk]. revert rs Hk. induction k as [|k IH]; intros rs Hk.
    + by apply glob_many_skip.
    + destruct rs as [|r rs]; cbn [drop] in Hk; [by apply glob_many_skip|].
      apply glob_many_eat. by apply IH.
Qed.

Lemma glob_mid mid ps : forall rs,
  many ∉ mid -> glob rs (mid ++ ps) ->
  (length mid <= length rs)%nat /\ glob (drop (length mid) rs) ps.
Proof.
  induction mid as [|p mid IH]; intros rs Hm Hg; cbn [app length] in *; [split; [lia | done]|].
  apply not_elem_of_cons in Hm as [Hp Hm].
  destruct rs as [|r rs].
  - apply glob_nil_cons in Hg as [-> _]. done.
  - apply glob_cons in Hg as [_ Hg]; [|done]. apply IH in Hg as [? ?]; [|done].
    cbn. split; [lia | done].
Qed.

(** ** Correctness of the backtracking loop

    [back] is the suffix of the route at [last_double_match] and the pattern
    after the last [**]. *)

Definition will_match (rs ps : list bytes) (back : option (list bytes * list bytes)) : Prop :=
  glob rs ps \/ exists rb pb k, back = Some (rb, pb) /\ (1 <= k)%nat /\ glob (drop k rb) pb.

Definition back_inv (rs ps : list bytes) (back : option (list bytes * list bytes)) : Prop :=
  match back with
  | None => True
  | Some (rb, pb) =>
      exists eaten mid, (rb = eaten ++ rs) /\ (pb = mid ++ ps) /\ (many ∉ mid)
        /\ length eaten = length mid /\ many ∉ rb
  end.

Lemma step_segment r rs p ps back :
  p <> many -> (p = one \/ p = r) ->
  (will_match (r :: rs) (p :: ps) back <-> will_match rs ps back)
  /\ (back_inv (r :: rs) (p :: ps) back -> back_inv rs ps back).
Proof.
  intros Hp Hm. split.
  - unfold will_match. rewrite glob_cons by done. tauto.
  - destruct back as [[rb pb]|]; [|done]. intros (eaten & mid & -> & -> & Hn & Hl & Hr).
    exists (eaten ++ [r]), (mid ++ [p]). rewrite <- !app_assoc, !length_app, not_elem_of_app.
    repeat split; try done; [|cbn; lia]. intros ?%list_elem_of_singleton. congruence.
Qed.

Lemma step_many rs ps back :
  many ∉ rs -> back_inv rs (many :: ps) back ->
  (will_match rs (many :: ps) back <-> will_match rs ps (Some (rs, ps)))
  /\ back_inv rs ps (Some (rs, ps)).
Proof.
  intros Hr Hb. split.
  - assert (Hg : glob rs (many :: ps) <-> will_match rs ps (Some (rs, ps))).
    { rewrite glob_many. unfold will_match. split.
      - intros [[|k] Hk]; [by left|]. right. exists rs, ps, (S k). split; [done|]. split; [lia | done].
      - intros [?|(? & ? & k & [= <- <-] & _ & ?)]; [by exists 0%nat | by exists k]. }
    rewrite <- Hg. split; [|by left].
    intros [?|(rb & pb & k & -> & _ & Hk)]; [done|].
    destruct Hb as (eaten & mid & -> & -> & Hn & Hl & _).
    apply glob_mid in Hk as [_ Hk]; [|done]. rewrite drop_drop, Nat.add_comm, <- drop_drop in Hk.
    rewrite <- Hl, drop_app_length in Hk.
    apply glob_many in Hk as [k' Hk]. rewrite drop_drop in Hk. apply glob_many. eauto.
  - exists [], []. repeat split; try done; apply not_elem_of_nil.
Qed.

Lemma step_backtrack r rs ps rb rb0 pb :
  ~ glob (r :: rs) ps -> back_inv (r :: rs) ps (Some (rb0 :: rb, pb)) ->
  (will_match (r :: rs) ps (Some (rb0 :: rb, pb)) <-> will_match rb pb (Some (rb, pb)))
  /\ back_inv rb pb (Some (rb, pb)).
Proof.
  intros Hg (eaten & mid & _ & _ & _ & _ & Hr). split.
  - unfold will_match. split.
    + intros [?|(? & ? & [|k] & [= <- <-] & Hk & ?)]; [done | lia |]. cbn [drop] in *.
      destruct k as [|k]; [by left|]. right. exists rb, pb, (S k). split; [done|]. split; [lia | done].
    + intros [?|(? & ? & k & [= <- <-] & Hk & ?)]; right.
      * by exists (rb0 :: rb), pb, 1%nat.
      * exists (rb0 :: rb), pb, (S k). split; [done|]. split; [lia | done].
  - exists [], []. repeat split; try done; [apply not_elem_of_nil|]. set_solver.
Qed.

Lemma match_end ps back : back_inv [] ps back -> will_match [] ps back <-> glob [] ps.
Proof.
  intros Hb. split; [|by left]. intros [?|(rb & pb & k & -> & Hk & Hg)]; [done|].
  destruct Hb as (eaten & mid & -> & -> & Hn & Hl & _). rewrite app_nil_r in *.
  apply glob_mid in Hg as [Hle Hg]; [|done]. rewrite length_drop, Hl in Hle.
  rewrite drop_drop, drop_ge in Hg by lia. done.
Qed.

Lemma match_tail_correct pp fuel : forall j b,
  j <= blen pp -> match_tail fuel pp j = Some b ->
  b = true <-> glob [] (path_segments (drop (N.to_nat j) pp)).
Proof.
  induction fuel as [|fuel IH]; intros j b Hj; cbn [match_tail];
    destruct (next_segment pp j) as [[s j']|] eqn:E; try discriminate.
  1, 3: apply next_segment_none in E; rewrite drop_segments_end by done; intros [= <-];
        destruct (N.eqb_spec j (blen pp)); [split; [constructor | done] | lia].
  apply next_segment_some in E as (_ & Hj' & ->). unfold bytes_eqb.
  rewrite glob_nil_cons. destruct (bool_decide_reflect (s = many)) as [->|Hs]; cbn [negb].
  - intros H. rewrite (IH j') by (lia || done). tauto.
  - intros [= <-]. split; [done | tauto].
Qed.

Lemma match_tail_total pp fuel : forall j,
  (length pp - N.to_nat j <= fuel)%nat -> match_tail fuel pp j <> None.
Proof.
  induction fuel as [|fuel IH]; intros j Hf; cbn [match_tail];
    destruct (next_segment pp j) as [[s j']|] eqn:E; try done;
    apply next_segment_some in E as (Hj & Hj' & _).
  - unfold blen in Hj. lia.
  - destruct (negb _); [done|]. apply IH. unfold blen in *. lia.
Qed.

Section MatchLoop.
Context (rp pp : bytes).
Local Abbreviation R i := (path_segments (drop (N.to_nat i) rp)).
Local Abbreviation P j := (path_segments (drop (N.to_nat j) pp)).

Definition backtrack_point (ldw : option N) (ldm : N) : option (list bytes * list bytes) :=
  match ldw with Some dw => Some (R ldm, P dw) | None => None end.

Lemma match_loop_correct fuel : forall ri pj ldw ldm b,
  pj <= blen pp -> (forall dw, ldw = Some dw -> dw <= blen pp) -> many ∉ R ri ->
  back_inv (R ri) (P pj) (backtrack_point ldw ldm) ->
  match_loop fuel rp pp ri pj ldw ldm = Some b ->
  b = true <-> will_match (R ri) (P pj) (backtrack_point ldw ldm).
Proof.
  induction fuel as [|fuel IH]; intros ri pj ldw ldm b Hp Hd Hm Hb H; cbn [match_loop] in H;
    (destruct (N.ltb_spec ri (blen rp)) as [Hr|Hr];
     [| rewrite drop_segments_end in * by done; rewrite match_end by done;
        by eapply match_tail_correct]); [discriminate H|].
  destruct (next_segment rp ri) as [[r nri]|] eqn:Er; [|apply next_segment_none in Er; lia].
  apply next_segment_some in Er as (_ & Hnri & Er). rewrite Er in *.
  assert (Hback : ~ glob (r :: R nri) (P pj) ->
    match ldw with
    | None => Some false
    | Some after => match next_segment rp ldm with
        | None => Some false
        | Some (_, ndm) => match_loop fuel rp pp ndm after ldw ndm
        end
    end = Some b ->
    b = true <-> will_match (r :: R nri) (P pj) (backtrack_point ldw ldm)).
  { intros Hg. destruct ldw as [dw|]; cbn [backtrack_point] in *.
    - destruct (next_segment rp ldm) as [[rb0 ndm]|] eqn:Em.
      + apply next_segment_some in Em as (_ & _ & Em). rewrite Em in *.
        destruct (step_backtrack _ _ _ _ _ _ Hg Hb) as [-> Hb'].
        apply IH; eauto. destruct Hb' as (? & ? & ? & ? & ? & ? & ?). done.
      + apply next_segment_none in Em. rewrite (drop_segments_end _ ldm) in Hb by done.
        destruct Hb as (eaten & mid & Ha & _). by destruct eaten.
    - intros [= <-]. split; [done|]. intros [?|(? & ? & ? & ? & _)]; done. }
  apply not_elem_of_cons in Hm as [Hm1 Hm2].
  destruct (next_segment pp pj) as [[p npj]|] eqn:Ep.
  - apply next_segment_some in Ep as (_ & Hnpj & Ep). rewrite Ep in *.
    unfold bytes_eqb in H. destruct (bool_decide_reflect (p = one \/ p = r)) as [Hpr|Hpr].
    + assert (p <> many) by (destruct Hpr as [-> | ->]; done).
      replace (bool_decide (p = one) || bool_decide (p = r)) with true in H
        by (symmetry; rewrite orb_true_iff, !bool_decide_eq_true; done).
      destruct (step_segment r (R nri) p (P npj) (backtrack_point ldw ldm)) as [-> Hb']; [done..|].
      apply IH; auto; lia.
    + replace (bool_decide (p = one) || bool_decide (p = r)) with false in H
        by (symmetry; rewrite orb_false_iff, !bool_decide_eq_false; tauto).
      destruct (bool_decide_reflect (p = many)) as [->|Hpm].
      * rewrite <- Er in *. destruct (step_many (R ri) (P npj) (backtrack_point ldw ldm)) as [-> Hb'];
          [rewrite Er; by apply not_elem_of_cons | done |].
        apply (IH ri npj (Some npj) ri); cbn [backtrack_point]; auto; [lia | | ].
        -- intros ? [= <-]. lia.
        -- rewrite Er. by apply not_elem_of_cons.
      * apply Hback; [|done]. rewrite glob_cons by done. tauto.
  - apply next_segment_none in Ep. rewrite (drop_segments_end _ pj) in * by done.
    apply Hback; [apply glob_cons_nil | done].
Qed.

(** Each step lengthens the matched prefix or advances a backtrack point. *)
Definition match_measure (ri ldm dw : N) : N :=
  ((blen rp - ldm) + (blen pp - dw)) * (blen rp + 2) + (blen rp - ri).

Lemma match_loop_total fuel : forall ri pj ldw ldm,
  ldm <= ri -> ri <= blen rp -> default 0 ldw <= pj -> pj <= blen pp ->
  match_measure ri ldm (default 0 ldw) <= N.of_nat fuel ->
  match_loop fuel rp pp ri pj ldw ldm <> None.
Proof.
  unfold match_measure.
  induction fuel as [|fuel IH]; intros ri pj ldw ldm H1 H2 H3 H4 Hf; cbn [match_loop];
    (destruct (N.ltb_spec ri (blen rp)) as [Hr|Hr]; [|apply match_tail_total; lia]); [nia|].
  destruct (next_segment rp ri) as [[r nri]|] eqn:Er; [|done].
  apply next_segment_some in Er as (_ & Hnri & _).
  assert (Hback : match ldw with
    | None => Some false
    | Some after => match next_segment rp ldm with
        | None => Some false
        | Some (_, ndm) => match_loop fuel rp pp ndm after ldw ndm
        end
    end <> None).
  { destruct ldw as [dw|]; [|done]. cbn [default] in *.
    destruct (next_segment rp ldm) as [[? ndm]|] eqn:Em; [|done].
    apply next_segment_some in Em as (_ & Hndm & _). apply IH; cbn [default from_option id] in *; nia. }
  destruct (next_segment pp pj) as [[p npj]|] eqn:Ep; [|done].
  apply next_segment_some in Ep as (_ & Hnpj & _).
  destruct (_ || _); [apply IH; nia|].
  destruct (bytes_eqb p many); [|done].
  apply IH; cbn [default from_option id] in *; nia.
Qed.
End MatchLoop.

(** Enough fuel never runs out. *)
Lemma match_loop_returns rp pp fuel :
  (match_fuel rp pp <= fuel)%nat -> exists b, match_loop fuel rp pp 0 0 None 0 = Some b.
Proof.
  intros Hf. destruct (match_loop _ _ _ _ _ _ _) as [b|] eqn:E; [by exists b|].
  apply match_loop_total in E; [done | cbn; lia..|].
  revert Hf. unfold match_measure, match_fuel, blen. cbn [default from_option id]. lia.
Qed.

Lemma match_loop_spec rp pp :
  many ∉ path_segments rp ->
  exists b, match_loop (match_fuel rp pp) rp pp 0 0 None 0 = Some b
    /\ (b = true <-> glob (path_segments rp) (path_segments pp)).
Proof.
  intros Hm. destruct (match_loop_returns rp pp (match_fuel rp pp)) as [b E]; [done|].
  exists b. split; [done|]. rewrite (match_loop_correct rp pp _ 0 0 None 0 b) by (done || lia).
  unfold will_match. cbn. split; [|by left]. by intros [?|(? & ? & ? & ? & _)].
Qed.

(** ** Scanning is a fold over the segments *)

Lemma split_acc_cons cur c b l :
  b <> c -> split_acc cur c (b :: l) = split_acc (cur ++ [b]) c l.
Proof. intros H. cbn. by rewrite bool_decide_eq_false_2. Qed.

Lemma slice_nil {A} i (l : list A) : slice i i l = [].
Proof. unfold slice. by rewrite N.sub_diag. Qed.

Lemma byte_at_drop l i b l' : drop (N.to_nat i) l = b :: l' -> byte_at l i = b.
Proof.
  intros H. unfold byte_at. rewrite <- (take_drop (N.to_nat i) l), H.
  rewrite app_nth2; rewrite length_take_le; try lia.
  - by rewrite Nat.sub_diag.
  - apply (f_equal length) in H. rewrite length_drop in H. cbn in H. lia.
  - apply (f_equal length) in H. rewrite length_drop in H. cbn in H. lia.
Qed.

Lemma slice_snoc {A} i j (l : list A) b l' :
  i <= j -> drop (N.to_nat j) l = b :: l' -> slice i j l ++ [b] = slice i (j + 1) l.
Proof.
  intros Hij H. rewrite <- (slice_split i j (j + 1)) by lia. f_equal.
  unfold slice. rewrite H. replace (j + 1 - j) with 1 by lia. done.
Qed.

Lemma drop_next {A} j (l : list A) b l' :
  drop (N.to_nat j) l = b :: l' -> drop (N.to_nat (j + 1)) l = l'.
Proof.
  intros H. replace (N.to_nat (j + 1)) with (N.to_nat j + 1)%nat by lia.
  by rewrite <- drop_drop, H.
Qed.

Lemma slice_empty i j (l : bytes) :
  i <= j -> j <= blen l -> bytes_eqb (slice i j l) [] = (j =? i).
Proof.
  intros. unfold bytes_eqb. pose proof (slice_length i j l) as Hl.
  destruct (N.eqb_spec j i) as [->|]; [by rewrite slice_nil|].
  apply bool_decide_eq_false_2. intros E. rewrite E, blen_nil in Hl. lia.
Qed.

Lemma scan_loop_segments n : forall l index start shape prev,
  start <= index -> index <= blen l -> n = N.to_nat (blen l + 1 - index) ->
  scan_loop n l index start shape prev
  = scan_segments (split_acc (slice start index l) slash (drop (N.to_nat index) l)) shape prev.
Proof.
  induction n as [|n IH]; intros l index start shape prev Hs Hi Hn; [lia|]. cbn [scan_loop].
  destruct (drop (N.to_nat index) l) as [|b l'] eqn:Ed.
  - assert (index = blen l) as ->.
    { apply (f_equal length) in Ed. rewrite length_drop in Ed. unfold blen in *. cbn in Ed. lia. }
    rewrite N.eqb_refl. cbn [negb andb split_acc scan_segments]. rewrite slice_empty by lia.
    destruct (_ =? start); [done|]. destruct (scan_segment _ _ _) as [[shape' prev']|]; [|done].
    replace n with O by lia. done.
  - assert (index < blen l).
    { apply (f_equal length) in Ed. rewrite length_drop in Ed. unfold blen. cbn in Ed. lia. }
    destruct (N.eqb_spec index (blen l)) as [|_]; [lia|]. rewrite (byte_at_drop _ _ _ _ Ed).
    pose proof (drop_next _ _ _ _ Ed) as Ed'.
    destruct (bool_decide_reflect (b = slash)) as [->|Hb]; cbn [negb andb].
    + cbn [split_acc]. rewrite bool_decide_eq_true_2 by done. cbn [scan_segments].
      rewrite slice_empty by lia. destruct (index =? start); [done|].
      destruct (scan_segment _ _ _) as [[shape' prev']|]; [|done]. cbn.
      rewrite IH by lia. by rewrite slice_nil, Ed'.
    + rewrite IH by lia. rewrite split_acc_cons by done. by rewrite (slice_snoc _ _ _ _ _ Hs Ed), Ed'.
Qed.

Lemma contains_many_one s : contains s star = false -> wildcard s = false.
Proof.
  intros H. unfold wildcard, bytes_eqb.
  rewrite !bool_decide_eq_false_2; [done | intros ->..]; discriminate H.
Qed.

Lemma contains_false_not_wild s : contains s star = false -> s <> one /\ s <> many.
Proof. intros H. split; intros ->; discriminate H. Qed.

Lemma scan_segment_ok s shape prev :
  s <> [] -> segment_ok s -> (s = many -> prev = false) ->
  exists shape', scan_segment s shape prev = Ok (shape', bytes_eqb s many) /\ shape_step s shape shape'.
Proof.
  intros Hne [_ Hs] Hp. unfold scan_segment, shape_step, wildcard, bytes_eqb.
  destruct (bool_decide_reflect (s = many)) as [->|Hm].
  - rewrite Hp by done. eexists. cbn. split; [done|]. cbn.
    split; [done|]. split; [done|]. destruct (first_wildcard shape); split; [done | tauto | done | by intros [_ ?]].
  - destruct (bool_decide_reflect (s = one)) as [->|Ho].
    + eexists. cbn. split; [done|]. cbn. split; [done|]. split; [lia|].
      destruct (first_wildcard shape); split; [done | tauto | done | by intros [_ ?]].
    + destruct Hs as [? | [? | Hs]]; [done..|]. cbn [orb]. rewrite Hs. eexists.
      split; [done|]. cbn. split; [done|]. split; [lia|]. tauto.
Qed.

Lemma scan_segment_inv s shape prev r :
  s <> [] -> scan_segment s shape prev = Ok r -> segment_ok s /\ (s = many -> prev = false).
Proof.
  unfold scan_segment, segment_ok, bytes_eqb. intros Hne.
  pose proof one_not_many. destruct (bool_decide_reflect (s = one)) as [->|Ho]; [tauto|].
  destruct (bool_decide_reflect (s = many)) as [->|Hm]; cbn [orb andb].
  - destruct prev; [done|]. tauto.
  - destruct (contains s star) eqn:E; [done|]. tauto.
Qed.

Lemma count_many_cons s segs :
  count_many (s :: segs) = (if bytes_eqb s many then 1 else 0) + count_many segs.
Proof.
  unfold count_many, bytes_eqb. rewrite filter_cons.
  case_bool_decide as H; destruct (decide _); try done. by rewrite blen_cons.
Qed.

Lemma scan_segments_ok segs : forall shape prev,
  Forall segment_ok segs -> no_adjacent_many prev segs ->
  exists shape', scan_segments segs shape prev = Ok shape'
    /\ segments shape' = segments shape + blen segs
    /\ double_wildcard_count shape' = double_wildcard_count shape + count_many segs
    /\ (first_wildcard shape' = None <->
        first_wildcard shape = None /\ Forall (fun s => wildcard s = false) segs).
Proof.
  induction segs as [|s segs IH]; intros shape prev Hs Ha; cbn [scan_segments].
  - exists shape. change (count_many []) with 0. rewrite blen_nil.
    split; [done|]. split; [lia|]. split; [lia|]. split; [by intros | by intros [? _]].
  - apply Forall_cons in Hs as [Hs Hs']. destruct Ha as [Ha Ha'].
    unfold bytes_eqb at 1. rewrite bool_decide_eq_false_2 by apply Hs.
    destruct (scan_segment_ok s shape prev) as (sh & -> & H1 & H2 & H3); [apply Hs | done..|].
    unfold mbind, result_mbind, result_bind.
    destruct (IH sh (bytes_eqb s many) Hs' Ha') as (sh' & -> & I1 & I2 & I3).
    exists sh'. rewrite count_many_cons, blen_cons, Forall_cons.
    split; [done|]. split; [lia|]. split; [lia|]. tauto.
Qed.

Lemma scan_segments_inv segs : forall shape prev shape',
  scan_segments segs shape prev = Ok shape' -> Forall segment_ok segs /\ no_adjacent_many prev segs.
Proof.
  induction segs as [|s segs IH]; intros shape prev shape'; cbn [scan_segments]; [by repeat constructor|].
  destruct (bytes_eqb_spec s []) as [|Hne]; [done|].
  intros H. apply result_bind_ok in H as ([sh d] & H1 & H2).
  pose proof (scan_segment_inv _ _ _ _ Hne H1) as [Hs Hp].
  destruct (scan_segment_ok s shape prev) as (sh' & H1' & _); [done..|].
  rewrite H1' in H1. injection H1 as <- <-. apply IH in H2 as [??].
  split; [by constructor | done].
Qed.

(** ** The scheme prefix *)

Lemma strip_prefix_some p l t : strip_prefix p l = Some t <-> l = p ++ t.
Proof.
  revert l. induction p as [|b p IH]; intros l; cbn [strip_prefix app].
  - split; [by intros [= ->] | by intros ->].
  - destruct l as [|c l]; [done|]. case_bool_decide as H.
    + subst c. rewrite IH. split; [by intros -> | by intros [= ->]].
    + split; [done|]. by intros [= -> ->].
Qed.

Lemma starts_with_app p l : starts_with p l = true <-> exists t, l = p ++ t.
Proof.
  unfold starts_with. destruct (strip_prefix p l) as [t|] eqn:E.
  - apply strip_prefix_some in E. split; [eauto | done].
  - split; [done|]. intros [t H]. apply strip_prefix_some in H. congruence.
Qed.

Lemma split_once_scheme scheme path :
  contains scheme Byte.x3a = false -> split_once sep (scheme ++ sep ++ path) = Some (scheme, path).
Proof.
  induction scheme as [|b s IH]; cbn [app]; intros H; [done|].
  cbn [contains existsb] in H. apply orb_false_elim in H as [Hb Hs]. cbn [split_once].
  destruct (strip_prefix sep _) as [t|] eqn:E.
  - apply strip_prefix_some in E. injection E as -> E. discriminate Hb.
  - by rewrite IH.
Qed.

Lemma scan_prefix route scheme :
  scheme <> [] -> blen route <= u16_max ->
  (exists path, path <> [] /\ route = scheme ++ sep ++ path)
  <-> ((blen scheme =? 0) || (blen route <=? blen scheme + 3) || negb (starts_with scheme route)
     || negb (bytes_eqb (slice (blen scheme) (blen scheme + 3) route) sep)) = false.
Proof.
  intros Hs Hl. rewrite !orb_false_iff, !negb_false_iff, starts_with_app.
  unfold bytes_eqb. rewrite bool_decide_eq_true, N.eqb_neq, N.leb_gt. split.
  - intros (path & Hp & ->). rewrite !blen_app. change (blen sep) with 3.
    assert (blen path <> 0) by (intros ?%blen_zero; done).
    assert (blen scheme <> 0) by (intros ?%blen_zero; done).
    split; [split; [split; [done | lia] | eauto]|].
    rewrite slice_app_r by lia. rewrite N.sub_diag. apply slice_app_l.
    change (blen sep) with 3. lia.
  - intros [[[_ Hlen] [t ->]] Hsep]. rewrite slice_app_r in Hsep by lia.
    rewrite N.sub_diag in Hsep. exists (drop 3 t). split.
    + intros E. apply (f_equal blen) in E. revert E Hlen. unfold blen. rewrite length_drop, length_app.
      cbn [length]. lia.
    + f_equal. rewrite <- (slice_take_drop 3 t) at 1. f_equal.
      replace (blen scheme + 3 - blen scheme) with 3 in Hsep by lia. done.
Qed.

(** ** What [scan] accepts *)

Lemma scan_equation scheme path :
  scheme <> [] -> path <> [] -> blen (scheme ++ sep ++ path) <= u16_max ->
  scan (scheme ++ sep ++ path) scheme = scan_segments (split slash path) empty_shape false.
Proof.
  intros Hs Hp Hl. unfold scan. destruct (N.ltb_spec u16_max (blen (scheme ++ sep ++ path))); [lia|].
  destruct (_ || _) eqn:E.
  - erewrite (proj1 (scan_prefix _ _ Hs Hl)) in E; [discriminate E|]. by exists path.
  - rewrite scan_loop_segments; [|lia | rewrite !blen_app; change (blen sep) with 3; lia | done].
    rewrite slice_nil. unfold split. do 2 f_equal. rewrite app_assoc. apply drop_app_length'.
    rewrite length_app. unfold blen. change (length sep) with 3%nat. lia.
Qed.

Lemma scan_inv route scheme shape :
  scan route scheme = Ok shape -> exists segs, well_formed route scheme segs.
Proof.
  intros H. pose proof H as H0. unfold scan in H0.
  destruct (N.ltb_spec u16_max (blen route)) as [|Hl]; [discriminate|].
  destruct (_ || _) eqn:E; [discriminate|]. clear H0.
  assert (Hs : scheme <> []) by (intros ->; discriminate E).
  apply scan_prefix in E as (path & Hp & ->); [|done..].
  rewrite scan_equation in H by done. apply scan_segments_inv in H as [H1 H2].
  exists (split slash path). split; [done|]. split; [done|]. split; [by exists path | done].
Qed.

Lemma scan_wf route scheme segs :
  well_formed route scheme segs ->
  exists shape, scan route scheme = Ok shape
    /\ segments shape = blen segs /\ double_wildcard_count shape = count_many segs
    /\ (first_wildcard shape = None <-> Forall (fun s => wildcard s = false) segs).
Proof.
  intros (Hs & Hl & (path & -> & ->) & Hok & Ha).
  assert (Hp : path <> []) by (intros ->; apply Forall_cons in Hok as [[? _] _]; done).
  rewrite scan_equation by done.
  destruct (scan_segments_ok _ empty_shape false Hok Ha) as (sh & -> & H1 & H2 & H3).
  exists sh. split; [done|]. rewrite H1, H2, H3. cbn. split; [lia|]. split; [lia|]. tauto.
Qed.

Lemma well_formed_unique route scheme s1 s2 :
  well_formed route scheme s1 -> well_formed route scheme s2 -> s1 = s2.
Proof.
  intros (_ & _ & (p1 & -> & ->) & _) (_ & _ & (p2 & H & ->) & _).
  apply app_inv_head, app_inv_head in H. by subst.
Qed.

(** ** Segment lists *)

Lemma path_segments_split l : forall cur,
  Forall (fun s => s <> []) (split_acc cur slash l) ->
  path_segments_acc cur l = split_acc cur slash l.
Proof.
  induction l as [|b l IH]; intros cur; cbn [split_acc path_segments_acc].
  - intros [H _]%Forall_cons. by destruct cur.
  - case_bool_decide.
    + intros [_ H']%Forall_cons. unfold path_segments. f_equal. by apply IH.
    + apply IH.
Qed.

Lemma split_no_slash l : forall cur,
  contains cur slash = false -> Forall (fun s => contains s slash = false) (split_acc cur slash l).
Proof.
  induction l as [|b l IH]; intros cur Hc; cbn [split_acc]; [by constructor|].
  case_bool_decide as Hb.
  - constructor; [done|]. by apply IH.
  - apply IH. unfold contains in *. rewrite existsb_app, Hc. cbn.
    by rewrite bool_decide_eq_false_2.
Qed.

Lemma size_split l : forall cur, size (split_acc cur slash l) = blen cur + blen l + 1.
Proof.
  induction l as [|b l IH]; intros cur; cbn [split_acc size fold_right].
  - change (blen (@nil byte)) with 0. lia.
  - rewrite blen_cons. case_bool_decide.
    + cbn [size fold_right]. fold (size (split_acc [] slash l)). rewrite IH, blen_nil. lia.
    + fold (size (split_acc (cur ++ [b]) slash l)). rewrite IH, blen_app, blen_cons, blen_nil. lia.
Qed.

Lemma split_acc_app s : forall cur l,
  contains s slash = false -> split_acc cur slash (s ++ l) = split_acc (cur ++ s) slash l.
Proof.
  induction s as [|b s IH]; intros cur l H; cbn [app]; [by rewrite app_nil_r|].
  cbn [contains existsb] in H. apply orb_false_elim in H as [Hb Hs].
  apply bool_decide_eq_false in Hb. rewrite split_acc_cons by done.
  rewrite IH by done. by rewrite <- app_assoc.
Qed.

Lemma split_join segs :
  segs <> [] -> Forall (fun s => contains s slash = false) segs -> split slash (join segs) = segs.
Proof.
  intros Hne H. unfold split. induction H as [|s segs Hs Hf IH]; [done|].
  destruct segs as [|s' segs].
  - cbn [join]. pose proof (split_acc_app s [] [] Hs) as E. by rewrite app_nil_r in E.
  - change (join (s :: s' :: segs)) with (s ++ slash :: join (s' :: segs)).
    rewrite split_acc_app by done. cbn [app split_acc]. rewrite bool_decide_eq_true_2 by done.
    by rewrite IH.
Qed.

Lemma blen_join segs : segs <> [] -> blen (join segs) + 1 = size segs.
Proof.
  intros Hne. induction segs as [|s segs IH]; [done|]. destruct segs as [|s' segs].
  - cbn. lia.
  - change (join (s :: s' :: segs)) with (s ++ slash :: join (s' :: segs)). rewrite blen_app, blen_cons. cbn [size fold_right]. cbn [size fold_right] in IH.
    specialize (IH ltac:(done)). lia.
Qed.

(** ** Depths a pattern matches *)

Lemma glob_depth rs ps :
  glob rs ps -> blen ps <= blen rs + count_many ps /\ (count_many ps = 0 -> blen ps = blen rs).
Proof.
  induction 1 as [|r p rs ps Hp _ [IH1 IH2]|rs ps _ [IH1 IH2]|r rs ps _ [IH1 IH2]];
    rewrite ?count_many_cons, ?blen_cons in *; unfold bytes_eqb in *; repeat case_bool_decide;
    split; intros; try done; try lia.
  all: try (rewrite IH2; lia).
Qed.

Lemma glob_repeat_many k rs ps : glob rs ps -> glob (repeat (str "a") k ++ rs) (many :: ps).
Proof. intros H. induction k; cbn; [by apply glob_many_skip | by apply glob_many_eat]. Qed.

Lemma size_repeat k rs : size (repeat (str "a") k ++ rs) = 2 * N.of_nat k + size rs.
Proof.
  induction k as [|k IH]; [done|]. cbn [repeat app size fold_right].
  fold (size (repeat (str "a") k ++ rs)). rewrite IH. change (blen (str "a")) with 1. lia.
Qed.

Lemma glob_instance ps : forall k,
  Forall segment_ok ps -> Forall (fun s => contains s slash = false) ps ->
  (count_many ps = 0 -> k = 0%nat) ->
  exists rs, glob rs ps /\ blen rs + count_many ps = blen ps + N.of_nat k
    /\ Forall plain rs /\ Forall (fun s => contains s slash = false) rs
    /\ size rs <= size ps + 2 * N.of_nat k.
Proof.
  induction ps as [|p ps IH]; intros k Hok Hns Hk.
  - rewrite Hk by done. exists []. split; [constructor | done].
  - apply Forall_cons in Hok as [[Hne Hp] Hok], Hns as [Hp' Hns]. rewrite count_many_cons in *.
    cbn [size fold_right]. fold (size ps). destruct (bytes_eqb_spec p many) as [->|Hm].
    + destruct (IH 0%nat Hok Hns) as (rs & Hg & Hl & Hpl & Hrs & Hsz); [done|].
      exists (repeat (str "a") k ++ rs). split; [by apply glob_repeat_many|].
      rewrite size_repeat, blen_app, blen_cons, !Forall_app. change (blen many) with 2.
      assert (blen (repeat (str "a") k) = N.of_nat k) as -> by (unfold blen; by rewrite repeat_length).
      split; [lia|]. repeat split; try done; [..|lia]; apply Forall_forall;
        intros x Hx%list_elem_of_In%repeat_spec; by subst x.
    + destruct (IH k Hok Hns) as (rs & Hg & Hl & Hpl & Hrs & Hsz); [lia|].
      destruct (bytes_eqb_spec p one) as [->|Ho].
      * exists (str "a" :: rs). split; [by apply glob_one; [left|]|]. rewrite !blen_cons.
        cbn [size fold_right]. fold (size rs). change (blen (str "a")) with 1.
        change (blen one) with 1. split; [lia|]. split; [by repeat constructor|].
        split; [by repeat constructor|]. lia.
      * destruct Hp as [? | [? | Hp]]; [done..|].
        exists (p :: rs). split; [by apply glob_one; [right|]|]. rewrite !blen_cons.
        cbn [size fold_right]. fold (size rs). split; [lia|].
        split; [by repeat constructor|]. split; [by constructor|]. lia.
Qed.

Lemma plain_ok s : plain s -> segment_ok s /\ wildcard s = false /\ s <> many.
Proof.
  intros [H1 H2]. pose proof (contains_false_not_wild _ H2) as [??].
  split; [unfold segment_ok; tauto|]. split; [by apply contains_many_one | done].
Qed.

Lemma segment_ok_plain s : segment_ok s -> wildcard s = false -> plain s.
Proof.
  intros [H1 H2]. unfold wildcard. intros [Ho Hm]%orb_false_iff.
  destruct (bytes_eqb_spec s one), (bytes_eqb_spec s many); try done. unfold plain. tauto.
Qed.

Lemma plain_no_adjacent segs : forall prev, Forall plain segs -> no_adjacent_many prev segs.
Proof.
  induction segs as [|s segs IH]; intros prev; [done|]. intros [Hs H]%Forall_cons.
  apply plain_ok in Hs as (_ & _ & Hs). split; [done|]. by apply IH.
Qed.

Lemma plain_not_many segs : Forall plain segs -> many ∉ segs.
Proof. intros H Hm. apply (proj1 (Forall_forall _ _) H), plain_ok in Hm as (_ & _ & Hm). done. Qed.

Lemma validate_fixed_spec route scheme n :
  validate_fixed_route route scheme n = Ok tt <->
  exists segs, well_formed route scheme segs /\ blen segs = n /\ Forall plain segs.
Proof.
  unfold validate_fixed_route. split.
  - intros H. apply result_bind_ok in H as (sh & Hsc & H).
    destruct (scan_inv _ _ _ Hsc) as [segs Hwf].
    destruct (scan_wf _ _ _ Hwf) as (sh' & Hsc' & Hseg & _ & Hfw).
    rewrite Hsc in Hsc'. injection Hsc' as <-. exists segs. split; [done|].
    destruct (_ || _) eqn:E; [discriminate|]. apply orb_false_elim in E as [E1 E2].
    apply negb_false_iff, N.eqb_eq in E1. split; [lia|].
    destruct (first_wildcard sh); [discriminate|].
    pose proof (proj1 Hfw eq_refl) as Hw. destruct Hwf as (_ & _ & _ & Hok & _).
    apply Forall_forall. intros s Hs. rewrite !Forall_forall in *. apply segment_ok_plain; auto.
  - intros (segs & Hwf & Hn & Hpl). destruct (scan_wf _ _ _ Hwf) as (sh & -> & Hseg & _ & Hfw).
    cbn. rewrite Hseg, Hn, N.eqb_refl.
    rewrite (proj2 Hfw); [done|]. eapply Forall_impl; [exact Hpl|]. intros s Hs. by apply plain_ok.
Qed.

Lemma well_formed_matches route pattern scheme rs ps :
  contains scheme Byte.x3a = false ->
  well_formed route scheme rs -> well_formed pattern scheme ps -> many ∉ rs ->
  (route_matches_pattern route pattern = true <-> glob rs ps).
Proof.
  intros Hs (_ & _ & (rp & -> & ->) & Hr & _) (_ & _ & (pp & -> & ->) & Hp & _) Hm.
  assert (Hne : forall q, Forall segment_ok (split slash q) -> bytes_eqb q [] = false
      /\ path_segments q = split slash q).
  { intros q Hq. split.
    - destruct (bytes_eqb_spec q []) as [->|]; [|done]. by apply Forall_cons in Hq as [[? _] _].
    - apply path_segments_split. eapply Forall_impl; [exact Hq|]. by intros s [? _]. }
  destruct (Hne _ Hr) as [Hr1 Hr2], (Hne _ Hp) as [Hp1 Hp2].
  unfold route_matches_pattern. rewrite !split_once_scheme, bytes_eqb_refl, Hr1, Hp1 by done.
  cbn [negb orb]. destruct (match_loop_spec rp pp) as (b & -> & Hb); [by rewrite Hr2|].
  by rewrite <- Hr2, <- Hp2.
Qed.

(** ** Properties *)

(** C16: the backtracking matcher returns, on every route and every pattern: its
    loop needs no more than [match_fuel] rounds, so its answer is never the one
    that stands for having run out.  And it decides the glob relation on every
    route none of whose segments is [**], which no concrete route has: same
    scheme, neither path empty, and the route's segments globbed by the
    pattern's. *)
Theorem route_matches_pattern_glob route pattern rscheme rpath pscheme ppath :
  split_once sep route = Some (rscheme, rpath) ->
  split_once sep pattern = Some (pscheme, ppath) ->
  (forall fuel, (match_fuel rpath ppath <= fuel)%nat -> exists b, match_loop fuel rpath ppath 0 0 None 0 = Some b)
  /\ (rscheme = pscheme -> rpath <> [] -> ppath <> [] ->
      match_loop (match_fuel rpath ppath) rpath ppath 0 0 None 0 = Some (route_matches_pattern route pattern))
  /\ (many ∉ path_segments rpath ->
      route_matches_pattern route pattern = true <->
      rscheme = pscheme /\ rpath <> [] /\ ppath <> []
      /\ glob (path_segments rpath) (path_segments ppath)).
Proof.
  intros Hr Hp. split; [intros fuel; apply match_loop_returns|]. unfold route_matches_pattern. rewrite Hr, Hp.
  destruct (bytes_eqb_spec rscheme pscheme) as [|]; cbn [negb]; [|split; [done | intros _; split; [done | tauto]]].
  destruct (bytes_eqb_spec rpath []), (bytes_eqb_spec ppath []); cbn [orb];
    try (split; [done | intros _; split; [done | tauto]]).
  split.
  - intros _ _ _. by destruct (match_loop_returns rpath ppath (match_fuel rpath ppath)) as [b ->].
  - intros Hm. destruct (match_loop_spec rpath ppath Hm) as (b & -> & ->). tauto.
Qed.

(** A route that has a segment [**] is taken literally by a pattern's [**]. *)
Example double_wildcard_route : route_matches_pattern (str "kv://**/x") (str "kv://**") = false.
Proof. reflexivity. Qed.

Lemma route_matches_pattern_glob_witness :
  let route := str "kv://a/b/c/d/e" in
  let pattern := str "kv://**/b/*/**/e" in
  match_loop (match_fuel (str "a/b/c/d/e") (str "**/b/*/**/e")) (str "a/b/c/d/e") (str "**/b/*/**/e") 0 0 None 0 = Some true
  /\ glob (path_segments (str "a/b/c/d/e")) (path_segments (str "**/b/*/**/e")).
Proof.
  destruct (route_matches_pattern_glob (str "kv://a/b/c/d/e") (str "kv://**/b/*/**/e") (str "kv") (str "a/b/c/d/e")
    (str "kv") (str "**/b/*/**/e") eq_refl eq_refl) as (_ & Hloop & Hglob).
  split.
  - rewrite Hloop; [reflexivity | reflexivity | discriminate | discriminate].
  - apply Hglob; [|reflexivity].
    vm_compute. intros H. repeat (apply elem_of_cons in H as [H|H]; [discriminate H|]). by apply elem_of_nil in H.
Defined.

(** C27: a pattern that [scan] accepts passes [validate_registration_pattern] at
    depth [n] exactly when some concrete route of that depth (one
    [validate_fixed_route] accepts) matches it, so no accepted registration is
    dead and no useful one is refused. *)
Theorem registration_pattern_spec pattern scheme n shape :
  contains scheme Byte.x3a = false -> scan pattern scheme = Ok shape -> 0 < n ->
  blen pattern + 2 * n <= u16_max ->
  validate_registration_pattern pattern scheme n = Ok tt <->
  exists route, validate_fixed_route route scheme n = Ok tt
    /\ route_matches_pattern route pattern = true.
Proof.
  intros Hs Hsc Hn Hl. destruct (scan_inv _ _ _ Hsc) as [ps Hwf].
  destruct (scan_wf _ _ _ Hwf) as (sh & Hsc' & Hseg & Hcnt & _).
  rewrite Hsc in Hsc'. injection Hsc' as <-.
  unfold validate_registration_pattern. rewrite Hsc. cbn [mbind result_mbind result_bind].
  destruct (N.eqb_spec n 0) as [|_]; [lia|]. rewrite Hseg, Hcnt. split.
  - intros H.
    assert (Hk : exists k, (count_many ps = 0 -> k = 0%nat)
              /\ n + count_many ps = blen ps + N.of_nat k /\ N.of_nat k <= n).
    { destruct (N.eqb_spec (count_many ps) 0).
      - destruct (N.eqb_spec (blen ps) n); [|discriminate]. exists 0%nat. lia.
      - destruct (N.leb_spec (blen ps - count_many ps) n); [|discriminate].
        exists (N.to_nat (n + count_many ps - blen ps)).
        assert (count_many ps <= blen ps); [|lia].
        unfold count_many, blen. pose proof (length_filter (fun s => s = many) ps). lia. }
    destruct Hk as (k & Hk0 & Hk1 & Hk2). pose proof Hwf as (Hne & Hlp & (pp & -> & ->) & Hok & _).
    destruct (glob_instance _ k Hok) as (rs & Hg & Hln & Hpl & Hns & Hsz);
      [by apply split_no_slash | done |].
    assert (Hrs : rs <> []) by (intros ->; rewrite blen_nil in Hln; lia).
    assert (Hr : well_formed (scheme ++ sep ++ join rs) scheme rs).
    { pose proof (blen_join rs Hrs). unfold split in Hsz. rewrite size_split, blen_nil in Hsz.
      rewrite !blen_app in *.
      split; [done|]. split; [rewrite !blen_app; lia|]. split; [|split].
      - exists (join rs). split; [done|]. by rewrite split_join.
      - eapply Forall_impl; [exact Hpl|]. intros s Hp. by apply plain_ok.
      - by apply plain_no_adjacent. }
    exists (scheme ++ sep ++ join rs). split.
    + apply validate_fixed_spec. exists rs. split; [done|]. split; [lia | done].
    + eapply well_formed_matches; eauto using plain_not_many.
  - intros (route & Hr & Hmt). apply validate_fixed_spec in Hr as (rs & Hwr & Hln & Hpl).
    eapply well_formed_matches in Hmt; [|eauto using plain_not_many..].
    apply glob_depth in Hmt as [Hd1 Hd2].
    destruct (N.eqb_spec (count_many ps) 0).
    + destruct (N.eqb_spec (blen ps) n); [done | lia].
    + destruct (N.leb_spec (blen ps - count_many ps) n); [done | lia].
Qed.

Lemma registration_pattern_spec_witness :
  validate_registration_pattern (str "kv://a/**/b/*") (str "kv") 6 = Ok tt
  /\ exists route, validate_fixed_route route (str "kv") 6 = Ok tt
       /\ route_matches_pattern route (str "kv://a/**/b/*") = true.
Proof.
  split; [reflexivity|].
  apply (registration_pattern_spec (str "kv://a/**/b/*") (str "kv") 6
    {| segments := 4; first_wildcard := Some 1; double_wildcard := true;
       double_wildcard_count := 1; wildcard_suffix := false |});
    reflexivity || (intros H; discriminate H).
Defined.
