(* ===== verification/Responses.v ===== *)
(** * Responses

    [src/src/client_domains/mod.rs]: the common domain error envelope and the
    bare status response, which every domain client decodes. *)

From S2P Require Import Prelude Errors Codec.

Definition decode_domain_error : Dec FitzError :=
  code <- get_u16;;
  class <- get_u8;;
  effect <- get_u8;;
  message <- get_string;;
  fin <- at_end;;
  if (10 <? class) || (2 <? effect) || negb fin
  then dec_fail (Protocol (str "invalid common domain error envelope"))
  else mret (DomainWire code class effect message).

(** [1 => Err(decode_domain_error(&mut decoder)?)]. *)
Definition fail_domain_error {A : Type} : Dec A := e <- decode_domain_error;; dec_fail e.

Definition decode_ok (response : bytes) : Result unit :=
  run_dec
    (status <- get_u8;;
     if status =? 0 then mret tt
     else if status =? 1 then fail_domain_error
     else dec_fail (Protocol (str "unknown response status " ++ dec status)))
    response.

(** ** The envelope *)

Definition error_envelope (code class effect : N) (message : bytes) : bytes :=
  be_bytes 2 code ++ be_bytes 1 class ++ be_bytes 1 effect ++ be_bytes 4 (blen message) ++ message.

Definition envelope_ok (code class effect : N) (message : bytes) : Prop :=
  code < 2 ^ 16 /\ class <= 10 /\ effect <= 2 /\ utf8_valid message = true /\ blen message <= u32_max.

Definition enc_error_fields (f : N * N * N * bytes) (l : bytes) : Prop :=
  let '(code, class, effect, message) := f in
  code < 2 ^ 16 /\ class < 2 ^ 8 /\ effect < 2 ^ 8 /\ utf8_valid message = true
  /\ blen message <= u32_max /\ l = error_envelope code class effect message.

(** The four fields, before the checks. *)
Definition error_fields : Dec (N * N * N * bytes) :=
  code <- get_u16;; class <- get_u8;; effect <- get_u8;; message <- get_string;;
  mret (code, class, effect, message).

#[export] Instance exact_error_fields : Exact error_fields enc_error_fields.
Proof.
  unfold error_fields. eapply exact_iff; [exact_step|]. intros [[[code class] effect] message] l.
  unfold enc_error_fields, error_envelope. split.
  - intros (? & ? & ? & ? & ? & ->).
    exists code, (be_bytes 2 code). eexists. split; [reflexivity|]. split; [done|].
    exists class, (be_bytes 1 class). eexists. split; [reflexivity|]. split; [done|].
    exists effect, (be_bytes 1 effect). eexists. split; [reflexivity|]. split; [done|].
    by exists message.
  - intros (? & ? & ? & -> & [? ->] & ? & ? & ? & -> & [? ->] & ? & ? & ? & -> & [? ->]
      & ? & [= -> -> -> ->] & [? [? ->]]). done.
Qed.

(** Running [decode_domain_error] on the rest of a buffer. *)
Lemma decode_domain_error_spec d e d' :
  dec_wf d ->
  decode_domain_error d = Ok (e, d') <->
  exists code class effect message,
    envelope_ok code class effect message /\ rest d = error_envelope code class effect message
    /\ e = DomainWire code class effect message /\ d' = advance (blen (rest d)) d.
Proof.
  intros Hwf.
  assert (Hshape : decode_domain_error d =
    match error_fields d with
    | Ok ((code, class, effect, message), d1) =>
        if (10 <? class) || (2 <? effect) || negb (is_empty d1)
        then Err (Protocol (str "invalid common domain error envelope"))
        else Ok (DomainWire code class effect message, d1)
    | Err e => Err e
    end).
  { unfold decode_domain_error, error_fields, at_end, mbind, Dec_mbind, mret, Dec_mret.
    repeat match goal with
    | |- match ?x with Ok _ => _ | Err _ => _ end = _ => destruct x as [[? ?]|]; [|done]
    end. by destruct (_ || _). }
  rewrite Hshape. clear Hshape. split.
  - destruct (error_fields d) as [[f d1]|] eqn:E; [|discriminate].
    destruct (exact_sound _ _ _ Hwf E) as (l & Hl & Hr & -> & Hwf1).
    destruct f as [[[code class] effect] message]. destruct Hl as (H1 & H2 & H3 & H4 & H5 & ->).
    destruct (_ || _) eqn:Eb; [discriminate|]. intros [= <- <-].
    apply orb_false_iff in Eb as [[Hc He]%orb_false_iff Hn].
    rewrite is_empty_rest in Hn by done. apply negb_false_iff, bool_decide_eq_true in Hn.
    rewrite Hn, app_nil_r in Hr. exists code, class, effect, message. rewrite Hr.
    bool_to_prop. done.
  - intros (code & class & effect & message & (H1 & H2 & H3 & H4 & H5) & Hr & -> & ->).
    set (l := error_envelope code class effect message) in *.
    pose proof (exact_reads (code, class, effect, message) l) as He.
    assert (Hl : enc_error_fields (code, class, effect, message) l).
    { change (2 ^ 16) with 65536 in *. repeat split; try done; change (2 ^ 8) with 256; lia. }
    rewrite <- (app_nil_r l) in Hr. pose proof (He Hl d [] Hwf Hr) as ->.
    pose proof (rest_advance _ _ _ Hr) as Hr'. pose proof (wf_advance _ _ _ Hwf Hr) as Hwf'.
    rewrite is_empty_rest, Hr' by done. rewrite bool_decide_eq_true_2 by done.
    destruct (N.ltb_spec 10 class); [lia|]. destruct (N.ltb_spec 2 effect); [lia|].
    cbn. by rewrite Hr, app_nil_r.
Qed.

Lemma get_u8_cases d : dec_wf d ->
  match rest d with
  | [] => get_u8 d = Err not_enough
  | b :: tail => get_u8 d = Ok (Byte.to_N b, advance 1 d) /\ rest (advance 1 d) = tail
                 /\ dec_wf (advance 1 d)
  end.
Proof.
  intros Hwf. destruct (rest d) as [|b tail] eqn:E.
  - unfold get_u8, mbind, Dec_mbind. rewrite get_slice_spec, E by done. done.
  - assert (Hr : rest d = [b] ++ tail) by done.
    pose proof (rest_advance _ _ _ Hr). pose proof (wf_advance _ _ _ Hwf Hr).
    split; [|done]. unfold get_u8, mbind, Dec_mbind. rewrite get_slice_spec, E by done.
    rewrite blen_cons. destruct (N.leb_spec 1 (1 + blen tail)); [|lia]. done.
Qed.

(** Readers fail with codec and protocol errors: none reports a broker error
    as if it were its own. *)
Definition ProtocolErrors {A : Type} (g : Dec A) : Prop :=
  forall d e, g d = Err e -> kind e = KProtocol.

Lemma perr_ret {A} (a : A) : ProtocolErrors (mret a).
Proof. by intros d e. Qed.
Lemma perr_fail {A} e : kind e = KProtocol -> ProtocolErrors (A := A) (dec_fail e).
Proof. by intros H d e' [= <-]. Qed.
Lemma perr_at_end : ProtocolErrors at_end.
Proof. by intros d e. Qed.
Lemma perr_bind {A B} (g : Dec A) (k : A -> Dec B) :
  ProtocolErrors g -> (forall a, ProtocolErrors (k a)) -> ProtocolErrors (mbind k g).
Proof.
  intros H1 H2 d e. unfold mbind, Dec_mbind. destruct (g d) as [[a d']|e'] eqn:E.
  - apply H2.
  - intros [= <-]. by eapply H1.
Qed.
Lemma perr_slice n : ProtocolErrors (get_slice n).
Proof. intros d e. unfold get_slice, check_len. by destruct (_ <? _); [intros [= <-]|]. Qed.

#[export] Hint Resolve perr_ret perr_fail perr_at_end perr_bind perr_slice : fitz.

Lemma perr_u8 : ProtocolErrors get_u8. Proof. apply perr_bind; eauto with fitz. Qed.
Lemma perr_u16 : ProtocolErrors get_u16. Proof. apply perr_bind; eauto with fitz. Qed.
Lemma perr_u32 : ProtocolErrors get_u32. Proof. apply perr_bind; eauto with fitz. Qed.
Lemma perr_u64 : ProtocolErrors get_u64. Proof. apply perr_bind; eauto with fitz. Qed.
Lemma perr_bytes : ProtocolErrors get_bytes.
Proof. apply perr_bind; [apply perr_u32|]. eauto with fitz. Qed.
Lemma perr_string : ProtocolErrors get_string.
Proof.
  apply perr_bind; [apply perr_bytes|]. intros l. destruct (utf8_valid l); eauto with fitz.
Qed.

#[export] Hint Resolve perr_u8 perr_u16 perr_u32 perr_u64 perr_bytes perr_string : fitz.

Lemma perr_domain_error : ProtocolErrors decode_domain_error.
Proof.
  unfold decode_domain_error. repeat (apply perr_bind; [by auto with fitz | intros ?]).
  destruct (_ || _); auto with fitz.
Qed.

Lemma fail_domain_error_spec {A} d code class effect message :
  dec_wf d ->
  fail_domain_error (A := A) d = Err (DomainWire code class effect message) <->
  envelope_ok code class effect message /\ rest d = error_envelope code class effect message.
Proof.
  intros Hwf. unfold fail_domain_error, mbind, Dec_mbind, dec_fail. split.
  - destruct (decode_domain_error d) as [[e d']|e] eqn:E.
    + intros [= ->]. apply decode_domain_error_spec in E as (? & ? & ? & ? & ? & ? & [= <- <- <- <-] & _); done.
    + intros [= ->]. by apply perr_domain_error in E.
  - intros [H1 H2].
    rewrite (proj2 (decode_domain_error_spec d (DomainWire code class effect message)
      (advance (blen (rest d)) d) Hwf)) by eauto 10. done.
Qed.

Lemma perr_run {A} (g : Dec A) buf e : ProtocolErrors g -> run_dec g buf = Err e -> kind e = KProtocol.
Proof.
  intros H. unfold run_dec. destruct (g _) as [[a d]|] eqn:E; [done|]. intros [= ->]. by apply H in E.
Qed.

(** It never returns: an error response has no value. *)
Lemma exact_fail_domain_error {A} : Exact (fail_domain_error (A := A)) (fun _ _ => False).
Proof.
  split; [|done]. intros d a d' _. unfold fail_domain_error, mbind, Dec_mbind, dec_fail.
  by destruct (decode_domain_error d) as [[? ?]|].
Qed.
#[export] Hint Resolve exact_fail_domain_error : fitz.

(** A bare status response reports a broker error exactly when it is the
    error tag followed by a well-formed common envelope that fills the buffer,
    and it reports that envelope's code, class, effect and message: no broker
    error is invented, altered or lost. *)
Theorem decode_ok_domain_error response code class effect message :
  decode_ok response = Err (DomainWire code class effect message) <->
  envelope_ok code class effect message
  /\ response = Byte.x01 :: error_envelope code class effect message.
Proof.
  pose proof (get_u8_cases _ (new_wf response)) as H. rewrite new_rest in H.
  unfold decode_ok, run_dec, mbind at 1, Dec_mbind at 1.
  destruct response as [|b tail]; [rewrite H; split; [done | by intros [_ ?]]|].
  destruct H as (-> & Hr & Hwf). destruct (N.eqb_spec (Byte.to_N b) 0) as [H0|_].
  - split; [done|]. intros [_ [= ->]]. done.
  - destruct (N.eqb_spec (Byte.to_N b) 1) as [H1|H1].
    + apply (byte_to_N_inj b Byte.x01) in H1 as ->.
      pose proof (fail_domain_error_spec (A := unit) _ code class effect message Hwf) as Hs.
      rewrite Hr in Hs.
      destruct (fail_domain_error _) as [[[] ?]|e].
      * split; [done|]. intros [Ho [= ->]]. discriminate (proj2 Hs (conj Ho eq_refl)).
      * transitivity (envelope_ok code class effect message /\ tail = error_envelope code class effect message);
          [rewrite <- Hs; split; congruence|].
        split; intros [? ?]; split; congruence.
    + split; [done|]. intros [_ [= ->]]. done.
Qed.
