(* ===== verification/StreamCodec.v ===== *)
(** * StreamCodec

    [src/src/domains/stream.rs]: Stream filters, the status response of each
    Stream operation, and the decoders of records, read pages, metadata and
    commit notifications. *)

From S2P Require Import Prelude Errors Codec Routes.

Inductive StreamCommitMode : Set := Buffered | Sync.
Definition commit_mode_byte (mode : StreamCommitMode) : N :=
  match mode with Buffered => 0 | Sync => 1 end.

(** ** Filters *)

Inductive StreamFilterClause : Set :=
| Equals (value : bytes)
| NotEquals (value : bytes)
| StartsWith (prefix : bytes)
| AnyOf (values : list bytes).

Definition clause_matches (clause : StreamFilterClause) (discriminator : bytes) : bool :=
  match clause with
  | Equals value => bytes_eqb discriminator value
  | NotEquals value => negb (bytes_eqb discriminator value)
  | StartsWith prefix => starts_with prefix discriminator
  | AnyOf values => existsb (fun value => bytes_eqb value discriminator) values
  end.

(** [StreamFilterSet.clauses]. *)
Definition StreamFilterSet : Set := list StreamFilterClause.

Definition filter_set_is_empty (filter : StreamFilterSet) : bool :=
  match filter with [] => true | _ => false end.

Definition filter_set_matches (filter : StreamFilterSet) (discriminator : option bytes) : bool :=
  let discriminator := default [] discriminator in
  forallb (fun clause => clause_matches clause discriminator) filter.

Definition put_clause (clause : StreamFilterClause) (e : PayloadEncoder) : Result PayloadEncoder :=
  match clause with
  | Equals value => Ok (e .> put_u8 0 .> put_string value)
  | NotEquals value => Ok (e .> put_u8 1 .> put_string value)
  | StartsWith value => Ok (e .> put_u8 2 .> put_string value)
  | AnyOf values =>
      if u32_max <? blen values then Err (Protocol (str "too many AnyOf values"))
      else Ok (fold_left (fun e value => e .> put_string value) values
                 (e .> put_u8 3 .> put_u32 (blen values)))
  end.

Fixpoint put_clauses (clauses : list StreamFilterClause) (e : PayloadEncoder) : Result PayloadEncoder :=
  match clauses with
  | [] => Ok e
  | clause :: clauses' => e' <- put_clause clause e;; put_clauses clauses' e'
  end.

Definition encode_stream_filter_set (filter : StreamFilterSet) : Result bytes :=
  let enc := PayloadEncoder_new .> put_u8 0 .> put_u8 241 in
  if u32_max <? blen filter then Err (Protocol (str "too many stream filter clauses"))
  else
    enc <- put_clauses filter (enc .> put_u32 (blen filter));;
    Ok (finish enc).

(** ** Records, items, cursors *)

Record StreamRecord : Set := {
  route : bytes;
  offset : N;
  body : bytes;
  area_offset : option N;
  realm_offset : option N;
  global_offset : option N;
  metadata : option bytes;
  timestamp : N;
}.

Inductive StreamFilteredReason : Set := ServerFilter | Permission | Projection.

Inductive StreamReadItem : Set :=
| Event (record : StreamRecord)
| Filtered (route : bytes) (offset : N) (reason : option StreamFilteredReason)
| FilteredRange (route : bytes) (from_offset to_offset : N) (reason : option StreamFilteredReason).

Record StreamReadCursor : Set := {
  last_resource_offset : N;
  last_area_offset : option N;
  last_realm_offset : option N;
  last_global_offset : option N;
  cursor_fingerprint : option N;
  captured_watermark : option N;
  has_more : bool;
}.

Record StreamReadPage : Set := { items : list StreamReadItem; cursor : StreamReadCursor }.

Record StreamMetadata : Set := {
  first_offset : N;
  last_offset : N;
  record_count : N;
  max_batch_events : N;
  max_batch_bytes : N;
  ttl_seconds : option N;
  area_watermark : N;
  realm_watermark : N;
}.

Record StreamCommitNotification : Set := {
  notify_route : bytes;
  event : bytes;
  first_resource_offset : N;
  notify_last_resource_offset : N;
  first_area_offset : N;
  notify_last_area_offset : N;
  first_realm_offset : N;
  notify_last_realm_offset : N;
  batch_size : N;
  notify_payload : bytes;
}.

(** ** Field decoders *)

Definition bad_tag {A : Type} (what : bytes) (other : N) : Dec A :=
  dec_fail (Protocol (what ++ str ": " ++ dec other)).

Definition decode_optional_u64 : Dec (option N) :=
  tag <- get_u8;;
  if tag =? 0 then mret None
  else if tag =? 1 then value <- get_u64;; mret (Some value)
  else bad_tag (str "invalid optional u64 flag") tag.

Definition decode_optional_bytes : Dec (option bytes) :=
  tag <- get_u8;;
  if tag =? 0 then mret None
  else if tag =? 1 then value <- get_bytes;; mret (Some value)
  else bad_tag (str "invalid optional bytes flag") tag.

Definition decode_bool_u8 (field : bytes) : Dec bool :=
  tag <- get_u8;;
  if tag =? 0 then mret false
  else if tag =? 1 then mret true
  else bad_tag (str "invalid boolean flag for " ++ field) tag.

Definition decode_stream_filtered_reason : Dec (option StreamFilteredReason) :=
  tag <- get_u8;;
  if tag =? 0 then mret None
  else if tag =? 1 then mret (Some ServerFilter)
  else if tag =? 2 then mret (Some Permission)
  else if tag =? 3 then mret (Some Projection)
  else bad_tag (str "invalid stream filtered reason tag") tag.

(** [if global { decode_optional_u64(dec)? } else { None }]. *)
Definition decode_global_u64 (global : bool) : Dec (option N) :=
  if global then decode_optional_u64 else mret None.

Definition decode_stream_record (route : bytes) (global : bool) : Dec StreamRecord :=
  offset <- get_u64;;
  area_offset <- decode_optional_u64;;
  realm_offset <- decode_optional_u64;;
  global_offset <- decode_global_u64 global;;
  body <- get_bytes;;
  metadata <- decode_optional_bytes;;
  timestamp <- get_u64;;
  mret {| route := route; offset := offset; body := body; area_offset := area_offset;
          realm_offset := realm_offset; global_offset := global_offset; metadata := metadata;
          timestamp := timestamp |}.

Definition decode_stream_read_item (route : bytes) (global : bool) : Dec StreamReadItem :=
  tag <- get_u8;;
  if tag =? 0 then record <- decode_stream_record route global;; mret (Event record)
  else if tag =? 1 then
    offset <- get_u64;;
    reason <- decode_stream_filtered_reason;;
    mret (Filtered route offset reason)
  else if tag =? 2 then
    from_offset <- get_u64;;
    to_offset <- get_u64;;
    reason <- decode_stream_filtered_reason;;
    mret (FilteredRange route from_offset to_offset reason)
  else bad_tag (str "unknown stream read item tag") tag.

Definition decode_routed_item (global : bool) : Dec StreamReadItem :=
  route <- get_string;;
  lift_result (validate_response_fixed_route route (str "stream") 3 (str "READ"));;
  decode_stream_read_item route global.

Definition decode_stream_cursor (global : bool) : Dec StreamReadCursor :=
  last_resource_offset <- get_u64;;
  last_area_offset <- decode_optional_u64;;
  last_realm_offset <- decode_optional_u64;;
  last_global_offset <- decode_global_u64 global;;
  has_more <- decode_bool_u8 (str "stream read cursor has_more");;
  cursor_fingerprint <- decode_global_u64 global;;
  captured_watermark <- decode_global_u64 global;;
  mret {| last_resource_offset := last_resource_offset; last_area_offset := last_area_offset;
          last_realm_offset := last_realm_offset; last_global_offset := last_global_offset;
          cursor_fingerprint := cursor_fingerprint; captured_watermark := captured_watermark;
          has_more := has_more |}.

Definition decode_stream_page (global : bool) : Dec StreamReadPage :=
  count <- get_u32;;
  items <- get_list (N.to_nat count) (decode_routed_item global);;
  cursor <- decode_stream_cursor global;;
  mret {| items := items; cursor := cursor |}.

Definition empty_cursor : StreamReadCursor :=
  {| last_resource_offset := 0; last_area_offset := None; last_realm_offset := None;
     last_global_offset := None; cursor_fingerprint := None; captured_watermark := None;
     has_more := false |}.

Definition scope_is_global (scope : StreamSelectorScope) : bool :=
  match scope with Global => true | _ => false end.

Definition parse_stream_read_page_with_scope (buf selector : bytes) : Result StreamReadPage :=
  scope <- classify_stream_selector selector;;
  let global := scope_is_global scope in
  match buf with
  | [] => Ok {| items := []; cursor := empty_cursor |}
  | _ =>
      run_dec
        (page <- decode_stream_page global;;
         fin <- at_end;;
         if fin : bool then mret page
         else dec_fail (Protocol (str "READ response has trailing bytes")))
        buf
  end.

Definition parse_stream_last_response (buf route : bytes) : Result (option StreamRecord) :=
  match buf with
  | [] => Ok None
  | _ =>
      validate_response_fixed_route route (str "stream") 3 (str "LAST");;
      record <- run_dec
        (record <- decode_stream_record route false;;
         fin <- at_end;;
         if fin : bool then mret record
         else dec_fail (Protocol (str "LAST response has trailing bytes")))
        buf;;
      Ok (Some record)
  end.

Definition flatten_stream_read_items (items : list StreamReadItem) : list StreamRecord :=
  omap (fun item => match item with Event record => Some record | _ => None end) items.

Definition decode_stream_metadata (buf : bytes) : Result StreamMetadata :=
  run_dec
    (first_offset <- decode_optional_u64;;
     last_offset <- decode_optional_u64;;
     record_count <- get_u64;;
     max_batch_events <- get_u64;;
     max_batch_bytes <- get_u64;;
     ttl_seconds <- decode_optional_u64;;
     area_watermark <- get_u64;;
     realm_watermark <- get_u64;;
     mret {| first_offset := default 0 first_offset; last_offset := default 0 last_offset;
             record_count := record_count; max_batch_events := max_batch_events;
             max_batch_bytes := max_batch_bytes; ttl_seconds := ttl_seconds;
             area_watermark := area_watermark; realm_watermark := realm_watermark |})
    buf.

(** ** Status responses *)

Record StreamResponsePayload : Set := { session_id : option N; data : bytes }.

Definition stream_response_ok (operation buf : bytes) : Dec StreamResponsePayload :=
  let op_is name := bytes_eqb operation (str name) in
  if op_is "BEGIN" then
    session_id <- get_u64;; data <- get_bytes;; mret {| session_id := Some session_id; data := data |}
  else if op_is "APPEND" || op_is "COMMIT" then
    data <- get_bytes;; mret {| session_id := None; data := data |}
  else if op_is "ROLLBACK" || op_is "UNSUBSCRIBE" then mret {| session_id := None; data := [] |}
  else if op_is "LAST" || op_is "METADATA" then mret {| session_id := None; data := drop 1 buf |}
  else
    has_session_id <- get_u8;;
    session_id <-
      (if has_session_id =? 0 then mret None
       else if has_session_id =? 1 then session_id <- get_u64;; mret (Some session_id)
       else bad_tag (operation ++ str " response has invalid optional-id flag") has_session_id);;
    data <- get_bytes;;
    mret {| session_id := session_id; data := data |}.

Definition stream_response_error (operation : bytes) : Dec StreamResponsePayload :=
  code <- get_u16;;
  class <- get_u8;;
  effect <- get_u8;;
  message <- get_string;;
  if (10 <? class) || (2 <? effect)
  then dec_fail (Protocol (operation ++ str " error response has invalid class or effect"))
  else
    left <- bytes_left;;
    if negb (left =? 0)
    then dec_fail (Protocol (operation ++ str " error response has trailing data"))
    else dec_fail (DomainWire code class effect (operation ++ str " failed: " ++ message)).

Definition decode_stream_response (operation buf : bytes) : Result StreamResponsePayload :=
  run_dec
    (status <- get_u8;;
     if status =? 0 then stream_response_ok operation buf
     else if status =? 1 then stream_response_error operation
     else bad_tag (operation ++ str " failed with unknown status byte") status)
    buf.

(** ** Commit notifications

    [DecodedStreamNotifyPayload] is what [serde_json] parses the body into. *)

Record DecodedStreamNotifyPayload : Set := {
  p_event : bytes;
  p_first_resource_offset : N;
  p_last_resource_offset : N;
  p_first_area_offset : N;
  p_last_area_offset : N;
  p_first_realm_offset : N;
  p_last_realm_offset : N;
  p_batch_size : N;
}.

(** [serde_json::from_slice] is a parameter: a parsed payload, or the text of
    its error. *)
Definition decode_stream_notify
    (from_slice : bytes -> result bytes DecodedStreamNotifyPayload) (payload : bytes) :
    Result StreamCommitNotification :=
  run_dec
    (_ <- get_u64;;
     route <- get_string;;
     body <- get_bytes;;
     parsed <- lift_result
       (map_err (fun error => Protocol (str "invalid stream notification JSON: " ++ error))
          (from_slice body));;
     mret {| notify_route := route; event := p_event parsed;
             first_resource_offset := p_first_resource_offset parsed;
             notify_last_resource_offset := p_last_resource_offset parsed;
             first_area_offset := p_first_area_offset parsed;
             notify_last_area_offset := p_last_area_offset parsed;
             first_realm_offset := p_first_realm_offset parsed;
             notify_last_realm_offset := p_last_realm_offset parsed;
             batch_size := p_batch_size parsed;
             notify_payload := body |})
    payload.

(** ** The encodings *)

Local Arguments be_bytes : simpl never.

Definition global_u64_bytes (global : bool) (o : option N) : bytes :=
  if global then opt_u64_bytes o else [].
Definition global_u64_ok (global : bool) (o : option N) : Prop :=
  if global then opt_u64_ok o else o = None.
Definition reason_byte (r : option StreamFilteredReason) : N :=
  match r with None => 0 | Some ServerFilter => 1 | Some Permission => 2 | Some Projection => 3 end.
Definition reason_bytes (r : option StreamFilteredReason) : bytes := be_bytes 1 (reason_byte r).
Definition bool_bytes (b : bool) : bytes := be_bytes 1 (if b then 1 else 0).

Definition record_bytes (global : bool) (r : StreamRecord) : bytes :=
  be_bytes 8 (offset r) ++ opt_u64_bytes (area_offset r) ++ opt_u64_bytes (realm_offset r)
  ++ global_u64_bytes global (global_offset r) ++ field_bytes (body r)
  ++ opt_field_bytes (metadata r) ++ be_bytes 8 (timestamp r).
Definition record_ok (global : bool) (r : StreamRecord) : Prop :=
  offset r < 2 ^ 64 /\ opt_u64_ok (area_offset r) /\ opt_u64_ok (realm_offset r)
  /\ global_u64_ok global (global_offset r) /\ blen (body r) <= u32_max
  /\ opt_field_ok (metadata r) /\ timestamp r < 2 ^ 64.

Definition item_route (item : StreamReadItem) : bytes :=
  match item with
  | Event r => route r
  | Filtered route _ _ => route
  | FilteredRange route _ _ _ => route
  end.
Definition item_bytes (global : bool) (item : StreamReadItem) : bytes :=
  match item with
  | Event r => be_bytes 1 0 ++ record_bytes global r
  | Filtered _ offset reason => be_bytes 1 1 ++ be_bytes 8 offset ++ reason_bytes reason
  | FilteredRange _ from to reason =>
      be_bytes 1 2 ++ be_bytes 8 from ++ be_bytes 8 to ++ reason_bytes reason
  end.
Definition item_ok (global : bool) (item : StreamReadItem) : Prop :=
  match item with
  | Event r => record_ok global r
  | Filtered _ offset _ => offset < 2 ^ 64
  | FilteredRange _ from to _ => from < 2 ^ 64 /\ to < 2 ^ 64
  end.
Definition routed_item_ok (global : bool) (item : StreamReadItem) : Prop :=
  item_ok global item /\ utf8_valid (item_route item) = true /\ blen (item_route item) <= u32_max
  /\ validate_fixed_route (item_route item) (str "stream") 3 = Ok tt.
Definition routed_item_bytes (global : bool) (item : StreamReadItem) : bytes :=
  field_bytes (item_route item) ++ item_bytes global item.

Definition cursor_bytes (global : bool) (c : StreamReadCursor) : bytes :=
  be_bytes 8 (last_resource_offset c) ++ opt_u64_bytes (last_area_offset c)
  ++ opt_u64_bytes (last_realm_offset c) ++ global_u64_bytes global (last_global_offset c)
  ++ bool_bytes (has_more c) ++ global_u64_bytes global (cursor_fingerprint c)
  ++ global_u64_bytes global (captured_watermark c).
Definition cursor_ok (global : bool) (c : StreamReadCursor) : Prop :=
  last_resource_offset c < 2 ^ 64 /\ opt_u64_ok (last_area_offset c)
  /\ opt_u64_ok (last_realm_offset c) /\ global_u64_ok global (last_global_offset c)
  /\ global_u64_ok global (cursor_fingerprint c) /\ global_u64_ok global (captured_watermark c).

Definition page_bytes (global : bool) (p : StreamReadPage) : bytes :=
  be_bytes 4 (blen (items p)) ++ concat (map (routed_item_bytes global) (items p))
  ++ cursor_bytes global (cursor p).
Definition page_ok (global : bool) (p : StreamReadPage) : Prop :=
  blen (items p) <= u32_max /\ Forall (routed_item_ok global) (items p) /\ cursor_ok global (cursor p).

(** ** The decoders read exactly these encodings *)

#[export] Instance exact_optional_u64 : Exact decode_optional_u64 (encodes opt_u64_ok opt_u64_bytes).
Proof.
  unfold decode_optional_u64, bad_tag. eapply exact_iff; [exact_step|]. intros o l. split.
  - intros [Hok ->]. destruct o as [v|]; [exists 1 | exists 0]; do 2 eexists;
      (split; [reflexivity || (symmetry; apply app_nil_r)|]); cbn; eauto 6 with fitz.
  - intros (t & l1 & l2 & -> & [_ ->] & H). destruct (N.eqb_spec t 0) as [->|].
    + destruct H as [-> ->]. by rewrite app_nil_r.
    + destruct (N.eqb_spec t 1) as [->|]; [|done]. by destruct H as (v & -> & [Hv ->]).
Qed.

#[export] Instance exact_optional_bytes :
  Exact decode_optional_bytes (encodes opt_field_ok opt_field_bytes).
Proof.
  unfold decode_optional_bytes, bad_tag. eapply exact_iff; [exact_step|]. intros o l. split.
  - intros [Hok ->]. destruct o as [v|]; [exists 1 | exists 0]; do 2 eexists;
      (split; [reflexivity || (symmetry; apply app_nil_r)|]); cbn; eauto 6 with fitz.
  - intros (t & l1 & l2 & -> & [_ ->] & H). tag_cases; enc_inv; [by rewrite app_nil_r | done].
Qed.

#[export] Instance exact_bool_u8 field :
  Exact (decode_bool_u8 field) (encodes any bool_bytes).
Proof.
  unfold decode_bool_u8, bad_tag. eapply exact_iff; [exact_step|]. intros b l. split.
  - intros [_ ->]. destruct b; [exists 1 | exists 0]; do 2 eexists;
      (split; [symmetry; apply app_nil_r|]); cbn; eauto with fitz.
  - intros (t & l1 & l2 & -> & [_ ->] & H). tag_cases; enc_inv; by rewrite app_nil_r.
Qed.

#[export] Instance exact_reason :
  Exact decode_stream_filtered_reason (encodes any reason_bytes).
Proof.
  unfold decode_stream_filtered_reason, bad_tag. eapply exact_iff; [exact_step|]. intros r l. split.
  - intros [_ ->]. exists (reason_byte r). do 2 eexists.
    split; [symmetry; apply app_nil_r|]. destruct r as [[]|]; cbn; eauto with fitz.
  - intros (t & l1 & l2 & -> & [_ ->] & H). tag_cases; enc_inv; by rewrite app_nil_r.
Qed.

#[export] Instance exact_global_u64 global :
  Exact (decode_global_u64 global) (encodes (global_u64_ok global) (global_u64_bytes global)).
Proof.
  destruct global; [apply exact_optional_u64|]. eapply exact_iff; [apply exact_ret|]. done.
Qed.

#[export] Hint Resolve exact_optional_u64 exact_optional_bytes exact_bool_u8 exact_reason
  exact_global_u64 : fitz.

#[export] Instance exact_record r global :
  Exact (decode_stream_record r global)
    (encodes (fun rec => route rec = r /\ record_ok global rec) (record_bytes global)).
Proof.
  eapply exact_iff; [unfold decode_stream_record; exact_step|].
  intros rec l. split.
  - destruct rec as [r' o b a re g m t]. intros [[H (? & ? & ? & ? & ? & ? & ?)] ->]. cbn in *. subst r'. unfold record_bytes, field_bytes. cbn.
    enc_fields.
  - intros H. enc_inv. by repeat split.
Qed.
#[export] Hint Resolve exact_record : fitz.

#[export] Instance exact_item r global :
  Exact (decode_stream_read_item r global)
    (encodes (fun item => item_route item = r /\ item_ok global item) (item_bytes global)).
Proof.
  eapply exact_iff; [unfold decode_stream_read_item, bad_tag; exact_step|].
  intros item l. split.
  - intros [[<- Hok] ->]. destruct item as [rec|r' o re|r' f t re]; cbn in *.
    + exists 0. do 2 eexists. split; [reflexivity|]. split; [by eauto with fitz|]. cbn.
      exists rec. split; [done|]. split; [by split | reflexivity].
    + exists 1. do 2 eexists. split; [reflexivity|]. split; [by eauto with fitz|]. cbn. enc_fields.
    + exists 2. do 2 eexists. split; [reflexivity|]. split; [by eauto with fitz|]. cbn.
      destruct Hok. enc_fields.
  - intros (t & l1 & l2 & -> & [_ ->] & H). tag_cases; enc_inv; done.
Qed.
#[export] Hint Resolve exact_item : fitz.

Lemma response_route_ok route scheme n op :
  validate_response_fixed_route route scheme n op = Ok tt <-> validate_fixed_route route scheme n = Ok tt.
Proof. apply map_err_ok. Qed.

#[export] Instance exact_routed_item global :
  Exact (decode_routed_item global) (encodes (routed_item_ok global) (routed_item_bytes global)).
Proof.
  eapply exact_iff; [unfold decode_routed_item; exact_step|]. intros item l. split.
  - intros [(Hi & Hu & Hl & Hv) ->]. unfold routed_item_bytes, field_bytes.
    do 3 eexists. split; [reflexivity|]. split.
    { eapply enc_string_intro; eassumption. }
    exists tt, []. eexists. split; [reflexivity|]. split; [|done].
    split; [by apply response_route_ok | done].
  - intros H. enc_inv. match goal with H : validate_response_fixed_route _ _ _ _ = Ok ?u |- _ =>
      destruct u; apply response_route_ok in H end.
    by repeat split.
Qed.

#[export] Instance exact_cursor global :
  Exact (decode_stream_cursor global) (encodes (cursor_ok global) (cursor_bytes global)).
Proof.
  eapply exact_iff; [unfold decode_stream_cursor; exact_step|]. intros c l. split.
  - destruct c. intros [(? & ? & ? & ? & ? & ?) ->]. cbn in *. unfold cursor_bytes. cbn. enc_fields.
  - intros H. enc_inv. by repeat split.
Qed.
#[export] Hint Resolve exact_routed_item exact_cursor : fitz.

#[export] Instance exact_page global :
  Exact (decode_stream_page global) (encodes (page_ok global) (page_bytes global)).
Proof.
  eapply exact_iff; [unfold decode_stream_page; exact_step|]. intros p l. split.
  - destruct p as [its c]. intros [(Hn & Hi & Hc) ->]. unfold page_bytes. cbn in *.
    exists (blen its). do 2 eexists. split; [reflexivity|]. split.
    { apply enc_uint_intro. unfold u32_max in Hn. change (2 ^ (8 * N.of_nat 4)) with 4294967296. lia. }
    exists its. do 2 eexists. split; [reflexivity|]. split; [|enc_fields].
    split; [unfold blen; lia|]. by apply enc_items_encodes.
  - intros (n & l1 & l2 & -> & [Hn ->] & its & l3 & l4 & -> & [Hl Hi] & c & -> & [Hc ->]).
    apply enc_items_encodes in Hi as [Hi ->]. assert (n = blen its) as -> by (unfold blen; lia).
    split; [|done]. split; [|done]. unfold u32_max. cbn.
    change (2 ^ (8 * N.of_nat 4)) with 4294967296 in Hn. lia.
Qed.

(** ** Properties *)

(** C30: a non-empty READ response is accepted exactly when it is the canonical
    encoding of a page: every item under a valid concrete three-segment Stream
    route, every optional field tagged 0 or 1, the Global-only cursor fields
    present exactly under a Global selector, and no trailing byte; the page
    returned is the one encoded. *)
Theorem read_page_exact buf selector scope page :
  classify_stream_selector selector = Ok scope -> buf <> [] ->
  parse_stream_read_page_with_scope buf selector = Ok page <->
  page_ok (scope_is_global scope) page /\ buf = page_bytes (scope_is_global scope) page.
Proof.
  intros Hs Hb. unfold parse_stream_read_page_with_scope. rewrite Hs.
  cbn [mbind result_mbind result_bind]. destruct buf; [done|].
  exact (run_exact_end _ (encodes (page_ok _) (page_bytes _)) _ _ page (exact_page _)).
Qed.

Definition sample_page : StreamReadPage :=
  {| items :=
       [ Event {| route := str "stream://r/a/x"; offset := 7; body := str "hi";
                  area_offset := Some 3; realm_offset := None; global_offset := Some 9;
                  metadata := Some (str "m"); timestamp := 1000 |};
         FilteredRange (str "stream://r/a/y") 8 12 (Some Permission) ];
     cursor := {| last_resource_offset := 12; last_area_offset := None; last_realm_offset := Some 4;
                  last_global_offset := Some 10; cursor_fingerprint := Some 77;
                  captured_watermark := None; has_more := true |} |}.

Lemma read_page_exact_witness :
  page_bytes true sample_page <> []
  /\ (parse_stream_read_page_with_scope (page_bytes true sample_page) (str "stream://**")
        = Ok sample_page
      <-> page_ok (scope_is_global Global) sample_page
          /\ page_bytes true sample_page = page_bytes (scope_is_global Global) sample_page)
  /\ parse_stream_read_page_with_scope (page_bytes true sample_page) (str "stream://**")
     = Ok sample_page.
Proof.
  split; [discriminate|]. split; [|vm_compute; reflexivity].
  apply read_page_exact; [vm_compute; reflexivity | discriminate].
Defined.
