(* ===== verification/Shared.v ===== *)
(** * Shared

    The state [src/src/async_connection.rs] shares between the connection
    handles and the supervisor task (its atomics, the per-type notification
    epochs, the restorable registrations), with the operations both sides use:
    request ids, correlation ids, negotiated capabilities and epochs; and the
    policies and states of [src/src/lib.rs].

    Each operation is one atomic step, as the source's locks and atomics make
    it; how steps of different tasks interleave is stated by the components
    that use them. *)

From S2P Require Import Prelude Errors Codec.

(** ** Configuration ([src/src/lib.rs])

    A [Duration] is a number of nanoseconds. *)

Inductive ConnectionState : Set :=
| Disconnected | Connecting | Connected | Authenticating | Authenticated | Reconnecting
| ClosedState.

#[export] Instance ConnectionState_eq_dec : EqDecision ConnectionState.
Proof. solve_decision. Defined.

Definition duration := N.
Definition millis (n : N) : duration := n * 1000000.
Definition secs (n : N) : duration := n * 1000000000.
(** [Duration::MAX]: [u64::MAX] seconds and 999,999,999 nanoseconds. *)
Definition duration_max : duration := u64_max * 1000000000 + 999999999.
(** [Duration::saturating_mul]. *)
Definition duration_saturating_mul (d : duration) (n : N) : duration :=
  saturating_mul duration_max d n.

Record RetryPolicy : Set := {
  retry_enabled : bool;
  maximum_attempts : N;
  base_delay : duration;
  maximum_delay : duration;
}.

Definition RetryPolicy_default : RetryPolicy :=
  {| retry_enabled := true; maximum_attempts := 3; base_delay := millis 100; maximum_delay := secs 1 |}.

Record HeartbeatOptions : Set := {
  heartbeat_enabled : bool;
  idle_interval : duration;
  heartbeat_timeout : duration;
}.

Definition HeartbeatOptions_default : HeartbeatOptions :=
  {| heartbeat_enabled := true; idle_interval := secs 10; heartbeat_timeout := secs 30 |}.

(** ** Shared state *)

Record Registration : Type := {
  reg_message_type : N;
  reg_payload : bytes;
  reg_decoder : bytes -> Result N;
}.

(** [wire_ids] is the store of the [Arc<AtomicU64>] wire ids, by registration
    key: the handle keeps reading its own after the registration is removed. *)
Record Shared : Type := {
  next_request_id : N;
  capabilities : N;
  max_message_bytes : N;
  max_in_flight : N;
  generation : N;
  close_requested : bool;
  notification_epoch : gmap N N;
  registrations : gmap N Registration;
  wire_ids : gmap N N;
  next_registration_id : N;
  conn_state : ConnectionState;
}.

(** [spawn]: the initial values. *)
Definition Shared_new (max_queued : N) : Shared :=
  {| next_request_id := 1; capabilities := 0; max_message_bytes := MAX_MESSAGE_SIZE;
     max_in_flight := N.max max_queued 1; generation := 0; close_requested := false;
     notification_epoch := ∅; registrations := ∅; wire_ids := ∅; next_registration_id := 1;
     conn_state := Disconnected |}.

(** One setter per field: the stores of the source. *)
Definition set_next_request_id (v : N) (s : Shared) : Shared :=
  {| next_request_id := v; capabilities := capabilities s; max_message_bytes := max_message_bytes s;
     max_in_flight := max_in_flight s; generation := generation s;
     close_requested := close_requested s; notification_epoch := notification_epoch s;
     registrations := registrations s; wire_ids := wire_ids s;
     next_registration_id := next_registration_id s; conn_state := conn_state s |}.
Definition set_limits (caps bytes_limit in_flight : N) (s : Shared) : Shared :=
  {| next_request_id := next_request_id s; capabilities := caps; max_message_bytes := bytes_limit;
     max_in_flight := in_flight; generation := generation s;
     close_requested := close_requested s; notification_epoch := notification_epoch s;
     registrations := registrations s; wire_ids := wire_ids s;
     next_registration_id := next_registration_id s; conn_state := conn_state s |}.
Definition set_capabilities (caps : N) (s : Shared) : Shared :=
  set_limits caps (max_message_bytes s) (max_in_flight s) s.
Definition set_generation (g : N) (s : Shared) : Shared :=
  {| next_request_id := next_request_id s; capabilities := capabilities s;
     max_message_bytes := max_message_bytes s; max_in_flight := max_in_flight s; generation := g;
     close_requested := close_requested s; notification_epoch := notification_epoch s;
     registrations := registrations s; wire_ids := wire_ids s;
     next_registration_id := next_registration_id s; conn_state := conn_state s |}.
Definition set_close_requested (s : Shared) : Shared :=
  {| next_request_id := next_request_id s; capabilities := capabilities s;
     max_message_bytes := max_message_bytes s; max_in_flight := max_in_flight s;
     generation := generation s; close_requested := true; notification_epoch := notification_epoch s;
     registrations := registrations s; wire_ids := wire_ids s;
     next_registration_id := next_registration_id s; conn_state := conn_state s |}.
Definition set_epochs (m : gmap N N) (s : Shared) : Shared :=
  {| next_request_id := next_request_id s; capabilities := capabilities s;
     max_message_bytes := max_message_bytes s; max_in_flight := max_in_flight s;
     generation := generation s; close_requested := close_requested s; notification_epoch := m;
     registrations := registrations s; wire_ids := wire_ids s;
     next_registration_id := next_registration_id s; conn_state := conn_state s |}.
Definition set_registrations (m : gmap N Registration) (w : gmap N N) (n : N) (s : Shared) : Shared :=
  {| next_request_id := next_request_id s; capabilities := capabilities s;
     max_message_bytes := max_message_bytes s; max_in_flight := max_in_flight s;
     generation := generation s; close_requested := close_requested s;
     notification_epoch := notification_epoch s; registrations := m; wire_ids := w;
     next_registration_id := n; conn_state := conn_state s |}.
Definition set_state (st : ConnectionState) (s : Shared) : Shared :=
  {| next_request_id := next_request_id s; capabilities := capabilities s;
     max_message_bytes := max_message_bytes s; max_in_flight := max_in_flight s;
     generation := generation s; close_requested := close_requested s;
     notification_epoch := notification_epoch s; registrations := registrations s;
     wire_ids := wire_ids s; next_registration_id := next_registration_id s; conn_state := st |}.

(** ** Request ids *)

Definition ids_exhausted : FitzError :=
  Protocol (str "correlation identifiers exhausted; reconnect before another request").

(** The compare-exchange loop stores the successor of the value it returns; a
    failed exchange retries on the value it observed, so the loop is one
    atomic step of the cell. *)
Definition allocate_request_id (sequence : N) : Result N * N :=
  if sequence =? 0 then (Err ids_exhausted, sequence)
  else (Ok sequence, if sequence =? u64_max then 0 else sequence + 1).

Definition send_correlation_id (message_type : N) (payload : bytes) (request_id : N) : N :=
  if negb ((300 <=? message_type) && (message_type <=? 305))
     || (message_type =? 303) || (message_type =? 305)
     || ((message_type =? 304) && negb (bool_decide (head payload = Some Byte.x01)))
  then 0 else request_id.

(** ** Negotiated capabilities

    [capabilities] packs the active capability mask (bits 48..63), the
    protocol version (32..47) and 32 zero bits. *)

Definition protocol_version (s : Shared) : N := N.land (N.shiftr (capabilities s) 32) u16_max.
Definition capability_bits (s : Shared) : N := N.land (capabilities s) u32_max.
Definition capability_ids (s : Shared) : list N :=
  let mask := N.shiftr (capabilities s) 48 in
  List.filter (fun id => negb (N.land mask (N.shiftl 1 id) =? 0)) [1; 2].

Definition require_capability (s : Shared) (id : N) : Result unit :=
  if ((id =? 1) || (id =? 2)) && (protocol_version s =? 3)
     && negb (N.land (N.shiftr (capabilities s) 48) (N.shiftl 1 id) =? 0)
  then Ok tt
  else Err (Protocol (str "capability " ++ dec id ++ str " was not negotiated")).

Definition negotiated_limits (s : Shared) : N * N := (max_message_bytes s, max_in_flight s).
Definition correlation_enabled (s : Shared) : bool := 2 <=? protocol_version s.
Definition supervisor_correlation_enabled (s : Shared) : bool := 2 <=? N.shiftr (capabilities s) 32.

(** ** Notification epochs *)

(** [*epoch_slot(..).lock()]: a missing slot is created at zero. *)
Definition epoch_of (s : Shared) (message_type : N) : N :=
  default 0 (notification_epoch s !! message_type).

Definition bump_epoch (message_type : N) (s : Shared) : Shared :=
  set_epochs (<[message_type := wrapping_add 64 (epoch_of s message_type) 1]> (notification_epoch s)) s.

(** [install] runs under the epoch's lock, so the test and the installation are
    one step. *)
Definition install_if_notification_epoch {V : Type} (s : Shared) (message_type expected : N)
    (install : V -> V) (v : V) : bool * V :=
  if negb (epoch_of s message_type =? expected) then (false, v) else (true, install v).

(** ** Registrations *)

Definition register_restorable (r : Registration) (wire_id : N) (s : Shared) : N * Shared :=
  let key := next_registration_id s in
  (key, set_registrations (<[key := r]> (registrations s)) (<[key := wire_id]> (wire_ids s))
          (wrapping_add 64 key 1) s).

(** A [RestorableRegistration]: [registered] is its [active] flag. *)
Record RestorableRegistration : Set := { key : N; registered : bool }.

Definition wire_id (r : RestorableRegistration) (s : Shared) : N := default 0 (wire_ids s !! key r).

Definition deactivate (r : RestorableRegistration) (s : Shared) : RestorableRegistration * Shared :=
  if registered r
  then ({| key := key r; registered := false |},
        set_registrations (base.delete (key r) (registrations s)) (wire_ids s) (next_registration_id s) s)
  else (r, s).

(** ** Commands *)

(** A [oneshot::Sender], by an identity of its own. *)
Definition responder := N.

Inductive Command : Set :=
| Connect (response : responder)
| Request (id generation message_type flags : N) (payload : bytes) (response : responder)
| Send (id generation message_type : N) (payload : bytes) (response : responder)
| Close (response : responder).

(** ** Facts *)

(** Ids drawn from a fresh counter. *)
Fixpoint allocate_many (n : nat) (sequence : N) : list N * N :=
  match n with
  | O => ([], sequence)
  | S n' =>
      match allocate_request_id sequence with
      | (Ok id, sequence') => let '(ids, last) := allocate_many n' sequence' in (id :: ids, last)
      | (Err _, sequence') => ([], sequence')
      end
  end.

Lemma allocate_many_ids n : forall s,
  0 < s <= u64_max ->
  (allocate_many n s).1 = map N.of_nat (seq (N.to_nat s) (N.to_nat (N.min (N.of_nat n) (u64_max + 1 - s)))).
Proof.
  induction n as [|n IH]; intros s Hs; cbn [allocate_many].
  - rewrite N.min_l by lia. done.
  - unfold allocate_request_id. destruct (N.eqb_spec s 0); [lia|].
    destruct (N.eqb_spec s u64_max) as [->|].
    + assert (H0 : (allocate_many n 0).1 = []) by (by destruct n).
      destruct (allocate_many n 0) as [ids last]. cbn in H0 |- *. subst ids.
      replace (N.to_nat (N.min _ _)) with 1%nat by lia. cbn [seq map]. by rewrite N2Nat.id.
    + specialize (IH (s + 1)). destruct (allocate_many n (s + 1)) as [ids last]. cbn in IH |- *.
      rewrite IH by lia.
      replace (N.to_nat (N.min (N.of_nat (S n)) (u64_max + 1 - s)))
        with (S (N.to_nat (N.min (N.of_nat n) (u64_max + 1 - (s + 1))))) by lia.
      cbn [seq map]. rewrite N2Nat.id. do 2 f_equal. f_equal. lia.
Qed.

(** Correlation ids do not repeat: any number of allocations from a session's
    fresh counter yields distinct ids, none of them the reserved zero and all
    in sixty-four bits, and the counter refuses once they are used up instead
    of wrapping. *)
Theorem allocate_request_id_unique n :
  let '(ids, last) := allocate_many n 1 in
  NoDup ids /\ Forall (fun id => 0 < id <= u64_max) ids
  /\ (blen ids < N.of_nat n -> fst (allocate_request_id last) = Err ids_exhausted).
Proof.
  pose proof (allocate_many_ids n 1) as H.
  assert (Hex : forall m s, 0 < s <= u64_max -> blen (allocate_many m s).1 < N.of_nat m ->
    (allocate_many m s).2 = 0).
  { induction m as [|m IH]; intros s Hs; cbn [allocate_many]; [cbn; lia|].
    unfold allocate_request_id. destruct (N.eqb_spec s 0); [lia|].
    destruct (N.eqb_spec s u64_max) as [->|].
    - intros _. destruct m; done.
    - specialize (IH (s + 1)). destruct (allocate_many m (s + 1)) as [ids last]. cbn in *.
      rewrite blen_cons. intros. apply IH; lia. }
  specialize (Hex n 1). destruct (allocate_many n 1) as [ids last]. cbn [fst snd] in *.
  rewrite H by (unfold u64_max; lia). split; [|split].
  - apply NoDup_fmap_2; [apply _ | apply NoDup_ListNoDup, seq_NoDup].
  - apply Forall_forall. intros id Hid. apply list_elem_of_In, in_map_iff in Hid as (k & <- & Hk).
    apply in_seq in Hk. unfold u64_max in *. lia.
  - rewrite <- H by (unfold u64_max; lia). intros Hl. rewrite Hex; [done | unfold u64_max; lia | done].
Qed.
