(* ===== verification/Session.v ===== *)
(** * Session

    [src/src/async_connection.rs], the session task: [run_io] and
    [run_websocket] as step functions over the events of their [select!] loops,
    with the request maps, the dispatch of incoming records, cancellation, the
    heartbeat, and the inbound frame decoder.

    A step takes the answer of the transport to each frame written
    ([transport]) and returns the effects in the order the code performs them.
    A [oneshot] sender that is dropped without an answer is the effect
    [DropResponder]: its receiver then observes [ConnectionClosed]. *)

From S2P Require Import Prelude Errors Protocol Codec Wire3 Shared.
Import message_type.

Inductive SessionResult : Set := SessionDisconnected | SessionClosed.

Inductive Effect : Set :=
| Reply (r : responder) (result : Result bytes)
| ReplyUnit (r : responder) (result : Result unit)
| DropResponder (r : responder)
| Write (frame : bytes)
| WritePing
| WritePong (payload : bytes)
| Shutdown
| Publish (message_type : N) (payload : bytes) (generation : N)
| Lifecycle (name : bytes) (state : ConnectionState).

Record PendingRequest : Set := { pr_id : N; pr_response : option responder }.
Record QueuedRequest : Set := { q_id : N; q_payload : bytes; q_response : option responder }.

Record SessionState : Set := {
  pending : gmap N (list PendingRequest);
  correlated : gmap N PendingRequest;
  queued : gmap N (list QueuedRequest);
  canceled : gset N;
}.

Definition SessionState_new : SessionState :=
  {| pending := ∅; correlated := ∅; queued := ∅; canceled := ∅ |}.

Definition set_pending (p : gmap N (list PendingRequest)) (st : SessionState) : SessionState :=
  {| pending := p; correlated := correlated st; queued := queued st; canceled := canceled st |}.
Definition set_correlated (c : gmap N PendingRequest) (st : SessionState) : SessionState :=
  {| pending := pending st; correlated := c; queued := queued st; canceled := canceled st |}.
Definition set_queued (q : gmap N (list QueuedRequest)) (st : SessionState) : SessionState :=
  {| pending := pending st; correlated := correlated st; queued := q; canceled := canceled st |}.
Definition set_canceled (c : gset N) (st : SessionState) : SessionState :=
  {| pending := pending st; correlated := correlated st; queued := queued st; canceled := c |}.

(** ** Small pieces *)

Definition emit_lifecycle (sh : Shared) (name : bytes) : list Effect := [Lifecycle name (conn_state sh)].

(** [if let Some(response) = response { response.send(result) }]. *)
Definition reply_opt (response : option responder) (result : Result bytes) : list Effect :=
  match response with Some r => [Reply r result] | None => [] end.
(** Dropping an [Option<Sender>]. *)
Definition drop_opt (response : option responder) : list Effect :=
  match response with Some r => [DropResponder r] | None => [] end.

Definition fail_slot (response : option responder) : list Effect :=
  reply_opt response (Err ConnectionClosed).

Definition fail_pending (p : gmap N (list PendingRequest)) : list Effect :=
  concat (map (fun slot => fail_slot (pr_response slot)) (concat (map snd (map_to_list p)))).

Definition fail_all (st : SessionState) : SessionState * list Effect :=
  ({| pending := ∅; correlated := ∅; queued := ∅; canceled := canceled st |},
   fail_pending (pending st)
   ++ concat (map (fun slot => fail_slot (pr_response slot)) (map snd (map_to_list (correlated st))))
   ++ concat (map (fun slot => fail_slot (q_response slot)) (concat (map snd (map_to_list (queued st)))))).

(** ** Cancellation *)

(** [queue.iter_mut().find(|slot| slot.id == id)] and [slot.response = None]. *)
Fixpoint cancel_in_queue (queue : list PendingRequest) (id : N) :
    option (list PendingRequest * list Effect) :=
  match queue with
  | [] => None
  | slot :: queue' =>
      if pr_id slot =? id
      then Some ({| pr_id := pr_id slot; pr_response := None |} :: queue', drop_opt (pr_response slot))
      else match cancel_in_queue queue' id with
           | Some (queue'', e) => Some (slot :: queue'', e)
           | None => None
           end
  end.

(** [position] and [queue.remove(position)]. *)
Fixpoint remove_from_queue (queue : list QueuedRequest) (id : N) :
    option (list QueuedRequest * list Effect) :=
  match queue with
  | [] => None
  | slot :: queue' =>
      if q_id slot =? id then Some (queue', drop_opt (q_response slot))
      else match remove_from_queue queue' id with
           | Some (queue'', e) => Some (slot :: queue'', e)
           | None => None
           end
  end.

(** [for queue in map.values_mut() { if let Some(..) = f(queue) { return true } }]:
    the first queue, in the map's iteration order, on which [f] succeeds. *)
Fixpoint first_queue {Q : Type} (f : list Q -> option (list Q * list Effect))
    (entries : list (N * list Q)) (m : gmap N (list Q)) : option (gmap N (list Q) * list Effect) :=
  match entries with
  | [] => None
  | (k, queue) :: entries' =>
      match f queue with
      | Some (queue', e) => Some (<[k := queue']> m, e)
      | None => first_queue f entries' m
      end
  end.

Definition cancel_pending (p : gmap N (list PendingRequest)) (id : N) :
    option (gmap N (list PendingRequest) * list Effect) :=
  first_queue (fun queue => cancel_in_queue queue id) (map_to_list p) p.

(** The map is left as it is when the result is [None] (the source's [false]). *)
Definition cancel_all_pending (st : SessionState) (id : N) : option (SessionState * list Effect) :=
  match correlated st !! id with
  | Some slot =>
      Some (set_correlated (<[id := {| pr_id := pr_id slot; pr_response := None |}]> (correlated st)) st,
            drop_opt (pr_response slot))
  | None =>
      match cancel_pending (pending st) id with
      | Some (p, e) => Some (set_pending p st, e)
      | None =>
          match first_queue (fun queue => remove_from_queue queue id) (map_to_list (queued st)) (queued st) with
          | Some (q, e) => Some (set_queued q st, e)
          | None => None
          end
      end
  end.

Definition handle_cancellation (st : SessionState) (id : N) : SessionState * list Effect :=
  match cancel_all_pending st id with
  | Some r => r
  | None => (set_canceled ({[id]} ∪ canceled st) st, [])
  end.

(** ** Dispatch *)

Definition publish_notification (sh : Shared) (message_type : N) (payload : bytes) :
    Shared * list Effect :=
  (bump_epoch message_type sh, [Publish message_type payload (generation sh)]).

Definition dispatch (sh : Shared) (st : SessionState) (message_type : N) (payload : bytes) :
    Shared * SessionState * list Effect * bool :=
  match pending st !! message_type with
  | Some (slot :: queue) =>
      (sh, set_pending (<[message_type := queue]> (pending st)) st,
       reply_opt (pr_response slot) (Ok payload), true)
  | _ =>
      let '(sh', e) := publish_notification sh message_type payload in (sh', st, e, false)
  end.

Definition dispatch_correlated (st : SessionState) (correlation_id : N) (payload : bytes)
    (response_final : bool) : Result (SessionState * list Effect) :=
  match correlated st !! correlation_id with
  | None => Err (Protocol (str "unexpected response correlation " ++ dec correlation_id))
  | Some slot =>
      if response_final
      then Ok (set_correlated (base.delete correlation_id (correlated st)) st,
               reply_opt (pr_response slot) (Ok payload))
      else Ok (st, [])
  end.

(** ** Frames *)

Definition encode_outbound (sh : Shared) (message_type flags correlation_id : N) (payload : bytes) :
    Result bytes :=
  frame <- try_encode_frame message_type flags correlation_id payload;;
  if max_message_bytes sh <? blen frame then Err (FrameTooLarge (blen frame)) else Ok frame.

Definition apply_server_hello (sh : Shared) (payload : bytes) (capability_mask : N) : Result Shared :=
  if negb (capabilities sh =? 0)
  then Err (Protocol (str "repeated HELLO cannot renegotiate an established session"))
  else
    run_dec
      (version <- get_u16;;
       bits <- get_u32;;
       max_bytes <- get_u32;;
       in_flight <- get_u32;;
       _ <- get_u64;;
       fin <- at_end;;
       if negb (version =? 3) || negb (bits =? 0) || negb fin || (max_bytes <? 15) || (in_flight =? 0)
       then dec_fail (Protocol (str "broker advertised invalid Wire-3 limits"))
       else mret (set_limits (N.lor (N.shiftl capability_mask 48) (N.shiftl version 32))
                    (N.min max_bytes MAX_MESSAGE_SIZE) (N.min in_flight (max_in_flight sh)) sh))
      payload.

(** [flags & !EXTENSIONS_PRESENT != 0 || correlation_id != 0]. *)
Definition control_misflagged (header : FrameHeader) : bool :=
  negb (N.ldiff (flags header) EXTENSIONS_PRESENT =? 0) || negb (correlation_id header =? 0).

Definition IncomingRecord : Set := N * bytes * N * bool.

Definition decode_goaway (payload : bytes) : Result unit :=
  run_dec
    (_ <- get_u16;;
     _ <- get_u32;;
     _ <- get_string;;
     fin <- at_end;;
     if fin : bool then mret tt else dec_fail (Protocol (str "GOAWAY has trailing bytes")))
    payload.

Definition decode_incoming (sh : Shared) (frame : bytes) :
    Result (Shared * list Effect * list IncomingRecord) :=
  if max_message_bytes sh <? blen frame then Err (FrameTooLarge (blen frame))
  else
    header <- decode_frame_header frame;;
    let* '(payload, capability_mask) :=
      Wire3.decode (frame_payload header frame) (message_type header) (flags header) in
    if message_type header =? HELLO then
      if negb (flags header =? EXTENSIONS_PRESENT) || negb (correlation_id header =? 0)
      then Err (Protocol (str "HELLO has flags or correlation"))
      else
        sh' <- apply_server_hello sh payload capability_mask;;
        Ok (sh', [], [])
    else if message_type header =? GOAWAY then
      if control_misflagged header
      then Err (Protocol (str "GOAWAY has flags or correlation"))
      else
        decode_goaway payload;;
        Ok (sh, emit_lifecycle sh (str "goaway"), [])
    else if message_type header =? CONNECT_REJECTED then
      Err (Authentication (str "broker rejected CONNECT after authentication"))
    else
      Ok (sh, [], [(message_type header, payload, correlation_id header,
                    negb (N.land (flags header) RESPONSE_FINAL =? 0))]).

(** ** Commands *)

(** What one branch of the loop leaves: the task's states, its effects, and the
    result it returned with, if it did. *)
Record Stepped : Type := {
  st_shared : Shared;
  st_session : SessionState;
  st_effects : list Effect;
  st_result : option SessionResult;
}.

Definition stepped (sh : Shared) (st : SessionState) (e : list Effect) : Stepped :=
  {| st_shared := sh; st_session := st; st_effects := e; st_result := None |}.

(** [fail_all(..); return SessionResult::Disconnected]. *)
Definition disconnect (sh : Shared) (st : SessionState) (e : list Effect) : Stepped :=
  let '(st', failed) := fail_all st in
  {| st_shared := sh; st_session := st'; st_effects := e ++ failed;
     st_result := Some SessionDisconnected |}.

Section Commands.
Context (transport : bytes -> Result unit).

(** [write_tcp], and its WebSocket counterpart: encode, then write. *)
Definition write_legacy (message_type : N) (payload : bytes) : list Effect * Result unit :=
  match try_encode_message_frame message_type payload with
  | Ok frame => ([Write frame], transport frame)
  | Err e => ([], Err e)
  end.

(** The [Command::Request] arm.  The flag says that the arm ran to its end,
    without [continue]. *)
Definition handle_request (sh : Shared) (st : SessionState) (session_generation : N)
    (id gen mt fl : N) (payload : bytes) (response : responder) : Stepped * bool :=
  if negb (gen =? session_generation)
  then (stepped sh st [Reply response (Err ConnectionClosed)], false)
  else
    let was_canceled := bool_decide (id ∈ canceled st) in
    let st := set_canceled (canceled st ∖ {[id]}) st in
    let dropped := if was_canceled then [DropResponder response] else [] in
    let response := if was_canceled then None else Some response in
    if supervisor_correlation_enabled sh then
      if max_in_flight sh <=? N.of_nat (size (correlated st)) then
        (stepped sh st
           (dropped ++ reply_opt response
              (Err (Backpressure (str "broker max in-flight limit reached")))), false)
      else
        match encode_outbound sh mt fl id payload with
        | Err e => (stepped sh st (dropped ++ reply_opt response (Err e)), false)
        | Ok frame =>
            let overwritten :=
              match correlated st !! id with Some slot => drop_opt (pr_response slot) | None => [] end in
            let st := set_correlated
                        (<[id := {| pr_id := id; pr_response := response |}]> (correlated st)) st in
            let e := dropped ++ overwritten ++ [Write frame] in
            if is_ok (transport frame) then (stepped sh st e, true) else (disconnect sh st e, false)
        end
    else
      match pending st !! mt with
      | Some (_ :: _) =>
          (stepped sh
             (set_queued
                (<[mt := default [] (queued st !! mt)
                           ++ [{| q_id := id; q_payload := payload; q_response := response |}]]>
                   (queued st)) st)
             dropped, true)
      | _ =>
          let st := set_pending (<[mt := [{| pr_id := id; pr_response := response |}]]> (pending st)) st in
          let '(e, written) := write_legacy mt payload in
          if is_ok written then (stepped sh st (dropped ++ e), true)
          else (disconnect sh st (dropped ++ e), false)
      end.

(** The [Command::Send] arm. *)
Definition handle_send (sh : Shared) (st : SessionState) (session_generation : N)
    (id gen mt : N) (payload : bytes) (response : responder) : Stepped :=
  if negb (gen =? session_generation)
  then stepped sh st [ReplyUnit response (Err ConnectionClosed)]
  else
    match encode_outbound sh mt 0 (send_correlation_id mt payload id) payload with
    | Ok frame => stepped sh st [Write frame; ReplyUnit response (transport frame)]
    | Err e => stepped sh st [ReplyUnit response (Err e)]
    end.

(** [Command::Close], and a closed command channel ([None]). *)
Definition handle_close (sh : Shared) (st : SessionState) (response : responder) : Stepped :=
  let '(st', failed) := fail_all st in
  let sh' := set_state ClosedState sh in
  {| st_shared := sh'; st_session := st';
     st_effects := [Shutdown; ReplyUnit response (Ok tt)] ++ failed ++ emit_lifecycle sh' (str "closed");
     st_result := Some SessionClosed |}.

Definition handle_channel_closed (sh : Shared) (st : SessionState) : Stepped :=
  let '(st', failed) := fail_all st in
  {| st_shared := sh; st_session := st'; st_effects := Shutdown :: failed;
     st_result := Some SessionClosed |}.

Definition handle_command (sh : Shared) (st : SessionState) (session_generation : N)
    (command : option Command) : Stepped * bool :=
  match command with
  | Some (Request id gen mt fl payload response) =>
      handle_request sh st session_generation id gen mt fl payload response
  | Some (Send id gen mt payload response) =>
      (handle_send sh st session_generation id gen mt payload response, false)
  | Some (Connect response) => (stepped sh st [ReplyUnit response (Ok tt)], false)
  | Some (Close response) => (handle_close sh st response, false)
  | None => (handle_channel_closed sh st, false)
  end.

(** ** Incoming records *)

(** [queued.get_mut(&mt).and_then(pop_front)] after a completion, and the write
    of the request it yields. *)
Definition send_next_queued (sh : Shared) (st : SessionState) (mt : N) (e : list Effect) : Stepped :=
  match queued st !! mt with
  | Some (next :: rest) =>
      let st := set_queued (<[mt := rest]> (queued st)) st in
      let st := set_pending
                  (<[mt := default [] (pending st !! mt)
                             ++ [{| pr_id := q_id next; pr_response := q_response next |}]]>
                     (pending st)) st in
      let '(e', written) := write_legacy mt (q_payload next) in
      if is_ok written then stepped sh st (e ++ e') else disconnect sh st (e ++ e')
  | _ => stepped sh st e
  end.

Definition handle_record (sh : Shared) (st : SessionState) (record : IncomingRecord) : Stepped :=
  let '(mt, payload, correlation, response_final) := record in
  if negb (correlation =? 0) then
    match dispatch_correlated st correlation payload response_final with
    | Ok (st', e) => stepped sh st' e
    | Err _ => disconnect sh st []
    end
  else
    let '(sh', st', e, completed) := dispatch sh st mt payload in
    if completed : bool then send_next_queued sh' st' mt e else stepped sh' st' e.

(** [for record in records { .. }]. *)
Fixpoint handle_records (sh : Shared) (st : SessionState) (records : list IncomingRecord)
    (e : list Effect) : Stepped :=
  match records with
  | [] => stepped sh st e
  | record :: records' =>
      let s := handle_record sh st record in
      match st_result s with
      | Some result =>
          {| st_shared := st_shared s; st_session := st_session s;
             st_effects := e ++ st_effects s; st_result := Some result |}
      | None => handle_records (st_shared s) (st_session s) records' (e ++ st_effects s)
      end
  end.

(** The body of the read branch on a whole frame; the flag says the frame
    decoded (the WebSocket loop then resets its heartbeat). *)
Definition handle_frame (sh : Shared) (st : SessionState) (frame : bytes) : Stepped * bool :=
  match decode_incoming sh frame with
  | Err _ => (disconnect sh st [], false)
  | Ok (sh', e, records) => (handle_records sh' st records e, true)
  end.

(** ** [run_io] *)

Inductive IoEvent : Set :=
| IoCommand (command : option Command)
| IoCancel (id : N)
| IoFrame (frame : Result bytes).

Definition io_step (session_generation : N) (sh : Shared) (st : SessionState) (event : IoEvent) :
    Stepped :=
  match event with
  | IoCommand command => fst (handle_command sh st session_generation command)
  | IoCancel id => let '(st', e) := handle_cancellation st id in stepped sh st' e
  | IoFrame (Ok frame) => fst (handle_frame sh st frame)
  | IoFrame (Err _) => disconnect sh st []
  end.

(** The loop, over the events [select!] takes one by one. *)
Fixpoint run_io_from (session_generation : N) (sh : Shared) (st : SessionState)
    (events : list IoEvent) (e : list Effect) : Stepped :=
  match events with
  | [] => stepped sh st e
  | event :: events' =>
      let s := io_step session_generation sh st event in
      match st_result s with
      | Some result =>
          {| st_shared := st_shared s; st_session := st_session s;
             st_effects := e ++ st_effects s; st_result := Some result |}
      | None => run_io_from session_generation (st_shared s) (st_session s) events' (e ++ st_effects s)
      end
  end.

Definition run_io (sh : Shared) (events : list IoEvent) : Stepped :=
  run_io_from (generation sh) sh SessionState_new events [].

(** ** [run_websocket]

    The loop adds a heartbeat timer and the pong it awaits. *)

Record Heartbeat : Set := { awaiting_pong : bool; deadline : duration }.

Inductive WsMessage : Set :=
| Binary (frame : bytes)
| Ping (payload : bytes)
| Pong (payload : bytes)
| OtherMessage.

Inductive WsEvent : Set :=
| WsCommand (command : option Command)
| WsCancel (id : N)
| WsMessageIn (message : option (result bytes WsMessage))
| WsHeartbeat.

Context (options : HeartbeatOptions) (control : Effect -> bool).

(** [heartbeat.reset(now + idle_interval)], with the awaited pong [p]. *)
Definition reset_idle (p : bool) (now : duration) : Heartbeat :=
  {| awaiting_pong := p; deadline := now + idle_interval options |}.

(** One branch of the loop at time [now]; [None] is a branch that [select!] does
    not enable (the heartbeat, before its deadline or when disabled).
    [control] says whether the transport accepts a Ping or a Pong. *)
Definition ws_step (session_generation : N) (sh : Shared) (st : SessionState) (hb : Heartbeat)
    (now : duration) (event : WsEvent) : option (Stepped * Heartbeat) :=
  match event with
  | WsCommand command =>
      let '(s, completed) := handle_command sh st session_generation command in
      Some (s, if completed : bool then reset_idle false now else hb)
  | WsCancel id => let '(st', e) := handle_cancellation st id in Some (stepped sh st' e, hb)
  | WsMessageIn (Some (Ok (Binary frame))) =>
      let '(s, decoded) := handle_frame sh st frame in
      Some (s, if decoded : bool then reset_idle false now else hb)
  | WsMessageIn (Some (Ok (Ping payload))) =>
      if control (WritePong payload)
      then Some (stepped sh st [WritePong payload], reset_idle (awaiting_pong hb) now)
      else Some (disconnect sh st [WritePong payload], hb)
  | WsMessageIn (Some (Ok (Pong _))) => Some (stepped sh st [], reset_idle false now)
  | WsMessageIn (Some (Ok OtherMessage)) => Some (stepped sh st [], reset_idle (awaiting_pong hb) now)
  | WsMessageIn _ => Some (disconnect sh st [], hb)
  | WsHeartbeat =>
      if negb (heartbeat_enabled options) || (now <? deadline hb) then None
      else if awaiting_pong hb then Some (disconnect sh st [], hb)
      else if negb (control WritePing) then Some (disconnect sh st [WritePing], hb)
      else Some (stepped sh st [WritePing],
                 {| awaiting_pong := true; deadline := now + heartbeat_timeout options |})
  end.

End Commands.
