(* ===== verification/SessionFacts.v ===== *)
(** * SessionFacts

    What holds of the session task of [Session]: every responder it is handed
    is settled exactly once, the established session never leaves the
    correlated path or the negotiated limits, requests and responses are paired
    by correlation id, and what a reused correlation id does. *)

From S2P Require Import Prelude Errors Protocol Codec Wire3 Shared Session.
Import message_type.

(** ** Specification vocabulary *)

(** The values of a map, flattened. *)
Definition flat {Q B : Type} (f : Q -> list B) (m : gmap N Q) : list B :=
  concat (map (fun kv => f kv.2) (map_to_list m)).

Definition pending_owned (queue : list PendingRequest) : list responder := omap pr_response queue.
Definition queued_owned (queue : list QueuedRequest) : list responder := omap q_response queue.
Definition slot_owned (slot : PendingRequest) : list responder := option_list (pr_response slot).

(** The responders a session holds. *)
Definition owned (st : SessionState) : list responder :=
  flat pending_owned (pending st) ++ flat slot_owned (correlated st) ++ flat queued_owned (queued st).

(** The responders an effect answers or drops, and those a command brings. *)
Definition settles (e : Effect) : option responder :=
  match e with
  | Reply r _ | ReplyUnit r _ | DropResponder r => Some r
  | _ => None
  end.
Definition settled (es : list Effect) : list responder := omap settles es.
Definition command_responders (command : option Command) : list responder :=
  match command with
  | Some (Connect r) | Some (Request _ _ _ _ _ r) | Some (Send _ _ _ _ r) | Some (Close r) => [r]
  | None => []
  end.
Definition io_responders (event : IoEvent) : list responder :=
  match event with IoCommand command => command_responders command | _ => [] end.
Definition ws_responders (event : WsEvent) : list responder :=
  match event with WsCommand command => command_responders command | _ => [] end.

(** An established Wire 3 session: the broker's HELLO was applied, so requests
    take the correlated path only, within the negotiated in-flight limit. *)
Definition established (sh : Shared) (st : SessionState) : Prop :=
  supervisor_correlation_enabled sh = true /\ pending st = ∅ /\ queued st = ∅
  /\ N.of_nat (size (correlated st)) <= max_in_flight sh
  /\ (forall id slot, correlated st !! id = Some slot -> pr_id slot = id).

(** The limits a session negotiated. *)
Definition same_limits (a b : Shared) : Prop :=
  capabilities b = capabilities a /\ max_message_bytes b = max_message_bytes a
  /\ max_in_flight b = max_in_flight a.

Definition written (es : list Effect) : list bytes :=
  omap (fun e => match e with Write frame => Some frame | _ => None end) es.
(** A frame the broker may be sent: well-formed and within its limit. *)
Definition sendable (sh : Shared) (frame : bytes) : Prop :=
  blen frame <= max_message_bytes sh /\ exists header, decode_frame_header frame = Ok header.

(** [before], with the responders [brought], became [s]. *)
Definition conserves (before : list responder) (brought : list responder) (s : Stepped) : Prop :=
  before ++ brought ≡ₚ owned (st_session s) ++ settled (st_effects s)
  /\ (st_result s <> None -> owned (st_session s) = []).

(** ** Flattened maps *)

Section Flat.
Context {Q B : Type} (f : Q -> list B).

Lemma flat_empty : flat f ∅ = [].
Proof. unfold flat. by rewrite map_to_list_empty. Qed.

Lemma flat_list_perm l1 l2 :
  l1 ≡ₚ l2 ->
  concat (map (fun kv : N * Q => f kv.2) l1) ≡ₚ concat (map (fun kv : N * Q => f kv.2) l2).
Proof.
  induction 1; cbn; [done | by f_equiv | | by etrans].
  rewrite !app_assoc. f_equiv. apply Permutation_app_comm.
Qed.

Lemma flat_delete m k q : m !! k = Some q -> flat f m ≡ₚ f q ++ flat f (base.delete k m).
Proof.
  intros H. symmetry. exact (flat_list_perm _ _ (map_to_list_delete m k q H)).
Qed.

Lemma flat_insert m k q : flat f (<[k := q]> m) ≡ₚ f q ++ flat f (base.delete k m).
Proof.
  rewrite (flat_delete (<[k := q]> m) k q) by apply lookup_insert_eq.
  by rewrite delete_insert_eq.
Qed.

Lemma flat_delete_none m k : m !! k = None -> flat f (base.delete k m) = flat f m.
Proof. intros H. by rewrite delete_id. Qed.
End Flat.

Lemma settled_app a b : settled (a ++ b) = settled a ++ settled b.
Proof. apply omap_app. Qed.

Lemma settled_drop_opt r : settled (drop_opt r) = option_list r.
Proof. by destruct r. Qed.
Lemma settled_reply_opt r x : settled (reply_opt r x) = option_list r.
Proof. by destruct r. Qed.

Lemma settled_concat {Q} (f : Q -> list Effect) (g : Q -> list responder) l :
  (forall q, settled (f q) = g q) -> settled (concat (map f l)) = concat (map g l).
Proof.
  intros H. induction l as [|q l IH]; [done|]. cbn. by rewrite settled_app, IH, H.
Qed.

Lemma omap_concat_opt {Q} (g : Q -> option responder) l :
  omap g l = concat (map (fun q => option_list (g q)) l).
Proof. induction l as [|q l IH]; [done|]. cbn. rewrite <- IH. by destruct (g q). Qed.

Lemma concat_concat_map {Q B} (g : Q -> list B) (ls : list (list Q)) :
  concat (map g (concat ls)) = concat (map (fun l => concat (map g l)) ls).
Proof.
  induction ls as [|l ls IH]; [done|]. cbn. by rewrite map_app, concat_app, IH.
Qed.

Lemma fail_all_settles st st' e :
  fail_all st = (st', e) -> owned st' = [] /\ settled e = owned st.
Proof.
  unfold fail_all. intros [= <- <-]. split.
  - unfold owned. cbn. by rewrite !flat_empty.
  - unfold owned, flat, fail_pending. rewrite !settled_app.
    rewrite !(settled_concat (fun slot => fail_slot (pr_response slot)) slot_owned)
      by (intros; apply settled_reply_opt).
    rewrite (settled_concat (fun slot => fail_slot (q_response slot)) (fun s => option_list (q_response s)))
      by (intros; apply settled_reply_opt).
    rewrite !concat_concat_map, !map_map.
    f_equal; [|f_equal]; f_equal; apply map_ext; intros [k q]; cbn;
      symmetry; apply omap_concat_opt.
Qed.

Lemma conserves_disconnect before brought sh st e :
  before ++ brought ≡ₚ owned st ++ settled e -> conserves before brought (disconnect sh st e).
Proof.
  intros H. unfold disconnect. destruct (fail_all st) as [st' failed] eqn:E.
  apply fail_all_settles in E as [E1 E2]. split; cbn; [|done].
  rewrite E1, settled_app, E2, H. cbn. apply Permutation_app_comm.
Qed.

Lemma conserves_stepped before brought sh st e :
  before ++ brought ≡ₚ owned st ++ settled e -> conserves before brought (stepped sh st e).
Proof. intros H. split; cbn; [done|]. by intros []. Qed.

(** ** How each change of the maps moves responders *)

Lemma owned_canceled c st : owned (set_canceled c st) = owned st.
Proof. done. Qed.

Lemma owned_correlated_insert st k slot :
  owned (set_correlated (<[k := slot]> (correlated st)) st)
    ++ match correlated st !! k with Some old => slot_owned old | None => [] end
  ≡ₚ owned st ++ slot_owned slot.
Proof.
  unfold owned. cbn. rewrite flat_insert. destruct (correlated st !! k) as [old|] eqn:E.
  - rewrite (flat_delete _ _ _ _ E). solve_Permutation.
  - rewrite flat_delete_none by done. solve_Permutation.
Qed.

(** [swapped before out after in_]: the responders [out] left the session and
    [in_] entered it. *)
Definition swapped (before out after in_ : list responder) : Prop := after ++ out ≡ₚ before ++ in_.

Lemma flat_insert_swap {Q B} (f : Q -> list B) m k q :
  flat f (<[k := q]> m) ++ match m !! k with Some old => f old | None => [] end ≡ₚ flat f m ++ f q.
Proof.
  rewrite flat_insert. destruct (m !! k) as [old|] eqn:E.
  - rewrite (flat_delete _ _ _ _ E). solve_Permutation.
  - rewrite flat_delete_none by done. solve_Permutation.
Qed.

Lemma perm_middle {B} (x y a a' o n : list B) :
  a' ++ o ≡ₚ a ++ n -> (x ++ a' ++ y) ++ o ≡ₚ (x ++ a ++ y) ++ n.
Proof.
  intros H. transitivity (x ++ (a' ++ o) ++ y); [solve_Permutation|]. rewrite H. solve_Permutation.
Qed.

Lemma owned_pending_insert st k queue :
  owned (set_pending (<[k := queue]> (pending st)) st)
    ++ pending_owned (default [] (pending st !! k))
  ≡ₚ owned st ++ pending_owned queue.
Proof.
  unfold owned. cbn. pose proof (flat_insert_swap pending_owned (pending st) k queue) as H.
  replace (pending_owned (default [] (pending st !! k)))
    with (match pending st !! k with Some old => pending_owned old | None => [] end)
    by (by destruct (pending st !! k)).
  exact (perm_middle [] _ _ _ _ _ H).
Qed.

Lemma owned_queued_insert st k queue :
  owned (set_queued (<[k := queue]> (queued st)) st)
    ++ queued_owned (default [] (queued st !! k))
  ≡ₚ owned st ++ queued_owned queue.
Proof.
  unfold owned. cbn. pose proof (flat_insert_swap queued_owned (queued st) k queue) as H.
  replace (queued_owned (default [] (queued st !! k)))
    with (match queued st !! k with Some old => queued_owned old | None => [] end)
    by (by destruct (queued st !! k)).
  pose proof (perm_middle (flat pending_owned (pending st) ++ flat slot_owned (correlated st)) []
    _ _ _ _ H) as H'. rewrite !app_nil_r, <- !app_assoc in H'. by rewrite <- !app_assoc.
Qed.

Lemma cancel_in_queue_owned queue id queue' e :
  cancel_in_queue queue id = Some (queue', e) ->
  pending_owned queue ≡ₚ pending_owned queue' ++ settled e.
Proof.
  revert queue' e. induction queue as [|[i r] queue IH]; intros queue' e; cbn; [done|].
  destruct (i =? id).
  - intros [= <- <-]. rewrite settled_drop_opt. cbn. destruct r; cbn; [|by rewrite app_nil_r].
    apply Permutation_cons_append.
  - destruct (cancel_in_queue queue id) as [[q e0]|]; [|done]. intros [= <- <-].
    cbn. destruct r; cbn; [f_equiv|]; by apply IH.
Qed.

Lemma remove_from_queue_owned queue id queue' e :
  remove_from_queue queue id = Some (queue', e) ->
  queued_owned queue ≡ₚ queued_owned queue' ++ settled e.
Proof.
  revert queue' e. induction queue as [|[i p r] queue IH]; intros queue' e; cbn; [done|].
  destruct (i =? id).
  - intros [= <- <-]. rewrite settled_drop_opt. cbn. destruct r; cbn; [|by rewrite app_nil_r].
    apply Permutation_cons_append.
  - destruct (remove_from_queue queue id) as [[q e0]|]; [|done]. intros [= <- <-].
    cbn. destruct r; cbn; [f_equiv|]; by apply IH.
Qed.

Lemma first_queue_spec {Q} f (m : gmap N (list Q)) entries m' e :
  first_queue f entries m = Some (m', e) ->
  exists k queue queue', (k, queue) ∈ entries /\ f queue = Some (queue', e) /\ m' = <[k := queue']> m.
Proof.
  induction entries as [|[k queue] entries IH]; cbn; [done|].
  destruct (f queue) as [[queue' e0]|] eqn:E.
  - intros [= <- <-]. exists k, queue, queue'. split; [apply list_elem_of_here | done].
  - intros (k' & q & q' & Hin & ? & ?)%IH. exists k', q, q'. split; [by apply list_elem_of_further | done].
Qed.

Lemma cancel_all_pending_owned st id st' e :
  cancel_all_pending st id = Some (st', e) -> owned st ≡ₚ owned st' ++ settled e.
Proof.
  unfold cancel_all_pending. destruct (correlated st !! id) as [slot|] eqn:Ec.
  - intros [= <- <-]. rewrite settled_drop_opt.
    pose proof (owned_correlated_insert st id {| pr_id := pr_id slot; pr_response := None |}) as H.
    rewrite Ec in H. unfold slot_owned in H. cbn in H. rewrite app_nil_r in H. by rewrite <- H.
  - unfold cancel_pending. destruct (first_queue _ _ (pending st)) as [[p e0]|] eqn:Ep.
    + intros [= <- <-]. apply first_queue_spec in Ep as (k & q & q' & Hin & Hf & ->).
      apply elem_of_map_to_list in Hin. apply cancel_in_queue_owned in Hf.
      pose proof (owned_pending_insert st k q') as H. rewrite Hin in H. cbn in H.
      rewrite Hf in H.
      apply (Permutation_app_inv_r (pending_owned q')). rewrite <- H. solve_Permutation.
    + destruct (first_queue _ _ (queued st)) as [[qs e0]|] eqn:Eq; [|done].
      intros [= <- <-]. apply first_queue_spec in Eq as (k & q & q' & Hin & Hf & ->).
      apply elem_of_map_to_list in Hin. apply remove_from_queue_owned in Hf.
      pose proof (owned_queued_insert st k q') as H. rewrite Hin in H. cbn in H.
      rewrite Hf in H.
      apply (Permutation_app_inv_r (queued_owned q')). rewrite <- H. solve_Permutation.
Qed.

Lemma handle_cancellation_conserves sh st id :
  let '(st', e) := handle_cancellation st id in conserves (owned st) [] (stepped sh st' e).
Proof.
  unfold handle_cancellation. destruct (cancel_all_pending st id) as [[st' e]|] eqn:E.
  - apply conserves_stepped. rewrite app_nil_r. by eapply cancel_all_pending_owned.
  - by apply conserves_stepped.
Qed.

(** ** Conservation, step by step *)

Section Conservation.
Context (transport : bytes -> Result unit).

Lemma write_legacy_settles mt payload e w : write_legacy transport mt payload = (e, w) -> settled e = [].
Proof. unfold write_legacy. destruct (try_encode_message_frame mt payload); by intros [= <- <-]. Qed.

(** The responder a request keeps, given whether its id was canceled: what the
    arm drops at once and what it goes on with. *)
Lemma request_responder (b : bool) (r : responder) :
  settled (if b then [DropResponder r] else []) ++ option_list (if b then None else Some r) = [r].
Proof. by destruct b. Qed.

(** The three ways a request goes on with its responder, from the state [st]
    whose effects so far settled what it dropped. *)
Lemma correlated_arm_conserves sh st id response dropped frame r :
  settled dropped ++ option_list response = [r] ->
  conserves (owned st) [r]
    (fst (let overwritten := match correlated st !! id with Some slot => drop_opt (pr_response slot) | None => [] end in
          let st := set_correlated (<[id := {| pr_id := id; pr_response := response |}]> (correlated st)) st in
          let e := dropped ++ overwritten ++ [Write frame] in
          if is_ok (transport frame) then (stepped sh st e, true) else (disconnect sh st e, false))).
Proof.
  intros Hr. cbn zeta. set (slot := {| pr_id := id; pr_response := response |}).
  pose proof (owned_correlated_insert st id slot) as Hins.
  set (st1 := set_correlated (<[id := slot]> (correlated st)) st) in *.
  set (over := match correlated st !! id with Some old => drop_opt (pr_response old) | None => [] end).
  assert (Hover : settled over = match correlated st !! id with Some old => slot_owned old | None => [] end).
  { unfold over. destruct (correlated st !! id); [apply settled_drop_opt | done]. }
  assert (Hp : owned st ++ [r] ≡ₚ owned st1 ++ settled (dropped ++ over ++ [Write frame])).
  { rewrite !settled_app, Hover, app_nil_r, <- Hr.
    transitivity ((owned st ++ slot_owned slot) ++ settled dropped); [solve_Permutation|].
    rewrite <- Hins. solve_Permutation. }
  destruct (is_ok _); [by apply conserves_stepped | by apply conserves_disconnect].
Qed.

Lemma legacy_arm_conserves sh st id mt payload response dropped r :
  settled dropped ++ option_list response = [r] -> pending_owned (default [] (pending st !! mt)) = [] ->
  conserves (owned st) [r]
    (fst (let st := set_pending (<[mt := [{| pr_id := id; pr_response := response |}]]> (pending st)) st in
          let '(e, written) := write_legacy transport mt payload in
          if is_ok written then (stepped sh st (dropped ++ e), true)
          else (disconnect sh st (dropped ++ e), false))).
Proof.
  intros Hr Eo. pose proof (owned_pending_insert st mt [{| pr_id := id; pr_response := response |}]) as H.
  rewrite Eo, app_nil_r in H. cbn zeta. set (st1 := set_pending _ st) in *.
  destruct (write_legacy _ _ _) as [e w] eqn:Ew. apply write_legacy_settles in Ew.
  assert (Hp : owned st ++ [r] ≡ₚ owned st1 ++ settled (dropped ++ e)).
  { rewrite settled_app, Ew, app_nil_r, H, <- Hr.
    replace (pending_owned _) with (option_list response) by (by destruct response). solve_Permutation. }
  destruct (is_ok w); [by apply conserves_stepped | by apply conserves_disconnect].
Qed.

Lemma queued_arm_conserves sh st id mt payload response dropped r :
  settled dropped ++ option_list response = [r] ->
  conserves (owned st) [r]
    (stepped sh (set_queued (<[mt := default [] (queued st !! mt)
                                 ++ [{| q_id := id; q_payload := payload; q_response := response |}]]> (queued st)) st)
       dropped).
Proof.
  intros Hr. apply conserves_stepped.
  pose proof (owned_queued_insert st mt
    (default [] (queued st !! mt) ++ [{| q_id := id; q_payload := payload; q_response := response |}])) as H.
  set (st1 := set_queued _ st) in *.
  unfold queued_owned in H at 2. rewrite omap_app in H. fold (queued_owned (default [] (queued st !! mt))) in H.
  replace (omap q_response [_]) with (option_list response) in H by (by destruct response).
  apply (Permutation_app_inv_r (queued_owned (default [] (queued st !! mt)))).
  transitivity ((owned st ++ queued_owned (default [] (queued st !! mt)) ++ option_list response) ++ settled dropped).
  - rewrite <- Hr. solve_Permutation.
  - rewrite <- H. solve_Permutation.
Qed.

Lemma handle_request_conserves sh st g id gen mt fl payload r :
  conserves (owned st) [r] (fst (handle_request transport sh st g id gen mt fl payload r)).
Proof.
  unfold handle_request. destruct (negb (gen =? g)); [by apply conserves_stepped|].
  set (b := bool_decide (id ∈ canceled st)). pose proof (request_responder b r) as Hr.
  set (dropped := if b then [DropResponder r] else []) in *.
  set (response := if b then None else Some r) in *. clearbody dropped response b.
  set (st0 := set_canceled (canceled st ∖ {[id]}) st). change (owned st) with (owned st0).
  assert (Hreply : forall x, owned st0 ++ [r] ≡ₚ owned st0 ++ settled (dropped ++ reply_opt response x)).
  { intros x. by rewrite settled_app, settled_reply_opt, Hr. }
  destruct (supervisor_correlation_enabled sh).
  - destruct (_ <=? _); [by apply conserves_stepped|].
    destruct (encode_outbound _ _ _ _ _) as [frame|err]; [|by apply conserves_stepped].
    by apply correlated_arm_conserves.
  - destruct (pending st0 !! mt) as [[|p q]|] eqn:Eq.
    + apply legacy_arm_conserves; [done | by rewrite Eq].
    + by apply queued_arm_conserves.
    + apply legacy_arm_conserves; [done | by rewrite Eq].
Qed.

Lemma handle_command_conserves sh st g command :
  conserves (owned st) (command_responders command) (fst (handle_command transport sh st g command)).
Proof.
  destruct command as [[r|id gen mt fl p r|id gen mt p r|r]|]; cbn [handle_command fst command_responders].
  - by apply conserves_stepped.
  - apply handle_request_conserves.
  - unfold handle_send. destruct (negb _); [by apply conserves_stepped|].
    destruct (encode_outbound _ _ _ _ _); by apply conserves_stepped.
  - unfold handle_close. destruct (fail_all st) as [st' failed] eqn:E.
    apply fail_all_settles in E as [E1 E2]. split; cbn; [|done].
    rewrite E1, settled_app, E2. cbn. rewrite app_nil_r. by rewrite Permutation_app_comm.
  - unfold handle_channel_closed. destruct (fail_all st) as [st' failed] eqn:E.
    apply fail_all_settles in E as [E1 E2]. split; cbn; [|done].
    fold (settled failed). by rewrite E1, E2, app_nil_r.
Qed.

Lemma send_next_queued_conserves before sh st mt e :
  before ≡ₚ owned st ++ settled e -> conserves before [] (send_next_queued transport sh st mt e).
Proof.
  intros Hb. unfold send_next_queued.
  destruct (queued st !! mt) as [[|next rest]|] eqn:Eq;
    try (apply conserves_stepped; by rewrite app_nil_r).
  pose proof (owned_queued_insert st mt rest) as H1. rewrite Eq in H1. cbn [default from_option id] in H1.
  set (st1 := set_queued (<[mt := rest]> (queued st)) st) in *.
  set (q := default [] (pending st1 !! mt)) in *.
  set (slot := {| pr_id := q_id next; pr_response := q_response next |}).
  pose proof (owned_pending_insert st1 mt (q ++ [slot])) as H2.
  set (st2 := set_pending (<[mt := q ++ [slot]]> (pending st1)) st1) in *.
  destruct (write_legacy _ _ _) as [e' w] eqn:Ew. apply write_legacy_settles in Ew.
  assert (Hp : before ++ [] ≡ₚ owned st2 ++ settled (e ++ e')).
  { rewrite settled_app, Ew, !app_nil_r, Hb. f_equiv.
    unfold pending_owned in H2 at 2. rewrite omap_app in H2. fold (pending_owned q) in H2.
    apply (Permutation_app_inv_r (pending_owned q)). fold q in H2. rewrite H2.
    replace (omap pr_response [slot]) with (option_list (q_response next)) by (unfold slot; by destruct next as [? ? []]).
    apply (Permutation_app_inv_r (queued_owned rest)).
    transitivity ((owned st ++ queued_owned rest) ++ pending_owned q); [solve_Permutation|].
    rewrite <- H1. destruct next as [? ? []]; cbn; [|solve_Permutation].
    change (queued_owned (?x :: ?l)) with (option_list (q_response x) ++ queued_owned l).
    solve_Permutation. }
  destruct (is_ok w); [by apply conserves_stepped | by apply conserves_disconnect].
Qed.

Lemma handle_record_conserves sh st record :
  conserves (owned st) [] (handle_record transport sh st record).
Proof.
  destruct record as [[[mt payload] correlation] final]. unfold handle_record.
  destruct (negb (correlation =? 0)).
  - unfold dispatch_correlated. destruct (correlated st !! correlation) as [slot|] eqn:Ec.
    + destruct final; [|by apply conserves_stepped]. apply conserves_stepped.
      rewrite settled_reply_opt, app_nil_r. unfold owned. cbn.
      rewrite (flat_delete slot_owned _ _ _ Ec). unfold slot_owned at 1. solve_Permutation.
    + by apply conserves_disconnect.
  - unfold dispatch. destruct (pending st !! mt) as [[|slot queue]|] eqn:Ep; cbn [publish_notification];
      try (by apply conserves_stepped).
    apply send_next_queued_conserves. rewrite settled_reply_opt.
    pose proof (owned_pending_insert st mt queue) as H. rewrite Ep in H.
    cbn [default from_option id] in H.
    apply (Permutation_app_inv_r (pending_owned queue)). rewrite <- H.
    destruct slot as [i [r|]]; cbn [pr_response option_list]; [|solve_Permutation].
    change (pending_owned ({| pr_id := i; pr_response := Some r |} :: queue)) with ([r] ++ pending_owned queue).
    solve_Permutation.
Qed.

(** Sequencing: effects so far, then the next step. *)
Lemma conserves_then before brought1 brought2 st e s :
  before ++ brought1 ≡ₚ owned st ++ settled e -> conserves (owned st) brought2 s ->
  conserves before (brought1 ++ brought2)
    {| st_shared := st_shared s; st_session := st_session s; st_effects := e ++ st_effects s;
       st_result := st_result s |}.
Proof.
  intros H1 [H2 H3]. split; cbn; [|done].
  rewrite settled_app, app_assoc, H1.
  transitivity (settled e ++ (owned st ++ brought2)); [solve_Permutation|]. rewrite H2. solve_Permutation.
Qed.

Lemma handle_records_conserves records : forall before sh st e,
  before ≡ₚ owned st ++ settled e -> conserves before [] (handle_records transport sh st records e).
Proof.
  induction records as [|record records IH]; intros before sh st e H; cbn [handle_records].
  - apply conserves_stepped. by rewrite app_nil_r.
  - pose proof (handle_record_conserves sh st record) as Hs.
    pose proof (conserves_then before [] [] st e _ ltac:(by rewrite app_nil_r) Hs) as Hc.
    destruct (st_result (handle_record transport sh st record)) eqn:Er; [exact Hc|].
    apply IH. destruct Hc as [Hc _]. by rewrite app_nil_r in Hc.
Qed.

Lemma handle_frame_conserves sh st frame :
  conserves (owned st) [] (fst (handle_frame transport sh st frame)).
Proof.
  unfold handle_frame. destruct (decode_incoming sh frame) as [[[sh' e] records]|] eqn:E.
  - apply handle_records_conserves. replace (settled e) with (@nil responder); [by rewrite app_nil_r|].
    revert E. unfold decode_incoming. destruct (_ <? _); [done|]. intros E. ok_inv E.
    destruct a0 as [payload mask]. destruct (_ =? HELLO).
    { destruct (_ || _); [done|]. ok_inv E. by injection E as <- <- <-. }
    destruct (_ =? GOAWAY). { destruct (control_misflagged _); [done|]. ok_inv E. by injection E as <- <- <-. }
    destruct (_ =? CONNECT_REJECTED); [done|]. by injection E as <- <- <-.
  - by apply conserves_disconnect.
Qed.
End Conservation.

(** ** Established sessions *)

Lemma same_limits_refl sh : same_limits sh sh.
Proof. done. Qed.

Lemma same_limits_trans a b c : same_limits a b -> same_limits b c -> same_limits a c.
Proof. intros (? & ? & ?) (? & ? & ?). split; [|split]; congruence. Qed.

Lemma established_same sh sh' st : same_limits sh sh' -> established sh st -> established sh' st.
Proof.
  unfold same_limits, established, supervisor_correlation_enabled. intros (-> & _ & ->). done.
Qed.

Lemma established_empty sh c : supervisor_correlation_enabled sh = true ->
  established sh {| pending := ∅; correlated := ∅; queued := ∅; canceled := c |}.
Proof. intros H. split; [done|]. repeat split; try done. cbn. rewrite map_size_empty. lia. Qed.

Lemma established_capabilities sh st : established sh st -> capabilities sh <> 0.
Proof. intros [H _] E. unfold supervisor_correlation_enabled in H. by rewrite E in H. Qed.

Lemma encode_outbound_ok sh mt fl c payload frame :
  mt < 2 ^ 16 -> fl < 2 ^ 8 -> c < 2 ^ 64 ->
  encode_outbound sh mt fl c payload = Ok frame ->
  sendable sh frame /\ decode_frame_header frame
    = Ok {| message_type := mt; flags := fl; correlation_id := c; payload_start := FRAME_HEADER_LEN |}
  /\ frame_payload {| message_type := mt; flags := fl; correlation_id := c;
                      payload_start := FRAME_HEADER_LEN |} frame = payload.
Proof.
  intros Hm Hf Hc H. unfold encode_outbound in H. apply result_bind_ok in H as (fr & He & H).
  destruct (N.ltb_spec (max_message_bytes sh) (blen fr)); [done|]. injection H as ->.
  set (h := {| message_type := mt; flags := fl; correlation_id := c; payload_start := FRAME_HEADER_LEN |}).
  destruct (decode_encoded mt fl c payload frame Hm Hf Hc He) as [Hd Hp].
  split; [|done]. split; [lia | eauto].
Qed.

(** A step that keeps an established session established and in its limits. *)
Definition keeps (sh : Shared) (s : Stepped) : Prop :=
  same_limits sh (st_shared s) /\ established (st_shared s) (st_session s)
  /\ Forall (sendable sh) (written (st_effects s)).

Lemma written_app a b : written (a ++ b) = written a ++ written b.
Proof. apply omap_app. Qed.
Lemma written_reply_opt r x : written (reply_opt r x) = [].
Proof. by destruct r. Qed.
Lemma written_drop_opt r : written (drop_opt r) = [].
Proof. by destruct r. Qed.
Lemma written_concat {Q} (f : Q -> list Effect) l :
  (forall q, written (f q) = []) -> written (concat (map f l)) = [].
Proof. intros H. induction l as [|q l IH]; [done|]. cbn. by rewrite written_app, IH, H. Qed.
Lemma written_fail_all st st' e : fail_all st = (st', e) -> written e = [].
Proof.
  unfold fail_all, fail_pending. intros [= _ <-]. rewrite !written_app.
  by rewrite !written_concat by (intros; apply written_reply_opt).
Qed.

Lemma keeps_stepped sh sh' st e :
  same_limits sh sh' -> established sh st -> Forall (sendable sh) (written e) ->
  keeps sh (stepped sh' st e).
Proof. intros. split; [done|]. split; [by eapply established_same | done]. Qed.

Lemma keeps_fail_all sh sh' st st' e failed r :
  same_limits sh sh' -> established sh st -> fail_all st = (st', failed) ->
  Forall (sendable sh) (written e) ->
  forall e', written e' = [] ->
  keeps sh {| st_shared := sh'; st_session := st'; st_effects := e ++ failed ++ e'; st_result := r |}.
Proof.
  intros Hl Hs Hf He e' He'. split; [done|]. split.
  - eapply established_same; [exact Hl|]. unfold fail_all in Hf. injection Hf as <- _.
    apply established_empty, Hs.
  - cbn. rewrite !written_app, (written_fail_all _ _ _ Hf), He', !app_nil_r. done.
Qed.

Lemma keeps_disconnect sh sh' st e :
  same_limits sh sh' -> established sh st -> Forall (sendable sh) (written e) ->
  keeps sh (disconnect sh' st e).
Proof.
  intros. unfold disconnect. destruct (fail_all st) as [st' failed] eqn:E.
  rewrite <- (app_nil_r failed). by eapply keeps_fail_all.
Qed.

(** The widths of a command's fields. *)
Definition command_wf (command : option Command) : Prop :=
  match command with
  | Some (Request id _ mt fl _ _) => id < 2 ^ 64 /\ mt < 2 ^ 16 /\ fl < 2 ^ 8
  | Some (Send id _ mt _ _) => id < 2 ^ 64 /\ mt < 2 ^ 16
  | _ => True
  end.

Lemma established_insert sh st id r :
  established sh st -> N.of_nat (size (correlated st)) < max_in_flight sh ->
  established sh (set_correlated (<[id := {| pr_id := id; pr_response := r |}]> (correlated st)) st).
Proof.
  intros (H1 & H2 & H3 & H4 & H5) Hs. repeat split; try done.
  - cbn. destruct (correlated st !! id) eqn:E.
    + rewrite map_size_insert_Some by done. lia.
    + rewrite map_size_insert_None by done. lia.
  - cbn. intros k slot. destruct (decide (k = id)) as [->|].
    + rewrite lookup_insert_eq. by intros [= <-].
    + rewrite lookup_insert_ne by done. apply H5.
Qed.

Section Established.
Context (transport : bytes -> Result unit).

Lemma handle_request_keeps sh st g id gen mt fl payload r :
  established sh st -> id < 2 ^ 64 -> mt < 2 ^ 16 -> fl < 2 ^ 8 ->
  keeps sh (fst (handle_request transport sh st g id gen mt fl payload r)).
Proof.
  intros He Hid Hmt Hfl. unfold handle_request.
  destruct (negb (gen =? g)); [by apply keeps_stepped; [| | constructor]|].
  set (b := bool_decide _). set (st0 := set_canceled _ st).
  assert (He0 : established sh st0) by done.
  assert (Hd : written (if b then [DropResponder r] else []) = []) by (by destruct b).
  destruct He as (-> & _). 
  destruct (N.leb_spec (max_in_flight sh) (N.of_nat (size (correlated st0)))).
  { apply keeps_stepped; [done..|]. rewrite written_app, Hd, written_reply_opt. constructor. }
  destruct (encode_outbound sh mt fl id payload) as [frame|err] eqn:Ef.
  2: { apply keeps_stepped; [done..|]. rewrite written_app, Hd, written_reply_opt. constructor. }
  apply encode_outbound_ok in Ef as (Hsend & _); [|done..].
  set (over := match correlated st0 !! id with Some slot => _ | None => _ end).
  assert (Ho : written over = []) by (unfold over; destruct (correlated st0 !! id); [apply written_drop_opt | done]).
  assert (Hw : Forall (sendable sh) (written ((if b then [DropResponder r] else []) ++ over ++ [Write frame]))).
  { rewrite !written_app, Hd, Ho. by constructor. }
  destruct (is_ok _); [apply keeps_stepped | apply keeps_disconnect]; try done;
    by apply established_insert.
Qed.

Lemma handle_command_keeps sh st g command :
  established sh st -> command_wf command ->
  keeps sh (fst (handle_command transport sh st g command)).
Proof.
  intros He Hwf. destruct command as [[r|id gen mt fl p r|id gen mt p r|r]|]; cbn [handle_command fst].
  - by apply keeps_stepped; [| | constructor].
  - destruct Hwf as (? & ? & ?). by apply handle_request_keeps.
  - destruct Hwf as [? ?]. unfold handle_send. destruct (negb _); [by apply keeps_stepped; [| | constructor]|].
    destruct (encode_outbound _ _ _ _ _) as [frame|] eqn:E; [|by apply keeps_stepped; [| | constructor]].
    apply encode_outbound_ok in E as (? & _); [| done | done | unfold send_correlation_id; by destruct (_ || _)].
    apply keeps_stepped; [done..|]. by apply (Forall_singleton (sendable sh)).
  - unfold handle_close. destruct (fail_all st) as [st' failed] eqn:E. by eapply keeps_fail_all.
  - unfold handle_channel_closed. destruct (fail_all st) as [st' failed] eqn:E.
    rewrite <- (app_nil_r failed). by eapply (keeps_fail_all _ _ _ _ [Shutdown]).
Qed.

Lemma handle_cancellation_keeps sh st id :
  established sh st -> let '(st', e) := handle_cancellation st id in keeps sh (stepped sh st' e).
Proof.
  intros He. pose proof He as (H1 & Hp & Hq & H4 & H5).
  unfold handle_cancellation, cancel_all_pending, cancel_pending.
  destruct (correlated st !! id) as [slot|] eqn:Ec.
  - apply keeps_stepped; [done | | rewrite written_drop_opt; constructor].
    split; [done|]. split; [done|]. split; [done|]. split.
    + cbn. rewrite map_size_insert_Some by done. done.
    + cbn. intros k s. destruct (decide (k = id)) as [->|].
      * rewrite lookup_insert_eq. intros [= <-]. exact (H5 _ _ Ec).
      * rewrite lookup_insert_ne by done. apply H5.
  - rewrite Hp, Hq, map_to_list_empty. apply keeps_stepped; [done | done | constructor].
Qed.

Lemma handle_record_keeps sh st record :
  established sh st -> keeps sh (handle_record transport sh st record).
Proof.
  intros He. pose proof He as (H1 & Hp & Hq & H4 & H5).
  destruct record as [[[mt payload] correlation] final]. unfold handle_record.
  destruct (negb (correlation =? 0)).
  - unfold dispatch_correlated. destruct (correlated st !! correlation) as [slot|] eqn:Ec.
    + destruct final; [|by apply keeps_stepped; [| | constructor]].
      apply keeps_stepped; [done | | rewrite written_reply_opt; constructor].
      repeat split; try done; cbn.
      * rewrite map_size_delete_Some by done. lia.
      * intros k s. rewrite lookup_delete_Some. intros [_ ?]. by apply H5.
    + apply keeps_disconnect; [done | done | constructor].
  - unfold dispatch. rewrite Hp, lookup_empty. cbn [publish_notification].
    by apply keeps_stepped; [| | constructor].
Qed.

Lemma handle_records_keeps records : forall sh sh0 st e,
  same_limits sh0 sh -> established sh st -> Forall (sendable sh0) (written e) ->
  keeps sh0 (handle_records transport sh st records e).
Proof.
  induction records as [|record records IH]; intros sh sh0 st e Hl He Hw; cbn [handle_records].
  - destruct Hl as (E1 & E2 & E3). apply keeps_stepped; [done | | done].
    by eapply established_same.
  - destruct (handle_record_keeps sh st record He) as (Kl & Ke & Kw).
    assert (Hl' : same_limits sh0 (st_shared (handle_record transport sh st record))).
    { by eapply same_limits_trans. }
    assert (Hw' : Forall (sendable sh0) (written (e ++ st_effects (handle_record transport sh st record)))).
    { rewrite written_app, Forall_app. split; [done|]. eapply Forall_impl; [exact Kw|].
      unfold sendable. destruct Hl as (_ & -> & _). done. }
    destruct (st_result (handle_record transport sh st record)); [|by apply IH].
    done.
Qed.

(** What an inbound frame can do to an established session's shared state. *)
Lemma decode_incoming_established sh frame sh' e records :
  capabilities sh <> 0 -> decode_incoming sh frame = Ok (sh', e, records) -> sh' = sh /\ written e = [].
Proof.
  intros Hc. unfold decode_incoming. destruct (_ <? _); [done|]. intros E. ok_inv E.
  destruct a0 as [payload mask]. destruct (_ =? HELLO).
  { destruct (_ || _); [done|]. ok_inv E. revert Ha1. unfold apply_server_hello.
    destruct (N.eqb_spec (capabilities sh) 0); done. }
  destruct (_ =? GOAWAY). { destruct (control_misflagged _); [done|]. ok_inv E. by injection E as <- <- <-. }
  destruct (_ =? CONNECT_REJECTED); [done|]. by injection E as <- <- <-.
Qed.

Lemma handle_frame_keeps sh st frame :
  established sh st -> keeps sh (fst (handle_frame transport sh st frame)).
Proof.
  intros He. unfold handle_frame. destruct (decode_incoming sh frame) as [[[sh' e] records]|] eqn:E.
  - apply decode_incoming_established in E as [-> Hw]; [|by eapply established_capabilities].
    apply handle_records_keeps; [done | done |]. rewrite Hw. constructor.
  - apply keeps_disconnect; [done | done | constructor].
Qed.

Lemma io_step_keeps g sh st event :
  established sh st -> match event with IoCommand c => command_wf c | _ => True end ->
  keeps sh (io_step transport g sh st event).
Proof.
  intros He Hwf. destruct event as [command|id|[frame|err]]; cbn [io_step].
  - by apply handle_command_keeps.
  - pose proof (handle_cancellation_keeps sh st id He). by destruct (handle_cancellation st id).
  - by apply handle_frame_keeps.
  - apply keeps_disconnect; [done | done | constructor].
Qed.
End Established.

(** ** Answers *)

(** The successful answers among effects. *)
Definition answers (es : list Effect) : list (responder * bytes) :=
  omap (fun e => match e with Reply r (Ok payload) => Some (r, payload) | _ => None end) es.

Lemma answers_app a b : answers (a ++ b) = answers a ++ answers b.
Proof. apply omap_app. Qed.

Lemma answers_reply r payload es : (r, payload) ∈ answers es <-> Reply r (Ok payload) ∈ es.
Proof.
  unfold answers. rewrite list_elem_of_omap. split.
  - intros (e & He & H). destruct e as [r' [p|]| | | | | | | |]; try done. by injection H as -> ->.
  - intros H. eexists. by split.
Qed.

Lemma answers_concat {Q} (f : Q -> list Effect) l :
  (forall q, answers (f q) = []) -> answers (concat (map f l)) = [].
Proof. intros H. induction l as [|q l IH]; [done|]. cbn. by rewrite answers_app, IH, H. Qed.

Lemma answers_fail_slot r : answers (fail_slot r) = [].
Proof. by destruct r. Qed.
Lemma answers_reply_err r e : answers (reply_opt r (Err e)) = [].
Proof. by destruct r. Qed.
Lemma answers_drop_opt r : answers (drop_opt r) = [].
Proof. by destruct r. Qed.

Lemma answers_disconnect sh st e : answers (st_effects (disconnect sh st e)) = answers e.
Proof.
  unfold disconnect, fail_all, fail_pending. cbn [st_effects]. rewrite !answers_app.
  by rewrite !answers_concat, !app_nil_r by (intros; apply answers_fail_slot).
Qed.

Create Rewrite HintDb answers.
#[local] Hint Rewrite answers_app answers_reply_err answers_drop_opt answers_disconnect : answers.

Lemma answers_handle_command transport sh st g command :
  established sh st -> answers (st_effects (fst (handle_command transport sh st g command))) = [].
Proof.
  intros He. destruct command as [[r|id gen mt fl p r|id gen mt p r|r]|]; cbn [handle_command fst]; [done| | | |].
  - unfold handle_request. destruct (negb (gen =? g)); [done|].
    destruct He as (-> & _). destruct (_ <=? _).
    { cbn [fst stepped st_effects]. autorewrite with answers. by destruct (bool_decide _). }
    destruct (encode_outbound _ _ _ _ _) as [frame|err].
    2: { cbn [fst stepped st_effects]. autorewrite with answers. by destruct (bool_decide _). }
    destruct (is_ok _); cbn [fst stepped st_effects]; autorewrite with answers;
      destruct (bool_decide _), (correlated _ !! id); autorewrite with answers; done.
  - unfold handle_send. destruct (negb _); [done|]. by destruct (encode_outbound _ _ _ _ _).
  - unfold handle_close, fail_all, fail_pending. cbn [st_effects]. cbn [answers omap list_omap].
    rewrite !answers_app. by rewrite !answers_concat by (intros; apply answers_fail_slot).
  - unfold handle_channel_closed, fail_all, fail_pending. cbn [st_effects].
    change (answers (?x :: ?l)) with (answers ([x] ++ l)).
    rewrite !answers_app. by rewrite !answers_concat by (intros; apply answers_fail_slot).
Qed.

Lemma answers_handle_cancellation st id : answers (handle_cancellation st id).2 = [].
Proof.
  unfold handle_cancellation, cancel_all_pending.
  destruct (correlated st !! id); [apply answers_drop_opt|].
  unfold cancel_pending. destruct (first_queue _ _ (pending st)) as [[p e]|] eqn:E.
  - apply first_queue_spec in E as (k & q & q' & _ & H & _). cbn. clear k. revert q' e H.
    induction q as [|slot q IH]; intros q' e; cbn; [done|].
    destruct (_ =? _); [intros [= _ <-]; apply answers_drop_opt|].
    destruct (cancel_in_queue q id) as [[q0 e0]|]; [|done]. intros [= _ <-]. by eapply IH.
  - destruct (first_queue _ _ (queued st)) as [[qs e]|] eqn:E'; [|done].
    apply first_queue_spec in E' as (k & q & q' & _ & H & _). cbn. clear k E. revert q' e H.
    induction q as [|slot q IH]; intros q' e; cbn; [done|].
    destruct (_ =? _); [intros [= _ <-]; apply answers_drop_opt|].
    destruct (remove_from_queue q id) as [[q0 e0]|]; [|done]. intros [= _ <-]. by eapply IH.
Qed.

(** Decoding answers nobody, and yields at most one record. *)
Lemma decode_incoming_shape sh frame sh' e records :
  decode_incoming sh frame = Ok (sh', e, records) ->
  answers e = [] /\ (records = [] \/ exists rec, records = [rec]).
Proof.
  unfold decode_incoming. destruct (_ <? _); [done|]. intros E. ok_inv E.
  destruct a0 as [pl mask]. destruct (_ =? HELLO).
  { destruct (_ || _); [done|]. ok_inv E. injection E as <- <- <-. auto. }
  destruct (_ =? GOAWAY). { destruct (control_misflagged _); [done|]. ok_inv E. injection E as <- <- <-. auto. }
  destruct (_ =? CONNECT_REJECTED); [done|]. injection E as <- <- <-. eauto.
Qed.

(** The caller a record answers, when the session is correlated. *)
Definition answered_by (st : SessionState) (record : IncomingRecord) : list (responder * bytes) :=
  let '(_, payload, correlation, fin) := record in
  if negb (correlation =? 0) && fin
  then match correlated st !! correlation with
       | Some slot => match pr_response slot with Some r => [(r, payload)] | None => [] end
       | None => []
       end
  else [].

Lemma handle_record_answers transport sh st record :
  pending st = ∅ -> answers (st_effects (handle_record transport sh st record)) = answered_by st record.
Proof.
  intros Hp. destruct record as [[[mt pl] c] fin]. unfold handle_record, answered_by.
  destruct (negb (c =? 0)); cbn [andb].
  - unfold dispatch_correlated. destruct (correlated st !! c) as [slot|].
    + destruct fin; [|done]. cbn [stepped st_effects]. by destruct (pr_response slot).
    + rewrite answers_disconnect. by destruct fin.
  - unfold dispatch. by rewrite Hp, lookup_empty.
Qed.

Lemma handle_records_answers transport sh st record e :
  answers e = [] ->
  answers (st_effects (handle_records transport sh st [record] e))
  = answers (st_effects (handle_record transport sh st record)).
Proof.
  intros Ha. cbn [handle_records]. destruct (st_result _); cbn [stepped st_effects]; by rewrite answers_app, Ha.
Qed.

Lemma handle_frame_answers transport sh st frame r payload :
  established sh st ->
  (r, payload) ∈ answers (st_effects (fst (handle_frame transport sh st frame))) <->
  exists frame0 sh' e mt correlation slot,
    IoFrame (Ok frame) = IoFrame (Ok frame0)
    /\ decode_incoming sh frame0 = Ok (sh', e, [(mt, payload, correlation, true)])
    /\ correlation <> 0 /\ correlated st !! correlation = Some slot /\ pr_response slot = Some r.
Proof.
  intros He. pose proof He as (_ & Hp & _). unfold handle_frame.
  destruct (decode_incoming sh frame) as [[[sh' e] records]|err] eqn:Ed.
  2: { cbn [fst]. rewrite answers_disconnect. split; [by intros ?%not_elem_of_nil|].
       intros (? & ? & ? & ? & ? & ? & [= <-] & ? & _). congruence. }
  destruct (decode_incoming_shape _ _ _ _ _ Ed) as [Ha [->|[rec ->]]]; cbn [fst].
  - cbn [handle_records stepped st_effects]. rewrite Ha. split; [by intros ?%not_elem_of_nil|].
    intros (? & ? & ? & ? & ? & ? & [= <-] & H & _). congruence.
  - rewrite handle_records_answers, handle_record_answers by done.
    destruct rec as [[[mt pl] c] fin]. unfold answered_by. destruct (N.eqb_spec c 0) as [->|Hc]; cbn [negb andb].
    { split; [by intros ?%not_elem_of_nil|].
      intros (? & ? & ? & ? & ? & ? & [= <-] & H & ? & _). congruence. }
    split.
    + destruct fin; [|by intros ?%not_elem_of_nil].
      destruct (correlated st !! c) as [slot|] eqn:Es; [|by intros ?%not_elem_of_nil].
      destruct (pr_response slot) as [r'|] eqn:Er; [|by intros ?%not_elem_of_nil].
      intros [= -> ->]%list_elem_of_singleton. exists frame, sh', e, mt, c, slot. done.
    + intros (f & sh'' & e' & mt' & c' & slot & [= <-] & H & _ & Hs & Hrs).
      rewrite Ed in H. injection H as <- <- <- <- <- ->. rewrite Hs, Hrs.
      by apply list_elem_of_singleton.
Qed.

Lemma session_step_established transport sh st id g mt fl payload r :
  established sh st -> id < 2 ^ 64 -> mt < 2 ^ 16 -> fl < 2 ^ 8 ->
  st_shared (io_step transport g sh st (IoCommand (Some (Request id g mt fl payload r)))) = sh ->
  established sh (st_session (io_step transport g sh st (IoCommand (Some (Request id g mt fl payload r))))).
Proof.
  intros He ? ? ? Hs. pose proof (io_step_keeps transport g sh st
    (IoCommand (Some (Request id g mt fl payload r))) He ltac:(done)) as (_ & Hk & _). by rewrite Hs in Hk.
Qed.

Lemma io_step_conserves transport g sh st event :
  conserves (owned st) (io_responders event) (io_step transport g sh st event).
Proof.
  destruct event as [command|id|[frame|err]]; cbn [io_step io_responders].
  - apply handle_command_conserves.
  - pose proof (handle_cancellation_conserves sh st id). by destruct (handle_cancellation st id).
  - apply handle_frame_conserves.
  - by apply conserves_disconnect.
Qed.

Lemma io_step_answers transport g sh st event r payload :
  established sh st ->
  (r, payload) ∈ answers (st_effects (io_step transport g sh st event)) <->
  exists frame sh' e mt correlation slot,
    event = IoFrame (Ok frame)
    /\ decode_incoming sh frame = Ok (sh', e, [(mt, payload, correlation, true)])
    /\ correlation <> 0 /\ correlated st !! correlation = Some slot /\ pr_response slot = Some r.
Proof.
  intros He.
  destruct event as [command|id|[frame|err]]; cbn [io_step].
  - rewrite answers_handle_command by done. split; [by intros ?%not_elem_of_nil|].
    by intros (? & ? & ? & ? & ? & ? & ? & _).
  - pose proof (answers_handle_cancellation st id) as Ha. destruct (handle_cancellation st id) as [st' e].
    cbn in *. rewrite Ha. split; [by intros ?%not_elem_of_nil|].
    by intros (? & ? & ? & ? & ? & ? & ? & _).
  - apply (handle_frame_answers transport sh st frame r payload He).
  - rewrite answers_disconnect. split; [by intros ?%not_elem_of_nil|].
    by intros (? & ? & ? & ? & ? & ? & ? & _).
Qed.

(** ** Properties *)

(** C7: no responder is lost or answered twice.  Whatever the state, the event
    and the transport's answers, one step of the TCP session loop turns the
    responders the session held, and the one the event brought, into those it
    still holds and those it has just answered or dropped, each exactly once;
    and a step that ends the session leaves none behind. *)
Theorem io_step_settles transport g sh st event :
  let s := io_step transport g sh st event in
  owned st ++ io_responders event ≡ₚ owned (st_session s) ++ settled (st_effects s)
  /\ (st_result s <> None -> owned (st_session s) = []).
Proof. exact (io_step_conserves transport g sh st event). Qed.

(** The same for one branch of the WebSocket loop, heartbeat included. *)
Theorem ws_step_settles transport options control g sh st hb now event s hb' :
  ws_step transport options control g sh st hb now event = Some (s, hb') ->
  owned st ++ ws_responders event ≡ₚ owned (st_session s) ++ settled (st_effects s)
  /\ (st_result s <> None -> owned (st_session s) = []).
Proof.
  intros H. change (conserves (owned st) (ws_responders event) s). revert H.
  destruct event as [command|id|[[[frame|p|p|]|err]|]|]; cbn [ws_step ws_responders].
  - pose proof (handle_command_conserves transport sh st g command).
    destruct (handle_command _ _ _ _ _). by intros [= <- _].
  - pose proof (handle_cancellation_conserves sh st id). destruct (handle_cancellation st id).
    by intros [= <- _].
  - pose proof (handle_frame_conserves transport sh st frame). destruct (handle_frame _ _ _ _).
    by intros [= <- _].
  - destruct (control _); intros [= <- _]; [by apply conserves_stepped | by apply conserves_disconnect].
  - intros [= <- _]. by apply conserves_stepped.
  - intros [= <- _]. by apply conserves_stepped.
  - intros [= <- _]. by apply conserves_disconnect.
  - intros [= <- _]. by apply conserves_disconnect.
  - destruct (_ || _); [done|]. destruct (awaiting_pong hb); [intros [= <- _]; by apply conserves_disconnect|].
    destruct (negb _); intros [= <- _]; [by apply conserves_disconnect | by apply conserves_stepped].
Qed.

(** C9: an established session stays established and inside what the broker
    negotiated: whatever command, cancellation or frame comes next, no request
    ever takes the uncorrelated path, at most [max_in_flight] requests are
    outstanding, the negotiated version and limits do not change (no broker
    frame can renegotiate them), and every frame written is a well-formed Wire 3
    frame within the broker's message limit. *)
Theorem session_stays_established transport g sh st event :
  established sh st -> match event with IoCommand c => command_wf c | _ => True end ->
  let s := io_step transport g sh st event in
  same_limits sh (st_shared s) /\ established (st_shared s) (st_session s)
  /\ Forall (sendable sh) (written (st_effects s)).
Proof. apply io_step_keeps. Qed.

(** A session whose HELLO granted two requests in flight, and its first steps. *)
Definition sample_shared : Shared := set_limits (N.shiftl 3 32) MAX_MESSAGE_SIZE 2 (Shared_new 8).
Definition accepts : bytes -> Result unit := fun _ => Ok tt.

Lemma session_stays_established_witness :
  established sample_shared SessionState_new
  /\ (let s := io_step accepts 0 sample_shared SessionState_new
                 (IoCommand (Some (Request 1 0 KV_GET 0 (str "k") 7))) in
      same_limits sample_shared (st_shared s) /\ established (st_shared s) (st_session s)
      /\ Forall (sendable sample_shared) (written (st_effects s))).
Proof.
  assert (H : established sample_shared SessionState_new) by (apply established_empty; reflexivity).
  split; [exact H|]. apply session_stays_established; [exact H | vm_compute; repeat split; reflexivity].
Defined.

(** A final response as it is on the wire: the header's type, flags, correlation
    id and length, big-endian, then the body; bit 1 of the flags says that it is
    final, bit 2 that the payload is in an extension envelope. *)
Definition final_response (sh : Shared) (frame : bytes) (mt correlation : N) (payload : bytes) : Prop :=
  exists flags body,
    frame = be_bytes 2 mt ++ be_bytes 1 flags ++ be_bytes 8 correlation ++ be_bytes 4 (blen body) ++ body
    /\ mt < 2 ^ 16 /\ flags < 8 /\ correlation < 2 ^ 64
    /\ blen frame <= MAX_MESSAGE_SIZE /\ blen frame <= max_message_bytes sh
    /\ mt <> HELLO /\ mt <> GOAWAY /\ mt <> CONNECT_REJECTED
    /\ N.testbit flags 1 = true
    /\ (if N.testbit flags 2
        then exists fields, fields <> [] /\ Forall field_ok fields /\ blen payload <= u32_max /\ body = envelope payload fields
        else body = payload).

(** The flags the codec admits. *)
Lemma valid_flags f : N.ldiff f VALID_FLAGS = 0 <-> f < 8.
Proof.
  change VALID_FLAGS with (N.ones 3). rewrite N.ldiff_ones_r, N.shiftl_eq_0_iff, N.shiftr_div_pow2.
  apply N.div_small_iff. done.
Qed.

Lemma flag_bits f :
  f < 8 -> (N.land f RESPONSE_FINAL <> 0 <-> N.testbit f 1 = true) /\ (N.land f EXTENSIONS_PRESENT <> 0 <-> N.testbit f 2 = true).
Proof.
  intros H. assert (f = 0 \/ f = 1 \/ f = 2 \/ f = 3 \/ f = 4 \/ f = 5 \/ f = 6 \/ f = 7) as Hc by lia.
  by destruct Hc as [->|[->|[->|[->|[->|[->|[->| ->]]]]]]].
Qed.

Lemma incoming_final sh frame sh' e mt payload c :
  decode_incoming sh frame = Ok (sh', e, [(mt, payload, c, true)])
  <-> sh' = sh /\ e = [] /\ final_response sh frame mt c payload.
Proof.
  unfold decode_incoming, mbind, result_mbind, result_bind. split.
  - destruct (N.ltb_spec (max_message_bytes sh) (blen frame)) as [|Hmax]; [done|].
    destruct (decode_frame_header frame) as [h|] eqn:Eh; [|done]. apply decoded_frame in Eh as (Hm & Hf & Hc & Hs & He).
    apply try_encode_frame_ok in He as (Hlen & Hv & Hframe). apply valid_flags in Hv.
    destruct (Wire3.decode (frame_payload h frame) (message_type h) (flags h)) as [[core mask]|] eqn:Ew; [|done].
    destruct (N.eqb_spec (message_type h) HELLO) as [|H1].
    { destruct (_ || _); [done|]. by destruct (apply_server_hello _ _ _). }
    destruct (N.eqb_spec (message_type h) GOAWAY) as [|H2].
    { destruct (control_misflagged h); [done|]. by destruct (decode_goaway _). }
    destruct (N.eqb_spec (message_type h) CONNECT_REJECTED) as [|H3]; [done|].
    intros [= <- <- <- <- <- Hfin%negb_true_iff%N.eqb_neq]. split; [done|]. split; [done|].
    destruct (flag_bits (flags h) Hv) as [Hb1 Hb2].
    exists (flags h), (frame_payload h frame). split; [exact Hframe|]. do 3 (split; [done|]).
    split; [rewrite Hframe, blen_app, header_bytes_blen; exact Hlen|]. do 4 (split; [done|]). split; [by apply Hb1|].
    destruct (N.testbit (flags h) 2).
    + apply decode_core in Ew as [_ Hw]; [exact Hw | done | by apply Hb2].
    + unfold decode in Ew. destruct (N.eqb_spec (N.land (flags h) EXTENSIONS_PRESENT) 0) as [|Hn].
      * rewrite (proj2 (N.eqb_neq _ _) H1) in Ew. by injection Ew as ->.
      * by apply Hb2 in Hn.
  - intros (-> & -> & fl & body & Hframe & Hm & Hf & Hc & Hlen & Hmax & H1 & H2 & H3 & Hb & Hbody).
    destruct (flag_bits fl Hf) as [Hb1 Hb2].
    assert (He : try_encode_frame mt fl c body = Ok frame).
    { apply try_encode_frame_ok. split; [|split; [by apply valid_flags | exact Hframe]].
      rewrite Hframe in Hlen. change (15 + blen body <= MAX_MESSAGE_SIZE).
      change (blen (header_bytes mt fl c (blen body) ++ body) <= MAX_MESSAGE_SIZE) in Hlen.
      by rewrite blen_app, header_bytes_blen in Hlen. }
    apply decode_encoded in He as [Hd Hp]; [|done | change (2 ^ 8) with 256; lia | done].
    rewrite (proj2 (N.ltb_ge _ _) Hmax), Hd, Hp. cbn [message_type flags correlation_id].
    assert (Hw : Wire3.decode body mt fl = Ok (payload, 0)).
    { destruct (N.testbit fl 2).
      - apply decode_core; [done | by apply Hb2 | done].
      - subst body. unfold decode. destruct (N.eqb_spec (N.land fl EXTENSIONS_PRESENT) 0) as [|Hn].
        + by rewrite (proj2 (N.eqb_neq _ _) H1).
        + by apply Hb2 in Hn. }
    rewrite Hw, (proj2 (N.eqb_neq _ _) H1), (proj2 (N.eqb_neq _ _) H2), (proj2 (N.eqb_neq _ _) H3).
    apply Hb1, N.eqb_neq in Hb. by rewrite Hb.
Qed.

(** C19: requests and responses are paired by correlation id alone: in an
    established session a caller is given a payload exactly when the step reads
    a frame whose header has the final bit and the correlation id of that
    caller's outstanding request, and whose body is that payload, bare or in an
    extension envelope.  The frame's message type plays no part, once it is none
    of the three control types. *)
Theorem io_response_pairing transport g sh st event r payload :
  established sh st ->
  Reply r (Ok payload) ∈ st_effects (io_step transport g sh st event) <->
  exists frame mt correlation slot,
    event = IoFrame (Ok frame) /\ final_response sh frame mt correlation payload
    /\ correlation <> 0 /\ correlated st !! correlation = Some slot /\ pr_response slot = Some r.
Proof.
  intros He. rewrite <- answers_reply, io_step_answers by done. split.
  - intros (frame & sh' & e & mt & c & slot & -> & (-> & -> & Hf)%incoming_final & Hr). by exists frame, mt, c, slot.
  - intros (frame & mt & c & slot & -> & Hf & Hr). exists frame, sh, [], mt, c, slot. split; [done|]. split; [|exact Hr].
    by apply incoming_final.
Qed.

(** The steps of a request that is refused, of a cancellation of nothing, and of
    a request whose id a cancellation waits for. *)
Lemma run_io_from_cons transport g sh st event events e :
  run_io_from transport g sh st (event :: events) e
  = let s := io_step transport g sh st event in
    match st_result s with
    | Some result => {| st_shared := st_shared s; st_session := st_session s;
                        st_effects := e ++ st_effects s; st_result := Some result |}
    | None => run_io_from transport g (st_shared s) (st_session s) events (e ++ st_effects s)
    end.
Proof. done. Qed.

Lemma stale_request transport sh st g id gen mt fl payload r :
  gen <> g -> handle_request transport sh st g id gen mt fl payload r = (stepped sh st [Reply r (Err ConnectionClosed)], false).
Proof. intros Hg%N.eqb_neq. unfold handle_request. by rewrite Hg. Qed.

Lemma unknown_cancellation id :
  handle_cancellation SessionState_new id = (set_canceled ({[id]} ∪ ∅) SessionState_new, []).
Proof.
  unfold handle_cancellation, cancel_all_pending, cancel_pending. cbn [SessionState_new correlated pending queued].
  by rewrite lookup_empty, !map_to_list_empty.
Qed.

Lemma poisoned_request transport sh st id mt fl payload r frame :
  supervisor_correlation_enabled sh = true -> 0 < max_in_flight sh -> size (correlated st) = 0%nat ->
  correlated st !! id = None -> id ∈ canceled st ->
  encode_outbound sh mt fl id payload = Ok frame -> is_ok (transport frame) = true ->
  handle_request transport sh st (generation sh) id (generation sh) mt fl payload r
  = (stepped sh (set_correlated (<[id := {| pr_id := id; pr_response := None |}]> (correlated st))
                   (set_canceled (canceled st ∖ {[id]}) st)) [DropResponder r; Write frame], true).
Proof.
  intros Hc Hm Hz Hn Hin Hf Ht. unfold handle_request. rewrite N.eqb_refl, bool_decide_eq_true_2, Hc by done.
  cbn [negb set_canceled correlated]. rewrite Hz.
  destruct (N.leb_spec (max_in_flight sh) (N.of_nat 0)); [lia|]. by rewrite Hf, Hn, Ht.
Qed.

(** C36: a cancellation left over from an earlier session takes the place of a
    fresh request.  Ids restart at one after a reconnect, so when the session
    first refuses a request of an older generation and then reads that
    request's cancellation, it remembers the id; the next request with that id
    is written to the broker, but its caller's responder is dropped unanswered,
    and no response can reach it. *)
Theorem stale_cancellation_poisons transport sh id old mt0 fl0 p0 r0 mt fl payload r frame :
  established sh SessionState_new -> 0 < max_in_flight sh -> old <> generation sh ->
  encode_outbound sh mt fl id payload = Ok frame -> is_ok (transport frame) = true ->
  let s := run_io transport sh
    [ IoCommand (Some (Request id old mt0 fl0 p0 r0)); IoCancel id;
      IoCommand (Some (Request id (generation sh) mt fl payload r)) ] in
  st_effects s = [Reply r0 (Err ConnectionClosed); DropResponder r; Write frame]
  /\ correlated (st_session s) !! id = Some {| pr_id := id; pr_response := None |}.
Proof.
  intros (Hc & _) Hm Hold Hf Ht. cbn zeta. unfold run_io.
  rewrite run_io_from_cons. cbn [io_step handle_command]. rewrite stale_request by done.
  cbn [fst stepped st_result st_shared st_session st_effects app].
  rewrite run_io_from_cons. cbn [io_step]. rewrite unknown_cancellation.
  cbn [stepped st_result st_shared st_session st_effects app].
  rewrite run_io_from_cons. cbn [io_step handle_command].
  rewrite (poisoned_request transport sh _ _ _ _ _ _ frame);
    [|done|done|by apply map_size_empty|done|cbn; set_solver|done|done].
  cbn [fst stepped st_result st_shared st_effects st_session app run_io_from]. split; [done|]. apply lookup_insert_eq.
Qed.

Lemma stale_cancellation_poisons_witness :
  let s := run_io accepts sample_shared
    [ IoCommand (Some (Request 1 9 KV_GET 0 (str "a") 7)); IoCancel 1;
      IoCommand (Some (Request 1 0 KV_GET 0 (str "b") 8)) ] in
  correlated (st_session s) !! 1 = Some {| pr_id := 1; pr_response := None |}.
Proof.
  cbn zeta.
  refine (proj2 (stale_cancellation_poisons accepts sample_shared 1 9 KV_GET 0 (str "a") 7 KV_GET 0 (str "b") 8
    (match encode_outbound sample_shared KV_GET 0 1 (str "b") with Ok f => f | Err _ => [] end) _ _ _ _ _)).
  - apply established_empty. reflexivity.
  - reflexivity.
  - discriminate.
  - vm_compute. reflexivity.
  - reflexivity.
Defined.

(** A request whose id is already in flight takes the other's place:
    commands that waited in the queue across a reconnect carry the new
    generation but ids of the old counter, so two requests of one session can
    share an id.  The later one is written to the broker under the same
    correlation id, the earlier caller's responder is dropped, and the slot now
    answers the later one. *)
Theorem reused_id_replaces transport g sh st id mt fl payload r slot r0 frame :
  established sh st -> N.of_nat (size (correlated st)) < max_in_flight sh -> id ∉ canceled st ->
  correlated st !! id = Some slot -> pr_response slot = Some r0 ->
  encode_outbound sh mt fl id payload = Ok frame -> is_ok (transport frame) = true ->
  let s := io_step transport g sh st (IoCommand (Some (Request id g mt fl payload r))) in
  st_effects s = [DropResponder r0; Write frame]
  /\ correlated (st_session s) !! id = Some {| pr_id := id; pr_response := Some r |}.
Proof.
  intros (Hc & _) Hm Hn Hs Hr Hf Ht. cbn [io_step handle_command]. unfold handle_request.
  rewrite N.eqb_refl, bool_decide_eq_false_2, Hc by done. cbn [negb set_canceled correlated].
  destruct (N.leb_spec (max_in_flight sh) (N.of_nat (size (correlated st)))); [lia|].
  rewrite Hf, Hs, Ht. unfold drop_opt. rewrite Hr. split; [done|]. cbn. apply lookup_insert_eq.
Qed.

Lemma reused_id_replaces_witness :
  let st := st_session (io_step accepts 0 sample_shared SessionState_new
                          (IoCommand (Some (Request 1 0 KV_GET 0 (str "a") 7)))) in
  st_effects (io_step accepts 0 sample_shared st (IoCommand (Some (Request 1 0 KV_PUT 0 (str "b") 8))))
  = [DropResponder 7; Write (match encode_outbound sample_shared KV_PUT 0 1 (str "b") with Ok f => f | Err _ => [] end)].
Proof.
  cbn zeta.
  refine (proj1 (reused_id_replaces accepts 0 sample_shared _ 1 KV_PUT 0 (str "b") 8
    {| pr_id := 1; pr_response := Some 7 |} 7 _ _ _ _ _ _ _ _)).
  - apply session_step_established; [apply established_empty | | | |]; reflexivity.
  - reflexivity.
  - vm_compute. discriminate.
  - reflexivity.
  - reflexivity.
  - vm_compute. reflexivity.
  - reflexivity.
Defined.

(** A session with one request outstanding, whose pong is overdue. *)
Definition sample_session : SessionState :=
  set_correlated (<[1 := {| pr_id := 1; pr_response := Some 7 |}]> ∅) SessionState_new.
Definition sample_timeout : option (Stepped * Heartbeat) :=
  ws_step accepts HeartbeatOptions_default (fun _ => true) 0 sample_shared sample_session
    {| awaiting_pong := true; deadline := 5 |} 6 WsHeartbeat.

Lemma ws_step_settles_witness :
  match sample_timeout with
  | Some (s, _) =>
      st_result s = Some SessionDisconnected
      /\ owned sample_session ++ [] ≡ₚ owned (st_session s) ++ settled (st_effects s)
      /\ (st_result s <> None -> owned (st_session s) = [])
  | None => False
  end.
Proof.
  destruct sample_timeout as [[s hb]|] eqn:E; [|vm_compute in E; discriminate E]. split.
  - revert E. vm_compute. by intros [= <- _].
  - exact (ws_step_settles _ _ _ _ _ _ _ _ WsHeartbeat s hb E).
Defined.

Lemma io_response_pairing_witness :
  let st := st_session (io_step accepts 0 sample_shared SessionState_new
                          (IoCommand (Some (Request 1 0 KV_GET 0 (str "a") 7)))) in
  let frame := match try_encode_frame KV_GET RESPONSE_FINAL 1 (str "v") with Ok f => f | Err _ => [] end in
  Reply 7 (Ok (str "v")) ∈ st_effects (io_step accepts 0 sample_shared st (IoFrame (Ok frame))).
Proof.
  cbn zeta. apply io_response_pairing.
  - apply session_step_established; [apply established_empty | | | |]; reflexivity.
  - eexists _, KV_GET, 1, {| pr_id := 1; pr_response := Some 7 |}.
    split; [reflexivity|]. split; [|split; [discriminate | split; reflexivity]].
    exists RESPONSE_FINAL, (str "v"). do 6 (split; [vm_compute; reflexivity || discriminate|]).
    do 3 (split; [discriminate|]). split; reflexivity.
Defined.
