(* ===== verification/Multiplex.v ===== *)
(** * Multiplex

    The connection as its callers and the broker see it together, over any
    number of sessions ([src/src/async_connection.rs]): requests and sends draw
    their ids from the shared counter, read the generation and queue their
    commands; the session task takes commands, cancellations and frames in
    whatever order its [select!] finds them ready; the broker reads what was
    written and answers in whatever order it likes; sessions are lost and
    replaced, the counter starts again, and what is queued or not yet queued
    survives.

    The broker is a parameter, [serve]: what it answers to a request of a type
    and a payload.  What the client relies on is that a final response carries
    the correlation id of a request the broker read on this session and the
    answer to that request; its notifications, partial responses and anything
    that does not decode are unconstrained.

    [steady] restricts the relation to the runs in which an id is drawn and its
    command stamped under one session, and the broker owes no answer to a
    restore request when the session starts; [Reconnect] shows what goes wrong
    in the others. *)

From S2P Require Import Prelude Errors Protocol Codec Wire3 Shared Session SessionFacts.
Import message_type.

(** ** What a step of the session does to its table *)

Section Steps.
Context (transport : bytes -> Result unit).

(** The counter and the generation as they were. *)
Definition same_counters (a b : Shared) : Prop :=
  next_request_id b = next_request_id a /\ generation b = generation a.

(** Nothing new: no slot that was not there, nothing written. *)
Definition quiet_step (sh : Shared) (st : SessionState) (s : Stepped) : Prop :=
  same_counters sh (st_shared s) /\ correlated (st_session s) ⊆ correlated st
  /\ written (st_effects s) = [].

Lemma quiet_stepped sh sh' st e :
  same_counters sh sh' -> written e = [] -> quiet_step sh st (stepped sh' st e).
Proof. intros Hn Hw. by split. Qed.

Lemma quiet_disconnect sh sh' st st' e :
  same_counters sh sh' -> written e = [] -> quiet_step sh st (disconnect sh' st' e).
Proof.
  intros Hn Hw. unfold disconnect. destruct (fail_all st') as [st2 failed] eqn:E.
  split; [done|]. split.
  - unfold fail_all in E. injection E as <- _. apply map_empty_subseteq.
  - cbn. by rewrite written_app, Hw, (written_fail_all _ _ _ E).
Qed.

Lemma quiet_record sh st record :
  pending st = ∅ -> quiet_step sh st (handle_record transport sh st record).
Proof.
  intros Hp. destruct record as [[[mt pl] c] fin]. unfold handle_record.
  destruct (negb (c =? 0)).
  - unfold dispatch_correlated. destruct (correlated st !! c) as [slot|] eqn:Ec; [|by apply quiet_disconnect].
    destruct fin; [|by apply quiet_stepped]. split; [done|]. split; [apply delete_subseteq | apply written_reply_opt].
  - unfold dispatch. rewrite Hp, lookup_empty. by apply quiet_stepped.
Qed.

Lemma quiet_frame sh st frame :
  established sh st -> quiet_step sh st (fst (handle_frame transport sh st frame)).
Proof.
  intros He. pose proof He as (_ & Hp & _). unfold handle_frame.
  destruct (decode_incoming sh frame) as [[[sh' e] records]|err] eqn:Ed; [|by apply quiet_disconnect].
  destruct (decode_incoming_shape _ _ _ _ _ Ed) as [_ Hr].
  apply decode_incoming_established in Ed as [-> Hw]; [|by eapply established_capabilities].
  cbn [fst]. destruct Hr as [->|[rec ->]]; [by apply quiet_stepped|]. cbn [handle_records].
  destruct (quiet_record sh st rec Hp) as (H1 & H2 & H3).
  destruct (st_result _); (split; [done|]; split; [done|]; cbn; by rewrite written_app, Hw, H3).
Qed.

Lemma quiet_cancellation sh st id :
  established sh st ->
  let '(st', e) := handle_cancellation st id in
  written e = [] /\ forall c slot r, correlated st' !! c = Some slot -> pr_response slot = Some r -> correlated st !! c = Some slot.
Proof.
  intros (_ & Hp & Hq & _). unfold handle_cancellation, cancel_all_pending, cancel_pending.
  destruct (correlated st !! id) as [old|] eqn:Ec.
  - split; [apply written_drop_opt|]. intros c slot r. cbn [correlated set_correlated].
    destruct (decide (c = id)) as [->|Hne]; [rewrite lookup_insert_eq; by intros [= <-] | by rewrite lookup_insert_ne].
  - rewrite Hp, Hq, map_to_list_empty. split; [done|]. by intros c slot r.
Qed.

(** What a step brings: a slot with a responder was there or is the request's
    that was taken, and what it writes is the frame of the command taken, which
    is stamped with the session's generation [g]. *)
Definition brings (g : N) (sh : Shared) (st : SessionState) (event : IoEvent) (s : Stepped) : Prop :=
  same_counters sh (st_shared s)
  /\ (forall c slot r, correlated (st_session s) !! c = Some slot -> pr_response slot = Some r ->
        correlated st !! c = Some slot
        \/ exists mt fl p frame, event = IoCommand (Some (Request c g mt fl p r))
             /\ encode_outbound sh mt fl c p = Ok frame /\ frame ∈ written (st_effects s))
  /\ (forall frame, frame ∈ written (st_effects s) ->
        (exists id mt fl p r, event = IoCommand (Some (Request id g mt fl p r))
                                  /\ encode_outbound sh mt fl id p = Ok frame)
        \/ (exists id mt p r, event = IoCommand (Some (Send id g mt p r))
                                  /\ encode_outbound sh mt 0 (send_correlation_id mt p id) p = Ok frame)).

Lemma brings_quiet g sh st event s : quiet_step sh st s -> brings g sh st event s.
Proof.
  intros (Hn & Hc & Hw). split; [done|]. split.
  - intros c slot r Hs _. left. by eapply lookup_weaken.
  - intros frame. rewrite Hw. by intros ?%not_elem_of_nil.
Qed.

Lemma brings_request sh st g id gen mt fl p r :
  established sh st ->
  brings g sh st (IoCommand (Some (Request id gen mt fl p r))) (fst (handle_request transport sh st g id gen mt fl p r)).
Proof.
  intros He. unfold handle_request. destruct (N.eqb_spec gen g) as [->|]; [cbn [negb] | by apply brings_quiet, quiet_stepped].
  set (b := bool_decide _). set (st0 := set_canceled _ st). pose proof He as (-> & _).
  assert (Hd : written (if b then [DropResponder r] else []) = []) by (by destruct b).
  assert (Hq : forall x, quiet_step sh st (stepped sh st0
    ((if b then [DropResponder r] else []) ++ reply_opt (if b then None else Some r) x))).
  { intros x. split; [done|]. split; [done|]. cbn. by rewrite written_app, Hd, written_reply_opt. }
  destruct (_ <=? _); [exact (brings_quiet _ _ _ _ _ (Hq _))|].
  destruct (encode_outbound sh mt fl id p) as [frame|err] eqn:Ef; [|exact (brings_quiet _ _ _ _ _ (Hq _))].
  set (over := match correlated st0 !! id with Some slot => _ | None => _ end).
  assert (Ho : written over = []) by (unfold over; destruct (correlated st0 !! id); [apply written_drop_opt | done]).
  assert (Hw : forall f, f ∈ written ((if b then [DropResponder r] else []) ++ over ++ [Write frame]) -> f = frame).
  { intros f. rewrite !written_app, Hd, Ho. by intros ?%list_elem_of_singleton. }
  destruct (is_ok _).
  - split; [done|]. split.
    + intros c slot r' Hc Hr. cbn [fst stepped st_session set_correlated correlated] in Hc.
      destruct (decide (c = id)) as [->|Hne]; [|rewrite lookup_insert_ne in Hc by done; by left].
      rewrite lookup_insert_eq in Hc. injection Hc as <-. cbn in Hr. right. destruct b; [done|]. injection Hr as ->. eexists _, _, _, frame.
      split; [done|]. split; [done|]. cbn [fst stepped st_effects]. rewrite !written_app, Ho. by apply list_elem_of_singleton.
    + intros f Hf%Hw. left. subst f. by eexists _, _, _, _, _.
  - unfold disconnect. destruct (fail_all _) as [st2 failed] eqn:E. split; [done|]. split.
    + unfold fail_all in E. injection E as <- _. intros c slot r'. cbn. by rewrite lookup_empty.
    + intros f. cbn. rewrite written_app, (written_fail_all _ _ _ E), app_nil_r. intros Hf%Hw. left. subst f. by eexists _, _, _, _, _.
Qed.

Lemma io_step_brings g sh st event :
  established sh st -> brings g sh st event (io_step transport g sh st event).
Proof.
  intros He. destruct event as [command|id|[frame|err]]; cbn [io_step].
  - destruct command as [[r|id gen mt fl p r|id gen mt p r|r]|]; cbn [handle_command fst].
    + by apply brings_quiet, quiet_stepped.
    + by apply brings_request.
    + unfold handle_send. destruct (N.eqb_spec gen g) as [->|]; [cbn [negb] | by apply brings_quiet, quiet_stepped].
      destruct (encode_outbound _ _ _ _ _) as [frame|] eqn:Ef; [|by apply brings_quiet, quiet_stepped].
      split; [done|]. split; [by left|]. intros f Hf%list_elem_of_singleton. right. subst f. by eexists _, _, _, _.
    + unfold handle_close. destruct (fail_all st) as [st' failed] eqn:E. apply brings_quiet. split; [done|]. split.
      * unfold fail_all in E. injection E as <- _. apply map_empty_subseteq.
      * cbn. by rewrite written_app, (written_fail_all _ _ _ E).
    + unfold handle_channel_closed. destruct (fail_all st) as [st' failed] eqn:E. apply brings_quiet. split; [done|]. split.
      * unfold fail_all in E. injection E as <- _. apply map_empty_subseteq.
      * exact (written_fail_all _ _ _ E).
  - pose proof (quiet_cancellation sh st id He) as Hq. destruct (handle_cancellation st id) as [st' e].
    destruct Hq as [Hw Hc]. split; [done|]. split; [intros c slot r H1 H2; left; by eapply Hc|].
    intros f. cbn [stepped st_effects]. rewrite Hw. by intros ?%not_elem_of_nil.
  - by apply brings_quiet, quiet_frame.
  - by apply brings_quiet, quiet_disconnect.
Qed.
End Steps.

(** ** The system *)

Record Call : Set := { call_responder : responder; call_id : N; call_type : N; call_payload : bytes }.

(** [mx_generation]: the generation the session runs under; [drafts]: the
    commands of handles that drew an id and have not queued them yet; [channel]:
    the commands queued for the task; [wire]: the frames the broker read on this
    session; [calls]: the requests whose ids were drawn since it started, and
    [earlier] those before; [delivered]: the successful answers callers got;
    [gone]: the responders that were answered or dropped; [issued]: the
    responders made so far; [over]: the session's task returned. *)
Record Mux : Type := {
  mx_shared : Shared;
  mx_session : SessionState;
  mx_generation : N;
  drafts : list Command;
  channel : list Command;
  wire : list bytes;
  calls : list Call;
  earlier : list Call;
  delivered : list (responder * bytes);
  gone : list responder;
  issued : list responder;
  over : bool;
}.

Definition responders (l : list Command) : list responder := concat (map (fun c => command_responders (Some c)) l).

Section System.
Context (transport : bytes -> Result unit) (serve : N -> bytes -> bytes) (steady : bool).

(** The session task handles an event. *)
Definition handles (s : Mux) (event : IoEvent) (rest : list Command) : Mux :=
  let x := io_step transport (mx_generation s) (mx_shared s) (mx_session s) event in
  {| mx_shared := st_shared x; mx_session := st_session x; mx_generation := mx_generation s;
     drafts := drafts s; channel := rest; wire := wire s ++ written (st_effects x);
     calls := calls s; earlier := earlier s; delivered := delivered s ++ answers (st_effects x);
     gone := gone s ++ settled (st_effects x); issued := issued s;
     over := match st_result x with Some _ => true | None => false end |}.

(** A handle draws an id for a command; it queues it later, or finds the queue
    full and drops it. *)
Definition submits_command (s : Mux) (next : N) (c : Command) (call : list Call) (r : responder) : Mux :=
  {| mx_shared := set_next_request_id next (mx_shared s); mx_session := mx_session s; mx_generation := mx_generation s;
     drafts := drafts s ++ [c]; channel := channel s; wire := wire s; calls := calls s ++ call; earlier := earlier s;
     delivered := delivered s; gone := gone s; issued := r :: issued s; over := over s |}.

(** Commands move between handles, queue and their end. *)
Definition leaves_drafts (s : Mux) (rest queue : list Command) (ended : list responder) : Mux :=
  {| mx_shared := mx_shared s; mx_session := mx_session s; mx_generation := mx_generation s; drafts := rest;
     channel := queue; wire := wire s; calls := calls s; earlier := earlier s; delivered := delivered s;
     gone := gone s ++ ended; issued := issued s; over := over s |}.

(** The handle reads the generation only now. *)
Definition stamp (gen : N) (c : Command) : Command :=
  match c with
  | Request id _ mt fl p r => Request id gen mt fl p r
  | Send id _ mt p r => Send id gen mt p r
  | c => c
  end.

Definition set_shared (sh : Shared) (s : Mux) : Mux :=
  {| mx_shared := sh; mx_session := mx_session s; mx_generation := mx_generation s; drafts := drafts s;
     channel := channel s; wire := wire s; calls := calls s; earlier := earlier s; delivered := delivered s;
     gone := gone s; issued := issued s; over := over s |}.

(** [generation.fetch_add(1)]: a session was lost, or a handle closes. *)
Definition next_generation (sh : Shared) : Shared := set_generation (wrapping_add 64 (generation sh) 1) sh.

(** What the shared state of a session that starts is to the one before it
    opened. *)
Definition reopens (sh sh' : Shared) : Prop :=
  supervisor_correlation_enabled sh' = true /\ generation sh' = generation sh /\ next_request_id sh' = 1.

(** A frame the restoring of a registration wrote. *)
Definition restore_frame (sh : Shared) (frame : bytes) : Prop :=
  exists k reg, registrations sh !! k = Some reg
    /\ try_encode_frame (reg_message_type reg) 0 1 (reg_payload reg) = Ok frame.

(** The next session, on which the broker may still answer [unanswered]. *)
Definition reopened (s : Mux) (sh : Shared) (unanswered : list bytes) : Mux :=
  {| mx_shared := sh; mx_session := SessionState_new; mx_generation := generation sh; drafts := drafts s;
     channel := channel s; wire := unanswered; calls := []; earlier := earlier s ++ calls s;
     delivered := delivered s; gone := gone s; issued := issued s; over := false |}.

(** A final response of the broker answers a request it read. *)
Definition honest (s : Mux) (frame : bytes) : Prop :=
  forall h, decode_frame_header frame = Ok h -> correlation_id h <> 0 -> N.land (flags h) RESPONSE_FINAL <> 0 ->
    flags h = RESPONSE_FINAL
    /\ exists asked ha, asked ∈ wire s /\ decode_frame_header asked = Ok ha /\ correlation_id ha = correlation_id h
         /\ frame_payload h frame = serve (message_type ha) (frame_payload ha asked).

(** The ids that are drawn are stamped under the session they are drawn in. *)
Definition in_session (s : Mux) : Prop := steady = true -> generation (mx_shared s) = mx_generation s.

Inductive mux_step (s : Mux) : Mux -> Prop :=
| step_request r id next mt fl p :
    r ∉ issued s -> in_session s -> allocate_request_id (next_request_id (mx_shared s)) = (Ok id, next) ->
    id < 2 ^ 64 -> mt < 2 ^ 16 -> fl < 2 ^ 8 ->
    mux_step s (submits_command s next (Request id (generation (mx_shared s)) mt fl p r)
                  [{| call_responder := r; call_id := id; call_type := mt; call_payload := p |}] r)
| step_send r id next mt p :
    r ∉ issued s -> in_session s -> allocate_request_id (next_request_id (mx_shared s)) = (Ok id, next) ->
    id < 2 ^ 64 -> mt < 2 ^ 16 ->
    mux_step s (submits_command s next (Send id (generation (mx_shared s)) mt p r) [] r)
| step_control r c :
    r ∉ issued s -> c = Connect r \/ c = Close r ->
    mux_step s (submits_command s (next_request_id (mx_shared s)) c [] r)
| step_stamp before c after :
    steady = false -> drafts s = before ++ c :: after ->
    mux_step s (leaves_drafts s (before ++ stamp (generation (mx_shared s)) c :: after) (channel s) [])
| step_queue before c after :
    drafts s = before ++ c :: after -> mux_step s (leaves_drafts s (before ++ after) (channel s ++ [c]) [])
| step_full before c after :
    drafts s = before ++ c :: after ->
    mux_step s (leaves_drafts s (before ++ after) (channel s) (command_responders (Some c)))
| step_take c rest :
    over s = false -> channel s = c :: rest -> mux_step s (handles s (IoCommand (Some c)) rest)
| step_handles_gone :
    over s = false -> drafts s = [] -> channel s = [] -> mux_step s (handles s (IoCommand None) [])
| step_cancel id : over s = false -> mux_step s (handles s (IoCancel id) (channel s))
| step_frame frame : over s = false -> honest s frame -> mux_step s (handles s (IoFrame (Ok frame)) (channel s))
| step_socket error : over s = false -> mux_step s (handles s (IoFrame (Err error)) (channel s))
| step_lost :
    over s = true -> generation (mx_shared s) < u64_max -> mux_step s (set_shared (next_generation (mx_shared s)) s)
| step_close :
    close_requested (mx_shared s) = false -> generation (mx_shared s) < u64_max ->
    mux_step s (set_shared (next_generation (set_close_requested (mx_shared s))) s)
| step_idle c rest :
    over s = true -> channel s = c :: rest -> mux_step s (leaves_drafts s (drafts s) rest (command_responders (Some c)))
| step_reopen sh unanswered :
    over s = true -> mx_generation s < generation (mx_shared s) -> reopens (mx_shared s) sh ->
    Forall (restore_frame sh) unanswered -> (steady = true -> unanswered = []) ->
    mux_step s (reopened s sh unanswered).

Inductive mux_reachable (s0 : Mux) : Mux -> Prop :=
| mux_start : mux_reachable s0 s0
| mux_next s s' : mux_reachable s0 s -> mux_step s s' -> mux_reachable s0 s'.

(** The first session, just established. *)
Definition mux_opened (sh : Shared) : Mux :=
  {| mx_shared := sh; mx_session := SessionState_new; mx_generation := generation sh; drafts := []; channel := [];
     wire := []; calls := []; earlier := []; delivered := []; gone := []; issued := []; over := false |}.

(** ** Every caller is accounted for *)

(** A responder that was made is with a command on its way, in the table of the
    session, or gone. *)
Record Accounts (s : Mux) : Prop := {
  acc_issued : issued s ≡ₚ responders (drafts s ++ channel s) ++ owned (mx_session s) ++ gone s;
  acc_nodup : NoDup (issued s);
  acc_delivered : map fst (delivered s) ⊆+ gone s;
  acc_over : over s = true -> owned (mx_session s) = [];
}.

#[local] Instance responders_perm : Proper ((≡ₚ) ==> (≡ₚ)) responders.
Proof.
  intros a b Hp. unfold responders. induction Hp as [|c l l' _ IH|c d l|l l' l'' _ IH _ IH']; cbn [map concat]; [done| | |by etransitivity].
  - by rewrite IH.
  - rewrite !app_assoc. by rewrite (Permutation_app_comm (command_responders (Some d))).
Qed.

Lemma responders_app a b : responders (a ++ b) = responders a ++ responders b.
Proof. unfold responders. by rewrite map_app, concat_app. Qed.

Lemma responders_cons c l : responders (c :: l) = command_responders (Some c) ++ responders l.
Proof. done. Qed.

Lemma stamp_responders gen c : command_responders (Some (stamp gen c)) = command_responders (Some c).
Proof. by destruct c. Qed.

Lemma answers_settled es : map fst (answers es) ⊆+ settled es.
Proof.
  induction es as [|e es IH]; [done|]. destruct e as [r [p|]|r x|r| | | | | |]; cbn; try done;
    [by apply submseteq_skip | by apply submseteq_cons..].
Qed.

Lemma accounts_handles s event rest :
  Accounts s -> responders (channel s) = io_responders event ++ responders rest -> Accounts (handles s event rest).
Proof.
  intros [Ha Hn Hd Ho] Hch.
  destruct (io_step_conserves transport (mx_generation s) (mx_shared s) (mx_session s) event) as [Hp Hr].
  split; cbn [handles mx_session drafts channel delivered gone issued over]; [|done| |].
  - rewrite Ha, !responders_app, Hch.
    transitivity ((responders (drafts s) ++ responders rest) ++ (owned (mx_session s) ++ io_responders event) ++ gone s);
      [|rewrite Hp]; solve_Permutation.
  - rewrite map_app. apply submseteq_app; [done | apply answers_settled].
  - destruct (st_result _); [by intros; apply Hr | done].
Qed.

Lemma accounts_submits s next c call r :
  Accounts s -> r ∉ issued s -> command_responders (Some c) = [r] -> Accounts (submits_command s next c call r).
Proof.
  intros [Ha Hn Hd Ho] Hr Hc. split; cbn [submits_command mx_session drafts channel delivered gone issued over]; [|by constructor|done|done].
  rewrite Ha, !responders_app, responders_cons, Hc. change (responders []) with (@nil responder). solve_Permutation.
Qed.

Lemma accounts_leaves s rest queue ended :
  Accounts s -> responders (drafts s ++ channel s) ≡ₚ responders (rest ++ queue) ++ ended ->
  Accounts (leaves_drafts s rest queue ended).
Proof.
  intros [Ha Hn Hd Ho] Hp. split; cbn [leaves_drafts mx_session drafts channel delivered gone issued over]; [|done| |done].
  - rewrite Ha, Hp. solve_Permutation.
  - by apply submseteq_inserts_r.
Qed.

Lemma accounts_step s s' : Accounts s -> mux_step s s' -> Accounts s'.
Proof.
  intros Ha Hs. pose proof Ha as [Hi Hn Hd Ho].
  destruct Hs as [| |r c Hr [->| ->]|before c after _ E|before c after E|before c after E|c rest _ E|_ _ E| | | | | |c rest _ E|sh un Hov _ _ _ _].
  - by apply accounts_submits.
  - by apply accounts_submits.
  - by apply accounts_submits.
  - by apply accounts_submits.
  - apply accounts_leaves; [done|]. rewrite E, app_nil_r, !responders_app, !responders_cons, stamp_responders. done.
  - apply accounts_leaves; [done|]. rewrite E, app_nil_r, !responders_app, !responders_cons. change (responders []) with (@nil responder). solve_Permutation.
  - apply accounts_leaves; [done|]. rewrite E, !responders_app, responders_cons. solve_Permutation.
  - apply accounts_handles; [done|]. by rewrite E.
  - apply accounts_handles; [done|]. by rewrite E.
  - by apply accounts_handles.
  - by apply accounts_handles.
  - by apply accounts_handles.
  - by split.
  - by split.
  - apply accounts_leaves; [done|]. rewrite E, !responders_app, responders_cons. solve_Permutation.
  - split; cbn [reopened mx_session drafts channel delivered gone issued over]; [|done|done|done].
    rewrite Hi, (Ho Hov). done.
Qed.

Lemma accounts_reachable sh s : mux_reachable (mux_opened sh) s -> Accounts s.
Proof.
  induction 1 as [|s s' _ IH Hs]; [|by eapply accounts_step].
  split; [done | constructor | done | done].
Qed.

Lemma delivered_once s : Accounts s -> NoDup (map fst (delivered s)).
Proof.
  intros [Ha Hn [k Hk]%submseteq_Permutation _]. rewrite Ha, Hk, !NoDup_app in Hn. tauto.
Qed.

(** ** The invariant *)

(** The counter has gone past an id. *)
Definition past (next id : N) : Prop := next = 0 \/ id < next.

(** A command of an earlier generation is refused; one of this session's is
    that of a call that drew its id in it. *)
Definition command_known (s : Mux) (c : Command) : Prop :=
  match c with
  | Request id gen mt fl p r =>
      id < 2 ^ 64 /\ mt < 2 ^ 16 /\ fl < 2 ^ 8 /\ gen <= mx_generation s
      /\ (gen = mx_generation s -> {| call_responder := r; call_id := id; call_type := mt; call_payload := p |} ∈ calls s)
  | Send id gen mt _ _ =>
      id < 2 ^ 64 /\ mt < 2 ^ 16 /\ gen <= mx_generation s
      /\ (gen = mx_generation s -> past (next_request_id (mx_shared s)) id /\ (id ∉ map call_id (calls s)))
  | _ => True
  end.

(** A frame on the wire is the request of the call that has its id, if any. *)
Definition frame_known (s : Mux) (frame : bytes) : Prop :=
  exists h, decode_frame_header frame = Ok h
    /\ (correlation_id h = 0 \/ past (next_request_id (mx_shared s)) (correlation_id h))
    /\ forall call, call ∈ calls s -> call_id call = correlation_id h ->
         message_type h = call_type call /\ frame_payload h frame = call_payload call.

Record MuxInv (s : Mux) : Prop := {
  mi_established : established (mx_shared s) (mx_session s);
  mi_calls : Forall (fun c => 0 < call_id c /\ past (next_request_id (mx_shared s)) (call_id c)) (calls s);
  mi_ids : NoDup (map call_id (calls s));
  mi_channel : Forall (command_known s) (drafts s ++ channel s);
  mi_wire : Forall (frame_known s) (wire s);
  mi_slots : forall c slot r, correlated (mx_session s) !! c = Some slot -> pr_response slot = Some r ->
    (exists call, call ∈ calls s /\ call_id call = c /\ call_responder call = r)
    /\ exists frame h, frame ∈ wire s /\ decode_frame_header frame = Ok h /\ correlation_id h = c;
  mi_delivered : Forall (fun d => exists call, call ∈ earlier s ++ calls s /\ call_responder call = fst d
                                    /\ snd d = serve (call_type call) (call_payload call)) (delivered s);
  mi_callers : NoDup (map call_responder (earlier s ++ calls s)) /\ Forall (fun r => r ∈ issued s) (map call_responder (earlier s ++ calls s));
}.

Lemma nodup_map_inj {A B} (f : A -> B) l a b : NoDup (map f l) -> a ∈ l -> b ∈ l -> f a = f b -> a = b.
Proof.
  induction l as [|x l IH]; [by intros _ ?%not_elem_of_nil|]. cbn [map]. rewrite NoDup_cons.
  intros [Hx Hl] Ha Hb E. apply elem_of_cons in Ha as [->|Ha], Hb as [->|Hb]; [done| | |by apply IH].
  - destruct Hx. rewrite E. by apply list_elem_of_fmap_2.
  - destruct Hx. rewrite <- E. by apply list_elem_of_fmap_2.
Qed.

Lemma allocate_past n id next :
  allocate_request_id n = (Ok id, next) -> 0 < id /\ id = n /\ past next id /\ forall k, past n k -> past next k /\ k <> id.
Proof.
  unfold allocate_request_id, past. destruct (N.eqb_spec n 0); [done|]. intros [= <- <-].
  split; [lia|]. split; [done|]. destruct (n =? u64_max); split; try (by left); try (right; lia);
    intros k Hk; (split; [|lia]); [by left | right; lia].
Qed.

(** The fields of a record an incoming frame carries. *)
Lemma decode_incoming_record sh frame sh' e mt p c fin :
  decode_incoming sh frame = Ok (sh', e, [(mt, p, c, fin)]) ->
  exists h, decode_frame_header frame = Ok h /\ mt = message_type h /\ c = correlation_id h
    /\ fin = negb (N.land (flags h) RESPONSE_FINAL =? 0)
    /\ (N.land (flags h) EXTENSIONS_PRESENT = 0 -> p = frame_payload h frame).
Proof.
  unfold decode_incoming. destruct (_ <? _); [done|]. intros E. ok_inv E. destruct a0 as [pl mask].
  destruct (_ =? HELLO). { destruct (_ || _); [done|]. by ok_inv E. }
  destruct (_ =? GOAWAY). { destruct (control_misflagged _); [done|]. by ok_inv E. }
  destruct (_ =? CONNECT_REJECTED); [done|]. injection E as <- <- <- <- <- <-. exists a.
  split; [done|]. split; [done|]. split; [done|]. split; [done|]. intros Hx.
  revert Ha0. unfold Wire3.decode. rewrite Hx, N.eqb_refl. destruct (_ =? HELLO); [done|]. by intros [= <- <-].
Qed.

(** ** The session task keeps the invariant *)

Definition event_known (s : Mux) (event : IoEvent) : Prop :=
  match event with
  | IoCommand (Some c) => command_known s c
  | IoFrame (Ok frame) => honest s frame
  | _ => True
  end.

Lemma event_brings s event :
  MuxInv s -> brings (mx_generation s) (mx_shared s) (mx_session s) event
    (io_step transport (mx_generation s) (mx_shared s) (mx_session s) event).
Proof. intros Hi. apply io_step_brings, Hi. Qed.

Lemma known_call s id mt fl p r call :
  MuxInv s -> command_known s (Request id (mx_generation s) mt fl p r) -> call ∈ calls s -> call_id call = id ->
  call = {| call_responder := r; call_id := id; call_type := mt; call_payload := p |}.
Proof.
  intros Hi (_ & _ & _ & _ & Hc) Hin Hid. eapply (nodup_map_inj call_id); [apply Hi | exact Hin | by apply Hc | exact Hid].
Qed.

Lemma past_kept s event id :
  MuxInv s -> past (next_request_id (mx_shared s)) id ->
  past (next_request_id (st_shared (io_step transport (mx_generation s) (mx_shared s) (mx_session s) event))) id.
Proof. intros Hi Hp. destruct (event_brings s event Hi) as [[-> _] _]. exact Hp. Qed.

Lemma written_known s event rest frame :
  MuxInv s -> event_known s event ->
  frame ∈ written (st_effects (io_step transport (mx_generation s) (mx_shared s) (mx_session s) event)) ->
  frame_known (handles s event rest) frame.
Proof.
  intros Hi Hk Hf. destruct (event_brings s event Hi) as (_ & _ & Hw). pose proof (mi_calls _ Hi) as Hc.
  destruct (Hw frame Hf) as [(id & mt & fl & p & r & -> & He)|(id & mt & p & r & -> & He)].
  - pose proof Hk as (Hid & Hmt & Hfl & _ & Hcall). specialize (Hcall eq_refl). apply encode_outbound_ok in He as (_ & Hd & Hp); [|done..].
    eexists. split; [exact Hd|]. cbn [correlation_id message_type]. split.
    + right. apply past_kept; [done|]. rewrite Forall_forall in Hc. exact (proj2 (Hc _ Hcall)).
    + intros call Hin Heq. pose proof (known_call s id mt fl p r call Hi Hk Hin Heq) as ->. done.
  - destruct Hk as (Hid & Hmt & _ & Hk). destruct (Hk eq_refl) as [Hpast Hno].
    assert (Hs : send_correlation_id mt p id = 0 \/ send_correlation_id mt p id = id)
      by (unfold send_correlation_id; destruct (_ || _); [by left | by right]).
    apply encode_outbound_ok in He as (_ & Hd & Hp); [|done|done|destruct Hs as [->| ->]; [done | exact Hid]].
    eexists. split; [exact Hd|]. cbn [correlation_id message_type]. split.
    + destruct Hs as [->| ->]; [by left | right; by apply past_kept].
    + intros call Hin Heq. exfalso. rewrite Forall_forall in Hc. destruct (Hc _ Hin) as [Hpos _]. destruct Hs as [Hs|Hs].
      * rewrite Hs in Heq. lia.
      * apply Hno. rewrite <- Hs, <- Heq. by apply list_elem_of_fmap_2.
Qed.

Lemma handles_slots s event rest c slot r :
  MuxInv s -> event_known s event ->
  correlated (mx_session (handles s event rest)) !! c = Some slot -> pr_response slot = Some r ->
  (exists call, call ∈ calls s /\ call_id call = c /\ call_responder call = r)
  /\ exists frame h, frame ∈ wire (handles s event rest) /\ decode_frame_header frame = Ok h /\ correlation_id h = c.
Proof.
  intros Hi Hk Hs Hr. destruct (event_brings s event Hi) as (_ & Hslots & _).
  destruct (Hslots c slot r Hs Hr) as [Hold|(mt & fl & p & frame & -> & He & Hw)].
  - destruct (mi_slots _ Hi c slot r Hold Hr) as [Hc (frame & h & Hf & Hd)]. split; [exact Hc|].
    exists frame, h. split; [|exact Hd]. cbn [handles wire]. apply elem_of_app. by left.
  - destruct Hk as (Hid & Hmt & Hfl & _ & Hcall). specialize (Hcall eq_refl). split; [by eexists|]. exists frame.
    apply encode_outbound_ok in He as (_ & Hd & _); [|done..]. eexists. split; [|by split].
    cbn [handles wire]. apply elem_of_app. by right.
Qed.

(** A successful answer is the broker's answer to the caller's own request. *)
Lemma answered_known s event r x :
  MuxInv s -> event_known s event ->
  (r, x) ∈ answers (st_effects (io_step transport (mx_generation s) (mx_shared s) (mx_session s) event)) ->
  exists call, call ∈ calls s /\ call_responder call = r /\ x = serve (call_type call) (call_payload call).
Proof.
  intros Hi Hk Ha. apply io_step_answers in Ha; [|apply Hi].
  destruct Ha as (frame & sh' & e & mt & c & slot & -> & Hd & Hc & Hs & Hr).
  destruct (mi_slots _ Hi _ _ _ Hs Hr) as [(call & Hin & Hid & Hcr) _]. exists call. split; [done|]. split; [done|].
  apply decode_incoming_record in Hd as (h & Hh & _ & -> & Hfin & Hp).
  destruct (Hk h Hh Hc) as (Hfl & asked & ha & Hw & Hha & Hca & Hserve).
  { intros E. rewrite E in Hfin. discriminate Hfin. }
  rewrite Hp by (by rewrite Hfl). rewrite Hserve.
  pose proof (mi_wire _ Hi) as Hwire. rewrite Forall_forall in Hwire.
  destruct (Hwire _ Hw) as (ha' & Hha' & _ & Hcalls). rewrite Hha in Hha'. injection Hha' as <-.
  destruct (Hcalls call Hin) as [-> ->]; [by rewrite Hca|]. done.
Qed.

Lemma command_kept s event rest c : MuxInv s -> command_known s c -> command_known (handles s event rest) c.
Proof.
  intros Hi. destruct c; cbn [command_known]; try done.
  intros (Hid & Hmt & Hg & H). split; [done|]. split; [done|]. split; [done|]. intros E.
  destruct (H E) as [Hp Hno]. split; [by apply past_kept | exact Hno].
Qed.

Lemma frame_kept s event rest frame : MuxInv s -> frame_known s frame -> frame_known (handles s event rest) frame.
Proof.
  intros Hi (h & Hd & Hp & Hc). exists h. split; [done|]. split; [|done].
  destruct Hp as [?|Hp]; [by left | right; by apply past_kept].
Qed.

Lemma inv_handles s event rest :
  MuxInv s -> event_known s event -> Forall (command_known s) rest -> MuxInv (handles s event rest).
Proof.
  intros Hi Hk Hrest.
  assert (Hdrafts : Forall (command_known s) (drafts s)).
  { pose proof (mi_channel _ Hi) as H. by apply Forall_app in H as [? _]. }
  split; cbn [handles calls earlier channel drafts].
  - assert (Hwf : match event with IoCommand c => command_wf c | _ => True end).
    { destruct event as [[[]|]| |]; cbn in *; tauto. }
    destruct (io_step_keeps transport (mx_generation s) _ _ event (mi_established _ Hi) Hwf) as (_ & He & _). exact He.
  - eapply Forall_impl; [apply Hi|]. intros c [? ?]. split; [done | by apply past_kept].
  - apply Hi.
  - apply (Forall_impl (command_known s)); [by apply Forall_app|]. intros c. by apply command_kept.
  - cbn [wire]. apply Forall_app. split.
    + eapply Forall_impl; [apply Hi|]. intros f. by apply frame_kept.
    + apply Forall_forall. intros f. by apply written_known.
  - intros c slot r. by apply handles_slots.
  - cbn [delivered]. apply Forall_app. split; [apply Hi|]. apply Forall_forall. intros [r x] Hx.
    destruct (answered_known s event r x Hi Hk Hx) as (call & Hc & H). exists call. split; [apply elem_of_app; by right | exact H].
  - apply Hi.
Qed.

(** ** Handles keep the invariant *)

(** More calls, with new ids, and a counter that went on. *)
Lemma command_more s next c call r d :
  command_known s d -> (forall k, past (next_request_id (mx_shared s)) k -> past next k) ->
  (forall y, y ∈ call -> ~ past (next_request_id (mx_shared s)) (call_id y)) ->
  command_known (submits_command s next c call r) d.
Proof.
  intros Hd Hmono Hnew. destruct d as [|id gen mt fl p r'|id gen mt p r'|]; cbn in *; try done.
  - destruct Hd as (? & ? & ? & ? & Hin). do 4 (split; [done|]). intros E. apply elem_of_app. left. by apply Hin.
  - destruct Hd as (? & ? & ? & Hd). do 3 (split; [done|]). intros E. destruct (Hd E) as [Hp Hno].
    split; [by apply Hmono|]. rewrite map_app, elem_of_app.
    intros [?|(y & Ey & Hy)%list_elem_of_fmap]; [done|]. apply (Hnew y Hy). by rewrite <- Ey.
Qed.

Lemma frame_more s next c call r frame :
  frame_known s frame -> (forall k, past (next_request_id (mx_shared s)) k -> past next k) ->
  (forall y, y ∈ call -> 0 < call_id y /\ ~ past (next_request_id (mx_shared s)) (call_id y)) ->
  frame_known (submits_command s next c call r) frame.
Proof.
  intros (h & Hd & Hp & Hc) Hmono Hnew. exists h. split; [done|]. split.
  - cbn. destruct Hp as [?|Hp]; [by left | right; by apply Hmono].
  - intros x. cbn [submits_command calls]. rewrite elem_of_app. intros [Hx|Hx] E; [by apply Hc|]. exfalso.
    destruct (Hnew x Hx) as [Hpos Hn]. rewrite E in Hpos, Hn. destruct Hp; [lia | done].
Qed.

Lemma more_calls (f : Call -> N) old call :
  NoDup (map f old) -> (length call <= 1)%nat -> (forall x y, x ∈ call -> y ∈ old -> f y <> f x) ->
  NoDup (map f (old ++ call)).
Proof.
  intros Ho Hone Hne. rewrite map_app. apply NoDup_app. split; [done|]. split.
  - intros k (x & -> & Hx)%list_elem_of_fmap (y & E & Hy)%list_elem_of_fmap. by apply (Hne y x).
  - destruct call as [|x [|y l]]; [constructor | apply NoDup_singleton | cbn in Hone; lia].
Qed.

(** What a new call, or none, needs of the state. *)
Lemma inv_submits s next c call r :
  MuxInv s -> r ∉ issued s ->
  (forall k, past (next_request_id (mx_shared s)) k -> past next k) ->
  Forall (fun x => 0 < call_id x /\ past next (call_id x) /\ ~ past (next_request_id (mx_shared s)) (call_id x)
                   /\ call_responder x = r) call ->
  (length call <= 1)%nat ->
  command_known (submits_command s next c call r) c ->
  MuxInv (submits_command s next c call r).
Proof.
  intros Hi Hr Hmono Hcall Hone Hknown. rewrite Forall_forall in Hcall. destruct (mi_callers _ Hi) as [Hcn Hci].
  pose proof (mi_calls _ Hi) as Hold. rewrite Forall_forall in Hold. rewrite Forall_forall in Hci.
  split; cbn [submits_command mx_shared mx_session mx_generation drafts channel wire calls earlier delivered gone issued over].
  - exact (mi_established _ Hi).
  - apply Forall_app. split; apply Forall_forall; intros x Hx; [|by destruct (Hcall x Hx) as (? & ? & _)].
    destruct (Hold x Hx). split; [done | by apply Hmono].
  - apply more_calls; [apply Hi | done|]. intros x y Hx Hy E. destruct (Hcall x Hx) as (_ & _ & Hn & _). apply Hn.
    rewrite <- E. by apply Hold.
  - assert (Hp : (drafts s ++ [c]) ++ channel s ≡ₚ c :: drafts s ++ channel s) by solve_Permutation.
    rewrite Hp. constructor; [done|]. eapply Forall_impl; [apply Hi|].
    intros d Hd. eapply command_more; [exact Hd | exact Hmono |]. intros y Hy. by apply Hcall.
  - eapply Forall_impl; [apply Hi|]. intros f Hf. eapply frame_more; [exact Hf | exact Hmono |].
    intros y Hy. destruct (Hcall y Hy) as (? & _ & ? & _). by split.
  - intros k slot r' Hs Hr'. destruct (mi_slots _ Hi k slot r' Hs Hr') as [(x & Hx & ?) Hw]. split; [|exact Hw].
    exists x. split; [apply elem_of_app; by left | done].
  - eapply Forall_impl; [apply Hi|]. intros d (x & Hx & ?). exists x.
    split; [rewrite app_assoc; apply elem_of_app; by left | done].
  - rewrite app_assoc. split.
    + apply more_calls; [exact Hcn | done|]. intros x y Hx Hy E. destruct (Hcall x Hx) as (_ & _ & _ & Er). apply Hr.
      rewrite <- Er, <- E. by apply Hci, list_elem_of_fmap_2.
    + rewrite map_app. apply Forall_app. split; apply Forall_forall; intros k Hk; apply elem_of_cons; [right; by apply Hci | left].
      apply list_elem_of_fmap in Hk as (y & -> & Hy). by destruct (Hcall y Hy) as (_ & _ & _ & ->).
Qed.

(** Commands move between the handles and the queue, or are dropped. *)
Lemma inv_leaves s rest queue ended :
  MuxInv s -> rest ++ queue ⊆+ drafts s ++ channel s -> MuxInv (leaves_drafts s rest queue ended).
Proof.
  intros Hi Hsub.
  split; cbn [leaves_drafts mx_shared mx_session mx_generation drafts channel wire calls earlier delivered gone issued over]; try apply Hi.
  apply Forall_forall. intros c Hc. pose proof (mi_channel _ Hi) as H. rewrite Forall_forall in H.
  assert (Hk : command_known s c) by (apply H; by eapply elem_of_submseteq). by destruct c.
Qed.

(** The generation goes on, whoever adds to it. *)
Lemma inv_counted s sh :
  MuxInv s -> next_request_id sh = next_request_id (mx_shared s) -> same_limits (mx_shared s) sh -> MuxInv (set_shared sh s).
Proof.
  intros Hi Hn Hl.
  split; cbn [set_shared mx_shared mx_session mx_generation drafts channel wire calls earlier delivered gone issued over]; rewrite ?Hn; try apply Hi.
  - eapply established_same; [exact Hl | apply Hi].
  - eapply Forall_impl; [apply Hi|]. intros c. destruct c; cbn; by rewrite ?Hn.
  - eapply Forall_impl; [apply Hi|]. intros f. unfold frame_known. cbn. by rewrite Hn.
Qed.

(** The next session knows none of the calls before it. *)
Lemma inv_reopened s sh :
  MuxInv s -> mx_generation s < generation sh -> supervisor_correlation_enabled sh = true -> MuxInv (reopened s sh []).
Proof.
  intros Hi Hg Hc.
  split; cbn [reopened mx_shared mx_session mx_generation drafts channel wire calls earlier delivered gone issued over];
    rewrite ?app_nil_r; try apply Hi; try by constructor.
  - by apply established_empty.
  - eapply Forall_impl; [apply Hi|]. intros c. destruct c; cbn; try done.
    + intros (? & ? & ? & ? & _). do 3 (split; [done|]). split; lia.
    + intros (? & ? & ? & _). do 2 (split; [done|]). split; lia.
Qed.

Lemma inv_channel s : MuxInv s -> Forall (command_known s) (channel s).
Proof. intros Hi. pose proof (mi_channel _ Hi) as H. by apply Forall_app in H as [_ ?]. Qed.

Lemma inv_requests s r id next mt fl p :
  MuxInv s -> r ∉ issued s -> generation (mx_shared s) = mx_generation s ->
  allocate_request_id (next_request_id (mx_shared s)) = (Ok id, next) -> id < 2 ^ 64 -> mt < 2 ^ 16 -> fl < 2 ^ 8 ->
  MuxInv (submits_command s next (Request id (generation (mx_shared s)) mt fl p r)
            [{| call_responder := r; call_id := id; call_type := mt; call_payload := p |}] r).
Proof.
  intros Hi Hr Hg Ha Hid Hmt Hfl. apply allocate_past in Ha as (Hpos & -> & Hp & Hmono).
  apply inv_submits; [done|done|by intros k []%Hmono| |cbn; lia|].
  - apply Forall_singleton. split; [done|]. split; [done|]. split; [|done]. cbn. intros []%Hmono. done.
  - cbn. do 3 (split; [done|]). split; [lia|]. intros _. apply elem_of_app; right; by apply list_elem_of_singleton.
Qed.

Lemma inv_sends s r id next mt p :
  MuxInv s -> r ∉ issued s -> generation (mx_shared s) = mx_generation s ->
  allocate_request_id (next_request_id (mx_shared s)) = (Ok id, next) -> id < 2 ^ 64 -> mt < 2 ^ 16 ->
  MuxInv (submits_command s next (Send id (generation (mx_shared s)) mt p r) [] r).
Proof.
  intros Hi Hr Hg Ha Hid Hmt. apply allocate_past in Ha as (Hpos & -> & Hp & Hmono).
  apply inv_submits; [done|done|by intros k []%Hmono|constructor|cbn; lia|]. cbn. do 2 (split; [done|]).
  split; [lia|]. intros _. split; [done|].
  rewrite app_nil_r. intros (x & E & Hx)%list_elem_of_fmap. pose proof (mi_calls _ Hi) as H. rewrite Forall_forall in H.
  destruct (H x Hx) as [_ []%Hmono]. done.
Qed.

Lemma inv_mux_step s s' : steady = true -> MuxInv s -> mux_step s s' -> MuxInv s'.
Proof.
  intros Hst Hi Hstep. destruct Hstep as [r id next mt fl p Hr Hg Ha|r id next mt p Hr Hg Ha|r c Hr Hc
    |before c after Hns _|before c after Hd|before c after Hd|c rest _ Hch|_ _ _|id _|frame _ Hh|error _|_ _|_ _|c rest _ Hch|sh un _ Hg (Hc & Hsg & _) _ Hun].
  - apply inv_requests; auto.
  - apply inv_sends; auto.
  - apply inv_submits; [done|done|done|constructor|cbn; lia|by destruct Hc as [->| ->]].
  - congruence.
  - apply (inv_leaves s _ _ _ Hi). rewrite Hd. apply Permutation_submseteq. solve_Permutation.
  - apply (inv_leaves s _ _ _ Hi). rewrite Hd. apply submseteq_app; [|done]. apply submseteq_app; [done | by apply submseteq_cons].
  - pose proof (inv_channel _ Hi) as Hall. rewrite Hch in Hall. apply Forall_cons in Hall as [Hc Hrest]. by apply inv_handles.
  - by apply inv_handles.
  - apply inv_handles; [done|done|by apply inv_channel].
  - apply inv_handles; [done|done|by apply inv_channel].
  - apply inv_handles; [done|done|by apply inv_channel].
  - by apply inv_counted.
  - by apply inv_counted.
  - apply (inv_leaves s _ _ _ Hi). rewrite Hch. apply submseteq_app; [done | by apply submseteq_cons].
  - rewrite (Hun Hst). apply inv_reopened; [done | by rewrite Hsg | done].
Qed.

Lemma inv_mux_reachable sh s :
  steady = true -> supervisor_correlation_enabled sh = true -> mux_reachable (mux_opened sh) s -> MuxInv s.
Proof.
  intros Hst Hc. induction 1 as [|s s' _ IH Hs]; [|by eapply inv_mux_step].
  split; cbn; try done; try by constructor.
  - by apply established_empty.
  - by split; constructor.
Qed.

(** ** Answers arrive *)

Lemma header_bounds frame h :
  decode_frame_header frame = Ok h -> message_type h < 2 ^ 16 /\ correlation_id h < 2 ^ 64.
Proof.
  intros (Hl & _ & _ & ->)%decode_frame_header_ok. cbn [message_type correlation_id].
  split; [apply (from_be_slice_bound 2) | apply (from_be_slice_bound 8)]; lia.
Qed.

Definition control_types : list N := [HELLO; GOAWAY; CONNECT_REJECTED].

Lemma decode_incoming_response sh mt c p frame :
  mt < 2 ^ 16 -> c < 2 ^ 64 -> try_encode_frame mt RESPONSE_FINAL c p = Ok frame ->
  blen frame <= max_message_bytes sh -> mt ∉ control_types ->
  decode_incoming sh frame = Ok (sh, [], [(mt, p, c, true)]).
Proof.
  intros Hmt Hc He Hl Hno. apply decode_encoded in He as [Hd Hp]; [|done..].
  unfold control_types in Hno. rewrite !not_elem_of_cons in Hno. destruct Hno as (H1%N.eqb_neq & H2%N.eqb_neq & H3%N.eqb_neq & _).
  unfold decode_incoming. destruct (N.ltb_spec (max_message_bytes sh) (blen frame)); [lia|].
  rewrite Hd. unfold mbind, result_mbind, result_bind. cbn [message_type flags]. unfold Wire3.decode.
  change (N.land RESPONSE_FINAL EXTENSIONS_PRESENT =? 0) with true. cbn iota. rewrite H1. cbn iota. rewrite H2, H3.
  by rewrite Hp.
Qed.

Lemma waiting_call_answered s call slot frame :
  MuxInv s -> call ∈ calls s -> correlated (mx_session s) !! call_id call = Some slot ->
  pr_response slot = Some (call_responder call) -> call_type call ∉ control_types ->
  try_encode_frame (call_type call) RESPONSE_FINAL (call_id call) (serve (call_type call) (call_payload call)) = Ok frame ->
  blen frame <= max_message_bytes (mx_shared s) ->
  honest s frame
  /\ (call_responder call, serve (call_type call) (call_payload call)) ∈ delivered (handles s (IoFrame (Ok frame)) (channel s)).
Proof.
  intros Hi Hin Hs Hr Hno He Hl. destruct (mi_slots _ Hi _ _ _ Hs Hr) as [_ (asked & ha & Hw & Hd & Hc)].
  pose proof (mi_wire _ Hi) as Hwire. rewrite Forall_forall in Hwire. destruct (Hwire _ Hw) as (ha' & Hd' & _ & Hcalls).
  rewrite Hd in Hd'. injection Hd' as <-. destruct (Hcalls call Hin (eq_sym Hc)) as [Hmt Hp].
  destruct (header_bounds _ _ Hd) as [B1 B2]. rewrite Hmt in B1. rewrite Hc in B2.
  pose proof (mi_calls _ Hi) as Hpos. rewrite Forall_forall in Hpos. destruct (Hpos call Hin) as [Hnz _].
  pose proof He as He'. apply decode_encoded in He' as [Hdf Hpf]; [|done..]. split.
  - intros h Hh _ _. rewrite Hdf in Hh. injection Hh as <-. split; [done|]. exists asked, ha.
    split; [done|]. split; [done|]. split; [done|]. by rewrite Hpf, Hmt, Hp.
  - cbn [handles delivered]. apply elem_of_app. right. apply io_step_answers; [apply Hi|].
    exists frame, (mx_shared s), [], (call_type call), (call_id call), slot. split; [done|].
    split; [by apply decode_incoming_response|]. split; [lia | done].
Qed.

(** The broker may answer a request it read. *)
Lemma honest_response s mt id p asked frame :
  mt < 2 ^ 16 -> id < 2 ^ 64 -> asked ∈ wire s -> try_encode_frame mt 0 id p = Ok asked ->
  try_encode_frame mt RESPONSE_FINAL id (serve mt p) = Ok frame -> honest s frame.
Proof.
  intros Hm Hid Hw Ha Hf h Hh _ _. apply decode_encoded in Ha as [Hda Hpa]; [|done..].
  apply decode_encoded in Hf as [Hdf Hpf]; [|done..]. rewrite Hdf in Hh. injection Hh as <-. split; [done|].
  exists asked. eexists. split; [done|]. split; [exact Hda|]. split; [done|]. by rewrite Hpf, Hpa.
Qed.

(** C1: every caller gets the answer to its own request, over any number of
    sessions.  Whatever handles submit, the task takes, callers cancel, the
    broker sends and sessions are lost and replaced, and in whatever order, as
    long as ids are drawn and stamped under one session, the broker's final
    responses answer requests it read on the session, and none to a restore
    request is left over: an answer is delivered to a responder at most once, it
    is the broker's answer to the type and payload of the one call that has that
    responder, and a call that still waits gets its answer as soon as the
    broker's response arrives. *)
Theorem callers_get_their_answers sh s :
  steady = true -> supervisor_correlation_enabled sh = true -> mux_reachable (mux_opened sh) s ->
  NoDup (map fst (delivered s))
  /\ (forall r x, (r, x) ∈ delivered s ->
        exists call, call ∈ earlier s ++ calls s /\ call_responder call = r /\ x = serve (call_type call) (call_payload call)
          /\ forall other, other ∈ earlier s ++ calls s -> call_responder other = r -> other = call)
  /\ (forall call slot frame,
        call ∈ calls s -> correlated (mx_session s) !! call_id call = Some slot ->
        pr_response slot = Some (call_responder call) -> call_type call ∉ control_types ->
        try_encode_frame (call_type call) RESPONSE_FINAL (call_id call)
          (serve (call_type call) (call_payload call)) = Ok frame ->
        blen frame <= max_message_bytes (mx_shared s) ->
        honest s frame
        /\ (call_responder call, serve (call_type call) (call_payload call))
             ∈ delivered (handles s (IoFrame (Ok frame)) (channel s))).
Proof.
  intros Hst Hc Hs. pose proof (inv_mux_reachable _ _ Hst Hc Hs) as Hi. split; [|split].
  - by eapply delivered_once, accounts_reachable.
  - intros r x Hd. pose proof (mi_delivered _ Hi) as H. rewrite Forall_forall in H.
    destruct (H _ Hd) as (call & Hin & Hr & Hx). exists call. do 3 (split; [done|]).
    intros other Ho Hor. eapply (nodup_map_inj call_responder); [apply (mi_callers _ Hi) | done | done | cbn in *; congruence].
  - intros call slot frame. by apply waiting_call_answered.
Qed.

(** C2: no caller is lost or answered twice, steady or not.  Each responder
    made so far is with exactly one command on its way to the task, in exactly
    one slot of the session's table, or was answered or dropped exactly once;
    the table of a session that ended is empty, and when the transport fails
    every caller in it is answered there and then. *)
Theorem no_caller_is_lost sh s :
  mux_reachable (mux_opened sh) s ->
  issued s ≡ₚ responders (drafts s ++ channel s) ++ owned (mx_session s) ++ gone s
  /\ NoDup (responders (drafts s ++ channel s) ++ owned (mx_session s) ++ gone s)
  /\ (over s = true -> owned (mx_session s) = [])
  /\ (forall error, let s' := handles s (IoFrame (Err error)) (channel s) in
        over s' = true /\ gone s' ≡ₚ gone s ++ owned (mx_session s)).
Proof.
  intros Hs. pose proof (accounts_reachable _ _ Hs) as [Hi Hn _ Ho]. split; [exact Hi|]. split; [by rewrite <- Hi|].
  split; [exact Ho|]. intros error. cbn zeta.
  destruct (io_step_conserves transport (mx_generation s) (mx_shared s) (mx_session s) (IoFrame (Err error))) as [Hp Hr].
  cbn [handles over gone]. cbn [io_step io_responders] in *. rewrite app_nil_r in Hp.
  assert (Hsome : exists r, st_result (disconnect (mx_shared s) (mx_session s) []) = Some r).
  { unfold disconnect. destruct (fail_all _). by eexists. }
  destruct Hsome as [r E]. rewrite E in *. split; [done|]. rewrite Hr in Hp by done. by rewrite Hp.
Qed.
End System.

(** ** Two callers, whose requests and answers change order, and a third on the next session *)

Definition shout (mt : N) (payload : bytes) : bytes := payload ++ str "!".

Local Abbreviation sample_handles := (handles accepts).

Definition response_to (mt id : N) (payload : bytes) : bytes :=
  match try_encode_frame mt RESPONSE_FINAL id (shout mt payload) with Ok frame => frame | Err _ => [] end.

Definition get_call (r : responder) (id : N) (payload : bytes) : Call :=
  {| call_responder := r; call_id := id; call_type := KV_GET; call_payload := payload |}.
Definition first_request : Command := Request 1 0 KV_GET 0 (str "a") 7.
Definition second_request : Command := Request 2 0 KV_GET 0 (str "b") 8.

Definition both_written : Mux :=
  let s := submits_command (mux_opened sample_shared) 2 first_request [get_call 7 1 (str "a")] 7 in
  let s := submits_command s 3 second_request [get_call 8 2 (str "b")] 8 in
  let s := leaves_drafts s [first_request] [second_request] [] in
  let s := leaves_drafts s [] [second_request; first_request] [] in
  let s := sample_handles s (IoCommand (Some second_request)) [first_request] in
  sample_handles s (IoCommand (Some first_request)) [].

Definition both_answered : Mux :=
  sample_handles (sample_handles both_written (IoFrame (Ok (response_to KV_GET 2 (str "b")))) [])
    (IoFrame (Ok (response_to KV_GET 1 (str "a")))) [].

Definition next_session : Mux :=
  let s := sample_handles both_answered (IoFrame (Err ConnectionClosed)) [] in
  let s := set_shared (next_generation (mx_shared s)) s in
  reopened s (set_next_request_id 1 (mx_shared s)) [].

Definition third_request : Command := Request 1 (generation (mx_shared next_session)) KV_GET 0 (str "c") 9.

Definition third_written : Mux :=
  let s := submits_command next_session 2 third_request [get_call 9 1 (str "c")] 9 in
  let s := leaves_drafts s [] [third_request] [] in
  sample_handles s (IoCommand (Some third_request)) [].

Definition third_answered : Mux := sample_handles third_written (IoFrame (Ok (response_to KV_GET 1 (str "c")))) [].

Definition request_frame (id : N) (payload : bytes) : bytes :=
  match try_encode_frame KV_GET 0 id payload with Ok frame => frame | Err _ => [] end.

Local Abbreviation sample_run := (mux_reachable accepts shout true (mux_opened sample_shared)).

(** The steps of the samples. *)
Lemma sample_requests steady s r id next p :
  in_session steady s -> r ∉ issued s -> allocate_request_id (next_request_id (mx_shared s)) = (Ok id, next) -> id < 2 ^ 64 ->
  mux_step accepts shout steady s
    (submits_command s next (Request id (generation (mx_shared s)) KV_GET 0 p r) [get_call r id p] r).
Proof. intros. by apply step_request. Qed.

Lemma sample_answers steady s id p :
  over s = false -> id < 2 ^ 64 -> request_frame id p ∈ wire s ->
  try_encode_frame KV_GET 0 id p = Ok (request_frame id p) ->
  try_encode_frame KV_GET RESPONSE_FINAL id (shout KV_GET p) = Ok (response_to KV_GET id p) ->
  mux_step accepts shout steady s (sample_handles s (IoFrame (Ok (response_to KV_GET id p))) (channel s)).
Proof. intros Ho Hid Hw H1 H2. apply step_frame; [done|]. by apply (honest_response shout s KV_GET id p (request_frame id p)). Qed.

Lemma both_written_reachable : sample_run both_written.
Proof.
  unfold both_written.
  eapply mux_next; [eapply mux_next; [eapply mux_next; [eapply mux_next; [eapply mux_next; [eapply mux_next; [apply mux_start|]|]|]|]|]|].
  - apply (sample_requests true (mux_opened sample_shared) 7 1 2 (str "a")); [done | apply not_elem_of_nil | reflexivity..].
  - apply (sample_requests true _ 8 2 3 (str "b")); [done | | reflexivity..].
    by intros [? | []%not_elem_of_nil]%elem_of_cons.
  - apply (step_queue accepts shout true _ [first_request] second_request []); reflexivity.
  - apply (step_queue accepts shout true _ [] first_request []); reflexivity.
  - apply step_take; reflexivity.
  - apply step_take; reflexivity.
Qed.

Lemma both_written_wire : wire both_written = [request_frame 2 (str "b"); request_frame 1 (str "a")].
Proof. vm_compute. reflexivity. Qed.

Lemma both_answered_reachable : sample_run both_answered.
Proof.
  unfold both_answered.
  eapply mux_next; [eapply mux_next; [exact both_written_reachable|]|].
  - apply (sample_answers true both_written 2 (str "b")); [vm_compute; reflexivity | reflexivity | | vm_compute; reflexivity..].
    rewrite both_written_wire. apply elem_of_cons. by left.
  - apply (sample_answers true (sample_handles both_written _ []) 1 (str "a"));
      [vm_compute; reflexivity | reflexivity | | vm_compute; reflexivity..].
    cbn [handles wire]. rewrite both_written_wire. apply elem_of_app. left. apply elem_of_cons. right. by apply list_elem_of_singleton.
Qed.

Lemma next_session_reachable : sample_run next_session.
Proof.
  unfold next_session. eapply mux_next; [eapply mux_next; [eapply mux_next; [exact both_answered_reachable|]|]|].
  - apply (step_socket accepts shout true both_answered). vm_compute. reflexivity.
  - apply step_lost; vm_compute; reflexivity.
  - apply step_reopen; [vm_compute; reflexivity..| | constructor | done].
    split; [vm_compute; reflexivity|]. split; vm_compute; reflexivity.
Qed.

Lemma third_answered_reachable : sample_run third_answered.
Proof.
  unfold third_answered, third_written.
  eapply mux_next; [eapply mux_next; [eapply mux_next; [eapply mux_next; [exact next_session_reachable|]|]|]|].
  - apply (sample_requests true next_session 9 1 2 (str "c")); [intros _; vm_compute; reflexivity | | vm_compute; reflexivity..].
    intros Hin. eapply (bool_decide_eq_false_1 (9 ∈ issued next_session)); [vm_compute; reflexivity | exact Hin].
  - apply (step_queue accepts shout true _ [] third_request []); vm_compute; reflexivity.
  - apply step_take; vm_compute; reflexivity.
  - apply (sample_answers true third_written 1 (str "c")); [vm_compute; reflexivity | reflexivity | | vm_compute; reflexivity..].
    replace (wire third_written) with [request_frame 1 (str "c")] by (vm_compute; reflexivity). by apply list_elem_of_singleton.
Qed.

Lemma callers_get_their_answers_witness :
  delivered third_answered = [(8, str "b!"); (7, str "a!"); (9, str "c!")]
  /\ NoDup (map fst (delivered third_answered))
  /\ exists call, call ∈ earlier third_answered ++ calls third_answered /\ call_responder call = 9
       /\ call_payload call = str "c" /\ str "c!" = shout (call_type call) (call_payload call).
Proof.
  assert (Hd : delivered third_answered = [(8, str "b!"); (7, str "a!"); (9, str "c!")]) by (vm_compute; reflexivity).
  destruct (callers_get_their_answers accepts shout true sample_shared third_answered eq_refl eq_refl third_answered_reachable)
    as (Hn & Ha & _).
  split; [exact Hd|]. split; [exact Hn|].
  destruct (Ha 9 (str "c!")) as (call & Hin & Hr & Hx & Hu); [rewrite Hd, !elem_of_cons; tauto|].
  exists call. split; [exact Hin|]. split; [exact Hr|]. split; [|exact Hx].
  rewrite <- (Hu (get_call 9 1 (str "c"))); [reflexivity| |reflexivity].
  replace (earlier third_answered ++ calls third_answered)
    with [get_call 7 1 (str "a"); get_call 8 2 (str "b"); get_call 9 1 (str "c")] by (vm_compute; reflexivity).
  rewrite !elem_of_cons. tauto.
Defined.

(** Both requests of the first session are outstanding. *)
Lemma no_caller_is_lost_witness :
  owned (mx_session both_written) ≡ₚ [7; 8]
  /\ gone (sample_handles both_written (IoFrame (Err ConnectionClosed)) []) ≡ₚ gone both_written ++ owned (mx_session both_written).
Proof.
  split; [vm_compute; by constructor|].
  destruct (no_caller_is_lost accepts shout true sample_shared both_written both_written_reachable) as (_ & _ & _ & H).
  apply (H ConnectionClosed).
Defined.
