(* ===== verification/Supervisor.v ===== *)
(** * Supervisor

    [src/src/async_connection.rs], the supervisor task: opening and
    authenticating a session, restoring registrations, the connect loop with its
    back-off, and the idle command loop.

    What the outside world answers (the token provider, the sockets, the broker's
    frames) is an argument of the step that awaits it; what other tasks do to the
    shared state meanwhile is a function [Shared -> Shared] applied at that
    await. *)

From S2P Require Import Prelude Errors Protocol Codec Wire3 Routes Shared Session.
Import message_type.

(** [ReconnectPolicy] of [src/src/lib.rs].  The multiplier, an [f64], is the
    exact rational [num / den]. *)
Record ReconnectPolicy : Set := {
  reconnect_enabled : bool;
  reconnect_base : duration;
  multiplier_num : N;
  multiplier_den : N;
  reconnect_maximum : duration;
  reconnect_attempts : N;
}.

Definition ReconnectPolicy_default : ReconnectPolicy :=
  {| reconnect_enabled := true; reconnect_base := millis 100; multiplier_num := 2;
     multiplier_den := 1; reconnect_maximum := secs 30; reconnect_attempts := 0 |}.

Record Supervisor : Set := {
  endpoint : bytes;
  service_name : option bytes;
  reconnect : ReconnectPolicy;
  heartbeat : HeartbeatOptions;
}.

(** ** Authentication *)

Definition auth_closed : FitzError :=
  Authentication (str "broker closed the connection during authentication").

Definition decode_connect_rejected (payload : bytes) : Result (N * bytes) :=
  run_dec
    (code <- get_u16;;
     message <- get_string;;
     fin <- at_end;;
     if fin : bool then mret (code, message)
     else dec_fail (Protocol (str "CONNECT_REJECTED has trailing bytes")))
    payload.

Definition process_auth_frame (sh : Shared) (header : FrameHeader) (payload : bytes) : Result Shared :=
  let* '(payload, capability_mask) := Wire3.decode payload (message_type header) (flags header) in
  if control_misflagged header
  then Err (Protocol (str "authentication control frame has nonzero flags or correlation"))
  else if message_type header =? HELLO then apply_server_hello sh payload capability_mask
  else if message_type header =? CONNECT_REJECTED then
    let* '(code, message) := decode_connect_rejected payload in
    if code =? 50 then Err (VersionMismatch code message)
    else Err (Authentication (dec code ++ str ": " ++ message))
  else Err (Protocol (str "broker sent an unexpected authentication response")).

Definition process_auth_bytes (sh : Shared) (frame : bytes) : Result Shared :=
  header <- decode_frame_header frame;;
  process_auth_frame sh header (frame_payload header frame).

(** The TCP arm: [None] is the timeout. *)
Definition settle_tcp (sh : Shared) (read : option (Result bytes)) : Result Shared :=
  match read with
  | None => Err Timeout
  | Some (Ok frame) => process_auth_bytes sh frame
  | Some (Err ConnectionClosed) => Err auth_closed
  | Some (Err e) => Err e
  end.

(** The WebSocket arm: the messages that arrive before the deadline, each with
    the transport's answer to a Pong; running out of them is the timeout. *)
Fixpoint settle_websocket (sh : Shared) (reads : list (option (result bytes WsMessage) * Result unit)) :
    list Effect * Result Shared :=
  match reads with
  | [] => ([], Err Timeout)
  | (read, pong) :: reads' =>
      match read with
      | Some (Ok (Ping payload)) =>
          match pong with
          | Ok _ => let '(e, r) := settle_websocket sh reads' in (WritePong payload :: e, r)
          | Err e => ([WritePong payload], Err e)
          end
      | Some (Ok (Pong _)) => settle_websocket sh reads'
      | Some (Ok (Binary frame)) => ([], process_auth_bytes sh frame)
      | Some (Ok OtherMessage) | None => ([], Err auth_closed)
      | Some (Err error) => ([], Err (Authentication error))
      end
  end.

(** ** Opening a session *)

(** The answers of one attempt. *)
Record Attempt : Type := {
  token : Result bytes;
  connect_socket : Result unit;
  set_keepalive : Result unit;
  write_socket : bytes -> Result unit;
  tcp_read : option (Result bytes);
  ws_reads : list (option (result bytes WsMessage) * Result unit);
}.

Definition package_version : bytes := str "0.4.0".

Definition connect_payload (token : bytes) (service : option bytes) : bytes :=
  finish (PayloadEncoder_new .> put_u16 3 .> put_u16 3 .> put_u32 0 .> put_string token
            .> put_string (default [] service) .> put_string (str "fitz-rs/" ++ package_version)).

(** [write_session]. *)
Definition write_session (a : Attempt) (mt : N) (payload : bytes) : list Effect * Result unit :=
  match try_encode_frame mt EXTENSIONS_PRESENT 0 payload with
  | Ok frame => ([Write frame], write_socket a frame)
  | Err e => ([], Err e)
  end.

Inductive SessionTransport : Set := Tcp | WebSocket.

Definition endpoint_transport (endpoint : bytes) : option SessionTransport :=
  if starts_with (str "tcp://") endpoint then Some Tcp
  else if starts_with (str "ws://") endpoint || starts_with (str "wss://") endpoint then Some WebSocket
  else None.

Definition connect_transport (sup : Supervisor) (a : Attempt) : Result SessionTransport :=
  match endpoint_transport (endpoint sup) with
  | Some Tcp =>
      connect_socket a;;
      if heartbeat_enabled (heartbeat sup) then set_keepalive a;; Ok Tcp else Ok Tcp
  | Some WebSocket => connect_socket a;; Ok WebSocket
  | None => Err (Connection (str "endpoint must use tcp://, ws://, or wss://"))
  end.

(** The shared state, the effects, and the outcome. *)
Definition Opened : Type := Shared * list Effect * Result SessionTransport.

Definition open_session (sup : Supervisor) (a : Attempt) (sh : Shared) : Opened :=
  let sh := set_capabilities 0 sh in
  match token a with
  | Err e => (sh, [], Err e)
  | Ok tok =>
      let sh := set_state Connecting sh in
      match connect_transport sup a with
      | Err e => (sh, [], Err e)
      | Ok transport =>
          let sh := set_state Authenticating sh in
          let started := emit_lifecycle sh (str "auth_start") in
          match Wire3.encode (connect_payload tok (service_name sup)) [(1, CLIENT_CAPABILITIES)] with
          | Err e => (sh, started, Err e)
          | Ok payload =>
              let '(e, sent) := write_session a CONNECT payload in
              match sent with
              | Err err => (sh, started ++ e, Err err)
              | Ok _ =>
                  let '(e', settled) :=
                    match transport with
                    | Tcp => ([], settle_tcp sh (tcp_read a))
                    | WebSocket => settle_websocket sh (ws_reads a)
                    end in
                  match settled with
                  | Ok sh' => (sh', started ++ e ++ e', Ok transport)
                  | Err err => (sh, started ++ e ++ e', Err err)
                  end
              end
          end
      end
  end.

(** ** Restoring registrations *)

(** One registration's round trip: the transport's answer to its write, and the
    frames that arrive; running out of them is the timeout. *)
Record RoundTrip : Type := {
  rt_write : bytes -> Result unit;
  rt_reads : list (Result bytes);
}.

(** The read loop of [round_trip_session]: records of other types are
    notifications. *)
Fixpoint read_until (sh : Shared) (expected : N) (reads : list (Result bytes)) :
    Shared * list Effect * Result bytes :=
  match reads with
  | [] => (sh, [], Err Timeout)
  | Err e :: _ => (sh, [], Err e)
  | Ok frame :: reads' =>
      match decode_frame_header frame with
      | Err e => (sh, [], Err e)
      | Ok header =>
          let payload := frame_payload header frame in
          if message_type header =? expected then (sh, [], Ok payload)
          else
            let '(sh', e) := publish_notification sh (message_type header) payload in
            let '(sh'', e', r) := read_until sh' expected reads' in
            (sh'', e ++ e', r)
      end
  end.

(** [round_trip_session]: the request goes out under correlation id 1. *)
Definition round_trip_session (sh : Shared) (rt : RoundTrip) (mt : N) (payload : bytes) :
    Shared * list Effect * Result bytes :=
  match try_encode_frame mt 0 1 payload with
  | Err e => (sh, [], Err e)
  | Ok frame =>
      match rt_write rt frame with
      | Err e => (sh, [Write frame], Err e)
      | Ok _ =>
          let '(sh', e, r) := read_until sh mt (rt_reads rt) in (sh', Write frame :: e, r)
      end
  end.

Definition set_wire_id (k id : N) (sh : Shared) : Shared :=
  set_registrations (registrations sh) (<[k := id]> (wire_ids sh)) (next_registration_id sh) sh.

(** One iteration of [restore_registrations]. *)
Definition restore_one (rts : N -> RoundTrip) (kr : N * Registration) (sh : Shared) :
    Shared * list Effect :=
  let '(k, r) := kr in
  let '(sh', e, response) := round_trip_session sh (rts k) (reg_message_type r) (reg_payload r) in
  match (x <- response;; reg_decoder r x) with
  | Ok id => (set_wire_id k id sh', e)
  | Err _ => (sh', e)
  end.

Fixpoint restore_all (rts : N -> RoundTrip) (rs : list (N * Registration)) (sh : Shared) :
    Shared * list Effect :=
  match rs with
  | [] => (sh, [])
  | kr :: rs' =>
      let '(sh', e) := restore_one rts kr sh in
      let '(sh'', e') := restore_all rts rs' sh' in
      (sh'', e ++ e')
  end.

(** The registrations are cloned first; the loop runs over the copy. *)
Definition restore_registrations (rts : N -> RoundTrip) (sh : Shared) : Shared * list Effect :=
  restore_all rts (map_to_list (registrations sh)) sh.

(** ** Back-off *)

(** [Duration::mul_f64]: [None] is its panic on overflow. *)
Definition duration_mul (d num den : N) : option duration :=
  let scaled := d * num / den in
  if duration_max <? scaled then None else Some scaled.

(** [i32::try_from(attempts - 1).unwrap_or(i32::MAX)]. *)
Definition backoff_exponent (attempts : N) : N := N.min (attempts - 1) 2147483647.

(** The delay before attempt [attempts + 1]; [None] is the panic. *)
Definition backoff_delay (policy : ReconnectPolicy) (attempts : N) : option duration :=
  let k := backoff_exponent attempts in
  match duration_mul (reconnect_base policy) (multiplier_num policy ^ k) (multiplier_den policy ^ k) with
  | Some d => Some (N.min d (reconnect_maximum policy))
  | None => None
  end.

Definition exhausted : FitzError := Connection (str "reconnect attempts exhausted").

(** [initial_response.take()] and its answer. *)
Definition answer_initial (initial : option responder) (result : Result unit) : list Effect :=
  match initial with Some r => [ReplyUnit r result] | None => [] end.

(** What [reconnect_delay] returns: the attempts ran out, the delay to sleep, or
    the panic. *)
Inductive Delay : Type := Exhausted | Sleep (delay : duration) | Panicked.

Definition reconnect_delay (sup : Supervisor) (attempts : N) (initial : option responder) (sh : Shared) :
    Shared * list Effect * Delay :=
  if negb (reconnect_attempts (reconnect sup) =? 0) && (reconnect_attempts (reconnect sup) <? attempts)
  then (set_state Disconnected sh, answer_initial initial (Err exhausted), Exhausted)
  else
    let sh := set_state Reconnecting sh in
    let e := emit_lifecycle sh (str "reconnect_start") in
    match backoff_delay (reconnect sup) attempts with
    | Some d => (sh, e, Sleep d)
    | None => (sh, e, Panicked)
    end.

(** ** The connect loop *)

(** One turn of the loop: its attempt, the restore round trips, the session
    loop's run from the state it is entered with, and what other tasks do while
    the session opens, is restored, and between turns. *)
Record Turn : Type := {
  attempt : Attempt;
  round_trips : N -> RoundTrip;
  run_session : Shared -> Stepped;
  during_open : Shared -> Shared;
  during_sleep : Shared -> Shared;
}.

(** How [connect_and_run] ends. *)
Inductive Ended : Type :=
| Returned (result : Result unit)
| PanickedEnd
| Running.

Definition connected_event (initial : option responder) : bytes :=
  match initial with Some _ => str "connect_succeeded" | None => str "reconnect_succeeded" end.
Definition failed_event (initial : option responder) : bytes :=
  match initial with Some _ => str "connect_failed" | None => str "reconnect_failed" end.

(** The arms of [match open_session(supervisor).await] that return, or [None]
    where the loop goes on to the back-off. *)
Definition open_failed (sup : Supervisor) (initial : option responder) (error : FitzError) (sh : Shared) :
    option (Shared * list Effect) :=
  match error with
  | VersionMismatch code message =>
      let sh := set_state Disconnected sh in
      Some (sh, emit_lifecycle sh (failed_event initial) ++ answer_initial initial (Err error))
  | _ =>
      if is_auth_failure error then
        let sh := set_state ClosedState sh in
        Some (sh, emit_lifecycle sh (str "auth_rejected")
                    ++ answer_initial initial (Err (Authentication (to_string error))))
      else if match initial with Some _ => true | None => false end then
        let sh := set_state Disconnected sh in
        Some (sh, emit_lifecycle sh (str "connect_failed")
                    ++ answer_initial initial (Err (Connection (to_string error))))
      else if negb (reconnect_enabled (reconnect sup)) then
        Some (set_state Disconnected sh, answer_initial initial (Err (Connection (to_string error))))
      else None
  end.

(** After a session opened: restore, reset the ids, answer the initial connect,
    run the session, whose result comes back ([None]: it is still running). *)
Definition run_opened (turn : Turn) (initial : option responder) (sh : Shared) :
    Shared * list Effect * option SessionResult :=
  let '(sh, e) := restore_registrations (round_trips turn) sh in
  let sh := set_state Authenticated (set_next_request_id 1 sh) in
  let started := e ++ emit_lifecycle sh (connected_event initial) ++ answer_initial initial (Ok tt) in
  let s := run_session turn sh in
  match st_result s with
  | Some SessionDisconnected =>
      let sh := set_generation (wrapping_add 64 (generation (st_shared s)) 1) (st_shared s) in
      (sh, started ++ st_effects s ++ emit_lifecycle sh (str "connection_lost"), st_result s)
  | _ => (st_shared s, started ++ st_effects s, st_result s)
  end.

(** The loop, over the turns that happen. *)
Fixpoint connect_loop (sup : Supervisor) (turns : list Turn) (attempts : N)
    (initial : option responder) (sh : Shared) (e : list Effect) : Shared * list Effect * Ended :=
  match turns with
  | [] => (sh, e, Running)
  | turn :: turns' =>
      let next initial sh e :=
        let attempts := attempts + 1 in
        match reconnect_delay sup attempts initial sh with
        | (sh, e', Exhausted) => (sh, e ++ e', Returned (Err exhausted))
        | (sh, e', Panicked) => (sh, e ++ e', PanickedEnd)
        | (sh, e', Sleep _) => connect_loop sup turns' attempts initial (during_sleep turn sh) (e ++ e')
        end in
      if close_requested sh then (set_state ClosedState sh, e ++ drop_opt initial, Returned (Ok tt))
      else
        let '(sh, opening, opened) := open_session sup (attempt turn) sh in
        let sh := during_open turn sh in
        match opened with
        | Ok _ =>
            if close_requested sh
            then (set_state ClosedState sh, e ++ opening ++ drop_opt initial, Returned (Ok tt))
            else
              let '(sh, e', result) := run_opened turn initial sh in
              match result with
              | Some SessionDisconnected => next None sh (e ++ opening ++ e')
              | Some SessionClosed => (sh, e ++ opening ++ e', Returned (Ok tt))
              | None => (sh, e ++ opening ++ e', Running)
              end
        | Err error =>
            match open_failed sup initial error sh with
            | Some (sh, e') => (sh, e ++ opening ++ e', Returned (Err error))
            | None => next initial sh (e ++ opening ++ emit_lifecycle sh (str "reconnect_failed"))
            end
        end
  end.

Definition connect_and_run (sup : Supervisor) (turns : list Turn) (initial : option responder)
    (sh : Shared) : Shared * list Effect * Ended :=
  let sh := set_state Connecting sh in
  connect_loop sup turns 0 initial sh (emit_lifecycle sh (str "connect_start")).

(** ** The idle loop *)

(** One command of [supervise] while no session runs.  [connect] is the run of
    [connect_and_run] the command starts; the flag says the task ended. *)
Definition supervise_step (connect : option responder -> Shared -> Shared * list Effect)
    (sh : Shared) (command : Command) : Shared * list Effect * bool :=
  match command with
  | Connect response => let '(sh', e) := connect (Some response) sh in (sh', e, false)
  | Close response =>
      let sh' := set_state ClosedState sh in
      (sh', emit_lifecycle sh' (str "closed") ++ [ReplyUnit response (Ok tt)], true)
  | Request _ _ _ _ _ response => (sh, [Reply response (Err ConnectionClosed)], false)
  | Send _ _ _ _ response => (sh, [ReplyUnit response (Err ConnectionClosed)], false)
  end.
