(* ===== verification/SupervisorFacts.v ===== *)
(** * SupervisorFacts

    What holds of the supervisor task of [Supervisor]: a session that opens is
    established within sound limits, restoring updates exactly the wire ids the
    broker confirmed, and how the back-off behaves over a connection's life. *)

From S2P Require Import Prelude Errors Protocol Codec Wire3 Routes Shared Session SessionFacts Supervisor.
Import message_type.

(** ** Specification vocabulary *)

(** The response a round trip yields, which no shared state influences. *)
Fixpoint reads_response (expected : N) (reads : list (Result bytes)) : Result bytes :=
  match reads with
  | [] => Err Timeout
  | Err e :: _ => Err e
  | Ok frame :: reads' =>
      match decode_frame_header frame with
      | Err e => Err e
      | Ok header =>
          if message_type header =? expected then Ok (frame_payload header frame)
          else reads_response expected reads'
      end
  end.
Definition round_trip_response (rt : RoundTrip) (mt : N) (payload : bytes) : Result bytes :=
  frame <- try_encode_frame mt 0 1 payload;;
  rt_write rt frame;;
  reads_response mt (rt_reads rt).
(** The wire id a registration's round trip confirms. *)
Definition restored_id (rt : RoundTrip) (r : Registration) : Result N :=
  response <- round_trip_response rt (reg_message_type r) (reg_payload r);;
  reg_decoder r response.

(** Everything but the notification epochs and the wire ids. *)
Definition same_but_restored (a b : Shared) : Prop :=
  next_request_id b = next_request_id a /\ same_limits a b /\ generation b = generation a
  /\ close_requested b = close_requested a /\ registrations b = registrations a
  /\ next_registration_id b = next_registration_id a /\ conn_state b = conn_state a.

(** A turn whose session opens and is then lost, with nobody closing the
    connection. *)
Definition loses_session (sup : Supervisor) (turn : Turn) : Prop :=
  (forall sh, close_requested sh = false ->
     exists sh' e t, open_session sup (attempt turn) sh = (sh', e, Ok t)
       /\ close_requested (during_open turn sh') = false)
  /\ (forall sh, close_requested sh = false ->
        st_result (run_session turn sh) = Some SessionDisconnected
        /\ close_requested (st_shared (run_session turn sh)) = false)
  /\ (forall sh, close_requested (during_sleep turn sh) = close_requested sh).

(** ** Authentication *)

Lemma land_shiftl_low m v : v < 2 ^ 16 -> N.land (N.lor (N.shiftl m 16) v) u16_max = v.
Proof.
  intros Hv. change u16_max with (N.ones 16). rewrite N.land_ones.
  rewrite N.shiftl_mul_pow2. apply N.bits_inj. intros i.
  destruct (N.lt_ge_cases i 16) as [Hi|Hi].
  - rewrite N.mod_pow2_bits_low, N.lor_spec, N.mul_pow2_bits_low by done. done.
  - rewrite N.mod_pow2_bits_high by done. destruct (N.eq_dec v 0) as [->|Hz]; [by rewrite N.bits_0|].
    symmetry. apply N.bits_above_log2. apply N.log2_lt_pow2; [lia|].
    eapply N.lt_le_trans; [exact Hv|]. by apply N.pow_le_mono_r.
Qed.

Lemma packed_version m :
  let caps := N.lor (N.shiftl m 48) (N.shiftl 3 32) in
  N.shiftr caps 32 = N.lor (N.shiftl m 16) 3 /\ N.land (N.shiftr caps 32) u16_max = 3.
Proof.
  cbn zeta. assert (H : N.shiftr (N.lor (N.shiftl m 48) (N.shiftl 3 32)) 32 = N.lor (N.shiftl m 16) 3).
  { rewrite N.shiftr_lor. f_equal.
    replace 48 with (16 + 32) by done. rewrite <- N.shiftl_shiftl, N.shiftr_shiftl_r by lia.
    by rewrite N.sub_diag, N.shiftr_0_r. }
  split; [exact H|]. rewrite H. by apply land_shiftl_low.
Qed.

Lemma lor_ge_r a b : b <= N.lor a b.
Proof.
  assert (H : N.ldiff b (N.lor a b) = 0).
  { apply N.bits_inj. intros i. rewrite N.ldiff_spec, N.lor_spec, N.bits_0.
    by destruct (N.testbit a i), (N.testbit b i). }
  by apply N.ldiff_le.
Qed.

(** What an accepted HELLO leaves. *)
Definition hello_limits (sh sh' : Shared) : Prop :=
  generation sh' = generation sh /\ supervisor_correlation_enabled sh' = true /\ protocol_version sh' = 3
  /\ 15 <= max_message_bytes sh' <= MAX_MESSAGE_SIZE
  /\ (0 < max_in_flight sh -> 0 < max_in_flight sh') /\ max_in_flight sh' <= max_in_flight sh.

Lemma apply_server_hello_limits sh payload mask sh' :
  apply_server_hello sh payload mask = Ok sh' -> hello_limits sh sh'.
Proof.
  unfold apply_server_hello. destruct (negb _); [done|]. unfold run_dec, mbind, Dec_mbind.
  destruct (get_u16 _) as [[version d1]|]; [|done].
  destruct (get_u32 d1) as [[bits d2]|]; [|done]. destruct (get_u32 d2) as [[mb d3]|]; [|done].
  destruct (get_u32 d3) as [[inf d4]|]; [|done]. destruct (get_u64 d4) as [[sid d5]|]; [|done].
  cbn [at_end]. destruct (_ || _) eqn:E; [done|]. unfold mret, Dec_mret. intros [= <-].
  bool_to_prop. subst version. pose proof (packed_version mask) as [P1 P2]. cbn zeta in P1, P2.
  unfold hello_limits, supervisor_correlation_enabled, protocol_version. cbn [set_limits capabilities max_message_bytes max_in_flight].
  rewrite P1 in *. rewrite P2. split; [done|]. split; [|split; [done|]].
  - apply N.leb_le. pose proof (lor_ge_r (N.shiftl mask 16) 3). lia.
  - unfold MAX_MESSAGE_SIZE. lia.
Qed.

Lemma process_auth_bytes_limits sh frame sh' :
  process_auth_bytes sh frame = Ok sh' -> hello_limits sh sh'.
Proof.
  unfold process_auth_bytes. intros H. apply result_bind_ok in H as (header & _ & H).
  unfold process_auth_frame in H. apply result_bind_ok in H as ([payload mask] & _ & H).
  destruct (control_misflagged header); [done|]. destruct (_ =? HELLO).
  - by eapply apply_server_hello_limits.
  - destruct (_ =? CONNECT_REJECTED); [|done]. apply result_bind_ok in H as ([code m] & _ & H).
    by destruct (code =? 50).
Qed.

Lemma settle_websocket_limits sh reads : forall e sh',
  settle_websocket sh reads = (e, Ok sh') -> hello_limits sh sh'.
Proof.
  induction reads as [|[read pong] reads IH]; intros e sh'; cbn [settle_websocket]; [done|].
  destruct read as [[[frame|p|p|]|err]|]; try done.
  - intros [= _ H]. by eapply process_auth_bytes_limits.
  - destruct pong; [|done]. destruct (settle_websocket sh reads) as [e' r]. intros [= _ ->]. by eapply IH.
  - apply IH.
Qed.

Lemma open_session_limits sup a sh sh' e t : open_session sup a sh = (sh', e, Ok t) -> hello_limits sh sh'.
Proof.
  unfold open_session. destruct (token a); [|done].
  destruct (connect_transport sup a) as [[|]|]; [| |done];
    (destruct (Wire3.encode _ _); [|done]); (destruct (write_session a CONNECT _) as [e1 [|]]; [|done]).
  - destruct (settle_tcp _ _) eqn:E; [|done]. intros [= <- _ _]. revert E. unfold settle_tcp.
    destruct (tcp_read a) as [[frame|[]]|]; try done. intros E.
    by apply process_auth_bytes_limits in E.
  - destruct (settle_websocket _ _) as [e2 [|]] eqn:E; [|done]. intros [= <- _ _].
    by apply settle_websocket_limits in E.
Qed.

(** C23: a session that opens is established: when [open_session] succeeds, on
    either transport, the broker spoke Wire 3, correlation is on from the first
    request, the message limit lies between the frame header and 1 MiB, and the
    in-flight limit is positive and never above what it was (so a limit one
    broker imposed also binds every later session). *)
Theorem open_session_establishes sup a sh sh' e t :
  open_session sup a sh = (sh', e, Ok t) -> 0 < max_in_flight sh ->
  established sh' SessionState_new /\ protocol_version sh' = 3
  /\ 15 <= max_message_bytes sh' <= MAX_MESSAGE_SIZE
  /\ 0 < max_in_flight sh' <= max_in_flight sh.
Proof.
  intros H Hm. destruct (open_session_limits _ _ _ _ _ _ H) as (_ & H1 & H2 & H3 & H4 & H5).
  split; [by apply established_empty|].
  split; [done|]. split; [done|]. split; [by apply H4 | done].
Qed.

(** A broker that accepts, over TCP. *)
Definition sample_supervisor : Supervisor :=
  {| endpoint := str "tcp://127.0.0.1:4091"; service_name := None;
     reconnect := ReconnectPolicy_default; heartbeat := HeartbeatOptions_default |}.
Definition sample_hello : bytes :=
  match Wire3.encode (be_bytes 2 3 ++ be_bytes 4 0 ++ be_bytes 4 65536 ++ be_bytes 4 64 ++ be_bytes 8 9)
          [(1, CLIENT_CAPABILITIES)] with
  | Ok core => match try_encode_frame HELLO EXTENSIONS_PRESENT 0 core with Ok f => f | Err _ => [] end
  | Err _ => []
  end.
Definition sample_attempt : Attempt :=
  {| token := Ok (str "t"); connect_socket := Ok tt; set_keepalive := Ok tt;
     write_socket := fun _ => Ok tt; tcp_read := Some (Ok sample_hello); ws_reads := [] |}.
Definition sample_opened : Opened := open_session sample_supervisor sample_attempt (Shared_new 256).

Lemma open_session_establishes_witness :
  max_in_flight sample_opened.1.1 = 64
  /\ established sample_opened.1.1 SessionState_new /\ protocol_version sample_opened.1.1 = 3
  /\ 15 <= max_message_bytes sample_opened.1.1 <= MAX_MESSAGE_SIZE
  /\ 0 < max_in_flight sample_opened.1.1 <= max_in_flight (Shared_new 256).
Proof.
  split; [vm_compute; reflexivity|].
  apply (open_session_establishes sample_supervisor sample_attempt (Shared_new 256) _ sample_opened.1.2 Tcp);
    vm_compute; reflexivity.
Defined.

(** ** Restoring *)

Lemma publish_same sh mt payload : same_but_restored sh (publish_notification sh mt payload).1
  /\ wire_ids (publish_notification sh mt payload).1 = wire_ids sh.
Proof. done. Qed.

Lemma same_but_restored_trans a b c :
  same_but_restored a b -> same_but_restored b c -> same_but_restored a c.
Proof.
  intros (? & L1 & ? & ? & ? & ? & ?) (? & L2 & ? & ? & ? & ? & ?).
  pose proof (same_limits_trans _ _ _ L1 L2). repeat split; try congruence; apply H11.
Qed.

Lemma read_until_spec expected reads : forall sh sh' e r,
  read_until sh expected reads = (sh', e, r) ->
  r = reads_response expected reads /\ same_but_restored sh sh' /\ wire_ids sh' = wire_ids sh.
Proof.
  induction reads as [|[frame|err] reads IH]; intros sh sh' e r; cbn [read_until reads_response].
  - by intros [= <- _ <-].
  - destruct (decode_frame_header frame) as [header|err]; [|by intros [= <- _ <-]].
    destruct (_ =? expected); [by intros [= <- _ <-]|].
    destruct (publish_notification sh _ _) as [sh1 e1] eqn:Ep.
    pose proof (publish_same sh (message_type header) (frame_payload header frame)) as [Hs Hw].
    rewrite Ep in Hs, Hw. cbn in Hs, Hw.
    destruct (read_until sh1 expected reads) as [[sh2 e2] r2] eqn:E. intros [= <- _ <-].
    apply IH in E as (-> & Hs2 & Hw2). split; [done|]. split; [by eapply same_but_restored_trans | congruence].
  - by intros [= <- _ <-].
Qed.

Lemma round_trip_spec sh rt mt payload sh' e r :
  round_trip_session sh rt mt payload = (sh', e, r) ->
  r = round_trip_response rt mt payload /\ same_but_restored sh sh' /\ wire_ids sh' = wire_ids sh.
Proof.
  unfold round_trip_session, round_trip_response.
  destruct (try_encode_frame mt 0 1 payload) as [frame|err]; [|by intros [= <- _ <-]].
  cbn. destruct (rt_write rt frame); [|by intros [= <- _ <-]].
  destruct (read_until sh mt (rt_reads rt)) as [[sh1 e1] r1] eqn:E. intros [= <- _ <-].
  by apply read_until_spec in E.
Qed.

Lemma restore_one_spec rts k reg sh :
  let '(sh', _) := restore_one rts (k, reg) sh in
  same_but_restored sh sh'
  /\ wire_ids sh' = match restored_id (rts k) reg with
                    | Ok id => <[k := id]> (wire_ids sh) | Err _ => wire_ids sh end.
Proof.
  unfold restore_one, restored_id.
  destruct (round_trip_session _ _ _ _) as [[sh1 e1] r1] eqn:E. apply round_trip_spec in E as (-> & Hs & Hw).
  destruct (round_trip_response _ _ _) as [resp|]; cbn [mbind result_mbind result_bind]; [|done].
  destruct (reg_decoder reg resp); [|done]. split; [exact Hs|]. cbn. by rewrite Hw.
Qed.

Lemma restore_all_spec rts rs : forall sh sh' e,
  NoDup (map fst rs) -> restore_all rts rs sh = (sh', e) ->
  same_but_restored sh sh'
  /\ (forall k r, (k, r) ∈ rs ->
        wire_ids sh' !! k = match restored_id (rts k) r with
                            | Ok id => Some id | Err _ => wire_ids sh !! k end)
  /\ (forall k, k ∉ map fst rs -> wire_ids sh' !! k = wire_ids sh !! k).
Proof.
  induction rs as [|[k reg] rs IH]; intros sh sh' e; cbn [restore_all map fst].
  - intros _ [= <- _]. split; [done|]. split; [by intros ? ? ?%not_elem_of_nil | done].
  - intros [Hk Hnd]%NoDup_cons. pose proof (restore_one_spec rts k reg sh) as H1.
    destruct (restore_one rts (k, reg) sh) as [sh1 e1]. destruct H1 as [Hs1 Hw1].
    destruct (restore_all rts rs sh1) as [sh2 e2] eqn:E2. intros [= <- _].
    apply IH in E2 as (Hs2 & Hin & Hout); [|done].
    split; [by eapply same_but_restored_trans|]. split.
    + intros k' r' [[= -> ->]|Hr']%elem_of_cons.
      * rewrite Hout, Hw1 by done. destruct (restored_id _ _); [by rewrite lookup_insert_eq | done].
      * rewrite (Hin _ _ Hr'), Hw1. destruct (restored_id (rts k') r'); [done|].
        assert (k <> k').
        { intros ->. apply Hk. apply list_elem_of_In, in_map_iff. exists (k', r').
          split; [done | by apply list_elem_of_In]. }
        destruct (restored_id _ _); [by rewrite lookup_insert_ne | done].
    + intros k' [Hne Hk']%not_elem_of_cons. rewrite Hout, Hw1 by done.
      destruct (restored_id _ _); [by rewrite lookup_insert_ne | done].
Qed.

(** C28: restoring gives each live registration the wire id the broker confirms
    for it in its own round trip, leaves the id of a registration whose round
    trip fails as it was, and changes nothing else but notification epochs: no
    registration is added, dropped or given another's id, whatever
    notifications arrive in between. *)
Theorem restore_registrations_spec rts sh :
  let sh' := (restore_registrations rts sh).1 in
  same_but_restored sh sh'
  /\ forall k, wire_ids sh' !! k =
       match registrations sh !! k with
       | Some r => match restored_id (rts k) r with Ok id => Some id | Err _ => wire_ids sh !! k end
       | None => wire_ids sh !! k
       end.
Proof.
  cbn zeta. unfold restore_registrations.
  destruct (restore_all _ _ _) as [sh' e] eqn:E. cbn.
  apply restore_all_spec in E as (Hs & Hin & Hout).
  2: { apply NoDup_fst_map_to_list. }
  split; [done|]. intros k. destruct (registrations sh !! k) as [r|] eqn:Er.
  - apply Hin. by apply elem_of_map_to_list.
  - apply Hout. intros Hk. apply list_elem_of_In, in_map_iff in Hk as ([k' r] & Hk & Hr). cbn in Hk. subst k'.
    apply list_elem_of_In, elem_of_map_to_list in Hr. congruence.
Qed.

(** ** Back-off *)

Lemma backoff_default attempts :
  1 <= attempts ->
  backoff_delay ReconnectPolicy_default attempts
  = if attempts <=? 68 then Some (N.min (millis 100 * 2 ^ (attempts - 1)) (secs 30)) else None.
Proof.
  intros Ha. unfold backoff_delay, duration_mul. cbn [ReconnectPolicy_default reconnect_base multiplier_num multiplier_den reconnect_maximum].
  rewrite N.pow_1_l, N.div_1_r. unfold backoff_exponent.
  destruct (N.leb_spec attempts 68).
  - rewrite (N.min_l (attempts - 1)) by lia.
    assert (2 ^ (attempts - 1) <= 2 ^ 67) by (apply N.pow_le_mono_r; lia).
    destruct (N.ltb_spec duration_max (millis 100 * 2 ^ (attempts - 1))) as [Hlt|]; [|done].
    exfalso. unfold duration_max, millis, u64_max in Hlt. change (2 ^ 67) with 147573952589676412928 in *. lia.
  - assert (2 ^ 68 <= 2 ^ N.min (attempts - 1) 2147483647) by (apply N.pow_le_mono_r; lia).
    destruct (N.ltb_spec duration_max (millis 100 * 2 ^ N.min (attempts - 1) 2147483647)) as [|Hge]; [done|].
    exfalso. unfold duration_max, millis, u64_max in Hge. change (2 ^ 68) with 295147905179352825856 in *. lia.
Qed.

(** C40: the default back-off: attempt [n] waits [100ms * 2^(n-1)], capped at 30
    seconds, up to the 68th; from the 69th on the product overflows [Duration]
    before the cap is applied, and the supervisor task panics. *)
Theorem reconnect_delay_default sup attempts initial sh :
  reconnect sup = ReconnectPolicy_default -> 1 <= attempts ->
  (reconnect_delay sup attempts initial sh).2
  = if attempts <=? 68 then Sleep (N.min (millis 100 * 2 ^ (attempts - 1)) (secs 30)) else Panicked.
Proof.
  intros Hp Ha. unfold reconnect_delay. rewrite Hp, backoff_default by done. cbn.
  by destruct (attempts <=? 68).
Qed.

Lemma reconnect_delay_default_witness :
  (reconnect_delay sample_supervisor 3 None (Shared_new 1)).2 = Sleep (millis 400)
  /\ (reconnect_delay sample_supervisor 69 None (Shared_new 1)).2 = Panicked.
Proof.
  split; [exact (reconnect_delay_default sample_supervisor 3 None (Shared_new 1) eq_refl ltac:(lia))
         | exact (reconnect_delay_default sample_supervisor 69 None (Shared_new 1) eq_refl ltac:(lia))].
Defined.

Lemma restore_close_requested rts sh :
  close_requested (restore_registrations rts sh).1 = close_requested sh.
Proof.
  unfold restore_registrations. destruct (restore_all _ _ _) as [sh' e] eqn:E. cbn.
  apply restore_all_spec in E as ((_ & _ & _ & H & _) & _); [done | apply NoDup_fst_map_to_list].
Qed.

Lemma lost_turn sup turn turns attempts initial sh e :
  reconnect sup = ReconnectPolicy_default -> loses_session sup turn -> close_requested sh = false ->
  exists sh' e', close_requested sh' = false /\
    connect_loop sup (turn :: turns) attempts initial sh e
    = if attempts + 1 <=? 68 then connect_loop sup turns (attempts + 1) None sh' e'
      else (sh', e', PanickedEnd).
Proof.
  intros Hp (Hopen & Hrun & Hsleep) Hc. cbn [connect_loop]. rewrite Hc.
  destruct (Hopen sh Hc) as (sh1 & e1 & t & -> & Hc1). rewrite Hc1.
  unfold run_opened. pose proof (restore_close_requested (round_trips turn) (during_open turn sh1)) as Hc2.
  destruct (restore_registrations _ _) as [sh2 e2]. cbn in Hc2. rewrite Hc1 in Hc2.
  set (sh3 := set_state Authenticated _). assert (Hc3 : close_requested sh3 = false) by done.
  destruct (Hrun sh3 Hc3) as [-> Hc4]. cbn [st_result].
  unfold reconnect_delay. rewrite Hp, backoff_default by lia. cbn [reconnect_attempts ReconnectPolicy_default N.eqb negb andb].
  set (sh5 := set_state Reconnecting _). assert (Hc5 : close_requested sh5 = false) by done.
  destruct (attempts + 1 <=? 68).
  - eexists (during_sleep turn sh5), _. rewrite Hsleep. done.
  - by exists sh5; eexists.
Qed.

Lemma lost_turns sup turns : forall attempts initial sh e,
  reconnect sup = ReconnectPolicy_default -> Forall (loses_session sup) turns ->
  close_requested sh = false -> attempts <= 68 -> 69 - attempts <= blen turns ->
  (connect_loop sup turns attempts initial sh e).2 = PanickedEnd.
Proof.
  induction turns as [|turn turns IH]; intros attempts initial sh e Hp Hl Hc Ha Hn.
  - rewrite blen_nil in Hn. lia.
  - apply Forall_cons in Hl as [Ht Hl].
    destruct (lost_turn sup turn turns attempts initial sh e Hp Ht Hc) as (sh' & e' & Hc' & ->).
    destruct (N.leb_spec (attempts + 1) 68); [|done].
    apply IH; try done. rewrite blen_cons in Hn. lia.
Qed.

(** The attempt count is never reset by a successful session: under the
    default policy a connection whose sessions all open and are later lost ends
    in the supervisor's panic at its 69th loss, however long the sessions
    lasted and whatever else the other tasks do. *)
Theorem reconnect_counts_over_lifetime sup turns initial sh :
  reconnect sup = ReconnectPolicy_default -> Forall (loses_session sup) turns ->
  close_requested sh = false -> 69 <= blen turns ->
  (connect_and_run sup turns initial sh).2 = PanickedEnd.
Proof. intros. apply lost_turns; try done; lia. Qed.

(** A turn whose TCP session reads an error at once. *)
Definition lost_sample : Turn :=
  {| attempt := sample_attempt;
     round_trips := fun _ => {| rt_write := fun _ => Ok tt; rt_reads := [] |};
     run_session := fun sh => run_io (fun _ => Ok tt) sh [IoFrame (Err (Transport (str "reset")))];
     during_open := fun sh => sh; during_sleep := fun sh => sh |}.

Lemma sample_loses : loses_session sample_supervisor lost_sample.
Proof.
  split; [|split].
  - intros sh Hc. unfold lost_sample, attempt, during_open.
    assert (Hw : Wire3.encode (connect_payload (str "t") None) [(1, CLIENT_CAPABILITIES)]
      = Ok (match Wire3.encode (connect_payload (str "t") None) [(1, CLIENT_CAPABILITIES)] with Ok p => p | Err _ => [] end))
      by (vm_compute; reflexivity).
    assert (Hp : exists sh', process_auth_bytes (set_state Authenticating (set_state Connecting (set_capabilities 0 sh))) sample_hello = Ok sh'
      /\ close_requested sh' = close_requested sh).
    { eexists. split; [vm_compute; reflexivity | reflexivity]. }
    destruct Hp as (sh' & Hp & Hc'). unfold open_session, sample_attempt, token.
    unfold connect_transport.
    change (endpoint_transport (endpoint sample_supervisor)) with (Some Tcp).
    cbn [connect_socket set_keepalive mbind result_mbind result_bind heartbeat_enabled heartbeat sample_supervisor HeartbeatOptions_default service_name].
    rewrite Hw. unfold write_session.
    destruct (try_encode_frame _ _ _ _) as [f|] eqn:Ef; [|vm_compute in Ef; discriminate Ef].
    cbn [write_socket tcp_read settle_tcp]. rewrite Hp. eexists _, _, _. split; [reflexivity | congruence].
  - intros sh Hc. done.
  - done.
Qed.

Lemma reconnect_counts_over_lifetime_witness :
  (connect_and_run sample_supervisor (repeat lost_sample 69) (Some 1) (Shared_new 256)).2 = PanickedEnd.
Proof.
  apply reconnect_counts_over_lifetime; [reflexivity | | reflexivity | vm_compute; discriminate].
  apply Forall_forall. intros t Ht. apply list_elem_of_In, repeat_spec in Ht. subst t. exact sample_loses.
Defined.

(** ** A broker that closes the socket during authentication *)

(** A read error on TCP is never the [ConnectionClosed] the code tests for (an
    [io::Error] converts to [Timeout] or [Transport]), so the same broker
    behaviour is an authentication failure on WebSocket, which stops the
    supervisor, and a retryable transport error on TCP. *)
Lemma tcp_close_during_auth sh error :
  (exists e, settle_tcp sh (Some (Err (from_io error))) = Err e
     /\ is_auth_failure e = false /\ is_retryable e = true)
  /\ settle_websocket sh [(None, Ok tt)] = ([], Err auth_closed)
  /\ is_auth_failure auth_closed = true.
Proof. split; [|done]. unfold from_io. destruct (io_timed_out error); eexists; done. Qed.
