(* ===== verification/Transport.v ===== *)
(** * Transport

    [src/src/async_connection.rs], the TCP framing: [write_tcp_frame] prefixes a
    frame with its length; [read_tcp_frame] reads the prefix and then the frame,
    across however many socket reads it takes.

    The read is a future inside the [select!] of [run_io], polled as bytes
    arrive and dropped whenever another branch of the loop completes first.
    Bytes it had taken from the socket are dropped with it: neither [read_u32]
    nor [read_exact] keeps them anywhere else. *)

From S2P Require Import Prelude Errors Codec Shared Session Supervisor.

(** [write_tcp_frame]: what goes on the wire. *)
Definition write_tcp_frame (frame : bytes) : Result bytes :=
  if u32_max <? blen frame then Err (FrameTooLarge (blen frame))
  else Ok (be_bytes 4 (blen frame) ++ frame).

(** How far a [read_tcp_frame] future has come: bytes of the prefix, or of the
    frame whose length is known. *)
Inductive ReadState : Set :=
| ReadLength (got : bytes)
| ReadBody (len : N) (got : bytes).

(** A future as [select!] makes it. *)
Definition read_tcp_frame : ReadState := ReadLength [].

Inductive Polled : Set :=
| ReadPending (state : ReadState)
| Ready (frame : Result bytes) (unread : bytes).

Definition poll_body (len : N) (got available : bytes) : Polled :=
  let need := (N.to_nat len - length got)%nat in
  let got' := got ++ take need available in
  if blen got' <? len then ReadPending (ReadBody len got') else Ready (Ok got') (drop need available).

(** Polling with the bytes the socket has, in either state. *)
Definition poll (state : ReadState) (available : bytes) : Polled :=
  match state with
  | ReadBody len got => poll_body len got available
  | ReadLength got =>
      let need := (4 - length got)%nat in
      let got' := got ++ take need available in
      if blen got' <? 4 then ReadPending (ReadLength got')
      else
        let len := from_be got' in
        if (len <? FRAME_HEADER_LEN) || (MAX_MESSAGE_SIZE <? len)
        then Ready (Err (FrameTooLarge len)) (drop need available)
        else poll_body len [] (drop need available)
  end.

(** What happens to the socket: bytes arrive, or another branch of the [select!]
    completes and the pending read is dropped. *)
Inductive SocketEvent : Set :=
| Arrive (chunk : bytes)
| OtherBranch.

(** The frames the loop takes in: a completed read is handled and a new one
    starts on the bytes left; an error ends the loop.  The fuel bounds the
    frames of one chunk ([drain_total]). *)
Fixpoint drain (fuel : nat) (state : ReadState) (available : bytes) : list (Result bytes) * option ReadState :=
  match fuel with
  | O => ([], None)
  | S fuel' =>
      match poll state available with
      | ReadPending state' => ([], Some state')
      | Ready (Err e) _ => ([Err e], None)
      | Ready (Ok frame) unread =>
          let '(frames, state') := drain fuel' read_tcp_frame unread in (Ok frame :: frames, state')
      end
  end.

Fixpoint read_frames (state : ReadState) (events : list SocketEvent) :
    list (Result bytes) * option ReadState :=
  match events with
  | [] => ([], Some state)
  | OtherBranch :: events' => read_frames read_tcp_frame events'
  | Arrive chunk :: events' =>
      match drain (S (length chunk)) state chunk with
      | (frames, Some state') =>
          let '(frames', state'') := read_frames state' events' in (frames ++ frames', state'')
      | (frames, None) => (frames, None)
      end
  end.

(** ** Specification vocabulary *)

Definition frame_ok (frame : bytes) : Prop := FRAME_HEADER_LEN <= blen frame <= MAX_MESSAGE_SIZE.
Definition tcp_record (frame : bytes) : bytes := be_bytes 4 (blen frame) ++ frame.
Definition tcp_stream (frames : list bytes) : bytes := concat (map tcp_record frames).

(** The bytes of the current record that a state holds. *)
Definition held (state : ReadState) : bytes :=
  match state with
  | ReadLength got => got
  | ReadBody len got => be_bytes 4 len ++ got
  end.
Definition state_ok (state : ReadState) : Prop :=
  match state with
  | ReadLength got => (length got < 4)%nat
  | ReadBody len got => FRAME_HEADER_LEN <= len <= MAX_MESSAGE_SIZE /\ blen got < len
  end.

(** ** Reading a record *)

Local Arguments be_bytes : simpl never.

Lemma poll_body_short len got available :
  blen got + blen available < len ->
  poll_body len got available = ReadPending (ReadBody len (got ++ available)).
Proof.
  intros H. unfold poll_body. rewrite take_ge by (unfold blen in H; lia).
  destruct (N.ltb_spec (blen (got ++ available)) len) as [|Hge]; [done|]. rewrite blen_app in Hge. lia.
Qed.

Lemma poll_body_full len got body rest :
  blen got + blen body = len ->
  poll_body len got (body ++ rest) = Ready (Ok (got ++ body)) rest.
Proof.
  intros H. unfold poll_body. replace (N.to_nat len - length got)%nat with (length body) by (unfold blen in H; lia).
  rewrite take_app_length, drop_app_length.
  destruct (N.ltb_spec (blen (got ++ body)) len) as [Hlt|]; [|done]. rewrite blen_app in Hlt. lia.
Qed.

Lemma poll_length_short got available :
  (length got + length available < 4)%nat ->
  poll (ReadLength got) available = ReadPending (ReadLength (got ++ available)).
Proof.
  intros H. cbn [poll]. rewrite take_ge by lia.
  destruct (N.ltb_spec (blen (got ++ available)) 4) as [|Hge]; [done|].
  unfold blen in Hge. rewrite length_app in Hge. lia.
Qed.

Lemma poll_length_full got more available n :
  FRAME_HEADER_LEN <= n <= MAX_MESSAGE_SIZE -> got ++ more = be_bytes 4 n ->
  poll (ReadLength got) (more ++ available) = poll_body n [] available.
Proof.
  intros Hn He. cbn [poll].
  assert (Hl : (length got + length more = 4)%nat).
  { apply (f_equal length) in He. rewrite length_app, be_bytes_length in He. done. }
  replace (4 - length got)%nat with (length more) by lia.
  rewrite take_app_length, drop_app_length, He, be_bytes_blen.
  change (N.of_nat 4 <? 4) with false. cbn iota.
  unfold FRAME_HEADER_LEN, MAX_MESSAGE_SIZE in *.
  rewrite from_be_be_bytes_small by (change (2 ^ (8 * N.of_nat 4)) with 4294967296; lia).
  destruct (N.ltb_spec n 15); [lia|]. destruct (N.ltb_spec 1048576 n); [lia|]. done.
Qed.

(** A prefix of a record leaves a state that holds exactly that prefix. *)
Lemma poll_partial state chunk rest frame :
  state_ok state -> frame_ok frame -> rest <> [] ->
  held state ++ chunk ++ rest = tcp_record frame ->
  exists state', poll state chunk = ReadPending state' /\ state_ok state' /\ held state' = held state ++ chunk.
Proof.
  intros Hs Hf Hne He. assert (Hr : (0 < length rest)%nat) by (destruct rest; [done | cbn; lia]).
  unfold tcp_record in He. pose proof (f_equal length He) as Hlen.
  rewrite !length_app, be_bytes_length in Hlen. destruct state as [got|len got]; cbn [held state_ok] in *.
  - destruct (Nat.lt_ge_cases (length got + length chunk) 4) as [Hlt|Hge].
    + rewrite poll_length_short by done. eexists. split; [done|]. cbn. split; [rewrite length_app; lia | done].
    + set (more := take (4 - length got) chunk). set (body := drop (4 - length got) chunk).
      assert (Hc : chunk = more ++ body) by (symmetry; apply take_drop).
      assert (Hm : length more = (4 - length got)%nat) by (unfold more; rewrite length_take; lia).
      assert (Hb : got ++ more = be_bytes 4 (blen frame) /\ body ++ rest = frame).
      { rewrite Hc, <- !app_assoc in He. rewrite app_assoc in He.
        apply app_inj_1 in He; [done | rewrite length_app, be_bytes_length; lia]. }
      destruct Hb as [Hb1 Hb2]. rewrite Hc, (poll_length_full got more body (blen frame)) by done.
      rewrite poll_body_short.
      2: { rewrite <- Hb2. change (blen (@nil byte)) with 0. rewrite blen_app. unfold blen. lia. }
      eexists. split; [done|]. cbn [state_ok held app]. split.
      * split; [exact Hf|]. rewrite <- Hb2, blen_app. unfold blen. lia.
      * by rewrite <- Hb1, <- !app_assoc.
  - destruct Hs as [Hs Hg]. rewrite <- app_assoc in He.
    apply app_inj_1 in He as [He1 He2]; [|by rewrite !be_bytes_length].
    assert (Hl : len = blen frame).
    { apply (f_equal from_be) in He1. unfold frame_ok, MAX_MESSAGE_SIZE, FRAME_HEADER_LEN in *.
      rewrite !from_be_be_bytes_small in He1 by (change (2 ^ (8 * N.of_nat 4)) with 4294967296; lia). done. }
    rewrite <- He2 in Hl. rewrite !blen_app in Hl. cbn [poll].
    rewrite poll_body_short by (unfold blen in *; lia). eexists. split; [done|]. cbn.
    rewrite blen_app. split; [split; [done | unfold blen in *; lia] | by rewrite app_assoc].
Qed.

Lemma poll_complete state chunk rest frame :
  state_ok state -> frame_ok frame -> held state ++ chunk = tcp_record frame ->
  poll state (chunk ++ rest) = Ready (Ok frame) rest.
Proof.
  intros Hs Hf He. unfold tcp_record in He. destruct state as [got|len got]; cbn [held state_ok] in *.
  - set (more := take (4 - length got) chunk). set (body := drop (4 - length got) chunk).
    assert (Hc : chunk = more ++ body) by (symmetry; apply take_drop).
    pose proof (f_equal length He) as Hlen. rewrite !length_app, be_bytes_length in Hlen.
    assert (Hm : length more = (4 - length got)%nat).
    { unfold more. rewrite length_take. unfold frame_ok, FRAME_HEADER_LEN, blen in Hf. lia. }
    assert (Hb : got ++ more = be_bytes 4 (blen frame) /\ body = frame).
    { rewrite Hc, app_assoc in He.
      apply app_inj_1 in He; [done | rewrite length_app, be_bytes_length; lia]. }
    destruct Hb as [Hb1 Hb2]. rewrite Hc, <- app_assoc, (poll_length_full got more _ (blen frame)) by done.
    rewrite Hb2, poll_body_full by done. done.
  - destruct Hs as [Hs Hg]. rewrite <- app_assoc in He.
    apply app_inj_1 in He as [He1 He2]; [|by rewrite !be_bytes_length].
    assert (Hl : len = blen frame).
    { apply (f_equal from_be) in He1. unfold frame_ok, MAX_MESSAGE_SIZE, FRAME_HEADER_LEN in *.
      rewrite !from_be_be_bytes_small in He1 by (change (2 ^ (8 * N.of_nat 4)) with 4294967296; lia). done. }
    cbn [poll]. rewrite poll_body_full; [by rewrite He2 | rewrite Hl, <- He2, blen_app; done].
Qed.

Lemma tcp_record_inj_length n frame a b :
  n <= MAX_MESSAGE_SIZE -> frame_ok frame ->
  be_bytes 4 n ++ a = tcp_record frame ++ b -> n = blen frame.
Proof.
  intros Hn Hf He. unfold tcp_record in He. rewrite <- app_assoc in He.
  apply app_inj_1 in He as [He _]; [|by rewrite !be_bytes_length].
  apply (f_equal from_be) in He. unfold frame_ok, MAX_MESSAGE_SIZE in *.
  rewrite !from_be_be_bytes_small in He by (change (2 ^ (8 * N.of_nat 4)) with 4294967296; lia). done.
Qed.

Lemma held_short state frame a b :
  state_ok state -> frame_ok frame -> held state ++ a = tcp_record frame ++ b ->
  (length (held state) < length (tcp_record frame))%nat.
Proof.
  intros Hs Hf He. unfold tcp_record at 1. rewrite length_app, be_bytes_length.
  destruct state as [got|len got]; cbn [held state_ok] in *.
  - unfold frame_ok, FRAME_HEADER_LEN, blen in Hf. lia.
  - destruct Hs as [Hl Hg]. rewrite <- app_assoc in He.
    apply tcp_record_inj_length in He; [|lia|done]. rewrite length_app, be_bytes_length. unfold blen in *. lia.
Qed.

(** A frame read takes at least one byte from the socket. *)
Lemma poll_body_consumes len got available frame unread :
  blen got < len -> poll_body len got available = Ready (Ok frame) unread -> (length unread < length available)%nat.
Proof.
  intros Hlt. unfold poll_body. destruct (N.ltb_spec (blen (got ++ take (N.to_nat len - length got) available)) len)
    as [|Hge]; [done|]. intros [= _ <-]. rewrite blen_app in Hge. unfold blen in *. rewrite length_take in Hge.
  rewrite length_drop. lia.
Qed.

Lemma poll_consumes state available frame unread :
  state_ok state -> poll state available = Ready (Ok frame) unread -> (length unread < length available)%nat.
Proof.
  destruct state as [got|len got]; cbn [state_ok poll]; [|intros [_ Hlt]; by apply poll_body_consumes].
  intros Hg. destruct (_ <? 4) eqn:E4; [done|]. set (len := from_be _). destruct (_ || _) eqn:El; [done|].
  intros Hp. apply poll_body_consumes in Hp; [rewrite length_drop in Hp; lia|].
  unfold FRAME_HEADER_LEN in El. bool_to_prop. rewrite blen_nil. lia.
Qed.

(** One more round than the chunk has bytes is never reached. *)
Lemma drain_total fuel more : forall state available, state_ok state -> (length available < fuel)%nat ->
  drain (fuel + more) state available = drain fuel state available.
Proof.
  induction fuel as [|fuel IH]; intros state available Hs Hf; [lia|]. cbn [drain Nat.add].
  destruct (poll state available) as [|[frame|e] unread] eqn:E; try done.
  apply poll_consumes in E; [|done]. rewrite IH; [done | cbn; lia | lia].
Qed.

(** Two splittings of a list. *)
Lemma app_split {A} (a b c d : list A) :
  a ++ b = c ++ d -> (length a < length c)%nat -> exists e, e <> [] /\ c = a ++ e /\ b = e ++ d.
Proof.
  intros He Hl. exists (drop (length a) c). split; [|split].
  - intros E. apply (f_equal length) in E. rewrite length_drop in E. cbn in E. lia.
  - rewrite <- (take_drop (length a) c) at 1. f_equal.
    apply (f_equal (take (length a))) in He. rewrite take_app_length, take_app_le in He by lia. done.
  - apply (f_equal (drop (length a))) in He. rewrite drop_app_length, drop_app_le in He by lia. done.
Qed.

(** Polling inside a stream of records: the read takes everything and still
    holds what it took, or it completes the next frame and leaves the rest. *)
Lemma poll_stream state available tail frames :
  state_ok state -> Forall frame_ok frames -> held state ++ available ++ tail = tcp_stream frames ->
  (exists state', poll state available = ReadPending state' /\ state_ok state' /\ held state' ++ tail = tcp_stream frames)
  \/ (exists frame left unread, frames = frame :: left /\ poll state available = Ready (Ok frame) unread
        /\ (length unread < length available)%nat /\ unread ++ tail = tcp_stream left).
Proof.
  intros Hs Hf He. destruct frames as [|frame frames].
  - change (tcp_stream []) with (@nil byte) in He. apply app_eq_nil in He as [Hh [-> ->]%app_eq_nil].
    left. destruct state as [[|]|len got]; cbn [held] in Hh; try done. by exists (ReadLength []).
  - apply Forall_cons in Hf as [Hf1 Hf]. change (tcp_stream (frame :: frames)) with (tcp_record frame ++ tcp_stream frames) in *.
    pose proof (held_short _ _ _ _ Hs Hf1 He) as Hshort.
    apply app_split in He as (e & Hne & Hrec & He); [|done].
    destruct (Nat.lt_ge_cases (length available) (length e)) as [Hlt|Hge].
    + left. apply app_split in He as (e' & Hne' & -> & ->); [|done].
      destruct (poll_partial state available e' frame Hs Hf1 Hne' (eq_sym Hrec)) as (state' & -> & Hs' & Hh').
      exists state'. split; [done|]. split; [done|]. by rewrite Hh', Hrec, <- !app_assoc.
    + right. exists frame, frames, (drop (length e) available).
      pose proof (f_equal (take (length e)) He) as H1. rewrite take_app_le, take_app_length in H1 by lia.
      pose proof (f_equal (drop (length e)) He) as H2. rewrite drop_app_le, drop_app_length in H2 by lia.
      split; [done|]. split; [|split; [|done]].
      * rewrite <- (take_drop (length e) available) at 1. rewrite H1. by apply poll_complete.
      * rewrite length_drop. destruct e; [done | cbn in *; lia].
Qed.

Lemma drain_spec fuel : forall state chunk tail frames,
  (length chunk < fuel)%nat -> state_ok state -> Forall frame_ok frames ->
  held state ++ chunk ++ tail = tcp_stream frames ->
  exists got left state', drain fuel state chunk = (map Ok got, Some state')
    /\ frames = got ++ left /\ state_ok state' /\ held state' ++ tail = tcp_stream left.
Proof.
  induction fuel as [|fuel IH]; intros state chunk tail frames Hfuel Hs Hf He; [lia|]. cbn [drain].
  destruct (poll_stream _ _ _ _ Hs Hf He) as [(s' & -> & Hs' & He')|(frame & left & unread & -> & -> & Hl & He')].
  - by exists [], frames, s'.
  - apply Forall_cons in Hf as [_ Hf].
    destruct (IH read_tcp_frame unread tail left) as (got & left' & s' & Hd & -> & Hs' & Hh'); [lia|cbn; lia|done..|].
    rewrite Hd. by exists (frame :: got), left', s'.
Qed.

Lemma read_frames_spec chunks : forall state frames,
  state_ok state -> Forall frame_ok frames -> held state ++ concat chunks = tcp_stream frames ->
  read_frames state (map Arrive chunks) = (map Ok frames, Some read_tcp_frame).
Proof.
  induction chunks as [|chunk chunks IH]; intros state frames Hs Hf He; cbn [map concat] in *.
  - rewrite app_nil_r in He. cbn [read_frames]. destruct frames as [|frame frames].
    + destruct state as [[|]|len got]; done.
    + exfalso. apply Forall_cons in Hf as [Hf1 _].
      change (tcp_stream (frame :: frames)) with (tcp_record frame ++ tcp_stream frames) in He.
      rewrite <- (app_nil_r (held state)) in He.
      pose proof (held_short _ _ _ _ Hs Hf1 He) as Hshort. apply (f_equal length) in He.
      rewrite !length_app in He. cbn in He. lia.
  - cbn [read_frames].
    destruct (drain_spec (S (length chunk)) state chunk (concat chunks) frames) as
      (got & left & state' & -> & -> & Hs' & Hh'); [lia | done..|].
    apply Forall_app in Hf as [_ Hf]. rewrite (IH state' left Hs' Hf Hh'). by rewrite map_app.
Qed.

(** ** Properties *)

(** C18: TCP framing round trips under any chunking: however the bytes of a
    sequence of written frames are cut into socket reads, the loop takes in
    exactly those frames, in order, and ends between frames, as long as no
    other branch of its [select!] interrupts a read. *)
Theorem tcp_framing_roundtrip frames chunks records :
  Forall frame_ok frames -> map write_tcp_frame frames = map Ok records ->
  concat chunks = concat records ->
  read_frames read_tcp_frame (map Arrive chunks) = (map Ok frames, Some read_tcp_frame).
Proof.
  intros Hf Hw Hc. apply read_frames_spec; [cbn; lia | done |]. cbn [held read_tcp_frame app]. rewrite Hc.
  clear Hc chunks. revert records Hw. induction Hf as [|frame frames Hf1 Hf IH]; intros [|r rs]; try done.
  cbn [map]. unfold write_tcp_frame at 1. unfold frame_ok, MAX_MESSAGE_SIZE in Hf1.
  destruct (N.ltb_spec u32_max (blen frame)) as [H|]; [unfold u32_max in H; lia|].
  intros [= <- Hrs]. cbn [concat]. rewrite (IH rs Hrs). done.
Qed.

Definition sample_frame (n : nat) : bytes := repeat Byte.x61 n.

Lemma tcp_framing_roundtrip_witness :
  read_frames read_tcp_frame
    (map Arrive [take 2 (tcp_record (sample_frame 15)); drop 2 (tcp_record (sample_frame 15))
                   ++ take 7 (tcp_record (sample_frame 20)); drop 7 (tcp_record (sample_frame 20))])
  = (map Ok [sample_frame 15; sample_frame 20], Some read_tcp_frame).
Proof.
  apply (tcp_framing_roundtrip _ _ [tcp_record (sample_frame 15); tcp_record (sample_frame 20)]);
    [|reflexivity..]. repeat constructor; vm_compute; discriminate.
Defined.

(** C39: the read is not cancel-safe: if another branch of the loop completes
    after the first byte of a record has been taken from the socket, that byte
    is lost, the rest is read as a longer record, and the frame is never
    delivered: the loop either waits for bytes that will not come or fails on
    the false length, which ends the session. *)
Theorem tcp_read_not_cancel_safe frame first rest :
  frame_ok frame -> tcp_record frame = first :: rest ->
  let taken := read_frames read_tcp_frame [Arrive [first]; OtherBranch; Arrive rest] in
  (exists state, taken = ([], Some state) /\ state <> read_tcp_frame)
  \/ (exists len, taken = ([Err (FrameTooLarge len)], None)).
Proof.
  intros Hf He. cbn zeta. unfold frame_ok, FRAME_HEADER_LEN, MAX_MESSAGE_SIZE in Hf. unfold tcp_record in He.
  destruct frame as [|f0 frame]; [change (blen (@nil byte)) with 0 in Hf; lia|].
  rewrite blen_cons in *. set (n := 1 + blen frame) in *.
  assert (Hb : exists b1 b2 b3, be_bytes 4 n = [first; b1; b2; b3] /\ rest = [b1; b2; b3; f0] ++ frame).
  { destruct (be_bytes 4 n) as [|b0 [|b1 [|b2 [|b3 [|]]]]] eqn:Eb;
      try (apply (f_equal length) in Eb; rewrite be_bytes_length in Eb; discriminate Eb).
    injection He as -> <-. by exists b1, b2, b3. }
  destruct Hb as (b1 & b2 & b3 & Hb & ->).
  assert (Hn : from_be [first; b1; b2; b3] = n).
  { rewrite <- Hb. apply from_be_be_bytes_small. change (2 ^ (8 * N.of_nat 4)) with 4294967296. lia. }
  assert (H0 : Byte.to_N first = 0).
  { rewrite from_be_cons in Hn. change (2 ^ (8 * blen [b1; b2; b3])) with 16777216 in Hn. lia. }
  assert (Hl : from_be [b1; b2; b3; f0] = n * 256 + Byte.to_N f0).
  { rewrite <- Hn. change [b1; b2; b3; f0] with ([b1; b2; b3] ++ [f0]). rewrite from_be_snoc.
    rewrite (from_be_cons first), H0. lia. }
  assert (Hfirst : poll read_tcp_frame [first] = ReadPending (ReadLength [first])) by done.
  cbn [read_frames drain length]. rewrite Hfirst. cbn [app].
  assert (Hpoll : poll read_tcp_frame ([b1; b2; b3; f0] ++ frame)
    = if (n * 256 + Byte.to_N f0 <? 15) || (1048576 <? n * 256 + Byte.to_N f0)
      then Ready (Err (FrameTooLarge (n * 256 + Byte.to_N f0))) frame
      else poll_body (n * 256 + Byte.to_N f0) [] frame).
  { rewrite <- Hl. done. }
  cbn [app] in Hpoll. rewrite Hpoll. destruct (_ || _) eqn:E.
  - right. by eexists.
  - rewrite poll_body_short by (change (blen (@nil byte)) with 0; lia).
    left. by eexists (ReadBody _ _).
Qed.

Lemma tcp_read_not_cancel_safe_witness :
  tcp_record (sample_frame 15) = Byte.x00 :: drop 1 (tcp_record (sample_frame 15))
  /\ let taken := read_frames read_tcp_frame
       [Arrive [Byte.x00]; OtherBranch; Arrive (drop 1 (tcp_record (sample_frame 15)))] in
     (exists state, taken = ([], Some state) /\ state <> read_tcp_frame)
     \/ (exists len, taken = ([Err (FrameTooLarge len)], None)).
Proof.
  split; [reflexivity|].
  apply (tcp_read_not_cancel_safe (sample_frame 15)); [split; vm_compute; discriminate | reflexivity].
Defined.
