(* ===== verification/Sockets.v ===== *)
(** * Sockets

    [src/src/async_connection.rs]: sessions over their sockets.  [run_session]
    is the loop of [Session] fed by what the socket has: on TCP the bytes that
    arrive, read by the futures of [Transport]; on WebSocket its messages.  The
    records that opening and restoring a session write and read
    ([write_session_correlated], [read_session]) are at the end. *)

From S2P Require Import Prelude Errors Protocol Codec Shared Session SessionFacts Supervisor Transport.

(** ** The TCP loop *)

(** The read future the loop waits on, and the bytes the socket has that no
    read took. *)
Record Reader : Set := { reading : ReadState; unread : bytes }.

Definition Reader_new : Reader := {| reading := read_tcp_frame; unread := [] |}.

(** What happens between and at the wakes of the [select!]: bytes arrive, the
    read is polled, the socket fails under it, or another branch completes. *)
Inductive TcpEvent : Set :=
| BytesArrive (chunk : bytes)
| ReadPolled
| SocketFails (error : FitzError)
| CommandBranch (command : option Command)
| CancelBranch (id : N).

(** A read that is pending has taken every byte there was. *)
Definition poll_read (r : Reader) : option (Result bytes) * Reader :=
  match poll (reading r) (unread r) with
  | ReadPending state => (None, {| reading := state; unread := [] |})
  | Ready frame rest => (Some frame, {| reading := read_tcp_frame; unread := rest |})
  end.

(** The loop drops the pending read whenever another branch completes. *)
Definition drop_read (r : Reader) : Reader := {| reading := read_tcp_frame; unread := unread r |}.

Section Loops.
Context (transport : bytes -> Result unit).

Definition tcp_turn (session_generation : N) (sh : Shared) (st : SessionState) (r : Reader) (event : TcpEvent) :
    Stepped * Reader :=
  match event with
  | BytesArrive chunk => (stepped sh st [], {| reading := reading r; unread := unread r ++ chunk |})
  | ReadPolled =>
      match poll_read r with
      | (Some frame, r) => (io_step transport session_generation sh st (IoFrame frame), r)
      | (None, r) => (stepped sh st [], r)
      end
  | SocketFails error => (io_step transport session_generation sh st (IoFrame (Err error)), drop_read r)
  | CommandBranch command => (io_step transport session_generation sh st (IoCommand command), drop_read r)
  | CancelBranch id => (io_step transport session_generation sh st (IoCancel id), drop_read r)
  end.

Fixpoint run_tcp_from (session_generation : N) (sh : Shared) (st : SessionState) (r : Reader)
    (events : list TcpEvent) (e : list Effect) : Stepped * Reader :=
  match events with
  | [] => (stepped sh st e, r)
  | event :: events' =>
      let '(s, r) := tcp_turn session_generation sh st r event in
      match st_result s with
      | Some result =>
          ({| st_shared := st_shared s; st_session := st_session s;
              st_effects := e ++ st_effects s; st_result := Some result |}, r)
      | None => run_tcp_from session_generation (st_shared s) (st_session s) r events' (e ++ st_effects s)
      end
  end.

Definition run_tcp (sh : Shared) (events : list TcpEvent) : Stepped * Reader :=
  run_tcp_from (generation sh) sh SessionState_new Reader_new events [].

(** ** The WebSocket loop *)

Context (options : HeartbeatOptions) (control : Effect -> bool).

(** Branches that [select!] does not enable leave the loop where it is. *)
Fixpoint run_websocket_from (session_generation : N) (sh : Shared) (st : SessionState) (hb : Heartbeat)
    (events : list (duration * WsEvent)) (e : list Effect) : Stepped :=
  match events with
  | [] => stepped sh st e
  | (now, event) :: events' =>
      match ws_step transport options control session_generation sh st hb now event with
      | None => run_websocket_from session_generation sh st hb events' e
      | Some (s, hb) =>
          match st_result s with
          | Some result =>
              {| st_shared := st_shared s; st_session := st_session s;
                 st_effects := e ++ st_effects s; st_result := Some result |}
          | None => run_websocket_from session_generation (st_shared s) (st_session s) hb events' (e ++ st_effects s)
          end
      end
  end.

Definition run_websocket (sh : Shared) (now : duration) (events : list (duration * WsEvent)) : Stepped :=
  run_websocket_from (generation sh) sh SessionState_new (reset_idle options false now) events [].

(** The socket of a session, as [Session] has it, with what it gives. *)
Inductive SessionSocket : Set :=
| TcpSocket (events : list TcpEvent)
| WebSocketStream (now : duration) (events : list (duration * WsEvent)).

Definition run_session (sh : Shared) (socket : SessionSocket) : Stepped :=
  match socket with
  | TcpSocket events => (run_tcp sh events).1
  | WebSocketStream now events => run_websocket sh now events
  end.
End Loops.

(** ** Records of a session that is opening *)

(** What [write_session_correlated] puts on the wire: a record, or a message. *)
Definition write_session_correlated (t : SessionTransport) (mt : N) (payload : bytes) (correlation : N) : Result bytes :=
  frame <- try_encode_frame mt 0 correlation payload;;
  match t with Tcp => write_tcp_frame frame | WebSocket => Ok frame end.

Definition read_record (frame : bytes) : Result (FrameHeader * bytes) :=
  header <- decode_frame_header frame;; Ok (header, frame_payload header frame).

(** From the frame [read_tcp_frame] returned. *)
Definition read_tcp_record (frame : Result bytes) : Result (FrameHeader * bytes) := frame <- frame;; read_record frame.

Definition read_tcp (frame : Result bytes) : Result (N * bytes) :=
  x <- read_tcp_record frame;; Ok (message_type (fst x), snd x).

(** From the messages of the socket; [None] while there are too few. *)
Fixpoint read_websocket (messages : list (option (result bytes WsMessage))) :
    option (Result (N * bytes)) * list (option (result bytes WsMessage)) :=
  match messages with
  | [] => (None, [])
  | Some (Ok (Binary frame)) :: rest => (Some (x <- read_record frame;; Ok (message_type (fst x), snd x)), rest)
  | Some (Ok _) :: rest => read_websocket rest
  | Some (Err error) :: rest => (Some (Err (Errors.Transport error)), rest)
  | None :: rest => (Some (Err ConnectionClosed), rest)
  end.

(** [read_session]: the next record of an opening session, and the socket. *)
Inductive SessionInput : Set :=
| TcpInput (r : Reader)
| WebSocketInput (messages : list (option (result bytes WsMessage))).

Definition read_session (i : SessionInput) : option (Result (N * bytes)) * SessionInput :=
  match i with
  | TcpInput r =>
      match poll_read r with
      | (Some frame, r) => (Some (read_tcp frame), TcpInput r)
      | (None, r) => (None, TcpInput r)
      end
  | WebSocketInput messages => let '(x, rest) := read_websocket messages in (x, WebSocketInput rest)
  end.

(** ** The run on a socket is the run on its frames *)

(** What the events are besides bytes and reads, as the session loop takes
    them, and the frames among the loop's events. *)
Definition branch (event : TcpEvent) : option IoEvent :=
  match event with
  | BytesArrive _ | ReadPolled => None
  | SocketFails error => Some (IoFrame (Err error))
  | CommandBranch command => Some (IoCommand command)
  | CancelBranch id => Some (IoCancel id)
  end.
Definition frame_in (event : IoEvent) : option bytes :=
  match event with IoFrame (Ok frame) => Some frame | _ => None end.
Definition other_event (event : IoEvent) : option IoEvent :=
  match event with IoFrame (Ok _) => None | _ => Some event end.

Definition arrived (events : list TcpEvent) : bytes :=
  concat (omap (fun event => match event with BytesArrive chunk => Some chunk | _ => None end) events).

Definition between_frames (state : ReadState) : bool :=
  match state with ReadLength [] => true | _ => false end.

(** No branch completes while a read has taken a part of a frame. *)
Fixpoint undisturbed (r : Reader) (events : list TcpEvent) : bool :=
  match events with
  | [] => true
  | BytesArrive chunk :: events' => undisturbed {| reading := reading r; unread := unread r ++ chunk |} events'
  | ReadPolled :: events' => undisturbed (poll_read r).2 events'
  | _ :: events' => between_frames (reading r) && undisturbed (drop_read r) events'
  end.

Lemma between_frames_held state : between_frames state = true -> held state = [].
Proof. by destruct state as [[|]|]. Qed.

(** What a run comes to, with [f] of its events still to come: the run of the
    session loop on [ios], with what is left of the peer's frames. *)
Definition follows (run : list IoEvent -> Stepped) (events : list TcpEvent) (later : bytes) (frames : list bytes)
    (s : Stepped) (r : Reader) : Prop :=
  exists ios left,
    s = run ios
    /\ frames = omap frame_in ios ++ left
    /\ omap other_event ios `prefix_of` omap branch events
    /\ (st_result s = None ->
          omap other_event ios = omap branch events
          /\ state_ok (reading r) /\ held (reading r) ++ unread r ++ later = tcp_stream left).

Local Arguments be_bytes : simpl never.

Section Follows.
Context (transport : bytes -> Result unit) (gen : N).
Local Abbreviation run_io_from' := (run_io_from transport gen).

(** One more event of the session loop, which it goes on or ends after. *)
Lemma follows_cons sh st e event io events later frames s r :
  match frame_in io with Some f => branch event = None | None => branch event = Some io end ->
  st_result (io_step transport gen sh st io) = None ->
  follows (fun ios => run_io_from' (st_shared (io_step transport gen sh st io)) (st_session (io_step transport gen sh st io))
             ios (e ++ st_effects (io_step transport gen sh st io))) events later frames s r ->
  follows (fun ios => run_io_from' sh st ios e) (event :: events) later
    (match frame_in io with Some f => f :: frames | None => frames end) s r.
Proof.
  intros Hb Hr (ios & left & Hs & Hf & Hp & Hn). exists (io :: ios), left.
  cbn [run_io_from]. rewrite Hr. split; [done|]. cbn [omap list_omap].
  destruct io as [c|id|[f|err]]; cbn [frame_in other_event] in *; rewrite Hb;
    (split; [by rewrite Hf | split; [try by apply prefix_cons|]]); try done;
    intros Hnone; destruct (Hn Hnone) as (-> & ?); done.
Qed.

Lemma follows_end sh st e event io events later frames result r :
  match frame_in io with Some f => branch event = None | None => branch event = Some io end ->
  st_result (io_step transport gen sh st io) = Some result ->
  follows (fun ios => run_io_from' sh st ios e) (event :: events) later
    (match frame_in io with Some f => f :: frames | None => frames end)
    {| st_shared := st_shared (io_step transport gen sh st io); st_session := st_session (io_step transport gen sh st io);
       st_effects := e ++ st_effects (io_step transport gen sh st io); st_result := Some result |} r.
Proof.
  intros Hb Hr. exists [io], frames. cbn [run_io_from]. rewrite Hr. split; [done|]. cbn [omap list_omap].
  destruct io as [c|id|[f|err]]; cbn [frame_in other_event] in *; rewrite Hb;
    (split; [done | split; [|done]]); try apply prefix_cons; apply prefix_nil.
Qed.

Lemma follows_bytes sh st e event events later frames s r :
  branch event = None ->
  follows (fun ios => run_io_from' sh st ios e) events later frames s r ->
  follows (fun ios => run_io_from' sh st ios e) (event :: events) later frames s r.
Proof. intros Hb (ios & left & H). exists ios, left. cbn [omap list_omap]. by rewrite Hb. Qed.

Lemma run_branch event io events sh st r e later frames s r' :
  branch event = Some io -> frame_in io = None ->
  tcp_turn transport gen sh st r event = (io_step transport gen sh st io, drop_read r) ->
  between_frames (reading r) && undisturbed (drop_read r) events = true ->
  held (reading r) ++ unread r ++ arrived events ++ later = tcp_stream frames ->
  (forall sh st r e later frames s r',
     undisturbed r events = true -> Forall frame_ok frames -> state_ok (reading r) ->
     held (reading r) ++ unread r ++ arrived events ++ later = tcp_stream frames ->
     run_tcp_from transport gen sh st r events e = (s, r') ->
     follows (fun ios => run_io_from' sh st ios e) events later frames s r') ->
  Forall frame_ok frames ->
  run_tcp_from transport gen sh st r (event :: events) e = (s, r') ->
  follows (fun ios => run_io_from' sh st ios e) (event :: events) later frames s r'.
Proof.
  intros Hb Hi Ht [Hbf Hu]%andb_true_iff He IH Hf. cbn [run_tcp_from]. rewrite Ht.
  apply between_frames_held in Hbf. rewrite Hbf in He.
  assert (Hmatch : match frame_in io with Some f => f :: frames | None => frames end = frames) by (by rewrite Hi).
  assert (Hcase : match frame_in io with Some f => branch event = None | None => branch event = Some io end) by (by rewrite Hi).
  rewrite <- Hmatch. destruct (st_result (io_step transport gen sh st io)) as [res|] eqn:Er; intros Hr.
  - injection Hr as <- <-. by apply follows_end.
  - apply follows_cons; [done..|]. by eapply IH; [exact Hu | exact Hf | cbn; lia | exact He | exact Hr].
Qed.

Lemma run_tcp_follows events : forall sh st r e later frames s r',
  undisturbed r events = true -> Forall frame_ok frames -> state_ok (reading r) ->
  held (reading r) ++ unread r ++ arrived events ++ later = tcp_stream frames ->
  run_tcp_from transport gen sh st r events e = (s, r') ->
  follows (fun ios => run_io_from' sh st ios e) events later frames s r'.
Proof.
  induction events as [|event events IH]; intros sh st r e later frames s r' Hu Hf Hok He; cbn [run_tcp_from].
  - intros [= <- <-]. exists [], frames. split; [done|]. split; [done|]. split; [done|]. done.
  - destruct event as [chunk| |error|command|id]; cbn [tcp_turn undisturbed] in *.
    + cbn [stepped st_result st_shared st_session st_effects]. rewrite app_nil_r. intros Hr.
      apply follows_bytes; [done|]. eapply IH; [exact Hu | exact Hf | exact Hok | | exact Hr].
      rewrite <- He. cbn. by rewrite <- !app_assoc.
    + unfold poll_read in *.
      destruct (poll_stream (reading r) (unread r) (arrived events ++ later) frames Hok Hf) as
        [(s' & Hp & Hs' & He')|(frame & left & rest & -> & Hp & _ & He')]; [exact He| |]; rewrite Hp in *.
      * cbn [stepped st_result st_shared st_session st_effects]. rewrite app_nil_r. intros Hr.
        apply follows_bytes; [done|]. by eapply IH; [exact Hu | exact Hf | exact Hs' | exact He' | exact Hr].
      * apply Forall_cons in Hf as [_ Hf].
        destruct (st_result (io_step transport gen sh st (IoFrame (Ok frame)))) as [res|] eqn:Er; intros Hr.
        { injection Hr as <- <-. by apply (follows_end _ _ _ _ (IoFrame (Ok frame))). }
        apply (follows_cons _ _ _ _ (IoFrame (Ok frame))); [done..|].
        by eapply IH; [exact Hu | exact Hf | cbn; lia | exact He' | exact Hr].
    + by eapply (run_branch (SocketFails error) (IoFrame (Err error))).
    + by eapply (run_branch (CommandBranch command) (IoCommand command)).
    + by eapply (run_branch (CancelBranch id) (IoCancel id)).
Qed.
End Follows.

(** C13: a session on a TCP socket is the session loop on its frames: while the
    peer sends frames, however its bytes arrive and whenever the reads are
    polled, and as long as no other branch of the [select!] completes while a
    read has taken a part of a frame, the run is the run of the loop on its
    other branches, in their order, with the peer's frames in their order; and
    as long as the session goes on every frame is either among them or still to
    be read, none lost and none twice. *)
Theorem tcp_session_follows transport sh events later frames s r :
  undisturbed Reader_new events = true -> Forall frame_ok frames ->
  arrived events ++ later = tcp_stream frames ->
  run_tcp transport sh events = (s, r) ->
  follows (run_io transport sh) events later frames s r.
Proof.
  intros Hu Hf He Hr. by eapply run_tcp_follows; [exact Hu | exact Hf | cbn; lia | exact He | exact Hr].
Qed.

Definition not_binary (m : option (result bytes WsMessage)) : bool :=
  match m with Some (Ok (Binary _)) | Some (Err _) | None => false | Some (Ok _) => true end.

Lemma read_record_encoded mt c payload frame :
  mt < 2 ^ 16 -> c < 2 ^ 64 -> try_encode_frame mt 0 c payload = Ok frame ->
  frame_ok frame /\ exists header, read_record frame = Ok (header, payload) /\ message_type header = mt.
Proof.
  intros Hm Hc He. destruct (decode_encoded mt 0 c payload frame Hm eq_refl Hc He) as [Hd Hp].
  split.
  - apply decode_frame_header_ok in Hd as [Hl _]. exact Hl.
  - unfold read_record. rewrite Hd. cbn. rewrite Hp. by eexists.
Qed.

(** What is written while a session opens reads back: the record
    [write_session_correlated] puts on a TCP socket, before whatever bytes, and
    the message it sends on a WebSocket, after whatever messages that are not
    binary, is what [read_session] returns at the other end, type and payload,
    and it leaves the rest of the socket as it is. *)
Theorem opening_records_roundtrip mt payload c wire :
  mt < 2 ^ 16 -> c < 2 ^ 64 ->
  (write_session_correlated Tcp mt payload c = Ok wire ->
     forall rest, read_session (TcpInput {| reading := read_tcp_frame; unread := wire ++ rest |})
                  = (Some (Ok (mt, payload)), TcpInput {| reading := read_tcp_frame; unread := rest |}))
  /\ (write_session_correlated WebSocket mt payload c = Ok wire ->
     forall others rest, forallb not_binary others = true ->
       read_session (WebSocketInput (others ++ Some (Ok (Binary wire)) :: rest))
       = (Some (Ok (mt, payload)), WebSocketInput rest)).
Proof.
  intros Hm Hc. unfold write_session_correlated.
  destruct (try_encode_frame mt 0 c payload) as [frame|] eqn:He; [|by split].
  apply read_record_encoded in He as (Hf & header & Hr & Hmt); [|done..]. split; unfold mbind, result_mbind, result_bind.
  - unfold write_tcp_frame. destruct (u32_max <? blen frame); [done|]. intros [= <-] rest.
    change (read_session (TcpInput {| reading := read_tcp_frame; unread := tcp_record frame ++ rest |})
            = (Some (Ok (mt, payload)), TcpInput {| reading := read_tcp_frame; unread := rest |})).
    cbn [read_session]. unfold poll_read. cbn [reading unread].
    rewrite (poll_complete read_tcp_frame (tcp_record frame) rest frame); [|cbn; lia|done|done].
    unfold read_tcp, read_tcp_record. cbn. rewrite Hr. cbn. by rewrite Hmt.
  - intros [= ->] others rest Ho. cbn [read_session].
    assert (Hw : read_websocket (others ++ Some (Ok (Binary wire)) :: rest) = (Some (Ok (mt, payload)), rest)).
    { induction others as [|[[[]|]|] others IH]; try done; cbn in *; try by apply IH. by rewrite Hr; cbn; rewrite Hmt. }
    by rewrite Hw.
Qed.

(** ** Witnesses *)

(** A request is written, and its response arrives in two pieces. *)
Definition sample_response : bytes :=
  match try_encode_frame message_type.KV_GET RESPONSE_FINAL 1 (str "v") with Ok f => f | Err _ => [] end.
Definition sample_events : list TcpEvent :=
  [ CommandBranch (Some (Request 1 0 message_type.KV_GET 0 (str "a") 7));
    BytesArrive (take 9 (tcp_record sample_response)); ReadPolled;
    BytesArrive (drop 9 (tcp_record sample_response)); ReadPolled ].

Lemma tcp_session_follows_witness :
  st_effects (run_tcp accepts sample_shared sample_events).1
    = [Write (match encode_outbound sample_shared message_type.KV_GET 0 1 (str "a") with Ok f => f | Err _ => [] end);
       Reply 7 (Ok (str "v"))]
  /\ follows (run_io accepts sample_shared) sample_events [] [sample_response]
       (run_tcp accepts sample_shared sample_events).1 (run_tcp accepts sample_shared sample_events).2.
Proof.
  split; [vm_compute; reflexivity|].
  apply tcp_session_follows; [vm_compute; reflexivity | | vm_compute; reflexivity | apply surjective_pairing].
  constructor; [|constructor]. split; vm_compute; discriminate.
Defined.

Lemma opening_records_roundtrip_witness :
  let wire := match try_encode_frame 20 0 1 (str "body") with Ok f => f | Err _ => [] end in
  read_session (WebSocketInput [Some (Ok (Pong [])); Some (Ok (Binary wire))])
  = (Some (Ok (20, str "body")), WebSocketInput []).
Proof.
  cbn zeta. pose proof (opening_records_roundtrip 20 (str "body") 1
    (match try_encode_frame 20 0 1 (str "body") with Ok f => f | Err _ => [] end) eq_refl eq_refl) as [_ H].
  exact (H eq_refl [Some (Ok (Pong []))] [] eq_refl).
Defined.
