(* ===== verification/Reconnect.v ===== *)
(** * Reconnect

    The places where [Multiplex] and [Supervisor] meet
    ([src/src/async_connection.rs]): what the supervisor hands to the session it
    starts is what the system of [Multiplex] reopens with, and the two ways in
    which an answer crosses from one caller to another when a connection is
    replaced - the ids of one counter under the generation of the next session,
    and an answer to a restore request that comes after its timeout. *)

From S2P Require Import Prelude Errors Protocol Codec Wire3 Shared Session SessionFacts Multiplex Supervisor SupervisorFacts.
Import message_type.

(** ** The session the supervisor starts *)

Lemma written_publish sh mt payload : written (publish_notification sh mt payload).2 = [].
Proof. done. Qed.

Lemma read_until_writes sh expected reads : forall sh' e r,
  read_until sh expected reads = (sh', e, r) -> written e = [].
Proof.
  revert sh. induction reads as [|[frame|err] reads IH]; intros sh sh' e r; cbn [read_until]; [by intros [= _ <- _] | | by intros [= _ <- _]].
  destruct (decode_frame_header frame) as [header|]; [|by intros [= _ <- _]].
  destruct (_ =? expected); [by intros [= _ <- _]|].
  destruct (publish_notification sh _ _) as [sh1 e1] eqn:Ep. destruct (read_until sh1 expected reads) as [[sh2 e2] r2] eqn:E.
  intros [= _ <- _]. rewrite written_app, (IH _ _ _ _ E), app_nil_r.
  change e1 with (sh1, e1).2. rewrite <- Ep. apply written_publish.
Qed.

Lemma round_trip_writes sh rt mt payload frame :
  frame ∈ written (round_trip_session sh rt mt payload).1.2 -> try_encode_frame mt 0 1 payload = Ok frame.
Proof.
  unfold round_trip_session. destruct (try_encode_frame mt 0 1 payload) as [f|]; [|by intros ?%not_elem_of_nil].
  destruct (rt_write rt f); [|by intros ->%list_elem_of_singleton].
  destruct (read_until _ _ _) as [[sh' e] r] eqn:E. cbn [fst snd]. change (written (Write f :: e)) with (f :: written e). rewrite (read_until_writes _ _ _ _ _ _ E).
  by intros ->%list_elem_of_singleton.
Qed.

Lemma restore_all_writes rts rs : forall sh frame,
  frame ∈ written (restore_all rts rs sh).2 ->
  exists k reg, (k, reg) ∈ rs /\ try_encode_frame (reg_message_type reg) 0 1 (reg_payload reg) = Ok frame.
Proof.
  induction rs as [|[k reg] rs IH]; intros sh frame; cbn [restore_all]; [by intros ?%not_elem_of_nil|].
  unfold restore_one. pose proof (round_trip_writes sh (rts k) (reg_message_type reg) (reg_payload reg) frame) as Hw.
  destruct (round_trip_session _ _ _ _) as [[sh1 e1] r1]. cbn in Hw.
  assert (Hrest : forall sh2, frame ∈ written (restore_all rts rs sh2).2 ->
    exists k' reg', (k', reg') ∈ (k, reg) :: rs /\ try_encode_frame (reg_message_type reg') 0 1 (reg_payload reg') = Ok frame).
  { intros sh2 (k' & r' & Hin & He)%IH. exists k', r'. split; [apply elem_of_cons; by right | done]. }
  destruct (x <- r1;; reg_decoder reg x);
    (match goal with |- context [restore_all rts rs ?x] => pose proof (Hrest x) as Hr; destruct (restore_all rts rs x) as [sh3 e3] end;
     cbn [fst snd]; rewrite written_app, elem_of_app; intros [H|H]; [|by apply Hr];
     exists k, reg; split; [apply elem_of_cons; by left | by apply Hw]).
Qed.

(** What [run_opened] enters the session with. *)
Definition entered (turn : Turn) (sh : Shared) : Shared :=
  set_state Authenticated (set_next_request_id 1 (restore_registrations (round_trips turn) sh).1).

(** C3: the supervisor starts the sessions that the system of [Multiplex]
    reopens with.  Whatever the attempt and the restore round trips answer, the
    state in which [run_session] is entered after [open_session] has succeeded
    has correlation on, the generation it had before and the counter at 1; every
    frame that was written for a restore asks for a registration under
    correlation id 1; a session that is lost adds one to the generation and
    leaves the counter where it was. *)
Theorem supervisor_reopens sup turn initial sh sh' e t :
  open_session sup (attempt turn) sh = (sh', e, Ok t) ->
  let s := run_session turn (entered turn sh') in
  reopens sh (entered turn sh')
  /\ (forall frame, frame ∈ written (restore_registrations (round_trips turn) sh').2 -> restore_frame (entered turn sh') frame)
  /\ (st_result s = Some SessionDisconnected ->
        (run_opened turn initial sh').1.1 = next_generation (st_shared s)).
Proof.
  intros Ho. apply open_session_limits in Ho as (Hg & Hc & _). cbn zeta. unfold entered, run_opened, restore_registrations.
  pose proof (restore_all_writes (round_trips turn) (map_to_list (registrations sh')) sh') as Hw.
  destruct (restore_all _ _ _) as [sh1 e1] eqn:E. cbn [fst snd] in *.
  apply restore_all_spec in E as ((_ & (Hcap & _) & Hg1 & _ & Hr & _) & _); [|apply NoDup_fst_map_to_list].
  split; [|split].
  - split; [|split; [|done]].
    + unfold supervisor_correlation_enabled in *. cbn. by rewrite Hcap.
    + cbn. by rewrite Hg1.
  - intros frame (k & reg & Hin & He)%Hw. exists k, reg. split; [|exact He]. cbn. rewrite Hr.
    by apply elem_of_map_to_list.
  - intros Hs. by rewrite Hs.
Qed.

Lemma supervisor_reopens_witness :
  reopens (Shared_new 256) (entered lost_sample sample_opened.1.1)
  /\ generation (run_opened lost_sample None sample_opened.1.1).1.1 = 1.
Proof.
  destruct (supervisor_reopens sample_supervisor lost_sample None (Shared_new 256) sample_opened.1.1 sample_opened.1.2 Tcp)
    as (Hr & _ & Hg); [vm_compute; reflexivity|].
  split; [exact Hr|]. rewrite Hg; [|reflexivity]. vm_compute. reflexivity.
Defined.

(** ** Answers that cross *)

Local Abbreviation any_run := (mux_reachable accepts shout false (mux_opened sample_shared)).
Local Abbreviation sample_handles := (handles accepts).

(** A caller holds an answer, and no request of its own has it. *)
Definition crossed (s : Mux) : Prop :=
  exists r x, (r, x) ∈ delivered s
    /\ (exists call, call ∈ earlier s ++ calls s /\ call_responder call = r)
    /\ forall call, call ∈ earlier s ++ calls s -> call_responder call = r -> x <> shout (call_type call) (call_payload call).

(** The same, evaluated. *)
Definition crossed_at (s : Mux) (r : responder) (x : bytes) : bool :=
  bool_decide ((r, x) ∈ delivered s)
  && existsb (fun call => call_responder call =? r) (earlier s ++ calls s)
  && forallb (fun call => negb (call_responder call =? r) || negb (bool_decide (x = shout (call_type call) (call_payload call))))
       (earlier s ++ calls s).

Lemma crossed_at_spec s r x : crossed_at s r x = true -> crossed s.
Proof.
  unfold crossed_at. rewrite !andb_true_iff. intros [[Hd%bool_decide_eq_true He] Hf].
  exists r, x. split; [exact Hd|]. split.
  - apply existsb_exists in He as (call & Hin & E). exists call. split; [by apply list_elem_of_In | by apply N.eqb_eq].
  - intros call Hin Hr Hx. rewrite forallb_forall in Hf. specialize (Hf call (proj1 (list_elem_of_In _ _) Hin)).
    rewrite Hr, N.eqb_refl, bool_decide_eq_true_2 in Hf by done. discriminate Hf.
Qed.

(** The session is lost, and counted. *)
Definition lost (s : Mux) : Mux :=
  let s := sample_handles s (IoFrame (Err ConnectionClosed)) (channel s) in
  set_shared (next_generation (mx_shared s)) s.

Lemma lost_reachable s : over s = false -> generation (mx_shared (sample_handles s (IoFrame (Err ConnectionClosed)) (channel s))) < u64_max ->
  over (sample_handles s (IoFrame (Err ConnectionClosed)) (channel s)) = true -> any_run s -> any_run (lost s).
Proof.
  intros Ho Hg Ho' Hs. unfold lost. eapply mux_next; [eapply mux_next; [exact Hs|]|].
  - by apply step_socket.
  - by apply step_lost.
Qed.

(** A request whose handle draws an id, reads the generation and queues the
    command, which the task takes at once where it runs. *)
Definition submits (s : Mux) (r : responder) (id : N) (payload : bytes) : Mux :=
  let c := Request id (generation (mx_shared s)) KV_GET 0 payload r in
  leaves_drafts (submits_command s (id + 1) c [get_call r id payload] r) [] (channel s ++ [c]) [].
Definition takes (s : Mux) : Mux :=
  match channel s with c :: rest => sample_handles s (IoCommand (Some c)) rest | [] => s end.

Lemma submits_reachable s r id payload :
  any_run s -> drafts s = [] -> bool_decide (r ∈ issued s) = false ->
  allocate_request_id (next_request_id (mx_shared s)) = (Ok id, id + 1) -> id < 2 ^ 64 -> any_run (submits s r id payload).
Proof.
  intros Hs Hd Hr Ha Hid. unfold submits. eapply mux_next; [eapply mux_next; [exact Hs|]|].
  - apply (sample_requests false s r id (id + 1) payload); [done | by apply bool_decide_eq_false in Hr | done..].
  - apply (step_queue accepts shout false (submits_command s (id + 1) _ [get_call r id payload] r) [] _ []).
    cbn [submits_command drafts]. by rewrite Hd.
Qed.

Lemma takes_reachable s : any_run s -> over s = false -> any_run (takes s).
Proof.
  intros Hs Ho. unfold takes. destruct (channel s) as [|c rest] eqn:E; [exact Hs|].
  eapply mux_next; [exact Hs|]. by apply step_take.
Qed.

(** A request submitted while the connection is down draws id 1 from the old
    counter; the new session starts at 1 again and gives the same id to the next
    request. *)
Definition down : Mux := lost (mux_opened sample_shared).
Definition queued_while_down : Mux := submits down 7 1 (str "a").
Definition up_again : Mux := reopened queued_while_down (set_next_request_id 1 (mx_shared queued_while_down)) [].
Definition same_id_twice : Mux := takes (takes (submits up_again 8 1 (str "b"))).
Definition crossed_answer : Mux :=
  sample_handles same_id_twice (IoFrame (Ok (response_to KV_GET 1 (str "a")))) (channel same_id_twice).

Lemma crossed_answer_reachable : any_run crossed_answer.
Proof.
  assert (Hup : any_run up_again).
  { eapply mux_next; [|apply step_reopen; [vm_compute; reflexivity..| | constructor | done]].
    - apply submits_reachable; [|vm_compute; reflexivity..]. apply lost_reachable; [vm_compute; reflexivity..|apply mux_start].
    - split; [vm_compute; reflexivity|]. split; vm_compute; reflexivity. }
  eapply mux_next; [|apply (sample_answers false same_id_twice 1 (str "a"));
    [vm_compute; reflexivity | reflexivity | | vm_compute; reflexivity..]].
  - apply takes_reachable; [|vm_compute; reflexivity]. apply takes_reachable; [|vm_compute; reflexivity].
    apply submits_reachable; [exact Hup | vm_compute; reflexivity..].
  - replace (wire same_id_twice) with [request_frame 1 (str "a"); request_frame 1 (str "b")] by (vm_compute; reflexivity).
    apply elem_of_cons. by left.
Qed.

(** A registration whose restore request was not answered in time, and a request
    of the session that starts nevertheless. *)
Definition watching : Registration :=
  {| reg_message_type := NOTICE_SUBSCRIBE; reg_payload := str "news"; reg_decoder := fun _ => Ok 5 |}.
Definition restored_shared (sh : Shared) : Shared :=
  set_next_request_id 1 (set_registrations (<[1 := watching]> ∅) (<[1 := 5]> ∅) 2 sh).
Definition restore_request : bytes :=
  match try_encode_frame NOTICE_SUBSCRIBE 0 1 (str "news") with Ok frame => frame | Err _ => [] end.
Definition restored : Mux := reopened down (restored_shared (mx_shared down)) [restore_request].
Definition first_of_session : Mux := takes (submits restored 7 1 (str "a")).
Definition late_restore : Mux :=
  sample_handles first_of_session (IoFrame (Ok (response_to NOTICE_SUBSCRIBE 1 (str "news")))) (channel first_of_session).

Lemma late_restore_reachable : any_run late_restore.
Proof.
  assert (Hup : any_run restored).
  { eapply mux_next; [|apply step_reopen; [vm_compute; reflexivity..| | | done]].
    - apply lost_reachable; [vm_compute; reflexivity..|apply mux_start].
    - split; [vm_compute; reflexivity|]. split; vm_compute; reflexivity.
    - apply Forall_singleton. exists 1, watching. split; vm_compute; reflexivity. }
  eapply mux_next; [|apply step_frame; [vm_compute; reflexivity|]].
  - apply takes_reachable; [|vm_compute; reflexivity]. apply submits_reachable; [exact Hup | vm_compute; reflexivity..].
  - apply (honest_response shout first_of_session NOTICE_SUBSCRIBE 1 (str "news") restore_request); [reflexivity | reflexivity | | vm_compute; reflexivity..].
    replace (wire first_of_session) with [restore_request; request_frame 1 (str "a")] by (vm_compute; reflexivity).
    apply elem_of_cons. by left.
Qed.

(** C35: a reconnect can give one caller the answer of another.  From an
    established session, with a broker that answers each request it read with
    the answer to that request, there are runs in which a caller receives an
    answer that is not the answer to its request: a request submitted while the
    connection was down kept an id of the old counter and the generation of the
    new session, which gave the id out a second time; and a restore request,
    which uses correlation id 1, was answered after its timeout. *)
Theorem reconnect_crosses_answers :
  any_run crossed_answer /\ crossed crossed_answer /\ (8, shout KV_GET (str "a")) ∈ delivered crossed_answer
  /\ any_run late_restore /\ crossed late_restore /\ (7, shout NOTICE_SUBSCRIBE (str "news")) ∈ delivered late_restore.
Proof.
  split; [exact crossed_answer_reachable|]. split; [apply (crossed_at_spec _ 8 (str "a!")); vm_compute; reflexivity|].
  split; [apply (bool_decide_eq_true_1 ((8, str "a!") ∈ delivered crossed_answer)); vm_compute; reflexivity|].
  split; [exact late_restore_reachable|]. split; [apply (crossed_at_spec _ 7 (str "news!")); vm_compute; reflexivity|].
  apply (bool_decide_eq_true_1 ((7, str "news!") ∈ delivered late_restore)). vm_compute. reflexivity.
Qed.
