(* ===== verification/Observability.v ===== *)
(** * Observability

    [src/src/observability.rs] and [emit_lifecycle] of
    [src/src/async_connection.rs]: what the logger, the tracer, the meter and
    the lifecycle handler of a client are called with, and the language of the
    lifecycle events of a connection. *)

From S2P Require Import Prelude Errors Protocol Codec Wire3 Shared Session SessionFacts Supervisor SupervisorFacts Transport Sockets.
Import message_type.

(** ** The sinks *)

(** A [BTreeMap<String, String>], in its order. *)
Definition FitzAttributes : Type := list (bytes * bytes).

Record FitzLifecycleEvent : Type := {
  event_name : bytes;
  event_state : ConnectionState;
  event_attributes : FitzAttributes;
}.

(** Which sinks are installed; what they do is the application's. *)
Record FitzObservability : Set := { logger : bool; tracer : bool; meter : bool; lifecycle : bool }.
Definition FitzObservability_default : FitzObservability :=
  {| logger := false; tracer := false; meter := false; lifecycle := false |}.

(** The calls of the traits that the client makes; [set_error] and [record] are
    never called. *)
Inductive SinkCall : Type :=
| LoggerEvent (name : bytes) (attributes : FitzAttributes)
| SpanStart (name : bytes) (attributes : FitzAttributes)
| SpanEnd (name : bytes)
| MeterIncrement (name : bytes) (value : N) (attributes : FitzAttributes)
| LifecycleHandler (event : FitzLifecycleEvent).

Definition when {A} (installed : bool) (calls : list A) : list A := if installed then calls else [].

(** The sinks of one [emit_lifecycle]. *)
Definition emit (obs : FitzObservability) (endpoint : bytes) (name : bytes) (state : ConnectionState) : list SinkCall :=
  let attributes := [(str "endpoint", endpoint)] in
  when (logger obs) [LoggerEvent name attributes]
  ++ when (tracer obs) [SpanStart name attributes; SpanEnd name]
  ++ when (meter obs) [MeterIncrement (str "fitz.lifecycle.events") 1 attributes]
  ++ when (lifecycle obs) [LifecycleHandler {| event_name := name; event_state := state; event_attributes := attributes |}].

(** The events among the effects of a run, and the calls they make. *)
Definition events (es : list Effect) : list (bytes * ConnectionState) :=
  omap (fun e => match e with Lifecycle name state => Some (name, state) | _ => None end) es.
Definition sink_calls (obs : FitzObservability) (endpoint : bytes) (es : list Effect) : list SinkCall :=
  concat (map (fun ev => emit obs endpoint ev.1 ev.2) (events es)).

(** What each sink learns of the events. *)
Definition logged (calls : list SinkCall) : list bytes :=
  omap (fun c => match c with LoggerEvent name _ => Some name | _ => None end) calls.
Definition spans (calls : list SinkCall) : list bytes :=
  omap (fun c => match c with SpanEnd name => Some name | _ => None end) calls.
Definition counted (calls : list SinkCall) : N :=
  fold_right (fun c n => match c with MeterIncrement _ v _ => v + n | _ => n end) 0 calls.
Definition handled (calls : list SinkCall) : list (bytes * ConnectionState) :=
  omap (fun c => match c with LifecycleHandler e => Some (event_name e, event_state e) | _ => None end) calls.

Lemma counted_app a b : counted (a ++ b) = counted a + counted b.
Proof. unfold counted. induction a as [|c a IH]; [done|]. cbn [app fold_right]. rewrite IH. destruct c; lia. Qed.

Lemma logged_spec obs ep es : logged (sink_calls obs ep es) = when (logger obs) (map fst (events es)).
Proof.
  unfold sink_calls. induction (events es) as [|[n s] l IH]; [by destruct (logger obs)|]. cbn [map concat].
  unfold logged in *. rewrite omap_app, IH. by destruct obs as [[] [] [] []].
Qed.
Lemma spans_spec obs ep es : spans (sink_calls obs ep es) = when (tracer obs) (map fst (events es)).
Proof.
  unfold sink_calls. induction (events es) as [|[n s] l IH]; [by destruct (tracer obs)|]. cbn [map concat].
  unfold spans in *. rewrite omap_app, IH. by destruct obs as [[] [] [] []].
Qed.
Lemma handled_spec obs ep es : handled (sink_calls obs ep es) = when (lifecycle obs) (events es).
Proof.
  unfold sink_calls. induction (events es) as [|[n s] l IH]; [by destruct (lifecycle obs)|]. cbn [map concat].
  unfold handled in *. rewrite omap_app, IH. by destruct obs as [[] [] [] []].
Qed.
Lemma counted_spec obs ep es : counted (sink_calls obs ep es) = if meter obs then blen (events es) else 0.
Proof.
  unfold sink_calls. induction (events es) as [|[n s] l IH]; [by destruct (meter obs)|]. cbn [map concat].
  rewrite counted_app, IH, blen_cons. destruct obs as [[] [] [] []]; cbn; lia.
Qed.

(** ** The language of the events *)

(** Where an observer that sees the events only believes the connection to be:
    [first] while the caller of [connect] waits. *)
Inductive Phase : Set := Starting | Opening (first : bool) | Authing (first : bool) | Up | Down | Over.

Definition is_event (name : string) (state : ConnectionState) (ev : bytes * ConnectionState) : bool :=
  bool_decide (ev.1 = str name) && bool_decide (ev.2 = state).
Definition is_named (name : string) (ev : bytes * ConnectionState) : bool := bool_decide (ev.1 = str name).

(** The attempt failed. *)
Definition failed_next (first : bool) (ev : bytes * ConnectionState) : option Phase :=
  if is_event "auth_rejected" ClosedState ev then Some Over
  else if first then if is_event "connect_failed" Disconnected ev then Some Over else None
  else if is_named "reconnect_failed" ev then Some Down else None.

Definition lifecycle_next (p : Phase) (ev : bytes * ConnectionState) : option Phase :=
  match p with
  | Starting => if is_event "connect_start" Connecting ev then Some (Opening true) else None
  | Opening first => if is_event "auth_start" Authenticating ev then Some (Authing first) else failed_next first ev
  | Authing first =>
      if is_event (if first then "connect_succeeded" else "reconnect_succeeded") Authenticated ev then Some Up
      else failed_next first ev
  | Up =>
      if is_named "goaway" ev then Some Up
      else if is_event "closed" ClosedState ev then Some Over
      else if is_named "connection_lost" ev then Some Down else None
  | Down => if is_event "reconnect_start" Reconnecting ev then Some (Opening false) else None
  | Over => None
  end.

Fixpoint follow (p : Phase) (evs : list (bytes * ConnectionState)) : option Phase :=
  match evs with
  | [] => Some p
  | ev :: evs' => match lifecycle_next p ev with Some p' => follow p' evs' | None => None end
  end.

Lemma follow_app p a b : follow p (a ++ b) = match follow p a with Some p' => follow p' b | None => None end.
Proof. revert p. induction a as [|ev a IH]; intros p; [done|]. cbn. by destruct (lifecycle_next p ev). Qed.

Lemma events_app a b : events (a ++ b) = events a ++ events b.
Proof. apply omap_app. Qed.

Lemma events_lifecycle name state es : events (Lifecycle name state :: es) = (name, state) :: events es.
Proof. done. Qed.

Lemma events_concat {Q} (f : Q -> list Effect) l : (forall q, events (f q) = []) -> events (concat (map f l)) = [].
Proof. intros H. induction l as [|q l IH]; [done|]. cbn [map concat]. by rewrite events_app, H, IH. Qed.

Lemma events_reply_opt r x : events (reply_opt r x) = [].
Proof. by destruct r. Qed.
Lemma events_drop_opt r : events (drop_opt r) = [].
Proof. by destruct r. Qed.

Lemma events_fail_all st st' e : fail_all st = (st', e) -> events e = [].
Proof.
  unfold fail_all, fail_pending. intros [= _ <-]. rewrite !events_app.
  by rewrite !events_concat by (intros; apply events_reply_opt).
Qed.

(** ** The events of a session *)

(** A session reports what the broker announces, and its close. *)
Definition session_events (s : Stepped) : Prop :=
  exists pre, Forall (fun ev => ev.1 = str "goaway") pre
    /\ (events (st_effects s) = pre
        \/ (events (st_effects s) = pre ++ [(str "closed", ClosedState)] /\ st_result s = Some SessionClosed)).

Lemma eventless_step s : events (st_effects s) = [] -> session_events s.
Proof. exists []. split; [constructor | by left]. Qed.

Lemma disconnect_events sh st e : events (st_effects (disconnect sh st e)) = events e.
Proof.
  unfold disconnect. destruct (fail_all st) as [st' failed] eqn:E. cbn [st_effects].
  by rewrite events_app, (events_fail_all _ _ _ E), app_nil_r.
Qed.

Section Steps.
Context (transport : bytes -> Result unit).

Lemma write_legacy_events mt p : events (write_legacy transport mt p).1 = [].
Proof. unfold write_legacy. by destruct (try_encode_message_frame mt p). Qed.

Lemma request_events sh st g id gen mt fl p r :
  events (st_effects (handle_request transport sh st g id gen mt fl p r).1) = [].
Proof.
  unfold handle_request. destruct (negb (gen =? g)); [done|]. set (b := bool_decide _).
  assert (Hd : events (if b then [DropResponder r] else []) = []) by (by destruct b).
  destruct (supervisor_correlation_enabled sh).
  - destruct (_ <=? _); [cbn [fst stepped st_effects]; by rewrite events_app, Hd, events_reply_opt|].
    destruct (encode_outbound _ _ _ _ _); [|cbn [fst stepped st_effects]; by rewrite events_app, Hd, events_reply_opt].
    set (over := match _ with Some slot => _ | None => _ end).
    assert (Ho : events over = []) by (unfold over; destruct (_ !! id); [apply events_drop_opt | done]).
    destruct (is_ok _); cbn [fst]; rewrite ?disconnect_events; cbn [stepped st_effects]; by rewrite !events_app, Hd, Ho.
  - destruct (pending _ !! mt) as [[|x q]|];
      [|exact Hd|]; (pose proof (write_legacy_events mt p) as Hw; destruct (write_legacy _ _ _) as [e w]; cbn [fst] in Hw;
         destruct (is_ok w); cbn [fst]; rewrite ?disconnect_events; cbn [stepped st_effects]; by rewrite events_app, Hd, Hw).
Qed.

Lemma cancellation_events st id : events (handle_cancellation st id).2 = [].
Proof.
  assert (Hq : forall {Q} (f : list Q -> option (list Q * list Effect)),
    (forall q q' e, f q = Some (q', e) -> events e = []) ->
    forall l m m' e, first_queue f l m = Some (m', e) -> events e = []).
  { intros Q f Hf l. induction l as [|[k q] l IH]; intros m m' e; cbn [first_queue]; [done|].
    destruct (f q) as [[q' e']|] eqn:E; [|apply IH]. intros [= _ <-]. by eapply Hf. }
  unfold handle_cancellation, cancel_all_pending, cancel_pending.
  destruct (correlated st !! id); [apply events_drop_opt|].
  destruct (first_queue (fun queue => cancel_in_queue queue id) _ _) as [[p e]|] eqn:E1.
  { cbn. apply Hq in E1; [done|]. clear. induction q as [|x q IH]; intros q' e; cbn [cancel_in_queue]; [done|].
    destruct (_ =? _); [intros [= _ <-]; apply events_drop_opt|].
    destruct (cancel_in_queue q id) as [[q2 e2]|]; [|done]. intros [= _ <-]. by eapply IH. }
  destruct (first_queue (fun queue => remove_from_queue queue id) _ _) as [[p e]|] eqn:E2; [|done].
  cbn. apply Hq in E2; [done|]. clear. induction q as [|x q IH]; intros q' e; cbn [remove_from_queue]; [done|].
  destruct (_ =? _); [intros [= _ <-]; apply events_drop_opt|].
  destruct (remove_from_queue q id) as [[q2 e2]|]; [|done]. intros [= _ <-]. by eapply IH.
Qed.

Lemma record_events sh st record : events (st_effects (handle_record transport sh st record)) = [].
Proof.
  destruct record as [[[mt pl] c] fin]. unfold handle_record. destruct (negb (c =? 0)).
  - unfold dispatch_correlated. destruct (correlated st !! c); [|by rewrite disconnect_events].
    destruct fin; [apply events_reply_opt | done].
  - unfold dispatch. destruct (pending st !! mt) as [[|slot q]|]; [done| |done]. cbn zeta iota. unfold send_next_queued.
    destruct (queued _ !! mt) as [[|next rest]|]; [apply events_reply_opt| |apply events_reply_opt].
    pose proof (write_legacy_events mt (q_payload next)) as Hw. destruct (write_legacy _ _ _) as [e w]. cbn [fst] in Hw.
    destruct (is_ok w); rewrite ?disconnect_events; cbn [stepped st_effects]; by rewrite events_app, events_reply_opt, Hw.
Qed.

Lemma records_events records : forall sh st e, events (st_effects (handle_records transport sh st records e)) = events e.
Proof.
  induction records as [|rec records IH]; intros sh st e; [done|]. cbn [handle_records].
  pose proof (record_events sh st rec) as Hr. destruct (st_result _).
  - cbn [st_effects]. by rewrite events_app, Hr, app_nil_r.
  - by rewrite IH, events_app, Hr, app_nil_r.
Qed.

Lemma decode_incoming_events sh frame sh' e records :
  decode_incoming sh frame = Ok (sh', e, records) -> Forall (fun ev => ev.1 = str "goaway") (events e).
Proof.
  unfold decode_incoming. destruct (_ <? _); [done|]. intros E. ok_inv E. destruct a0 as [pl mask].
  destruct (_ =? HELLO). { destruct (_ || _); [done|]. ok_inv E. injection E as _ <- _. constructor. }
  destruct (_ =? GOAWAY). { destruct (control_misflagged _); [done|]. ok_inv E. injection E as _ <- _. by repeat constructor. }
  destruct (_ =? CONNECT_REJECTED); [done|]. injection E as <- <- <-. constructor.
Qed.

Lemma frame_events sh st frame :
  Forall (fun ev => ev.1 = str "goaway") (events (st_effects (handle_frame transport sh st frame).1)).
Proof.
  unfold handle_frame. destruct (decode_incoming sh frame) as [[[sh' e] records]|] eqn:E; cbn [fst].
  - rewrite records_events. by eapply decode_incoming_events.
  - by rewrite disconnect_events.
Qed.

Lemma announces_step s : Forall (fun ev => ev.1 = str "goaway") (events (st_effects s)) -> session_events s.
Proof. intros H. eexists. split; [exact H | by left]. Qed.

Lemma command_events sh st g command : session_events (handle_command transport sh st g command).1.
Proof.
  destruct command as [[r|id gen mt fl p r|id gen mt p r|r]|]; cbn [handle_command fst].
  - by apply eventless_step.
  - apply eventless_step, request_events.
  - apply eventless_step. unfold handle_send. destruct (negb _); [done|]. by destruct (encode_outbound _ _ _ _ _).
  - exists []. split; [constructor|]. right. unfold handle_close. destruct (fail_all st) as [st' failed] eqn:E.
    split; [|done]. cbn [st_effects]. by rewrite !events_app, (events_fail_all _ _ _ E).
  - apply eventless_step. unfold handle_channel_closed. destruct (fail_all st) as [st' failed] eqn:E.
    exact (events_fail_all _ _ _ E).
Qed.

Lemma io_step_events g sh st event : session_events (io_step transport g sh st event).
Proof.
  destruct event as [command|id|[frame|err]]; cbn [io_step].
  - apply command_events.
  - apply eventless_step. pose proof (cancellation_events st id). by destruct (handle_cancellation st id).
  - apply announces_step, frame_events.
  - apply eventless_step. by rewrite disconnect_events.
Qed.

(** A run that goes on after a step. *)
Lemma session_events_more e s :
  Forall (fun ev => ev.1 = str "goaway") (events e) -> session_events s ->
  session_events {| st_shared := st_shared s; st_session := st_session s; st_effects := e ++ st_effects s; st_result := st_result s |}.
Proof.
  intros He (pre & Hp & H). exists (events e ++ pre). split; [by apply Forall_app|]. cbn [st_effects st_result].
  rewrite events_app. destruct H as [->|[-> ->]]; [by left | right]. by rewrite <- app_assoc.
Qed.

Lemma running_announces e s :
  Forall (fun ev => ev.1 = str "goaway") (events e) -> session_events s -> st_result s = None ->
  Forall (fun ev => ev.1 = str "goaway") (events (e ++ st_effects s)).
Proof.
  intros He (pre & Hp & [H|[_ H]]) Hr; [|congruence]. rewrite events_app, H. by apply Forall_app.
Qed.

Lemma run_io_events g ios : forall sh st e,
  Forall (fun ev => ev.1 = str "goaway") (events e) -> session_events (run_io_from transport g sh st ios e).
Proof.
  induction ios as [|event ios IH]; intros sh st e He; [by apply announces_step|]. cbn [run_io_from].
  pose proof (io_step_events g sh st event) as Hs. destruct (st_result _) as [r|] eqn:Er.
  - rewrite <- Er. by apply session_events_more.
  - apply IH. by apply running_announces.
Qed.

Lemma tcp_turn_events g sh st r event : session_events (tcp_turn transport g sh st r event).1.
Proof.
  destruct event as [chunk| |error|command|id]; cbn [tcp_turn fst]; try apply io_step_events.
  - by apply eventless_step.
  - destruct (poll_read r) as [[frame|] r']; [apply io_step_events | by apply eventless_step].
Qed.

Lemma run_tcp_events g evs : forall sh st r e,
  Forall (fun ev => ev.1 = str "goaway") (events e) -> session_events (run_tcp_from transport g sh st r evs e).1.
Proof.
  induction evs as [|event evs IH]; intros sh st r e He; [by apply announces_step|]. cbn [run_tcp_from].
  pose proof (tcp_turn_events g sh st r event) as Hs. destruct (tcp_turn _ _ _ _ _ _) as [s r']. cbn in Hs.
  destruct (st_result s) as [res|] eqn:Er.
  - cbn [fst]. rewrite <- Er. by apply session_events_more.
  - apply IH. by apply running_announces.
Qed.

Context (options : HeartbeatOptions) (control : Effect -> bool).

Lemma ws_step_events g sh st hb now event s hb' :
  ws_step transport options control g sh st hb now event = Some (s, hb') -> session_events s.
Proof.
  destruct event as [command|id|[[[frame|p|p|]|err]|]|]; cbn [ws_step].
  - pose proof (command_events sh st g command). destruct (handle_command _ _ _ _ _). by intros [= <- _].
  - pose proof (cancellation_events st id). destruct (handle_cancellation st id). intros [= <- _]. by apply eventless_step.
  - pose proof (frame_events sh st frame). destruct (handle_frame _ _ _ _). intros [= <- _]. by apply announces_step.
  - destruct (control _); intros [= <- _]; apply eventless_step; by rewrite ?disconnect_events.
  - intros [= <- _]. by apply eventless_step.
  - intros [= <- _]. by apply eventless_step.
  - intros [= <- _]. apply eventless_step. by rewrite disconnect_events.
  - intros [= <- _]. apply eventless_step. by rewrite disconnect_events.
  - destruct (_ || _); [done|]. destruct (awaiting_pong hb); [intros [= <- _]; apply eventless_step; by rewrite disconnect_events|].
    destruct (negb _); intros [= <- _]; apply eventless_step; by rewrite ?disconnect_events.
Qed.

Lemma run_websocket_events g evs : forall sh st hb e,
  Forall (fun ev => ev.1 = str "goaway") (events e) ->
  session_events (run_websocket_from transport options control g sh st hb evs e).
Proof.
  induction evs as [|[now event] evs IH]; intros sh st hb e He; [by apply announces_step|]. cbn [run_websocket_from].
  destruct (ws_step _ _ _ _ _ _ _ _ _) as [[s hb']|] eqn:Es; [|by apply IH].
  apply ws_step_events in Es. destruct (st_result s) as [res|] eqn:Er.
  - rewrite <- Er. by apply session_events_more.
  - apply IH. by apply running_announces.
Qed.

Lemma run_session_events sh socket : session_events (Sockets.run_session transport options control sh socket).
Proof. destruct socket; [apply run_tcp_events | apply run_websocket_events]; constructor. Qed.
End Steps.

(** ** The events of a connection *)

Definition is_first (initial : option responder) : bool := match initial with Some _ => true | None => false end.

Lemma answer_initial_events initial result : events (answer_initial initial result) = [].
Proof. by destruct initial. Qed.

Lemma write_events sh expected reads : forall sh' e r, read_until sh expected reads = (sh', e, r) -> events e = [].
Proof.
  revert sh. induction reads as [|[frame|err] reads IH]; intros sh sh' e r; cbn [read_until]; [by intros [= _ <- _] | | by intros [= _ <- _]].
  destruct (decode_frame_header frame) as [header|]; [|by intros [= _ <- _]].
  destruct (_ =? expected); [by intros [= _ <- _]|].
  destruct (publish_notification sh _ _) as [sh1 e1] eqn:Ep. destruct (read_until sh1 expected reads) as [[sh2 e2] r2] eqn:E.
  intros [= _ <- _]. rewrite events_app, (IH _ _ _ _ E), app_nil_r. by injection Ep as _ <-.
Qed.

Lemma restore_events rts rs : forall sh, events (restore_all rts rs sh).2 = [].
Proof.
  induction rs as [|[k reg] rs IH]; intros sh; cbn [restore_all]; [done|]. unfold restore_one.
  assert (Hr : events (round_trip_session sh (rts k) (reg_message_type reg) (reg_payload reg)).1.2 = []).
  { unfold round_trip_session. destruct (try_encode_frame _ _ _ _); [|done]. destruct (rt_write _ _); [|done].
    destruct (read_until _ _ _) as [[sh' e] r] eqn:E. exact (write_events _ _ _ _ _ _ E). }
  destruct (round_trip_session _ _ _ _) as [[sh1 e1] r1]. cbn [fst snd] in Hr.
  destruct (x <- r1;; reg_decoder reg x);
    (match goal with |- context [restore_all rts rs ?x] => pose proof (IH x) as H; destruct (restore_all rts rs x) as [sh3 e3] end;
     cbn [snd] in *; by rewrite events_app, Hr).
Qed.

Lemma settle_websocket_events sh reads : forall e r, settle_websocket sh reads = (e, r) -> events e = [].
Proof.
  induction reads as [|[read pong] reads IH]; intros e r; cbn [settle_websocket]; [by intros [= <- _]|].
  destruct read as [[[frame|p|p|]|err]|]; try (by intros [= <- _]); [|apply IH].
  destruct pong; [|by intros [= <- _]]. destruct (settle_websocket sh reads) as [e' r'] eqn:E.
  intros [= <- _]. exact (IH _ _ eq_refl).
Qed.

(** An attempt starts to authenticate, or fails before. *)
Lemma open_session_events sup a sh sh' e r :
  open_session sup a sh = (sh', e, r) ->
  events e = [(str "auth_start", Authenticating)] \/ (events e = [] /\ is_ok r = false).
Proof.
  unfold open_session. destruct (token a); [|intros [= _ <- <-]; by right].
  destruct (connect_transport sup a) as [t|]; [|intros [= _ <- <-]; by right].
  destruct (Wire3.encode _ _); [|intros [= _ <- <-]; by left].
  destruct (write_session a CONNECT _) as [e1 sent] eqn:Ew.
  assert (H1 : events e1 = []).
  { unfold write_session in Ew. destruct (try_encode_frame _ _ _ _); by injection Ew as <- _. }
  destruct sent; [|intros [= _ <- <-]; left; by rewrite events_lifecycle, H1].
  assert (H2 : forall e2 settled, (match t with Tcp => ([], settle_tcp (set_state Authenticating (set_state Connecting (set_capabilities 0 sh))) (tcp_read a))
      | WebSocket => settle_websocket (set_state Authenticating (set_state Connecting (set_capabilities 0 sh))) (ws_reads a) end) = (e2, settled) -> events e2 = []).
  { destruct t; [by intros ? ? [= <- _] | intros ? ?; apply settle_websocket_events]. }
  destruct (match t with Tcp => _ | WebSocket => _ end) as [e2 settled]. specialize (H2 _ _ eq_refl).
  destruct settled; intros [= _ <- <-]; left; by rewrite events_lifecycle, events_app, H1, H2.
Qed.

(** An attempt that failed ends the connection or waits. *)
Lemma open_failed_events sup initial error sh p :
  p = Opening (is_first initial) \/ p = Authing (is_first initial) ->
  match open_failed sup initial error sh with
  | Some (_, e) => exists p', follow p (events e) = Some p'
  | None => initial = None /\ forall state, follow p [(str "reconnect_failed", state)] = Some Down
  end.
Proof.
  intros Hp. unfold open_failed.
  assert (Hd : forall error', initial = None -> exists p', follow p (events (emit_lifecycle (set_state Disconnected sh) (failed_event initial) ++ answer_initial initial (Err error'))) = Some p').
  { intros error' ->. destruct Hp as [->| ->]; by eexists. }
  assert (Hf : forall error', initial <> None -> exists p', follow p (events (emit_lifecycle (set_state Disconnected sh) (str "connect_failed") ++ answer_initial initial (Err error'))) = Some p').
  { intros error' Hi. rewrite events_app, answer_initial_events, app_nil_r. destruct initial; [|done]. destruct Hp as [->| ->]; by eexists. }
  assert (Ha : exists p', follow p (events (emit_lifecycle (set_state ClosedState sh) (str "auth_rejected") ++ answer_initial initial (Err (Authentication (to_string error))))) = Some p').
  { rewrite events_app, answer_initial_events, app_nil_r. destruct initial, Hp as [->| ->]; by eexists. }
  assert (Hother : match (if is_auth_failure error then
        let sh := set_state ClosedState sh in
        Some (sh, emit_lifecycle sh (str "auth_rejected") ++ answer_initial initial (Err (Authentication (to_string error))))
      else if match initial with Some _ => true | None => false end then
        let sh := set_state Disconnected sh in
        Some (sh, emit_lifecycle sh (str "connect_failed") ++ answer_initial initial (Err (Connection (to_string error))))
      else if negb (reconnect_enabled (reconnect sup)) then
        Some (set_state Disconnected sh, answer_initial initial (Err (Connection (to_string error))))
      else None) with
    | Some (_, e) => exists p', follow p (events e) = Some p'
    | None => initial = None /\ forall state, follow p [(str "reconnect_failed", state)] = Some Down
    end).
  { destruct (is_auth_failure error); [exact Ha|]. destruct initial as [r|]; [by apply Hf|].
    destruct (negb _); [by exists p|]. split; [done|]. intros state. by destruct Hp as [->| ->]. }
  destruct error; try exact Hother. destruct initial; [by apply (Hf (VersionMismatch code message)) | by apply Hd].
Qed.

(** The session a turn runs. *)
Lemma run_opened_events turn initial sh :
  (forall sh, session_events (Supervisor.run_session turn sh)) ->
  exists p, follow (Authing (is_first initial)) (events (run_opened turn initial sh).1.2) = Some p
    /\ ((run_opened turn initial sh).2 = Some SessionDisconnected -> p = Down).
Proof.
  intros Hs. unfold run_opened, restore_registrations.
  pose proof (restore_events (round_trips turn) (map_to_list (registrations sh)) sh) as Hr.
  destruct (restore_all _ _ _) as [sh1 e1]. cbn [snd] in Hr. set (sh2 := set_state Authenticated _).
  assert (Hup : follow (Authing (is_first initial)) (events (e1 ++ emit_lifecycle sh2 (connected_event initial) ++ answer_initial initial (Ok tt))) = Some Up).
  { rewrite !events_app, Hr, answer_initial_events, app_nil_r. by destruct initial. }
  destruct (Hs sh2) as (pre & Hpre & Hev).
  assert (Hgo : follow Up pre = Some Up).
  { clear Hev. induction Hpre as [|ev l E _ IH]; [done|]. cbn [follow lifecycle_next]. unfold is_named. by rewrite E. }
  assert (Hsess : exists p, follow Up (events (st_effects (Supervisor.run_session turn sh2))) = Some p
    /\ (st_result (Supervisor.run_session turn sh2) = Some SessionDisconnected -> p = Up)).
  { destruct Hev as [->|[-> Hres]]; [by exists Up|]. exists Over. rewrite follow_app, Hgo. split; [done|]. by rewrite Hres. }
  destruct Hsess as (p & Hp & Hpu).
  destruct (st_result (Supervisor.run_session turn sh2)) as [[]|]; cbn [fst snd]; rewrite ?(events_app (e1 ++ _)), follow_app, Hup.
  - exists Down. rewrite events_app, follow_app, Hp, (Hpu eq_refl). done.
  - exists p. by split.
  - exists p. by split.
Qed.

Lemma reconnect_delay_events sup attempts initial sh sh' e d :
  reconnect_delay sup attempts initial sh = (sh', e, d) ->
  match d with
  | Exhausted => events e = []
  | _ => events e = [(str "reconnect_start", Reconnecting)]
  end.
Proof.
  unfold reconnect_delay. destruct (negb _ && _); [intros [= _ <- <-]; apply answer_initial_events|].
  destruct (backoff_delay _ _); by intros [= _ <- <-].
Qed.

Lemma connect_loop_events sup turns : forall attempts initial sh e,
  Forall (fun turn => forall sh, session_events (Supervisor.run_session turn sh)) turns ->
  follow Starting (events e) = Some (Opening (is_first initial)) ->
  exists p, follow Starting (events (connect_loop sup turns attempts initial sh e).1.2) = Some p.
Proof.
  induction turns as [|turn turns IH]; intros attempts initial sh e Ht He; cbn [connect_loop]; [by eexists|].
  apply Forall_cons in Ht as [Hturn Ht].
  assert (Hnext : forall sh2 e2, follow Starting (events e2) = Some Down ->
    exists p, follow Starting (events (match reconnect_delay sup (attempts + 1) None sh2 with
        | (sh, e', Exhausted) => (sh, e2 ++ e', Returned (Err exhausted))
        | (sh, e', Panicked) => (sh, e2 ++ e', PanickedEnd)
        | (sh, e', Sleep _) => connect_loop sup turns (attempts + 1) None (during_sleep turn sh) (e2 ++ e')
        end).1.2) = Some p).
  { intros sh2 e2 H2. destruct (reconnect_delay _ _ _ _) as [[sh3 e3] d] eqn:Ed. apply reconnect_delay_events in Ed.
    destruct d; cbn [fst snd]; [|apply IH; [done|]|]; rewrite events_app, Ed, follow_app, H2; [by eexists | done | by eexists]. }
  destruct (close_requested sh). { cbn [fst snd]. rewrite events_app, follow_app, He. destruct initial; by eexists. }
  destruct (open_session sup (attempt turn) sh) as [[sh1 opening] opened] eqn:Eo. apply open_session_events in Eo.
  assert (Hop : exists p, (p = Opening (is_first initial) \/ p = Authing (is_first initial)) /\ follow Starting (events (e ++ opening)) = Some p
    /\ (is_ok opened = true -> p = Authing (is_first initial))).
  { rewrite events_app, follow_app, He. destruct Eo as [->|[-> E]].
    - eexists. split; [by right|]. by split.
    - eexists. split; [by left|]. split; [done|]. by rewrite E. }
  destruct Hop as (p & Hp & Hf & Hok). destruct opened as [t|error].
  - destruct (close_requested _).
    { cbn [fst snd]. rewrite app_assoc, events_app, follow_app, Hf. destruct initial; by eexists. }
    destruct (run_opened_events turn initial (during_open turn sh1) Hturn) as (p' & Hp' & Hd).
    destruct (run_opened _ _ _) as [[sh2 e2] result]. cbn [fst snd] in Hp', Hd.
    assert (Hall : follow Starting (events (e ++ opening ++ e2)) = Some p').
    { rewrite app_assoc, events_app, follow_app, Hf, (Hok eq_refl). exact Hp'. }
    destruct result as [[]|]; [|by eexists|by eexists]. apply Hnext. by rewrite Hall, Hd.
  - pose proof (open_failed_events sup initial error (during_open turn sh1) p Hp) as Hfail.
    destruct (open_failed _ _ _ _) as [[sh2 e2]|].
    + destruct Hfail as [p' Hp']. exists p'. cbn [fst snd]. by rewrite app_assoc, events_app, follow_app, Hf.
    + destruct Hfail as [-> Hfail]. apply Hnext.
      rewrite app_assoc, events_app, follow_app, Hf. apply Hfail.
Qed.

(** C5: the lifecycle events of a connection follow one protocol, whatever the
    attempts, the broker and the other tasks do: connecting starts once; each
    attempt authenticates at most once and ends in one success, named after
    whether [connect] still waits, or one failure; a session that is up reports
    GOAWAYs, then its close or its loss; only a loss or a failed reconnect is
    followed by a back-off, and nothing follows a rejection or a close.  Every
    sink that is installed learns of the same events, in order, and the meter
    counts them. *)
Theorem lifecycle_events_follow_protocol sup obs turns initial sh :
  Forall (fun turn => forall sh, session_events (Supervisor.run_session turn sh)) turns ->
  is_first initial = true ->
  let es := (connect_and_run sup turns initial sh).1.2 in
  let calls := sink_calls obs (endpoint sup) es in
  (exists p, follow Starting (events es) = Some p)
  /\ logged calls = when (logger obs) (map fst (events es))
  /\ spans calls = when (tracer obs) (map fst (events es))
  /\ counted calls = (if meter obs then blen (events es) else 0)
  /\ handled calls = when (lifecycle obs) (events es).
Proof.
  intros Ht Hi. cbn zeta.
  split; [|split; [apply logged_spec | split; [apply spans_spec | split; [apply counted_spec | apply handled_spec]]]].
  unfold connect_and_run. apply connect_loop_events; [done|]. by rewrite Hi.
Qed.

(** A connection that opens twice and loses both sessions, as the handler sees
    it. *)
Definition sample_events : list (bytes * ConnectionState) :=
  events (connect_and_run sample_supervisor [lost_sample; lost_sample] (Some 1) (Shared_new 256)).1.2.

Lemma sample_events_are : map fst sample_events =
  [str "connect_start"; str "auth_start"; str "connect_succeeded"; str "connection_lost"; str "reconnect_start";
   str "auth_start"; str "reconnect_succeeded"; str "connection_lost"; str "reconnect_start"].
Proof. vm_compute. reflexivity. Qed.

Lemma lifecycle_events_follow_protocol_witness :
  (exists p, follow Starting sample_events = Some p)
  /\ handled (sink_calls {| logger := false; tracer := false; meter := true; lifecycle := true |} (endpoint sample_supervisor)
               (connect_and_run sample_supervisor [lost_sample; lost_sample] (Some 1) (Shared_new 256)).1.2) = sample_events
  /\ follow Starting (sample_events ++ [(str "connect_start", Connecting)]) = None.
Proof.
  destruct (lifecycle_events_follow_protocol sample_supervisor {| logger := false; tracer := false; meter := true; lifecycle := true |}
    [lost_sample; lost_sample] (Some 1) (Shared_new 256)) as (Hp & _ & _ & _ & Hh).
  - repeat constructor; intros sh; unfold lost_sample, Supervisor.run_session; apply run_io_events; constructor.
  - reflexivity.
  - split; [exact Hp|]. split; [exact Hh|]. vm_compute. reflexivity.
Defined.
