(* ===== verification/Heartbeat.v ===== *)
(** * Heartbeat

    The heartbeat of the WebSocket loop of [Session] over a whole run: a peer
    that has gone silent is noticed after the idle interval and the timeout, and
    a peer the heartbeat gives up on has left a Ping unanswered.  The requests of
    this side count as life of the other, so the first holds from when they
    stop. *)

From S2P Require Import Prelude Errors Protocol Codec Shared Session SessionFacts Supervisor Transport Sockets.
Import message_type.
From Stdlib Require Import Sorting.Sorted.

(** ** Runs that go on *)

(** Events of this side only, none of which moves the deadline: everything but
    requests and the peer's messages. *)
Definition quiet (event : WsEvent) : bool :=
  match event with
  | WsCommand (Some (Request _ _ _ _ _ _)) | WsMessageIn _ => false
  | _ => true
  end.

(** What shows that the peer is there: a Pong, or a frame. *)
Definition sign_of_life (event : WsEvent) : bool :=
  match event with WsMessageIn (Some (Ok (Binary _ | Pong _))) => true | _ => false end.

Definition in_order (events : list (duration * WsEvent)) : Prop := StronglySorted N.le (map fst events).

Lemma in_order_cons now event events : in_order ((now, event) :: events) -> in_order events /\ Forall (fun x => now <= fst x) events.
Proof. intros H. inversion H as [|? ? Hs Hf]. split; [exact Hs|]. rewrite Forall_forall in Hf. apply Forall_forall. intros x Hx. by apply Hf, list_elem_of_fmap_2. Qed.

Lemma in_order_middle a now event b : in_order (a ++ (now, event) :: b) -> Forall (fun x => fst x <= now) a.
Proof.
  induction a as [|[t ev] a IH]; [constructor|]. intros [Ho Hf]%in_order_cons. constructor; [|by apply IH].
  rewrite Forall_forall in Hf. apply (Hf (now, event)). apply elem_of_app. right. apply elem_of_cons. by left.
Qed.

Lemma in_order_prefix a b : in_order (a ++ b) -> in_order a.
Proof.
  unfold in_order. rewrite map_app. induction (map fst a) as [|t l IH]; [constructor|].
  cbn [app]. intros H. inversion H as [|? ? Hs Hf]. constructor; [by apply IH|]. by apply Forall_app in Hf as [? _].
Qed.

Section Runs.
Context (transport : bytes -> Result unit) (options : HeartbeatOptions) (control : Effect -> bool) (g : N).

Local Abbreviation step := (ws_step transport options control g).
Local Abbreviation run := (run_websocket_from transport options control g).

(** The task's states after the events, if the loop still runs. *)
Fixpoint after (sh : Shared) (st : SessionState) (hb : Heartbeat) (events : list (duration * WsEvent)) :
    option (Shared * SessionState * Heartbeat) :=
  match events with
  | [] => Some (sh, st, hb)
  | (now, event) :: events' =>
      match step sh st hb now event with
      | None => after sh st hb events'
      | Some (s, hb) => match st_result s with Some _ => None | None => after (st_shared s) (st_session s) hb events' end
      end
  end.

Lemma after_app a b : forall sh st hb,
  after sh st hb (a ++ b) = match after sh st hb a with Some (sh, st, hb) => after sh st hb b | None => None end.
Proof.
  induction a as [|[now event] a IH]; intros sh st hb; [done|]. cbn [app after].
  destruct (step sh st hb now event) as [[s hb']|]; [|apply IH]. by destruct (st_result s).
Qed.

Lemma run_ended events : forall sh st hb e, st_result (run sh st hb events e) = None <-> after sh st hb events <> None.
Proof.
  induction events as [|[now event] events IH]; intros sh st hb e; cbn [run_websocket_from after]; [done|].
  destruct (step sh st hb now event) as [[s hb']|]; [|apply IH]. destruct (st_result s); [done | apply IH].
Qed.

(** A run that ends has answered everyone. *)
Lemma ended_owns_nothing events : forall sh st hb e,
  st_result (run sh st hb events e) <> None -> owned (st_session (run sh st hb events e)) = [].
Proof.
  induction events as [|[now event] events IH]; intros sh st hb e; cbn [run_websocket_from]; [done|].
  destruct (step sh st hb now event) as [[s hb']|] eqn:Es; [|apply IH].
  destruct (st_result s) as [r|] eqn:Er; [|apply IH]. intros _. cbn [st_session].
  apply ws_step_settles in Es as [_ H]. apply H. by rewrite Er.
Qed.

(** A quiet event leaves the timer alone, unless it is the timer's. *)
Lemma quiet_keeps_timer sh st hb now event s hb' :
  quiet event = true -> event <> WsHeartbeat -> step sh st hb now event = Some (s, hb') -> hb' = hb.
Proof.
  destruct event as [[[r|id gen mt fl p r|id gen mt p r|r]|]|id|m|]; intros Hs Hn; try done.
  - by intros [= _ <-].
  - by intros [= _ <-].
  - by intros [= _ <-].
  - by intros [= _ <-].
  - cbn [ws_step]. destruct (handle_cancellation st id). by intros [= _ <-].
Qed.

(** The timer's branch. *)
Lemma heartbeat_step sh st hb now :
  heartbeat_enabled options = true ->
  step sh st hb now WsHeartbeat =
    if now <? deadline hb then None
    else if awaiting_pong hb || negb (control WritePing)
    then Some (disconnect sh st (if awaiting_pong hb then [] else [WritePing]), hb)
    else Some (stepped sh st [WritePing], {| awaiting_pong := true; deadline := now + heartbeat_timeout options |}).
Proof.
  intros He. cbn [ws_step]. rewrite He. cbn [negb orb]. destruct (now <? deadline hb); [done|].
  by destruct (awaiting_pong hb), (control WritePing).
Qed.

Lemma disconnect_result sh st e : st_result (disconnect sh st e) = Some SessionDisconnected.
Proof. unfold disconnect. by destruct (fail_all st). Qed.

(** ** A silent peer is noticed *)

Lemma awaited_pong_missing events : forall sh st hb t later,
  heartbeat_enabled options = true -> Forall (fun x => quiet (snd x) = true) events ->
  awaiting_pong hb = true -> deadline hb <= t ->
  after sh st hb (events ++ (t, WsHeartbeat) :: later) = None.
Proof.
  induction events as [|[now event] events IH]; intros sh st hb t later He Hs Ha Ht; cbn [app after].
  - rewrite heartbeat_step, Ha by done. destruct (N.ltb_spec t (deadline hb)); [lia|]. cbn [orb]. by rewrite disconnect_result.
  - apply Forall_cons in Hs as [H1 Hs]. cbn in H1. destruct (step sh st hb now event) as [[s hb']|] eqn:Es; [|by apply IH].
    destruct (st_result s) eqn:Er; [done|]. destruct event as [c|id|m|].
    1-3: apply (quiet_keeps_timer _ _ _ _ _ _ _ H1) in Es; [|done]; subst hb'; by apply IH.
    rewrite heartbeat_step, Ha in Es by done. destruct (now <? deadline hb); [done|]. cbn [orb] in Es.
    injection Es as <- _. by rewrite disconnect_result in Er.
Qed.

Lemma silence_noticed events : forall sh st hb t1 between t2 later,
  heartbeat_enabled options = true ->
  Forall (fun x => quiet (snd x) = true) events -> Forall (fun x => quiet (snd x) = true) between ->
  Forall (fun x => fst x <= t1) events ->
  awaiting_pong hb = false -> deadline hb <= t1 -> t1 + heartbeat_timeout options <= t2 ->
  after sh st hb (events ++ (t1, WsHeartbeat) :: between ++ (t2, WsHeartbeat) :: later) = None.
Proof.
  induction events as [|[now event] events IH]; intros sh st hb t1 between t2 later He Hs Hb Hle Ha Ht1 Ht2; cbn [app after].
  - rewrite heartbeat_step, Ha by done. destruct (N.ltb_spec t1 (deadline hb)); [lia|]. cbn [orb].
    destruct (control WritePing); cbn [negb]; [|by rewrite disconnect_result].
    cbn [stepped st_result st_shared st_session]. by apply awaited_pong_missing.
  - apply Forall_cons in Hs as [H1 Hs], Hle as [H2 Hle]. cbn in H1, H2.
    destruct (step sh st hb now event) as [[s hb']|] eqn:Es; [|by apply IH].
    destruct (st_result s) eqn:Er; [done|]. destruct event as [c|id|m|].
    1-3: apply (quiet_keeps_timer _ _ _ _ _ _ _ H1) in Es; [|done]; subst hb'; by apply IH.
    rewrite heartbeat_step, Ha in Es by done. destruct (now <? deadline hb); [done|]. cbn [orb] in Es.
    destruct (control WritePing); cbn [negb] in Es; injection Es as <- <-; [|by rewrite disconnect_result in Er].
    cbn [stepped st_shared st_session].
    rewrite (app_comm_cons between _ (t1, WsHeartbeat)), app_assoc. apply awaited_pong_missing; [done| |done|cbn; lia].
    apply Forall_app. split; [done|]. by constructor.
Qed.

(** The deadline is never further off than the longer of the two intervals. *)
Lemma deadline_bound events t : forall sh st hb sh' st' hb',
  after sh st hb events = Some (sh', st', hb') -> Forall (fun x => fst x <= t) events ->
  deadline hb <= t + N.max (idle_interval options) (heartbeat_timeout options) ->
  deadline hb' <= t + N.max (idle_interval options) (heartbeat_timeout options).
Proof.
  induction events as [|[now event] events IH]; intros sh st hb sh' st' hb'; cbn [after]; [by intros [= _ _ <-]|].
  intros Ha [Hn Ht]%Forall_cons Hd. cbn in Hn.
  destruct (step sh st hb now event) as [[s hb1]|] eqn:Es; [|by eapply IH].
  destruct (st_result s); [done|]. eapply IH; [exact Ha | exact Ht|].
  assert (Hr : forall b, deadline (reset_idle options b now) <= t + N.max (idle_interval options) (heartbeat_timeout options))
    by (intros b; unfold reset_idle; cbn [deadline]; lia).
  destruct event as [command|id|[[[frame|p|p|]|err]|]|]; cbn [ws_step] in Es.
  - destruct (handle_command _ _ _ _ _) as [s1 []]; injection Es as _ <-; done.
  - destruct (handle_cancellation st id). by injection Es as _ <-.
  - destruct (handle_frame _ _ _ _) as [s1 []]; injection Es as _ <-; done.
  - destruct (control _); injection Es as _ <-; done.
  - by injection Es as _ <-.
  - by injection Es as _ <-.
  - by injection Es as _ <-.
  - by injection Es as _ <-.
  - destruct (_ || _); [done|]. destruct (awaiting_pong hb); [by injection Es as _ <-|].
    destruct (negb _); injection Es as _ <-; [done|]. cbn [deadline]. lia.
Qed.

(** ** A Ping was left unanswered *)

(** A Ping that was written, and nothing since that shows the peer to be there. *)
Definition unanswered_ping (sh : Shared) (st : SessionState) (hb : Heartbeat) (events : list (duration * WsEvent))
    (ping : duration) : Prop :=
  exists before between sh' st' hb',
    events = before ++ (ping, WsHeartbeat) :: between
    /\ after sh st hb before = Some (sh', st', hb')
    /\ step sh' st' hb' ping WsHeartbeat
       = Some (stepped sh' st' [WritePing], {| awaiting_pong := true; deadline := ping + heartbeat_timeout options |})
    /\ Forall (fun x => sign_of_life (snd x) = false) between.

(** What a branch leaves of the timer. *)
Lemma timer_step sh st hb now event s hb' :
  step sh st hb now event = Some (s, hb') -> st_result s = None -> awaiting_pong hb' = true ->
  (sign_of_life event = false /\ awaiting_pong hb = true
     /\ (hb' = hb \/ deadline hb' = now + idle_interval options))
  \/ (event = WsHeartbeat /\ s = stepped sh st [WritePing]
      /\ hb' = {| awaiting_pong := true; deadline := now + heartbeat_timeout options |}).
Proof.
  destruct event as [command|id|[[[frame|p|p|]|err]|]|]; cbn [ws_step sign_of_life].
  - destruct (handle_command _ _ _ _ _) as [s0 []]; intros [= <- <-]; [done|]. intros _ Ha. left. split; [done|]. split; [done | by left].
  - destruct (handle_cancellation st id). intros [= <- <-] _ Ha. left. split; [done|]. split; [done | by left].
  - unfold handle_frame. destruct (decode_incoming sh frame) as [[[sh' e] records]|]; intros [= <- <-]; [done|].
    by rewrite disconnect_result.
  - destruct (control _); intros [= <- <-]; [|by rewrite disconnect_result]. intros _ Ha. left. split; [done|]. split; [done | by right].
  - by intros [= <- <-].
  - intros [= <- <-] _ Ha. left. split; [done|]. split; [done | by right].
  - intros [= <- <-]. by rewrite disconnect_result.
  - intros [= <- <-]. by rewrite disconnect_result.
  - destruct (_ || _); [done|]. destruct (awaiting_pong hb); [intros [= <- <-]; by rewrite disconnect_result|].
    destruct (negb _); intros [= <- <-]; [by rewrite disconnect_result|]. intros _ _. right. done.
Qed.

Lemma awaiting_means_unanswered sh st hb events :
  awaiting_pong hb = false -> in_order events ->
  forall sh' st' hb', after sh st hb events = Some (sh', st', hb') -> awaiting_pong hb' = true ->
  exists ping, unanswered_ping sh st hb events ping
    /\ ping + N.min (idle_interval options) (heartbeat_timeout options) <= deadline hb'.
Proof.
  intros H0. induction events as [|[now event] events IH] using rev_ind; intros Ho sh' st' hb'.
  { cbn. intros [= _ _ <-]. by rewrite H0. }
  pose proof (in_order_prefix _ _ Ho) as Ho'.
  pose proof (in_order_middle _ _ _ _ Ho) as Hle. rewrite after_app.
  destruct (after sh st hb events) as [[[sh1 st1] hb1]|] eqn:Ea; [|done]. cbn [after].
  assert (Hkeep : sign_of_life event = false -> awaiting_pong hb1 = true -> exists ping,
    unanswered_ping sh st hb (events ++ [(now, event)]) ping /\ ping <= now
    /\ ping + N.min (idle_interval options) (heartbeat_timeout options) <= deadline hb1).
  { intros Hl Ha. destruct (IH Ho' _ _ _ eq_refl Ha) as (ping & (b & m & sh2 & st2 & hb2 & -> & Hb & Hp & Hm) & Hd).
    exists ping. split; [|split; [|exact Hd]].
    - exists b, (m ++ [(now, event)]), sh2, st2, hb2. split; [by rewrite <- app_assoc|]. split; [done|]. split; [done|].
      apply Forall_app. split; [done | by constructor].
    - rewrite Forall_forall in Hle. apply (Hle (ping, WsHeartbeat)). apply elem_of_app. right. apply elem_of_cons. by left. }
  destruct (step sh1 st1 hb1 now event) as [[s hb2]|] eqn:Es.
  - destruct (st_result s) eqn:Er; [done|]. intros [= <- <- <-] Ha.
    destruct (timer_step _ _ _ _ _ _ _ Es Er Ha) as [(Hl & Ha1 & Hd)|(-> & -> & ->)].
    + destruct (Hkeep Hl Ha1) as (ping & Hu & Hp & Hd'). exists ping. split; [done|]. destruct Hd as [->| ->]; lia.
    + exists now. split; [|cbn [deadline]; lia]. exists events, [], sh1, st1, hb1. by split.
  - intros [= <- <- <-] Ha. destruct (Hkeep) as (ping & Hu & _ & Hd); [|done|by exists ping].
    destruct event as [command|id|[[[frame|p|p|]|err]|]|]; cbn [ws_step] in Es; try done.
    + by destruct (handle_frame _ _ _ _).
Qed.
End Runs.

(** C6: a peer that has gone silent is noticed, once this side stops making
    requests.  Whatever a WebSocket session with the heartbeat enabled did up to
    some time, if from then on nothing arrives and nothing is requested, the loop
    has ended - and every caller that waited has been answered - by the second
    poll of its timer that comes after the longer of the idle interval and the
    timeout and, from the first, the timeout; sends, cancellations and stray
    polls do not put it off.  Requests do ([requests_hide_silence]). *)
Theorem silent_peer_is_noticed transport options control sh start history last events t1 between t2 later :
  heartbeat_enabled options = true ->
  in_order (history ++ events ++ (t1, WsHeartbeat) :: between ++ (t2, WsHeartbeat) :: later) ->
  start <= last -> Forall (fun x => fst x <= last) history ->
  Forall (fun x => quiet (snd x) = true) (events ++ between) ->
  last + N.max (idle_interval options) (heartbeat_timeout options) <= t1 -> t1 + heartbeat_timeout options <= t2 ->
  let s := run_websocket transport options control sh start
             (history ++ events ++ (t1, WsHeartbeat) :: between ++ (t2, WsHeartbeat) :: later) in
  st_result s <> None /\ owned (st_session s) = [].
Proof.
  intros He Ho Hstart Hh [Hs Hb]%Forall_app H1 H2. cbn zeta. unfold run_websocket.
  assert (Hend : st_result (run_websocket_from transport options control (generation sh) sh SessionState_new
    (reset_idle options false start) (history ++ events ++ (t1, WsHeartbeat) :: between ++ (t2, WsHeartbeat) :: later) []) <> None).
  { rewrite run_ended, after_app.
    destruct (after _ _ _ _ _ _ _ history) as [[[sh1 st1] hb1]|] eqn:Ea; [|by intros []].
    apply (deadline_bound _ _ _ _ _ last) in Ea; [|done | unfold reset_idle; cbn [deadline]; lia].
    assert (Hle : Forall (fun x => fst x <= t1) events).
    { rewrite app_assoc in Ho. apply in_order_middle in Ho. by apply Forall_app in Ho as [_ Ho]. }
    destruct (awaiting_pong hb1) eqn:Eb.
    - rewrite awaited_pong_missing; try done; [by intros []|]. lia.
    - rewrite silence_noticed; try done; [by intros []|]. lia. }
  split; [exact Hend | by apply ended_owns_nothing].
Qed.

(** A request every nine seconds keeps a session up whose peer has said nothing
    since it started, although the timer is polled every second: no Ping is even
    sent. *)
Definition steady_requests : list (duration * WsEvent) :=
  concat (map (fun k =>
    map (fun i => (secs (N.of_nat (9 * k + i)), WsHeartbeat)) (seq 0 9)
    ++ [(secs (N.of_nat (9 * k + 8)), WsCommand (Some (Request (N.of_nat k + 1) 0 KV_PUT 0 (str "x") (N.of_nat k))))]) (seq 0 40)).
Example requests_hide_silence :
  let s := run_websocket accepts HeartbeatOptions_default (fun _ => true) (set_limits (N.shiftl 3 32) MAX_MESSAGE_SIZE 256 (Shared_new 8)) 0 steady_requests in
  st_result s = None /\ size (correlated (st_session s)) = 40%nat
  /\ forallb (fun e => match e with WritePing => false | _ => true end) (st_effects s) = true.
Proof. vm_compute. done. Qed.

(** C34: the heartbeat only gives up on a peer that left a Ping unanswered.  If
    the timer ends a WebSocket session whose transport takes Pings, a Ping was
    written at least the timeout before (or the idle interval, if that is
    shorter), and no Pong and no frame of the peer was read since. *)
Theorem heartbeat_spares_a_living_peer transport options control sh start events t :
  control WritePing = true -> in_order (events ++ [(t, WsHeartbeat)]) ->
  st_result (run_websocket transport options control sh start events) = None ->
  st_result (run_websocket transport options control sh start (events ++ [(t, WsHeartbeat)])) <> None ->
  exists ping,
    unanswered_ping transport options control (generation sh) sh SessionState_new (reset_idle options false start) events ping
    /\ ping + N.min (idle_interval options) (heartbeat_timeout options) <= t.
Proof.
  intros Hc Ho Hr He. unfold run_websocket in *.
  rewrite run_ended in Hr, He. rewrite after_app in He.
  destruct (after _ _ _ _ _ _ _ events) as [[[sh1 st1] hb1]|] eqn:Ea; [|done].
  assert (Hd : awaiting_pong hb1 = true /\ deadline hb1 <= t).
  { cbn [after ws_step] in He. destruct (negb (heartbeat_enabled options)); cbn [orb] in He; [by destruct He|].
    destruct (N.ltb_spec t (deadline hb1)); [by destruct He|]. split; [|lia].
    destruct (awaiting_pong hb1); [done|]. rewrite Hc in He. by destruct He. }
  destruct Hd as [Ha Hd].
  pose proof (in_order_prefix _ _ Ho) as Ho'.
  destruct (awaiting_means_unanswered transport options control (generation sh) sh SessionState_new
    (reset_idle options false start) events eq_refl Ho' _ _ _ Ea Ha) as (ping & Hu & Hp).
  exists ping. split; [exact Hu | lia].
Qed.

(** A request before the silence, and a poll before its time. *)
Definition sample_silence : list (duration * WsEvent) :=
  [(secs 1, WsCommand (Some (Send 1 0 KV_PUT (str "x") 7))); (secs 2, WsHeartbeat)].

Lemma silent_peer_is_noticed_witness :
  let events := [(secs 1, WsCommand (Some (Request 1 0 KV_GET 0 (str "k") 5)))] ++ sample_silence ++ (secs 60, WsHeartbeat) :: [(secs 61, WsCancel 9)] ++ (secs 120, WsHeartbeat) :: [] in
  st_result (run_websocket accepts HeartbeatOptions_default (fun _ => true) sample_shared 0 events) <> None
  /\ owned (st_session (run_websocket accepts HeartbeatOptions_default (fun _ => true) sample_shared 0 events)) = [].
Proof.
  cbn zeta. apply (silent_peer_is_noticed accepts HeartbeatOptions_default (fun _ => true) sample_shared 0
    [(secs 1, WsCommand (Some (Request 1 0 KV_GET 0 (str "k") 5)))] (secs 1) sample_silence (secs 60) [(secs 61, WsCancel 9)] (secs 120) []).
  - reflexivity.
  - repeat constructor; vm_compute; discriminate.
  - vm_compute; discriminate.
  - repeat constructor; vm_compute; discriminate.
  - by repeat constructor.
  - vm_compute; discriminate.
  - vm_compute; discriminate.
Defined.

Definition pinged_once : list (duration * WsEvent) := [(secs 60, WsHeartbeat)].

Lemma heartbeat_spares_a_living_peer_witness :
  st_result (run_websocket accepts HeartbeatOptions_default (fun _ => true) sample_shared 0 (pinged_once ++ [(secs 120, WsHeartbeat)])) <> None
  /\ exists ping, ping + N.min (idle_interval HeartbeatOptions_default) (heartbeat_timeout HeartbeatOptions_default) <= secs 120
       /\ unanswered_ping accepts HeartbeatOptions_default (fun _ => true) (generation sample_shared) sample_shared SessionState_new
            (reset_idle HeartbeatOptions_default false 0) pinged_once ping.
Proof.
  assert (He : st_result (run_websocket accepts HeartbeatOptions_default (fun _ => true) sample_shared 0 (pinged_once ++ [(secs 120, WsHeartbeat)])) <> None)
    by (vm_compute; discriminate).
  split; [exact He|].
  destruct (heartbeat_spares_a_living_peer accepts HeartbeatOptions_default (fun _ => true) sample_shared 0 pinged_once (secs 120))
    as (ping & Hu & Hp); [reflexivity | repeat constructor; vm_compute; discriminate | vm_compute; reflexivity | exact He |].
  exists ping. by split.
Defined.
