(* ===== verification/Conn.v ===== *)
(** * Conn

    The awaiting side of [src/src/async_connection.rs]: what a domain client
    calls on its connection handle.

    [BrokerLink] is the interface the domain clients are written and proved
    against: the operations of [AsyncConnection], the commands they submit
    ([sent_by]), and [LinkLaws], which says what every submission is.  The
    section [Handle] implements it: a [World] is the shared state together with
    a script of what each submission meets (a full queue, a reply, a timeout, a
    dropped responder) and of what the other tasks do to the shared state while
    the caller waits.  [World_link_laws] discharges the interface. *)

From S2P Require Import Prelude Errors Codec Shared.

(** ** Effectful operations: a state monad that keeps its state on an error *)

Definition IO (W A : Type) : Type := W -> Result A * W.

#[export] Instance IO_mret W : MRet (IO W) := fun A a w => (Ok a, w).
#[export] Instance IO_mbind W : MBind (IO W) := fun A B f m w =>
  match m w with
  | (Ok a, w') => f a w'
  | (Err e, w') => (Err e, w')
  end.

Definition io_err {W A : Type} (e : FitzError) : IO W A := fun w => (Err e, w).
(** [result?]. *)
Definition io_lift {W A : Type} (r : Result A) : IO W A := fun w => (r, w).
Definition io_get {W A : Type} (f : W -> A) : IO W A := fun w => (Ok (f w), w).
(** A call whose error is a value: [match call.await { .. }]. *)
Definition io_try {W A : Type} (m : IO W A) : IO W (Result A) := fun w =>
  let '(r, w') := m w in (Ok r, w').

(** The state a client keeps besides its connection, as the second component. *)
Definition on_link {W S A : Type} (m : IO W A) : IO (W * S) A := fun '(w, s) =>
  let '(r, w') := m w in (r, (w', s)).
Definition on_state {W S A : Type} (m : S -> Result A * S) : IO (W * S) A := fun '(w, s) =>
  let '(r, s') := m s in (r, (w, s')).

(** ** The interface *)

(** A command as submitted: [Request] (or [Send], when [sent_request] is
    false), under the generation it was stamped with. *)
Record Sent : Set := {
  sent_request : bool;
  sent_generation : N;
  sent_type : N;
  sent_flags : N;
  sent_payload : bytes;
}.

Class BrokerLink (W : Type) : Type := {
  generation_of : W -> N;
  (** The generation the next command is stamped with.  A caller's own look at
      [generation_of] is an earlier load of the counter: between the two another
      thread may move it, unless the link is [undisturbed]. *)
  stamp_of : W -> N;
  undisturbed : W -> Prop;
  capability : W -> N -> Result unit;
  request_with_flags : N -> bytes -> N -> IO W bytes;
  request_replayable_in_generation : N -> bytes -> option N -> IO W bytes;
  request_confirmed_negative_with_flags : N -> bytes -> N -> (bytes -> bool) -> IO W bytes;
  send : N -> bytes -> IO W unit;
  register : Registration -> N -> W -> RestorableRegistration * W;
  deregister : RestorableRegistration -> W -> RestorableRegistration * W;
  wire_id_of : RestorableRegistration -> W -> N;
  sent_by : W -> list Sent;
  (** how often the retry policy submits a command at most *)
  attempts : W -> N;
}.

(** [request] and [request_replayable]. *)
Definition request {W} `{BrokerLink W} (mt : N) (payload : bytes) : IO W bytes :=
  request_with_flags mt payload 0.
Definition request_replayable {W} `{BrokerLink W} (mt : N) (payload : bytes) : IO W bytes :=
  request_replayable_in_generation mt payload None.

(** [register] and [deregister] never fail. *)
Definition io_register {W} `{BrokerLink W} (r : Registration) (wire_id : N) : IO W RestorableRegistration :=
  fun w => let '(reg, w') := register r wire_id w in (Ok reg, w').
Definition io_deregister {W} `{BrokerLink W} (reg : RestorableRegistration) : IO W RestorableRegistration :=
  fun w => let '(reg', w') := deregister reg w in (Ok reg', w').

(** [w'] submitted, after [w], only commands [P] admits, [n] of them at most. *)
Definition submits {W} `{BrokerLink W} (P : Sent -> Prop) (n : N) (w w' : W) : Prop :=
  exists ss, sent_by w' = sent_by w ++ ss /\ Forall P ss /\ blen ss <= n.

Definition is_command (request : bool) (mt fl : N) (payload : bytes) (s : Sent) : Prop :=
  sent_request s = request /\ sent_type s = mt /\ sent_flags s = fl /\ sent_payload s = payload.

Class LinkLaws (W : Type) `{BrokerLink W} : Prop := {
  stamp_law w : undisturbed w -> stamp_of w = generation_of w;
  (** A request is submitted at most once, with its stamp; an answer means it was
      submitted. *)
  request_law mt p fl w r w' :
    request_with_flags mt p fl w = (r, w') ->
    submits (fun s => is_command true mt fl p s /\ sent_generation s = stamp_of w) 1 w w'
    /\ (is_ok r = true -> sent_by w' <> sent_by w);
  (** A replayable request is submitted [attempts] times at most, each time the same
      command; not at all under another generation than the expected one, and
      stamped with that one as long as nothing moves it in between. *)
  replay_law mt p expected w r w' :
    request_replayable_in_generation mt p expected w = (r, w') ->
    submits (fun s => is_command true mt 0 p s
                      /\ (undisturbed w -> forall g, expected = Some g -> sent_generation s = g)) (attempts w) w w'
    /\ (is_ok r = true -> sent_by w' <> sent_by w)
    /\ (forall g, expected = Some g -> generation_of w <> g -> r = Err StaleHandle /\ w' = w);
  confirmed_law mt p fl f w r w' :
    request_confirmed_negative_with_flags mt p fl f w = (r, w') ->
    submits (is_command true mt fl p) (attempts w) w w' /\ (is_ok r = true -> sent_by w' <> sent_by w);
  send_law mt p w r w' :
    send mt p w = (r, w') ->
    submits (fun s => is_command false mt 0 p s /\ sent_generation s = stamp_of w) 1 w w';
  (** Registrations submit nothing; a fresh one reads back its wire id. *)
  register_law r id w reg w' :
    register r id w = (reg, w') ->
    sent_by w' = sent_by w /\ wire_id_of reg w' = id /\ registered reg = true
    /\ generation_of w' = generation_of w;
  deregister_law reg reg' w w' :
    deregister reg w = (reg', w') ->
    sent_by w' = sent_by w /\ registered reg' = false /\ generation_of w' = generation_of w;
}.

(** ** The handle *)

(** What a submission meets. *)
Inductive Submission : Set := Accepted | QueueFull | QueueClosed.
(** What the awaited responder yields. *)
Inductive Reply (A : Type) : Type :=
| Replied (result : Result A)
| TimedOut
| SenderDropped.
Arguments Replied {A} result.
Arguments TimedOut {A}.
Arguments SenderDropped {A}.

(** [x_before_stamp]: what other threads do to the shared state after the caller
    has drawn its id and before the generation is loaded for the stamp;
    [x_during]: what other tasks do to the shared state between the submission
    and the caller's next step, the reply's own arrival included; [x_nap]: what
    they do during the sleep that follows a failed attempt. *)
Record Exchange : Type := {
  x_submission : Submission;
  x_before_stamp : Shared -> Shared;
  x_during : Shared -> Shared;
  x_reply : Reply bytes;
  x_send_reply : Reply unit;
  x_nap : Shared -> Shared;
}.

(** An exhausted script: accepted, and never answered. *)
Definition silent : Exchange :=
  {| x_submission := Accepted; x_before_stamp := fun s => s; x_during := fun s => s; x_reply := TimedOut; x_send_reply := TimedOut;
     x_nap := fun s => s |}.

(** Accepted, and answered. *)
Definition replying (r : Result bytes) : Exchange :=
  {| x_submission := Accepted; x_before_stamp := fun s => s; x_during := fun s => s; x_reply := Replied r;
     x_send_reply := match r with Ok _ => Replied (Ok tt) | Err e => Replied (Err e) end;
     x_nap := fun s => s |}.

Record World : Type := {
  shared : Shared;
  policy : RetryPolicy;
  script : list Exchange;
  log : list Sent;
  (** what each of them was answered *)
  answered : list (Reply bytes);
  cancellations : list N;
  slept : list duration;
  (** what happens during the sleep after the last exchange *)
  nap : Shared -> Shared;
}.

Definition set_shared (s : Shared) (w : World) : World :=
  {| shared := s; policy := policy w; script := script w; log := log w; answered := answered w;
     cancellations := cancellations w; slept := slept w; nap := nap w |}.

(** Takes the next exchange and submits [s] under it. *)
Definition submit (s : Sent) (w : World) : Exchange * World :=
  let x := hd silent (script w) in
  (x, {| shared := shared w; policy := policy w; script := tl (script w);
         log := match x_submission x with Accepted => log w ++ [s] | _ => log w end;
         answered := match x_submission x with Accepted => answered w ++ [x_reply x] | _ => answered w end;
         cancellations := cancellations w; slept := slept w; nap := x_nap x |}).

(** What happens to the state before the next command is stamped. *)
Definition before_stamp (w : World) : World := set_shared (x_before_stamp (hd silent (script w)) (shared w)) w.

Definition await (x : Exchange) (w : World) : World := set_shared (x_during x (shared w)) w.

(** The drop of an armed [CancellationGuard]. *)
Definition cancel (id : N) (w : World) : World :=
  {| shared := shared w; policy := policy w; script := script w; log := log w; answered := answered w;
     cancellations := cancellations w ++ [id]; slept := slept w; nap := nap w |}.

Definition sleep (d : duration) (w : World) : World :=
  {| shared := nap w (shared w); policy := policy w; script := script w; log := log w; answered := answered w;
     cancellations := cancellations w; slept := slept w ++ [d]; nap := fun s => s |}.

Definition queue_full : FitzError := Backpressure (str "outbound request queue is full").

Definition h_request (mt : N) (payload : bytes) (fl : N) : IO World bytes := fun w =>
  let '(id, sequence) := allocate_request_id (next_request_id (shared w)) in
  let w := set_shared (set_next_request_id sequence (shared w)) w in
  match id with
  | Err e => (Err e, w)
  | Ok id =>
      let w := before_stamp w in
      let '(x, w) := submit {| sent_request := true; sent_generation := generation (shared w);
                               sent_type := mt; sent_flags := fl; sent_payload := payload |} w in
      match x_submission x with
      | QueueFull => (Err queue_full, w)
      | QueueClosed => (Err Closed, w)
      | Accepted =>
          let w := await x w in
          match x_reply x with
          | TimedOut => (Err Timeout, cancel id w)
          | SenderDropped => (Err ConnectionClosed, cancel id w)
          | Replied result => (result, w)
          end
      end
  end.

Definition stale (expected : option N) (w : World) : bool :=
  match expected with Some g => negb (generation (shared w) =? g) | None => false end.

(** [if self.retry.enabled { maximum_attempts.max(1) } else { 1 }]. *)
Definition attempts_of (p : RetryPolicy) : N :=
  if retry_enabled p then N.max (maximum_attempts p) 1 else 1.

Definition next_delay (p : RetryPolicy) (d : duration) : duration :=
  N.min (duration_saturating_mul d 2) (maximum_delay p).

(** [for attempt in 1..=attempts], [left] attempts from the end. *)
Fixpoint replay_loop (left : nat) (mt : N) (payload : bytes) (expected : option N) (delay : duration) :
    IO World bytes := fun w =>
  match left with
  | O => (Err ConnectionClosed, w)
  | S left' =>
      if stale expected w then (Err StaleHandle, w)
      else
        match h_request mt payload 0 w with
        | (Ok response, w) => (Ok response, w)
        | (Err error, w) =>
            if Nat.eqb left' 0 || negb (is_retryable error) then (Err error, w)
            else if stale expected w then (Err StaleHandle, w)
            else replay_loop left' mt payload expected (next_delay (policy w) delay) (sleep delay w)
        end
  end.

Definition h_replayable (mt : N) (payload : bytes) (expected : option N) : IO World bytes := fun w =>
  replay_loop (N.to_nat (attempts_of (policy w))) mt payload expected (base_delay (policy w)) w.

Fixpoint confirmed_loop (left : nat) (mt : N) (payload : bytes) (fl : N) (rejection : bytes -> bool)
    (delay : duration) : IO World bytes := fun w =>
  match left with
  | O => (Err ConnectionClosed, w)
  | S left' =>
      match h_request mt payload fl w with
      | (Err error, w) => (Err error, w)
      | (Ok response, w) =>
          if Nat.eqb left' 0 || negb (rejection response) then (Ok response, w)
          else confirmed_loop left' mt payload fl rejection (next_delay (policy w) delay) (sleep delay w)
      end
  end.

Definition h_confirmed (mt : N) (payload : bytes) (fl : N) (rejection : bytes -> bool) :
    IO World bytes := fun w =>
  confirmed_loop (N.to_nat (attempts_of (policy w))) mt payload fl rejection (base_delay (policy w)) w.

(** [send]: no cancellation guard. *)
Definition h_send (mt : N) (payload : bytes) : IO World unit := fun w =>
  let '(id, sequence) := allocate_request_id (next_request_id (shared w)) in
  let w := set_shared (set_next_request_id sequence (shared w)) w in
  match id with
  | Err e => (Err e, w)
  | Ok _ =>
      let w := before_stamp w in
      let '(x, w) := submit {| sent_request := false; sent_generation := generation (shared w);
                               sent_type := mt; sent_flags := 0; sent_payload := payload |} w in
      match x_submission x with
      | QueueFull => (Err queue_full, w)
      | QueueClosed => (Err Closed, w)
      | Accepted =>
          let w := await x w in
          match x_send_reply x with
          | TimedOut => (Err Timeout, w)
          | SenderDropped => (Err ConnectionClosed, w)
          | Replied result => (result, w)
          end
      end
  end.

(** [connect]: the send and the answer are two awaits. *)
Definition h_connect (accepted : Submission) (timed_out : bool) (reply : Reply unit) (w : World) :
    Result unit :=
  if close_requested (shared w) then Err Closed
  else if timed_out then Err Timeout
  else match accepted with
       | Accepted =>
           match reply with
           | TimedOut => Err Timeout
           | SenderDropped => Err Closed
           | Replied result => result
           end
       | _ => Err Closed
       end.

(** [close]: the flag is swapped before anything else, so only the first call
    bumps the generation and submits [Command::Close]. *)
Definition h_close (w : World) : bool * World :=
  if close_requested (shared w) then (false, w)
  else
    (true, set_shared (set_generation (wrapping_add 64 (generation (shared w)) 1)
                         (set_close_requested (shared w))) w).

(** A new connection on which [rs] are the broker's answers. *)
Definition answering (rs : list (Result bytes)) : World :=
  {| shared := Shared_new 8; policy := RetryPolicy_default; script := map replying rs; log := [];
     answered := []; cancellations := []; slept := []; nap := fun s => s |}.

(** The id is drawn, then the stamp is loaded. *)
Definition draw (w : World) : World :=
  set_shared (set_next_request_id (allocate_request_id (next_request_id (shared w))).2 (shared w)) w.
Definition next_stamp (w : World) : N := generation (shared (before_stamp (draw w))).

#[export] Instance World_link : BrokerLink World := {|
  generation_of := fun w => generation (shared w);
  stamp_of := next_stamp;
  undisturbed := fun w => Forall (fun x => forall s, generation (x_before_stamp x s) = generation s) (script w);
  capability := fun w id => require_capability (shared w) id;
  request_with_flags := h_request;
  request_replayable_in_generation := h_replayable;
  request_confirmed_negative_with_flags := h_confirmed;
  send := h_send;
  register := fun r id w =>
    let '(k, s) := register_restorable r id (shared w) in
    ({| key := k; registered := true |}, set_shared s w);
  deregister := fun reg w => let '(reg', s) := deactivate reg (shared w) in (reg', set_shared s w);
  wire_id_of := fun reg w => wire_id reg (shared w);
  sent_by := log;
  attempts := fun w => attempts_of (policy w);
|}.

(** ** Facts of the interface *)

Section Laws.
Context {W : Type} `{BrokerLink W}.

Lemma submits_refl P n (w : W) : submits P n w w.
Proof. exists []. rewrite app_nil_r. split; [done|]. split; [constructor | apply N.le_0_l]. Qed.

Lemma submits_same P n (w w' : W) : sent_by w' = sent_by w -> submits P n w w'.
Proof. intros E. exists []. rewrite app_nil_r. split; [done|]. split; [constructor | apply N.le_0_l]. Qed.

Lemma submits_trans P n m (w w1 w2 : W) : submits P n w w1 -> submits P m w1 w2 -> submits P (n + m) w w2.
Proof.
  intros (a & Ha & Pa & La) (b & Hb & Pb & Lb). exists (a ++ b). rewrite Hb, Ha, app_assoc, blen_app, Forall_app.
  split; [done|]. split; [done | lia].
Qed.

Lemma submits_weaken (P Q : Sent -> Prop) n m (w w' : W) :
  submits P n w w' -> (forall s, P s -> Q s) -> n <= m -> submits Q m w w'.
Proof.
  intros (a & Ha & Pa & La) HPQ Hn. exists a. split; [done|].
  split; [by eapply Forall_impl | lia].
Qed.
End Laws.

(** Calls of clients: a guard, one command, and a pure continuation. *)
Section Calls.
Context {W : Type} `{LinkLaws W}.

Lemma io_bind_inv {A B} (m : IO W A) (f : A -> IO W B) w r w' :
  (x <- m;; f x) w = (r, w') ->
  (exists a w1, m w = (Ok a, w1) /\ f a w1 = (r, w')) \/ (exists e, m w = (Err e, w') /\ r = Err e).
Proof.
  unfold mbind, IO_mbind. destruct (m w) as [[a|e] w1].
  - left. eauto.
  - intros [= <- <-]. right. eauto.
Qed.

(** A result computed from the response alone. *)
Lemma call_then {A} (P : Sent -> Prop) n (m : IO W bytes) (f : bytes -> Result A) w r w' :
  (forall r1 w1, m w = (r1, w1) -> submits P n w w1 /\ (is_ok r1 = true -> sent_by w1 <> sent_by w)) ->
  (response <- m;; io_lift (f response)) w = (r, w') ->
  submits P n w w' /\ (is_ok r = true -> sent_by w' <> sent_by w).
Proof.
  intros Hm E. apply io_bind_inv in E as [(response & w1 & E & [= <- <-])|(e & E & ->)];
    apply Hm in E as [? ?]; by eauto.
Qed.

Lemma request_then {A} mt p fl (f : bytes -> Result A) w r w' :
  (response <- request_with_flags mt p fl;; io_lift (f response)) w = (r, w') ->
  submits (fun s => is_command true mt fl p s /\ sent_generation s = stamp_of w) 1 w w'
  /\ (is_ok r = true -> sent_by w' <> sent_by w).
Proof. apply call_then. intros. by eapply request_law. Qed.

Lemma replay_then {A} mt p g (f : bytes -> Result A) w r w' :
  (response <- request_replayable_in_generation mt p (Some g);; io_lift (f response)) w = (r, w') ->
  submits (fun s => is_command true mt 0 p s /\ (undisturbed w -> sent_generation s = g)) (attempts w) w w'
  /\ (is_ok r = true -> sent_by w' <> sent_by w).
Proof.
  apply call_then. intros r1 w1 E. apply replay_law in E as (Hs & Hok & _). split; [|done].
  eapply submits_weaken; [exact Hs | intros s [? Hg]; split; [done | intros Hu; by apply Hg] | done].
Qed.
End Calls.

(** ** The handle satisfies the interface *)

Section Handle.
Local Abbreviation G w := (generation (shared w)).
Local Abbreviation calm w := (undisturbed (W := World) w).

Definition entry_at (g mt fl : N) (payload : bytes) : Sent :=
  {| sent_request := true; sent_generation := g; sent_type := mt; sent_flags := fl; sent_payload := payload |}.
Definition request_entry (w : World) (mt fl : N) (payload : bytes) : Sent := entry_at (next_stamp w) mt fl payload.

(** One request: its log, and the generation it was stamped with. *)
Lemma h_request_spec mt p fl w r w' :
  h_request mt p fl w = (r, w') ->
  policy w' = policy w /\ (calm w -> calm w')
  /\ (log w' = log w /\ is_ok r = false \/ log w' = log w ++ [request_entry w mt fl p]).
Proof.
  assert (Ht : calm w -> Forall (fun x => forall s, generation (x_before_stamp x s) = generation s) (tl (script w))).
  { cbn. by destruct 1. }
  unfold h_request, request_entry, entry_at, next_stamp, draw.
  destruct (allocate_request_id _) as [[id|e] sequence]; [|by intros [= <- <-]; auto].
  unfold submit, before_stamp. cbn [script set_shared]. set (x := hd silent (script w)).
  destruct (x_submission x) eqn:Ex; [|intros [= <- <-]; split; [done|]; split; [exact Ht | by left]..].
  destruct (x_reply x); intros [= <- <-]; (split; [done|]); (split; [exact Ht | by right]).
Qed.

(** An undisturbed stamp is what the caller saw. *)
Lemma calm_stamp w : calm w -> next_stamp w = G w.
Proof.
  cbn. intros H. unfold next_stamp, before_stamp, draw. cbn [shared script set_shared].
  destruct H as [|x xs H _]; [done|]. cbn. by rewrite H.
Qed.

Lemma entry_is_command w mt fl p : is_command true mt fl p (request_entry w mt fl p).
Proof. done. Qed.

Lemma stale_false expected w : stale expected w = false -> forall g, expected = Some g -> g = G w.
Proof. intros H g ->. by apply negb_false_iff, N.eqb_eq in H. Qed.

Lemma replay_loop_spec mt p expected left : forall delay w r w',
  replay_loop left mt p expected delay w = (r, w') ->
  policy w' = policy w
  /\ submits (fun s => is_command true mt 0 p s
                       /\ (calm w -> forall g, expected = Some g -> sent_generation s = g)) (N.of_nat left) w w'
  /\ (is_ok r = true -> log w' <> log w).
Proof.
  induction left as [|left IH]; intros delay w r w'; cbn [replay_loop].
  - intros [= <- <-]. split; [done|]. split; [apply submits_refl | done].
  - destruct (stale expected w) eqn:Es; [intros [= <- <-]; split; [done|]; split; [apply submits_refl | done]|].
    destruct (h_request mt p 0 w) as [[response|error] w1] eqn:Er;
      apply h_request_spec in Er as (Hp & Hc & Hlog).
    all: assert (H1 : submits (fun s => is_command true mt 0 p s
                       /\ (calm w -> forall g, expected = Some g -> sent_generation s = g)) 1 w w1)
      by (destruct Hlog as [[Hlog _]|Hlog];
          [by apply submits_same
          | eexists; split; [exact Hlog|]; split; [|done]; apply Forall_singleton; split;
            [apply entry_is_command | intros Hu g Hg; cbn; rewrite calm_stamp by exact Hu; symmetry; exact (stale_false expected w Es g Hg)]]).
    + intros [= <- <-]. split; [done|]. split; [eapply submits_weaken; [exact H1 | done | lia]|].
      intros _ Heq. destruct Hlog as [[_ ?]|Hlog]; [done|]. rewrite Hlog in Heq.
      apply (f_equal length) in Heq. rewrite length_app in Heq. cbn in Heq. lia.
    + assert (Hend : forall e, (Err e, w1) = (r, w') ->
        policy w' = policy w /\ submits (fun s => is_command true mt 0 p s
                       /\ (calm w -> forall g, expected = Some g -> sent_generation s = g)) (N.of_nat (S left)) w w'
        /\ (is_ok r = true -> log w' <> log w)).
      { intros e [= <- <-]. split; [done|]. split; [eapply submits_weaken; [exact H1 | done | lia] | done]. }
      destruct (Nat.eqb left 0 || negb (is_retryable error)); [by apply Hend|].
      destruct (stale expected w1); [by apply Hend|].
      intros Hrec. apply IH in Hrec as (Hp' & Hs & Hok).
      split; [by rewrite Hp'|]. split.
      * replace (N.of_nat (S left)) with (1 + N.of_nat left) by lia. eapply submits_trans; [exact H1|].
        eapply submits_weaken; [exact Hs | | done]. intros s [? Hg]. split; [done|]. intros Hu. apply Hg. by apply Hc.
      * intros Hr Heq. destruct Hs as (ss & Hss & _). cbn in Hss. apply (Hok Hr). cbn. rewrite Hss.
        destruct Hlog as [[Hlog _]|Hlog]; [congruence|].
        exfalso. rewrite Hss, Hlog in Heq. apply (f_equal length) in Heq. rewrite !length_app in Heq.
        cbn in Heq. lia.
Qed.

(** The first check refuses a stale caller. *)
Lemma replay_stale mt p g w r w' :
  h_replayable mt p (Some g) w = (r, w') -> G w <> g -> r = Err StaleHandle /\ w' = w.
Proof.
  unfold h_replayable. intros E Hg.
  assert (Ha : exists n, N.to_nat (attempts_of (policy w)) = S n).
  { exists (pred (N.to_nat (attempts_of (policy w)))). unfold attempts_of. destruct (retry_enabled _); lia. }
  destruct Ha as (n & Ha). rewrite Ha in E. cbn [replay_loop stale] in E.
  rewrite (proj2 (N.eqb_neq _ _) Hg) in E. by injection E as <- <-.
Qed.

Lemma confirmed_loop_spec mt p fl f left : forall delay w r w',
  confirmed_loop left mt p fl f delay w = (r, w') ->
  policy w' = policy w /\ submits (is_command true mt fl p) (N.of_nat left) w w'
  /\ (is_ok r = true -> log w' <> log w).
Proof.
  induction left as [|left IH]; intros delay w r w'; cbn [confirmed_loop].
  - intros [= <- <-]. split; [done|]. split; [apply submits_refl | done].
  - destruct (h_request mt p fl w) as [[response|error] w1] eqn:Er;
      apply h_request_spec in Er as (Hp & _ & Hlog).
    all: assert (H1 : submits (is_command true mt fl p) 1 w w1)
      by (destruct Hlog as [[Hlog _]|Hlog];
          [by apply submits_same
          | eexists; split; [exact Hlog|]; split; [|done]; by apply Forall_singleton]).
    + destruct Hlog as [[_ ?]|Hlog]; [done|].
      destruct (Nat.eqb left 0 || negb (f response)).
      * intros [= <- <-]. split; [done|]. split; [eapply submits_weaken; [exact H1 | done | lia]|].
        intros _ Heq. rewrite Hlog in Heq. apply (f_equal length) in Heq. rewrite length_app in Heq.
        cbn in Heq. lia.
      * intros Hrec. apply IH in Hrec as (Hp' & Hs & _). split; [by rewrite Hp'|]. split.
        -- replace (N.of_nat (S left)) with (1 + N.of_nat left) by lia.
           eapply submits_trans; [exact H1 | exact Hs].
        -- intros _ Heq. destruct Hs as (ss & Hss & _). cbn in Hss. rewrite Hss, Hlog in Heq.
           apply (f_equal length) in Heq. rewrite !length_app in Heq. cbn in Heq. lia.
    + intros [= <- <-]. split; [done|]. split; [eapply submits_weaken; [exact H1 | done | lia] | done].
Qed.
End Handle.

#[export] Instance World_link_laws : LinkLaws World.
Proof.
  split.
  - exact calm_stamp.
  - intros mt p fl w r w' E. cbn in E. apply h_request_spec in E as (_ & _ & [[E Hr]|E]).
    + split; [by apply submits_same | by rewrite Hr].
    + split.
      * eexists. split; [exact E|]. split; [by apply Forall_singleton | done].
      * intros _ Heq. cbn in Heq. rewrite E in Heq. apply (f_equal length) in Heq.
        rewrite length_app in Heq. cbn in Heq. lia.
  - intros mt p expected w r w' E. cbn in E. split; [|split].
    1,2: apply replay_loop_spec in E as (_ & Hs & Hok); rewrite N2Nat.id in Hs; done.
    intros g -> Hg. eapply replay_stale; [exact E | done].
  - intros mt p fl f w r w' E. cbn in E. apply confirmed_loop_spec in E as (_ & Hs & Hok).
    rewrite N2Nat.id in Hs. done.
  - intros mt p w r w'. cbn. unfold h_send, next_stamp, draw.
    destruct (allocate_request_id _) as [[id|e] sequence]; [|by intros [= <- <-]; apply submits_same].
    unfold submit, before_stamp. cbn [script set_shared]. set (x := hd silent (script w)).
    destruct (x_submission x) eqn:Ex; try (by intros [= <- <-]; apply submits_same).
    destruct (x_send_reply x); intros [= <- <-]; eexists; (split; [reflexivity|]);
      (split; [by apply Forall_singleton | done]).
  - intros r id w reg w'. cbn. intros [= <- <-]. split; [done|]. split; [|done].
    unfold wire_id. cbn. by rewrite lookup_insert_eq.
  - intros reg reg' w w'. cbn. unfold deactivate. destruct (registered reg) eqn:E; intros [= <- <-]; done.
Qed.

(** ** Retry budget *)

(** The first [k] delays from [d]: doubled each time, capped. *)
Fixpoint backoffs (p : RetryPolicy) (k : nat) (d : duration) : list duration :=
  match k with O => [] | S k' => d :: backoffs p k' (next_delay p d) end.

Lemma h_request_slept mt p fl w r w' : h_request mt p fl w = (r, w') -> slept w' = slept w.
Proof.
  unfold h_request. destruct (allocate_request_id _) as [[id|e] sequence]; [|by intros [= <- <-]].
  unfold submit, before_stamp. cbn [script set_shared]. set (x := hd silent (script w)). destruct (x_submission x); [|by intros [= <- <-]..].
  by destruct (x_reply x); intros [= <- <-].
Qed.

Lemma replay_loop_slept mt p expected left : forall delay w r w',
  replay_loop left mt p expected delay w = (r, w') ->
  exists k, (k <= pred left)%nat /\ slept w' = slept w ++ backoffs (policy w) k delay
    /\ exists ss, log w' = log w ++ ss /\ (length ss <= S k)%nat.
Proof.
  induction left as [|left IH]; intros delay w r w'; cbn [replay_loop].
  - intros [= <- <-]. exists 0%nat. rewrite !app_nil_r. split; [lia|]. split; [done|].
    exists []. rewrite app_nil_r. split; [done | cbn; lia].
  - assert (Hstop : forall e w1, policy w1 = policy w /\ slept w1 = slept w /\
        (exists ss, log w1 = log w ++ ss /\ (length ss <= 1)%nat) -> (e, w1) = (r, w') ->
      exists k, (k <= left)%nat /\ slept w' = slept w ++ backoffs (policy w) k delay
        /\ exists ss, log w' = log w ++ ss /\ (length ss <= S k)%nat).
    { intros e w1 (_ & Hs & Hl) [= <- <-]. exists 0%nat. rewrite app_nil_r. split; [lia | done]. }
    cbn [pred]. destruct (stale expected w).
    { apply Hstop. split; [done|]. split; [done|]. exists []. rewrite app_nil_r. split; [done | cbn; lia]. }
    destruct (h_request mt p 0 w) as [r1 w1] eqn:Er.
    pose proof (h_request_slept _ _ _ _ _ _ Er) as Hslept. apply h_request_spec in Er as (Hp & _ & Hlog).
    assert (Hl : exists ss, log w1 = log w ++ ss /\ (length ss <= 1)%nat).
    { destruct Hlog as [[Hl _]|Hl]; [exists []; rewrite app_nil_r | eexists]; (split; [exact Hl | cbn; lia]). }
    destruct r1 as [response|error]; [by apply Hstop|].
    destruct (Nat.eqb_spec left 0) as [|Hleft]; cbn [orb]; [by apply Hstop|].
    destruct (negb (is_retryable error)); [by apply Hstop|].
    destruct (stale expected w1); [by apply Hstop|].
    intros Hrec. apply IH in Hrec as (k & Hk & Hs & ss & Hss & Hn).
    exists (S k). split; [lia|]. cbn [slept sleep policy log] in *. split.
    + rewrite Hs, Hslept, Hp. cbn [backoffs]. by rewrite <- app_assoc.
    + destruct Hl as (s1 & Hl & Hn1). exists (s1 ++ ss). rewrite Hss, Hl, app_assoc, length_app.
      split; [done | lia].
Qed.

(** ** A broker that answers *)

(** A replayable request on a connection whose next exchange is an answer. *)
Lemma h_replayable_answered mt p w response rest :
  script w = replying (Ok response) :: rest -> 0 < next_request_id (shared w) < u64_max ->
  exists w', h_replayable mt p None w = (Ok response, w')
    /\ script w' = rest /\ next_request_id (shared w') = next_request_id (shared w) + 1
    /\ log w' = log w ++ [entry_at (generation (shared w)) mt 0 p] /\ generation (shared w') = generation (shared w).
Proof.
  intros Hs Hid. unfold h_replayable.
  assert (Ha : exists n, N.to_nat (attempts_of (policy w)) = S n).
  { exists (pred (N.to_nat (attempts_of (policy w)))). unfold attempts_of. destruct (retry_enabled _); lia. }
  destruct Ha as (n & ->). cbn [replay_loop stale]. unfold h_request, allocate_request_id.
  destruct (N.eqb_spec (next_request_id (shared w)) 0); [lia|].
  destruct (N.eqb_spec (next_request_id (shared w)) u64_max); [lia|].
  unfold submit, before_stamp. cbn [script shared set_shared]. rewrite Hs. cbn [hd tl x_submission x_reply replying].
  eexists. split; [reflexivity|]. cbn. by repeat split.
Qed.

(** ** What a confirmed-negative request resubmits *)

(** A reply the caller took for a rejection. *)
Definition rejected (f : bytes -> bool) (a : Reply bytes) : Prop :=
  exists response, a = Replied (Ok response) /\ f response = true.

Lemma h_request_answered mt p fl w r w' :
  h_request mt p fl w = (r, w') ->
  (log w' = log w /\ answered w' = answered w /\ is_ok r = false)
  \/ (exists s a, log w' = log w ++ [s] /\ answered w' = answered w ++ [a]
        /\ forall response, r = Ok response -> a = Replied (Ok response)).
Proof.
  unfold h_request. destruct (allocate_request_id _) as [[id|e] sequence]; [|intros [= <- <-]; by left].
  unfold submit, before_stamp. cbn [script set_shared]. set (x := hd silent (script w)).
  destruct (x_submission x) eqn:Ex; [|by intros [= <- <-]; left..].
  destruct (x_reply x) as [result| |] eqn:Er; intros [= <- <-]; right;
    do 2 eexists; (split; [reflexivity|]); (split; [reflexivity|]); by intros response [= ->].
Qed.

Lemma confirmed_loop_answered mt p fl f left : forall delay w r w',
  confirmed_loop left mt p fl f delay w = (r, w') ->
  exists ss rs, log w' = log w ++ ss /\ answered w' = answered w ++ rs /\ length ss = length rs
    /\ Forall (rejected f) (removelast rs)
    /\ forall response, r = Ok response -> last rs = Some (Replied (Ok response)).
Proof.
  induction left as [|left IH]; intros delay w r w'; cbn [confirmed_loop].
  - intros [= <- <-]. exists [], []. rewrite !app_nil_r. repeat split; [constructor | done].
  - destruct (h_request mt p fl w) as [r1 w1] eqn:Er. apply h_request_answered in Er.
    destruct r1 as [response|error].
    + destruct Er as [(_ & _ & ?)|(s & a & Hl & Ha & Hr)]; [done|].
      specialize (Hr response eq_refl) as ->.
      destruct (Nat.eqb left 0 || negb (f response)) eqn:Eb.
      * intros [= <- <-]. exists [s], [Replied (Ok response)]. repeat split; [done | done | constructor |].
        by intros ? [= ->].
      * intros Hrec. apply IH in Hrec as (ss & rs & Hss & Hrs & Hlen & Hf & Hlast).
        apply orb_false_iff in Eb as [_ Eb%negb_false_iff].
        exists (s :: ss), (Replied (Ok response) :: rs). cbn [log answered sleep] in *.
        rewrite Hss, Hrs, Hl, Ha, <- !app_assoc. split; [done|]. split; [done|].
        split; [cbn; congruence|]. split.
        -- destruct rs as [|a rs]; [constructor|]. constructor; [by exists response | done].
        -- intros resp Hr. specialize (Hlast resp Hr). by destruct rs.
    + intros [= <- <-].
      destruct Er as [(Hl & Ha & _)|(s & a & Hl & Ha & _)]; [exists [], [] | exists [s], [a]];
        rewrite ?app_nil_r; repeat split; try done; constructor.
Qed.

(** ** Retry budget of replayable requests *)

(** The delay after attempt [i], counted from 0: the base delay first, then twice
    as much each time within the policy's maximum (and [Duration::MAX]). *)
Definition delay_after (p : RetryPolicy) (i : nat) : duration :=
  match i with
  | O => base_delay p
  | S _ => N.min (base_delay p * 2 ^ N.of_nat i) (N.min (maximum_delay p) duration_max)
  end.

Lemma next_delay_after p i : next_delay p (delay_after p i) = delay_after p (S i).
Proof.
  unfold next_delay, duration_saturating_mul, saturating_mul. cbn [delay_after].
  rewrite (Nat2N.inj_succ i), N.pow_succ_r'. destruct i as [|i]; cbn [delay_after]; [change (2 ^ N.of_nat 0) with 1 | set (q := 2 ^ N.of_nat (S i))]; nia.
Qed.

Lemma backoffs_delays p k : forall i, backoffs p k (delay_after p i) = map (delay_after p) (seq i k).
Proof. induction k as [|k IH]; intros i; [done|]. cbn [backoffs seq map]. by rewrite next_delay_after, IH. Qed.

(** C25: a replayable request keeps to its retry budget: it submits one and the
    same command at most [maximum_attempts] times (once when retries are off);
    it submits nothing and reports a stale handle when the generation is not the
    one expected, and where nothing moves the generation between a check and
    the stamp every command carries the expected one; it sleeps between
    submissions and not after the last, the [i]-th time the base delay doubled
    [i] times within the maximum; and it returns an answer only if it submitted
    the command. *)
Theorem replayable_request_budget mt payload expected w r w' :
  h_replayable mt payload expected w = (r, w') ->
  (forall g, expected = Some g -> generation (shared w) <> g -> r = Err StaleHandle /\ w' = w)
  /\ exists k ss,
    log w' = log w ++ ss /\ blen ss <= N.of_nat (S k)
    /\ N.of_nat (S k) <= (if retry_enabled (policy w) then N.max (maximum_attempts (policy w)) 1 else 1)
    /\ Forall (fun s => is_command true mt 0 payload s
                        /\ (undisturbed w -> forall g, expected = Some g -> sent_generation s = g)) ss
    /\ slept w' = slept w ++ map (delay_after (policy w)) (seq 0 k)
    /\ (is_ok r = true -> ss <> []).
Proof.
  intros Hr. split; [intros g -> Hg; by eapply replay_stale|].
  pose proof Hr as Hr'. apply replay_loop_slept in Hr' as (k & Hk & Hs & ss & Hss & Hn).
  apply replay_loop_spec in Hr as (_ & (ss' & Hss' & Hf & _) & Hok). cbn in Hss'.
  rewrite Hss in Hss'. apply app_inv_head in Hss' as ->.
  change (if retry_enabled (policy w) then _ else _) with (attempts_of (policy w)).
  assert (Ha : 1 <= attempts_of (policy w)) by (unfold attempts_of; destruct (retry_enabled _); lia).
  exists k, ss'. split; [done|]. split; [unfold blen; lia|]. split; [lia|]. split; [done|].
  split; [rewrite Hs; f_equal; exact (backoffs_delays (policy w) k 0)|].
  intros Hr -> . apply (Hok Hr). by rewrite Hss, app_nil_r.
Qed.

(** Two timeouts, then an answer. *)
Definition sample_world : World :=
  {| shared := Shared_new 8; policy := RetryPolicy_default;
     script := [silent; silent; replying (Ok [Byte.x00])];
     log := []; answered := []; cancellations := []; slept := []; nap := fun s => s |}.

Lemma replayable_request_budget_witness :
  let '(r, w') := h_replayable 103 (str "k") (Some 0) sample_world in
  r = Ok [Byte.x00] /\ slept w' = [millis 100; millis 200] /\ undisturbed sample_world
  /\ (forall g, Some 0 = Some g -> generation (shared sample_world) <> g -> r = Err StaleHandle /\ w' = sample_world)
  /\ exists k ss, log w' = log sample_world ++ ss /\ blen ss <= N.of_nat (S k)
       /\ N.of_nat (S k) <= 3
       /\ Forall (fun s => is_command true 103 0 (str "k") s
                        /\ (undisturbed sample_world -> forall g, Some 0 = Some g -> sent_generation s = g)) ss
       /\ slept w' = slept sample_world ++ map (delay_after (policy sample_world)) (seq 0 k)
       /\ (is_ok r = true -> ss <> []).
Proof.
  destruct (h_replayable 103 (str "k") (Some 0) sample_world) as [r w'] eqn:E.
  split; [|split; [|split]]; [revert E; vm_compute; by intros [= <- _] | revert E; vm_compute; by intros [= _ <-] | by repeat constructor |].
  exact (replayable_request_budget 103 (str "k") (Some 0) sample_world r w' E).
Defined.
