(* ===== verification/Subscriptions.v ===== *)
(** * Subscriptions

    How a notification reaches a subscription: the registry of broadcast
    channels ([src/src/notifications.rs]), and the polling loop that the
    subscription streams of [src/src/client_domains/] run over their receiver.

    [tokio]'s broadcast channel is not part of the crate: [Broadcast] is the
    part of its contract the registry relies on, with an instance that keeps
    every value sent. *)

From S2P Require Import Prelude Errors Codec Shared.

(** ** Broadcast channels *)

(** [sent_since s r]: what was sent on [s] after [r] subscribed, oldest first.
    A receiver is offered these values in this order; when more than the
    capacity are outstanding the oldest are replaced by a lag error. *)
Class Broadcast (Sender : Type -> Type) (Receiver : Type) : Type := {
  channel : forall A, N -> Sender A;
  subscribe_to : forall A, Sender A -> Receiver;
  broadcast : forall A, A -> Sender A -> Sender A;
  sent_since : forall A, Sender A -> Receiver -> list A;
  subscribed : forall A, Sender A -> Receiver -> Prop;
}.
Arguments channel {_ _ _ A} capacity : rename.
Arguments subscribe_to {_ _ _ A} s : rename.
Arguments broadcast {_ _ _ A} a s : rename.
Arguments sent_since {_ _ _ A} s r : rename.
Arguments subscribed {_ _ _ A} s r : rename.

Class BroadcastLaws (Sender : Type -> Type) (Receiver : Type) `{Broadcast Sender Receiver} : Prop := {
  subscribe_law A (s : Sender A) :
    subscribed s (subscribe_to s) /\ sent_since s (subscribe_to s) = [];
  broadcast_law A (a : A) (s : Sender A) r :
    subscribed s r -> subscribed (broadcast a s) r /\ sent_since (broadcast a s) r = sent_since s r ++ [a];
}.

(** The channel that keeps everything; a receiver is its starting point. *)
Definition History (A : Type) : Type := list A.

#[export] Instance History_broadcast : Broadcast History nat := {|
  channel := fun A _ => [];
  subscribe_to := fun A s => length s;
  broadcast := fun A a s => s ++ [a];
  sent_since := fun A s r => drop r s;
  subscribed := fun A s r => (r <= length s)%nat;
|}.

#[export] Instance History_laws : BroadcastLaws History nat.
Proof.
  split; intros A.
  - intros s. cbn. by rewrite drop_all.
  - intros a s r Hr. cbn in *. split; [rewrite length_app; lia | by rewrite drop_app_le].
Qed.

(** ** The registry *)

(** [received_at] is an [Instant]: nanoseconds on the monotonic clock. *)
Record ReceivedNotification : Set := {
  rn_payload : bytes;
  rn_received_at : N;
  rn_generation : N;
}.

Section Registry.
Context {Sender : Type -> Type} {Receiver : Type} `{HB : Broadcast Sender Receiver}.

Record Notifications : Type := {
  payloads : gmap N (Sender bytes);
  timed : gmap N (Sender ReceivedNotification);
}.

Definition Notifications_default : Notifications := {| payloads := ∅; timed := ∅ |}.

(** [.entry(kind).or_insert_with(|| broadcast::channel(capacity.max(1)).0).subscribe()]. *)
Definition slot {A : Type} (kind capacity : N) (m : gmap N (Sender A)) : Sender A :=
  default (channel (N.max capacity 1)) (m !! kind).

Definition subscribe (kind capacity : N) (n : Notifications) : Receiver * Notifications :=
  let s := slot kind capacity (payloads n) in
  (subscribe_to s, {| payloads := <[kind := s]> (payloads n); timed := timed n |}).

Definition subscribe_timed (kind capacity : N) (n : Notifications) : Receiver * Notifications :=
  let s := slot kind capacity (timed n) in
  (subscribe_to s, {| payloads := payloads n; timed := <[kind := s]> (timed n) |}).

Definition publish (received_at kind : N) (payload : bytes) (generation : N) (n : Notifications) :
    Notifications :=
  {| payloads := alter (broadcast payload) kind (payloads n);
     timed := alter (broadcast {| rn_payload := payload; rn_received_at := received_at;
                                  rn_generation := generation |}) kind (timed n) |}.

(** What happens to the registry after a receiver was handed out. *)
Inductive Use : Set :=
| Publish (received_at kind : N) (payload : bytes) (generation : N)
| Subscribe (kind capacity : N)
| SubscribeTimed (kind capacity : N).

Definition use (n : Notifications) (u : Use) : Notifications :=
  match u with
  | Publish at_ kind payload generation => publish at_ kind payload generation n
  | Subscribe kind capacity => (subscribe kind capacity n).2
  | SubscribeTimed kind capacity => (subscribe_timed kind capacity n).2
  end.

(** The notifications of [kind] among [us]. *)
Definition published (kind : N) (us : list Use) : list ReceivedNotification :=
  omap (fun u => match u with
    | Publish at_ k payload generation =>
        if k =? kind then Some {| rn_payload := payload; rn_received_at := at_; rn_generation := generation |}
        else None
    | _ => None
    end) us.

(** What a receiver of [kind] was offered so far, in one of the two maps. *)
Definition offered {A : Type} (m : gmap N (Sender A)) (kind : N) (r : Receiver) (l : list A) : Prop :=
  exists s, m !! kind = Some s /\ subscribed s r /\ sent_since s r = l.

Context `{!BroadcastLaws Sender Receiver}.

Lemma offered_subscribe {A} (m : gmap N (Sender A)) kind capacity :
  offered (<[kind := slot kind capacity m]> m) kind (subscribe_to (slot kind capacity m)) [].
Proof.
  exists (slot kind capacity m). rewrite lookup_insert_eq. split; [done|]. apply subscribe_law.
Qed.

Lemma offered_again {A} (m : gmap N (Sender A)) kind r l kind' capacity :
  offered m kind r l -> offered (<[kind' := slot kind' capacity m]> m) kind r l.
Proof.
  intros (s & Hs & Hr). exists s. split; [|done].
  destruct (decide (kind' = kind)) as [->|]; [|by rewrite lookup_insert_ne].
  rewrite lookup_insert_eq. unfold slot. by rewrite Hs.
Qed.

Lemma offered_alter {A} (m : gmap N (Sender A)) kind r l kind' a :
  offered m kind r l ->
  offered (alter (broadcast a) kind' m) kind r (if kind' =? kind then l ++ [a] else l).
Proof.
  intros (s & Hs & Hr & <-). destruct (N.eqb_spec kind' kind) as [->|].
  - exists (broadcast a s). rewrite lookup_alter_eq, Hs. split; [done|]. by apply broadcast_law.
  - exists s. by rewrite lookup_alter_ne.
Qed.

Lemma offered_uses (us : list Use) : forall n kind r l,
  offered (payloads n) kind r l ->
  offered (payloads (fold_left use us n)) kind r (l ++ map rn_payload (published kind us)).
Proof.
  induction us as [|u us IH]; intros n kind r l Hr; cbn [fold_left published omap list_omap map].
  - by rewrite app_nil_r.
  - destruct u as [at_ k p g|k c|k c]; cbn [use].
    + apply (offered_alter _ _ _ _ k p) in Hr. destruct (N.eqb_spec k kind) as [->|].
      * apply (IH (publish at_ kind p g n)) in Hr.
        cbn [map rn_payload]. by rewrite <- app_assoc in Hr.
      * by apply (IH (publish at_ k p g n)) in Hr.
    + by apply IH, offered_again.
    + by apply (IH (subscribe_timed k c n).2).
Qed.

Lemma offered_uses_timed (us : list Use) : forall n kind r l,
  offered (timed n) kind r l ->
  offered (timed (fold_left use us n)) kind r (l ++ published kind us).
Proof.
  induction us as [|u us IH]; intros n kind r l Hr; cbn [fold_left published omap list_omap].
  - by rewrite app_nil_r.
  - destruct u as [at_ k p g|k c|k c]; cbn [use].
    + pose (v := {| rn_payload := p; rn_received_at := at_; rn_generation := g |}).
      apply (offered_alter _ _ _ _ k v) in Hr. destruct (N.eqb_spec k kind) as [->|].
      * apply (IH (publish at_ kind p g n)) in Hr. by rewrite <- app_assoc in Hr.
      * by apply (IH (publish at_ k p g n)) in Hr.
    + by apply (IH (subscribe k c n).2).
    + by apply IH, offered_again.
Qed.

(** Whatever is published and whoever subscribes afterwards, a receiver
    handed out for a message type is offered every later notification of that
    type, in order and once, and nothing else; a timed receiver gets each with
    the arrival time and the generation it was published under. *)
Theorem receivers_offered_their_type kind capacity (n : Notifications) us :
  offered (payloads (fold_left use us (subscribe kind capacity n).2)) kind (subscribe kind capacity n).1
    (map rn_payload (published kind us))
  /\ offered (timed (fold_left use us (subscribe_timed kind capacity n).2)) kind
       (subscribe_timed kind capacity n).1 (published kind us).
Proof.
  split.
  - apply (offered_uses us _ kind _ []). cbn. apply offered_subscribe.
  - apply (offered_uses_timed us _ kind _ []). cbn. apply offered_subscribe.
Qed.
End Registry.

Lemma receivers_offered_their_type_witness :
  let us := [Publish 5 111 (str "a") 0; SubscribeTimed 111 4; Publish 6 209 (str "b") 0; Publish 7 111 (str "c") 1] in
  let n : Notifications := (subscribe 209 64 Notifications_default).2 in
  map rn_payload (published 111 us) = [str "a"; str "c"]
  /\ offered (payloads (fold_left use us (subscribe 111 64 n).2)) 111 (subscribe 111 64 n).1
       (map rn_payload (published 111 us))
  /\ offered (timed (fold_left use us (subscribe_timed 111 64 n).2)) 111
       (subscribe_timed 111 64 n).1 (published 111 us).
Proof. cbn zeta. split; [by vm_compute|]. apply (receivers_offered_their_type (Sender := History)). Defined.

(** ** Polling a subscription *)

(** What a [BroadcastStream] yields next: a notification, or an error that
    stands for the ones that were overwritten. *)
Inductive Event : Set :=
| Received (payload : bytes)
| Lagged.

(** [ended]: the channel was closed, after the events that are left. *)
Record Inbox : Set := { events : list Event; ended : bool }.

Inductive Poll (A : Type) : Type :=
| Ready (item : option (Result A))
| Pending.
Arguments Ready {A} item.
Arguments Pending {A}.

(** The decoder of a notification starts after the subscription id, or at the
    start of the payload (streams decode the whole payload). *)
Inductive NotifyDecoder (A : Type) : Type :=
| AfterId (rest : Dec A)
| WholePayload (f : bytes -> Result A).
Arguments AfterId {A} rest.
Arguments WholePayload {A} f.

Definition decode_notify {A : Type} (f : NotifyDecoder A) (payload : bytes) (d : PayloadDecoder) : Result A :=
  match f with
  | AfterId g => match g d with Ok (a, _) => Ok a | Err e => Err e end
  | WholePayload g => g payload
  end.

(** The loop of [poll_next]: foreign notifications are skipped. *)
Fixpoint poll_events {A : Type} (wire : N) (f : NotifyDecoder A) (full : bytes) (es : list Event)
    (ended : bool) : Poll A * list Event :=
  match es with
  | [] => (if ended then Ready None else Pending, [])
  | Lagged :: es' => (Ready (Some (Err (Backpressure full))), es')
  | Received payload :: es' =>
      match get_u64 (PayloadDecoder_new payload) with
      | Err e => (Ready (Some (Err e)), es')
      | Ok (id, d) =>
          if negb (id =? wire) then poll_events wire f full es' ended
          else (Ready (Some (decode_notify f payload d)), es')
      end
  end.

Definition poll_inbox {A : Type} (wire : N) (f : NotifyDecoder A) (full : bytes) (i : Inbox) : Poll A * Inbox :=
  let '(p, es) := poll_events wire f full (events i) (ended i) in (p, {| events := es; ended := ended i |}).

(** A notification of another subscription: its id is there and is another. *)
Definition foreign (wire : N) (e : Event) : Prop :=
  exists id body, e = Received (be_bytes 8 id ++ body) /\ id < 2 ^ 64 /\ id <> wire.

Lemma get_u64_new payload id d :
  get_u64 (PayloadDecoder_new payload) = Ok (id, d) <->
  exists body, payload = be_bytes 8 id ++ body /\ id < 2 ^ 64 /\ d = advance 8 (PayloadDecoder_new payload).
Proof.
  split.
  - intros E. destruct (sound_u64 _ _ _ (new_wf payload) E) as (l & [Hid ->] & Hr & -> & _).
    rewrite new_rest in Hr. eexists. split; [exact Hr|]. split; [exact Hid|]. by rewrite be_bytes_blen.
  - intros (body & -> & Hid & ->). rewrite (reads_u64 id Hid _ body); [by rewrite be_bytes_blen | apply new_wf | done].
Qed.

(** What an event yields, if anything. *)
Definition yield {A : Type} (wire : N) (f : NotifyDecoder A) (full : bytes) (e : Event) : option (Result A) :=
  match e with
  | Lagged => Some (Err (Backpressure full))
  | Received payload =>
      match get_u64 (PayloadDecoder_new payload) with
      | Err e => Some (Err e)
      | Ok (id, d) => if id =? wire then Some (decode_notify f payload d) else None
      end
  end.

#[local] Instance Received_inj : Inj (=) (=) Received.
Proof. by intros p q [= ->]. Qed.

Lemma yield_none {A} wire (f : NotifyDecoder A) full e : yield wire f full e = None <-> foreign wire e.
Proof.
  unfold foreign. destruct e as [payload|]; cbn [yield]; [|split; [done | by intros (? & ? & ? & _)]].
  destruct (get_u64 (PayloadDecoder_new payload)) as [[id d]|e] eqn:E.
  - apply get_u64_new in E as (body & -> & Hid & ->). destruct (N.eqb_spec id wire) as [->|Hne].
    + split; [done|]. intros (id & body' & Heq & Hid' & Hne). destruct Hne.
      apply (inj Received) in Heq as Hb.
      apply app_inj_1 in Hb as [Hb _]; [|by rewrite !be_bytes_length].
      rewrite <- (from_be_be_bytes_small 8 id), <- Hb by done. by apply from_be_be_bytes_small.
    + split; [|done]. intros _. by exists id, body.
  - split; [done|]. intros (id & body & Heq & Hid & _).
    apply (inj Received) in Heq as ->.
    assert (Hg : get_u64 (PayloadDecoder_new (be_bytes 8 id ++ body))
                 = Ok (id, advance 8 (PayloadDecoder_new (be_bytes 8 id ++ body))))
      by (apply get_u64_new; eauto).
    congruence.
Qed.

Lemma poll_events_step {A} wire (f : NotifyDecoder A) full ended e es :
  poll_events wire f full (e :: es) ended =
    match yield wire f full e with
    | Some item => (Ready (Some item), es)
    | None => poll_events wire f full es ended
    end.
Proof.
  destruct e as [payload|]; cbn; [|done]. destruct (get_u64 _) as [[id d]|]; [|done].
  by destruct (id =? wire).
Qed.

(** Polls until nothing is ready: the items, and the last answer. *)
Fixpoint drain {A : Type} (fuel : nat) (wire : N) (f : NotifyDecoder A) (full : bytes) (i : Inbox) :
    option (list (Result A) * Poll A) :=
  match fuel with
  | O => None
  | S fuel' =>
      match poll_inbox wire f full i with
      | (Ready (Some item), i') =>
          match drain fuel' wire f full i' with
          | Some (items, last) => Some (item :: items, last)
          | None => None
          end
      | (last, _) => Some ([], last)
      end
  end.

(** Polled until nothing is ready, a subscription yields one item per
    event that is not a notification of another subscription, in order: the
    decoded notification, the decoder's error, or a back-pressure error where
    notifications were overwritten; then it is pending, or ends if the channel
    was closed.  At most one poll per event, and one more, is needed. *)
Theorem polling_filters_events {A : Type} wire (f : NotifyDecoder A) full i fuel :
  (length (events i) < fuel)%nat ->
  drain fuel wire f full i
  = Some (omap (yield wire f full) (events i), if ended i then Ready None else Pending)
  /\ Forall (fun e => yield wire f full e = None <-> foreign wire e) (events i).
Proof.
  intros Hf. split; [|apply Forall_forall; intros; apply yield_none].
  destruct i as [es en]. cbn [events ended] in *. revert fuel Hf.
  induction es as [|e es IH]; intros [|fuel] Hf; cbn [length] in Hf; try lia.
  - cbn. by destruct en.
  - cbn [omap list_omap]. cbn [drain]. unfold poll_inbox. cbn [events ended].
    rewrite poll_events_step. destruct (yield wire f full e) as [item|] eqn:E.
    + cbn. rewrite IH by lia. done.
    + rewrite <- (IH (S fuel)) by lia. done.
Qed.

Lemma polling_filters_events_witness :
  let i := {| events := [Received (be_bytes 8 7 ++ [Byte.x01]); Lagged; Received [Byte.x01];
                         Received (be_bytes 8 9 ++ [Byte.x05])]; ended := true |} in
  (length (events i) < 5)%nat
  /\ omap (yield 9 (AfterId get_u8) (str "full")) (events i)
     = [Err (Backpressure (str "full")); Err not_enough; Ok 5]
  /\ drain 5 9 (AfterId get_u8) (str "full") i
     = Some (omap (yield 9 (AfterId get_u8) (str "full")) (events i), Ready None).
Proof.
  cbn zeta. split; [cbn; lia|]. split; [by vm_compute|].
  apply (polling_filters_events 9 (AfterId get_u8) (str "full") {| events := [Received (be_bytes 8 7 ++ [Byte.x01]);
    Lagged; Received [Byte.x01]; Received (be_bytes 8 9 ++ [Byte.x05])]; ended := true |}). cbn. lia.
Defined.
