(* ===== verification/Kv.v ===== *)
(** * Kv

    [src/src/client_domains/kv.rs]: the KV client, its transactions, the scan
    response and the subscription stream.  The operations run over any
    [BrokerLink]; the theorems need only [LinkLaws]. *)

From S2P Require Import Prelude Errors Protocol Codec Routes Responses Shared Conn Subscriptions.

(** ** Data *)

Inductive KvDurability : Set := Buffered | Sync.
Definition durability_byte (d : KvDurability) : N := match d with Buffered => 0 | Sync => 1 end.

Inductive KvGetResult : Set :=
| Found (value : bytes)
| NotFound.

Record KvPair : Set := { pair_key : bytes; pair_value : bytes }.

Record KvScanOptions : Set := {
  start_key : option bytes;
  end_key : option bytes;
  scan_limit : option N;
  reverse : bool;
  start_exclusive : bool;
}.

Record KvScanPage : Set := { pairs : list KvPair; has_more : bool }.

Record KvTransaction : Set := {
  tx_generation : N;
  transaction_id : N;
  tx_route : bytes;
  tx_closed : bool;
}.

Record KvNotification : Set := { kn_route : bytes; mutation_count : N }.

Record KvSubscription : Set := {
  pattern : bytes;
  registration : RestorableRegistration;
  receiver : Inbox;
  closed : bool;
}.

(** ** Responses *)

Definition bad_status {A : Type} (operation : bytes) (status : N) : Dec A :=
  dec_fail (Protocol (str "KV " ++ operation ++ str " returned status " ++ dec status)).

Definition decode_begin : Dec N :=
  status <- get_u8;;
  if status =? 0 then get_u64
  else if status =? 1 then fail_domain_error
  else bad_status (str "BEGIN") status.

Definition decode_subscription_id (response : bytes) : Result N :=
  run_dec
    (status <- get_u8;;
     if status =? 0 then get_u64
     else if status =? 1 then fail_domain_error
     else bad_status (str "SUBSCRIBE") status) response.

Definition decode_get : Dec KvGetResult :=
  status <- get_u8;;
  if status =? 0 then
    found <- get_u8;;
    if found =? 1 then value <- get_bytes;; mret (Found value) else mret NotFound
  else if status =? 1 then fail_domain_error
  else bad_status (str "GET") status.

Definition decode_pair : Dec KvPair :=
  k <- get_bytes;; v <- get_bytes;; mret {| pair_key := k; pair_value := v |}.

(** [usize::try_from(count)] never fails on the supported targets. *)
Definition decode_page : Dec KvScanPage :=
  count <- get_u32;;
  available <- bytes_left;;
  let maximum_count := (available - 1) / 8 in
  if maximum_count <? count
  then dec_fail (Protocol (str "KV SCAN item count " ++ dec count
                             ++ str " exceeds the remaining response payload"))
  else
    pairs <- get_list (N.to_nat count) decode_pair;;
    flag <- get_u8;;
    if (flag =? 0) || (flag =? 1)
    then mret {| pairs := pairs; has_more := flag =? 1 |}
    else dec_fail (Protocol (str "KV SCAN returned invalid has_more flag " ++ dec flag)).

Definition scan_trailing : FitzError := Protocol (str "KV SCAN response contains trailing bytes").

Definition decode_scan_response (payload : bytes) : Result KvScanPage :=
  run_dec
    (status <- get_u8;;
     if status =? 0 then
       page <- decode_page;;
       fin <- at_end;;
       if fin : bool then mret page else dec_fail scan_trailing
     else if status =? 1 then fail_domain_error
     else bad_status (str "SCAN") status) payload.

Definition scan_range_is_empty (start end_ : option bytes) (reverse : bool) : bool :=
  match start, end_ with
  | Some start, Some end_ =>
      match bytes_cmp start end_ with
      | Eq => true
      | Gt => negb reverse
      | Lt => reverse
      end
  | _, _ => false
  end.

(** ** Requests *)

Definition encode_optional_bytes (value : option bytes) (e : PayloadEncoder) : PayloadEncoder :=
  match value with
  | Some value => e .> put_u8 1 .> put_bytes value
  | None => e .> put_u8 0
  end.

(** What every command of a transaction starts with. *)
Definition tx_encoder (t : KvTransaction) : PayloadEncoder :=
  PayloadEncoder_new .> put_u64 (transaction_id t) .> put_string (tx_route t).

Definition finish_payload (t : KvTransaction) : bytes := finish (tx_encoder t).
Definition key_payload (t : KvTransaction) (key : bytes) : bytes := finish (tx_encoder t .> put_bytes key).
Definition two_fields (t : KvTransaction) (a b : bytes) : bytes :=
  finish (tx_encoder t .> put_bytes a .> put_bytes b).

Definition scan_payload (t : KvTransaction) (options : KvScanOptions) : bytes :=
  let e := tx_encoder t .> encode_optional_bytes (start_key options)
             .> encode_optional_bytes (end_key options) in
  let e := match scan_limit options with
           | Some limit => e .> put_u8 1 .> put_u32 limit
           | None => e .> put_u8 0
           end in
  finish (e .> put_u8 (N.lor (N.b2n (reverse options)) (N.shiftl (N.b2n (start_exclusive options)) 1))).

(** ** The client *)

Section Client.
Context {W : Type} `{BrokerLink W}.

Definition begin (route : bytes) (mode : TransactionMode) : IO W KvTransaction :=
  io_lift (validate_fixed_route route (str "kv") 3);;
  response <- request message_type.KV_BEGIN
    (finish (PayloadEncoder_new .> put_string route .> put_u8 (mode_byte mode)));;
  generation <- io_get generation_of;;
  io_lift (run_dec (transaction_id <- decode_begin;;
    mret {| tx_generation := generation; transaction_id := transaction_id; tx_route := route;
            tx_closed := false |}) response).

Definition subscribe (p : bytes) : IO W KvSubscription :=
  io_lift (validate_registration_pattern p (str "kv") 3);;
  let payload := finish (PayloadEncoder_new .> put_string p) in
  response <- request message_type.KV_SUBSCRIBE payload;;
  subscription_id <- io_lift (decode_subscription_id response);;
  registration <- io_register {| reg_message_type := message_type.KV_SUBSCRIBE; reg_payload := payload;
                                 reg_decoder := decode_subscription_id |} subscription_id;;
  mret {| pattern := p; registration := registration; receiver := {| events := []; ended := false |};
          closed := false |}.

Definition ensure_open (t : KvTransaction) : IO W unit := fun w =>
  (if tx_closed t then Err StaleHandle
   else if negb (generation_of w =? tx_generation t) then Err StaleHandle
   else Ok tt, w).

Definition get (t : KvTransaction) (k : bytes) : IO W KvGetResult :=
  ensure_open t;;
  response <- request_replayable_in_generation message_type.KV_GET (key_payload t k)
                (Some (tx_generation t));;
  io_lift (run_dec decode_get response).

Definition write (t : KvTransaction) (message_type : N) (k v : bytes) : IO W unit :=
  ensure_open t;;
  response <- request message_type (two_fields t k v);;
  io_lift (decode_ok response).

Definition put (t : KvTransaction) : bytes -> bytes -> IO W unit := write t message_type.KV_PUT.
Definition insert (t : KvTransaction) : bytes -> bytes -> IO W unit := write t message_type.KV_INSERT.

Definition delete (t : KvTransaction) (k : bytes) : IO W unit :=
  ensure_open t;;
  response <- request message_type.KV_DELETE (key_payload t k);;
  io_lift (decode_ok response).

Definition delete_range (t : KvTransaction) (start_key end_key : bytes) : IO W unit :=
  ensure_open t;;
  response <- request message_type.KV_DELETE_RANGE (two_fields t start_key end_key);;
  io_lift (decode_ok response).

Definition scan (t : KvTransaction) (options : KvScanOptions) : IO W KvScanPage :=
  ensure_open t;;
  if scan_range_is_empty (start_key options) (end_key options) (reverse options)
  then mret {| pairs := []; has_more := false |}
  else
    response <- request_replayable_in_generation message_type.KV_SCAN (scan_payload t options)
                  (Some (tx_generation t));;
    io_lift (decode_scan_response response).

(** [commit] and [rollback] consume the transaction. *)
Definition commit (t : KvTransaction) (durability : KvDurability) : IO W unit :=
  ensure_open t;;
  response <- request message_type.KV_COMMIT
    (finish_payload t ++ [byte_of_N (durability_byte durability)]);;
  io_lift (decode_ok response).

Definition rollback (t : KvTransaction) : IO W unit :=
  if tx_closed t then mret tt
  else
    ensure_open t;;
    response <- request message_type.KV_ROLLBACK (finish_payload t);;
    io_lift (decode_ok response).

Definition unsubscribe (s : KvSubscription) : IO W unit :=
  io_deregister (registration s);;
  response <- request message_type.KV_UNSUBSCRIBE (finish (PayloadEncoder_new .> put_string (pattern s)));;
  io_lift (decode_ok response).

Definition decode_kv_notify : Dec KvNotification :=
  route <- get_string;; mutation_count <- get_u64;;
  mret {| kn_route := route; mutation_count := mutation_count |}.

Definition poll_next (s : KvSubscription) (w : W) : Poll KvNotification * KvSubscription :=
  if closed s then (Ready None, s)
  else
    let '(p, i) := poll_inbox (wire_id_of (registration s) w) (AfterId decode_kv_notify)
                     (str "KV subscription buffer is full") (receiver s) in
    (p, {| pattern := pattern s; registration := registration s; receiver := i; closed := closed s |}).
End Client.

(** ** Scan responses *)

Local Arguments be_bytes : simpl never.

Definition pair_bytes (p : KvPair) : bytes := field_bytes (pair_key p) ++ field_bytes (pair_value p).
Definition pair_ok (p : KvPair) : Prop := blen (pair_key p) <= u32_max /\ blen (pair_value p) <= u32_max.
Definition scan_page_bytes (p : KvScanPage) : bytes :=
  be_bytes 4 (blen (pairs p)) ++ concat (map pair_bytes (pairs p))
  ++ be_bytes 1 (if has_more p then 1 else 0).
Definition scan_page_ok (p : KvScanPage) : Prop := blen (pairs p) <= u32_max /\ Forall pair_ok (pairs p).

#[export] Instance exact_pair : Exact decode_pair (encodes pair_ok pair_bytes).
Proof.
  eapply exact_iff; [unfold decode_pair; exact_step|]. intros p l. split.
  - destruct p. intros [[? ?] ->]. unfold pair_bytes, field_bytes. cbn in *. enc_fields.
  - intros H. enc_inv. done.
Qed.
#[export] Hint Resolve exact_pair : fitz.

(** The page without the count test. *)
Definition plain_page : Dec KvScanPage :=
  count <- get_u32;;
  pairs <- get_list (N.to_nat count) decode_pair;;
  flag <- get_u8;;
  if (flag =? 0) || (flag =? 1)
  then mret {| pairs := pairs; has_more := flag =? 1 |}
  else dec_fail (Protocol (str "KV SCAN returned invalid has_more flag " ++ dec flag)).

#[export] Instance exact_plain_page : Exact plain_page (encodes scan_page_ok scan_page_bytes).
Proof.
  eapply exact_iff; [unfold plain_page; exact_step|]. intros [ps more] l. split.
  - intros [[Hn Hp] ->]. unfold scan_page_bytes. cbn in *.
    exists (blen ps). do 2 eexists. split; [reflexivity|].
    split; [apply enc_uint_intro; unfold u32_max in Hn; change (2 ^ _) with 4294967296; lia|].
    exists ps. do 2 eexists. split; [reflexivity|].
    split; [split; [unfold blen; lia | by apply enc_items_encodes]|].
    exists (if more then 1 else 0), (be_bytes 1 (if more then 1 else 0)), [].
    rewrite app_nil_r. split; [done|]. by destruct more.
  - intros (n & l1 & l2 & -> & [Hn ->] & ps' & l3 & l4 & -> & [Hl Hi] & fl & l5 & l6 & -> & [Hf ->] & H).
    apply enc_items_encodes in Hi as [Hi ->]. assert (n = blen ps') as -> by (unfold blen; lia).
    destruct (N.eqb_spec fl 0) as [->|]; [|destruct (N.eqb_spec fl 1) as [->|]; [|done]];
      destruct H as [[= -> ->] ->]; rewrite app_nil_r; split; try done;
      split; [|done| |done]; cbn; unfold u32_max; change (2 ^ _) with 4294967296 in Hn; lia.
Qed.

(** Each pair takes eight bytes at least, so the count test never rejects a
    page that decodes. *)
Lemma pairs_blen ps : 8 * blen ps <= blen (concat (map pair_bytes ps)).
Proof.
  induction ps as [|p ps IH]; [done|]. cbn [map concat]. rewrite blen_cons, blen_app.
  unfold pair_bytes at 1, field_bytes. rewrite !blen_app, !be_bytes_blen. lia.
Qed.

Lemma decode_page_plain d x : dec_wf d -> decode_page d = Ok x <-> plain_page d = Ok x.
Proof.
  intros Hwf. unfold decode_page, plain_page. unfold mbind at 1 2, Dec_mbind at 1 2.
  unfold mbind at 3, Dec_mbind at 3.
  destruct (get_u32 d) as [[count d1]|] eqn:E; [|done]. unfold bytes_left.
  destruct (N.ltb_spec ((remaining d1 - 1) / 8) count) as [Hlt|]; [|done]. split; [done|]. intros Hx. exfalso.
  destruct x as [page d2].
  assert (Hp : plain_page d = Ok (page, d2)).
  { unfold plain_page. unfold mbind at 1, Dec_mbind at 1. by rewrite E. }
  destruct (exact_sound _ _ _ Hwf Hp) as (l & [_ ->] & Hr & _).
  destruct (sound_u32 _ _ _ Hwf E) as (l1 & [Hc ->] & Hr1 & _ & _).
  rewrite Hr1 in Hr. unfold scan_page_bytes in Hr. rewrite <- app_assoc in Hr.
  apply app_inj_1 in Hr as [Hcount Hr]; [|by rewrite !be_bytes_length].
  apply (f_equal blen) in Hr. rewrite <- remaining_rest, !blen_app, be_bytes_blen in Hr.
  pose proof (pairs_blen (pairs page)).
  assert (count = blen (pairs page) mod 2 ^ 32) as ->.
  { rewrite <- (from_be_be_bytes_small 4 count Hc), Hcount. apply from_be_be_bytes. }
  pose proof (N.Div0.mod_le (blen (pairs page)) (2 ^ 32)).
  assert (blen (pairs page) <= (remaining d1 - 1) / 8) by (apply N.div_le_lower_bound; lia). lia.
Qed.

#[export] Instance exact_page : Exact decode_page (encodes scan_page_ok scan_page_bytes).
Proof. eapply exact_ext; [apply decode_page_plain | apply exact_plain_page]. Qed.
#[export] Hint Resolve exact_page : fitz.

(** A SCAN response is accepted exactly when it is the success tag followed
    by the canonical encoding of a page, with no byte left, and the page is the
    one encoded: the test that bounds the allocation by the size of the
    response never rejects a well-formed page. *)
Theorem scan_response_exact response page :
  decode_scan_response response = Ok page <->
  scan_page_ok page /\ response = be_bytes 1 0 ++ scan_page_bytes page.
Proof.
  unfold decode_scan_response. rewrite run_whole by (unfold bad_status; whole_step). split.
  - intros (t & l1 & l2 & -> & [_ ->] & H). by tag_cases; enc_inv.
  - intros [Hok ->]. exists 0. do 2 eexists. split; [reflexivity|]. split; [done|]. by split.
Qed.

(** ** Empty scan ranges *)

(** The directional bounds of a scan, the start inclusive. *)
Definition in_scan_range (start end_ : bytes) (reverse : bool) (k : bytes) : Prop :=
  if reverse
  then bytes_cmp k start <> Gt /\ bytes_cmp k end_ = Gt
  else bytes_cmp k start <> Lt /\ bytes_cmp k end_ = Lt.

(** A scan is answered locally exactly when both bounds are given and no
    key at all lies within them, in the scan's direction. *)
Theorem scan_range_is_empty_spec start end_ reverse :
  scan_range_is_empty start end_ reverse = true <->
  exists s e, start = Some s /\ end_ = Some e /\ forall k, ~ in_scan_range s e reverse k.
Proof.
  destruct start as [s|], end_ as [e|]; cbn; split; try done;
    try (intros (? & ? & ? & ? & _); done).
  - intros He. exists s, e. split; [done|]. split; [done|]. intros k. unfold in_scan_range.
    pose proof (bytes_cmp_antisym k s) as Ak. pose proof (bytes_cmp_antisym k e) as Ae.
    destruct reverse, (bytes_cmp s e) eqn:E; try discriminate He; intros [H1 H2].
    + apply bytes_cmp_eq in E as ->. congruence.
    + rewrite H2 in Ae. cbn in Ae. rewrite (bytes_cmp_lt_trans s e k E Ae) in Ak.
      destruct (bytes_cmp k s); try discriminate Ak. by destruct H1.
    + apply bytes_cmp_eq in E as ->. congruence.
    + pose proof (bytes_cmp_antisym s e) as As. rewrite E in As. cbn in As.
      rewrite (bytes_cmp_lt_trans k e s H2 As) in H1. by destruct H1.
  - intros (s' & e' & [= <-] & [= <-] & Hk). specialize (Hk s). unfold in_scan_range in Hk.
    rewrite bytes_cmp_refl in Hk. destruct reverse, (bytes_cmp s e); try done; destruct Hk; by split.
Qed.

(** ** Transactions *)

Inductive TxOp : Set :=
| Get (k : bytes)
| Put (k v : bytes)
| Insert (k v : bytes)
| Delete (k : bytes)
| DeleteRange (a b : bytes)
| Scan (options : KvScanOptions)
| Commit (durability : KvDurability)
| Rollback.

Definition op_type (op : TxOp) : N :=
  match op with
  | Get _ => message_type.KV_GET
  | Put _ _ => message_type.KV_PUT
  | Insert _ _ => message_type.KV_INSERT
  | Delete _ => message_type.KV_DELETE
  | DeleteRange _ _ => message_type.KV_DELETE_RANGE
  | Scan _ => message_type.KV_SCAN
  | Commit _ => message_type.KV_COMMIT
  | Rollback => message_type.KV_ROLLBACK
  end.

(** What follows the transaction id and the route. *)
Definition op_arguments (op : TxOp) : bytes :=
  match op with
  | Get k | Delete k => field_bytes k
  | Put a b | Insert a b | DeleteRange a b => field_bytes a ++ field_bytes b
  | Scan o =>
      opt_field_bytes (start_key o) ++ opt_field_bytes (end_key o)
      ++ match scan_limit o with Some l => be_bytes 1 1 ++ be_bytes 4 l | None => be_bytes 1 0 end
      ++ be_bytes 1 (N.b2n (reverse o) + 2 * N.b2n (start_exclusive o))
  | Commit d => be_bytes 1 (durability_byte d)
  | Rollback => []
  end.

Definition op_fits (op : TxOp) : Prop :=
  match op with
  | Get k | Delete k => blen k <= u32_max
  | Put a b | Insert a b | DeleteRange a b => blen a <= u32_max /\ blen b <= u32_max
  | Scan o => opt_field_ok (start_key o) /\ opt_field_ok (end_key o)
  | Commit _ | Rollback => True
  end.

(** The payload an operation submits. *)
Definition op_payload (t : KvTransaction) (op : TxOp) : bytes :=
  match op with
  | Get k | Delete k => key_payload t k
  | Put a b | Insert a b | DeleteRange a b => two_fields t a b
  | Scan options => scan_payload t options
  | Commit durability => finish_payload t ++ [byte_of_N (durability_byte durability)]
  | Rollback => finish_payload t
  end.

Lemma op_payload_layout t op :
  blen (tx_route t) <= u32_max -> op_fits op ->
  op_payload t op = be_bytes 8 (transaction_id t) ++ field_bytes (tx_route t) ++ op_arguments op.
Proof.
  intros Hr Hop.
  assert (Ht : enc_buf (tx_encoder t) = be_bytes 8 (transaction_id t) ++ field_bytes (tx_route t)).
  { unfold tx_encoder. rewrite put_string_buf by done. done. }
  destruct op as [k|a b|a b|k|a b|o|d|]; cbn [op_payload op_arguments op_fits] in *;
    unfold key_payload, two_fields, finish_payload, finish;
    try (rewrite !put_bytes_buf by (try apply Hop; done); rewrite Ht, <- !app_assoc; done).
  - unfold scan_payload, finish. destruct o as [s e lim rev ex]; cbn [start_key end_key scan_limit
      reverse start_exclusive] in *. destruct Hop as [Hs He].
    assert (Hopt : forall v b, opt_field_ok v ->
      enc_buf (encode_optional_bytes v b) = enc_buf b ++ opt_field_bytes v).
    { intros [v|] b Hv; cbn [encode_optional_bytes opt_field_bytes]; [|done].
      rewrite put_bytes_buf by done. cbn. rewrite <- app_assoc. done. }
    assert (Hend : forall b, enc_buf (put_u8 (N.lor (N.b2n rev) (N.shiftl (N.b2n ex) 1)) b)
                   = enc_buf b ++ be_bytes 1 (N.b2n rev + 2 * N.b2n ex)).
    { intros b. by destruct rev, ex. }
    destruct lim as [lim|]; rewrite Hend; cbn [put_u32 put_u8 extend enc_buf];
      rewrite !Hopt, Ht by done; rewrite <- !app_assoc; done.
  - rewrite Ht, <- app_assoc. by destruct d.
  - by rewrite Ht, app_nil_r.
Qed.

Section Transactions.
Context {W : Type} `{LinkLaws W}.

(** An operation, its value dropped. *)
Definition run_op (t : KvTransaction) (op : TxOp) : IO W unit :=
  match op with
  | Get k => get t k;; mret tt
  | Put k v => put t k v
  | Insert k v => insert t k v
  | Delete k => delete t k
  | DeleteRange a b => delete_range t a b
  | Scan options => scan t options;; mret tt
  | Commit durability => commit t durability
  | Rollback => rollback t
  end.

Definition is_replayable (op : TxOp) : bool := match op with Get _ | Scan _ => true | _ => false end.
(** Answered without a command. *)
Definition is_local (op : TxOp) : bool :=
  match op with
  | Scan o => scan_range_is_empty (start_key o) (end_key o) (reverse o)
  | _ => false
  end.

Definition live (t : KvTransaction) (w : W) : bool :=
  negb (tx_closed t) && (generation_of w =? tx_generation t).

Lemma ensure_open_spec t w : ensure_open t w = (if live t w then Ok tt else Err StaleHandle, w).
Proof. unfold ensure_open, live. by destruct (tx_closed t), (_ =? _). Qed.

(** The commands of an operation of [t] called in [w]. *)
Definition stamped (w : W) (t : KvTransaction) (op : TxOp) (s : Sent) : Prop :=
  is_command true (op_type op) 0 (op_payload t op) s
  /\ (undisturbed w -> sent_generation s = tx_generation t)
  /\ (is_replayable op = false -> sent_generation s = stamp_of w).

Lemma drop_value {A} (m : IO W A) : forall w r w',
  (m;; mret tt) w = (r, w') -> exists r1, m w = (r1, w') /\ (is_ok r = is_ok r1).
Proof.
  intros w r w' E. apply io_bind_inv in E as [(a & w1 & E & [= <- <-])|(e & E & ->)]; by eauto.
Qed.

Lemma live_op t op w r w' :
  live t w = true -> is_local op = false -> run_op t op w = (r, w') ->
  submits (stamped w t op) (if is_replayable op then attempts w else 1) w w'
  /\ (is_ok r = true -> sent_by w' <> sent_by w).
Proof.
  intros Hl Hloc Hr. assert (Hg : generation_of w = tx_generation t)
    by (unfold live in Hl; bool_to_prop; done).
  assert (Hb : forall A (m : IO W A), (ensure_open t;; m) w = m w).
  { intros A m. unfold mbind, IO_mbind. by rewrite ensure_open_spec, Hl. }
  assert (Hreq : forall p f, (response <- request (op_type op) p;; io_lift (f response)) w = (r, w') ->
    p = op_payload t op -> submits (stamped w t op) 1 w w' /\ (is_ok r = true -> sent_by w' <> sent_by w)).
  { intros p f E ->. apply request_then in E as [Hs Hok]. split; [|exact Hok].
    eapply submits_weaken; [exact Hs | | done]. intros s [Hc Hst]. split; [exact Hc|].
    split; [intros Hu; by rewrite Hst, stamp_law | done]. }
  assert (Hrep : forall A p (f : bytes -> Result A) r1, is_replayable op = true ->
    (response <- request_replayable_in_generation (op_type op) p (Some (tx_generation t));; io_lift (f response)) w = (r1, w') ->
    p = op_payload t op -> submits (stamped w t op) (attempts w) w w' /\ (is_ok r1 = true -> sent_by w' <> sent_by w)).
  { intros A p f r1 Hop E ->. apply replay_then in E as [Hs Hok]. split; [|exact Hok].
    eapply submits_weaken; [exact Hs | | done]. intros s [Hc Hst]. split; [exact Hc|]. split; [exact Hst | by rewrite Hop]. }
  destruct op; cbn [run_op is_replayable is_local op_type op_payload] in *;
    unfold get, put, insert, write, delete, delete_range, scan, commit, rollback in Hr.
  - apply drop_value in Hr as (r1 & Hr & ->). rewrite Hb in Hr. eapply Hrep; [done | exact Hr | done].
  - rewrite Hb in Hr. eapply Hreq; [exact Hr | done].
  - rewrite Hb in Hr. eapply Hreq; [exact Hr | done].
  - rewrite Hb in Hr. eapply Hreq; [exact Hr | done].
  - rewrite Hb in Hr. eapply Hreq; [exact Hr | done].
  - apply drop_value in Hr as (r1 & Hr & ->). rewrite Hb, Hloc in Hr. eapply Hrep; [done | exact Hr | done].
  - rewrite Hb in Hr. eapply Hreq; [exact Hr | done].
  - unfold live in Hl. destruct (tx_closed t); [done|]. rewrite Hb in Hr. eapply Hreq; [exact Hr | done].
Qed.

Lemma stale_op t op w : live t w = false ->
  run_op t op w = (if tx_closed t && match op with Rollback => true | _ => false end
                   then Ok tt else Err StaleHandle, w).
Proof.
  intros Hl.
  assert (Hb : forall A (m : IO W A), (ensure_open t;; m) w = (Err StaleHandle, w)).
  { intros A m. unfold mbind, IO_mbind. by rewrite ensure_open_spec, Hl. }
  assert (Hb2 : forall A B (m : IO W A) (k : A -> IO W B),
    (x <- (ensure_open t;; m);; k x) w = (Err StaleHandle, w)).
  { intros A B m k. unfold mbind at 1, IO_mbind at 1. by rewrite Hb. }
  destruct op; cbn [run_op];
    unfold get, put, insert, write, delete, delete_range, scan, commit, rollback;
    rewrite ?Hb2, ?Hb, ?andb_false_r; try done.
  destruct (tx_closed t); [done|]. by rewrite Hb.
Qed.

(** C20: every command a transaction submits carries its id and its route, then
    the arguments of the operation.  It is stamped with the generation the
    transaction holds, as long as no other thread moves the counter between the
    transaction's check and the stamp: the two are separate loads, and a write
    is stamped with what the second one finds.  Reads are
    submitted at most as often as the retry policy allows and writes at most
    once, and no operation succeeds without a command except a scan of an
    empty range.  A transaction of another generation, or a closed one, reports
    a stale handle (a closed one may be rolled back) and submits nothing. *)
Theorem transaction_commands_stamped t op w r w' :
  run_op t op w = (r, w') ->
  (if live t w then
     if is_local op then r = Ok tt /\ w' = w
     else submits (stamped w t op) (if is_replayable op then attempts w else 1) w w'
          /\ (is_ok r = true -> sent_by w' <> sent_by w)
   else w' = w /\ r = if tx_closed t && match op with Rollback => true | _ => false end
                      then Ok tt else Err StaleHandle)
  /\ (blen (tx_route t) <= u32_max -> op_fits op ->
      op_payload t op = be_bytes 8 (transaction_id t) ++ field_bytes (tx_route t) ++ op_arguments op).
Proof.
  intros Hr. split; [|apply op_payload_layout]. destruct (live t w) eqn:Hl.
  - destruct (is_local op) eqn:Hloc; [|by apply live_op].
    destruct op as [| | | | |o| |]; try discriminate Hloc. revert Hr. cbn in Hloc. cbn [run_op]. unfold scan.
    unfold mbind, IO_mbind. rewrite ensure_open_spec, Hl, Hloc. by intros [= <- <-].
  - rewrite stale_op in Hr by done. by injection Hr as <- <-.
Qed.
End Transactions.

Definition sample_tx : KvTransaction :=
  {| tx_generation := 0; transaction_id := 7; tx_route := str "kv://realm/area/users"; tx_closed := false |}.

(** The session is replaced between the check of a write and its stamp. *)
Definition stamp_race : World :=
  {| shared := Shared_new 8; policy := RetryPolicy_default;
     script := [{| x_submission := Accepted; x_before_stamp := set_generation 1; x_during := fun s => s;
                   x_reply := Replied (Ok [Byte.x00]); x_send_reply := TimedOut; x_nap := fun s => s |}];
     log := []; answered := []; cancellations := []; slept := []; nap := fun s => s |}.

(** A transaction of generation 0 passes its check, and its write goes out under
    generation 1, which the session that has it accepts. *)
Theorem stale_write_under_new_generation :
  let '(r, w) := put sample_tx (str "k") (str "v") stamp_race in
  live sample_tx stamp_race = true /\ live sample_tx w = false
  /\ r = Ok tt /\ map sent_generation (log w) = [1]
  /\ map sent_payload (log w) = [be_bytes 8 7 ++ field_bytes (tx_route sample_tx) ++ field_bytes (str "k") ++ field_bytes (str "v")].
Proof. vm_compute. auto. Qed.

(** A write that is answered, the same write under a later generation, and the
    same write when the generation moves after its check. *)
Lemma transaction_commands_stamped_witness :
  let op := Put (str "k") (str "v") in
  let w := answering [Ok [Byte.x00]] in
  let '(r, w') := run_op sample_tx op w in
  let stale := set_shared (set_generation 1 (shared w)) w in
  r = Ok tt /\ live sample_tx w = true /\ live sample_tx stale = false
  /\ run_op sample_tx op stale = (Err StaleHandle, stale)
  /\ undisturbed w /\ stamp_of stamp_race = 1
  /\ submits (stamped w sample_tx op) 1 w w' /\ sent_by w' <> sent_by w.
Proof.
  cbn zeta. destruct (run_op sample_tx (Put (str "k") (str "v")) (answering [Ok [Byte.x00]])) as [r w'] eqn:E.
  assert (Hok : r = Ok tt) by (revert E; vm_compute; by intros [= <- _]).
  split; [exact Hok|]. split; [by vm_compute|]. split; [by vm_compute|]. split; [by vm_compute|].
  split; [by repeat constructor|]. split; [by vm_compute|].
  pose proof (transaction_commands_stamped sample_tx _ _ r w' E) as [Hs _].
  replace (live sample_tx (answering [Ok [Byte.x00]])) with true in Hs by (by vm_compute).
  cbn [is_local is_replayable] in Hs. split; [apply Hs | apply Hs; by rewrite Hok].
Defined.

(** ** Begin *)

(** BEGIN answered under one generation while the session is replaced before
    the caller resumes. *)
Definition begin_race : World :=
  {| shared := Shared_new 8; policy := RetryPolicy_default;
     script := [{| x_submission := Accepted; x_before_stamp := fun s => s; x_during := set_generation 1;
                   x_reply := Replied (Ok (be_bytes 1 0 ++ be_bytes 8 7)); x_send_reply := TimedOut;
                   x_nap := fun s => s |};
                replying (Ok [Byte.x00])];
     log := []; answered := []; cancellations := []; slept := []; nap := fun s => s |}.

(** A transaction is stamped with the generation read after the broker's
    answer, not the one its BEGIN was submitted under: when the session is
    replaced in between, the handle counts as live in the new session, and its
    writes carry the old session's transaction id under the new generation. *)
Theorem begin_adopts_new_generation :
  let route := str "kv://realm/area/users" in
  let '(r, w) := (t <- begin route ReadWrite;; put t (str "k") (str "v");; mret t) begin_race in
  r = Ok {| tx_generation := 1; transaction_id := 7; tx_route := route; tx_closed := false |}
  /\ map sent_type (log w) = [message_type.KV_BEGIN; message_type.KV_PUT]
  /\ map sent_generation (log w) = [0; 1]
  /\ map sent_payload (log w)
     = [field_bytes route ++ be_bytes 1 1;
        be_bytes 8 7 ++ field_bytes route ++ field_bytes (str "k") ++ field_bytes (str "v")].
Proof. vm_compute. auto. Qed.
