(* ===== verification/Queue.v ===== *)
(** * Queue

    [src/src/client_domains/queue.rs]: the Queue client, reserved items and
    their completion protocol, and the subscription stream.

    An item is shared by reference, so several tasks may settle it at once: its
    atomic state is a cell of its own.  [complete], [nack] and [extend] are the
    operations of one task alone; [phase_step] cuts them at their atomic
    accesses, and the item's theorem is about any interleaving of them. *)

From S2P Require Import Prelude Errors Protocol Codec Wire3 Routes Responses Shared Conn Subscriptions.

(** ** Data *)

(** [ttl_hours] is a [NonZeroU32]. *)
Record QueueEnqueueOptions : Set := {
  delay_seconds : option N;
  ttl_hours : option N;
}.

Record QueueItem : Set := {
  item_generation : N;
  item_route : bytes;
  item_id : N;
  item_token : N;
  item_body : bytes;
}.

Record QueueNotification : Set := { qn_route : bytes; qn_payload : bytes }.

Record QueueSubscription : Set := {
  pattern : bytes;
  registration : RestorableRegistration;
  receiver : Inbox;
  closed : bool;
}.

(** ** Responses *)

(** [decode_queue_error(response, _)]: the flag is not used. *)
Definition decode_queue_error (response : bytes) : Result FitzError :=
  match response with
  | b :: tail =>
      if Byte.to_N b =? 1 then run_dec decode_domain_error tail
      else Err (Protocol (str "Queue error response has no error status"))
  | [] => Err (Protocol (str "Queue error response has no error status"))
  end.

(** [Err(decode_queue_error(response, ..)?)]. *)
Definition fail_queue_error {A : Type} (response : bytes) : Dec A :=
  e <- lift_result (decode_queue_error response);; dec_fail e.

(** The decoder it returns is the state of the reader. *)
Definition success_decoder (response operation : bytes) : Dec unit :=
  status <- get_u8;;
  if status =? 0 then mret tt
  else if status =? 1 then fail_queue_error response
  else dec_fail (Protocol (str "Queue " ++ operation ++ str " returned status " ++ dec status)).

Definition decode_queue_plain_ok (response : bytes) : Result unit :=
  run_dec
    (status <- get_u8;;
     fin <- at_end;;
     if (status =? 0) && fin then mret tt
     else if status =? 0 then dec_fail (Protocol (str "Queue response has trailing bytes"))
     else if status =? 1 then fail_queue_error response
     else dec_fail (Protocol (str "Queue operation returned status " ++ dec status))) response.

Definition decode_subscription_id (response : bytes) : Result N :=
  run_dec
    (success_decoder response (str "SUBSCRIBE");;
     tag <- get_u8;;
     if negb (tag =? 1) then dec_fail (Protocol (str "Queue SUBSCRIBE response missing subscription id"))
     else get_u64) response.

Definition decode_queue_notification : Dec QueueNotification :=
  route <- get_string;;
  payload <- get_bytes;;
  fin <- at_end;;
  if negb fin then dec_fail (Protocol (str "Queue NOTIFY response has trailing bytes"))
  else mret {| qn_route := route; qn_payload := payload |}.

Definition is_retryable_enqueue_rejection (response : bytes) : bool :=
  match run_dec (success_decoder response (str "ENQUEUE")) response with
  | Ok _ => false
  | Err error => is_retryable error
  end.

Definition decode_enqueue (response : bytes) : Result N :=
  run_dec
    (success_decoder response (str "ENQUEUE");;
     fin <- at_end;;
     if fin : bool then mret 0 else get_u64) response.

(** One reserved item: under a wildcard route the broker names the route. *)
Definition decode_item (wildcard : bool) (route : bytes) (generation : N) : Dec QueueItem :=
  concrete_route <-
    (if wildcard then
       concrete <- get_string;;
       lift_result (validate_response_fixed_route concrete (str "queue") 3 (str "RESERVE"));;
       mret concrete
     else mret route);;
  id <- get_u64;;
  token <- get_u64;;
  body <- get_bytes;;
  mret {| item_generation := generation; item_route := concrete_route; item_id := id;
          item_token := token; item_body := body |}.

(** [route.split('/').any(|segment| segment.contains('*'))]. *)
Definition is_wildcard (route : bytes) : bool :=
  existsb (fun segment => contains segment star) (split slash route).

Definition decode_reserve (route response : bytes) (generation : N) : Result (list QueueItem) :=
  run_dec
    (success_decoder response (str "RESERVE");;
     fin <- at_end;;
     if fin : bool then mret []
     else
       count <- get_u32;;
       get_list (N.to_nat count) (decode_item (is_wildcard route) route generation)) response.

(** ** Requests *)

(** [.filter(|n| *n > 0)], then a tag and the value. *)
Definition put_positive (value : option N) (e : PayloadEncoder) : PayloadEncoder :=
  match value with
  | Some n => if 0 <? n then e .> put_u8 1 .> put_u64 n else e .> put_u8 0
  | None => e .> put_u8 0
  end.

Definition encode_enqueue (route body : bytes) (delay_seconds : option N) : bytes :=
  finish (PayloadEncoder_new .> put_string route .> put_bytes body .> put_positive delay_seconds).

Definition reserve_payload (route : bytes) (lease_seconds batch_size : N) (wait_seconds : option N) : bytes :=
  finish (PayloadEncoder_new .> put_string route .> put_u64 lease_seconds .> put_u8 1
            .> put_u32 (N.max batch_size 1) .> put_positive wait_seconds).

(** What every command on an item starts with. *)
Definition item_encoder (i : QueueItem) : PayloadEncoder :=
  PayloadEncoder_new .> put_string (item_route i) .> put_u64 (item_id i) .> put_u64 (item_token i).

(** ** The client *)

Section Client.
Context {W : Type} `{BrokerLink W}.

Definition enqueue_with_options (route body : bytes) (options : QueueEnqueueOptions) : IO W N :=
  io_lift (validate_fixed_route route (str "queue") 3);;
  let payload := encode_enqueue route body (delay_seconds options) in
  let* '(payload, flags) :=
    match ttl_hours options with
    | Some ttl =>
        (capable <- io_get (fun w => capability w 1);;
         io_lift capable;;
         payload <- io_lift (Wire3.encode payload [(1, be_bytes 4 ttl)]);;
         mret (payload, EXTENSIONS_PRESENT))
    | None => mret (payload, 0)
    end in
  response <- request_confirmed_negative_with_flags message_type.QUEUE_ENQUEUE payload flags
                is_retryable_enqueue_rejection;;
  io_lift (decode_enqueue response).

Definition enqueue (route body : bytes) (delay_seconds : option N) : IO W N :=
  enqueue_with_options route body {| delay_seconds := delay_seconds; ttl_hours := None |}.

(** Each new item's cell starts at 0. *)
Definition reserve (route : bytes) (lease_seconds batch_size : N) (wait_seconds : option N) :
    IO W (list QueueItem) :=
  io_lift (validate_registration_pattern route (str "queue") 3);;
  response <- request message_type.QUEUE_RESERVE
    (reserve_payload route lease_seconds batch_size wait_seconds);;
  generation <- io_get generation_of;;
  io_lift (decode_reserve route response generation).

Definition subscribe (p : bytes) : IO W QueueSubscription :=
  io_lift (validate_registration_pattern p (str "queue") 3);;
  let payload := finish (PayloadEncoder_new .> put_string p) in
  response <- request message_type.QUEUE_SUBSCRIBE payload;;
  subscription_id <- io_lift (decode_subscription_id response);;
  registration <- io_register {| reg_message_type := message_type.QUEUE_SUBSCRIBE; reg_payload := payload;
                                 reg_decoder := decode_subscription_id |} subscription_id;;
  mret {| pattern := p; registration := registration; receiver := {| events := []; ended := false |};
          closed := false |}.

Definition unsubscribe (s : QueueSubscription) : IO W unit :=
  io_deregister (registration s);;
  response <- request message_type.QUEUE_UNSUBSCRIBE (finish (PayloadEncoder_new .> put_string (pattern s)));;
  io_lift (decode_queue_plain_ok response).

Definition poll_next (s : QueueSubscription) (w : W) : Poll QueueNotification * QueueSubscription :=
  if closed s then (Ready None, s)
  else
    let '(p, i) := poll_inbox (wire_id_of (registration s) w) (AfterId decode_queue_notification)
                     (str "Queue subscription buffer is full") (receiver s) in
    (p, {| pattern := pattern s; registration := registration s; receiver := i; closed := closed s |}).

(** ** Items: one task alone

    The state is the connection and the item's cell. *)

Definition ensure_current (i : QueueItem) : IO (W * N) unit := fun '(w, cell) =>
  (if (generation_of w =? item_generation i) && (cell =? 0) then Ok tt else Err StaleHandle, (w, cell)).

(** [compare_exchange(old, new, ..)] on the cell. *)
Definition compare_exchange (old new cell : N) : Result unit * N :=
  if cell =? old then (Ok tt, new) else (Err StaleHandle, cell).

(** [CompletionGuard::drop]. *)
Definition guard_drop (cell : N) : N := (compare_exchange 1 0 cell).2.

(** The rest of the body runs under the guard, which is dropped when it
    returns. *)
Definition guarded (m : IO (W * N) unit) : IO (W * N) unit := fun st =>
  let '(r, (w, cell)) := m st in (r, (w, guard_drop cell)).

Definition extend_item (i : QueueItem) (lease_seconds : N) : IO (W * N) unit :=
  ensure_current i;;
  response <- on_link (request message_type.QUEUE_EXTEND
                (finish (item_encoder i .> put_u64 lease_seconds)));;
  io_lift (decode_queue_plain_ok response).

Definition settle (mt : N) (payload : bytes) : IO (W * N) unit :=
  on_state (compare_exchange 0 1);;
  guarded
    (response <- on_link (request mt payload);;
     io_lift (decode_queue_plain_ok response);;
     on_state (fun _ => (Ok tt, 2))).

Definition complete (i : QueueItem) : IO (W * N) unit :=
  ensure_current i;;
  settle message_type.QUEUE_COMPLETE (finish (item_encoder i)).

Definition nack (i : QueueItem) (visibility_seconds : N) : IO (W * N) unit :=
  ensure_current i;;
  capable <- on_link (io_get (fun w => capability w 2));;
  io_lift capable;;
  settle message_type.QUEUE_NACK (finish (item_encoder i .> put_u64 visibility_seconds)).
End Client.

(** ** Items: any number of tasks

    A phase is a task's position between two accesses of the cell or the
    connection; only a claimed task awaits a command, and only there can its
    future be dropped between two steps. *)

Inductive Settle : Set := Complete | Nack.

Inductive Phase : Set :=
| Start (op : Settle)
| Checked (op : Settle)
| Claimed (op : Settle)
| Acknowledged
| Finished (r : Result unit)
| Dropped.

(** What a step finds: the connection's state; or the end of the wait, by the
    broker's answer, by an error of the connection that leaves the command
    without one (a timeout, a lost session), or by the future's drop. *)
Inductive Input : Set :=
| Run (current : bool) (capable : Result unit)
| Answer (r : Result unit)
| GiveUp (error : FitzError)
| Drop.

(** One step of a task: its next phase and the cell. *)
Definition phase_step (i : Input) (p : Phase) (cell : N) : Phase * N :=
  match p, i with
  | Start op, Run current _ =>
      (if current && (cell =? 0) then Checked op else Finished (Err StaleHandle), cell)
  | Start _, Drop => (Dropped, cell)
  | Checked op, Run _ capable =>
      match op, capable with
      | Nack, Err e => (Finished (Err e), cell)
      | _, _ =>
          match compare_exchange 0 1 cell with
          | (Ok _, cell) => (Claimed op, cell)
          | (Err e, cell) => (Finished (Err e), cell)
          end
      end
  | Claimed _, Answer (Ok _) => (Acknowledged, 2)
  | Claimed _, Answer (Err e) => (Finished (Err e), guard_drop cell)
  | Claimed _, GiveUp e => (Finished (Err e), guard_drop cell)
  | Claimed _, Drop => (Dropped, guard_drop cell)
  | Acknowledged, Run _ _ => (Finished (Ok tt), guard_drop cell)
  | _, _ => (p, cell)
  end.

(** The tasks that share an item and its cell; how many commands they handed to
    the connection, how many of these the broker answered, and of how many the
    caller stopped waiting before: such a command may still be queued, written or
    carried out. *)
Record Tasks : Type := { phases : list Phase; cell : N; commands : N; replied : N; abandoned : N }.

Definition claims (p p' : Phase) : bool :=
  match p, p' with Checked _, Claimed _ => true | _, _ => false end.
Definition answers (p : Phase) (i : Input) : bool :=
  match p, i with Claimed _, Answer _ => true | _, _ => false end.
Definition abandons (p : Phase) (i : Input) : bool :=
  match p, i with Claimed _, (GiveUp _ | Drop) => true | _, _ => false end.

(** Task [k] makes a step. *)
Definition tasks_step (s : Tasks) (step : nat * Input) : Tasks :=
  match phases s !! fst step with
  | Some p =>
      let '(p', c) := phase_step (snd step) p (cell s) in
      {| phases := <[fst step := p']> (phases s); cell := c;
         commands := commands s + N.b2n (claims p p');
         replied := replied s + N.b2n (answers p (snd step));
         abandoned := abandoned s + N.b2n (abandons p (snd step)) |}
  | None => s
  end.

Definition run_tasks (steps : list (nat * Input)) (s : Tasks) : Tasks := fold_left tasks_step steps s.

(** [ops] settle a fresh item. *)
Definition fresh_item (ops : list Settle) : Tasks :=
  {| phases := map Start ops; cell := 0; commands := 0; replied := 0; abandoned := 0 |}.

Definition awaiting (p : Phase) : bool := match p with Claimed _ => true | _ => false end.
Definition acknowledged (p : Phase) : bool :=
  match p with Acknowledged | Finished (Ok _) => true | _ => false end.
Definition count (f : Phase -> bool) (l : list Phase) : N := blen (List.filter f l).

(** The cell says what the tasks do: 0, none is waiting and none was
    acknowledged; 1, one is waiting; 2, one was acknowledged. *)
Definition cell_ok (s : Tasks) : Prop :=
  (cell s = 0 /\ count awaiting (phases s) = 0 /\ count acknowledged (phases s) = 0)
  \/ (cell s = 1 /\ count awaiting (phases s) = 1 /\ count acknowledged (phases s) = 0)
  \/ (cell s = 2 /\ count awaiting (phases s) = 0 /\ count acknowledged (phases s) = 1).

Lemma count_insert f l k p p' :
  l !! k = Some p ->
  count f (<[k := p']> l) + N.b2n (f p) = count f l + N.b2n (f p').
Proof.
  unfold count. revert k. induction l as [|q l IH]; intros [|k] Hk; try discriminate Hk.
  - injection Hk as ->. cbn [insert list_insert List.filter].
    destruct (f p), (f p'); rewrite ?blen_cons; cbn [N.b2n]; lia.
  - specialize (IH k Hk). change (<[S k:=p']> (q :: l)) with (q :: <[k:=p']> l). cbn [List.filter].
    destruct (f q); rewrite ?blen_cons; lia.
Qed.

Lemma count_all f l : (forall p, p ∈ l -> f p = false) -> count f l = 0.
Proof.
  unfold count. induction l as [|q l IH]; intros Hl; [done|]. cbn. rewrite (Hl q) by apply list_elem_of_here.
  apply IH. intros p Hp. apply Hl. by apply list_elem_of_further.
Qed.

Lemma cell_ok_fresh ops : cell_ok (fresh_item ops).
Proof.
  left. split; [done|]. split; apply count_all; intros p (op & -> & _)%list_elem_of_fmap; done.
Qed.

Lemma count_positive f l k p : l !! k = Some p -> f p = true -> 1 <= count f l.
Proof.
  intros Hk Hf. pose proof (count_insert f l k p Dropped Hk) as H. rewrite Hf in H. cbn [N.b2n] in H.
  unfold count in *. destruct (f Dropped); cbn [N.b2n] in H; [|lia]. 
  assert (Hin : p ∈ List.filter f l).
  { apply list_elem_of_In, filter_In. split; [|done]. apply list_elem_of_In. by eapply list_elem_of_lookup_2. }
  destruct (List.filter f l); [by apply not_elem_of_nil in Hin|]. rewrite blen_cons. lia.
Qed.

Lemma cell_ok_step s step : cell_ok s -> cell_ok (tasks_step s step).
Proof.
  intros Hs. unfold tasks_step. destruct (phases s !! step.1) as [p|] eqn:Hk; [|done].
  destruct (phase_step step.2 p (cell s)) as [p' c] eqn:E. unfold cell_ok. cbn [phases cell].
  pose proof (count_insert awaiting _ _ _ p' Hk) as H1.
  pose proof (count_insert acknowledged _ _ _ p' Hk) as H2.
  pose proof (count_positive awaiting _ _ _ Hk) as H3.
  pose proof (count_positive acknowledged _ _ _ Hk) as H4.
  unfold phase_step, guard_drop, compare_exchange in E.
  destruct Hs as [(Hc & Hi & Ha)|[(Hc & Hi & Ha)|(Hc & Hi & Ha)]]; rewrite Hc in E;
    destruct p as [[]|[]|[]| |[[]|]|], step.2 as [[] [[]|]|[[]|]|?|]; cbn in E; injection E as <- <-;
    cbn in H1, H2, H3, H4; try (specialize (H3 eq_refl)); try (specialize (H4 eq_refl)); lia.
Qed.

Lemma cell_ok_run steps : forall s, cell_ok s -> cell_ok (run_tasks steps s).
Proof. induction steps as [|st steps IH]; intros s Hs; [done|]. by apply IH, cell_ok_step. Qed.

Lemma settled_step s step : cell_ok s -> cell s = 2 ->
  cell (tasks_step s step) = 2 /\ commands (tasks_step s step) = commands s.
Proof.
  intros Hs Hc. pose proof (cell_ok_step s step Hs) as Hs'. revert Hs'. unfold tasks_step.
  destruct (phases s !! step.1) as [p|] eqn:Hk; [|done].
  pose proof (count_positive awaiting _ _ _ Hk) as H3.
  destruct Hs as [(? & _)|[(? & _)|(_ & Hi & _)]]; try congruence. rewrite Hi in H3.
  unfold phase_step, guard_drop, compare_exchange. rewrite Hc.
  destruct p as [[]|[]|[]| |[[]|]|], step.2 as [[] [[]|]|[[]|]|?|]; cbn in *;
    try (specialize (H3 eq_refl)); intros _; lia.
Qed.

Lemma settled_run steps : forall s, cell_ok s -> cell s = 2 ->
  cell (run_tasks steps s) = 2 /\ commands (run_tasks steps s) = commands s.
Proof.
  induction steps as [|st steps IH]; intros s Hs Hc; [done|].
  destruct (settled_step s st Hs Hc) as [Hc' Hn]. destruct (IH _ (cell_ok_step s st Hs) Hc') as [? Hn'].
  split; [done|]. change (run_tasks (st :: steps) s) with (run_tasks steps (tasks_step s st)). by rewrite Hn', Hn.
Qed.

(** Every command is awaited, answered or abandoned. *)
Lemma commands_accounted steps : forall s,
  commands s = count awaiting (phases s) + replied s + abandoned s ->
  let s' := run_tasks steps s in commands s' = count awaiting (phases s') + replied s' + abandoned s'.
Proof.
  induction steps as [|[k i] steps IH]; intros s Hs; [exact Hs|]. cbn zeta. apply (IH (tasks_step s (k, i))).
  unfold tasks_step. destruct (phases s !! (k, i).1) as [p|] eqn:Hk; [|done].
  destruct (phase_step (k, i).2 p (cell s)) as [p' c] eqn:E. cbn [phases commands replied abandoned].
  pose proof (count_insert awaiting _ _ _ p' Hk) as H1. cbn [fst snd] in *.
  unfold phase_step, compare_exchange in E.
  destruct p as [[]|[]|[]| |[[]|]|], i as [[] [[]|]|[[]|]|?|], (cell s =? 0); cbn in E; injection E as <- <-; cbn in *; lia.
Qed.



(** ** One task alone *)

Inductive ItemOp : Set :=
| OpComplete
| OpNack (visibility_seconds : N)
| OpExtend (lease_seconds : N).

Definition item_type (op : ItemOp) : N :=
  match op with
  | OpComplete => message_type.QUEUE_COMPLETE
  | OpNack _ => message_type.QUEUE_NACK
  | OpExtend _ => message_type.QUEUE_EXTEND
  end.
Definition item_argument (op : ItemOp) : bytes :=
  match op with OpComplete => [] | OpNack n | OpExtend n => be_bytes 8 n end.
Definition item_payload (i : QueueItem) (op : ItemOp) : bytes :=
  enc_buf (item_encoder i) ++ item_argument op.

Section Items.
Context {W : Type} `{LinkLaws W}.

Definition run_item (i : QueueItem) (op : ItemOp) : IO (W * N) unit :=
  match op with
  | OpComplete => complete i
  | OpNack n => nack i n
  | OpExtend n => extend_item i n
  end.

(** [NACK] needs its capability. *)
Definition admitted (i : QueueItem) (op : ItemOp) (w : W) (c : N) : Result unit :=
  if (generation_of w =? item_generation i) && (c =? 0)
  then match op with OpNack _ => capability w 2 | _ => Ok tt end
  else Err StaleHandle.

(** The cell after an operation on an open item. *)
Definition settled_cell (op : ItemOp) (r : Result unit) : N :=
  match op with OpExtend _ => 0 | _ => if is_ok r then 2 else 0 end.

Lemma run_item_admitted i op w : admitted i op w 0 = Ok tt ->
  run_item i op (w, 0) =
    let '(r, w') := (response <- request (item_type op) (item_payload i op);;
                     io_lift (decode_queue_plain_ok response)) w in
    (r, (w', settled_cell op r)).
Proof.
  intros Ha. unfold admitted in Ha. destruct (_ && _) eqn:Hc; [|done].
  destruct op as [|n|n]; cbn [run_item item_type item_payload item_argument];
    unfold complete, nack, extend_item, settle, ensure_current, guarded, on_link, on_state,
      io_lift, io_get, mbind, IO_mbind, item_payload, item_argument, finish; rewrite ?Hc, ?Ha, ?app_nil_r; cbn;
    destruct (request _ _ w) as [[response|e] w1]; try done;
    by destruct (decode_queue_plain_ok response) as [[]|].
Qed.

Lemma run_item_refused i op w c e : admitted i op w c = Err e -> run_item i op (w, c) = (Err e, (w, c)).
Proof.
  unfold admitted. intros Ha.
  destruct op as [|n|n]; cbn [run_item];
    unfold complete, nack, extend_item, ensure_current, on_link, io_lift, io_get, mbind, IO_mbind;
    destruct (_ && _); try (by injection Ha as <-); try discriminate Ha. by rewrite Ha.
Qed.
End Items.

(** A single task runs the phases above, whatever the answer. *)
Definition phases_of (op : ItemOp) : option Settle :=
  match op with OpComplete => Some Complete | OpNack _ => Some Nack | OpExtend _ => None end.

Lemma run_phases op (r : Result unit) :
  run_tasks [(0%nat, Run true (Ok tt)); (0%nat, Run true (Ok tt)); (0%nat, Answer r);
             (0%nat, Run true (Ok tt))] (fresh_item [op])
  = {| phases := [Finished r]; cell := if is_ok r then 2 else 0; commands := 1; replied := 1; abandoned := 0 |}.
Proof. by destruct op, r as [[]|]. Qed.

Lemma item_payload_layout i op :
  blen (item_route i) <= u32_max ->
  item_payload i op = Codec.field_bytes (item_route i) ++ be_bytes 8 (item_id i) ++ be_bytes 8 (item_token i) ++ item_argument op.
Proof.
  intros Hr. unfold item_payload, item_encoder. cbn [put_u64 Codec.extend enc_buf]. rewrite put_string_buf by done.
  unfold Codec.field_bytes. by rewrite <- !app_assoc.
Qed.


Definition sample_item : QueueItem :=
  {| item_generation := 0; item_route := str "queue://realm/area/jobs"; item_id := 4; item_token := 9;
     item_body := str "b" |}.


(** ** Enqueue *)

Lemma retryable_rejection response :
  is_retryable_enqueue_rejection response = true ->
  exists code class message, envelope_ok code class 0 message
    /\ response = Byte.x01 :: error_envelope code class 0 message
    /\ is_retryable (DomainWire code class 0 message) = true.
Proof.
  unfold is_retryable_enqueue_rejection, success_decoder, run_dec, mbind, Dec_mbind.
  pose proof (get_u8_cases _ (new_wf response)) as Hu. rewrite new_rest in Hu.
  destruct response as [|b tail]; [by rewrite Hu|]. destruct Hu as (-> & _ & _).
  destruct (Byte.to_N b =? 0); [done|]. destruct (N.eqb_spec (Byte.to_N b) 1) as [Hb|]; [|done].
  apply (byte_to_N_inj b Byte.x01) in Hb as ->.
  unfold fail_queue_error, mbind, Dec_mbind, lift_result, decode_queue_error. cbn [Byte.to_N N.eqb Pos.eqb].
  destruct (run_dec decode_domain_error tail) as [e|e] eqn:E; cbn; intros Hr.
  - unfold run_dec in E. destruct (decode_domain_error _) as [[e' d]|] eqn:Ed; [|done]. injection E as ->.
    apply decode_domain_error_spec in Ed as (code & class & effect & message & Hok & Ht & -> & _); [|apply new_wf].
    rewrite new_rest in Ht. pose proof (retryable_domain_no_effect _ _ _ _ Hr) as ->.
    exists code, class, message. split; [done|]. split; [by rewrite Ht | done].
  - apply perr_run in E; [|apply perr_domain_error]. by apply retryable_not_protocol in Hr.
Qed.

(** C15: whatever the broker and the network do, an enqueue submits one and the
    same command every time, at most [maximum_attempts] times, and submits it
    again only after the broker answered with a complete error envelope whose
    effect says that the message was not accepted: a lost or a malformed answer
    is never retried, so no message is enqueued twice. *)
Theorem enqueue_resubmits_only_rejected route body options w r w' :
  enqueue_with_options route body options w = (r, w') ->
  exists ss rs fl payload,
    log w' = log w ++ ss /\ answered w' = answered w ++ rs /\ length ss = length rs
    /\ Forall (is_command true message_type.QUEUE_ENQUEUE fl payload) ss
    /\ blen ss <= attempts_of (policy w)
    /\ Forall (fun a => exists code class message,
           a = Replied (Ok (Byte.x01 :: error_envelope code class 0 message))
           /\ envelope_ok code class 0 message
           /\ is_retryable (DomainWire code class 0 message) = true) (removelast rs).
Proof.
  assert (Hnone : forall e : FitzError, (Err e, w) = (r, w') -> exists ss rs fl payload,
    log w' = log w ++ ss /\ answered w' = answered w ++ rs /\ length ss = length rs
    /\ Forall (is_command true message_type.QUEUE_ENQUEUE fl payload) ss
    /\ blen ss <= attempts_of (policy w)
    /\ Forall (fun a => exists code class message,
           a = Replied (Ok (Byte.x01 :: error_envelope code class 0 message))
           /\ envelope_ok code class 0 message
           /\ is_retryable (DomainWire code class 0 message) = true) (removelast rs)).
  { intros e [= <- <-]. exists [], [], 0, []. rewrite !app_nil_r. repeat split; try constructor; apply N.le_0_l. }
  intros E. unfold enqueue_with_options in E.
  apply io_bind_inv in E as [(? & w1 & [= _ <-] & E)|(e & [= _ <-] & ->)]; [|by apply (Hnone e)].
  apply io_bind_inv in E as [([payload fl] & w1 & Ew & E)|(e & Ew & ->)].
  - assert (w1 = w) as ->.
    { destruct (ttl_hours options); [|by injection Ew].
      unfold io_get, io_lift, mbind, IO_mbind in Ew. destruct (capability w 1); [|done].
      by destruct (Wire3.encode _ _); injection Ew. }
    apply io_bind_inv in E as [(response & w2 & E & [= _ <-])|(e & E & _)];
      pose proof E as E'; apply confirmed_loop_answered in E' as (ss & rs & Hss & Hrs & Hlen & Hf & _);
      apply confirmed_loop_spec in E as (_ & (ss' & Hss' & Hc & Hn) & _);
      cbn in Hss'; rewrite Hss in Hss'; apply app_inv_head in Hss' as <-; rewrite N2Nat.id in Hn;
      exists ss, rs, fl, payload; (do 5 (split; [done|]));
      (eapply Forall_impl; [exact Hf|]); intros a (response' & -> & Hr);
      apply retryable_rejection in Hr as (code & class & message & ? & -> & ?); by exists code, class, message.
  - apply (Hnone e). f_equal. destruct (ttl_hours options); [|done].
    unfold io_get, io_lift, mbind, IO_mbind in Ew. destruct (capability w 1); [|by injection Ew].
    by destruct (Wire3.encode _ _); injection Ew.
Qed.

(** A confirmed capacity rejection, then an acceptance. *)
Lemma enqueue_resubmits_only_rejected_witness :
  let w := answering [Ok (Byte.x01 :: error_envelope 4005 5 0 (str "full")); Ok [Byte.x00]] in
  let route := str "queue://realm/area/jobs" in
  let '(r, w') := enqueue_with_options route (str "b") {| delay_seconds := None; ttl_hours := None |} w in
  r = Ok 0 /\ blen (log w') = 2 /\ slept w' = [millis 100]
  /\ exists ss rs fl payload,
    log w' = log w ++ ss /\ answered w' = answered w ++ rs /\ length ss = length rs
    /\ Forall (is_command true message_type.QUEUE_ENQUEUE fl payload) ss
    /\ blen ss <= attempts_of (policy w)
    /\ Forall (fun a => exists code class message,
           a = Replied (Ok (Byte.x01 :: error_envelope code class 0 message))
           /\ envelope_ok code class 0 message
           /\ is_retryable (DomainWire code class 0 message) = true) (removelast rs).
Proof.
  cbn zeta.
  destruct (enqueue_with_options (str "queue://realm/area/jobs") (str "b")
    {| delay_seconds := None; ttl_hours := None |}
    (answering [Ok (Byte.x01 :: error_envelope 4005 5 0 (str "full")); Ok [Byte.x00]])) as [r w'] eqn:E.
  split; [revert E; vm_compute; by intros [= <- _]|].
  split; [revert E; vm_compute; by intros [= _ <-]|].
  split; [revert E; vm_compute; by intros [= _ <-]|].
  exact (enqueue_resubmits_only_rejected _ _ _ _ r w' E).
Defined.
