(* ===== verification/SharedSubs.v ===== *)
(** * SharedSubs

    The reference-counted wire subscriptions that the Schedule and Stream
    clients keep ([subscribe] and [unsubscribe] of
    [src/src/client_domains/schedule.rs] and [stream.rs]): handles with one
    pattern share one registration with the broker.

    The map is held under an asynchronous mutex across the whole operation, so
    an operation is one step of the map; [Traces] runs any sequence of them. *)

From S2P Require Import Prelude Errors Codec Shared Conn.

Record SharedSub : Set := { shared_registration : RestorableRegistration; references : N }.

Abbreviation Subs := (gmap bytes SharedSub).

(** A subscription handle, as far as its registration goes. *)
Record Handle : Set := { handle_pattern : bytes; handle_registration : RestorableRegistration }.

(** What differs between the domains. *)
Record Domain : Type := {
  validate : bytes -> Result unit;
  subscribe_type : N;
  unsubscribe_type : N;
  decode_id : bytes -> Result N;
  decode_unsubscribed : bytes -> Result unit;
}.

Section Operations.
Context {W : Type} `{BrokerLink W}.

Definition pattern_payload (pattern : bytes) : bytes := finish (PayloadEncoder_new .> put_string pattern).

Definition get_subs : IO (W * Subs) Subs := on_state (fun subs => (Ok subs, subs)).
Definition set_subs (f : Subs -> Subs) : IO (W * Subs) unit := on_state (fun subs => (Ok tt, f subs)).

(** [shared.references += n] and [-= n]. *)
Definition set_references (n : N) (s : SharedSub) : SharedSub :=
  {| shared_registration := shared_registration s; references := n |}.

Definition shared_subscribe (d : Domain) (pattern : bytes) : IO (W * Subs) Handle :=
  io_lift (validate d pattern);;
  subs <- get_subs;;
  registration <-
    match subs !! pattern with
    | Some shared =>
        (set_subs <[pattern := set_references (references shared + 1) shared]>;;
         mret (shared_registration shared))
    | None =>
        (response <- on_link (request (subscribe_type d) (pattern_payload pattern));;
         subscription_id <- io_lift (decode_id d response);;
         registration <- on_link (io_register {| reg_message_type := subscribe_type d;
                                                 reg_payload := pattern_payload pattern;
                                                 reg_decoder := decode_id d |} subscription_id);;
         set_subs <[pattern := {| shared_registration := registration; references := 1 |}]>;;
         mret registration)
    end;;
  mret {| handle_pattern := pattern; handle_registration := registration |}.

Definition shared_unsubscribe (d : Domain) (h : Handle) : IO (W * Subs) unit :=
  subs <- get_subs;;
  match subs !! handle_pattern h with
  | None => mret tt
  | Some shared =>
      if 1 <? references shared
      then set_subs <[handle_pattern h := set_references (references shared - 1) shared]>
      else
        (response <- on_link (request (unsubscribe_type d) (pattern_payload (handle_pattern h)));;
         io_lift (decode_unsubscribed d response);;
         on_link (io_deregister (handle_registration h));;
         set_subs (base.delete (handle_pattern h)))
  end.
End Operations.

(** ** Traces *)

Section Traces.
Context {W : Type} `{LinkLaws W} (d : Domain).

Inductive SubOp : Set :=
| Subscribe (pattern : bytes)
| Unsubscribe (k : nat).

(** The client and the handles its user holds; [uncertain]: the patterns whose
    last UNSUBSCRIBE failed, so that the broker may have taken it or not. *)
Record Holder : Type := {
  client_link : W;
  client_subs : Subs;
  handles : list Handle;
  uncertain : list bytes;
}.

Definition new_holder (w : W) : Holder :=
  {| client_link := w; client_subs := ∅; handles := []; uncertain := [] |}.

(** Outcome [r] of an unsubscription of [p] that leaves the map [subs]. *)
Definition note_outcome (p : bytes) (r : Result unit) (subs : Subs) (u : list bytes) : list bytes :=
  match r, subs !! p with
  | Err _, _ => p :: u
  | Ok _, None => List.filter (fun q => negb (bytes_eqb q p)) u
  | Ok _, Some _ => u
  end.

Definition client_step (c : Holder) (op : SubOp) : Holder :=
  match op with
  | Subscribe pattern =>
      let '(r, (w, subs)) := shared_subscribe d pattern (client_link c, client_subs c) in
      {| client_link := w; client_subs := subs;
         handles := match r with Ok h => handles c ++ [h] | Err _ => handles c end; uncertain := uncertain c |}
  | Unsubscribe k =>
      match handles c !! k with
      | None => c
      | Some h =>
          (* the handle is consumed, whatever the outcome *)
          let '(r, (w, subs)) := shared_unsubscribe d h (client_link c, client_subs c) in
          {| client_link := w; client_subs := subs; handles := base.delete k (handles c);
             uncertain := note_outcome (handle_pattern h) r subs (uncertain c) |}
      end
  end.

Definition client_run (ops : list SubOp) (c : Holder) : Holder := fold_left client_step ops c.

Definition with_pattern (p : bytes) (h : Handle) : bool := bytes_eqb (handle_pattern h) p.
Definition held (p : bytes) (hs : list Handle) : N := blen (List.filter (with_pattern p) hs).

(** Every pattern is counted at least as often as it is held, and every handle
    has the registration of its pattern. *)
Definition counted (c : Holder) : Prop :=
  (forall p, match client_subs c !! p with
             | Some shared => held p (handles c) <= references shared
             | None => held p (handles c) = 0
             end)
  /\ Forall (fun h => exists shared, client_subs c !! handle_pattern h = Some shared
                       /\ handle_registration h = shared_registration shared) (handles c).

Lemma held_app p a b : held p (a ++ b) = held p a + held p b.
Proof. unfold held. by rewrite List.filter_app, blen_app. Qed.

Lemma held_one p h : held p [h] = if with_pattern p h then 1 else 0.
Proof. unfold held. cbn. by destruct (with_pattern p h). Qed.

Lemma held_delete p k h hs : hs !! k = Some h ->
  held p (base.delete k hs) + (if with_pattern p h then 1 else 0) = held p hs.
Proof.
  intros Hk. rewrite delete_take_drop.
  rewrite <- (take_drop_middle hs k h Hk) at 3. change (h :: drop (S k) hs) with ([h] ++ drop (S k) hs).
  rewrite !held_app, held_one. lia.
Qed.

Lemma held_zero p hs : held p hs = 0 -> Forall (fun h => handle_pattern h <> p) hs.
Proof.
  intros Hz. apply blen_zero in Hz. apply Forall_forall. intros h Hh Hp.
  assert (Hin : h ∈ List.filter (with_pattern p) hs).
  { apply list_elem_of_In, filter_In. split; [by apply list_elem_of_In|].
    unfold with_pattern. rewrite Hp. apply bytes_eqb_refl. }
  rewrite Hz in Hin. by apply not_elem_of_nil in Hin.
Qed.

Lemma Forall_delete {A} (P : A -> Prop) k l : Forall P l -> Forall P (base.delete k l).
Proof. intros Hl. rewrite delete_take_drop. apply Forall_app. split; [by apply Forall_take | by apply Forall_drop]. Qed.

(** Commands about a pattern, and the last one among [ss]. *)
Definition subscribes (p : bytes) (s : Sent) : Prop :=
  sent_type s = subscribe_type d /\ sent_payload s = pattern_payload p.
Definition unsubscribes (p : bytes) (s : Sent) : Prop :=
  sent_type s = unsubscribe_type d /\ sent_payload s = pattern_payload p.

Definition about (p : bytes) (s : Sent) : bool :=
  bytes_eqb (sent_payload s) (pattern_payload p)
  && ((sent_type s =? subscribe_type d) || (sent_type s =? unsubscribe_type d)).
Definition last_about (p : bytes) (ss : list Sent) : option N :=
  option_map sent_type (last (List.filter (about p) ss)).

(** What [shared_subscribe] and [shared_unsubscribe] do to the map, and what
    they submit. *)
Definition submitted (P : Sent -> Prop) (w w' : W) : Prop :=
  exists ss, sent_by w' = sent_by w ++ ss /\ Forall P ss.

Lemma request_submitted mt payload w r w' :
  request mt payload w = (r, w') ->
  exists ss, sent_by w' = sent_by w ++ ss
    /\ Forall (fun s => sent_type s = mt /\ sent_payload s = payload) ss /\ (is_ok r = true -> ss <> []).
Proof.
  intros E. apply request_law in E as [(ss & Hs & Hf & _) Hok]. exists ss. split; [done|]. split.
  - eapply Forall_impl; [exact Hf|]. by intros s [(_ & Ht & _ & Hp) _].
  - intros Hr ->. rewrite app_nil_r in Hs. by apply Hok.
Qed.

Lemma shared_subscribe_cases p w subs r w' subs' :
  shared_subscribe d p (w, subs) = (r, (w', subs')) ->
  (exists h shared, r = Ok h /\ handle_pattern h = p
     /\ handle_registration h = shared_registration shared /\ subs' = <[p := shared]> subs
     /\ match subs !! p with
        | Some old => shared = set_references (references old + 1) old /\ w' = w
        | None => references shared = 1 /\
            exists ss, sent_by w' = sent_by w ++ ss /\ Forall (subscribes p) ss /\ ss <> []
        end)
  \/ (is_ok r = false /\ subs' = subs /\ submitted (subscribes p) w w' /\ (w' = w \/ subs !! p = None)).
Proof.
  unfold shared_subscribe, get_subs, set_subs, on_state, on_link, io_lift, io_register, mbind, IO_mbind, mret, IO_mret.
  assert (Hnone : submitted (subscribes p) w w) by (exists []; by rewrite app_nil_r).
  destruct (validate d p); [|intros [= <- <- <-]; right; auto].
  destruct (subs !! p) as [old|].
  - intros [= <- <- <-]. left. eexists _, (set_references (references old + 1) old). repeat split.
  - destruct (request _ _ w) as [r1 w1] eqn:Er. apply request_submitted in Er as (ss & Hs & Hf & Hne).
    assert (Hsome : submitted (subscribes p) w w1) by (by exists ss).
    destruct r1 as [response|e]; [|intros [= <- <- <-]; right; auto].
    destruct (decode_id d response); [|intros [= <- <- <-]; right; auto].
    destruct (register _ _ w1) as [reg w2] eqn:Ereg. apply register_law in Ereg as (Hsent & _).
    intros [= <- <- <-]. left.
    eexists _, {| shared_registration := reg; references := 1 |}. do 5 (split; [done|]).
    exists ss. rewrite Hsent. split; [done|]. split; [done|]. by apply Hne.
Qed.

Lemma shared_unsubscribe_cases h w subs r w' subs' :
  shared_unsubscribe d h (w, subs) = (r, (w', subs')) ->
  match subs !! handle_pattern h with
  | None => subs' = subs /\ w' = w /\ r = Ok tt
  | Some shared =>
      if 1 <? references shared
      then subs' = <[handle_pattern h := set_references (references shared - 1) shared]> subs /\ w' = w /\ r = Ok tt
      else submitted (unsubscribes (handle_pattern h)) w w'
           /\ ((subs' = subs /\ is_ok r = false) \/ (subs' = base.delete (handle_pattern h) subs /\ r = Ok tt))
  end.
Proof.
  unfold shared_unsubscribe, get_subs, set_subs, on_state, on_link, io_lift, io_deregister, mbind, IO_mbind, mret, IO_mret.
  destruct (subs !! handle_pattern h) as [shared|]; [|by intros [= <- <- <-]].
  destruct (1 <? references shared); [by intros [= <- <- <-]|].
  destruct (request _ _ w) as [r1 w1] eqn:Er. apply request_submitted in Er as (ss & Hs & Hf & _).
  assert (Hsome : submitted (unsubscribes (handle_pattern h)) w w1) by (by exists ss).
  destruct r1 as [response|e]; [|intros [= <- <- <-]; auto].
  destruct (decode_unsubscribed d response); [|intros [= <- <- <-]; auto].
  destruct (deregister _ w1) as [reg w2] eqn:Ed. apply deregister_law in Ed as (Hsent & _).
  intros [= <- <- <-]. split; [|by right]. unfold submitted. by rewrite Hsent.
Qed.

Lemma counted_subscribe c p : counted c -> counted (client_step c (Subscribe p)).
Proof.
  intros [Hn Hh]. cbn [client_step]. destruct (shared_subscribe d p _) as [r [w' subs']] eqn:E.
  apply shared_subscribe_cases in E as [(h & shared & -> & Hp & Hreg & -> & Hc)|(Hr & -> & _)]; [|by destruct r].
  split; cbn [client_subs handles].
  - intros q. rewrite held_app, held_one. unfold with_pattern. rewrite Hp. specialize (Hn q).
    destruct (bytes_eqb_spec p q) as [->|Hne].
    + rewrite lookup_insert_eq. destruct (client_subs c !! q); destruct Hc as [Hc _]; [rewrite Hc; cbn|]; lia.
    + rewrite lookup_insert_ne by done. destruct (client_subs c !! q); lia.
  - apply Forall_app. split.
    + eapply Forall_impl; [exact Hh|]. intros g (old & Hg & Hr). cbn [client_subs].
      destruct (decide (handle_pattern g = p)) as [<-|Hne].
      * rewrite Hg in Hc. destruct Hc as [-> _]. eexists. rewrite lookup_insert_eq. done.
      * exists old. by rewrite lookup_insert_ne.
    + apply Forall_singleton. exists shared. by rewrite Hp, lookup_insert_eq.
Qed.

(** A handle goes; the map keeps its entry, counts it down, or, when the handle
    was the only one of its pattern, loses it. *)
Lemma counted_delete c w k u :
  counted c ->
  counted {| client_link := w; client_subs := client_subs c; handles := base.delete k (handles c); uncertain := u |}.
Proof.
  intros [Hn Hh]. split; [|by apply Forall_delete]. intros p. cbn [client_subs handles]. specialize (Hn p).
  destruct (handles c !! k) as [h|] eqn:Hk.
  - pose proof (held_delete p k h _ Hk). destruct (client_subs c !! p), (with_pattern p h); lia.
  - rewrite delete_take_drop, drop_ge, app_nil_r by (apply lookup_ge_None in Hk; lia).
    rewrite take_ge by (by apply lookup_ge_None). exact Hn.
Qed.

Lemma counted_down c w k u h shared :
  counted c -> handles c !! k = Some h -> client_subs c !! handle_pattern h = Some shared ->
  counted {| client_link := w; handles := base.delete k (handles c); uncertain := u;
             client_subs := <[handle_pattern h := set_references (references shared - 1) shared]> (client_subs c) |}.
Proof.
  intros Hc Hk Hs. destruct (counted_delete c w k u Hc) as [Hd Hh]. destruct Hc as [Hn _].
  cbn [client_subs handles] in *. split; cbn [client_subs handles].
  - intros q. destruct (decide (handle_pattern h = q)) as [<-|Hne].
    + rewrite lookup_insert_eq. cbn. specialize (Hn (handle_pattern h)). rewrite Hs in Hn.
      pose proof (held_delete (handle_pattern h) k h _ Hk) as Hone. unfold with_pattern in Hone.
      rewrite bytes_eqb_refl in Hone. lia.
    + rewrite lookup_insert_ne by done. apply Hd.
  - eapply Forall_impl; [exact Hh|]. intros g (old & Hg & Hr).
    destruct (decide (handle_pattern g = handle_pattern h)) as [Heq|Hne].
    + rewrite Heq in *. rewrite Hs in Hg. injection Hg as <-. eexists. by rewrite lookup_insert_eq.
    + exists old. by rewrite lookup_insert_ne.
Qed.

Lemma counted_last c w k u h shared :
  counted c -> handles c !! k = Some h -> client_subs c !! handle_pattern h = Some shared -> references shared <= 1 ->
  counted {| client_link := w; handles := base.delete k (handles c); uncertain := u;
             client_subs := base.delete (handle_pattern h) (client_subs c) |}.
Proof.
  intros Hc Hk Hs Hle. destruct (counted_delete c w k u Hc) as [Hd Hh]. destruct Hc as [Hn _].
  cbn [client_subs handles] in *. specialize (Hn (handle_pattern h)). rewrite Hs in Hn.
  pose proof (held_delete (handle_pattern h) k h _ Hk) as Hone. unfold with_pattern in Hone.
  rewrite bytes_eqb_refl in Hone.
  assert (Hz : held (handle_pattern h) (base.delete k (handles c)) = 0) by lia.
  split; cbn [client_subs handles].
  - intros q. destruct (decide (handle_pattern h = q)) as [<-|Hne]; [by rewrite lookup_delete_eq|].
    rewrite lookup_delete_ne by done. apply Hd.
  - apply held_zero in Hz. revert Hh Hz. rewrite !Forall_forall. intros Hh Hother g Hg.
    destruct (Hh g Hg) as (old & Ho & Hr). exists old. rewrite lookup_delete_ne; [done|].
    intros Heq. by apply (Hother g Hg).
Qed.

Lemma counted_step c op : counted c -> counted (client_step c op).
Proof.
  intros Hc. destruct op as [p|k]; [by apply counted_subscribe|]. cbn [client_step].
  destruct (handles c !! k) as [h|] eqn:Hk; [|done].
  destruct (shared_unsubscribe d h _) as [r [w' subs']] eqn:E. apply shared_unsubscribe_cases in E.
  destruct (client_subs c !! handle_pattern h) as [shared|] eqn:Hs; [|destruct E as (-> & _); by apply counted_delete].
  destruct (N.ltb_spec 1 (references shared)) as [Hlt|Hle].
  - destruct E as (-> & _). by apply counted_down.
  - destruct E as [_ [[-> _]|[-> _]]]; [by apply counted_delete | by eapply counted_last].
Qed.

Lemma counted_run ops : forall c, counted c -> counted (client_run ops c).
Proof. induction ops as [|op ops IH]; intros c Hc; [done|]. by apply IH, counted_step. Qed.

(** ** The wire *)

(** A pattern that fits a field of the wire; the encoder panics on others. *)
Lemma pattern_payload_inj p q : blen p <= u32_max -> pattern_payload p = pattern_payload q -> p = q.
Proof.
  intros Hp. unfold pattern_payload, finish, put_string. destruct (N.ltb_spec u32_max (blen p)); [lia|].
  destruct (u32_max <? blen q); cbn; intros E; [done|]. by repeat (injection E as _ E).
Qed.

Lemma last_about_app p a b :
  last_about p (a ++ b) = match last_about p b with Some t => Some t | None => last_about p a end.
Proof.
  unfold last_about. rewrite List.filter_app, last_app. by destruct (last (List.filter _ b)).
Qed.

(** Commands about another pattern. *)
Lemma last_about_other p q a b :
  blen p <= u32_max -> p <> q -> Forall (fun s => sent_payload s = pattern_payload q) b -> last_about p (a ++ b) = last_about p a.
Proof.
  intros Hlen Hne Hb. rewrite last_about_app. replace (last_about p b) with (@None N); [done|].
  unfold last_about. induction Hb as [|s b Hs _ IH]; [done|]. cbn [List.filter]. unfold about at 1.
  destruct (bytes_eqb_spec (sent_payload s) (pattern_payload p)) as [E|]; [|exact IH].
  destruct Hne. apply pattern_payload_inj; congruence.
Qed.

Lemma last_about_subscribes p a b : Forall (subscribes p) b -> b <> [] -> last_about p (a ++ b) = Some (subscribe_type d).
Proof.
  intros Hb Hne. rewrite last_about_app. replace (last_about p b) with (Some (subscribe_type d)); [done|].
  destruct b as [|s b' _] using rev_ind; [done|]. apply Forall_app in Hb as [_ [[Ht Hp] _]%Forall_cons].
  unfold last_about. rewrite List.filter_app. cbn [List.filter]. unfold about at 2.
  rewrite Hp, bytes_eqb_refl, Ht, N.eqb_refl. cbn. by rewrite last_snoc, <- Ht.
Qed.

(** The broker was last asked to subscribe whatever is counted, but where an
    UNSUBSCRIBE failed. *)
Definition wired (c : Holder) : Prop :=
  forall p, blen p <= u32_max -> is_Some (client_subs c !! p) ->
    last_about p (sent_by (client_link c)) = Some (subscribe_type d) \/ p ∈ uncertain c.

Lemma wired_subscribe c p : wired c -> wired (client_step c (Subscribe p)).
Proof.
  intros Hw q Hlen. cbn [client_step]. destruct (shared_subscribe d p _) as [r [w' subs']] eqn:E. cbn [client_subs client_link uncertain].
  apply shared_subscribe_cases in E as [(h & shared & -> & _ & _ & -> & Hc)|(Hr & -> & (ss & Hs & Hf) & Hno)].
  - destruct (decide (p = q)) as [<-|Hne].
    + intros _. destruct (client_subs c !! p) as [old|] eqn:Ho.
      * destruct Hc as [_ ->]. apply Hw; [done | by exists old].
      * destruct Hc as (_ & ss & -> & Hf & Hss). left. by apply last_about_subscribes.
    + rewrite lookup_insert_ne by done. intros Hq. specialize (Hw q Hlen Hq).
      destruct (client_subs c !! p); [by destruct Hc as [_ ->]|]. destruct Hc as (_ & ss & -> & Hf & _).
      rewrite (last_about_other q p); [done| done | congruence|]. eapply Forall_impl; [exact Hf|]. by intros s [].
  - intros Hq. specialize (Hw q Hlen Hq). destruct Hno as [->|Hno]; [done|]. rewrite Hs.
    rewrite (last_about_other q p); [done | done | intros ->; rewrite Hno in Hq; by destruct Hq |].
    eapply Forall_impl; [exact Hf|]. by intros s [].
Qed.

Lemma note_outcome_other p q r subs u : p <> q -> q ∈ u -> q ∈ note_outcome p r subs u.
Proof.
  intros Hne Hq. unfold note_outcome. destruct r; [destruct (subs !! p); [done|] | by right].
  apply list_elem_of_In, filter_In. split; [by apply list_elem_of_In|]. by destruct (bytes_eqb_spec q p).
Qed.

Lemma wired_unsubscribe c k : wired c -> wired (client_step c (Unsubscribe k)).
Proof.
  intros Hw q Hlen. cbn [client_step]. destruct (handles c !! k) as [h|]; [|by apply Hw].
  destruct (shared_unsubscribe d h _) as [r [w' subs']] eqn:E. cbn [client_subs client_link uncertain].
  apply shared_unsubscribe_cases in E. set (p := handle_pattern h) in *.
  destruct (client_subs c !! p) as [shared|] eqn:Hp.
  - destruct (1 <? references shared).
    + destruct E as (-> & -> & ->). unfold note_outcome. rewrite lookup_insert_eq. intros Hq. apply Hw; [done|].
      destruct (decide (p = q)) as [<-|Hne]; [by exists shared | by rewrite lookup_insert_ne in Hq].
    + destruct E as [(ss & -> & Hf) [[-> Hr]|[-> ->]]].
      * destruct r; [done|]. intros Hq. destruct (decide (p = q)) as [<-|Hne]; [right; by left|].
        rewrite (last_about_other q p); [|done | congruence | eapply Forall_impl; [exact Hf|]; by intros s []].
        destruct (Hw q Hlen Hq); [by left | by right; right].
      * intros Hq. destruct (decide (p = q)) as [<-|Hne]; [rewrite lookup_delete_eq in Hq; by destruct Hq|].
        rewrite lookup_delete_ne in Hq by done.
        rewrite (last_about_other q p); [|done | congruence | eapply Forall_impl; [exact Hf|]; by intros s []].
        destruct (Hw q Hlen Hq); [by left | right; by apply note_outcome_other].
  - destruct E as (-> & -> & ->). intros Hq. destruct (decide (p = q)) as [<-|Hne]; [rewrite Hp in Hq; by destruct Hq|].
    destruct (Hw q Hlen Hq); [by left | right; by apply note_outcome_other].
Qed.

Lemma wired_run ops : forall c, wired c -> wired (client_run ops c).
Proof.
  induction ops as [|[p|k] ops IH]; intros c Hc; [done|..]; apply IH; [by apply wired_subscribe | by apply wired_unsubscribe].
Qed.

(** C21: whatever the broker answers, along any sequence of subscriptions and
    unsubscriptions of one client: every handle held has the registration its
    pattern is counted under; the last command the client submitted about the
    pattern (of any length the wire can carry) is its SUBSCRIBE, unless the last UNSUBSCRIBE of the pattern
    failed, in which case the broker may have taken it although the client
    counts the pattern as subscribed; and unsubscribing a handle
    while another one with the pattern is held submits nothing, deactivates
    nothing and succeeds. *)
Theorem live_handles_keep_their_subscription w ops k h :
  let c := client_run ops (new_holder w) in
  handles c !! k = Some h ->
  (exists shared, client_subs c !! handle_pattern h = Some shared
     /\ handle_registration h = shared_registration shared /\ held (handle_pattern h) (handles c) <= references shared)
  /\ (blen (handle_pattern h) <= u32_max ->
      last_about (handle_pattern h) (sent_by (client_link c)) = Some (subscribe_type d)
      \/ handle_pattern h ∈ uncertain c)
  /\ (2 <= held (handle_pattern h) (handles c) -> exists subs,
        shared_unsubscribe d h (client_link c, client_subs c) = (Ok tt, (client_link c, subs))
        /\ dom subs = dom (client_subs c)).
Proof.
  intros c Hk.
  assert (Hc : counted c) by (apply counted_run; split; [intros p; cbn; by rewrite lookup_empty | constructor]).
  assert (Hw : wired c) by (apply wired_run; intros p _; cbn; rewrite lookup_empty; by intros []).
  destruct Hc as [Hn Hh]. pose proof (Forall_lookup_1 _ _ _ _ Hh Hk) as (shared & Hs & Hreg).
  specialize (Hn (handle_pattern h)). rewrite Hs in Hn. split; [by exists shared|].
  split; [intros Hlen; apply Hw; [done | by exists shared]|]. intros H2.
  unfold shared_unsubscribe, get_subs, set_subs, on_state, mbind, IO_mbind. rewrite Hs.
  destruct (N.ltb_spec 1 (references shared)); [|lia].
  eexists. split; [reflexivity|]. apply dom_insert_lookup_L. by eexists.
Qed.
End Traces.

(** Two handles of one pattern. *)
Definition sample_domain : Domain :=
  {| validate := fun _ => Ok tt; subscribe_type := 703; unsubscribe_type := 704;
     decode_id := run_dec get_u64; decode_unsubscribed := fun _ => Ok tt |}.
Definition sample_ops : list SubOp :=
  [Subscribe (str "p"); Subscribe (str "q"); Unsubscribe 1; Subscribe (str "p")].
Definition sample_world : World := answering [Ok (be_bytes 8 42); Ok (be_bytes 8 43); Ok []].
Definition sample_holder : Holder (W := World) := client_run sample_domain sample_ops (new_holder sample_world).
Definition sample_handle : Handle :=
  {| handle_pattern := str "p"; handle_registration := {| key := 1; registered := true |} |}.

Lemma live_handles_keep_their_subscription_witness :
  handles sample_holder !! 0%nat = Some sample_handle
  /\ uncertain sample_holder = []
  /\ (last_about sample_domain (str "p") (sent_by (client_link sample_holder)) = Some 703
      \/ str "p" ∈ uncertain sample_holder)
  /\ last_about sample_domain (str "q") (sent_by (client_link sample_holder)) = Some 704
  /\ 2 <= held (str "p") (handles sample_holder)
  /\ exists subs, shared_unsubscribe sample_domain sample_handle (client_link sample_holder, client_subs sample_holder)
       = (Ok tt, (client_link sample_holder, subs)) /\ dom subs = dom (client_subs sample_holder).
Proof.
  assert (Hk : handles sample_holder !! 0%nat = Some sample_handle) by (by vm_compute).
  assert (H2 : 2 <= held (str "p") (handles sample_holder)) by (by vm_compute).
  destruct (live_handles_keep_their_subscription sample_domain sample_world sample_ops 0 sample_handle Hk)
    as (_ & H1 & H3).
  split; [exact Hk|]. split; [by vm_compute|]. split; [by apply H1|]. split; [by vm_compute|].
  split; [exact H2 | exact (H3 H2)].
Defined.

(** The exception: an UNSUBSCRIBE that was submitted and not answered in time
    leaves the pattern counted, so that the next subscription shares what the
    broker may have ended; the handle it returns is live, and the last command
    about its pattern is an UNSUBSCRIBE. *)
Example uncertain_unsubscribe_leaves_no_subscription :
  let w := {| shared := Shared_new 8; policy := RetryPolicy_default; script := [replying (Ok (be_bytes 8 42)); silent];
              log := []; answered := []; cancellations := []; slept := []; nap := fun s => s |} in
  let c := client_run sample_domain [Subscribe (str "p"); Unsubscribe 0; Subscribe (str "p")] (new_holder w) in
  handles c = [sample_handle]
  /\ option_map references (client_subs c !! str "p") = Some 2
  /\ map (fun s => (sent_type s, sent_payload s)) (sent_by (client_link c))
     = [(703, pattern_payload (str "p")); (704, pattern_payload (str "p"))]
  /\ uncertain c = [str "p"].
Proof. vm_compute. done. Qed.
