(* ===== verification/Schedule.v ===== *)
(** * Schedule

    [src/src/client_domains/schedule.rs]: the Schedule client, its cursor pages
    and their decoder, the selector listing that follows the cursor, and the
    subscriptions, which are those of [SharedSubs]. *)

From S2P Require Import Prelude Errors Protocol Codec Routes Responses Shared Conn Subscriptions SharedSubs.

(** ** Data *)

Inductive ScheduleDeliveryMode : Set := Broadcast | Single.
Definition delivery_byte (m : ScheduleDeliveryMode) : N := match m with Broadcast => 0 | Single => 1 end.

Record ScheduleEntry : Set := {
  entry_route : bytes;
  cron : bytes;
  delivery_mode : ScheduleDeliveryMode;
  entry_payload : bytes;
}.

Record ScheduleListPage : Set := { list_entries : list ScheduleEntry; total_count : N }.

Record ScheduleCursorPage : Set := {
  entries : list ScheduleEntry;
  has_more : bool;
  continuation : option bytes;
}.

Record ScheduleNotification : Set := { sn_route : bytes; sn_payload : bytes }.

Record ScheduleSubscription : Set := {
  handle : Handle;
  receiver : Inbox;
  closed : bool;
}.

(** ** Responses *)

Definition schedule_error {A : Type} (message : bytes) : Dec A := dec_fail (Protocol (str "schedule " ++ message)).

(** The decoder it returns is the state of the reader. *)
Definition plain_success (operation : bytes) : Dec unit :=
  status <- get_u8;;
  if status =? 0 then mret tt
  else if status =? 1 then fail_domain_error
  else dec_fail (Protocol (str "Schedule " ++ operation ++ str " returned status " ++ dec status)).

(** A response with nothing after its status. *)
Definition decode_done (operation response : bytes) : Result unit :=
  run_dec
    (plain_success operation;;
     fin <- at_end;;
     if negb fin then schedule_error (operation ++ str " response has trailing bytes") else mret tt) response.

Definition decode_subscription_id (response : bytes) : Result N :=
  run_dec
    (plain_success (str "SUBSCRIBE");;
     tag <- get_u8;;
     if negb (tag =? 1) then schedule_error (str "SUBSCRIBE response is missing subscription id")
     else
       id <- get_u64;;
       fin <- at_end;;
       if fin : bool then mret id else schedule_error (str "SUBSCRIBE response has trailing bytes")) response.

Definition decode_delivery_mode : Dec ScheduleDeliveryMode :=
  tag <- get_u8;;
  if tag =? 0 then mret Broadcast
  else if tag =? 1 then mret Single
  else schedule_error (str "LIST_V2 has invalid delivery mode").

Definition decode_entry : Dec ScheduleEntry :=
  route <- get_string;;
  cron <- get_string;;
  mode <- decode_delivery_mode;;
  payload <- get_bytes;;
  mret {| entry_route := route; cron := cron; delivery_mode := mode; entry_payload := payload |}.

(** [loop { match get_u8()? { 0 => break, 1 => {}, .. } .. }]: every round
    consumes its tag, so one round more than the bytes left is never reached
    ([decode_entries_enough]). *)
Fixpoint decode_entries_fuel (fuel : nat) : Dec (list ScheduleEntry) :=
  match fuel with
  | O => schedule_error (str "LIST_V2 entry loop out of fuel")
  | S fuel' =>
      tag <- get_u8;;
      if tag =? 0 then mret []
      else if tag =? 1 then
        entry <- decode_entry;;
        entries <- decode_entries_fuel fuel';;
        mret (entry :: entries)
      else schedule_error (str "LIST_V2 has invalid entry flag")
  end.

Definition decode_entries : Dec (list ScheduleEntry) :=
  left <- bytes_left;; decode_entries_fuel (S (N.to_nat left)).

Definition decode_flag (what : bytes) : Dec bool :=
  tag <- get_u8;;
  if tag =? 0 then mret false
  else if tag =? 1 then mret true
  else schedule_error (str "LIST_V2 has invalid " ++ what ++ str " flag").

Definition decode_continuation : Dec (option bytes) :=
  present <- decode_flag (str "cursor");;
  if present : bool then s <- get_string;; mret (Some s) else mret None.

Definition cursor_page_fields : Dec ScheduleCursorPage :=
  has_more <- decode_flag (str "has_more");;
  continuation <- decode_continuation;;
  entries <- decode_entries;;
  mret {| entries := entries; has_more := has_more; continuation := continuation |}.

Definition decode_cursor_page : Dec ScheduleCursorPage :=
  version <- get_u8;;
  if negb (version =? 1) then schedule_error (str "LIST_V2 has unknown response version")
  else
    page <- cursor_page_fields;;
    fin <- at_end;;
    if fin : bool then mret page else schedule_error (str "LIST_V2 response has trailing bytes").

Definition decode_list (response : bytes) : Result ScheduleCursorPage :=
  run_dec (plain_success (str "LIST_V2");; decode_cursor_page) response.

Definition decode_schedule_notify : Dec ScheduleNotification :=
  route <- get_string;; payload <- get_bytes;; mret {| sn_route := route; sn_payload := payload |}.

(** ** Requests *)

Definition put_entry (entry : ScheduleEntry) (e : PayloadEncoder) : PayloadEncoder :=
  e .> put_string (entry_route entry) .> put_string (cron entry)
    .> put_u8 (delivery_byte (delivery_mode entry)) .> put_bytes (entry_payload entry).

(** [for entry in entries { validate_fixed_route(..)?; encoder.put.. }]. *)
Fixpoint put_entries (entries : list ScheduleEntry) (e : PayloadEncoder) : Result PayloadEncoder :=
  match entries with
  | [] => Ok e
  | entry :: entries =>
      _ <- validate_fixed_route (entry_route entry) (str "schedule") 4;;
      put_entries entries (put_entry entry e)
  end.

Definition list_payload (continuation : option bytes) (limit : option N) : bytes :=
  let e := match continuation with
           | Some cursor => PayloadEncoder_new .> put_u8 1 .> put_string cursor
           | None => PayloadEncoder_new .> put_u8 0
           end in
  finish (match limit with Some value => e .> put_u8 1 .> put_u64 value | None => e .> put_u8 0 end).

(** ** The client *)

Definition schedule_domain : Domain := {|
  validate := fun pattern => validate_registration_pattern pattern (str "schedule") 4;
  subscribe_type := message_type.SCHEDULE_SUBSCRIBE;
  unsubscribe_type := message_type.SCHEDULE_UNSUBSCRIBE;
  decode_id := decode_subscription_id;
  decode_unsubscribed := decode_done (str "UNSUBSCRIBE");
|}.

Section ScheduleClient.
Context {W : Type} `{BrokerLink W}.

Definition create (route cron : bytes) (mode : ScheduleDeliveryMode) (payload : bytes) : IO W bytes :=
  io_lift (validate_fixed_route route (str "schedule") 4);;
  response <- request message_type.SCHEDULE_CREATE
    (finish (PayloadEncoder_new .> put_string route .> put_string cron .> put_u8 (delivery_byte mode)
               .> put_bytes payload));;
  io_lift (decode_done (str "CREATE") response);;
  mret route.

Definition create_batch (entries : list ScheduleEntry) : IO W unit :=
  if u32_max <? blen entries then io_err (FrameTooLarge (blen entries))
  else
    encoder <- io_lift (put_entries entries (PayloadEncoder_new .> put_u32 (blen entries)));;
    response <- request message_type.SCHEDULE_CREATE_BATCH (finish encoder);;
    io_lift (decode_done (str "CREATE_BATCH") response).

Definition list_v2 (continuation : option bytes) (limit : option N) : IO W ScheduleCursorPage :=
  response <- request_replayable message_type.SCHEDULE_LIST_PAGE (list_payload continuation limit);;
  io_lift (decode_list response).

Definition cancel_schedule (route : bytes) : IO W unit :=
  io_lift (validate_fixed_route route (str "schedule") 4);;
  response <- request message_type.SCHEDULE_CANCEL (finish (PayloadEncoder_new .> put_string route));;
  io_lift (decode_done (str "CANCEL") response).

Definition list_page (offset limit : option N) : IO W ScheduleListPage :=
  if match offset with Some value => negb (value =? 0) | None => false end
  then io_err (Protocol (str "Schedule LIST uses a cursor; nonzero offsets are unsupported"))
  else page <- list_v2 None limit;; mret {| list_entries := entries page; total_count := 0 |}.

(** Following the cursor: [None] when the fuel, the number of pages asked for,
    ran out; the source asks as long as the broker says there is more. *)
Fixpoint list_pages (fuel : nat) (selector : bytes) (cursor : option bytes) (found : list ScheduleEntry) :
    IO W (option (list ScheduleEntry)) :=
  match fuel with
  | O => mret None
  | S fuel' =>
      page <- list_v2 cursor (Some 100);;
      let found := found ++ List.filter (fun e => route_matches_pattern (entry_route e) selector) (entries page) in
      if negb (has_more page) then mret (Some found)
      else match entries page, continuation page with
      | [], _ => io_err (Protocol (str "schedule LIST returned an empty page while more results were indicated"))
      | _, None => io_err (Protocol (str "schedule LIST omitted continuation while more results were indicated"))
      | _, Some _ => list_pages fuel' selector (continuation page) found
      end
  end.

Definition list_by_selector (fuel : nat) (selector : bytes) : IO W (option (list ScheduleEntry)) :=
  io_lift (validate_registration_pattern selector (str "schedule") 4);;
  list_pages fuel selector None [].

Definition subscribe (pattern : bytes) : IO (W * Subs) ScheduleSubscription :=
  h <- shared_subscribe schedule_domain pattern;;
  mret {| handle := h; receiver := {| events := []; ended := false |}; closed := false |}.

Definition unsubscribe (s : ScheduleSubscription) : IO (W * Subs) unit :=
  shared_unsubscribe schedule_domain (handle s).

Definition poll_next (s : ScheduleSubscription) (w : W) : Poll ScheduleNotification * ScheduleSubscription :=
  if closed s then (Ready None, s)
  else
    let '(p, i) := poll_inbox (wire_id_of (handle_registration (handle s)) w) (AfterId decode_schedule_notify)
                     (str "Schedule subscription buffer is full") (receiver s) in
    (p, {| handle := handle s; receiver := i; closed := closed s |}).
End ScheduleClient.

(** ** Cursor pages *)

Local Arguments be_bytes : simpl never.

Definition string_ok (s : bytes) : Prop := utf8_valid s = true /\ blen s <= u32_max.
Definition delivery_bytes (m : ScheduleDeliveryMode) : bytes := be_bytes 1 (delivery_byte m).
Definition entry_bytes (e : ScheduleEntry) : bytes :=
  field_bytes (entry_route e) ++ field_bytes (cron e) ++ delivery_bytes (delivery_mode e)
  ++ field_bytes (entry_payload e).
Definition entry_ok (e : ScheduleEntry) : Prop :=
  string_ok (entry_route e) /\ string_ok (cron e) /\ blen (entry_payload e) <= u32_max.
Definition entries_bytes (es : list ScheduleEntry) : bytes :=
  concat (map (fun e => be_bytes 1 1 ++ entry_bytes e) es) ++ be_bytes 1 0.
Definition flag_bytes (b : bool) : bytes := be_bytes 1 (if b then 1 else 0).
Definition continuation_ok (c : option bytes) : Prop := match c with Some s => string_ok s | None => True end.
Definition cursor_page_bytes (p : ScheduleCursorPage) : bytes :=
  flag_bytes (has_more p) ++ opt_field_bytes (continuation p) ++ entries_bytes (entries p).
Definition cursor_page_ok (p : ScheduleCursorPage) : Prop :=
  continuation_ok (continuation p) /\ Forall entry_ok (entries p).

#[export] Instance exact_delivery_mode :
  Exact decode_delivery_mode (encodes any delivery_bytes).
Proof.
  unfold decode_delivery_mode, schedule_error. eapply exact_iff; [exact_step|]. intros m l. split.
  - intros [_ ->]. destruct m; [exists 0 | exists 1]; do 2 eexists;
      (split; [symmetry; apply app_nil_r|]); cbn; eauto with fitz.
  - intros (t & l1 & l2 & -> & [_ ->] & H). tag_cases; enc_inv; by rewrite app_nil_r.
Qed.

#[export] Instance exact_flag what : Exact (decode_flag what) (encodes any flag_bytes).
Proof.
  unfold decode_flag, schedule_error. eapply exact_iff; [exact_step|]. intros b l. split.
  - intros [_ ->]. destruct b; [exists 1 | exists 0]; do 2 eexists;
      (split; [symmetry; apply app_nil_r|]); cbn; eauto with fitz.
  - intros (t & l1 & l2 & -> & [_ ->] & H). tag_cases; enc_inv; by rewrite app_nil_r.
Qed.
#[export] Hint Resolve exact_delivery_mode exact_flag : fitz.

#[export] Instance exact_entry : Exact decode_entry (encodes entry_ok entry_bytes).
Proof.
  eapply exact_iff; [unfold decode_entry; exact_step|]. intros e l. split.
  - destruct e. intros [([? ?] & [? ?] & ?) ->]. cbn in *. unfold entry_bytes, field_bytes. cbn. enc_fields.
  - intros H. enc_inv. by repeat split.
Qed.

#[export] Instance exact_continuation : Exact decode_continuation (encodes continuation_ok opt_field_bytes).
Proof.
  unfold decode_continuation. eapply exact_iff; [exact_step|]. intros c l. split.
  - intros [Hc ->]. destruct c as [s|]; cbn [opt_field_bytes].
    + destruct Hc. exists true. do 2 eexists. split; [reflexivity|]. split; [by split | cbn; eauto with fitz].
    + exists false. do 2 eexists. split; [symmetry; apply app_nil_r|]. split; [by split | cbn; eauto with fitz].
  - intros (b & l1 & l2 & -> & [_ ->] & H). destruct b; enc_inv; [done | by rewrite app_nil_r].
Qed.
#[export] Hint Resolve exact_entry exact_continuation : fitz.

Lemma sound_entries fuel : Sound (decode_entries_fuel fuel) (encodes (Forall entry_ok) entries_bytes).
Proof.
  induction fuel as [|fuel IH]; cbn [decode_entries_fuel]; [apply sound_fail|].
  eapply (sound_weaken _ (fun es l => exists t l1 l2, l = l1 ++ l2 /\ enc_uint 1 t l1
    /\ if t =? 0 then es = [] /\ l2 = [] else if t =? 1 then exists e l3 l4, l2 = l3 ++ l4
         /\ encodes entry_ok entry_bytes e l3 /\ exists es' l5 l6, l4 = l5 ++ l6
         /\ encodes (Forall entry_ok) entries_bytes es' l5 /\ es = e :: es' /\ l6 = [] else False)).
  - apply (sound_bind _ _ _ _ sound_u8). intros t. destruct (t =? 0); [apply sound_ret|].
    destruct (t =? 1); [|apply sound_fail]. apply (sound_bind _ _ _ _ (exact_sound)). intros e.
    apply (sound_bind _ _ _ _ IH). intros es. apply sound_ret.
  - intros es l (t & l1 & l2 & -> & [_ ->] & H). tag_cases; enc_inv.
    + by rewrite app_nil_r.
    + rewrite app_nil_r. split; [by constructor|]. unfold entries_bytes. cbn [map concat]. by rewrite <- !app_assoc.
Qed.

Lemma reads_entries es : forall fuel, (length es < fuel)%nat -> Forall entry_ok es ->
  Reads (decode_entries_fuel fuel) (entries_bytes es) es.
Proof.
  induction es as [|e es IH]; intros [|fuel] Hf Hok; cbn [length] in Hf; try lia; cbn [decode_entries_fuel].
  - unfold entries_bytes. cbn [map concat app]. rewrite <- (app_nil_r (be_bytes 1 0)).
    eapply reads_bind; [by apply reads_u8 | apply reads_ret].
  - inversion Hok as [|? ? He Hes]; subst. unfold entries_bytes. cbn [map concat]. rewrite <- !app_assoc.
    eapply reads_bind; [by apply reads_u8|]. cbn [N.eqb Pos.eqb].
    eapply reads_bind; [by apply exact_reads|]. rewrite <- (app_nil_r (_ ++ be_bytes 1 0)).
    eapply reads_bind; [apply IH; [lia | done] | apply reads_ret].
Qed.

Lemma entries_length es : N.of_nat (length es) < blen (entries_bytes es).
Proof.
  unfold entries_bytes. rewrite blen_app, be_bytes_blen. induction es as [|e es IH]; [cbn; lia|].
  cbn [map concat length]. rewrite !blen_app, be_bytes_blen in *. lia.
Qed.

(** The fuel is never what ends the loop: any larger one does the same. *)
Lemma decode_entries_enough fuel : forall d more, dec_wf d -> (N.to_nat (remaining d) < fuel)%nat ->
  decode_entries_fuel (fuel + more) d = decode_entries_fuel fuel d.
Proof.
  induction fuel as [|fuel IH]; intros d more Hwf Hf; [lia|]. cbn [decode_entries_fuel Nat.add].
  rewrite !dec_bindE. destruct (get_u8 d) as [[t d1]|] eqn:E; [|done].
  destruct (sound_u8 _ _ _ Hwf E) as (l1 & [_ ->] & Hr & _ & Hwf1).
  destruct (t =? 0); [done|]. destruct (t =? 1); [|done].
  rewrite !dec_bindE. destruct (decode_entry d1) as [[e d2]|] eqn:E2; [|done].
  destruct (exact_sound _ _ _ Hwf1 E2) as (l2 & _ & Hr2 & _ & Hwf2).
  rewrite !dec_bindE, IH; [done | done|].
  rewrite remaining_rest in *. apply (f_equal blen) in Hr, Hr2. rewrite !blen_app, ?be_bytes_blen in *. lia.
Qed.

#[export] Instance exact_entries : Exact decode_entries (encodes (Forall entry_ok) entries_bytes).
Proof.
  split.
  - intros d es d' Hwf Hd. by apply (sound_entries _ d es d' Hwf) in Hd.
  - intros es l [Hok ->] d tail Hwf Hr. unfold decode_entries, bytes_left, mbind, Dec_mbind.
    apply (reads_entries es) with (tail := tail); [|done..].
    rewrite remaining_rest, Hr, blen_app. pose proof (entries_length es). lia.
Qed.
#[export] Hint Resolve exact_entries : fitz.

#[export] Instance exact_cursor_page : Exact cursor_page_fields (encodes cursor_page_ok cursor_page_bytes).
Proof.
  eapply exact_iff; [unfold cursor_page_fields; exact_step|]. intros p l. split.
  - destruct p. intros [[? ?] ->]. unfold cursor_page_bytes. cbn [has_more continuation entries] in *. enc_fields.
  - intros H. enc_inv. by repeat split.
Qed.
#[export] Hint Resolve exact_cursor_page : fitz.

#[export] Instance exact_plain_success operation :
  Exact (plain_success operation) (fun _ l => l = be_bytes 1 0).
Proof.
  eapply exact_iff; [unfold plain_success; exact_step|]. intros [] l. split.
  - intros ->. exists 0. do 2 eexists. split; [symmetry; apply app_nil_r|]. cbn. by split.
  - intros (t & l1 & l2 & -> & [_ ->] & H). tag_cases; enc_inv. by rewrite app_nil_r.
Qed.
#[export] Hint Resolve exact_plain_success : fitz.

Lemma whole_list :
  Whole (plain_success (str "LIST_V2");; decode_cursor_page)
    (fun page l => cursor_page_ok page /\ l = be_bytes 1 0 ++ be_bytes 1 1 ++ cursor_page_bytes page).
Proof.
  intros d page Hwf.
  assert (Hw : Whole (plain_success (str "LIST_V2");; decode_cursor_page)
    (fun page l => exists (u : unit) l1 l2, l = l1 ++ l2 /\ l1 = be_bytes 1 0 /\
       exists v l3 l4, l2 = l3 ++ l4 /\ enc_uint 1 v l3 /\
         if negb (v =? 1) then False else encodes cursor_page_ok cursor_page_bytes page l4)).
  { unfold decode_cursor_page, schedule_error. whole_step. }
  rewrite (Hw d page Hwf). split.
  - intros (_ & l1 & l2 & -> & -> & v & l3 & l4 & -> & [_ ->] & H).
    destruct (N.eqb_spec v 1) as [->|]; [|done]. by destruct H as [? ->].
  - intros [Hok ->]. exists tt. do 2 eexists. split; [reflexivity|]. split; [done|].
    exists 1. do 2 eexists. split; [reflexivity|]. split; [done | by split].
Qed.

(** A LIST response is accepted exactly when it is the success tag, the
    page version and the canonical encoding of a page - valid flags and
    delivery modes, UTF-8 routes, and the entry list up to its end mark - with
    no byte left, and the page is the one encoded; the loop over the entries
    always ends within the response. *)
Theorem cursor_page_exact response page :
  (decode_list response = Ok page <->
   cursor_page_ok page /\ response = be_bytes 1 0 ++ be_bytes 1 1 ++ cursor_page_bytes page)
  /\ (forall fuel, (length response < fuel)%nat ->
        decode_entries_fuel fuel (PayloadDecoder_new response) = decode_entries (PayloadDecoder_new response)).
Proof.
  split; [exact (run_whole _ _ response page whole_list)|]. intros fuel Hf. unfold decode_entries, bytes_left, mbind, Dec_mbind.
  assert (Hr : remaining (PayloadDecoder_new response) = blen response) by (rewrite remaining_rest; done).
  replace fuel with (S (N.to_nat (remaining (PayloadDecoder_new response))) + (fuel - S (length response)))%nat
    by (rewrite Hr; unfold blen; lia).
  apply decode_entries_enough; [apply new_wf | lia].
Qed.

(** ** Listing by selector *)

(** A listing in pages: every page but the last says that there is more, is
    not empty and names a continuation. *)
Inductive Paged : list ScheduleCursorPage -> Prop :=
| Paged_last p : has_more p = false -> Paged [p]
| Paged_more p ps : has_more p = true -> entries p <> [] -> continuation p <> None -> Paged ps -> Paged (p :: ps).

Definition list_response (p : ScheduleCursorPage) : bytes := be_bytes 1 0 ++ be_bytes 1 1 ++ cursor_page_bytes p.
Definition matching (selector : bytes) (es : list ScheduleEntry) : list ScheduleEntry :=
  List.filter (fun e => route_matches_pattern (entry_route e) selector) es.

(** The requests of a listing that starts at [cursor]. *)
Fixpoint list_requests (g : N) (cursor : option bytes) (ps : list ScheduleCursorPage) : list Sent :=
  match ps with
  | [] => []
  | p :: ps =>
      {| sent_request := true; sent_generation := g; sent_type := message_type.SCHEDULE_LIST_PAGE;
         sent_flags := 0; sent_payload := list_payload cursor (Some 100) |}
      :: list_requests g (continuation p) ps
  end.

Lemma list_v2_answered cursor limit w p rest :
  cursor_page_ok p -> script w = replying (Ok (list_response p)) :: rest ->
  0 < next_request_id (shared w) < u64_max ->
  exists w', list_v2 cursor limit w = (Ok p, w')
    /\ script w' = rest /\ next_request_id (shared w') = next_request_id (shared w) + 1
    /\ log w' = log w ++ [entry_at (generation (shared w)) message_type.SCHEDULE_LIST_PAGE 0 (list_payload cursor limit)]
    /\ generation (shared w') = generation (shared w).
Proof.
  intros Hp Hs Hid.
  destruct (h_replayable_answered message_type.SCHEDULE_LIST_PAGE (list_payload cursor limit) w _ rest Hs Hid)
    as (w' & E & Hw'). exists w'. split; [|exact Hw'].
  unfold list_v2, mbind, IO_mbind, request_replayable. cbn [request_replayable_in_generation World_link].
  rewrite E. unfold io_lift. f_equal. by apply (run_whole _ _ _ p whole_list).
Qed.

Lemma list_pages_collects selector ps : Paged ps -> Forall cursor_page_ok ps ->
  forall fuel cursor found w rest,
  (length ps <= fuel)%nat -> script w = map (fun p => replying (Ok (list_response p))) ps ++ rest ->
  0 < next_request_id (shared w) -> next_request_id (shared w) + blen ps <= u64_max ->
  exists w', list_pages fuel selector cursor found w
      = (Ok (Some (found ++ matching selector (concat (map entries ps)))), w')
    /\ log w' = log w ++ list_requests (generation (shared w)) cursor ps.
Proof.
  induction 1 as [p Hm|p ps Hm Hne Hc _ IH]; intros Hok [|fuel] cursor found w rest Hf Hs H0 Hmax;
    cbn [length] in Hf; try lia; inversion Hok as [|? ? Hp Hps]; subst; rewrite blen_cons in Hmax;
    destruct (list_v2_answered cursor (Some 100) w p _ Hp Hs) as (w1 & E & Hs1 & Hid1 & Hl1 & Hg1);
    try (rewrite ?blen_nil in Hmax; lia); cbn [list_pages]; unfold mbind at 1, IO_mbind at 1; rewrite E, Hm; cbn [negb].
  - exists w1. cbn [map concat]. rewrite app_nil_r. split; [done | exact Hl1].
  - destruct (entries p) as [|e es] eqn:He; [done|]. destruct (continuation p) as [c|] eqn:Hcont; [|done].
    edestruct (IH Hps fuel (Some c) (found ++ matching selector (e :: es)) w1 rest)
      as (w2 & E2 & Hl2); [lia | exact Hs1 | lia | lia |].
    exists w2. unfold matching in *. cbn [map concat]. rewrite He, List.filter_app, app_assoc. split; [exact E2|].
    rewrite Hl2, Hl1, Hg1, <- app_assoc. cbn [list_requests app]. by rewrite Hcont.
Qed.

(** C29: against a broker that answers each request with the next page of a
    listing, the selector listing ends after the last page and returns exactly
    the entries of all pages whose route the selector matches, in order; it asks
    for each page once, with the continuation of the page before it. *)
Theorem list_by_selector_collects selector ps fuel w rest :
  validate_registration_pattern selector (str "schedule") 4 = Ok tt ->
  Paged ps -> Forall cursor_page_ok ps -> (length ps <= fuel)%nat ->
  script w = map (fun p => replying (Ok (list_response p))) ps ++ rest ->
  0 < next_request_id (shared w) -> next_request_id (shared w) + blen ps <= u64_max ->
  exists w', list_by_selector fuel selector w
      = (Ok (Some (matching selector (concat (map entries ps)))), w')
    /\ log w' = log w ++ list_requests (generation (shared w)) None ps.
Proof.
  intros Hv Hp Hok Hf Hs H0 Hmax. unfold list_by_selector, io_lift. rewrite Hv.
  by apply (list_pages_collects selector ps Hp Hok fuel None [] w rest).
Qed.

Definition sample_entry (route : String.string) : ScheduleEntry :=
  {| entry_route := str route; cron := str "* * * * *"; delivery_mode := Single; entry_payload := [] |}.
Definition sample_pages : list ScheduleCursorPage :=
  [{| entries := [sample_entry "schedule://r/a/job/x"; sample_entry "schedule://r/b/job/y"]; has_more := true;
      continuation := Some (str "c") |};
   {| entries := [sample_entry "schedule://r/a/job/z"]; has_more := false; continuation := None |}].

Lemma list_by_selector_collects_witness :
  let selector := str "schedule://r/a/job/*" in
  let w := answering (map (fun p => Ok (list_response p)) sample_pages) in
  matching selector (concat (map entries sample_pages))
  = [sample_entry "schedule://r/a/job/x"; sample_entry "schedule://r/a/job/z"]
  /\ exists w', list_by_selector 2 selector w
      = (Ok (Some (matching selector (concat (map entries sample_pages)))), w')
    /\ log w' = log w ++ list_requests (generation (shared w)) None sample_pages.
Proof.
  cbn zeta. split; [by vm_compute|].
  apply (list_by_selector_collects (str "schedule://r/a/job/*") sample_pages 2 _ []).
  - by vm_compute.
  - constructor; [done | done | done | by constructor].
  - repeat (constructor; [by repeat constructor|]). constructor.
  - cbn. lia.
  - by rewrite app_nil_r.
  - done.
  - done.
Defined.
