(* ===== verification/StreamClient.v ===== *)
(** * StreamClient

    [src/src/client_domains/stream.rs]: the Stream client - write sessions,
    reads, metadata - and its subscriptions, which are those of [SharedSubs].
    Payloads are those of [StreamCodec]. *)

From S2P Require Import Prelude Errors Protocol Codec Routes Responses StreamCodec Shared Conn Subscriptions SharedSubs.

Record StreamReadOptions : Set := {
  max_bytes : option N;
  read_filter : option StreamFilterSet;
  read_cursor_fingerprint : option N;
  read_captured_watermark : option N;
}.

Record StreamSession : Set := {
  session_generation : N;
  stream_session_id : N;
  active : bool;
}.

Record StreamSubscription : Set := { handle : Handle; receiver : Inbox; closed : bool }.

Definition optional_bytes (value : option bytes) (e : PayloadEncoder) : PayloadEncoder :=
  match value with Some v => e .> put_u8 1 .> put_bytes v | None => e .> put_u8 0 end.
Definition optional_u64 (value : option N) (e : PayloadEncoder) : PayloadEncoder :=
  match value with Some v => e .> put_u8 1 .> put_u64 v | None => e .> put_u8 0 end.

(** [.filter(|v| !v.is_empty())]. *)
Definition non_empty {A : Type} (value : option (list A)) : option (list A) :=
  match value with Some [] => None | _ => value end.

(** [.session_id.ok_or_else(..)]. *)
Definition require_id (missing : bytes) (p : StreamResponsePayload) : Result N :=
  match session_id p with Some id => Ok id | None => Err (Protocol missing) end.

Definition decode_subscription_id (response : bytes) : Result N :=
  p <- decode_stream_response (str "SUBSCRIBE") response;;
  require_id (str "SUBSCRIBE response missing subscription id") p.

Definition stream_done (operation response : bytes) : Result unit :=
  _ <- decode_stream_response operation response;; Ok tt.

Definition begin_payload (route : bytes) (ingest_metadata : option bytes) : bytes :=
  finish (PayloadEncoder_new .> put_string route .> optional_bytes (non_empty ingest_metadata)).

(** The filter's encoding may fail. *)
Definition read_payload (route : bytes) (start_offset limit : N) (options : StreamReadOptions) : Result bytes :=
  let e := PayloadEncoder_new .> put_string route .> put_u64 start_offset .> put_u64 limit
             .> optional_u64 (max_bytes options) in
  e <- match non_empty (read_filter options) with
       | Some filter => encoded <- encode_stream_filter_set filter;; Ok (e .> put_u8 1 .> put_bytes encoded)
       | None => Ok (e .> put_u8 0)
       end;;
  Ok (finish (e .> optional_u64 (read_cursor_fingerprint options)
                .> optional_u64 (read_captured_watermark options))).

Definition append_payload (s : StreamSession) (expected_offset : N) (body : bytes)
    (metadata discriminator : option bytes) : bytes :=
  let e := PayloadEncoder_new .> put_u64 (stream_session_id s) .> put_u64 expected_offset .> put_bytes body
             .> optional_bytes metadata in
  finish (match non_empty discriminator with
          | Some value => e .> put_u8 1 .> put_string value
          | None => e .> put_u8 0
          end).

Definition decode_append (response : bytes) : Result (option N) :=
  p <- decode_stream_response (str "APPEND") response;;
  if blen (data p) <? 8 then Ok None else offset <- run_dec get_u64 (data p);; Ok (Some offset).

Definition empty_metadata : StreamMetadata :=
  {| first_offset := 0; last_offset := 0; record_count := 0; max_batch_events := 0; max_batch_bytes := 0;
     ttl_seconds := None; area_watermark := 0; realm_watermark := 0 |}.

Definition decode_metadata (response : bytes) : Result StreamMetadata :=
  p <- decode_stream_response (str "METADATA") response;;
  match data p with [] => Ok empty_metadata | _ => decode_stream_metadata (data p) end.

Definition stream_domain : Domain := {|
  validate := validate_stream_selector;
  subscribe_type := message_type.STREAM_SUBSCRIBE;
  unsubscribe_type := message_type.STREAM_UNSUBSCRIBE;
  decode_id := decode_subscription_id;
  decode_unsubscribed := stream_done (str "UNSUBSCRIBE");
|}.

Section StreamClient.
Context {W : Type} `{BrokerLink W}.

Definition begin (route : bytes) (ingest_metadata : option bytes) : IO W StreamSession :=
  io_lift (validate_fixed_route route (str "stream") 3);;
  response <- request message_type.STREAM_BEGIN (begin_payload route ingest_metadata);;
  decoded <- io_lift (decode_stream_response (str "BEGIN") response);;
  generation <- io_get generation_of;;
  id <- io_lift (require_id (str "BEGIN response missing session id") decoded);;
  mret {| session_generation := generation; stream_session_id := id; active := true |}.

Definition read_page (route : bytes) (start_offset limit : N) (options : StreamReadOptions) :
    IO W StreamReadPage :=
  io_lift (validate_stream_selector route);;
  payload <- io_lift (read_payload route start_offset limit options);;
  response <- request_replayable message_type.STREAM_READ payload;;
  io_lift (p <- decode_stream_response (str "READ") response;;
           parse_stream_read_page_with_scope (data p) route).

Definition read (route : bytes) (start_offset limit : N) (max_bytes : option N)
    (filter : option StreamFilterSet) (cursor_fingerprint : option N) : IO W (list StreamRecord) :=
  page <- read_page route start_offset limit
            {| max_bytes := max_bytes; read_filter := filter;
               read_cursor_fingerprint := cursor_fingerprint; read_captured_watermark := None |};;
  mret (flatten_stream_read_items (items page)).

Definition peek (route : bytes) : IO W (option StreamRecord) :=
  io_lift (validate_fixed_route route (str "stream") 3);;
  response <- request_replayable message_type.STREAM_LAST (finish (PayloadEncoder_new .> put_string route));;
  io_lift (p <- decode_stream_response (str "LAST") response;; parse_stream_last_response (data p) route).

Definition metadata (route : bytes) : IO W StreamMetadata :=
  io_lift (validate_fixed_route route (str "stream") 3);;
  response <- request_replayable message_type.STREAM_GET_METADATA
                (finish (PayloadEncoder_new .> put_string route));;
  io_lift (decode_metadata response).

Definition current (s : StreamSession) : IO W unit := fun w =>
  (if active s && (generation_of w =? session_generation s) then Ok tt else Err StaleHandle, w).

Definition append (s : StreamSession) (expected_offset : N) (body : bytes) (metadata discriminator : option bytes) :
    IO W (option N) :=
  current s;;
  response <- request message_type.STREAM_APPEND (append_payload s expected_offset body metadata discriminator);;
  io_lift (decode_append response).

(** [commit] and [rollback] consume the session. *)
Definition commit (s : StreamSession) (mode : StreamCommitMode) : IO W unit :=
  current s;;
  response <- request message_type.STREAM_COMMIT
    (finish (PayloadEncoder_new .> put_u64 (stream_session_id s) .> put_u8 (commit_mode_byte mode)));;
  io_lift (stream_done (str "COMMIT") response).

Definition rollback (s : StreamSession) : IO W unit :=
  current s;;
  response <- request message_type.STREAM_ROLLBACK (finish (PayloadEncoder_new .> put_u64 (stream_session_id s)));;
  io_lift (stream_done (str "ROLLBACK") response).

Definition subscribe (pattern : bytes) : IO (W * Subs) StreamSubscription :=
  h <- shared_subscribe stream_domain pattern;;
  mret {| handle := h; receiver := {| events := []; ended := false |}; closed := false |}.

Definition unsubscribe (s : StreamSubscription) : IO (W * Subs) unit :=
  shared_unsubscribe stream_domain (handle s).

(** The whole payload is decoded, its subscription id a second time. *)
Definition poll_next (from_slice : bytes -> result bytes DecodedStreamNotifyPayload) (s : StreamSubscription) (w : W) :
    Poll StreamCommitNotification * StreamSubscription :=
  if closed s then (Ready None, s)
  else
    let '(p, i) := poll_inbox (wire_id_of (handle_registration (handle s)) w)
                     (WholePayload (decode_stream_notify from_slice))
                     (str "Stream subscription buffer is full") (receiver s) in
    (p, {| handle := handle s; receiver := i; closed := closed s |}).
End StreamClient.

(** ** Sessions *)

Local Arguments be_bytes : simpl never.

Inductive SessionOp : Set :=
| Append (expected_offset : N) (body : bytes) (metadata discriminator : option bytes)
| Commit (mode : StreamCommitMode)
| Rollback.

Definition op_type (op : SessionOp) : N :=
  match op with
  | Append _ _ _ _ => message_type.STREAM_APPEND
  | Commit _ => message_type.STREAM_COMMIT
  | Rollback => message_type.STREAM_ROLLBACK
  end.

(** What follows the session id. *)
Definition op_arguments (op : SessionOp) : bytes :=
  match op with
  | Append offset body metadata discriminator =>
      be_bytes 8 offset ++ field_bytes body ++ opt_field_bytes metadata ++ opt_field_bytes (non_empty discriminator)
  | Commit mode => be_bytes 1 (commit_mode_byte mode)
  | Rollback => []
  end.

Definition op_fits (op : SessionOp) : Prop :=
  match op with
  | Append _ body metadata discriminator =>
      blen body <= u32_max /\ opt_field_ok metadata /\ opt_field_ok discriminator
  | _ => True
  end.

Definition op_payload (s : StreamSession) (op : SessionOp) : bytes :=
  match op with
  | Append offset body metadata discriminator => append_payload s offset body metadata discriminator
  | Commit mode => finish (PayloadEncoder_new .> put_u64 (stream_session_id s) .> put_u8 (commit_mode_byte mode))
  | Rollback => finish (PayloadEncoder_new .> put_u64 (stream_session_id s))
  end.

Lemma session_payload_layout s op : op_fits op ->
  op_payload s op = be_bytes 8 (stream_session_id s) ++ op_arguments op.
Proof.
  destruct op as [offset body m d|mode|]; cbn [op_payload op_arguments op_fits].
  - intros (Hb & Hm & Hd). unfold append_payload, finish.
    assert (Hopt : forall v e, opt_field_ok v -> enc_buf (optional_bytes v e) = enc_buf e ++ opt_field_bytes v).
    { intros [v|] e Hv; cbn [optional_bytes opt_field_bytes]; [|done].
      rewrite put_bytes_buf by done. cbn [put_u8 extend enc_buf]. by rewrite <- app_assoc. }
    assert (Hdis : forall e, enc_buf (match non_empty d with
        | Some value => e .> put_u8 1 .> put_string value | None => e .> put_u8 0 end)
      = enc_buf e ++ opt_field_bytes (non_empty d)).
    { intros e. destruct d as [[|b l]|]; cbn [non_empty opt_field_bytes]; [done| |done].
      rewrite put_string_buf by done. cbn [put_u8 extend enc_buf]. by rewrite <- app_assoc. }
    rewrite Hdis, Hopt, put_bytes_buf by done. cbn [put_u64 extend enc_buf PayloadEncoder_new app].
    by rewrite <- !app_assoc.
  - by destruct mode.
  - intros _. by rewrite app_nil_r.
Qed.

Section Sessions.
Context {W : Type} `{LinkLaws W}.

Definition run_op (s : StreamSession) (op : SessionOp) : IO W unit :=
  match op with
  | Append offset body metadata discriminator => append s offset body metadata discriminator;; mret tt
  | Commit mode => commit s mode
  | Rollback => rollback s
  end.

(** Every command of a Stream session carries its session id, then the
    arguments of the operation, is stamped with the generation the session
    holds as long as no other thread moves it after the check, and is submitted at most once, appends included: nothing is
    replayed.  A session of another generation, or a finished one, reports a
    stale handle and submits nothing. *)
Theorem session_commands_stamped s op w r w' :
  run_op s op w = (r, w') ->
  (if active s && (generation_of w =? session_generation s)
   then submits (fun c => is_command true (op_type op) 0 (op_payload s op) c
                          /\ sent_generation c = stamp_of w
                          /\ (undisturbed w -> sent_generation c = session_generation s)) 1 w w'
        /\ (is_ok r = true -> sent_by w' <> sent_by w)
   else r = Err StaleHandle /\ w' = w)
  /\ (op_fits op -> op_payload s op = be_bytes 8 (stream_session_id s) ++ op_arguments op).
Proof.
  intros Hr. split; [|apply session_payload_layout].
  assert (Hb : forall A (m : IO W A), (current s;; m) w
    = if active s && (generation_of w =? session_generation s) then m w else (Err StaleHandle, w)).
  { intros A m. unfold mbind, IO_mbind, current. by destruct (_ && _). }
  destruct op; cbn [run_op] in Hr; unfold append, commit, rollback in Hr.
  1: apply io_bind_inv in Hr as [(a & w1 & Hr & [= <- <-])|(e & Hr & ->)].
  all: rewrite Hb in Hr; destruct (_ && _) eqn:Hl; [|by injection Hr as <- <- || done];
    apply request_then in Hr as [Hs Hok]; apply andb_prop in Hl as [_ Hg%N.eqb_eq]; (split; [|exact Hok]);
    (eapply submits_weaken; [exact Hs | | done]); intros c [Hc Hst]; (split; [exact Hc|]); (split; [exact Hst|]);
    intros Hu; by rewrite Hst, stamp_law.
Qed.
End Sessions.

Lemma session_commands_stamped_witness :
  let s := {| session_generation := 0; stream_session_id := 5; active := true |} in
  let op := Append 3 (str "body") None (Some (str "kind")) in
  let w := answering [Ok (be_bytes 1 0 ++ field_bytes (be_bytes 8 3))] in
  let '(r, w') := run_op s op w in
  r = Ok tt
  /\ submits (fun c => is_command true message_type.STREAM_APPEND 0 (op_payload s op) c
                       /\ sent_generation c = stamp_of w /\ (undisturbed w -> sent_generation c = 0)) 1 w w'
  /\ op_payload s op = be_bytes 8 5 ++ be_bytes 8 3 ++ field_bytes (str "body") ++ be_bytes 1 0
                         ++ be_bytes 1 1 ++ field_bytes (str "kind").
Proof.
  cbn zeta.
  destruct (run_op {| session_generation := 0; stream_session_id := 5; active := true |}
    (Append 3 (str "body") None (Some (str "kind")))
    (answering [Ok (be_bytes 1 0 ++ field_bytes (be_bytes 8 3))])) as [r w'] eqn:E.
  split; [revert E; vm_compute; by intros [= <- _]|].
  apply session_commands_stamped in E as [[Hs _] Hp]. split; [exact Hs|]. apply Hp. by repeat split.
Defined.
