(* ===== verification/Notice.v ===== *)
(** * Notice

    [src/src/client_domains/notice.rs]: the Notice client, whose handles share
    one wire subscription per pattern and can be ended together.

    A handle's [active] flag is shared with the other handles of its wire
    subscription, so it is a cell named by the registration's key.  The map is
    held under an asynchronous mutex; a handle reads its flag before it waits
    for the mutex, so [unsubscribe] is two steps. *)

From S2P Require Import Prelude Errors Protocol Codec Routes Responses Shared Conn Subscriptions SharedSubs.

Record NoticeMessage : Set := { notice_route : bytes; notice_body : bytes }.

Record NoticeSubscription : Set := { handle : Handle; receiver : Inbox; closed : bool }.

(** The client's map, and the [active] flags by registration key. *)
Record NoticeState : Type := { subscriptions : Subs; flags_of : gmap N bool }.

Definition set_subscriptions (f : Subs -> Subs) (n : NoticeState) : NoticeState :=
  {| subscriptions := f (subscriptions n); flags_of := flags_of n |}.
Definition store_flag (r : RestorableRegistration) (b : bool) (n : NoticeState) : NoticeState :=
  {| subscriptions := subscriptions n; flags_of := <[key r := b]> (flags_of n) |}.
Definition load_flag (r : RestorableRegistration) (n : NoticeState) : bool :=
  default false (flags_of n !! key r).

Definition decode_subscription_id (response : bytes) : Result N :=
  run_dec
    (status <- get_u8;;
     if status =? 0 then
       left <- bytes_left;;
       (if left =? 9 then
          present <- get_u8;;
          if negb (present =? 1)
          then dec_fail (Protocol (str "NOTICE SUBSCRIBE response omitted subscription id"))
          else mret tt
        else mret tt);;
       get_u64
     else if status =? 1 then fail_domain_error
     else dec_fail (Protocol (str "NOTICE SUBSCRIBE returned status " ++ dec status))) response.

Definition decode_message : Dec NoticeMessage :=
  route <- get_string;; body <- get_bytes;; mret {| notice_route := route; notice_body := body |}.

(** [u32::try_from(body.len())]. *)
Definition publish_payload (route body : bytes) : Result bytes :=
  if u32_max <? blen body then Err (FrameTooLarge (blen body))
  else Ok (finish (PayloadEncoder_new .> put_string route .> put_u32 (blen body) .> put_raw body)).

Section NoticeClient.
Context {W : Type} `{BrokerLink W}.

Definition publish (route body : bytes) : IO W unit :=
  io_lift (validate_fixed_route route (str "notice") 3);;
  payload <- io_lift (publish_payload route body);;
  send message_type.NOTICE_PUBLISH payload.

Definition publish_with_ack (route body : bytes) : IO W unit :=
  io_lift (validate_fixed_route route (str "notice") 3);;
  payload <- io_lift (publish_payload route body);;
  response <- request_with_flags message_type.NOTICE_PUBLISH payload 1;;
  io_lift (decode_ok response).

Definition get_state : IO (W * NoticeState) NoticeState := on_state (fun n => (Ok n, n)).
Definition update (f : NoticeState -> NoticeState) : IO (W * NoticeState) unit := on_state (fun n => (Ok tt, f n)).

Definition subscribe (pattern : bytes) : IO (W * NoticeState) NoticeSubscription :=
  io_lift (validate_registration_pattern pattern (str "notice") 0);;
  n <- get_state;;
  registration <-
    match subscriptions n !! pattern with
    | Some shared =>
        (update (set_subscriptions <[pattern := set_references (references shared + 1) shared]>);;
         mret (shared_registration shared))
    | None =>
        (response <- on_link (request message_type.NOTICE_SUBSCRIBE (pattern_payload pattern));;
         subscription_id <- io_lift (decode_subscription_id response);;
         registration <- on_link (io_register {| reg_message_type := message_type.NOTICE_SUBSCRIBE;
                                                 reg_payload := pattern_payload pattern;
                                                 reg_decoder := decode_subscription_id |} subscription_id);;
         update (store_flag registration true);;
         update (set_subscriptions
           <[pattern := {| shared_registration := registration; references := 1 |}]>);;
         mret registration)
    end;;
  mret {| handle := {| handle_pattern := pattern; handle_registration := registration |};
          receiver := {| events := []; ended := false |}; closed := false |}.

(** [for shared in subscriptions.values() { deactivate; active.store(false) }]. *)
Fixpoint end_all (shared : list SharedSub) : IO (W * NoticeState) unit :=
  match shared with
  | [] => mret tt
  | s :: shared =>
      (on_link (io_deregister (shared_registration s));;
       update (store_flag (shared_registration s) false);;
       end_all shared)
  end.

Definition unsubscribe_all : IO (W * NoticeState) unit :=
  n <- get_state;;
  response <- on_link (request message_type.NOTICE_UNSUBSCRIBE_ALL []);;
  io_lift (decode_ok response);;
  end_all (map snd (map_to_list (subscriptions n)));;
  update (set_subscriptions (fun _ => ∅)).

(** [unsubscribe], from the moment it holds the mutex. *)
Definition unsubscribe_locked (h : Handle) : IO (W * NoticeState) unit :=
  n <- get_state;;
  match subscriptions n !! handle_pattern h with
  | None => mret tt
  | Some shared =>
      if 1 <? references shared
      then update (set_subscriptions
             <[handle_pattern h := set_references (references shared - 1) shared]>)
      else
        (subscription_id <- on_link (io_get (wire_id_of (handle_registration h)));;
         response <- on_link (request message_type.NOTICE_UNSUBSCRIBE
                       (finish (PayloadEncoder_new .> put_u64 subscription_id)));;
         io_lift (decode_ok response);;
         on_link (io_deregister (handle_registration h));;
         update (store_flag (handle_registration h) false);;
         update (set_subscriptions (base.delete (handle_pattern h))))
  end.

Definition unsubscribe (s : NoticeSubscription) : IO (W * NoticeState) unit :=
  n <- get_state;;
  if negb (load_flag (handle_registration (handle s)) n) then mret tt else unsubscribe_locked (handle s).

Definition poll_next (s : NoticeSubscription) (st : W * NoticeState) : Poll NoticeMessage * NoticeSubscription :=
  if closed s || negb (load_flag (handle_registration (handle s)) st.2) then (Ready None, s)
  else
    let '(p, i) := poll_inbox (wire_id_of (handle_registration (handle s)) st.1) (AfterId decode_message)
                     (str "Notice subscription buffer is full") (receiver s) in
    (p, {| handle := handle s; receiver := i; closed := closed s |}).
End NoticeClient.

(** ** Ending every subscription *)

Section Bulk.
Context {W : Type} `{LinkLaws W}.

Lemma end_all_spec shared : forall w n, exists w',
  end_all shared (w, n)
  = (Ok tt, (w', fold_left (fun n s => store_flag (shared_registration s) false n) shared n))
  /\ sent_by w' = sent_by w.
Proof.
  induction shared as [|s shared IH]; intros w n; [by exists w|].
  cbn [end_all fold_left]. unfold mbind, IO_mbind, on_link, io_deregister, update, on_state.
  destruct (deregister (shared_registration s) w) as [reg w1] eqn:E.
  apply deregister_law in E as (Hs & _). destruct (IH w1 (store_flag (shared_registration s) false n)) as (w' & -> & Hw).
  exists w'. split; [done|]. by rewrite Hw.
Qed.

Lemma fold_flags shared k : forall n,
  (exists s, s ∈ shared /\ key (shared_registration s) = k) \/ flags_of n !! k = Some false ->
  flags_of (fold_left (fun n s => store_flag (shared_registration s) false n) shared n) !! k = Some false.
Proof.
  induction shared as [|s shared IH]; intros n Hk; cbn [fold_left].
  - destruct Hk as [(s & Hs & _)|?]; [by apply not_elem_of_nil in Hs | done].
  - apply IH. destruct (decide (key (shared_registration s) = k)) as [<-|Hne].
    + right. unfold store_flag. cbn [flags_of]. by rewrite lookup_insert_eq.
    + destruct Hk as [(s' & Hs' & Hk)|Hk].
      * left. exists s'. split; [|done]. apply elem_of_cons in Hs' as [->|?]; [by destruct Hne | done].
      * right. unfold store_flag. cbn [flags_of]. by rewrite lookup_insert_ne.
Qed.

(** Ending every subscription submits one command.  When the broker
    accepts it, no pattern is counted any more and every handle of a counted
    subscription has ended: its stream yields nothing more, whatever is still in
    its buffer, and unsubscribing it submits nothing.  When it fails, the
    client's state is untouched and the handles stay active. *)
Theorem unsubscribe_all_ends_handles (w w' : W) n n' r :
  unsubscribe_all (w, n) = (r, (w', n')) ->
  submits (fun s => is_command true message_type.NOTICE_UNSUBSCRIBE_ALL 0 [] s) 1 w w'
  /\ if is_ok r
     then subscriptions n' = ∅
          /\ (forall p shared s, subscriptions n !! p = Some shared ->
                handle_registration (handle s) = shared_registration shared ->
                (poll_next s (w', n')).1 = Ready None /\ unsubscribe s (w', n') = (Ok tt, (w', n')))
     else n' = n.
Proof.
  unfold unsubscribe_all, get_state, update, on_state, on_link, io_lift, mbind, IO_mbind.
  destruct (request message_type.NOTICE_UNSUBSCRIBE_ALL [] w) as [r1 w1] eqn:E.
  apply request_law in E as [Hs _].
  assert (Hsub : submits (fun s => is_command true message_type.NOTICE_UNSUBSCRIBE_ALL 0 [] s) 1 w w1)
    by (eapply submits_weaken; [exact Hs | by intros s [? _] | done]).
  destruct r1 as [response|e]; [|intros [= <- <- <-]; by split].
  destruct (decode_ok response) as [[]|e]; [|intros [= <- <- <-]; by split].
  destruct (end_all_spec (map snd (map_to_list (subscriptions n))) w1 n) as (w2 & -> & Hw2).
  intros [= <- <- <-]. split.
  { destruct Hsub as (ss & Hss & ?). exists ss. by rewrite Hw2, Hss. }
  cbn [is_ok]. split; [done|]. intros p shared s Hp Hh.
  assert (Hflag : load_flag (handle_registration (handle s)) (set_subscriptions (fun _ => ∅)
    (fold_left (fun n s => store_flag (shared_registration s) false n)
       (map snd (map_to_list (subscriptions n))) n)) = false).
  { unfold load_flag. cbn [set_subscriptions flags_of]. rewrite fold_flags; [done|]. left.
    exists shared. split; [|by rewrite Hh]. apply list_elem_of_fmap. exists (p, shared).
    split; [done | by apply elem_of_map_to_list]. }
  unfold poll_next, unsubscribe, get_state, on_state, mbind, IO_mbind. cbn [snd]. rewrite Hflag, orb_true_r. done.
Qed.
End Bulk.

Definition sample_pattern : bytes := str "notice://realm/area/*".
Definition subscribed_with (id : N) : bytes := be_bytes 1 0 ++ be_bytes 8 id.
Definition no_subscriptions : NoticeState := {| subscriptions := ∅; flags_of := ∅ |}.

(** The first subscription of a client, and whether its handle is pending and
    has the registration that is counted. *)
Definition first_subscription : Result NoticeSubscription * (World * NoticeState) :=
  subscribe sample_pattern (answering [Ok (subscribed_with 42); Ok [Byte.x00]], no_subscriptions).
Definition first_counted (x : Result NoticeSubscription * (World * NoticeState)) : bool :=
  match fst x, subscriptions (snd (snd x)) !! sample_pattern with
  | Ok s, Some shared =>
      (key (handle_registration (handle s)) =? key (shared_registration shared))
      && Bool.eqb (registered (handle_registration (handle s))) (registered (shared_registration shared))
      && match fst (poll_next s (snd x)) with Pending => true | Ready _ => false end
  | _, _ => false
  end.

Lemma first_counted_spec s w n :
  first_counted (s, (w, n)) = true ->
  exists h shared, s = Ok h /\ subscriptions n !! sample_pattern = Some shared
    /\ handle_registration (handle h) = shared_registration shared /\ (poll_next h (w, n)).1 = Pending.
Proof.
  unfold first_counted. cbn [fst snd]. destruct s as [h|]; [|done].
  destruct (subscriptions n !! sample_pattern) as [shared|]; [|done].
  intros [[Hk%N.eqb_eq Hr%Bool.eqb_prop]%andb_true_iff Hp]%andb_true_iff. exists h, shared.
  split; [done|]. split; [done|]. split; [|by destruct (poll_next h (w, n)).1].
  destruct (handle_registration (handle h)), (shared_registration shared). cbn in *. by subst.
Qed.

Lemma unsubscribe_all_ends_handles_witness :
  let '(s, (w, n)) := first_subscription in
  let '(r, (w', n')) := unsubscribe_all (w, n) in
  r = Ok tt
  /\ submits (fun s => is_command true message_type.NOTICE_UNSUBSCRIBE_ALL 0 [] s) 1 w w'
  /\ subscriptions n' = ∅
  /\ match s with Ok s => (poll_next s (w, n)).1 = Pending /\ (poll_next s (w', n')).1 = Ready None | Err _ => False end.
Proof.
  assert (Hf : first_counted first_subscription = true) by (vm_compute; reflexivity).
  assert (Hok : is_ok (fst (unsubscribe_all (snd first_subscription))) = true) by (vm_compute; reflexivity).
  destruct first_subscription as [s [w n]]. cbn [snd] in Hok.
  destruct (unsubscribe_all (w, n)) as [r [w' n']] eqn:E2. cbn [fst] in Hok.
  pose proof (unsubscribe_all_ends_handles w w' n n' r E2) as [Hs Hr].
  apply first_counted_spec in Hf as (h & shared & -> & Hp & Hreg & Hpoll).
  rewrite Hok in Hr. destruct Hr as [Hn Hh]. destruct r as [[]|]; [|discriminate Hok].
  split; [reflexivity|]. split; [exact Hs|]. split; [exact Hn|]. split; [exact Hpoll|].
  exact (proj1 (Hh sample_pattern shared h Hp Hreg)).
Defined.

(** ** A late unsubscribe *)

(** The flag a handle reads before it waits for the mutex may be out of
    date when it gets it.  A handle that is being unsubscribed while every
    subscription is ended and its pattern is subscribed anew takes the new
    entry for its own: it asks the broker to cancel a wire id that is already
    gone and removes the new entry.  The new handle is active and its
    registration restorable, but it is no longer counted: unsubscribing it
    submits nothing, so the broker keeps its subscription. *)
Theorem late_unsubscribe_removes_new_subscription :
  let st := (answering [Ok (subscribed_with 42); Ok [Byte.x00]; Ok (subscribed_with 43); Ok [Byte.x00]],
             no_subscriptions) in
  exists a b w n,
    (a <- subscribe sample_pattern;;
     flag <- io_get (fun st => load_flag (handle_registration (handle a)) st.2);;
     unsubscribe_all;;
     b <- subscribe sample_pattern;;
     (if flag : bool then unsubscribe_locked (handle a) else mret tt);;
     mret (a, b)) st = (Ok (a, b), (w, n))
    /\ map sent_type (log w) = [message_type.NOTICE_SUBSCRIBE; message_type.NOTICE_UNSUBSCRIBE_ALL;
                                message_type.NOTICE_SUBSCRIBE; message_type.NOTICE_UNSUBSCRIBE]
    /\ option_map sent_payload (last (log w)) = Some (be_bytes 8 42)
    /\ subscriptions n !! sample_pattern = None
    /\ load_flag (handle_registration (handle b)) n = true
    /\ is_Some (registrations (shared w) !! key (handle_registration (handle b)))
    /\ unsubscribe b (w, n) = (Ok tt, (w, n)).
Proof. do 4 eexists. split; [vm_compute; reflexivity|]. vm_compute. repeat split. by eexists. Qed.
