(* ===== verification/Lease.v ===== *)
(** * Lease

    [src/src/client_domains/lease.rs]: the Lease client, its LIST pages, the
    subscription stream, and the handle of one held lease.  The observer and
    [with_lease] are built on it in [LeaseObserver] and [WithLease].

    [acquire] is in two parts, before and after the wait for a deferred
    completion, so that what arrives in between is explicit. *)

From S2P Require Import Prelude Errors Protocol Codec Routes Responses Shared Conn Subscriptions.

(** ** Data *)

Record LeaseAcquireOptions : Set := { wait_seconds : N }.

Record LeaseInfo : Set := {
  held : bool;
  info_owner_id : option bytes;
  ttl_remaining_secs : option N;
  pending_waiters : N;
}.

Record LeaseListCursor : Set := { snapshot_id : N; offset : N }.
#[export] Instance LeaseListCursor_eq : EqDecision LeaseListCursor.
Proof. solve_decision. Defined.

Record LeaseListItem : Set := {
  li_route : bytes;
  li_owner_id : bytes;
  holder_incarnation : N;
  acquired_at : bytes;
  expires_in_secs : N;
  renewals : N;
}.

Record LeaseListPage : Set := { items : list LeaseListItem; next_cursor : option LeaseListCursor }.

Record LeaseHandle : Set := {
  handle_generation : N;
  handle_route : bytes;
  owner_id : bytes;
  fencing_token : N;
  released : bool;
}.

Record LeaseChangeNotification : Set := { ln_route : bytes }.

Record LeaseSubscription : Set := {
  sub_route : bytes;
  registration : RestorableRegistration;
  receiver : Inbox;
  closed : bool;
}.

Definition set_token (token : N) (h : LeaseHandle) : LeaseHandle :=
  {| handle_generation := handle_generation h; handle_route := handle_route h; owner_id := owner_id h;
     fencing_token := token; released := released h |}.
Definition set_released (h : LeaseHandle) : LeaseHandle :=
  {| handle_generation := handle_generation h; handle_route := handle_route h; owner_id := owner_id h;
     fencing_token := fencing_token h; released := true |}.

(** A client is its acquisition gate, which its clones share: the task inside
    [acquire], if any.  [lock] waits while there is one. *)
Record LeaseClient : Set := { gate : option N }.
Definition LeaseClient_new : LeaseClient := {| gate := None |}.
Definition lock (task : N) (c : LeaseClient) : option LeaseClient :=
  match gate c with None => Some {| gate := Some task |} | Some _ => None end.

(** ** Responses *)

(** The decoder it returns is the state of the reader. *)
Definition lease_success (operation : bytes) : Dec unit :=
  status <- get_u8;;
  if status =? 0 then mret tt
  else if status =? 1 then fail_domain_error
  else dec_fail (Protocol (str "Lease " ++ operation ++ str " returned status " ++ dec status)).

Definition decode_subscription_id (response : bytes) : Result N :=
  run_dec
    (lease_success (str "SUBSCRIBE");;
     subscription_id <- get_u64;;
     fin <- at_end;;
     if fin : bool then mret subscription_id
     else dec_fail (Protocol (str "lease SUBSCRIBE response has trailing bytes"))) response.

(** What the answer to an ACQUIRE says: granted, or the completion is deferred. *)
Inductive Admission : Set :=
| Granted (token : N)
| Deferred.

Definition decode_acquire (wait_seconds : N) : Dec Admission :=
  lease_success (str "ACQUIRE");;
  kind <- get_u8;;
  if kind =? 3 then dec_fail LeaseAlreadyQueued
  else if kind <? 2 then token <- get_u64;; mret (Granted token)
  else if (kind =? 2) && (0 <? wait_seconds) then mret Deferred
  else dec_fail (DomainWire 5050 0 0 (str "lease acquisition queued")).

Definition decode_completion : Dec N :=
  lease_success (str "ACQUIRE");;
  completion_kind <- get_u8;;
  if 1 <? completion_kind then dec_fail (Protocol (str "deferred ACQUIRE remained queued"))
  else get_u64.

Definition decode_item : Dec LeaseListItem :=
  route <- get_string;;
  owner <- get_string;;
  incarnation <- get_u64;;
  acquired <- get_string;;
  expires <- get_u64;;
  renewed <- get_u32;;
  mret {| li_route := route; li_owner_id := owner; holder_incarnation := incarnation;
          acquired_at := acquired; expires_in_secs := expires; renewals := renewed |}.

Definition invalid_has_next (v : N) : FitzError :=
  Protocol (str "Lease LIST response has invalid has_next byte " ++ dec v).

Definition list_trailing : FitzError := Protocol (str "Lease LIST response has trailing bytes").

Definition decode_cursor : Dec (option LeaseListCursor) :=
  has_next <- get_u8;;
  if has_next =? 0 then mret None
  else if has_next =? 1 then
    snapshot_id <- get_u64;; offset <- get_u32;;
    mret (Some {| snapshot_id := snapshot_id; offset := offset |})
  else dec_fail (invalid_has_next has_next).

(** The capacity it reserves first is bounded by the payload and has no effect
    on the result. *)
Definition decode_list_fields : Dec LeaseListPage :=
  item_count <- get_u32;;
  items <- get_list (N.to_nat item_count) decode_item;;
  next_cursor <- decode_cursor;;
  mret {| items := items; next_cursor := next_cursor |}.

Definition decode_list_page : Dec LeaseListPage :=
  page <- decode_list_fields;;
  fin <- at_end;;
  if fin : bool then mret page else dec_fail list_trailing.

Definition decode_list (response : bytes) : Result LeaseListPage :=
  run_dec (lease_success (str "LIST");; decode_list_page) response.

Definition decode_query : Dec LeaseInfo :=
  lease_success (str "QUERY");;
  held <- get_u8;;
  if held =? 1 then
    owner <- get_string;; ttl <- get_u64;; waiters <- get_u32;;
    mret {| held := true; info_owner_id := Some owner; ttl_remaining_secs := Some ttl; pending_waiters := waiters |}
  else
    waiters <- get_u32;;
    mret {| held := false; info_owner_id := None; ttl_remaining_secs := None; pending_waiters := waiters |}.

(** ** Requests *)

Definition acquire_payload (route owner : bytes) (ttl_secs wait : N) : bytes :=
  finish (PayloadEncoder_new .> put_string route .> put_string owner .> put_u64 ttl_secs .> put_u32 wait).

Definition list_payload (pattern : bytes) (cursor : option LeaseListCursor) (limit : N) : bytes :=
  let e := PayloadEncoder_new .> put_string pattern in
  let e := match cursor with
           | Some c => e .> put_u8 1 .> put_u64 (snapshot_id c) .> put_u32 (offset c)
           | None => e .> put_u8 0
           end in
  finish (e .> put_u32 limit).

(** What every command of a handle starts with. *)
Definition handle_encoder (h : LeaseHandle) : PayloadEncoder :=
  PayloadEncoder_new .> put_string (handle_route h) .> put_string (owner_id h) .> put_u64 (fencing_token h).

Definition release_payload (h : LeaseHandle) : bytes := finish (handle_encoder h).

(** ** The client *)

(** [deferred.recv()]: nothing while the receiver has nothing; a lagged or
    closed receiver is an error. *)
Definition recv (i : Inbox) : option (Result bytes) :=
  match events i with
  | Received payload :: _ => Some (Ok payload)
  | Lagged :: _ => Some (Err ConnectionClosed)
  | [] => if ended i then Some (Err ConnectionClosed) else None
  end.

Section Client.
Context {W : Type} `{BrokerLink W}.

(** Up to the wait, under the acquisition gate; the receiver of deferred
    completions is subscribed before the request. *)
Definition acquire_request (route owner : bytes) (ttl_secs : N) (options : LeaseAcquireOptions) :
    IO W Admission :=
  io_lift (validate_fixed_route route (str "lease") 3);;
  response <- request message_type.LEASE_ACQUIRE (acquire_payload route owner ttl_secs (wait_seconds options));;
  io_lift (run_dec (decode_acquire (wait_seconds options)) response).

(** The token, once there is one. *)
Definition deferred_token (admission : Admission) (deferred : Inbox) : option (Result N) :=
  match admission with
  | Granted token => Some (Ok token)
  | Deferred =>
      match recv deferred with
      | Some (Ok payload) => Some (run_dec decode_completion payload)
      | Some (Err e) => Some (Err e)
      | None => None
      end
  end.

(** From the wait on; [None] while it waits. *)
Definition acquire_finish (route owner : bytes) (admission : Admission) (deferred : Inbox) :
    IO W (option LeaseHandle) :=
  match deferred_token admission deferred with
  | Some token =>
      token <- io_lift token;;
      generation <- io_get generation_of;;
      mret (Some {| handle_generation := generation; handle_route := route; owner_id := owner;
                    fencing_token := token; released := false |})
  | None => mret None
  end.

(** [waiting]: what other tasks do while the completion is awaited. *)
Definition await_completion (admission : Admission) (waiting : W -> W) : IO W unit := fun w =>
  (Ok tt, match admission with Granted _ => w | Deferred => waiting w end).

Definition acquire (route owner : bytes) (ttl_secs : N) (options : LeaseAcquireOptions)
    (deferred : Inbox) (waiting : W -> W) : IO W (option LeaseHandle) :=
  admission <- acquire_request route owner ttl_secs options;;
  await_completion admission waiting;;
  acquire_finish route owner admission deferred.

Definition list_leases (pattern : bytes) (cursor : option LeaseListCursor) (limit : N) : IO W LeaseListPage :=
  io_lift (validate_registration_pattern pattern (str "lease") 3);;
  response <- request_replayable message_type.LEASE_LIST (list_payload pattern cursor limit);;
  io_lift (decode_list response).

Definition query (route : bytes) : IO W LeaseInfo :=
  io_lift (validate_fixed_route route (str "lease") 3);;
  response <- request_replayable message_type.LEASE_QUERY (finish (PayloadEncoder_new .> put_string route));;
  io_lift (run_dec decode_query response).

Definition subscribe (pattern : bytes) : IO W LeaseSubscription :=
  io_lift (validate_registration_pattern pattern (str "lease") 3);;
  let payload := finish (PayloadEncoder_new .> put_string pattern) in
  response <- request message_type.LEASE_SUBSCRIBE payload;;
  subscription_id <- io_lift (decode_subscription_id response);;
  registration <- io_register {| reg_message_type := message_type.LEASE_SUBSCRIBE; reg_payload := payload;
                                 reg_decoder := decode_subscription_id |} subscription_id;;
  mret {| sub_route := pattern; registration := registration;
          receiver := {| events := []; ended := false |}; closed := false |}.

(** ** Handles: the state is the connection and the handle *)

Definition current : IO (W * LeaseHandle) unit := fun '(w, h) =>
  (if released h || negb (generation_of w =? handle_generation h) then Err StaleHandle else Ok tt, (w, h)).

Definition extend (ttl_secs : N) : IO (W * LeaseHandle) unit :=
  current;;
  h <- io_get snd;;
  response <- on_link (request message_type.LEASE_RENEW (finish (handle_encoder h .> put_u64 ttl_secs)));;
  token <- io_lift (run_dec (lease_success (str "RENEW");; get_u64) response);;
  on_state (fun h => (Ok tt, set_token token h)).

(** The body of [release]; the handle it consumes is dropped after it. *)
Definition release : IO (W * LeaseHandle) unit :=
  current;;
  h <- io_get snd;;
  response <- on_link (request message_type.LEASE_RELEASE (release_payload h));;
  io_lift (run_dec (lease_success (str "RELEASE")) response);;
  on_state (fun h => (Ok tt, set_released h)).

(** The request the drop of a handle spawns, if any. *)
Definition handle_drop (runtime : bool) (w : W) (h : LeaseHandle) : option bytes :=
  if released h || negb (generation_of w =? handle_generation h) then None
  else if runtime then Some (release_payload h) else None.

(** ** Subscriptions *)

Definition unsubscribe_in_place : IO (W * LeaseSubscription) unit := fun '(w, s) =>
  if closed s then (Ok tt, (w, s))
  else
    let '(reg, w) := deregister (registration s) w in
    let s := {| sub_route := sub_route s; registration := reg; receiver := receiver s; closed := true |} in
    on_link
      (response <- request message_type.LEASE_UNSUBSCRIBE (finish (PayloadEncoder_new .> put_string (sub_route s)));;
       io_lift (run_dec (lease_success (str "UNSUBSCRIBE")) response)) (w, s).

Definition decode_change : Dec LeaseChangeNotification := route <- get_string;; mret {| ln_route := route |}.

Definition buffer_full : bytes := str "Lease subscription buffer is full".

(** The body of [poll_next], for the wire id its registration reads. *)
Definition poll_subscription (wire : N) (s : LeaseSubscription) : Poll LeaseChangeNotification * LeaseSubscription :=
  if closed s then (Ready None, s)
  else
    let '(p, i) := poll_inbox wire (AfterId decode_change) buffer_full (receiver s) in
    (p, {| sub_route := sub_route s; registration := registration s; receiver := i; closed := closed s |}).

Definition poll_next (s : LeaseSubscription) (w : W) : Poll LeaseChangeNotification * LeaseSubscription :=
  poll_subscription (wire_id_of (registration s) w) s.
End Client.

(** ** LIST pages *)

Local Arguments be_bytes : simpl never.

Definition item_bytes (i : LeaseListItem) : bytes :=
  field_bytes (li_route i) ++ field_bytes (li_owner_id i) ++ be_bytes 8 (holder_incarnation i)
  ++ field_bytes (acquired_at i) ++ be_bytes 8 (expires_in_secs i) ++ be_bytes 4 (renewals i).

Definition text_ok (s : bytes) : Prop := blen s <= u32_max /\ utf8_valid s = true.

Definition item_ok (i : LeaseListItem) : Prop :=
  text_ok (li_route i) /\ text_ok (li_owner_id i) /\ holder_incarnation i < 2 ^ 64
  /\ text_ok (acquired_at i) /\ expires_in_secs i < 2 ^ 64 /\ renewals i < 2 ^ 32.

Definition cursor_bytes (c : option LeaseListCursor) : bytes :=
  match c with
  | None => be_bytes 1 0
  | Some c => be_bytes 1 1 ++ be_bytes 8 (snapshot_id c) ++ be_bytes 4 (offset c)
  end.
Definition cursor_ok (c : option LeaseListCursor) : Prop :=
  match c with None => True | Some c => snapshot_id c < 2 ^ 64 /\ offset c < 2 ^ 32 end.

Definition page_bytes (p : LeaseListPage) : bytes :=
  be_bytes 4 (blen (items p)) ++ concat (map item_bytes (items p)) ++ cursor_bytes (next_cursor p).
Definition page_ok (p : LeaseListPage) : Prop :=
  blen (items p) <= u32_max /\ Forall item_ok (items p) /\ cursor_ok (next_cursor p).

#[export] Instance exact_item : Exact decode_item (encodes item_ok item_bytes).
Proof.
  eapply exact_iff; [unfold decode_item; exact_step|]. intros i l. split.
  - destruct i. intros [((? & ?) & (? & ?) & ? & (? & ?) & ? & ?) ->].
    unfold item_bytes, field_bytes. cbn in *. enc_fields.
  - intros H. enc_inv. done.
Qed.
#[export] Hint Resolve exact_item : fitz.

#[export] Instance exact_success operation : Exact (lease_success operation) (fun _ l => l = be_bytes 1 0).
Proof.
  eapply exact_iff; [unfold lease_success; exact_step|]. intros [] l. split.
  - intros ->. exists 0, (be_bytes 1 0), []. by rewrite app_nil_r.
  - intros (t & l1 & l2 & -> & [_ ->] & H). tag_cases; enc_inv. by rewrite app_nil_r.
Qed.
#[export] Hint Resolve exact_success : fitz.


#[export] Instance exact_cursor : Exact decode_cursor (encodes cursor_ok cursor_bytes).
Proof.
  unfold decode_cursor. eapply exact_iff; [exact_step|]. intros c l. split.
  - intros [Hc ->]. destruct c as [[snap off]|]; cbn [cursor_bytes snapshot_id offset].
    + destruct Hc. exists 1. do 2 eexists. split; [reflexivity|]. split; [by split | cbn; enc_fields].
    + exists 0, (be_bytes 1 0), []. by rewrite app_nil_r.
  - intros (t & l1 & l2 & -> & [_ ->] & H). tag_cases; enc_inv; [by rewrite app_nil_r | done].
Qed.
#[export] Hint Resolve exact_cursor : fitz.

#[export] Instance exact_list_fields : Exact decode_list_fields (encodes page_ok page_bytes).
Proof.
  eapply exact_iff; [unfold decode_list_fields; exact_step|]. intros [its c] l. split.
  - intros [(Hn & Hi & Hc) ->]. unfold page_bytes. cbn in *.
    exists (blen its). do 2 eexists. split; [reflexivity|].
    split; [apply enc_uint_intro; unfold u32_max in Hn; change (2 ^ _) with 4294967296; lia|].
    exists its. do 2 eexists. split; [reflexivity|].
    split; [split; [unfold blen; lia | by apply enc_items_encodes]|]. by exists c.
  - intros (n & l1 & l2 & -> & [Hn ->] & its' & l3 & l4 & -> & [Hl Hi] & c' & [= -> ->] & [Hc ->]).
    apply enc_items_encodes in Hi as [Hi ->]. assert (n = blen its') as -> by (unfold blen; lia).
    split; [|done]. split; [|done]. cbn. unfold u32_max. change (2 ^ _) with 4294967296 in Hn. lia.
Qed.
#[export] Hint Resolve exact_list_fields : fitz.

(** A LIST response is accepted exactly when it is the success tag followed
    by the canonical encoding of a page - its items and, if more pages follow,
    the cursor - with no byte left, and the page is the one encoded. *)
Theorem list_response_exact response page :
  decode_list response = Ok page <-> page_ok page /\ response = be_bytes 1 0 ++ page_bytes page.
Proof.
  unfold decode_list. rewrite run_whole by (unfold decode_list_page; whole_step). split.
  - intros H. enc_inv. done.
  - intros [Hok ->]. exists tt. by do 2 eexists.
Qed.

(** A page with one lease, and more to come. *)
Definition sample_page : LeaseListPage :=
  {| items := [{| li_route := str "lease://realm/area/leader"; li_owner_id := str "node-1";
                  holder_incarnation := 3; acquired_at := str "2024-01-01T00:00:00Z";
                  expires_in_secs := 30; renewals := 2 |}];
     next_cursor := Some {| snapshot_id := 9; offset := 1 |} |}.

Example sample_page_decodes : decode_list (be_bytes 1 0 ++ page_bytes sample_page) = Ok sample_page.
Proof. vm_compute. reflexivity. Qed.

(** ** Handles *)

Inductive HandleOp : Set :=
| Extend (ttl_secs : N)
| Release.

Definition run_handle {W} `{BrokerLink W} (op : HandleOp) : IO (W * LeaseHandle) unit :=
  match op with Extend ttl => extend ttl | Release => release end.

Definition handle_type (op : HandleOp) : N :=
  match op with Extend _ => message_type.LEASE_RENEW | Release => message_type.LEASE_RELEASE end.

Definition handle_payload (h : LeaseHandle) (op : HandleOp) : bytes :=
  match op with Extend ttl => finish (handle_encoder h .> put_u64 ttl) | Release => release_payload h end.

Definition handle_arguments (op : HandleOp) : bytes :=
  match op with Extend ttl => be_bytes 8 ttl | Release => [] end.

Definition handle_fits (h : LeaseHandle) : Prop :=
  blen (handle_route h) <= u32_max /\ blen (owner_id h) <= u32_max.

Lemma handle_payload_layout h op :
  handle_fits h ->
  handle_payload h op = field_bytes (handle_route h) ++ field_bytes (owner_id h)
                        ++ be_bytes 8 (fencing_token h) ++ handle_arguments op.
Proof.
  intros [Hr Ho].
  assert (He : enc_buf (handle_encoder h)
             = field_bytes (handle_route h) ++ field_bytes (owner_id h) ++ be_bytes 8 (fencing_token h)).
  { unfold handle_encoder. cbn [put_u64 Codec.extend enc_buf]. rewrite !put_string_buf by done. unfold field_bytes.
    by rewrite <- !app_assoc. }
  destruct op; cbn [handle_payload handle_arguments]; unfold release_payload, finish;
    cbn [put_u64 Codec.extend enc_buf]; rewrite He, <- ?app_assoc; [done | by rewrite app_nil_r].
Qed.

Section Handles.
Context {W : Type} `{LinkLaws W}.

Lemma acquire_handle route owner ttl_secs options deferred waiting (w : W) h w' :
  acquire route owner ttl_secs options deferred waiting w = (Ok (Some h), w') ->
  handle_route h = route /\ owner_id h = owner /\ released h = false.
Proof.
  unfold acquire. intros E. apply io_bind_inv in E as [(a & w1 & _ & E)|(e & _ & E)]; [|done].
  apply io_bind_inv in E as [([] & w2 & _ & E)|(e & _ & E)]; [|done]. revert E. unfold acquire_finish.
  destruct (deferred_token a deferred) as [[token|e]|]; [|done..]. cbn. by intros [= <- _].
Qed.

Definition live (w : W) (h : LeaseHandle) : bool := negb (released h) && (generation_of w =? handle_generation h).

Lemma current_spec w h : current (w, h) = (if live w h then Ok tt else Err StaleHandle, (w, h)).
Proof. unfold current, live. by destruct (released h), (_ =? _). Qed.

(** What the broker answers for a lease that is granted under [token]: at once,
    or after a wait, by a completion. *)
Definition grants (response : bytes) (token : N) : Prop :=
  exists kind tail, kind < 2 /\ token < 2 ^ 64 /\ response = be_bytes 1 0 ++ be_bytes 1 kind ++ be_bytes 8 token ++ tail.
Definition queues (response : bytes) : Prop := exists tail, response = be_bytes 1 0 ++ be_bytes 1 2 ++ tail.

Definition token_granted (w : W) (route owner : bytes) (ttl_secs wait token : N) (deferred : Inbox) : Prop :=
  exists response, (request message_type.LEASE_ACQUIRE (acquire_payload route owner ttl_secs wait) w).1 = Ok response
    /\ (grants response token
        \/ (0 < wait /\ queues response /\ exists completion, recv deferred = Some (Ok completion) /\ grants completion token)).

Lemma decode_acquire_answer wait response a :
  run_dec (decode_acquire wait) response = Ok a ->
  match a with Granted token => grants response token | Deferred => 0 < wait /\ queues response end.
Proof.
  intros E. eapply run_exact in E as (l & tail & -> & He); [|unfold decode_acquire; exact_step]. cbv beta in He. enc_inv.
  match goal with X : if ?k =? 3 then _ else _ |- _ => rename X into Hk; set (kind := k) in * end.
  destruct (kind =? 3); [done|]. destruct (N.ltb_spec kind 2).
  - destruct Hk as (token & -> & [Ht ->]). exists kind, tail. rewrite <- !app_assoc. done.
  - destruct (N.eqb_spec kind 2) as [->|]; [|done]. destruct (N.ltb_spec 0 wait); [|done].
    destruct Hk as [-> ->]. split; [done|]. exists tail. by rewrite app_nil_r, <- !app_assoc.
Qed.

Lemma decode_completion_answer response token :
  run_dec decode_completion response = Ok token -> grants response token.
Proof.
  intros E. eapply run_exact in E as (l & tail & -> & He); [|unfold decode_completion; exact_step]. cbv beta in He. enc_inv.
  match goal with X : if 1 <? ?k then _ else _ |- _ => rename X into Hk; set (kind := k) in * end.
  destruct (N.ltb_spec 1 kind); [done|]. destruct Hk as [Ht ->]. exists kind, tail. rewrite <- !app_assoc.
  split; [lia | done].
Qed.

Lemma acquire_token route owner ttl_secs options deferred waiting (w : W) h w' :
  acquire route owner ttl_secs options deferred waiting w = (Ok (Some h), w') ->
  token_granted w route owner ttl_secs (wait_seconds options) (fencing_token h) deferred.
Proof.
  unfold acquire, acquire_request. intros E. apply io_bind_inv in E as [(a & w1 & Ea & E)|(e & _ & E)]; [|done].
  apply io_bind_inv in Ea as [([] & w2 & Ev & Ea)|(e & _ & Ea)]; [|done]. injection Ev as _ <-.
  apply io_bind_inv in Ea as [(response & w3 & Er & Ea)|(e & _ & Ea)]; [|done]. injection Ea as Ea _.
  apply decode_acquire_answer in Ea. exists response. rewrite Er. split; [done|].
  apply io_bind_inv in E as [([] & w4 & _ & E)|(e & _ & E)]; [|done]. revert E. unfold acquire_finish, deferred_token.
  destruct a as [token|]; cbn; [intros [= <- _]; by left|]. destruct Ea as [Hwait Hq].
  destruct (recv deferred) as [[completion|e]|]; [|done..].
  destruct (run_dec decode_completion completion) as [token|e] eqn:Ed; [|done]. cbn. intros [= <- _].
  right. split; [done|]. split; [done|]. exists completion. split; [done|]. by apply decode_completion_answer.
Qed.

(** What the handle is after an operation that was called in [w] and returned
    [r]: after a RENEW that succeeded, it has the token that follows the success
    tag of the broker's answer. *)
Definition handle_after (w : W) (op : HandleOp) (r : Result unit) (h h' : LeaseHandle) : Prop :=
  match op, r with
  | Extend _, Ok _ =>
      exists token tail, token < 2 ^ 64
        /\ (request (handle_type op) (handle_payload h op) w).1 = Ok (be_bytes 1 0 ++ be_bytes 8 token ++ tail)
        /\ h' = set_token token h
  | Release, Ok _ =>
      (exists tail, (request (handle_type op) (handle_payload h op) w).1 = Ok (be_bytes 1 0 ++ tail))
      /\ h' = set_released h
  | _, Err _ => h' = h
  end.

(** A command of a handle called in [w]. *)
Definition handle_stamped (w : W) (h : LeaseHandle) (op : HandleOp) (s : Sent) : Prop :=
  is_command true (handle_type op) 0 (handle_payload h op) s
  /\ sent_generation s = stamp_of w /\ (undisturbed w -> sent_generation s = handle_generation h).

(** One command, then a decoder of its answer, then the handle's update. *)
Lemma handle_call {A} mt p (f : bytes -> Result A) (k : A -> LeaseHandle -> LeaseHandle) w h r w' h' :
  (response <- on_link (request mt p);; a <- io_lift (f response);;
   on_state (fun h => (Ok tt, k a h))) (w, h) = (r, (w', h')) ->
  submits (fun s => is_command true mt 0 p s /\ sent_generation s = stamp_of w) 1 w w'
  /\ (if is_ok r then sent_by w' <> sent_by w
                      /\ exists response a, (request mt p w).1 = Ok response /\ f response = Ok a /\ h' = k a h
       else h' = h).
Proof.
  unfold mbind, IO_mbind, on_link, io_lift, on_state.
  destruct (request mt p w) as [r1 w1] eqn:E. apply request_law in E as [Hs Hok].
  destruct r1 as [response|e]; [destruct (f response) as [a|e] eqn:Ef|]; intros [= <- <- <-]; (split; [exact Hs|]); cbn; eauto 7.
Qed.

Lemma renew_answer response token :
  run_dec (lease_success (str "RENEW");; get_u64) response = Ok token ->
  exists tail, token < 2 ^ 64 /\ response = be_bytes 1 0 ++ be_bytes 8 token ++ tail.
Proof.
  intros E. eapply run_exact in E as (l & tail & -> & He); [|exact_step]. cbv beta in He. enc_inv.
  exists tail. split; [done|]. by rewrite <- app_assoc.
Qed.
Lemma release_answer response :
  run_dec (lease_success (str "RELEASE")) response = Ok tt -> exists tail, response = be_bytes 1 0 ++ tail.
Proof. intros E. eapply run_exact in E as (l & tail & -> & He); [|apply exact_success]. cbv beta in He. subst. by exists tail. Qed.

Lemma live_handle op w h r w' h' :
  live w h = true -> run_handle op (w, h) = (r, (w', h')) ->
  submits (handle_stamped w h op) 1 w w' /\ (is_ok r = true -> sent_by w' <> sent_by w) /\ handle_after w op r h h'.
Proof.
  intros Hl E. assert (Hg : generation_of w = handle_generation h) by (unfold live in Hl; bool_to_prop; done).
  assert (Hb : forall m : LeaseHandle -> IO (W * LeaseHandle) unit, (current;; h <- io_get snd;; m h) (w, h) = m h (w, h)).
  { intros m. unfold mbind, IO_mbind. by rewrite current_spec, Hl. }
  assert (Hst : submits (fun s => is_command true (handle_type op) 0 (handle_payload h op) s /\ sent_generation s = stamp_of w) 1 w w' ->
    submits (handle_stamped w h op) 1 w w').
  { intros Hs. eapply submits_weaken; [exact Hs | | done]. intros s [Hc Hs']. split; [exact Hc|]. split; [exact Hs'|].
    intros Hu. by rewrite Hs', stamp_law. }
  destruct op as [ttl|]; cbn [run_handle] in E; unfold extend, release in E; rewrite Hb in E.
  - apply (handle_call _ _ _ set_token) in E as [Hs E]. split; [by apply Hst|]. cbn [handle_after].
    destruct r; cbn [is_ok] in E; [|done]. destruct E as (? & response & token & Er & Ef & ->). split; [done|].
    apply renew_answer in Ef as (tail & Ht & ->). by exists token, tail.
  - apply (handle_call _ _ _ (fun _ => set_released)) in E as [Hs E]. split; [by apply Hst|]. cbn [handle_after].
    destruct r; cbn [is_ok] in E; [|done]. destruct E as (? & response & [] & Er & Ef & ->). split; [done|].
    apply release_answer in Ef as (tail & ->). split; [by exists tail | done].
Qed.

Lemma stale_handle op w h r w' h' :
  live w h = false -> run_handle op (w, h) = (r, (w', h')) -> r = Err StaleHandle /\ w' = w /\ h' = h.
Proof.
  intros Hl E.
  assert (Hb : forall A (m : IO (W * LeaseHandle) A), (current;; m) (w, h) = (Err StaleHandle, (w, h))).
  { intros A m. unfold mbind, IO_mbind. by rewrite current_spec, Hl. }
  destruct op; cbn [run_handle] in E; unfold extend, release in E; rewrite Hb in E; by injection E as <- <- <-.
Qed.

(** C14: a command of a lease handle carries its route, its owner and its
    current fencing token and is submitted at most once; it is stamped with the
    generation found when it is queued, which is the handle's as long as no other
    thread moves it after the check.  A RENEW that succeeds replaces the token
    with the one of the broker's answer, a RELEASE that succeeds ends the handle,
    and an error, an uncertain one included, leaves the handle live with the
    token it had.  A handle that was released or belongs to an earlier session
    reports so and submits nothing, not even when it is dropped; the drop of any
    other handle, after a RELEASE that failed too, asks for its release once
    more. *)
Theorem handle_commands_stamped op w h r w' h' :
  run_handle op (w, h) = (r, (w', h')) ->
  (if live w h then
     submits (handle_stamped w h op) 1 w w'
     /\ (is_ok r = true -> sent_by w' <> sent_by w) /\ handle_after w op r h h'
   else r = Err StaleHandle /\ w' = w /\ h' = h)
  /\ (forall runtime, handle_drop runtime w h = if live w h && runtime then Some (handle_payload h Release) else None)
  /\ (handle_fits h -> handle_payload h op = field_bytes (handle_route h) ++ field_bytes (owner_id h)
                         ++ be_bytes 8 (fencing_token h) ++ handle_arguments op).
Proof.
  intros E. split; [|split].
  - destruct (live w h) eqn:Hl; [by apply live_handle|].
    by eapply stale_handle.
  - intros runtime. unfold handle_drop, live. by destruct (released h), (_ =? _), runtime.
  - intros Hf. by apply handle_payload_layout.
Qed.
End Handles.

Definition sample_handle : LeaseHandle :=
  {| handle_generation := 0; handle_route := str "lease://realm/area/leader"; owner_id := str "node-1";
     fencing_token := 7; released := false |}.

(** A renewal rotates the token; a released handle is stale. *)
Lemma handle_commands_stamped_witness :
  let w := answering [Ok (be_bytes 1 0 ++ be_bytes 8 8)] in
  let '(r, (w', h')) := run_handle (Extend 30) (w, sample_handle) in
  r = Ok tt /\ h' = set_token 8 sample_handle /\ live w sample_handle = true /\ undisturbed w
  /\ submits (handle_stamped w sample_handle (Extend 30)) 1 w w'
  /\ handle_after w (Extend 30) r sample_handle h'
  /\ run_handle Release (w, set_released sample_handle) = (Err StaleHandle, (w, set_released sample_handle)).
Proof.
  cbn zeta. destruct (run_handle (Extend 30) _) as [r [w' h']] eqn:E.
  assert (Hr : r = Ok tt /\ h' = set_token 8 sample_handle) by (revert E; vm_compute; by intros [= <- _ <-]).
  destruct Hr as [Hr Hh]. split; [exact Hr|]. split; [exact Hh|]. split; [by vm_compute|]. split; [by repeat constructor|].
  pose proof (handle_commands_stamped (Extend 30) _ sample_handle r w' h' E) as ((Hs & _ & Ha) & _).
  split; [exact Hs|]. split; [exact Ha | by vm_compute].
Defined.

(** ** Deferred completions *)

(** What waits in a receiver of [kind]. *)
Definition waiting_in (n : Notifications (Sender := History)) (kind : N) (r : nat) : Inbox :=
  {| events := match payloads n !! kind with Some s => map Received (sent_since s r) | None => [] end;
     ended := false |}.

Definition completion_bytes (token : N) : bytes := be_bytes 1 0 ++ be_bytes 1 0 ++ be_bytes 8 token.

(** An acquisition that waits: its route, its owner, and its receiver of
    completions, which was offered nothing yet. *)
Definition waits (n : Notifications (Sender := History)) (x : bytes * bytes * nat) : Prop :=
  offered (payloads n) message_type.LEASE_ACQUIRE x.2 [].

(** C37: deferred ACQUIRE completions are not correlated: one completion answers
    every acquisition of the connection that waits, whatever its route and its
    owner, so that all of them hold their lease with one fencing token.  The gate
    that serialises acquisitions does not prevent it, since it belongs to the
    client handle: a second acquisition through one handle waits for it, one
    through another handle does not. *)
Theorem deferred_completion_answers_both {W} `{BrokerLink W} n token at_ g waiters (w : W) :
  token < 2 ^ 64 -> Forall (waits n) waiters ->
  let n' := publish at_ message_type.LEASE_ACQUIRE (completion_bytes token) g n in
  Forall (fun x =>
    acquire_finish x.1.1 x.1.2 Deferred (waiting_in n' message_type.LEASE_ACQUIRE x.2) w
    = (Ok (Some {| handle_generation := generation_of w; handle_route := x.1.1; owner_id := x.1.2;
                   fencing_token := token; released := false |}), w)) waiters
  /\ (forall task, is_Some (lock task LeaseClient_new))
  /\ (forall c task c' other, lock task c = Some c' -> lock other c' = None).
Proof.
  intros Ht Hw. cbn zeta. split; [|split; [by eexists|]].
  - eapply Forall_impl; [exact Hw|]. intros [[route owner] r] (s & Hs & Hsub & Hsince). cbn [fst snd] in *.
    unfold acquire_finish, deferred_token, waiting_in. unfold publish. cbn [payloads]. rewrite lookup_alter_eq, Hs. cbn [fmap option_fmap option_map].
    rewrite (proj2 (broadcast_law _ _ _ _ Hsub)), Hsince.
    unfold recv. cbn [events map app].
    replace (run_dec decode_completion (completion_bytes token)) with (Ok token : Result N); [done|]. symmetry.
    eapply run_exact; [unfold decode_completion; exact_step|]. cbv beta.
    exists (completion_bytes token), []. split; [by rewrite app_nil_r|]. exists tt, (be_bytes 1 0). eexists.
    split; [reflexivity|]. split; [reflexivity|]. exists 0, (be_bytes 1 0), (be_bytes 8 token).
    split; [reflexivity|]. split; [by apply enc_uint_intro | by apply (enc_uint_intro 8)].
  - intros c task c' other. unfold lock. destruct (gate c); [done|]. by intros [= <-].
Qed.

(** Two acquisitions through two handles of one connection, both queued by the
    broker, and the one completion that arrives. *)
Definition two_waiters : Notifications (Sender := History) :=
  (Subscriptions.subscribe message_type.LEASE_ACQUIRE 16
    (Subscriptions.subscribe message_type.LEASE_ACQUIRE 16 Notifications_default).2).2.

Lemma deferred_completion_answers_both_witness :
  let a := str "lease://realm/area/a" in let b := str "lease://realm/area/b" in
  let options := {| wait_seconds := 10 |} in
  let w := answering [Ok (be_bytes 1 0 ++ be_bytes 1 2); Ok (be_bytes 1 0 ++ be_bytes 1 2)] in
  let '(first, w) := acquire_request a (str "node") 30 options w in
  let '(second, w) := acquire_request b (str "node") 30 options w in
  let completed := waiting_in (publish 0 message_type.LEASE_ACQUIRE (completion_bytes 7) 0 two_waiters) message_type.LEASE_ACQUIRE 0 in
  let held route := {| handle_generation := 0; handle_route := route; owner_id := str "node";
                       fencing_token := 7; released := false |} in
  first = Ok Deferred /\ second = Ok Deferred
  /\ acquire_finish a (str "node") Deferred completed w = (Ok (Some (held a)), w)
  /\ acquire_finish b (str "node") Deferred completed w = (Ok (Some (held b)), w).
Proof.
  cbn zeta.
  assert (Hw : forall x, waits two_waiters (x, 0%nat)).
  { intros x. eexists. split; [vm_compute; reflexivity|]. split; [cbn; lia | reflexivity]. }
  set (o1 := acquire_request (str "lease://realm/area/a") _ _ _ _).
  assert (H1 : fst o1 = Ok Deferred) by (vm_compute; reflexivity).
  assert (Hg1 : generation (shared (snd o1)) = 0) by (vm_compute; reflexivity).
  assert (H2 : fst (acquire_request (str "lease://realm/area/b") (str "node") 30 {| wait_seconds := 10 |} (snd o1)) = Ok Deferred)
    by (vm_compute; reflexivity).
  assert (Hg2 : generation (shared (snd (acquire_request (str "lease://realm/area/b") (str "node") 30 {| wait_seconds := 10 |} (snd o1)))) = 0)
    by (vm_compute; reflexivity).
  destruct o1 as [r1 w1]. cbn [fst snd] in *.
  destruct (acquire_request _ _ _ _ w1) as [r2 w2]. cbn [fst snd] in *.
  destruct (deferred_completion_answers_both two_waiters 7 0 0
    [(str "lease://realm/area/a", str "node", 0%nat); (str "lease://realm/area/b", str "node", 0%nat)] w2) as [Ha _];
    [reflexivity | by repeat (constructor; [apply Hw|])|].
  apply Forall_cons in Ha as [Ha1 Hb]. apply Forall_cons in Hb as [Hb1 _].
  change (generation_of w2) with (generation (shared w2)) in *. rewrite Hg2 in *.
  split; [exact H1|]. split; [exact H2|]. split; [exact Ha1 | exact Hb1].
Defined.
