(* ===== verification/WithLease.v ===== *)
(** * WithLease

    [LeaseClient::with_lease_authority_with_options]
    ([src/src/client_domains/lease.rs]): a callback that runs while a lease is
    held, renewed every third of its time to live, and released at the end.

    The callback, the timer and the other tasks are a list of turns: what the
    [select!] finds ready each time it wakes.  The function may end with the
    turns exhausted, and is then still running. *)

From S2P Require Import Prelude Errors Protocol Codec Routes Responses Shared Conn Subscriptions Lease.

(** ** Data *)

Record LeaseExecutionOptions : Set := { execution_wait_seconds : N }.
Definition LeaseExecutionOptions_default : LeaseExecutionOptions := {| execution_wait_seconds := 0 |}.

Record LeaseAuthority : Set := { authority_token : N }.

Inductive LeaseExecutionError (E : Type) : Type :=
| Acquisition (error : FitzError)
| Callback (error : E)
| OwnershipLost (error : FitzError)
| ReleaseFailed (error : FitzError)
| Combined (lifecycle : FitzError) (callback : E).
Arguments Acquisition {E} error.
Arguments Callback {E} error.
Arguments OwnershipLost {E} error.
Arguments ReleaseFailed {E} error.
Arguments Combined {E} lifecycle callback.

(** What [catch_unwind] makes of the callback. *)
Inductive Outcome (T E : Type) : Type :=
| Returned (r : result E T)
| Panicked.
Arguments Returned {T E} r.
Arguments Panicked {T E}.

(** How a call ended: with a result, by resuming the callback's panic, or not
    yet. *)
Inductive Ending (T E : Type) : Type :=
| Finished (r : result (LeaseExecutionError E) T)
| Unwound
| Running.
Arguments Finished {T E} r.
Arguments Unwound {T E}.
Arguments Running {T E}.

(** One wake of the [select!]: what happened meanwhile, the callback's outcome
    if it is ready, and whether the renewal timer is. *)
Record Turn (W T E : Type) : Type := {
  meanwhile : W -> W;
  callback_ready : option (Outcome T E);
  renewal_due : bool;
}.
Arguments meanwhile {W T E} t : rename.
Arguments callback_ready {W T E} t : rename.
Arguments renewal_due {W T E} t : rename.

(** An operation on the handle: the connection and the handle it was given, and
    its result. *)
Record Operation (W : Type) : Type := { op_at : W; op_kind : HandleOp; op_handle : LeaseHandle; op_result : Result unit }.
Arguments op_at {W} o : rename.
Arguments op_kind {W} o : rename.
Arguments op_handle {W} o : rename.
Arguments op_result {W} o : rename.

(** What a call did: its ending, the operations on its handle, the delays its renewal timer was set to,
    whether the callback was cancelled, and the RELEASE the drop of the handle
    spawned. *)
Record Execution (W T E : Type) : Type := {
  ending : Ending T E;
  operations : list (Operation W);
  timers : list duration;
  cancelled : bool;
  spawned : option bytes;
}.
Arguments ending {W T E} e : rename.
Arguments operations {W T E} e : rename.
Arguments timers {W T E} e : rename.
Arguments cancelled {W T E} e : rename.
Arguments spawned {W T E} e : rename.

(** ** Verdicts *)

Section Verdicts.
Context {T E : Type}.

(** After the callback returned and the lease was released. *)
Definition verdict (o : Outcome T E) (release : Result unit) : Ending T E :=
  match o with
  | Panicked => Unwound
  | Returned (Ok value) => match release with Ok _ => Finished (Ok value) | Err e => Finished (Err (ReleaseFailed e)) end
  | Returned (Err error) =>
      match release with Ok _ => Finished (Err (Callback error)) | Err e => Finished (Err (Combined e error)) end
  end.

(** After a renewal failed. *)
Definition verdict_lost (o : Outcome T E) (error : FitzError) : Ending T E :=
  match o with
  | Panicked => Unwound
  | Returned (Ok _) => Finished (Err (OwnershipLost error))
  | Returned (Err callback) => Finished (Err (Combined error callback))
  end.
End Verdicts.

(** [Duration::from_secs(ttl_secs) / 3]. *)
Definition renewal_interval (ttl_secs : N) : duration := secs ttl_secs / 3.

Definition ttl_error : FitzError := Protocol (str "lease TTL must be positive and schedulable").
Definition ttl_ok (ttl_secs : N) : bool := negb ((ttl_secs =? 0) || (u32_max / 1000 <? ttl_secs)).

(** ** The loop *)

Section Run.
Context {W T E : Type} `{BrokerLink W}.
Local Abbreviation turn := (Turn W T E).

(** [callback_task.await] after the cancellation: the timer is not polled. *)
Fixpoint await_callback (turns : list turn) (w : W) : option (Outcome T E) * W :=
  match turns with
  | [] => (None, w)
  | t :: turns =>
      let w := meanwhile t w in
      match callback_ready t with Some o => (Some o, w) | None => await_callback turns w end
  end.

(** The [select!] is biased: the callback first. *)
Fixpoint supervise (ttl_secs : N) (turns : list turn) (ops : list (Operation W))
    (naps : list duration) (w : W) (h : LeaseHandle) : Execution W T E * W :=
  match turns with
  | [] => ({| ending := Running; operations := ops; timers := naps; cancelled := false; spawned := None |}, w)
  | t :: turns =>
      let w := meanwhile t w in
      let called op r := {| op_at := w; op_kind := op; op_handle := h; op_result := r |} in
      match callback_ready t with
      | Some outcome =>
          let '(r, (w, h')) := release (w, h) in
          ({| ending := verdict outcome r; operations := ops ++ [called Release r]; timers := naps;
              cancelled := false; spawned := handle_drop true w h' |}, w)
      | None =>
          if renewal_due t then
            let '(r, (w, h')) := extend ttl_secs (w, h) in
            let ops := ops ++ [called (Extend ttl_secs) r] in
            match r with
            | Ok _ => supervise ttl_secs turns ops (naps ++ [renewal_interval ttl_secs]) w h'
            | Err error =>
                let '(outcome, w) := await_callback turns w in
                ({| ending := match outcome with Some o => verdict_lost o error | None => Running end;
                    operations := ops; timers := naps; cancelled := true;
                    spawned := match outcome with Some _ => handle_drop true w h' | None => None end |}, w)
            end
          else supervise ttl_secs turns ops naps w h
      end
  end.

Definition no_execution (e : Ending T E) : Execution W T E :=
  {| ending := e; operations := []; timers := []; cancelled := false; spawned := None |}.

(** A call: its authority, once there is one, and its execution.  The callback
    is a function of the authority, and so are the turns. *)
Definition with_lease_authority_with_options (route owner : bytes) (ttl_secs : N)
    (turns : LeaseAuthority -> list turn) (options : LeaseExecutionOptions) (deferred : Inbox)
    (waiting : W -> W) (w : W) : option LeaseAuthority * Execution W T E * W :=
  match validate_fixed_route route (str "lease") 3 with
  | Err e => (None, no_execution (Finished (Err (Acquisition e))), w)
  | Ok _ =>
      if negb (ttl_ok ttl_secs) then (None, no_execution (Finished (Err (Acquisition ttl_error))), w)
      else
        match acquire route owner ttl_secs {| wait_seconds := execution_wait_seconds options |} deferred waiting w with
        | (Err e, w) => (None, no_execution (Finished (Err (Acquisition e))), w)
        | (Ok None, w) => (None, no_execution Running, w)
        | (Ok (Some h), w) =>
            let authority := {| authority_token := fencing_token h |} in
            let '(x, w) := supervise ttl_secs (turns authority) [] [renewal_interval ttl_secs] w h in
            (Some authority, x, w)
        end
  end.

Definition with_lease_authority (route owner : bytes) (ttl_secs : N) (turns : LeaseAuthority -> list turn)
    (deferred : Inbox) (waiting : W -> W) (w : W) : option LeaseAuthority * Execution W T E * W :=
  with_lease_authority_with_options route owner ttl_secs turns LeaseExecutionOptions_default deferred waiting w.

(** The callback is not given the authority. *)
Definition with_lease_with_options (route owner : bytes) (ttl_secs : N) (turns : list turn)
    (options : LeaseExecutionOptions) (deferred : Inbox) (waiting : W -> W) (w : W) :
    option LeaseAuthority * Execution W T E * W :=
  with_lease_authority_with_options route owner ttl_secs (fun _ => turns) options deferred waiting w.

Definition with_lease (route owner : bytes) (ttl_secs : N) (turns : list turn)
    (deferred : Inbox) (waiting : W -> W) (w : W) : option LeaseAuthority * Execution W T E * W :=
  with_lease_authority route owner ttl_secs (fun _ => turns) deferred waiting w.
End Run.

(** ** What a run comes to *)

Section Facts.
Context {W T E : Type} `{LinkLaws W}.

Fixpoint first_outcome (turns : list (Turn W T E)) : option (Outcome T E) :=
  match turns with
  | [] => None
  | t :: turns => match callback_ready t with Some o => Some o | None => first_outcome turns end
  end.

(** Each operation is given the handle the one before it left: a renewal that
    succeeded has replaced the token with the one of its answer. *)
Fixpoint chained (h : LeaseHandle) (ops : list (Operation W)) (h' : LeaseHandle) : Prop :=
  match ops with
  | [] => h' = h
  | o :: ops =>
      op_handle o = h /\ exists h2, handle_after (op_at o) (op_kind o) (op_result o) h h2 /\ chained h2 ops h'
  end.

Definition renewed (ttl_secs : N) (o : Operation W) : Prop := op_kind o = Extend ttl_secs /\ op_result o = Ok tt.

Lemma chained_snoc ops o : forall h h1 h2,
  chained h ops h1 -> op_handle o = h1 -> handle_after (op_at o) (op_kind o) (op_result o) h1 h2 -> chained h (ops ++ [o]) h2.
Proof.
  induction ops as [|o' ops IH]; intros h h1 h2; cbn [chained app].
  - intros -> Ho Ha. split; [done|]. by exists h2.
  - intros [-> (h3 & Ha' & Hc)] Ho Ha. split; [done|]. exists h3. split; [done|]. by eapply IH.
Qed.

(** The release of a handle that ends without one, when it is dropped: it is
    asked for if the handle is of the session there is. *)
Definition dropped (w : W) (h : LeaseHandle) : option bytes :=
  if live w h then Some (handle_payload h Release) else None.

Lemma dropped_spec w h : handle_drop true w h = dropped w h.
Proof. unfold handle_drop, dropped, live. by destruct (released h), (_ =? _). Qed.

Lemma run_handle_after op w h r w' h' : run_handle op (w, h) = (r, (w', h')) -> handle_after w op r h h'.
Proof.
  intros Ex. destruct (live w h) eqn:Hl; [by eapply live_handle|].
  apply stale_handle in Ex as (-> & _ & ->); [|done]. by destruct op.
Qed.

Lemma await_callback_first (turns : list (Turn W T E)) : forall w, (await_callback turns w).1 = first_outcome turns.
Proof.
  induction turns as [|t turns IH]; intros w; cbn [await_callback first_outcome]; [done|].
  destruct (callback_ready t); [done | apply IH].
Qed.

(** How a run ends, from a handle, by the operations it did and the connection
    they left; every timer waits for a third of the lease. *)
Inductive run_ends (ttl_secs : N) (h : LeaseHandle) (o : option (Outcome T E)) (w' : W) : Execution W T E -> Prop :=
| ends_released oks last h2 outcome naps :
    o = Some outcome -> Forall (renewed ttl_secs) oks -> op_kind last = Release -> chained h (oks ++ [last]) h2 ->
    naps = replicate (S (length oks)) (secs ttl_secs / 3) ->
    run_ends ttl_secs h o w'
      {| ending := verdict outcome (op_result last); operations := oks ++ [last]; timers := naps; cancelled := false;
         spawned := if is_ok (op_result last) then None else dropped w' (op_handle last) |}
| ends_lost oks last h2 error naps :
    Forall (renewed ttl_secs) oks -> op_kind last = Extend ttl_secs -> op_result last = Err error ->
    chained h (oks ++ [last]) h2 -> naps = replicate (S (length oks)) (secs ttl_secs / 3) ->
    run_ends ttl_secs h o w'
      {| ending := match o with Some outcome => verdict_lost outcome error | None => Running end;
         operations := oks ++ [last]; timers := naps; cancelled := true;
         spawned := match o with Some _ => dropped w' (op_handle last) | None => None end |}
| ends_running oks h1 naps :
    o = None -> Forall (renewed ttl_secs) oks -> chained h oks h1 ->
    naps = replicate (S (length oks)) (secs ttl_secs / 3) ->
    run_ends ttl_secs h o w' {| ending := Running; operations := oks; timers := naps; cancelled := false; spawned := None |}.

Lemma supervise_ends ttl_secs h0 (turns : list (Turn W T E)) : forall ops naps w h x w',
  Forall (renewed ttl_secs) ops -> chained h0 ops h -> naps = replicate (S (length ops)) (secs ttl_secs / 3) ->
  supervise ttl_secs turns ops naps w h = (x, w') -> run_ends ttl_secs h0 (first_outcome turns) w' x.
Proof.
  induction turns as [|t turns IH]; intros ops naps w h x w' Hr Hc Hn; cbn [supervise].
  - intros [= <- <-]. by eapply ends_running.
  - cbn [first_outcome]. destruct (callback_ready t) as [o|] eqn:Eo.
    + destruct (release _) as [r [w1 h1]] eqn:Er. intros [= <- <-].
      pose proof (run_handle_after Release _ _ _ _ _ Er) as Ha.
      assert (Hs : handle_drop true w1 h1 = if is_ok r then None else dropped w1 h).
      { rewrite dropped_spec. destruct r; cbn in Ha; [|by subst h1]. destruct Ha as [_ ->]. done. }
      rewrite Hs. eapply (ends_released _ _ _ _ ops {| op_at := _; op_kind := Release; op_handle := h; op_result := r |});
        [done | exact Hr | done | eapply chained_snoc; [exact Hc | done | exact Ha] | exact Hn].
    + destruct (renewal_due t); [|by apply IH].
      destruct (extend _ _) as [r [w1 h1]] eqn:Er.
      pose proof (run_handle_after (Extend ttl_secs) _ _ _ _ _ Er) as Ha.
      destruct r as [[]|error].
      * apply IH.
        -- apply Forall_app. split; [done|]. by apply Forall_singleton.
        -- eapply chained_snoc; [exact Hc | done | exact Ha].
        -- rewrite Hn, length_app, Nat.add_1_r. symmetry. apply (replicate_S_end (S (length ops))).
      * pose proof (await_callback_first turns w1) as Hf. destruct (await_callback turns w1) as [o w2].
        cbn in Hf. subst o. intros [= <- <-]. cbn in Ha. subst h1. rewrite dropped_spec.
        eapply (ends_lost _ _ _ _ ops {| op_at := _; op_kind := Extend ttl_secs; op_handle := h; op_result := Err error |});
          [exact Hr | done | done | eapply chained_snoc; [exact Hc | done | done] | exact Hn].
Qed.

End Facts.

Definition turn_at {W} (o : option (Outcome N N)) (due : bool) : Turn W N N :=
  {| meanwhile := fun w => w; callback_ready := o; renewal_due := due |}.

(** Acquired with token 7, renewed to token 8, and released with it. *)
Definition lease_world : World :=
  answering [Ok (completion_bytes 7); Ok (be_bytes 1 0 ++ be_bytes 8 8); Ok (be_bytes 1 0)].

Definition sample_route : bytes := str "lease://realm/area/leader".
Definition sample_turns (a : LeaseAuthority) : list (Turn World N N) :=
  [turn_at None true; turn_at (Some (Returned (Ok 5))) true].
Local Abbreviation sample_call :=
  (with_lease_authority_with_options sample_route (str "node") 30 sample_turns LeaseExecutionOptions_default
    {| events := []; ended := false |} (fun w => w) lease_world).

Definition summary (p : option LeaseAuthority * Execution World N N * World) : option LeaseAuthority * Ending N N * list N :=
  (p.1.1, ending p.1.2, map sent_type (log p.2)).

Example sample_call_summary :
  summary (sample_call)
  = (Some {| authority_token := 7 |}, Finished (Ok 5),
     [message_type.LEASE_ACQUIRE; message_type.LEASE_RENEW; message_type.LEASE_RELEASE]).
Proof. vm_compute. reflexivity. Qed.

