(* ===== verification/LeaseObserver.v ===== *)
(** * LeaseObserver

    The observer of [src/src/client_domains/lease.rs] ([observe],
    [observe_loop], [bootstrap], [steady_state],
    [reconcile_after_invalidation]): a task that keeps a view of the leases
    under a pattern, by complete listings that notifications invalidate.

    The task is the state machine of its awaits: [At] says where it waits, and
    [wake] runs it from there to its next wait when what it waits for is there.
    Between two wakes any other task may run, so the session's deliveries, its
    replacement and the observer's [close] are steps of their own. *)

From S2P Require Import Prelude Errors Protocol Codec Routes Responses Shared Conn Subscriptions Lease.

(** ** Data *)

Record ObserveOptions : Set := { reconciliation_interval : duration; list_page_size : N }.
Definition ObserveOptions_default : ObserveOptions :=
  {| reconciliation_interval := secs 60; list_page_size := 200 |}.

(** A [HashMap] of the items by route. *)
Definition View : Type := gmap bytes LeaseListItem.

(** Why a complete listing runs: the initial or repeated bootstrap, a
    notification in the steady state, or the periodic timer. *)
Inductive Pass : Set := Bootstrap | AfterNotification | AfterTimer.
(** Where [replace_observer_subscription] returns to. *)
Inductive Return : Set := ToBootstrap | ToTop.

(** The awaits.  [Listing]: the next page of a pass that captured [epoch];
    [Installing]: between the drain and the installation, where other threads
    may run; [EpochBackoff], [SubscribeBackoff] and [Pausing]: the sleeps;
    [Steady]: the [select!] of the steady state; [Leaving]: the last
    UNSUBSCRIBE. *)
Inductive At : Type :=
| Listing (p : Pass) (epoch : N) (items : View) (cursor : option LeaseListCursor) (epoch_attempts : N)
| Installing (p : Pass) (epoch : N) (fresh : View) (epoch_attempts : N)
| EpochBackoff (p : Pass) (epoch_attempts : N)
| Pausing
| Unsubscribing (r : Return)
| Subscribing (r : Return) (subscribe_attempts : N)
| SubscribeBackoff (r : Return) (subscribe_attempts : N)
| Steady
| Leaving
| Gone.

(** [consumed] is not in the code: whether notifications were taken out of the
    buffer since the last installation. *)
Record Observer : Type := {
  conn : Shared;
  subscription : LeaseSubscription;
  view : View;
  ready : bool;
  shutdown : bool;
  baseline : N;
  consumed : bool;
  at_ : At;
}.

Definition go (a : At) (o : Observer) : Observer :=
  {| conn := conn o; subscription := subscription o; view := view o; ready := ready o; shutdown := shutdown o;
     baseline := baseline o; consumed := consumed o; at_ := a |}.
Definition set_conn (s : Shared) (o : Observer) : Observer :=
  {| conn := s; subscription := subscription o; view := view o; ready := ready o; shutdown := shutdown o;
     baseline := baseline o; consumed := consumed o; at_ := at_ o |}.
Definition set_subscription (s : LeaseSubscription) (o : Observer) : Observer :=
  {| conn := conn o; subscription := s; view := view o; ready := ready o; shutdown := shutdown o;
     baseline := baseline o; consumed := consumed o; at_ := at_ o |}.
Definition install (v : View) (r : bool) (o : Observer) : Observer :=
  {| conn := conn o; subscription := subscription o; view := v; ready := r; shutdown := shutdown o;
     baseline := baseline o; consumed := false; at_ := at_ o |}.
Definition not_ready (o : Observer) : Observer :=
  {| conn := conn o; subscription := subscription o; view := view o; ready := false; shutdown := shutdown o;
     baseline := baseline o; consumed := consumed o; at_ := at_ o |}.
Definition set_baseline (g : N) (o : Observer) : Observer :=
  {| conn := conn o; subscription := subscription o; view := view o; ready := ready o; shutdown := shutdown o;
     baseline := g; consumed := consumed o; at_ := at_ o |}.
Definition consume (b : bool) (o : Observer) : Observer :=
  {| conn := conn o; subscription := subscription o; view := view o; ready := ready o; shutdown := shutdown o;
     baseline := baseline o; consumed := consumed o || b; at_ := at_ o |}.
Definition set_shutdown (o : Observer) : Observer :=
  {| conn := conn o; subscription := subscription o; view := view o; ready := ready o; shutdown := true;
     baseline := baseline o; consumed := consumed o; at_ := at_ o |}.

(** What the observer shows. *)
Definition snapshot (o : Observer) : list LeaseListItem := map snd (map_to_list (view o)).

(** ** Small operations *)

Definition subscription_must_be_replaced (error : FitzError) : bool :=
  match error with Backpressure _ | ConnectionClosed => true | _ => false end.

(** [backoff_epoch_race]: the next count of attempts, and its delay. *)
Definition next_attempts (attempts : N) : N := N.min (attempts + 1) u32_max.
Definition epoch_delay (attempts : N) : duration :=
  N.min (duration_saturating_mul (millis 5) (N.shiftl 1 (N.min attempts 6))) (millis 200).

(** [items.insert(item.route.clone(), item)] for each item of a page. *)
Definition insert_items (page : list LeaseListItem) (m : View) : View :=
  fold_left (fun m i => <[li_route i := i]> m) page m.

Definition lease_epoch (o : Observer) : N := epoch_of (conn o) message_type.LEASE_NOTIFY.
Definition wire (o : Observer) : N := wire_id (registration (subscription o)) (conn o).

Definition poll (o : Observer) : Poll LeaseChangeNotification * Observer :=
  let '(p, s) := poll_subscription (wire o) (subscription o) in (p, set_subscription s o).

(** The loop of [drain_invalidation_buffer]: one poll per event, and one more,
    are enough. *)
Fixpoint drain_loop (fuel : nat) (invalidated : bool) (o : Observer) : Result bool * Observer :=
  match fuel with
  | O => (Ok invalidated, o)
  | S fuel =>
      match poll o with
      | (Ready (Some (Ok _)), o) => drain_loop fuel true (consume true o)
      | (Ready (Some (Err error)), o) => (Err error, consume true o)
      | (Ready None, o) => (Err ConnectionClosed, o)
      | (Pending, o) => (Ok invalidated, o)
      end
  end.
Definition drain_invalidation_buffer (o : Observer) : Result bool * Observer :=
  drain_loop (S (length (events (receiver (subscription o))))) false o.

(** ** The task *)

Definition leave (o : Observer) : Observer :=
  if closed (subscription o) then go Gone o
  else
    let '(reg, s) := deactivate (registration (subscription o)) (conn o) in
    go Leaving (set_conn s (set_subscription
      {| sub_route := sub_route (subscription o); registration := reg; receiver := receiver (subscription o);
         closed := true |} o)).

(** Runs [replace_observer_subscription] up to its first wait. *)
Definition replace (r : Return) (o : Observer) : Observer :=
  if closed (subscription o) then go (Subscribing r 0) o
  else
    let '(reg, s) := deactivate (registration (subscription o)) (conn o) in
    go (Unsubscribing r) (set_conn s (set_subscription
      {| sub_route := sub_route (subscription o); registration := reg; receiver := receiver (subscription o);
         closed := true |} o)).

(** The head of the loop of [bootstrap] and [reconcile_after_invalidation]. *)
Definition start_pass (p : Pass) (epoch_attempts : N) (o : Observer) : Observer :=
  go (Listing p (lease_epoch o) ∅ None epoch_attempts) o.

(** The head of the outer loop. *)
Definition top (o : Observer) : Observer :=
  if shutdown o || close_requested (conn o) then leave o
  else start_pass Bootstrap 0 (set_baseline (generation (conn o)) o).

(** The exits of the steady state. *)
Definition reconnected (o : Observer) : Observer := top (not_ready o).
Definition subscription_failed (o : Observer) : Observer := replace ToTop (not_ready o).

Definition pass_failed (p : Pass) (error : FitzError) (o : Observer) : Observer :=
  match error with
  | Closed => leave o
  | _ =>
      match p with
      | Bootstrap =>
          if subscription_must_be_replaced error then replace ToBootstrap (not_ready o) else go Pausing o
      | AfterNotification =>
          if subscription_must_be_replaced error then subscription_failed o else reconnected o
      | AfterTimer => if subscription_must_be_replaced error then subscription_failed o else go Steady o
      end
  end.

Definition pass_done (p : Pass) (o : Observer) : Observer :=
  match p with
  | Bootstrap => if negb (generation (conn o) =? baseline o) then reconnected o else go Steady o
  | AfterNotification | AfterTimer => go Steady o
  end.

(** [full_list] returned. *)
Definition after_list (p : Pass) (epoch : N) (fresh : View) (epoch_attempts : N) (o : Observer) : Observer :=
  match drain_invalidation_buffer o with
  | (Err error, o) => pass_failed p error o
  | (Ok true, o) => start_pass p 0 o
  | (Ok false, o) => go (Installing p epoch fresh epoch_attempts) o
  end.

(** A bootstrap also sets [ready]. *)
Definition try_install (p : Pass) (epoch : N) (fresh : View) (epoch_attempts : N) (o : Observer) : Observer :=
  let r := match p with Bootstrap => true | _ => ready o end in
  match install_if_notification_epoch (conn o) message_type.LEASE_NOTIFY epoch (install fresh r) o with
  | (true, o) => pass_done p o
  | (false, o) => go (EpochBackoff p (next_attempts epoch_attempts)) o
  end.

(** One poll of the steady state's [select!], which is biased: the shutdown,
    the generation, the subscription, the timer. *)
Definition steady_poll (watch_closed timer_due : bool) (o : Observer) : Observer :=
  if shutdown o then leave o
  else if watch_closed || negb (generation (conn o) =? baseline o) then reconnected o
  else
    match poll o with
    | (Ready (Some (Ok _)), o) => start_pass AfterNotification 0 (consume true o)
    | (Ready (Some (Err Closed)), o) => leave (consume true o)
    | (Ready (Some (Err _)), o) => subscription_failed (consume true o)
    | (Ready None, o) => subscription_failed o
    | (Pending, o) => if timer_due then start_pass AfterTimer 0 o else o
    end.

(** What a wait ends with.  [ShutdownSeen] is the shutdown branch of the
    [select!]s outside the steady state. *)
Inductive Wake : Type :=
| Listed (r : Result LeaseListPage)
| Resumed
| Slept
| Unsubscribed
| Subscribed (r : Result LeaseSubscription)
| Polls (watch_closed timer_due : bool)
| ShutdownSeen.

(** The [select!]s around a bootstrap, its pause and the replacement's calls
    watch the shutdown; a reconciliation and the back-off between two
    subscriptions do not. *)
Definition watches_shutdown (a : At) : bool :=
  match a with
  | Listing Bootstrap _ _ _ _ | Installing Bootstrap _ _ _ | EpochBackoff Bootstrap _ | Pausing
  | Unsubscribing _ | Subscribing _ _ => true
  | _ => false
  end.

Definition replaced (r : Return) (o : Observer) : Observer :=
  match r with ToBootstrap => go Pausing o | ToTop => top o end.

Definition wake (k : Wake) (o : Observer) : Observer :=
  match at_ o, k with
  | Listing p epoch items cursor n, Listed (Ok page) =>
      let items := insert_items (Lease.items page) items in
      match next_cursor page with
      | Some next => go (Listing p epoch items (Some next) n) o
      | None => after_list p epoch items n o
      end
  | Listing p _ _ _ _, Listed (Err error) => pass_failed p error o
  | Installing p epoch fresh n, Resumed => try_install p epoch fresh n o
  | EpochBackoff p n, Slept => start_pass p n o
  | Pausing, Slept => start_pass Bootstrap 0 o
  | Unsubscribing r, Unsubscribed => go (Subscribing r 0) o
  | Subscribing r _, Subscribed (Ok s) => replaced r (set_subscription s o)
  | Subscribing r _, Subscribed (Err Closed) => leave o
  | Subscribing r n, Subscribed (Err _) => go (SubscribeBackoff r (next_attempts n)) o
  | SubscribeBackoff r n, Slept => go (Subscribing r n) o
  | Steady, Polls watch_closed timer_due => steady_poll watch_closed timer_due o
  | Leaving, Unsubscribed => go Gone o
  | a, ShutdownSeen => if shutdown o && watches_shutdown a then leave o else o
  | _, _ => o
  end.

(** [observe]: the checks, the first subscription, and the task. *)
Section Observe.
Context {W : Type} `{BrokerLink W}.

Definition observe (shared_of : W -> Shared) (pattern : bytes) (options : ObserveOptions) : IO W Observer :=
  io_lift (validate_registration_pattern pattern (str "lease") 3);;
  if reconciliation_interval options =? 0
  then io_err (Protocol (str "Lease observer reconciliation interval must be positive"))
  else
    subscription <- Lease.subscribe pattern;;
    shared <- io_get shared_of;;
    mret (top {| conn := shared; subscription := subscription; view := ∅; ready := false; shutdown := false;
                 baseline := 0; consumed := false; at_ := Gone |}).
End Observe.
