(* ===== verification/ObserverFacts.v ===== *)
(** * ObserverFacts

    The lease observer against the broker's inventory: what its view is worth
    while it says it is ready, and that it settles.

    [System] puts an observer next to the part of the world its promise is
    about: the broker's inventory under the pattern, the notifications under
    way, and what the listing that runs is reading.  [lists] says what it is for
    the items of a listing to be an inventory, and [lists_items] that the view
    the observer builds from such a listing is that inventory. *)

From S2P Require Import Prelude Errors Protocol Codec Routes Responses Shared Conn Subscriptions Lease LeaseObserver.

(** ** The observer and the broker *)

(** [attached]: the broker notifies this subscription; [queued]: notifications
    the broker sent that the session has not counted; [publishing]: counted,
    and not yet in the buffer (the session does the two in turn); [reading]: the
    inventory the listing in progress is served from, once the broker has
    served its first page, and the items that were served; [forgotten]: since
    the last installation a periodic pass that had taken notifications out of
    the buffer has failed, and the failure was passed over. *)
Record System : Type := {
  obs : Observer;
  inventory : View;
  attached : bool;
  queued : nat;
  publishing : nat;
  reading : option (View * list LeaseListItem);
  forgotten : bool;
}.

Definition with_obs (o : Observer) (s : System) : System :=
  {| obs := o; inventory := inventory s; attached := attached s; queued := queued s;
     publishing := publishing s; reading := reading s; forgotten := forgotten s |}.

(** The items list the inventory: each of its entries, and nothing else. *)
Definition lists (l : list LeaseListItem) (m : View) : Prop :=
  forall route i, m !! route = Some i <-> i ∈ l /\ li_route i = route.

(** How a wake of the observer moves [forgotten]. *)
Definition forgets (o o' : Observer) (f : bool) : bool :=
  match at_ o, at_ o' with
  | Listing AfterTimer _ _ _ _, Steady => f || consumed o'
  | Installing _ _ _ _, Steady => false
  | _, _ => f
  end.

Definition change_bytes (wire : N) (route : bytes) : bytes := be_bytes 8 wire ++ field_bytes route.

Definition push_event (e : Event) (o : Observer) : Observer :=
  let sub := subscription o in
  set_subscription {| sub_route := sub_route sub; registration := registration sub;
                      receiver := {| events := events (receiver sub) ++ [e]; ended := ended (receiver sub) |};
                      closed := closed sub |} o.

(** The receiver fell behind: its oldest event is replaced by the lag. *)
Definition overrun (o : Observer) : Observer :=
  let sub := subscription o in
  set_subscription {| sub_route := sub_route sub; registration := registration sub;
                      receiver := {| events := match events (receiver sub) with [] => [] | _ :: es => Lagged :: es end;
                                     ended := ended (receiver sub) |};
                      closed := closed sub |} o.

(** An event the observer is told about. *)
Definition relevant (wire : N) (e : Event) : Prop := yield wire (AfterId decode_change) buffer_full e <> None.
Definition outstanding (o : Observer) : Prop := Exists (relevant (wire o)) (events (receiver (subscription o))).

Definition current (s : System) : Prop := generation (conn (obs s)) = baseline (obs s).

(** The places where the broker need not notify the observer. *)
Definition unsubscribed (a : At) : bool :=
  match a with Unsubscribing _ | Subscribing _ _ | SubscribeBackoff _ _ | Leaving | Gone => true | _ => false end.

Definition rewire (wires : gmap N N) (c : Shared) : Shared :=
  set_registrations (registrations c) wires (next_registration_id c) c.

(** The system after a wake: no listing is under way any more, or it begins
    anew. *)
Definition put (o : Observer) (s : System) : System :=
  {| obs := o; inventory := inventory s; attached := attached s; queued := queued s;
     publishing := publishing s; reading := None; forgotten := forgets (obs s) o (forgotten s) |}.

(** A page of the listing that is under way arrives. *)
Definition page_arrives (page : LeaseListPage) (s : System) : System :=
  let o := wake (Listed (Ok page)) (obs s) in
  {| obs := o; inventory := inventory s; attached := attached s; queued := queued s; publishing := publishing s;
     reading := match next_cursor page, reading s with
                | Some _, Some (m, sent) => Some (m, sent ++ Lease.items page)
                | _, _ => None
                end;
     forgotten := forgets (obs s) o (forgotten s) |}.

Definition attach (b : bool) (s : System) : System :=
  {| obs := obs s; inventory := inventory s; attached := b; queued := 0; publishing := 0; reading := None;
     forgotten := forgotten s |}.

(** What the broker is trusted for, as steps: a change of the inventory queues
    a notification for an attached subscription; the pages of a complete
    listing come from the inventory at one moment after its first request; what
    happens while there is no session is not notified. *)
Inductive step : System -> System -> Prop :=
| step_change s m :
    step s {| obs := obs s; inventory := m; attached := attached s;
              queued := if attached s then S (queued s) else queued s;
              publishing := publishing s; reading := reading s; forgotten := forgotten s |}
| step_count s n :
    queued s = S n -> lease_epoch (obs s) + 1 < 2 ^ 64 ->
    step s {| obs := set_conn (bump_epoch message_type.LEASE_NOTIFY (conn (obs s))) (obs s);
              inventory := inventory s; attached := attached s; queued := n;
              publishing := S (publishing s); reading := reading s; forgotten := forgotten s |}
| step_publish s n e :
    publishing s = S n -> relevant (wire (obs s)) e ->
    step s {| obs := push_event e (obs s); inventory := inventory s; attached := attached s;
              queued := queued s; publishing := n; reading := reading s; forgotten := forgotten s |}
(** a notification of another subscription *)
| step_foreign s e :
    lease_epoch (obs s) + 1 < 2 ^ 64 ->
    step s (with_obs (push_event e (set_conn (bump_epoch message_type.LEASE_NOTIFY (conn (obs s))) (obs s))) s)
| step_overrun s : step s (with_obs (overrun (obs s)) s)
(** what other clients do to the connection's state *)
| step_elsewhere s c :
    generation c = generation (conn (obs s)) -> close_requested c = close_requested (conn (obs s)) ->
    epoch_of c message_type.LEASE_NOTIFY = lease_epoch (obs s) ->
    wire_id (registration (subscription (obs s))) c = wire (obs s) ->
    step s (with_obs (set_conn c (obs s)) s)
(** the session is replaced: what was under way is lost, the inventory may be
    any; the subscription, unless it is being replaced, is [restored] under
    another wire id, or its restoration fails and the session goes on without *)
| step_reconnect s m wires (restored : bool) :
    generation (conn (obs s)) + 1 < 2 ^ 64 ->
    (restored = true -> unsubscribed (at_ (obs s)) = false) ->
    step s {| obs := set_conn (rewire wires (set_generation (generation (conn (obs s)) + 1) (conn (obs s)))) (obs s);
              inventory := m; attached := restored; queued := 0; publishing := 0; reading := None;
              forgotten := forgotten s |}
(** the connection is closed *)
| step_close s :
    generation (conn (obs s)) + 1 < 2 ^ 64 ->
    step s (with_obs (set_conn (set_close_requested (set_generation (generation (conn (obs s)) + 1) (conn (obs s)))) (obs s)) s)
(** the observer is closed or dropped *)
| step_shutdown s : step s (with_obs (set_shutdown (obs s)) s)
(** the broker stops notifying a subscription that is being replaced *)
| step_detach s :
    unsubscribed (at_ (obs s)) = true ->
    step s {| obs := obs s; inventory := inventory s; attached := false; queued := queued s;
              publishing := publishing s; reading := reading s; forgotten := forgotten s |}
(** the broker serves the first page of a listing *)
| step_serve s p e items n :
    at_ (obs s) = Listing p e items None n ->
    step s {| obs := obs s; inventory := inventory s; attached := attached s; queued := queued s;
              publishing := publishing s; reading := Some (inventory s, []); forgotten := forgotten s |}
(** a page arrives; the last one completes what the listing was served from *)
| step_page s page p e items c n :
    at_ (obs s) = Listing p e items c n ->
    (current s -> exists m sent, reading s = Some (m, sent)
       /\ (next_cursor page = None -> lists (sent ++ Lease.items page) m)) ->
    step s (page_arrives page s)
(** a replacement is subscribed; its buffer may already hold something; [stands]:
    the session that answered it is still there *)
| step_subscribed s sub wires r n (stands : bool) :
    at_ (obs s) = Subscribing r n ->
    step s (put (wake (Subscribed (Ok sub)) (set_conn (rewire wires (conn (obs s))) (obs s))) (attach stands s))
(** any other wait ends *)
| step_wake s k :
    match k with Listed (Ok _) | Subscribed (Ok _) => False | _ => True end ->
    (forall p e items c n, at_ (obs s) = Listing p e items c n -> wake k (obs s) <> obs s) ->
    step s (put (wake k (obs s)) s).

Inductive reachable (s0 : System) : System -> Prop :=
| reachable_start : reachable s0 s0
| reachable_step s s' : reachable s0 s -> step s s' -> reachable s0 s'.

(** [observe] has subscribed, and its task starts. *)
Definition starts (s : System) : Prop :=
  exists o, obs s = top o /\ ready o = false /\ baseline o = 0 /\ attached s = true /\ reading s = None /\ forgotten s = false.

(** ** The invariant *)

Definition bootstrapping (a : At) : bool :=
  match a with
  | Listing Bootstrap _ _ _ _ | Installing Bootstrap _ _ _ | EpochBackoff Bootstrap _ | Pausing
  | Unsubscribing _ | Subscribing _ _ | SubscribeBackoff _ _ => true
  | _ => false
  end.
Definition running (a : At) : bool := match a with Leaving | Gone => false | _ => true end.
Definition captured (a : At) : option N :=
  match a with Listing _ e _ _ _ | Installing _ e _ _ => Some e | _ => None end.

(** The observer was told of a change and is going to act upon it: a
    notification waits in its buffer, or it took one out and is listing the
    inventory anew. *)
Definition told (o : Observer) : Prop := outstanding o \/ (consumed o = true /\ at_ o <> Steady).

(** A listing is of the present inventory, or a notification will say
    otherwise, or the broker does not notify this subscription. *)
Definition fresh_enough (s : System) (e : N) (m : View) : Prop :=
  m = inventory s \/ (0 < queued s)%nat \/ lease_epoch (obs s) <> e \/ attached s = false \/ ~ current s.

(** What is open about the view of a ready observer. *)
Definition accounted (s : System) : Prop :=
  ~ current s \/ view (obs s) = inventory s \/ (0 < queued s)%nat \/ (0 < publishing s)%nat \/ told (obs s)
  \/ attached s = false \/ forgotten s = true.

(** The same, where the task has yet to look at what it took out. *)
Definition worth (s : System) : Prop :=
  ready (obs s) = true ->
  ~ current s \/ view (obs s) = inventory s \/ (0 < queued s)%nat \/ (0 < publishing s)%nat
  \/ outstanding (obs s) \/ consumed (obs s) = true \/ attached s = false.

Record Inv (s : System) : Prop := {
  inv_baseline : baseline (obs s) <= generation (conn (obs s));
  inv_epoch e : captured (at_ (obs s)) = Some e -> e <= lease_epoch (obs s);
  inv_empty p e items n : at_ (obs s) = Listing p e items None n -> items = ∅;
  inv_reading m sent : reading s = Some (m, sent) ->
    exists p e items c n, at_ (obs s) = Listing p e items c n /\ items = insert_items sent ∅ /\ fresh_enough s e m;
  inv_fresh p e m n : at_ (obs s) = Installing p e m n -> fresh_enough s e m;
  inv_boot : bootstrapping (at_ (obs s)) = true -> ready (obs s) = false;
  inv_worth : running (at_ (obs s)) = true -> worth s;
  inv_forgotten : at_ (obs s) = Steady -> consumed (obs s) = true -> forgotten s = true;
}.

(** ** Listings *)

Lemma insert_items_app a b m : insert_items (a ++ b) m = insert_items b (insert_items a m).
Proof. apply fold_left_app. Qed.

(** Every item of a page is in the view, or another one of its route. *)
Lemma insert_items_lookup l : forall m route,
  (exists i, i ∈ l /\ li_route i = route /\ insert_items l m !! route = Some i)
  \/ ((forall i, i ∈ l -> li_route i <> route) /\ insert_items l m !! route = m !! route).
Proof.
  induction l as [|i l IH]; intros m route; [right; split; [by intros i ?%not_elem_of_nil | done]|].
  unfold insert_items in *. cbn [fold_left].
  destruct (IH (<[li_route i := i]> m) route) as [(i' & Hi & Hr & ->)|[Hno ->]].
  - left. exists i'. split; [by right | done].
  - destruct (decide (li_route i = route)) as [<-|Hne]; [left | right].
    + exists i. split; [by left|]. split; [done | apply lookup_insert_eq].
    + split; [|by apply lookup_insert_ne]. by intros i' [->|Hi]%elem_of_cons; [|apply Hno].
Qed.

Lemma lists_items l m : lists l m -> insert_items l ∅ = m.
Proof.
  intros Hl. apply map_eq. intros route.
  destruct (insert_items_lookup l ∅ route) as [(i & Hi & Hr & E)|[Hno E]]; (etransitivity; [exact E|]).
  - symmetry. by apply Hl.
  - destruct (m !! route) as [i|] eqn:Em; [|by transitivity (@None LeaseListItem)].
    apply Hl in Em as [Hi Hr]. by destruct (Hno i Hi).
Qed.

(** ** Polling and draining *)

Lemma yield_head wire e es en :
  poll_events wire (AfterId decode_change) buffer_full (e :: es) en
  = match yield wire (AfterId decode_change) buffer_full e with
    | Some item => (Ready (Some item), es)
    | None => poll_events wire (AfterId decode_change) buffer_full es en
    end.
Proof. apply poll_events_step. Qed.

Lemma poll_events_silent wire en es p es' :
  poll_events wire (AfterId decode_change) buffer_full es en = (p, es') ->
  (forall item, p <> Ready (Some item)) -> ~ Exists (relevant wire) es.
Proof.
  revert p es'. induction es as [|e es IH]; intros p es'; [intros _ _ H; by apply Exists_nil in H|].
  rewrite yield_head, Exists_cons. unfold relevant at 1. destruct (yield _ _ _ e) as [item|].
  - intros [= <- <-] Hp. by destruct (Hp item).
  - intros Hp Hn. intros [?|Ht]; [done|]. by eapply IH.
Qed.

(** A poll changes the buffer only, and nothing is lost unless it is returned. *)
Definition same_but_buffer (o o' : Observer) : Prop :=
  conn o' = conn o /\ view o' = view o /\ ready o' = ready o /\ shutdown o' = shutdown o
  /\ baseline o' = baseline o /\ at_ o' = at_ o
  /\ registration (subscription o') = registration (subscription o)
  /\ closed (subscription o') = closed (subscription o).

Lemma same_trans a b c : same_but_buffer a b -> same_but_buffer b c -> same_but_buffer a c.
Proof. unfold same_but_buffer. intuition congruence. Qed.

Lemma same_consume b o : same_but_buffer o (consume b o).
Proof. by repeat split. Qed.

Lemma poll_same o p o' : poll o = (p, o') -> same_but_buffer o o' /\ consumed o' = consumed o.
Proof.
  unfold poll, poll_subscription. destruct (closed (subscription o)) eqn:Hc.
  - intros [= <- <-]. by repeat split.
  - destruct (poll_inbox _ _ _ _) as [q i]. intros [= <- <-]. by repeat split.
Qed.

(** Nothing the observer was told of is lost on the way. *)
Definition known (o : Observer) : Prop := outstanding o \/ consumed o = true.

Lemma poll_known o p o' :
  poll o = (p, o') -> (forall item, p <> Ready (Some item)) -> known o -> known o'.
Proof.
  unfold poll, poll_subscription. destruct (closed (subscription o)) eqn:Hc.
  - intros [= <- <-] _ Ht. exact Ht.
  - unfold poll_inbox. destruct (poll_events _ _ _ _ _) as [q es] eqn:E. intros [= <- <-] Hp [Ho|Hk]; [|by right].
    by eapply poll_events_silent in E.
Qed.

Lemma drain_loop_spec fuel : forall b o r o',
  drain_loop fuel b o = (r, o') ->
  same_but_buffer o o' /\ (known o -> known o') /\ (r = Ok true -> b = true \/ known o').
Proof.
  induction fuel as [|fuel IH]; intros b o r o'; cbn [drain_loop].
  { intros [= <- <-]. split; [by repeat split|]. split; [done|]. intros [= ->]. by left. }
  destruct (poll o) as [p o1] eqn:E. pose proof (poll_same _ _ _ E) as [Hs Hc].
  assert (Hk : forall o2, known (consume true o2)) by (intros o2; right; cbn; by rewrite orb_true_r).
  destruct p as [[[n|error]|]|].
  - intros Hd. apply IH in Hd as (Hs' & Ht & _). split; [|by eauto].
    eapply same_trans; [exact Hs | exact (same_trans _ _ _ (same_consume true o1) Hs')].
  - intros [= <- <-]. split; [exact (same_trans _ _ _ Hs (same_consume true o1)) | by eauto].
  - intros [= <- <-]. split; [done|]. split; [|done]. intros Ht. by eapply poll_known.
  - intros [= <- <-]. split; [done|]. split; [|intros [= ->]; by left]. intros Ht. by eapply poll_known.
Qed.

Lemma drain_buffer_spec o r o' :
  drain_invalidation_buffer o = (r, o') ->
  same_but_buffer o o' /\ (known o -> known o') /\ (r = Ok true -> known o').
Proof. intros E. apply drain_loop_spec in E as (Hs & Ht & Hr). split; [done|]. split; [done|]. by intros [|]%Hr. Qed.

(** ** What the task does keeps the invariant *)

Definition timely (o : Observer) : Prop := baseline o <= generation (conn o).

Lemma inv_put o s :
  timely o -> (forall e, captured (at_ o) = Some e -> e <= lease_epoch o) ->
  (forall p e items n, at_ o = Listing p e items None n -> items = ∅) ->
  (forall p e m n, at_ o = Installing p e m n -> fresh_enough (put o s) e m) ->
  (bootstrapping (at_ o) = true -> ready o = false) ->
  (running (at_ o) = true -> worth (put o s)) ->
  (at_ o = Steady -> consumed o = true -> forgets (obs s) o (forgotten s) = true) -> Inv (put o s).
Proof. intros. by split. Qed.

Lemma generation_deactivate r c : generation (deactivate r c).2 = generation c.
Proof. unfold deactivate. by destruct (registered r). Qed.

Lemma inv_leave o s : timely o -> Inv (put (leave o) s).
Proof.
  intros Ht. unfold leave. destruct (closed (subscription o)); [by apply inv_put|].
  pose proof (generation_deactivate (registration (subscription o)) (conn o)) as Hg.
  destruct (deactivate _ _) as [reg c]. apply inv_put; try done. unfold timely. cbn in *. by rewrite Hg.
Qed.

Lemma inv_replace r o s : timely o -> Inv (put (replace r (not_ready o)) s).
Proof.
  intros Ht. unfold replace. destruct (closed (subscription (not_ready o))); [by apply inv_put|].
  pose proof (generation_deactivate (registration (subscription (not_ready o))) (conn (not_ready o))) as Hg.
  destruct (deactivate _ _) as [reg c]. apply inv_put; try done. unfold timely. cbn in *. by rewrite Hg.
Qed.

Lemma inv_start p n o s :
  timely o -> (p = Bootstrap -> ready o = false) -> worth (put o s) -> Inv (put (start_pass p n o) s).
Proof.
  intros Ht Hr Hw. apply inv_put; cbn; try done.
  - intros e [= <-]. done.
  - by intros ? ? ? ? [= _ _ <- _].
  - by destruct p; cbn; auto.
Qed.

Lemma worth_unready o s : ready o = false -> worth (put o s).
Proof. intros Hr ?. cbn in *. congruence. Qed.

Lemma inv_top o s : timely o -> ready o = false -> Inv (put (top o) s).
Proof.
  intros Ht Hr. unfold top. destruct (shutdown o || close_requested (conn o)); [by apply inv_leave|].
  apply inv_start; [|done..|by apply worth_unready]. unfold timely. cbn. lia.
Qed.

Lemma inv_go a o s :
  captured a = None -> timely o -> (bootstrapping a = true -> ready o = false) -> worth (put o s) ->
  (a = Steady -> consumed o = true -> forgets (obs s) (go Steady o) (forgotten s) = true) -> Inv (put (go a o) s).
Proof.
  intros Hc Ht Hb Hw Hf. apply inv_put; cbn; try done; [by rewrite Hc | by intros ? ? ? ? -> | by intros ? ? ? ? -> |].
  intros -> Hk. by apply Hf.
Qed.

Ltac place := apply inv_go; try done; auto; congruence.

Lemma inv_pass_failed p e items c n error o s :
  at_ (obs s) = Listing p e items c n -> timely o -> (p = Bootstrap -> ready o = false) -> worth (put o s) ->
  Inv (put (pass_failed p error o) s).
Proof.
  intros Hat Ht Hr Hw.
  assert (H : Inv (put (match p with
      | Bootstrap => if subscription_must_be_replaced error then replace ToBootstrap (not_ready o) else go Pausing o
      | AfterNotification => if subscription_must_be_replaced error then subscription_failed o else reconnected o
      | AfterTimer => if subscription_must_be_replaced error then subscription_failed o else go Steady o
      end) s)).
  { destruct p, (subscription_must_be_replaced error); try (by apply inv_replace).
    - place.
    - by apply inv_top.
    - apply inv_go; try done. intros _ Hk. unfold forgets. rewrite Hat. cbn. by rewrite Hk, orb_true_r. }
  destruct error; try exact H. by apply inv_leave.
Qed.

Lemma worth_same o o' s :
  same_but_buffer o o' -> (known o -> known o') -> worth (put o s) -> worth (put o' s).
Proof.
  intros (Hc & Hv & Hr & _ & Hb & _) Ht Hw. unfold known, worth, current in *. cbn in *. rewrite Hc, Hv, Hr, Hb. tauto.
Qed.

Lemma timely_same o o' : same_but_buffer o o' -> timely o -> timely o'.
Proof. intros (Hc & _ & _ & _ & Hb & _). unfold timely. by rewrite Hc, Hb. Qed.

Lemma inv_after_list p e items c n0 fresh n o s :
  at_ (obs s) = Listing p e items c n0 ->
  timely o -> e <= lease_epoch o -> (p = Bootstrap -> ready o = false) ->
  worth (put o s) -> fresh_enough (put o s) e fresh -> Inv (put (after_list p e fresh n o) s).
Proof.
  intros Hat Ht He Hr Hw Hf. unfold after_list. destruct (drain_invalidation_buffer o) as [r o'] eqn:E.
  apply drain_buffer_spec in E as (Hs & Hk & _). pose proof (worth_same _ _ s Hs Hk Hw) as Hw'.
  pose proof (timely_same _ _ Hs Ht) as Ht'. destruct Hs as (Hc & _ & Hrdy & _ & Hb & _).
  assert (Hr' : p = Bootstrap -> ready o' = false) by (rewrite Hrdy; done).
  destruct r as [[]|error]; [by apply inv_start | | by eapply inv_pass_failed].
  apply inv_put; cbn; try done.
  - intros e' [= <-]. change (e <= lease_epoch o'). unfold lease_epoch in *. by rewrite Hc.
  - intros ? ? ? ? [= <- <- <- <-]. unfold fresh_enough, current, lease_epoch in *. cbn in *. by rewrite Hc, Hb.
  - destruct p; [auto | done | done].
Qed.

Lemma inv_try_install p e fresh n o s :
  timely o -> (p = Bootstrap -> ready o = false) -> worth (put o s) ->
  fresh_enough (put o s) e fresh -> Inv (put (try_install p e fresh n o) s).
Proof.
  intros Ht Hr Hw Hf. unfold try_install, install_if_notification_epoch.
  destruct (N.eqb_spec (epoch_of (conn o) message_type.LEASE_NOTIFY) e) as [He|]; cbn [negb].
  - set (o' := install _ _ o).
    assert (Hw' : worth (put o' s)).
    { intros _. unfold fresh_enough, current, lease_epoch in *. cbn in *. tauto. }
    destruct p; cbn [pass_done].
    + destruct (N.eqb_spec (generation (conn o')) (baseline o')); cbn [negb]; [place | by apply inv_top].
    + place.
    + place.
  - destruct p; place.
Qed.

Lemma inv_steady_poll watch_closed timer_due s :
  Inv s -> at_ (obs s) = Steady -> Inv (put (steady_poll watch_closed timer_due (obs s)) s).
Proof.
  intros Hi Hat. pose proof (inv_baseline _ Hi : timely (obs s)) as Ht.
  assert (Hw : worth (put (obs s) s)) by (apply (inv_worth _ Hi); by rewrite Hat).
  pose proof (inv_forgotten _ Hi Hat) as Hforgot.
  unfold steady_poll. destruct (shutdown (obs s)); [by apply inv_leave|].
  destruct (_ || _); [by apply inv_top|]. destruct (poll (obs s)) as [p o'] eqn:E.
  pose proof (poll_same _ _ _ E) as [Hs Hcons]. pose proof (timely_same _ _ Hs Ht) as Ht'.
  assert (Hk : worth (put (consume true o') s)).
  { intros _. do 5 right. left. cbn. by rewrite orb_true_r. }
  destruct p as [[[n|error]|]|].
  - by apply inv_start.
  - destruct error; try (by apply inv_replace). by apply inv_leave.
  - by apply inv_replace.
  - pose proof (worth_same _ _ s Hs (poll_known _ _ _ E ltac:(done)) Hw) as Hw'.
    destruct timer_due; [by apply inv_start|]. destruct Hs as (_ & _ & _ & _ & _ & Hat' & _).
    assert (Hgo : o' = go Steady o') by (rewrite Hat in Hat'; destruct o'; cbn in *; by subst).
    rewrite Hgo. apply inv_go; try done. rewrite Hcons. intros _ Hc. unfold forgets. rewrite Hat. by apply Hforgot.
Qed.

Lemma inv_wake k s :
  Inv s -> match k with Listed (Ok _) | Subscribed (Ok _) => False | _ => True end -> Inv (put (wake k (obs s)) s).
Proof.
  intros Hi Hk. pose proof (inv_baseline _ Hi : timely (obs s)) as Ht. pose proof (inv_worth _ Hi) as Hw.
  pose proof (inv_boot _ Hi) as Hb. pose proof (inv_fresh _ Hi) as Hf.
  assert (Hsame : Inv (put (obs s) s)).
  { apply inv_put; try done; try apply Hi. intros Hat Hc. unfold forgets. rewrite Hat. by apply (inv_forgotten _ Hi). }
  assert (Hfalse : forall p, p = Bootstrap -> bootstrapping (Listing p 0 ∅ None 0) = true) by (by intros p ->).
  unfold wake. destruct (at_ (obs s)) eqn:Hat, k as [[page|e]| | | |[sub|e]|wc td|]; try done;
    try (by destruct (_ && _); [apply inv_leave|]); cbn [running bootstrapping unsubscribed] in *.
  - eapply inv_pass_failed; eauto.
  - apply inv_try_install; auto. by eapply Hf.
  - apply inv_start; auto.
  - apply inv_start; auto.
  - destruct e; try (by apply inv_leave); place.
  - by apply inv_steady_poll.
Qed.

Lemma epoch_bump c :
  epoch_of c message_type.LEASE_NOTIFY + 1 < 2 ^ 64 ->
  epoch_of (bump_epoch message_type.LEASE_NOTIFY c) message_type.LEASE_NOTIFY = epoch_of c message_type.LEASE_NOTIFY + 1.
Proof.
  intros Hlt. unfold bump_epoch. unfold epoch_of at 1. cbn [notification_epoch set_epochs].
  rewrite lookup_insert_eq. cbn. unfold wrapping_add. by apply N.mod_small.
Qed.

Lemma outstanding_push e o : outstanding o -> outstanding (push_event e o).
Proof. unfold outstanding. cbn. intros Ho. apply Exists_app. by left. Qed.

Lemma outstanding_overrun o : outstanding o -> outstanding (overrun o).
Proof.
  unfold outstanding. cbn. destruct (events (receiver (subscription o))) as [|e es]; [done|].
  intros _. by left.
Qed.

(** A step that leaves the observer's places alone. *)
Lemma inv_frame s s' :
  Inv s -> at_ (obs s') = at_ (obs s) -> ready (obs s') = ready (obs s) -> baseline (obs s') = baseline (obs s) ->
  generation (conn (obs s)) <= generation (conn (obs s')) -> lease_epoch (obs s) <= lease_epoch (obs s') ->
  (reading s' = None \/ reading s' = reading s) ->
  (forall e m, e <= lease_epoch (obs s) -> fresh_enough s e m -> fresh_enough s' e m) ->
  consumed (obs s') = consumed (obs s) -> forgotten s' = forgotten s ->
  (ready (obs s) = true -> running (at_ (obs s)) = true -> worth s -> worth s') -> Inv s'.
Proof.
  intros Hi Hat Hr Hb Hg He Hrd Hf Hc Hfg Hw. split; rewrite ?Hat, ?Hr, ?Hb, ?Hc, ?Hfg in *.
  - pose proof (inv_baseline _ Hi). lia.
  - intros e Hcap. pose proof (inv_epoch _ Hi e Hcap). lia.
  - apply Hi.
  - intros m sent Hm. destruct Hrd as [Hn|Hrd]; [congruence|]. rewrite Hrd in Hm.
    apply (inv_reading _ Hi) in Hm as (p & e & items & c & n & Hl & Hit & Hm). exists p, e, items, c, n.
    split; [done|]. split; [done|]. apply Hf; [apply (inv_epoch _ Hi); by rewrite Hl | done].
  - intros p e m n Hl. apply Hf; [apply (inv_epoch _ Hi); by rewrite Hl | by eapply inv_fresh].
  - apply Hi.
  - intros Hrun Hready. rewrite Hr in Hready. apply Hw; [done | done | by apply Hi | congruence].
  - apply Hi.
Qed.

Lemma inv_page s page p e items c n :
  Inv s -> at_ (obs s) = Listing p e items c n ->
  (current s -> exists m sent, reading s = Some (m, sent)
     /\ (next_cursor page = None -> lists (sent ++ Lease.items page) m)) ->
  Inv (page_arrives page s).
Proof.
  intros Hi Hat Hpage.
  assert (Hb : p = Bootstrap -> ready (obs s) = false) by (intros ->; apply (inv_boot _ Hi); by rewrite Hat).
  assert (He : e <= lease_epoch (obs s)) by (apply (inv_epoch _ Hi); by rewrite Hat).
  assert (Hw : worth s) by (apply (inv_worth _ Hi); by rewrite Hat).
  assert (Hread : forall m sent, reading s = Some (m, sent) -> items = insert_items sent ∅ /\ fresh_enough s e m).
  { intros m sent Hm. apply (inv_reading _ Hi) in Hm as (p1 & e1 & items1 & c1 & n1 & Hl & Hit & Hm).
    rewrite Hat in Hl. by injection Hl as <- <- <- <- <-. }
  unfold page_arrives, wake. rewrite Hat. destruct (next_cursor page) as [c'|] eqn:En.
  - split; cbn; try done.
    + apply Hi.
    + by intros ? [= <-].
    + destruct (reading s) as [[m sent]|]; [|done]. intros ? ? [= <- <-].
      destruct (Hread m sent eq_refl) as [-> Hm]. do 5 eexists. split; [done|]. split; [|exact Hm].
      symmetry. apply insert_items_app.
    + destruct p; [by auto | done | done].
  - change (Inv (put (after_list p e (insert_items (Lease.items page) items) n (obs s)) s)).
    eapply inv_after_list; [exact Hat | apply Hi | done | done | exact Hw |].
    unfold fresh_enough, current. cbn.
    destruct (N.eq_dec (generation (conn (obs s))) (baseline (obs s))) as [Hc|]; [|by auto].
    destruct (Hpage Hc) as (m & sent & Hm & Hl). destruct (Hread m sent Hm) as [-> Hf].
    rewrite <- insert_items_app, (lists_items _ _ (Hl eq_refl)). exact Hf.
Qed.

Lemma inv_serve s p e items n :
  Inv s -> at_ (obs s) = Listing p e items None n ->
  Inv {| obs := obs s; inventory := inventory s; attached := attached s; queued := queued s;
         publishing := publishing s; reading := Some (inventory s, []); forgotten := forgotten s |}.
Proof.
  intros Hi Hat. split; cbn; try apply Hi.
  intros m sent [= <- <-]. do 5 eexists. split; [exact Hat|]. split; [by eapply inv_empty | by left].
Qed.

(** While it is being replaced, the subscription may lose the broker. *)
Lemma inv_detached s s' :
  Inv s -> obs s' = obs s -> inventory s' = inventory s -> attached s' = false -> queued s' = queued s ->
  publishing s' = publishing s -> reading s' = reading s -> forgotten s' = forgotten s -> Inv s'.
Proof.
  intros Hi Ho Hm Ha Hq Hp Hr Hfg. apply (inv_frame s); rewrite ?Ho; try done; [by right | |].
  - intros e m _ _. do 3 right. by left.
  - intros _ _ _ _. by do 6 right.
Qed.

Ltac frame s := apply (inv_frame s); cbn; try done; try lia; auto.

(** [worth] survives a step that touches neither view nor counts. *)
Lemma worth_kept s s' :
  current s' <-> current s -> view (obs s') = view (obs s) -> inventory s' = inventory s -> queued s' = queued s ->
  publishing s' = publishing s -> (outstanding (obs s) -> outstanding (obs s')) ->
  consumed (obs s') = consumed (obs s) -> attached s' = attached s -> ready (obs s) = true -> worth s -> worth s'.
Proof. unfold worth. intros Hc -> -> -> -> Ho -> -> Hr Hw _. specialize (Hw Hr). tauto. Qed.

Lemma inv_step s s' : Inv s -> step s s' -> Inv s'.
Proof.
  intros Hi Hs. destruct Hs as [s m|s n Hq He|s n e Hp Hrel|s e He|s|s c Hg Hcl He Hwire|s m wires b Hg Hu|s Hg|s|s Hu
    |s p e items n Hat|s page p e items c n Hat Hpage|s sub wires r n b Hat|s k Hk Hl].
  - destruct (attached s) eqn:Ha; frame s; try (intros e m' _ _; do 3 right; by left); try (intros _ _ _ _; by do 6 right).
    + intros e m' _ _. right. left. cbn. lia.
    + intros _ _ _ _. cbn. right. right. left. lia.
  - pose proof (epoch_bump (conn (obs s)) He) as Hb. frame s.
    + unfold lease_epoch in *. cbn. lia.
    + intros e m' Hle _. right. right. left. unfold lease_epoch in *. cbn. lia.
    + intros _ _ _ _. cbn. do 3 right. left. lia.
  - frame s. intros _ _ _ _. cbn. do 4 right. left. unfold outstanding. cbn. apply Exists_app. right. by left.
  - pose proof (epoch_bump (conn (obs s)) He) as Hb. frame s.
    + unfold lease_epoch in *. cbn. lia.
    + intros e' m' Hle _. right. right. left. unfold lease_epoch in *. cbn. lia.
    + intros Hrdy _. apply worth_kept; try done. apply (outstanding_push e).
  - frame s. intros Hrdy _. apply worth_kept; try done. apply outstanding_overrun.
  - frame s.
    + unfold lease_epoch in *. cbn. lia.
    + intros e m Hle. unfold fresh_enough, current, lease_epoch in *. cbn. rewrite He, Hg. done.
    + intros Hrdy _. apply worth_kept; try done.
      * unfold current. cbn. by rewrite Hg.
      * unfold outstanding, wire in *. cbn. by rewrite Hwire.
  - assert (Hnc : generation (conn (obs s)) + 1 <> baseline (obs s)) by (pose proof (inv_baseline _ Hi); lia).
    frame s; [by intros; do 4 right | by intros; left].
  - assert (Hnc : generation (conn (obs s)) + 1 <> baseline (obs s)) by (pose proof (inv_baseline _ Hi); lia).
    frame s; [by intros; do 4 right | by intros; left].
  - frame s.
  - by apply (inv_detached s).
  - by eapply inv_serve.
  - by eapply inv_page.
  - unfold wake. cbn [at_ set_conn]. rewrite Hat.
    assert (Hrdy : ready (obs s) = false) by (apply (inv_boot _ Hi); by rewrite Hat).
    assert (Ht : timely (obs s)) by apply Hi.
    destruct r; cbn [replaced].
    + apply inv_go; try done. by apply worth_unready.
    + by apply inv_top.
  - by apply inv_wake.
Qed.

Lemma inv_reachable s0 s : starts s0 -> reachable s0 s -> Inv s.
Proof.
  intros (o & Ho & Hr & Hb & Ha & Hrd & Hfg) Hs. induction Hs as [|s s' _ IH Hstep]; [|by eapply inv_step].
  pose proof (inv_top o (with_obs (go Gone o) s0) ltac:(unfold timely; lia) Hr) as Hi.
  assert (Hp : s0 = put (top o) (with_obs (go Gone o) s0)) by (destruct s0; cbn in *; by subst). by rewrite Hp.
Qed.

(** ** What a ready view is worth *)


(** Errors a periodic pass passes over. *)
Definition ignored (error : FitzError) : Prop := error <> Closed /\ subscription_must_be_replaced error = false.

Lemma leave_not_steady o : at_ (leave o) <> Steady.
Proof. unfold leave. destruct (closed _); [done|]. by destruct (deactivate _ _). Qed.

Lemma replace_not_steady r o : at_ (replace r o) <> Steady.
Proof. unfold replace. destruct (closed _); [done|]. by destruct (deactivate _ _). Qed.

Lemma top_not_steady o : at_ (top o) <> Steady.
Proof. unfold top. destruct (_ || _); [apply leave_not_steady | done]. Qed.

Lemma failed_steady p error o : at_ (pass_failed p error o) = Steady -> p = AfterTimer /\ ignored error.
Proof.
  unfold pass_failed, ignored. intros Hs.
  assert (Hc : error <> Closed) by (intros ->; by apply leave_not_steady in Hs).
  assert (Hp : p = AfterTimer /\ subscription_must_be_replaced error = false).
  { destruct error; try done; destruct p; cbn in Hs |- *; try done;
      by first [apply replace_not_steady in Hs | apply top_not_steady in Hs]. }
  tauto.
Qed.

(** In the steady state a consumed invalidation is one that a periodic pass
    left behind when it failed. *)
Lemma steady_left_behind k o :
  at_ o <> Steady -> at_ (wake k o) = Steady -> consumed (wake k o) = true ->
  exists e items c n, at_ o = Listing AfterTimer e items c n
    /\ exists error o1, ignored error /\ wake k o = go Steady o1.
Proof.
  intros Hn. assert (Hf : forall p e o1, at_ (pass_failed p e o1) = Steady ->
      p = AfterTimer /\ ignored e /\ pass_failed p e o1 = go Steady o1).
  { intros p e o1 Hs. pose proof (failed_steady _ _ _ Hs) as [-> [Hc Hi]]. split; [done|]. split; [done|].
    unfold pass_failed. rewrite Hi. by destruct e. }
  unfold wake. destruct (at_ o) as [p e items c a|p e fresh a|p a| |r|r a|r a| | |] eqn:Hat; try done;
    destruct k as [[page|err]| | | |[sub|err]|wc td|]; try (by rewrite Hat);
    try (destruct (_ && _); [by intros Hs%leave_not_steady | by rewrite Hat]); try done.
  - destruct (next_cursor page); [done|]. unfold after_list. destruct (drain_invalidation_buffer o) as [[[]|err] o1]; [done..|].
    intros Hs _. apply Hf in Hs as (-> & Hi & Hg). do 4 eexists. split; [done|]. by exists err, o1.
  - intros Hs _. apply Hf in Hs as (-> & Hi & Hg). do 4 eexists. split; [done|]. by exists err, o.
  - unfold try_install, install_if_notification_epoch. destruct (negb _); [done|].
    destruct p; cbn; [destruct (negb _); [by intros Hs%top_not_steady | done] | done..].
  - destruct r; [done|]. by intros Hs%top_not_steady.
  - destruct err; try done. by intros Hs%leave_not_steady.
Qed.

(** ** Runs *)

#[export] Instance LeaseListItem_eq_dec : EqDecision LeaseListItem.
Proof. solve_decision. Defined.

(** Steps by name, and when they may be taken. *)
Inductive Action : Type :=
| Changes (m : View)
| Counts
| Publishes (route : bytes)
| Serves
| Page (page : LeaseListPage)
| Reconnects (m : View) (wires : gmap N N) (restored : bool)
| Wakes (k : Wake).

Definition act (a : Action) (s : System) : System :=
  match a with
  | Changes m => {| obs := obs s; inventory := m; attached := attached s;
                    queued := if attached s then S (queued s) else queued s;
                    publishing := publishing s; reading := reading s; forgotten := forgotten s |}
  | Counts => {| obs := set_conn (bump_epoch message_type.LEASE_NOTIFY (conn (obs s))) (obs s);
                 inventory := inventory s; attached := attached s; queued := pred (queued s);
                 publishing := S (publishing s); reading := reading s; forgotten := forgotten s |}
  | Publishes route => {| obs := push_event (Received (change_bytes (wire (obs s)) route)) (obs s);
                          inventory := inventory s; attached := attached s; queued := queued s;
                          publishing := pred (publishing s); reading := reading s; forgotten := forgotten s |}
  | Serves => {| obs := obs s; inventory := inventory s; attached := attached s; queued := queued s;
                 publishing := publishing s; reading := Some (inventory s, []); forgotten := forgotten s |}
  | Page page => page_arrives page s
  | Reconnects m wires restored =>
      {| obs := set_conn (rewire wires (set_generation (generation (conn (obs s)) + 1) (conn (obs s)))) (obs s);
         inventory := m; attached := restored; queued := 0; publishing := 0; reading := None;
         forgotten := forgotten s |}
  | Wakes k => put (wake k (obs s)) s
  end.

(** [lists], decided. *)
Definition listed_by (l : list LeaseListItem) (m : View) : bool :=
  bool_decide (insert_items l ∅ = m) && forallb (fun i => bool_decide (m !! li_route i = Some i)) l.

Lemma listed_by_lists l m : listed_by l m = true -> lists l m.
Proof.
  unfold listed_by. intros [Hm%bool_decide_eq_true Hl]%andb_true_iff route i. rewrite forallb_forall in Hl. split.
  - intros Hi. destruct (insert_items_lookup l ∅ route) as [(i' & Hin & Hr & E)|[_ E]]; rewrite Hm in E.
    + assert (i' = i) as <- by (apply (inj Some); by transitivity (m !! route)). done.
    + by assert (Some i = None) by (by transitivity (m !! route)).
  - intros [Hi%list_elem_of_In <-]. by apply Hl, bool_decide_eq_true in Hi.
Qed.

Definition allowed (a : Action) (s : System) : bool :=
  match a with
  | Changes _ => true
  | Counts => negb (Nat.eqb (queued s) 0) && (lease_epoch (obs s) + 1 <? 2 ^ 64)
  | Publishes route =>
      negb (Nat.eqb (publishing s) 0)
      && match yield (wire (obs s)) (AfterId decode_change) buffer_full (Received (change_bytes (wire (obs s)) route)) with
         | Some _ => true | None => false end
  | Serves => match at_ (obs s) with Listing _ _ _ None _ => true | _ => false end
  | Page page =>
      match at_ (obs s), reading s with
      | Listing _ _ _ _ _, Some (m, sent) =>
          match next_cursor page with
          | None => listed_by (sent ++ Lease.items page) m
          | Some _ => true
          end
      | _, _ => false
      end
  | Reconnects _ _ restored =>
      (generation (conn (obs s)) + 1 <? 2 ^ 64) && (negb restored || negb (unsubscribed (at_ (obs s))))
  | Wakes (Listed (Err Timeout)) => match at_ (wake (Listed (Err Timeout)) (obs s)) with Listing _ _ _ _ _ => false | _ => true end
  | Wakes (Listed _ | Subscribed _ | ShutdownSeen) => false
  | Wakes _ => match at_ (obs s) with Listing _ _ _ _ _ => false | _ => true end
  end.

Lemma act_step a s : allowed a s = true -> step s (act a s).
Proof.
  destruct a as [m| |route| |page|m wires b|k]; cbn [allowed act]; intros Ha.
  - apply step_change.
  - apply andb_true_iff in Ha as [Hq%negb_true_iff%Nat.eqb_neq He%N.ltb_lt].
    destruct (queued s) as [|n] eqn:E; [done|]. by apply step_count.
  - apply andb_true_iff in Ha as [Hq%negb_true_iff%Nat.eqb_neq Hy].
    destruct (publishing s) as [|n] eqn:E; [done|]. apply (step_publish s n _ E). unfold relevant.
    by destruct (yield _ _ _ _).
  - destruct (at_ (obs s)) as [p e items [c|] n| | | | | | | | |] eqn:E; try done. by eapply step_serve.
  - destruct (at_ (obs s)) as [p e items c n| | | | | | | | |] eqn:E; try done.
    destruct (reading s) as [[m sent]|] eqn:Er; [|done]. eapply step_page; [exact E|]. intros _.
    exists m, sent. split; [done|]. intros Hn. rewrite Hn in Ha. by apply listed_by_lists.
  - apply andb_true_iff in Ha as [Hg%N.ltb_lt Hb]. apply step_reconnect; [done|].
    intros ->. by apply negb_true_iff in Hb.
  - assert (Hk : match k with Listed (Ok _) | Subscribed (Ok _) => False | _ => True end)
      by (destruct k as [[]| | | |[]| |]; done).
    apply (step_wake s k Hk). intros p e items c n Hat Hw. rewrite Hat in Ha.
    destruct k as [[|[]]| | | | | |]; try done. rewrite Hw, Hat in Ha. done.
Qed.

Fixpoint run (actions : list Action) (s : System) : System :=
  match actions with [] => s | a :: actions => run actions (act a s) end.
Fixpoint all_allowed (actions : list Action) (s : System) : bool :=
  match actions with [] => true | a :: actions => allowed a s && all_allowed actions (act a s) end.

Lemma run_reachable actions : forall s0 s,
  reachable s0 s -> all_allowed actions s = true -> reachable s0 (run actions s).
Proof.
  induction actions as [|a actions IH]; intros s0 s Hs; cbn; [done|]. intros [Ha Hr]%andb_true_iff.
  apply IH; [|done]. by eapply reachable_step, act_step.
Qed.

Definition start_observer : Observer :=
  {| conn := Shared_new 8;
     subscription := {| sub_route := str "lease://realm/area/*"; registration := {| key := 1; registered := true |};
                        receiver := {| events := []; ended := false |}; closed := false |};
     view := ∅; ready := false; shutdown := false; baseline := 0; consumed := false; at_ := Gone |}.

Definition start_system (m : View) : System :=
  {| obs := top start_observer; inventory := m; attached := true; queued := 0; publishing := 0; reading := None; forgotten := false |}.

Lemma start_system_starts m : starts (start_system m).
Proof. by exists start_observer. Qed.

Definition leader : LeaseListItem :=
  {| li_route := str "lease://realm/area/leader"; li_owner_id := str "node-1"; holder_incarnation := 3;
     acquired_at := str "2024-01-01T00:00:00Z"; expires_in_secs := 30; renewals := 2 |}.
Definition with_leader : View := {[ li_route leader := leader ]}.
Definition one_page (l : list LeaseListItem) : LeaseListPage := {| Lease.items := l; next_cursor := None |}.

(** What a run ended with. *)
Definition observed (s : System) : option N * bool * bool * bool * (nat * nat * nat) :=
  (match at_ (obs s) with Steady => Some (generation (conn (obs s)) - baseline (obs s)) | _ => None end,
   ready (obs s), bool_decide (view (obs s) = ∅), bool_decide (view (obs s) = inventory s),
   (queued s, publishing s, length (events (receiver (subscription (obs s)))))).

(** A bootstrap over an unchanging inventory. *)
Definition bootstrap_run : System :=
  run [Serves; Page (one_page [leader]); Wakes Resumed] (start_system with_leader).

Lemma bootstrap_observed :
  all_allowed [Serves; Page (one_page [leader]); Wakes Resumed] (start_system with_leader) = true
  /\ observed bootstrap_run = (Some 0, true, false, true, (0, 0, 0)%nat).
Proof. vm_compute. done. Qed.

Lemma observed_inv s g r em eq q p n :
  observed s = (Some g, r, em, eq, (q, p, n)) ->
  at_ (obs s) = Steady /\ generation (conn (obs s)) - baseline (obs s) = g /\ ready (obs s) = r
  /\ (view (obs s) = ∅ <-> em = true) /\ (view (obs s) = inventory s <-> eq = true)
  /\ queued s = q /\ publishing s = p /\ length (events (receiver (subscription (obs s)))) = n.
Proof.
  unfold observed. intros [= Hat Hr He Hq Hqu Hp Hn]. destruct (at_ (obs s)); try done. injection Hat as Hg.
  rewrite <- He, <- Hq, !bool_decide_eq_true. tauto.
Qed.


Lemma obs_act_wakes k s : obs (act (Wakes k) s) = wake k (obs s).
Proof. done. Qed.

(** A change is notified while a periodic pass lists; the pass takes the
    notification, lists again, and times out. *)
Definition forgetful_actions : list Action :=
  [Serves; Page (one_page []); Wakes Resumed; Wakes (Polls false true); Serves; Changes with_leader; Counts;
   Publishes (li_route leader); Page (one_page []); Wakes (Listed (Err Timeout))].
Definition forgetful : System := run forgetful_actions (start_system ∅).

Lemma forgetful_observed :
  all_allowed forgetful_actions (start_system ∅) = true
  /\ observed forgetful = (Some 0, true, true, false, (0, 0, 0)%nat)
  /\ observed (act (Wakes (Polls false false)) forgetful) = (Some 0, true, true, false, (0, 0, 0)%nat).
Proof. vm_compute. done. Qed.

(** C38: the periodic pass of the steady state ignores errors after it has
    taken notifications out of the buffer: when a change is notified while the
    pass lists, and its next listing times out, the observer goes on ready and
    steady, in an unchanged session, with a view that is not the inventory, and nothing is under way or waiting
    that would tell it until the next periodic pass. *)
Theorem timer_pass_forgets_invalidation :
  reachable (start_system ∅) forgetful
  /\ at_ (obs forgetful) = Steady /\ ready (obs forgetful) = true /\ current forgetful
  /\ view (obs forgetful) = ∅ /\ view (obs forgetful) <> inventory forgetful
  /\ queued forgetful = 0%nat /\ publishing forgetful = 0%nat
  /\ events (receiver (subscription (obs forgetful))) = []
  /\ at_ (wake (Polls false false) (obs forgetful)) = Steady
  /\ view (wake (Polls false false) (obs forgetful)) = ∅.
Proof.
  pose proof (start_system_starts ∅) as H0. destruct forgetful_observed as (Ha & Ho & Hp).
  pose proof (run_reachable _ _ _ (reachable_start _) Ha : reachable _ forgetful) as Hs.
  pose proof (inv_baseline _ (inv_reachable _ _ H0 Hs)) as Hb.
  apply observed_inv in Ho as (Hat & Hg & Hr & He & Hi & Hq & Hpu & Hn).
  apply observed_inv in Hp as (Hat' & _ & _ & He' & _).
  rewrite obs_act_wakes in Hat', He'.
  split; [exact Hs|]. split; [exact Hat|]. split; [exact Hr|]. split; [unfold current; lia|].
  split; [by apply He|]. split; [intros E; by apply Hi in E|]. split; [exact Hq|]. split; [exact Hpu|].
  split; [by apply nil_length_inv|]. split; [exact Hat' | apply He'; reflexivity].
Qed.

(** C38's observer, in the terms of the invariant. *)
Lemma forgetful_forgotten : forgotten forgetful = true /\ attached forgetful = true.
Proof. split; by vm_compute. Qed.

(** A reconnection whose restoration of the subscription fails, the bootstrap
    in the new session, and a change: the broker notifies nobody of it. *)
Definition unrestored_actions : list Action :=
  [Serves; Page (one_page []); Wakes Resumed; Reconnects ∅ ∅ false; Wakes (Polls true false);
   Serves; Page (one_page []); Wakes Resumed; Changes with_leader].
Definition unrestored : System := run unrestored_actions (start_system ∅).

(** A session goes on without the subscription it could not restore, and the
    observer does not learn of it: it is ready, in its present session, with a
    view that is not the inventory, and nothing is under way that would tell it
    until the next periodic pass. *)
Lemma failed_restoration_hides_changes :
  all_allowed unrestored_actions (start_system ∅) = true
  /\ observed unrestored = (Some 0, true, true, false, (0, 0, 0)%nat)
  /\ attached unrestored = false /\ forgotten unrestored = false
  /\ observed (act (Wakes (Polls false false)) unrestored) = (Some 0, true, true, false, (0, 0, 0)%nat).
Proof. vm_compute. done. Qed.
