(* ===== verification/ObserverLive.v ===== *)
(** * ObserverLive

    The lease observer settles: once the broker's inventory stands still and
    its listings are answered, a pass under way ends in the steady state with
    the inventory as the view. *)

From S2P Require Import Prelude Errors Protocol Codec Routes Responses Shared Conn Subscriptions Lease LeaseObserver.
From S2P Require Import ObserverFacts.

(** ** A quiet connection

    [pages]: what the broker answers to a listing, by cursor. *)

Section Quiet.
Context (pages : option LeaseListCursor -> LeaseListPage).

(** Whatever the observer waits for comes, and nothing else happens. *)
Definition quiet_wake (o : Observer) : Observer :=
  match at_ o with
  | Listing _ _ _ c _ => wake (Listed (Ok (pages c))) o
  | Installing _ _ _ _ => wake Resumed o
  | EpochBackoff _ _ | Pausing => wake Slept o
  | Steady => wake (Polls false false) o
  | _ => o
  end.

(** From cursor [c] on the broker has [n] more pages, with the items [l]. *)
Inductive pages_from : option LeaseListCursor -> nat -> list LeaseListItem -> Prop :=
| last_page c : next_cursor (pages c) = None -> pages_from c 1 (Lease.items (pages c))
| more_pages c c' n l :
    next_cursor (pages c) = Some c' -> pages_from (Some c') n l -> pages_from c (S n) (Lease.items (pages c) ++ l).

(** Nothing was lost and everything decodes. *)
Definition sound_event (wire : N) (e : Event) : Prop :=
  match yield wire (AfterId decode_change) buffer_full e with Some (Err _) => False | _ => True end.

Record quiet (o : Observer) : Prop := {
  quiet_shutdown : shutdown o = false;
  quiet_session : generation (conn o) = baseline o;
  quiet_open : closed (subscription o) = false;
  quiet_channel : ended (receiver (subscription o)) = false;
  quiet_events : Forall (sound_event (wire o)) (events (receiver (subscription o)));
}.

Lemma quiet_go a o : quiet o -> quiet (go a o).
Proof. by intros []. Qed.
Lemma quiet_consume b o : quiet o -> quiet (consume b o).
Proof. by intros []. Qed.
Lemma quiet_install v r o : quiet o -> quiet (install v r o).
Proof. by intros []. Qed.

(** A poll takes a notification, or empties the buffer. *)
Lemma poll_events_sound wire es :
  Forall (sound_event wire) es ->
  (poll_events wire (AfterId decode_change) buffer_full es false = (Pending, []) /\ ~ Exists (relevant wire) es)
  \/ exists n es', poll_events wire (AfterId decode_change) buffer_full es false = (Ready (Some (Ok n)), es')
       /\ (length es' < length es)%nat /\ Forall (sound_event wire) es'.
Proof.
  induction 1 as [|e es He Hes IH]; [left; split; [done | intros H; by apply Exists_nil in H]|].
  rewrite yield_head. unfold sound_event in He. destruct (yield _ _ _ e) as [[n|error]|] eqn:Ey; [|done|].
  - right. exists n, es. split; [done|]. split; [cbn; lia | done].
  - destruct IH as [[-> Hr]|(n & es' & -> & Hl & Hs)]; [left | right].
    + split; [done|]. rewrite Exists_cons. unfold relevant at 1. rewrite Ey. tauto.
    + exists n, es'. split; [done|]. split; [cbn; lia | done].
Qed.

Lemma quiet_poll o :
  quiet o ->
  (exists o', poll o = (Pending, o') /\ quiet o' /\ same_but_buffer o o' /\ consumed o' = consumed o
     /\ events (receiver (subscription o')) = [] /\ ~ outstanding o)
  \/ exists n o', poll o = (Ready (Some (Ok n)), o') /\ quiet o' /\ same_but_buffer o o'
     /\ (length (events (receiver (subscription o'))) < length (events (receiver (subscription o))))%nat.
Proof.
  intros [Hsh Hg Hc He Hev].
  destruct (poll_events_sound _ _ Hev) as [[Hp Hno]|(n & es' & Hp & Hl & Hs)]; [left | right];
    unfold poll, poll_subscription, poll_inbox; rewrite Hc, He, Hp.
  - eexists. split; [reflexivity|]. split; [split; cbn; try done; by rewrite Hc|]. by repeat split.
  - do 2 eexists. split; [reflexivity|]. split; [split; cbn; try done; by rewrite Hc|]. by repeat split.
Qed.

(** Draining empties the buffer: the fuel is enough. *)
Lemma drain_quiet fuel : forall b o,
  quiet o -> (length (events (receiver (subscription o))) < fuel)%nat ->
  exists b' o', drain_loop fuel b o = (Ok b', o') /\ quiet o' /\ same_but_buffer o o'
    /\ events (receiver (subscription o')) = [] /\ (events (receiver (subscription o)) = [] -> b' = b).
Proof.
  induction fuel as [|fuel IH]; intros b o Hq Hf; [lia|]. cbn [drain_loop].
  destruct (quiet_poll o Hq) as [(o' & -> & Hq' & Hs & _ & He & _)|(n & o' & -> & Hq' & Hs & Hl)].
  - by exists b, o'.
  - destruct (IH true (consume true o')) as (b' & o2 & -> & Hq2 & Hs2 & He2 & _); [by apply quiet_consume | cbn; lia|].
    exists b', o2. split; [done|]. split; [done|].
    split; [exact (same_trans _ _ _ Hs (same_trans _ _ _ (same_consume true o') Hs2))|]. split; [done|].
    intros E. rewrite E in Hl. cbn in Hl. lia.
Qed.

(** ** Settling *)

Definition iterate (k : nat) (o : Observer) : Observer := Nat.iter k quiet_wake o.

Lemma iterate_add j k o : iterate (j + k) o = iterate j (iterate k o).
Proof. unfold iterate. by rewrite Nat.iter_add. Qed.

(** [k] wakes take [o] where [P] holds. *)
Definition within (k : nat) (o : Observer) (P : Observer -> Prop) : Prop :=
  exists j, (j <= k)%nat /\ P (iterate j o).

Lemma within_now k (o : Observer) (P : Observer -> Prop) : P o -> within k o P.
Proof. exists 0%nat. split; [lia | done]. Qed.

Lemma within_wake k o P : within k (quiet_wake o) P -> within (S k) o P.
Proof.
  intros (j & Hj & HP). exists (S j). split; [lia|]. unfold iterate in *. by rewrite Nat.iter_succ_r.
Qed.

Lemma within_later j k o P : within k (iterate j o) P -> within (j + k) o P.
Proof.
  intros (i & Hi & HP). exists (i + j)%nat. split; [lia|]. by rewrite iterate_add.
Qed.

Lemma within_more k k' o P : within k o P -> (k <= k')%nat -> within k' o P.
Proof. intros (j & Hj & HP) Hk. exists j. split; [lia | done]. Qed.

Lemma quiet_page p e items c a o :
  iterate 1 (go (Listing p e items c a) o)
  = let items' := insert_items (Lease.items (pages c)) items in
    match next_cursor (pages c) with
    | Some next => go (Listing p e items' (Some next) a) o
    | None => after_list p e items' a (go (Listing p e items c a) o)
    end.
Proof. reflexivity. Qed.

(** A pass, up to what its drain decides. *)
Definition drained (o o1 : Observer) : Prop :=
  quiet o1 /\ conn o1 = conn o /\ ready o1 = ready o /\ events (receiver (subscription o1)) = [].

Lemma pass_ends p e a c n l o : forall items,
  pages_from c n l -> quiet o ->
  exists o1, drained o o1
    /\ (iterate n (go (Listing p e items c a) o) = go (Installing p e (insert_items l items) a) o1
        \/ (iterate n (go (Listing p e items c a) o) = start_pass p 0 o1
            /\ events (receiver (subscription o)) <> [])).
Proof.
  intros items Hl Hq. revert items. induction Hl as [c Hn|c c' n l Hn Hl IH]; intros items.
  - set (o0 := go (Listing p e items c a) o).
    destruct (drain_quiet (S (length (events (receiver (subscription o0))))) false o0) as (b & o1 & Hd & Hq1 & Hs & He & Hb);
      [by apply quiet_go | lia|].
    pose proof (quiet_page p e items c a o) as Hi. cbn zeta in Hi. rewrite Hn in Hi. fold o0 in Hi.
    destruct Hs as (Hc & _ & Hr & _). exists o1. split; [done|]. rewrite Hi. unfold after_list, drain_invalidation_buffer.
    rewrite Hd. destruct b; [right | by left]. split; [done|]. intros E. by specialize (Hb E).
  - destruct (IH (insert_items (Lease.items (pages c)) items)) as (o1 & Ho & Hi). exists o1. split; [exact Ho|].
    rewrite insert_items_app. replace (S n) with (n + 1)%nat by lia. rewrite iterate_add.
    rewrite quiet_page. cbn zeta. rewrite Hn. exact Hi.
Qed.

(** The broker's listing: [n] pages, whose items list the inventory [m]. *)
Context (m : View) (n : nat) (l : list LeaseListItem) (Hpages : pages_from None n l) (Hlists : lists l m).

Lemma pass_lists p e a o :
  quiet o ->
  exists o1, drained o o1
    /\ (iterate n (go (Listing p e ∅ None a) o) = go (Installing p e m a) o1
        \/ (iterate n (go (Listing p e ∅ None a) o) = start_pass p 0 o1
            /\ events (receiver (subscription o)) <> [])).
Proof. rewrite <- (lists_items _ _ Hlists). by apply pass_ends. Qed.

Definition settled (o : Observer) : Prop :=
  at_ o = Steady /\ ready o = true /\ view o = m /\ ~ outstanding o /\ consumed o = false.

Definition promising (p : Pass) (o : Observer) : Prop := p = Bootstrap \/ ready o = true.

(** An installation whose epoch still holds. *)
Lemma install_settles p a o :
  quiet o -> promising p o -> events (receiver (subscription o)) = [] ->
  within 1 (go (Installing p (lease_epoch o) m a) o) settled.
Proof.
  intros Hq Hp He. apply within_wake, within_now. unfold quiet_wake. cbn [at_ go]. unfold wake. cbn [at_ go].
  unfold try_install, install_if_notification_epoch. unfold lease_epoch. cbn [conn go]. rewrite N.eqb_refl. cbn [negb].
  assert (Hs : pass_done p (install m (match p with Bootstrap => true | _ => ready o end)
                                    (go (Installing p (lease_epoch o) m a) o))
             = go Steady (install m (match p with Bootstrap => true | _ => ready o end) o)).
  { destruct p; cbn; [by rewrite (quiet_session _ Hq), N.eqb_refl | done..]. }
  cbn [ready go]. unfold lease_epoch in Hs. rewrite Hs. split; [done|].
  split; [by destruct p, Hp|]. split; [done|]. split; [|done]. intros Ho.
  unfold outstanding in Ho. cbn in Ho. rewrite He in Ho. by apply Exists_nil in Ho.
Qed.

(** A pass over an empty buffer, and over any. *)
Lemma pass_settles p a o :
  quiet o -> promising p o -> events (receiver (subscription o)) = [] -> within (n + 1) (start_pass p a o) settled.
Proof.
  intros Hq Hp He. destruct (pass_lists p (lease_epoch o) a o Hq) as (o1 & (Hq1 & Hc & Hr & He1) & [Hi|[_ ?]]);
    [|done]. apply within_later. unfold start_pass. rewrite Hi.
  replace (lease_epoch o) with (lease_epoch o1) by (unfold lease_epoch; by rewrite Hc).
  apply install_settles; [done | | done]. unfold promising. by rewrite Hr.
Qed.

Lemma listing_settles p e a o :
  quiet o -> promising p o -> within (2 * n + 3) (go (Listing p e ∅ None a) o) settled.
Proof.
  intros Hq Hp. destruct (pass_lists p e a o Hq) as (o1 & (Hq1 & Hc & Hr & He1) & Hi).
  assert (Hp1 : promising p o1) by (unfold promising; by rewrite Hr).
  eapply within_more; [apply (within_later n (n + 3))|lia]. destruct Hi as [->|[-> _]].
  - destruct (N.eq_dec (lease_epoch o1) e) as [<-|Hne].
    + eapply within_more; [by apply install_settles | lia].
    + replace (n + 3)%nat with (S (S (n + 1))) by lia. apply within_wake. unfold quiet_wake. cbn [at_ go].
      unfold wake. cbn [at_ go]. unfold try_install, install_if_notification_epoch. cbn [conn go].
      destruct (N.eqb_spec (epoch_of (conn o1) message_type.LEASE_NOTIFY) e); [done|]. cbn [negb].
      apply within_wake. apply (pass_settles p (next_attempts a) o1); done.
  - eapply within_more; [by apply pass_settles | lia].
Qed.

(** The observer has a pass to run, or is about to be told of one. *)
Definition due (o : Observer) : Prop :=
  match at_ o with
  | Listing p e items c _ => items = ∅ /\ c = None /\ promising p o
  | EpochBackoff p _ => promising p o
  | Pausing => True
  | Steady => outstanding o /\ ready o = true
  | _ => False
  end.

(** C11: once nothing changes any more and the broker answers - every listing
    the same [n] pages, whose items together are the inventory, entry by entry -
    an observer with a pass to run settles: within [2n + 4] waits it is steady
    and ready, its view is the inventory, it has acted upon every notification
    it took, and none is left in its buffer; no race of epochs or
    invalidations can keep it listing. *)
Theorem observer_settles o :
  quiet o -> due o -> within (2 * n + 4) o settled.
Proof.
  intros Hq Hd. unfold due in Hd. destruct (at_ o) as [p e items c a|p e fresh a|p a| |r|r a|r a| | |] eqn:Hat; try done.
  - destruct Hd as (-> & -> & Hp). eapply within_more; [|reflexivity].
    replace o with (go (Listing p e ∅ None a) o) by (destruct o; cbn in *; by subst).
    eapply within_more; [by apply listing_settles | lia].
  - apply (within_more (S (2 * n + 3))); [|lia]. apply within_wake. unfold quiet_wake, wake. rewrite Hat.
    by apply listing_settles.
  - apply (within_more (S (2 * n + 3))); [|lia]. apply within_wake. unfold quiet_wake, wake. rewrite Hat.
    apply listing_settles; [done | by left].
  - destruct Hd as [Ho Hr]. apply (within_more (S (2 * n + 3))); [|lia]. apply within_wake.
    unfold quiet_wake, wake. rewrite Hat. unfold steady_poll.
    rewrite (quiet_shutdown _ Hq), (quiet_session _ Hq), N.eqb_refl. cbn [orb negb].
    destruct (quiet_poll o Hq) as [(o' & -> & _ & _ & _ & _ & Hno)|(i & o' & -> & Hq' & Hs & _)]; [done|].
    apply listing_settles; [by apply quiet_consume|]. right. destruct Hs as (_ & _ & Hrdy & _). cbn. by rewrite Hrdy.
Qed.
End Quiet.

(** A listing over two pages, from the start of the observer. *)
Definition follower : LeaseListItem :=
  {| li_route := str "lease://realm/area/follower"; li_owner_id := str "node-2"; holder_incarnation := 1;
     acquired_at := str "2024-01-01T00:00:01Z"; expires_in_secs := 20; renewals := 0 |}.
Definition with_both : View := <[li_route follower := follower]> with_leader.
Definition two_pages (c : option LeaseListCursor) : LeaseListPage :=
  match c with
  | None => {| Lease.items := [follower]; next_cursor := Some {| snapshot_id := 9; offset := 1 |} |}
  | Some _ => one_page [leader]
  end.

Lemma observer_settles_witness :
  pages_from two_pages None 2 [follower; leader] /\ lists [follower; leader] with_both
  /\ quiet (top start_observer) /\ due (top start_observer)
  /\ within two_pages 8 (top start_observer) (settled with_both).
Proof.
  assert (Hp : pages_from two_pages None 2 [follower; leader]).
  { eapply (more_pages two_pages None _ 1 [leader]); [reflexivity|].
    exact (last_page two_pages (Some {| snapshot_id := 9; offset := 1 |}) eq_refl). }
  assert (Hl : lists [follower; leader] with_both) by (apply listed_by_lists; by vm_compute).
  assert (Hq : quiet (top start_observer)) by (split; [done..|]; constructor).
  assert (Hd : due (top start_observer)) by (split; [done|]; split; [done|]; by left).
  split; [exact Hp|]. split; [exact Hl|]. split; [exact Hq|]. split; [exact Hd|].
  exact (observer_settles two_pages with_both 2 _ Hp Hl (top start_observer) Hq Hd).
Defined.
