(* ===== verification/Rpc.v ===== *)
(** * Rpc

    The caller's side of [src/src/client_domains/rpc.rs]: starting a call, the
    response stream with its deadline, its parent's cancellation and the
    connection's loss, and best-effort cancellation.

    A call's [cancellation_sent] flag is shared by the stream and the tasks
    that watch the deadline and the parent; every use of it is one swap, so a
    call is a state and the steps of its parts come in any order.  The worker's
    side is [RpcWorker]. *)

From S2P Require Import Prelude Errors Protocol Codec Routes Responses Shared Conn Subscriptions.

(** ** Data *)

Record RpcResponseFrame : Set := { frame_body : bytes; sequence : N }.

Inductive RpcCancellationOutcome : Set :=
| NotRequested
| RequestNotSent
| Unsupported
| QueuedRemoved
| Forwarded
| WorkerUnsupported
| AlreadyTerminal
| UnknownOrUnauthorized
| ForwardingFailed
| Unconfirmed
| OutcomeConnectionClosed.

(** [timeout] and [parent_cancellation] are the options of the source, by
    whether they are there.  [cancellation_sent] is the shared flag, and
    [submitted] the reasons of the cancellations whose sending was begun. *)
Record RpcResponseStream : Set := {
  correlation_id : bytes;
  receiver : Inbox;
  supports_cancellation : bool;
  cancellation_outcome : option RpcCancellationOutcome;
  timeout : bool;
  parent_cancellation : bool;
  cancellation_shutdown : bool;
  finished : bool;
  cancellation_sent : bool;
  submitted : list N;
}.

Definition set_receiver (i : Inbox) (s : RpcResponseStream) : RpcResponseStream :=
  {| correlation_id := correlation_id s; receiver := i; supports_cancellation := supports_cancellation s;
     cancellation_outcome := cancellation_outcome s; timeout := timeout s;
     parent_cancellation := parent_cancellation s; cancellation_shutdown := cancellation_shutdown s;
     finished := finished s; cancellation_sent := cancellation_sent s; submitted := submitted s |}.
Definition set_outcome (o : RpcCancellationOutcome) (s : RpcResponseStream) : RpcResponseStream :=
  {| correlation_id := correlation_id s; receiver := receiver s;
     supports_cancellation := supports_cancellation s; cancellation_outcome := Some o;
     timeout := timeout s; parent_cancellation := parent_cancellation s;
     cancellation_shutdown := cancellation_shutdown s; finished := finished s;
     cancellation_sent := cancellation_sent s; submitted := submitted s |}.
(** [finished = true; .. cancellation_shutdown.cancel()], keeping the deadline
    and the parent as said. *)
Definition finish_with (keep_timeout keep_parent : bool) (s : RpcResponseStream) : RpcResponseStream :=
  {| correlation_id := correlation_id s; receiver := receiver s;
     supports_cancellation := supports_cancellation s; cancellation_outcome := cancellation_outcome s;
     timeout := keep_timeout && timeout s; parent_cancellation := keep_parent && parent_cancellation s;
     cancellation_shutdown := true; finished := true; cancellation_sent := cancellation_sent s;
     submitted := submitted s |}.
Definition shut_down (s : RpcResponseStream) : RpcResponseStream :=
  {| correlation_id := correlation_id s; receiver := receiver s;
     supports_cancellation := supports_cancellation s; cancellation_outcome := cancellation_outcome s;
     timeout := timeout s; parent_cancellation := parent_cancellation s; cancellation_shutdown := true;
     finished := finished s; cancellation_sent := cancellation_sent s; submitted := submitted s |}.

(** ** Cancellation messages *)

Definition cancellation_payload (id : bytes) (reason : N) : bytes :=
  finish (PayloadEncoder_new .> put_u8 1 .> put_raw id .> put_u8 reason).

(** [if cancellation_sent.swap(true) { return }], then the sending begins. *)
Definition send_cancellation_once (reason : N) (s : RpcResponseStream) : RpcResponseStream :=
  if cancellation_sent s then s
  else
    {| correlation_id := correlation_id s; receiver := receiver s;
       supports_cancellation := supports_cancellation s; cancellation_outcome := cancellation_outcome s;
       timeout := timeout s; parent_cancellation := parent_cancellation s;
       cancellation_shutdown := cancellation_shutdown s; finished := finished s;
       cancellation_sent := true; submitted := submitted s ++ [reason] |}.

(** Nothing is swapped outside a runtime. *)
Definition spawn_cancellation_once (runtime : bool) (reason : N) (s : RpcResponseStream) : RpcResponseStream :=
  if runtime then send_cancellation_once reason s else s.

Definition abandon (runtime : bool) (reason : N) (s : RpcResponseStream) : RpcResponseStream :=
  let s := finish_with false false s in
  if supports_cancellation s then spawn_cancellation_once runtime reason s else set_outcome Unsupported s.

Definition decode_cancellation_result (payload id : bytes) : option RpcCancellationOutcome :=
  if negb (blen payload =? 18) || negb (from_be (slice 0 1 payload) =? 4)
     || negb (bytes_eqb (slice 1 17 payload) id)
  then None
  else
    let code := from_be (slice 17 18 payload) in
    if code =? 1 then Some QueuedRemoved
    else if code =? 2 then Some Forwarded
    else if code =? 3 then Some WorkerUnsupported
    else if code =? 4 then Some AlreadyTerminal
    else if code =? 5 then Some UnknownOrUnauthorized
    else if code =? 6 then Some ForwardingFailed
    else None.

(** ** Responses *)

Definition decode_rpc_response_frame : Dec (N * bool * bytes) :=
  sequence <- get_u64;;
  flags <- get_u8;;
  if negb ((flags =? 0) || (flags =? 1))
  then dec_fail (Protocol (str "RPC response contains unsupported flags " ++ dec flags))
  else
    body <- get_bytes;;
    fin <- at_end;;
    if negb fin then dec_fail (Protocol (str "RPC response frame has trailing bytes"))
    else mret (sequence, flags =? 1, body).

Definition decode_terminal_error (body : bytes) : option FitzError :=
  match body with
  | b :: tail =>
      if negb (Byte.to_N b =? 1) then None
      else
        match run_dec decode_domain_error tail with
        | Ok (DomainWire code class effect message) =>
            if in_range 6001 6010 code || in_range 6050 6055 code
            then Some (DomainWire code class effect message) else None
        | _ => None
        end
  | [] => None
  end.

(** ** Polling *)

(** The loop over the receiver. *)
Fixpoint poll_responses (runtime : bool) (es : list Event) (en : bool) (s : RpcResponseStream) :
    Poll RpcResponseFrame * RpcResponseStream :=
  match es with
  | [] => (if en then Ready None else Pending, set_receiver {| events := []; ended := en |} s)
  | Lagged :: es' =>
      (Ready (Some (Err (Backpressure (str "RPC response stream is full")))),
       abandon runtime 1 (set_receiver {| events := es'; ended := en |} s))
  | Received payload :: es' =>
      let s' := set_receiver {| events := es'; ended := en |} s in
      match get_fixed 16 (PayloadDecoder_new payload) with
      | Err e => (Ready (Some (Err e)), s')
      | Ok (id, d) =>
          if negb (bytes_eqb id (correlation_id s)) then poll_responses runtime es' en s
          else
            match decode_rpc_response_frame d with
            | Err e => (Ready (Some (Err e)), s')
            | Ok ((sequence, end_, body), _) =>
                let item := Ready (Some (Ok {| frame_body := body; sequence := sequence |})) in
                if end_ then
                  match decode_terminal_error body with
                  | Some error => (Ready (Some (Err error)), finish_with false false s')
                  | None => (item, finish_with false false s')
                  end
                else (item, s')
            end
      end
  end.

(** What a poll finds ready: the loss of the connection, the parent's
    cancellation, the deadline. *)
Record Wakes : Set := { closed_ready : bool; parent_ready : bool; timeout_ready : bool; in_runtime : bool }.

Definition poll_next (k : Wakes) (s : RpcResponseStream) : Poll RpcResponseFrame * RpcResponseStream :=
  if finished s then (Ready None, s)
  else if closed_ready k then
    (Ready (Some (Err ConnectionClosed)), set_outcome OutcomeConnectionClosed (finish_with true true s))
  else if parent_cancellation s && parent_ready k then (Ready None, abandon (in_runtime k) 1 s)
  else if timeout s && timeout_ready k then (Ready (Some (Err Timeout)), abandon (in_runtime k) 2 s)
  else poll_responses (in_runtime k) (events (receiver s)) (ended (receiver s)) s.

(** ** Cancelling *)

(** What the wait for the broker's answer meets, within its five seconds. *)
Inductive Lifecycle : Set :=
| LifecycleMessage (payload : bytes)
| LifecycleLagged
| LifecycleClosed
| LifecycleElapsed
| GenerationChanged.

Definition settle_cancel (o : RpcCancellationOutcome) (s : RpcResponseStream) : RpcCancellationOutcome * RpcResponseStream :=
  (o, set_outcome o (finish_with false true s)).

(** Running out of events is the deadline. *)
Fixpoint await_lifecycle (ls : list Lifecycle) (s : RpcResponseStream) : RpcCancellationOutcome * RpcResponseStream :=
  match ls with
  | LifecycleMessage payload :: ls' =>
      match decode_cancellation_result payload (correlation_id s) with
      | Some outcome => settle_cancel outcome s
      | None => await_lifecycle ls' s
      end
  | LifecycleLagged :: ls' => await_lifecycle ls' s
  | GenerationChanged :: _ => settle_cancel OutcomeConnectionClosed s
  | LifecycleClosed :: _ | LifecycleElapsed :: _ | [] => settle_cancel Unconfirmed s
  end.

(** [sent]: what [connection.send] returned, if it was called. *)
Definition cancel_call (sent : Result unit) (ls : list Lifecycle) (s : RpcResponseStream) :
    RpcCancellationOutcome * RpcResponseStream :=
  match cancellation_outcome s with
  | Some outcome => (outcome, s)
  | None =>
      if finished s && negb (parent_cancellation s) && negb (cancellation_sent s) then (AlreadyTerminal, s)
      else if negb (supports_cancellation s) then settle_cancel Unsupported s
      else
        let result := if cancellation_sent s then Ok tt else sent in
        let s := send_cancellation_once 1 s in
        match result with
        | Err Closed | Err ConnectionClosed => settle_cancel OutcomeConnectionClosed s
        | Err _ => settle_cancel RequestNotSent s
        | Ok _ => await_lifecycle ls s
        end
  end.

Definition drop_stream (runtime : bool) (s : RpcResponseStream) : RpcResponseStream :=
  let s := shut_down s in
  if finished s || negb (supports_cancellation s) then s else spawn_cancellation_once runtime 1 s.

(** ** Starting a call *)

Definition one_day : duration := secs 86400.

(** [deadline.saturating_duration_since(now).as_millis().min(86_400_000)]. *)
Definition budget_ms (timeout elapsed : duration) : N := N.min ((timeout - elapsed) / 1000000) 86400000.

(** [elapsed]: the time from fixing the deadline to encoding the budget. *)
Definition call_payload (id route body : bytes) (timeout : option duration) (elapsed : duration) : bytes :=
  let e := PayloadEncoder_new .> put_raw id .> put_string route .> put_bytes body in
  finish (match timeout with
          | Some timeout => e .> put_u8 1 .> put_u32 (budget_ms timeout elapsed)
          | None => e .> put_u8 0
          end).

Section Calls.
Context {W : Type} `{BrokerLink W}.

(** [id] is the fresh UUID. *)
Definition call_with_timeout (id route body : bytes) (timeout : option duration) (elapsed : duration) :
    IO W RpcResponseStream :=
  io_lift (validate_concrete_route route (str "rpc"));;
  if match timeout with Some value => one_day <? value | None => false end
  then io_err (Protocol (str "RPC timeout must not exceed one day"))
  else
    (send message_type.RPC_REQUEST (call_payload id route body timeout elapsed);;
     mret {| correlation_id := id; receiver := {| events := []; ended := false |};
             supports_cancellation := true; cancellation_outcome := None;
             timeout := match timeout with Some _ => true | None => false end;
             parent_cancellation := false; cancellation_shutdown := false; finished := false;
             cancellation_sent := false; submitted := [] |}).

Definition call (id route body : bytes) : IO W RpcResponseStream := call_with_timeout id route body None 0.

(** [cancelled] and [remaining]: the inbound request's token and budget. *)
Definition call_from_request (cancelled : bool) (remaining : option duration) (id route body : bytes)
    (elapsed : duration) : IO W RpcResponseStream :=
  if cancelled then io_err Canceled
  else
    (s <- call_with_timeout id route body remaining elapsed;;
     mret {| correlation_id := correlation_id s; receiver := receiver s;
             supports_cancellation := supports_cancellation s;
             cancellation_outcome := cancellation_outcome s; timeout := timeout s;
             parent_cancellation := true; cancellation_shutdown := cancellation_shutdown s;
             finished := finished s; cancellation_sent := cancellation_sent s; submitted := submitted s |}).
End Calls.

(** ** A call and its tasks *)

(** A step of any part; the tasks that watch the deadline and the parent end
    with the shutdown unless their own branch is ready first. *)
Inductive CallStep : Set :=
| Arrives (e : Event)
| Polled (k : Wakes)
| Cancels (sent : Result unit) (ls : list Lifecycle)
| DeadlineTask
| ParentTask
| Drops (runtime : bool).

Definition arrive (e : Event) (i : Inbox) : Inbox := {| events := events i ++ [e]; ended := ended i |}.

Definition call_step (s : RpcResponseStream) (step : CallStep) : RpcResponseStream :=
  match step with
  | Arrives e => set_receiver (arrive e (receiver s)) s
  | Polled k => (poll_next k s).2
  | Cancels sent ls => (cancel_call sent ls s).2
  | DeadlineTask => send_cancellation_once 2 s
  | ParentTask => send_cancellation_once 1 s
  | Drops runtime => drop_stream runtime s
  end.

Definition call_run (steps : list CallStep) (s : RpcResponseStream) : RpcResponseStream := fold_left call_step steps s.

(** ** Cancellation is sent at most once *)

Definition sent_once (s : RpcResponseStream) : Prop :=
  if cancellation_sent s then exists reason, submitted s = [reason] else submitted s = [].

(** [s'] differs from [s] in nothing that counts cancellations. *)
Definition same_cancellations (s s' : RpcResponseStream) : Prop :=
  cancellation_sent s' = cancellation_sent s /\ submitted s' = submitted s.

Lemma sent_once_same s s' : same_cancellations s s' -> sent_once s -> sent_once s'.
Proof. intros [H1 H2]. unfold sent_once. by rewrite H1, H2. Qed.

Lemma sent_once_send reason s : sent_once s -> sent_once (send_cancellation_once reason s).
Proof.
  unfold send_cancellation_once. intros Hs. destruct (cancellation_sent s) eqn:E; [done|].
  unfold sent_once in *. rewrite E in Hs. cbn. exists reason. by rewrite Hs.
Qed.

Lemma sent_once_spawn runtime reason s : sent_once s -> sent_once (spawn_cancellation_once runtime reason s).
Proof. destruct runtime; [apply sent_once_send | done]. Qed.

Lemma sent_once_abandon runtime reason s : sent_once s -> sent_once (abandon runtime reason s).
Proof.
  intros Hs. unfold abandon. destruct (supports_cancellation _); [apply sent_once_spawn|];
    by apply (sent_once_same s).
Qed.

Lemma sent_once_poll_responses runtime en es : forall s, sent_once s ->
  sent_once (poll_responses runtime es en s).2.
Proof.
  induction es as [|[payload|] es IH]; intros s Hs; cbn [poll_responses]; [by apply (sent_once_same s)| |].
  - destruct (get_fixed 16 _) as [[id d]|]; [|by apply (sent_once_same s)].
    destruct (negb _); [by apply IH|].
    destruct (decode_rpc_response_frame d) as [[[[sequence end_] body] d']|]; [|by apply (sent_once_same s)].
    destruct end_; [|by apply (sent_once_same s)].
    destruct (decode_terminal_error body); by apply (sent_once_same s).
  - cbn. apply sent_once_abandon. by apply (sent_once_same s).
Qed.

Lemma sent_once_poll k s : sent_once s -> sent_once (poll_next k s).2.
Proof.
  intros Hs. unfold poll_next. destruct (finished s); [done|].
  destruct (closed_ready k); [by apply (sent_once_same s)|].
  destruct (_ && parent_ready k); [by apply sent_once_abandon|].
  destruct (_ && timeout_ready k); [by apply sent_once_abandon | by apply sent_once_poll_responses].
Qed.

Lemma await_lifecycle_settles ls : forall s, exists o, await_lifecycle ls s = settle_cancel o s.
Proof.
  induction ls as [|[payload| | | |] ls IH]; intros s; cbn [await_lifecycle]; eauto.
  destruct (decode_cancellation_result _ _); eauto.
Qed.

(** Either cancelling has an answer already, or it settles one. *)
Lemma cancel_settles sent ls s :
  (cancel_call sent ls s).2 = s
  \/ exists o, (cancel_call sent ls s).2 = (settle_cancel o s).2
     \/ (cancel_call sent ls s).2 = (settle_cancel o (send_cancellation_once 1 s)).2.
Proof.
  unfold cancel_call. destruct (cancellation_outcome s); [by left|]. destruct (_ && _); [by left|].
  destruct (negb _); [right; eexists; by left|].
  destruct (if cancellation_sent s then _ else _) as [|e].
  - destruct (await_lifecycle_settles ls (send_cancellation_once 1 s)) as (o & ->). right. exists o. by right.
  - right. destruct e; eexists; right; reflexivity.
Qed.

Lemma sent_once_step s step : sent_once s -> sent_once (call_step s step).
Proof.
  intros Hs. destruct step; cbn [call_step]; try by apply sent_once_send.
  - by apply (sent_once_same s).
  - by apply sent_once_poll.
  - destruct (cancel_settles sent ls s) as [->|(o & [->| ->])]; [done | by apply (sent_once_same s)|].
    apply (sent_once_same (send_cancellation_once 1 s)); [done | by apply sent_once_send].
  - unfold drop_stream. destruct (_ || _); [by apply (sent_once_same s)|].
    apply sent_once_spawn. by apply (sent_once_same s).
Qed.

Lemma sent_once_run steps : forall s, sent_once s -> sent_once (call_run steps s).
Proof. induction steps as [|step steps IH]; intros s Hs; [done|]. by apply IH, sent_once_step. Qed.

Lemma finished_send reason s : finished (send_cancellation_once reason s) = finished s.
Proof. unfold send_cancellation_once. by destruct (cancellation_sent s). Qed.

Lemma finished_step s step : finished s = true -> finished (call_step s step) = true.
Proof.
  intros Hf. destruct step; cbn [call_step]; rewrite ?finished_send; try done.
  - unfold poll_next. by rewrite Hf.
  - destruct (cancel_settles sent ls s) as [->|(o & [->| ->])]; done.
  - unfold drop_stream. cbn [shut_down finished]. by rewrite Hf.
Qed.

Lemma finished_run steps : forall s, finished s = true -> finished (call_run steps s) = true.
Proof. induction steps as [|step steps IH]; intros s Hs; [done|]. by apply IH, finished_step. Qed.

(** C33: however the frames, the polls, the deadline, the parent's cancellation,
    explicit cancellations and the drop of the stream interleave, a call begins
    to send at most one cancellation, and its flag says whether it did; once the
    stream finished it stays so, and yields nothing more. *)
Theorem call_cancels_at_most_once {W} `{BrokerLink W} id route body deadline elapsed (w w' : W) s steps :
  call_with_timeout id route body deadline elapsed w = (Ok s, w') ->
  let now := call_run steps s in
  (if cancellation_sent now then exists reason, submitted now = [reason] else submitted now = [])
  /\ (finished now = true -> forall later k,
        poll_next k (call_run later now) = (Ready None, call_run later now)).
Proof.
  intros E now. assert (Hs : sent_once s).
  { unfold call_with_timeout in E. apply io_bind_inv in E as [(? & w1 & _ & E)|(? & _ & ?)]; [|done].
    destruct (match deadline with Some _ => _ | None => _ end); [done|].
    apply io_bind_inv in E as [(? & w2 & _ & [= <- _])|(? & _ & ?)]; done. }
  split; [by apply (sent_once_run steps)|]. intros Hf later k. unfold poll_next.
  by rewrite (finished_run later now Hf).
Qed.

Definition sample_id : bytes := be_bytes 16 7.

Lemma call_cancels_at_most_once_witness :
  let '(r, w) := call_with_timeout sample_id (str "rpc://realm/app/op") (str "b") (Some (secs 1)) 0 (answering [Ok []]) in
  match r with
  | Err _ => False
  | Ok s =>
      let steps := [Polled {| closed_ready := false; parent_ready := false; timeout_ready := true; in_runtime := true |};
                    DeadlineTask; Cancels (Ok tt) []; Drops true] in
      submitted (call_run steps s) = [2] /\ finished (call_run steps s) = true
      /\ (if cancellation_sent (call_run steps s) then exists reason, submitted (call_run steps s) = [reason]
          else submitted (call_run steps s) = [])
  end.
Proof.
  destruct (call_with_timeout sample_id (str "rpc://realm/app/op") (str "b") (Some (secs 1)) 0 (answering [Ok []]))
    as [r w] eqn:E.
  destruct r as [s|e]; [|vm_compute in E; discriminate E].
  pose proof (call_cancels_at_most_once _ _ _ _ _ _ _ s
    [Polled {| closed_ready := false; parent_ready := false; timeout_ready := true; in_runtime := true |};
     DeadlineTask; Cancels (Ok tt) []; Drops true] E) as [H _].
  assert (Hs : submitted (call_run [Polled {| closed_ready := false; parent_ready := false; timeout_ready := true;
    in_runtime := true |}; DeadlineTask; Cancels (Ok tt) []; Drops true] s) = [2]
    /\ finished (call_run [Polled {| closed_ready := false; parent_ready := false; timeout_ready := true;
    in_runtime := true |}; DeadlineTask; Cancels (Ok tt) []; Drops true] s) = true)
    by (clear H; vm_compute in E; injection E as <- _; by vm_compute).
  split; [apply Hs|]. split; [apply Hs | exact H].
Defined.

(** ** Responses until the terminal one *)

Local Arguments be_bytes : simpl never.

(** What an event is to the stream of call [id]. *)
Inductive Verdict : Set :=
| Skipped
| Item (r : Result RpcResponseFrame)
| Final (r : Result RpcResponseFrame).

Definition verdict (id : bytes) (e : Event) : Verdict :=
  match e with
  | Lagged => Final (Err (Backpressure (str "RPC response stream is full")))
  | Received payload =>
      match get_fixed 16 (PayloadDecoder_new payload) with
      | Err e => Item (Err e)
      | Ok (id', d) =>
          if negb (bytes_eqb id' id) then Skipped
          else
            match decode_rpc_response_frame d with
            | Err e => Item (Err e)
            | Ok ((sequence, false, body), _) => Item (Ok {| frame_body := body; sequence := sequence |})
            | Ok ((sequence, true, body), _) =>
                Final (match decode_terminal_error body with
                       | Some error => Err error
                       | None => Ok {| frame_body := body; sequence := sequence |}
                       end)
            end
      end
  end.

(** The items of a stream over [es], and whether it reached its end. *)
Fixpoint responses (id : bytes) (es : list Event) : list (Result RpcResponseFrame) * bool :=
  match es with
  | [] => ([], false)
  | e :: es =>
      match verdict id e with
      | Skipped => responses id es
      | Item r => let '(items, fin) := responses id es in (r :: items, fin)
      | Final r => ([r], true)
      end
  end.

Definition quiet : Wakes :=
  {| closed_ready := false; parent_ready := false; timeout_ready := false; in_runtime := true |}.

(** Polls until nothing is ready. *)
Fixpoint collect (fuel : nat) (s : RpcResponseStream) : option (list (Result RpcResponseFrame) * Poll RpcResponseFrame) :=
  match fuel with
  | O => None
  | S fuel' =>
      match poll_next quiet s with
      | (Ready (Some item), s') =>
          match collect fuel' s' with
          | Some (items, last) => Some (item :: items, last)
          | None => None
          end
      | (last, _) => Some ([], last)
      end
  end.

Lemma poll_responses_verdict e es en s :
  finished s = false ->
  let s' := set_receiver {| events := es; ended := en |} s in
  match verdict (correlation_id s) e with
  | Skipped => poll_responses true (e :: es) en s = poll_responses true es en s
  | Item r => poll_responses true (e :: es) en s = (Ready (Some r), s')
  | Final r => exists f, poll_responses true (e :: es) en s = (Ready (Some r), f) /\ finished f = true
  end.
Proof.
  intros Hf s'. destruct e as [payload|]; cbn [verdict poll_responses].
  - destruct (get_fixed 16 _) as [[id d]|]; [|done]. destruct (negb _); [done|].
    destruct (decode_rpc_response_frame d) as [[[[sequence []] body] d']|]; [|done..].
    destruct (decode_terminal_error body); by eexists.
  - eexists. split; [reflexivity|]. unfold abandon.
    destruct (supports_cancellation _); [|done]. cbn [spawn_cancellation_once]. by rewrite finished_send.
Qed.

Lemma poll_quiet s : finished s = false ->
  poll_next quiet s = poll_responses true (events (receiver s)) (ended (receiver s)) s.
Proof. intros Hf. unfold poll_next. rewrite Hf. cbn. by rewrite !andb_false_r. Qed.

Lemma collect_responses es : forall fuel en s, (length es < fuel)%nat -> finished s = false ->
  receiver s = {| events := es; ended := en |} ->
  collect fuel s = Some ((responses (correlation_id s) es).1,
                         if (responses (correlation_id s) es).2 || en then Ready None else Pending).
Proof.
  induction es as [|e es IH]; intros [|fuel] en s Hl Hf Hr; cbn [length] in Hl; try lia; cbn [collect responses];
    rewrite poll_quiet by done; rewrite Hr; cbn [events ended].
  - cbn. by destruct en.
  - pose proof (poll_responses_verdict e es en s Hf) as Hv.
    destruct (verdict (correlation_id s) e) as [|r|r].
    + rewrite Hv. specialize (IH (S fuel) en (set_receiver {| events := es; ended := en |} s)).
      cbn [collect] in IH. rewrite poll_quiet in IH by done. cbn [receiver set_receiver events ended correlation_id] in IH.
      rewrite <- IH; [|lia|done|done].
      assert (Hsame : forall es s, poll_responses true es en (set_receiver {| events := es; ended := en |} s) = poll_responses true es en s).
      { clear. intros es s. generalize {| events := es; ended := en |} at 1. revert s.
        induction es as [|[payload|] es IH]; intros s i; cbn [poll_responses]; [done| |done].
        destruct (get_fixed 16 _) as [[id d]|]; [|done]. cbn [correlation_id set_receiver].
        destruct (negb _); [apply IH|]. destruct (decode_rpc_response_frame d) as [[[[q []] b] d']|]; [|done..].
        by destruct (decode_terminal_error b). }
      by rewrite Hsame.
    + rewrite Hv. rewrite (IH fuel en) by (cbn; done || lia). cbn [correlation_id set_receiver].
      by destruct (responses (correlation_id s) es).
    + destruct Hv as (f & -> & Hfin). destruct fuel as [|fuel]; [lia|]. cbn [collect]. unfold poll_next. by rewrite Hfin.
Qed.

Lemma decode_terminal_error_spec body e :
  decode_terminal_error body = Some e <->
  exists code class effect message,
    envelope_ok code class effect message /\ body = Byte.x01 :: error_envelope code class effect message
    /\ (6001 <= code <= 6010 \/ 6050 <= code <= 6055) /\ e = DomainWire code class effect message.
Proof.
  assert (Hrange : forall code, in_range 6001 6010 code || in_range 6050 6055 code = true <->
    6001 <= code <= 6010 \/ 6050 <= code <= 6055).
  { intros code. unfold in_range. rewrite orb_true_iff, !andb_true_iff, !N.leb_le. done. }
  assert (Hrun : forall tail e', run_dec decode_domain_error tail = Ok e' <->
    exists code class effect message, envelope_ok code class effect message
      /\ tail = error_envelope code class effect message /\ e' = DomainWire code class effect message).
  { intros tail e'. unfold run_dec. split.
    - destruct (decode_domain_error _) as [[e1 d]|] eqn:E; [|done]. intros [= ->].
      apply decode_domain_error_spec in E as (c & k & f & m & H1 & H2 & H3 & _); [|apply new_wf].
      by exists c, k, f, m.
    - intros (c & k & f & m & H1 & -> & ->).
      assert (Hd : decode_domain_error (PayloadDecoder_new (error_envelope c k f m))
        = Ok (DomainWire c k f m, advance (blen (error_envelope c k f m)) (PayloadDecoder_new (error_envelope c k f m))))
        by (apply decode_domain_error_spec; [apply new_wf | by exists c, k, f, m]).
      by rewrite Hd. }
  unfold decode_terminal_error. destruct body as [|b tail].
  { split; [done|]. by intros (? & ? & ? & ? & _ & ? & _). }
  destruct (N.eqb_spec (Byte.to_N b) 1) as [Hb|Hb]; cbn [negb].
  - apply (byte_to_N_inj b Byte.x01) in Hb as ->. split.
    + destruct (run_dec decode_domain_error tail) as [e'|] eqn:E; [|done].
      apply Hrun in E as (c & k & f & m & H1 & -> & ->). destruct (_ || _) eqn:Er; [|done]. intros [= <-].
      apply Hrange in Er. by exists c, k, f, m.
    + intros (c & k & f & m & H1 & [= ->] & Hr & ->).
      rewrite (proj2 (Hrun (error_envelope c k f m) (DomainWire c k f m))) by (by exists c, k, f, m).
      by rewrite (proj2 (Hrange c) Hr).
  - split; [done|]. intros (? & ? & ? & ? & _ & [= ->] & _). done.
Qed.

(** C32: undisturbed, a response stream yields the frames of its call in order,
    each decoded or with the error of its decoding, skips those of other
    calls, and ends with the terminal frame: nothing after it is delivered, and
    it is an error exactly when its body is a complete error envelope with an
    RPC code.  Overwritten notifications end the stream with an error too. *)
Theorem stream_ends_with_terminal_frame s fuel :
  finished s = false -> (length (events (receiver s)) < fuel)%nat ->
  collect fuel s = Some ((responses (correlation_id s) (events (receiver s))).1,
                         if (responses (correlation_id s) (events (receiver s))).2 || ended (receiver s)
                         then Ready None else Pending)
  /\ (forall body e, decode_terminal_error body = Some e <->
        exists code class effect message,
          envelope_ok code class effect message /\ body = Byte.x01 :: error_envelope code class effect message
          /\ (6001 <= code <= 6010 \/ 6050 <= code <= 6055) /\ e = DomainWire code class effect message).
Proof.
  intros Hf Hl. split; [|exact decode_terminal_error_spec].
  apply collect_responses; [done | done | by destruct (receiver s)].
Qed.

Definition response_frame (id : bytes) (sequence : N) (end_ : bool) (body : bytes) : Event :=
  Received (id ++ be_bytes 8 sequence ++ be_bytes 1 (if end_ then 1 else 0) ++ field_bytes body).
Definition sample_stream : RpcResponseStream :=
  {| correlation_id := sample_id;
     receiver := {| events := [response_frame sample_id 0 false (str "a");
                               response_frame (be_bytes 16 8) 0 true (str "other");
                               response_frame sample_id 1 true (Byte.x01 :: error_envelope 6001 1 0 (str "no worker"));
                               response_frame sample_id 2 false (str "late")]; ended := false |};
     supports_cancellation := true; cancellation_outcome := None; timeout := false;
     parent_cancellation := false; cancellation_shutdown := false; finished := false;
     cancellation_sent := false; submitted := [] |}.

Lemma stream_ends_with_terminal_frame_witness :
  collect 5 sample_stream
  = Some ([Ok {| frame_body := str "a"; sequence := 0 |}; Err (DomainWire 6001 1 0 (str "no worker"))], Ready None).
Proof.
  assert (Hr : responses sample_id (events (receiver sample_stream))
    = ([Ok {| frame_body := str "a"; sequence := 0 |}; Err (DomainWire 6001 1 0 (str "no worker"))], true))
    by (by vm_compute).
  rewrite (proj1 (stream_ends_with_terminal_frame sample_stream 5 eq_refl ltac:(cbn; lia))).
  change (correlation_id sample_stream) with sample_id. by rewrite Hr.
Defined.
