(* ===== verification/RpcWorker.v ===== *)
(** * RpcWorker

    The worker's side of RPC ([src/src/client_domains/rpc/worker.rs], and
    registration and budgets in [rpc.rs]): the task that decodes requests into
    a bounded inbox and cancels or clears them, the stream that hands them out,
    and a request's responses and clean-up.

    A cancellation token is a number, and the tokens that were cancelled a set:
    the token of a call is shared by the worker's table and the request. *)

From S2P Require Import Prelude Errors Protocol Codec Routes Responses Shared Conn Subscriptions Rpc.

(** ** Data *)

Record RpcRequest : Set := {
  rq_correlation_id : bytes;
  rq_route : bytes;
  rq_body : bytes;
  rq_cancellation : N;
  rq_deadline : option N;
  rq_supports_cancellation : bool;
  next_sequence : N;
  rq_finished : bool;
  rq_generation : N;
}.

Record ActiveWorkerCall : Set := { call_cancellation : N; cancellation_requested : bool }.

(** [WorkerInbox]: the queue, its flag and its bound. *)
Record WorkerInbox : Set := { requests : list (Result RpcRequest); inbox_closed : bool; capacity : N }.

(** The worker and its task.  [session] is the connection's generation and
    [seen] the one its watch has shown the task; [cancelled] the tokens
    cancelled so far and [next_token] a fresh one; [submitted] the messages the
    task and the clean-ups sent. *)
Record Worker : Type := {
  pattern : bytes;
  inbox : WorkerInbox;
  supports : bool;
  active_calls : gmap bytes ActiveWorkerCall;
  shutdown : bool;
  stopped : bool;
  session : N;
  seen : N;
  cancelled : gset N;
  next_token : N;
  submitted : list (N * bytes);
}.

Definition set_inbox (i : WorkerInbox) (w : Worker) : Worker :=
  {| pattern := pattern w; inbox := i; supports := supports w; active_calls := active_calls w;
     shutdown := shutdown w; stopped := stopped w; session := session w; seen := seen w;
     cancelled := cancelled w; next_token := next_token w; submitted := submitted w |}.
Definition set_active (m : gmap bytes ActiveWorkerCall) (w : Worker) : Worker :=
  {| pattern := pattern w; inbox := inbox w; supports := supports w; active_calls := m;
     shutdown := shutdown w; stopped := stopped w; session := session w; seen := seen w;
     cancelled := cancelled w; next_token := next_token w; submitted := submitted w |}.
Definition cancel_tokens (s : gset N) (w : Worker) : Worker :=
  {| pattern := pattern w; inbox := inbox w; supports := supports w; active_calls := active_calls w;
     shutdown := shutdown w; stopped := stopped w; session := session w; seen := seen w;
     cancelled := s ∪ cancelled w; next_token := next_token w; submitted := submitted w |}.
Definition take_token (w : Worker) : N * Worker :=
  (next_token w,
   {| pattern := pattern w; inbox := inbox w; supports := supports w; active_calls := active_calls w;
      shutdown := shutdown w; stopped := stopped w; session := session w; seen := seen w;
      cancelled := cancelled w; next_token := next_token w + 1; submitted := submitted w |}).
Definition submit_message (mt : N) (payload : bytes) (w : Worker) : Worker :=
  {| pattern := pattern w; inbox := inbox w; supports := supports w; active_calls := active_calls w;
     shutdown := shutdown w; stopped := stopped w; session := session w; seen := seen w;
     cancelled := cancelled w; next_token := next_token w; submitted := submitted w ++ [(mt, payload)] |}.
Definition set_seen (g : N) (w : Worker) : Worker :=
  {| pattern := pattern w; inbox := inbox w; supports := supports w; active_calls := active_calls w;
     shutdown := shutdown w; stopped := stopped w; session := session w; seen := g;
     cancelled := cancelled w; next_token := next_token w; submitted := submitted w |}.
Definition set_session (g : N) (w : Worker) : Worker :=
  {| pattern := pattern w; inbox := inbox w; supports := supports w; active_calls := active_calls w;
     shutdown := shutdown w; stopped := stopped w; session := g; seen := seen w;
     cancelled := cancelled w; next_token := next_token w; submitted := submitted w |}.
Definition set_stopped (w : Worker) : Worker :=
  {| pattern := pattern w; inbox := inbox w; supports := supports w; active_calls := active_calls w;
     shutdown := shutdown w; stopped := true; session := session w; seen := seen w;
     cancelled := cancelled w; next_token := next_token w; submitted := submitted w |}.
Definition set_shutdown (w : Worker) : Worker :=
  {| pattern := pattern w; inbox := inbox w; supports := supports w; active_calls := active_calls w;
     shutdown := true; stopped := stopped w; session := session w; seen := seen w;
     cancelled := cancelled w; next_token := next_token w; submitted := submitted w |}.

(** ** The inbox *)

Definition set_requests (l : list (Result RpcRequest)) (i : WorkerInbox) : WorkerInbox :=
  {| requests := l; inbox_closed := inbox_closed i; capacity := capacity i |}.

(** The request comes back when it was not taken. *)
Definition push (r : Result RpcRequest) (i : WorkerInbox) : option (Result RpcRequest) * WorkerInbox :=
  if inbox_closed i || (capacity i <=? blen (requests i)) then (Some r, i)
  else (None, set_requests (requests i ++ [r]) i).

(** The first request with this id, and the queue without it. *)
Fixpoint remove_first (id : bytes) (l : list (Result RpcRequest)) : option (RpcRequest * list (Result RpcRequest)) :=
  match l with
  | [] => None
  | Ok r :: l' =>
      if bytes_eqb (rq_correlation_id r) id then Some (r, l')
      else match remove_first id l' with Some (x, l'') => Some (x, Ok r :: l'') | None => None end
  | Err e :: l' => match remove_first id l' with Some (x, l'') => Some (x, Err e :: l'') | None => None end
  end.

Definition close_inbox (i : WorkerInbox) : WorkerInbox :=
  {| requests := requests i; inbox_closed := true; capacity := capacity i |}.

Definition inbox_poll_next (i : WorkerInbox) : Poll RpcRequest * WorkerInbox :=
  match requests i with
  | r :: l => (Ready (Some r), set_requests l i)
  | [] => (if inbox_closed i then Ready None else Pending, i)
  end.

(** ** Requests *)

Definition response_payload (id : bytes) (sequence : N) (body : bytes) (is_end : bool) : bytes :=
  finish (PayloadEncoder_new .> put_raw id .> put_u64 sequence .> put_u8 (N.b2n is_end) .> put_bytes body).

Definition cleanup_payload (id : bytes) : bytes := finish (PayloadEncoder_new .> put_u8 3 .> put_raw id).

(** [finish_cleanup], run when a request is dropped, once. *)
Definition drop_request (runtime : bool) (r : RpcRequest) (w : Worker) : Worker :=
  let w := set_active (delete (rq_correlation_id r) (active_calls w)) w in
  if rq_supports_cancellation r && (session w =? rq_generation r) && runtime
  then submit_message message_type.RPC_CANCEL (cleanup_payload (rq_correlation_id r)) w
  else w.

Definition drop_results (l : list (Result RpcRequest)) (w : Worker) : Worker :=
  fold_left (fun w r => match r with Ok r => drop_request true r w | Err _ => w end) l w.

Definition clear_inbox (w : Worker) : Worker :=
  drop_results (requests (inbox w)) (set_inbox (set_requests [] (inbox w)) w).

(** ** Decoding *)

Definition budget_error : FitzError := Protocol (str "invalid RPC request budget extension").

Definition decode_rpc_request_budget : Dec (option duration) :=
  flag <- get_u8;;
  if flag =? 0 then
    fin <- at_end;;
    if negb fin then dec_fail (Protocol (str "RPC budget flag has trailing bytes")) else mret None
  else
    budget_ms <- get_u32;;
    fin <- at_end;;
    if negb (flag =? 1) || negb fin || (86400000 <? budget_ms) then dec_fail budget_error
    else mret (Some (millis budget_ms)).

(** The fields of a request for this worker, if its route is the worker's. *)
Definition decode_request_fields (pattern : bytes) (supports : bool) :
    Dec (option (bytes * bytes * bytes * option duration)) :=
  id <- get_fixed 16;;
  route <- get_string;;
  if negb (route_matches_pattern route pattern) then mret None
  else
    body <- get_bytes;;
    fin <- at_end;;
    if negb supports && negb fin then dec_fail (Protocol (str "unnegotiated RPC budget extension"))
    else budget <- decode_rpc_request_budget;; mret (Some (id, route, body, budget)).

(** [now]: the instant the deadline is compared with. *)
Definition decode_request (now : N) (received : ReceivedNotification) (w : Worker) :
    option (Result RpcRequest) * Worker :=
  match run_dec (decode_request_fields (pattern w) (supports w)) (rn_payload received) with
  | Err error => (Some (Err error), w)
  | Ok None => (None, w)
  | Ok (Some (id, route, body, budget)) =>
      let '(token, w) := take_token w in
      let w := set_active (<[id := {| call_cancellation := token; cancellation_requested := false |}]> (active_calls w)) w in
      let deadline := option_map (fun b => rn_received_at received + b) budget in
      let w := match deadline with
               | Some d => if d <=? now then cancel_tokens {[token]} w else w
               | None => w
               end in
      (Some (Ok {| rq_correlation_id := id; rq_route := route; rq_body := body; rq_cancellation := token;
                   rq_deadline := deadline; rq_supports_cancellation := supports w; next_sequence := 0;
                   rq_finished := false; rq_generation := rn_generation received |}), w)
  end.

(** ** Cancellation *)

(** A cancellation message for a worker: its length, tag and reason. *)
Definition is_worker_cancellation (payload : bytes) : bool :=
  (blen payload =? 18) && (from_be (slice 0 1 payload) =? 2) && in_range 1 4 (from_be (slice 17 18 payload)).

Definition cancel_worker_call (payload : bytes) (w : Worker) : Worker :=
  if negb (is_worker_cancellation payload) then w
  else
    let id := slice 1 17 payload in
    match active_calls w !! id with
    | None => w
    | Some call =>
        cancel_tokens {[call_cancellation call]}
          (set_active (<[id := {| call_cancellation := call_cancellation call; cancellation_requested := true |}]>
                         (active_calls w)) w)
    end.

(** The tokens of the calls under way. *)
Definition active_tokens (w : Worker) : gset N :=
  list_to_set (map (fun x => call_cancellation (snd x)) (map_to_list (active_calls w))).

(** ** The task *)

Definition overload_body : bytes :=
  finish (PayloadEncoder_new .> put_u8 1 .> put_u16 6005 .> put_u8 5 .> put_u8 0
            .> put_string (str "Local RPC worker is overloaded")).

(** [rejected.respond(..)]: a fresh request of the present session may answer. *)
Definition reject (r : RpcRequest) (w : Worker) : Worker :=
  let w := if negb (rq_finished r) && (session w =? rq_generation r)
           then submit_message message_type.RPC_RESPONSE
                  (response_payload (rq_correlation_id r) (next_sequence r) overload_body true) w
           else w in
  drop_request true r w.

Definition on_push (item : Result RpcRequest) (w : Worker) : Worker :=
  let '(back, i) := push item (inbox w) in
  let w := set_inbox i w in
  match back with Some (Ok rejected) => reject rejected w | _ => w end.

Inductive RequestEvent : Type :=
| Request (now : N) (received : ReceivedNotification)
| RequestsLagged
| RequestsClosed.
Inductive LifecycleEvent : Type :=
| Lifecycle (payload : bytes)
| LifecycleLagged
| LifecycleClosed.

Definition stop (w : Worker) : Worker := set_stopped (set_inbox (close_inbox (inbox w)) w).

Definition on_generation (w : Worker) : Worker :=
  clear_inbox (set_active ∅ (cancel_tokens (active_tokens w) (set_seen (session w) w))).

Definition on_request (e : RequestEvent) (w : Worker) : Worker :=
  match e with
  | Request now received =>
      if rn_generation received =? session w
      then match decode_request now received w with
           | (Some item, w) => on_push item w
           | (None, w) => w
           end
      else w
  | RequestsLagged => on_push (Err (Backpressure (str "RPC worker stream is full"))) w
  | RequestsClosed => stop w
  end.

Definition on_lifecycle (e : LifecycleEvent) (w : Worker) : Worker :=
  match e with
  | Lifecycle payload =>
      if is_worker_cancellation payload then
        match remove_first (slice 1 17 payload) (requests (inbox w)) with
        | Some (r, rest) => drop_request true r (set_inbox (set_requests rest (inbox w)) w)
        | None => cancel_worker_call payload w
        end
      else w
  | LifecycleLagged => w
  | LifecycleClosed => stop w
  end.

(** One wake of the [select!], which is biased: what is ready besides the
    shutdown and the generation. *)
Definition turn (watch_closed : bool) (request : option RequestEvent) (lifecycle : option LifecycleEvent)
    (w : Worker) : Worker :=
  if stopped w then w
  else if shutdown w then stop w
  else if watch_closed then stop w
  else if negb (session w =? seen w) then on_generation w
  else match request, lifecycle with
       | Some e, _ => on_request e w
       | None, Some e => on_lifecycle e w
       | None, None => w
       end.

(** The stream, and the drop of the worker. *)
Definition worker_poll_next (w : Worker) : Poll RpcRequest * Worker :=
  let '(p, i) := inbox_poll_next (inbox w) in (p, set_inbox i w).

Definition drop_worker (w : Worker) : Worker :=
  let w := cancel_tokens (active_tokens w) (set_shutdown w) in
  clear_inbox (set_inbox (close_inbox (inbox w)) w).

(** [start]. *)
Definition start (pattern : bytes) (supports : bool) (capacity session : N) : Worker :=
  {| pattern := pattern; inbox := {| requests := []; inbox_closed := false; capacity := capacity |};
     supports := supports; active_calls := ∅; shutdown := false; stopped := false; session := session;
     seen := session; cancelled := ∅; next_token := 0; submitted := [] |}.

(** ** Registration and responses *)

Definition validate_worker_concurrency (max_concurrency : N) : Result unit :=
  if in_range 1 1024 max_concurrency then Ok tt
  else Err (Protocol (str "max_concurrency must be between 1 and 1024")).

Definition decode_worker_registration (response : bytes) : Result N :=
  match decode_ok response with Ok _ => Ok 0 | Err e => Err e end.

Definition remaining_time (now : N) (r : RpcRequest) : option duration :=
  option_map (fun deadline => deadline - now) (rq_deadline r).

Definition answered_with (is_end : bool) (r : RpcRequest) : RpcRequest :=
  {| rq_correlation_id := rq_correlation_id r; rq_route := rq_route r; rq_body := rq_body r;
     rq_cancellation := rq_cancellation r; rq_deadline := rq_deadline r;
     rq_supports_cancellation := rq_supports_cancellation r; next_sequence := next_sequence r + 1;
     rq_finished := is_end; rq_generation := rq_generation r |}.

Section Client.
Context {W : Type} `{BrokerLink W}.

Definition registration_payload (pattern : bytes) (max_concurrency : N) : bytes :=
  finish (PayloadEncoder_new .> put_string pattern .> put_u32 max_concurrency .> put_u8 1).

Definition register_worker (pattern : bytes) (max_concurrency : N) : IO W (RestorableRegistration * Worker) :=
  io_lift (validate_registration_pattern pattern (str "rpc") 0);;
  io_lift (validate_worker_concurrency max_concurrency);;
  let payload := registration_payload pattern max_concurrency in
  response <- request message_type.RPC_SUBSCRIBE payload;;
  io_lift (decode_ok response);;
  registration <- io_register {| reg_message_type := message_type.RPC_SUBSCRIBE; reg_payload := payload;
                                 reg_decoder := decode_worker_registration |} 0;;
  generation <- io_get generation_of;;
  mret (registration, start pattern true max_concurrency generation).

(** [RpcWorker::deregister]; the worker it consumes is dropped after it. *)
Definition deregister_worker (registration : RestorableRegistration) (pattern : bytes) : IO W unit :=
  io_deregister registration;;
  response <- request message_type.RPC_UNSUBSCRIBE (finish (PayloadEncoder_new .> put_string pattern));;
  io_lift (decode_ok response).

Definition respond (body : bytes) (is_end : bool) : IO (W * RpcRequest) unit := fun '(w, r) =>
  if rq_finished r || negb (generation_of w =? rq_generation r) then (Err StaleHandle, (w, r))
  else
    (on_link (send message_type.RPC_RESPONSE (response_payload (rq_correlation_id r) (next_sequence r) body is_end));;
     on_state (fun r => (Ok tt, answered_with is_end r))) (w, r).

Definition finish_request : IO (W * RpcRequest) unit := fun '(w, r) =>
  if rq_finished r then (Ok tt, (w, r)) else respond [] true (w, r).
End Client.
