(* ===== verification/RpcWorkerFacts.v ===== *)
(** * RpcWorkerFacts

    A worker, its task and the requests its owner holds: every held request
    stays within reach of a cancellation, requests are handed out once and in
    order, responses are numbered in turn; and what a caller and a worker
    exchange reads back on the other side. *)

From Stdlib Require Import Sorted.
From stdpp Require Import sorting.
From S2P Require Import Prelude Errors Protocol Codec Routes Responses Shared Conn Subscriptions Rpc RpcWorker.

(** ** The worker and its owner

    [held]: the requests taken from the stream and not dropped; [taken]: all
    that were taken. *)
Record Handling : Type := { worker : Worker; held : list RpcRequest; taken : list RpcRequest }.

Inductive WorkerStep : Type :=
| Turn (watch_closed : bool) (request : option RequestEvent) (lifecycle : option LifecycleEvent)
| NewSession
| Take
| DropHeld (k : nat)
| DeadlinePasses (token : N)
| DropWorker.

Definition worker_step (s : Handling) (x : WorkerStep) : Handling :=
  let on w := {| worker := w; held := held s; taken := taken s |} in
  match x with
  | Turn wc rq lc => on (turn wc rq lc (worker s))
  | NewSession => on (set_session (session (worker s) + 1) (worker s))
  | Take =>
      match worker_poll_next (worker s) with
      | (Ready (Some (Ok r)), w) => {| worker := w; held := held s ++ [r]; taken := taken s ++ [r] |}
      | (_, w) => on w
      end
  | DropHeld k =>
      match held s !! k with
      | Some r => {| worker := drop_request true r (worker s); held := delete k (held s); taken := taken s |}
      | None => s
      end
  | DeadlinePasses token => on (cancel_tokens {[token]} (worker s))
  | DropWorker => on (drop_worker (worker s))
  end.

(** The requests of a queue. *)
Definition oks (l : list (Result RpcRequest)) : list RpcRequest :=
  omap (fun r => match r with Ok r => Some r | Err _ => None end) l.
Definition queued (s : Handling) : list RpcRequest := oks (requests (inbox (worker s))).
Definition ids (l : list RpcRequest) : list bytes := map rq_correlation_id l.
Definition tokens (l : list RpcRequest) : list N := map rq_cancellation l.

(** Correlation ids are fresh: a request that arrives has the id of none that
    is held or queued. *)
Definition fresh_id (s : Handling) (x : WorkerStep) : Prop :=
  match x with
  | Turn _ (Some (Request _ received)) _ =>
      forall id route body budget,
        run_dec (decode_request_fields (pattern (worker s)) (supports (worker s))) (rn_payload received)
          = Ok (Some (id, route, body, budget)) ->
        id ∉ ids (held s ++ queued s)
  | _ => True
  end.

Inductive handled (s0 : Handling) : Handling -> Prop :=
| handled_start : handled s0 s0
| handled_step s x : handled s0 s -> fresh_id s x -> handled s0 (worker_step s x).

(** ** The invariant *)

(** A request is within reach: its token is cancelled, or the table has it. *)
Definition in_reach (w : Worker) (r : RpcRequest) : Prop :=
  rq_cancellation r ∈ cancelled w
  \/ exists call, active_calls w !! rq_correlation_id r = Some call /\ call_cancellation call = rq_cancellation r.

Record WorkerInv (s : Handling) : Prop := {
  wi_bound : blen (requests (inbox (worker s))) <= capacity (inbox (worker s));
  wi_order : StronglySorted N.lt (tokens (taken s ++ queued s));
  wi_tokens : Forall (fun t => t < next_token (worker s)) (tokens (taken s ++ queued s));
  wi_ids : NoDup (ids (held s ++ queued s));
  wi_reach : Forall (in_reach (worker s)) (held s ++ queued s);
}.

(** ** Lists *)

Lemma oks_app a b : oks (a ++ b) = oks a ++ oks b.
Proof. apply omap_app. Qed.

Lemma remove_first_some id l r rest :
  remove_first id l = Some (r, rest) ->
  rq_correlation_id r = id /\ exists a b, l = a ++ Ok r :: b /\ rest = a ++ b.
Proof.
  revert rest. induction l as [|[x|e] l IH]; intros rest; cbn [remove_first]; [done| |].
  - destruct (bytes_eqb_spec (rq_correlation_id x) id) as [Heq|].
    + intros [= <- <-]. split; [done|]. by exists [], l.
    + destruct (remove_first id l) as [[y l'']|]; [|done]. intros [= <- <-].
      destruct (IH _ eq_refl) as (Hid & a & b & -> & ->). split; [done|]. by exists (Ok x :: a), b.
  - destruct (remove_first id l) as [[y l'']|]; [|done]. intros [= <- <-].
    destruct (IH _ eq_refl) as (Hid & a & b & -> & ->). split; [done|]. by exists (Err e :: a), b.
Qed.

Lemma sublist_forall {A} (P : A -> Prop) (k l : list A) : sublist k l -> Forall P l -> Forall P k.
Proof.
  induction 1 as [|x k l Hs IH|x k l Hs IH]; intros Hl; [done|..]; inversion Hl; subst; [constructor|]; auto.
Qed.

Lemma sorted_sublist {A} (R : A -> A -> Prop) (k l : list A) :
  sublist k l -> StronglySorted R l -> StronglySorted R k.
Proof.
  induction 1 as [|x k l Hs IH|x k l Hs IH]; intros Hl; [done|..]; inversion Hl as [|? ? Hl' Hx]; subst.
  - constructor; [by apply IH|]. by eapply sublist_forall.
  - by apply IH.
Qed.

Lemma oks_sublist k l : sublist k l -> sublist (oks k) (oks l).
Proof. induction 1 as [|[x|e] k l Hs IH|[x|e] k l Hs IH]; cbn; try done; by constructor. Qed.

(** ** Operations *)

Lemma drop_request_same r w :
  let w' := drop_request true r w in
  inbox w' = inbox w /\ next_token w' = next_token w /\ cancelled w' = cancelled w
  /\ active_calls w' = delete (rq_correlation_id r) (active_calls w).
Proof. unfold drop_request. by destruct (_ && _). Qed.

Lemma drop_results_same l : forall w,
  let w' := drop_results l w in
  inbox w' = inbox w /\ next_token w' = next_token w /\ cancelled w' = cancelled w.
Proof.
  induction l as [|[r|e] l IH]; intros w; cbn; [done| |apply IH].
  destruct (drop_request_same r w) as (Hi & Hn & Hc & _). destruct (IH (drop_request true r w)) as (Hi' & Hn' & Hc').
  split; [exact (eq_trans Hi' Hi)|]. split; [exact (eq_trans Hn' Hn) | exact (eq_trans Hc' Hc)].
Qed.

Lemma reach_drop r w x :
  rq_correlation_id x <> rq_correlation_id r -> in_reach w x -> in_reach (drop_request true r w) x.
Proof.
  intros Hne. destruct (drop_request_same r w) as (_ & _ & Hc & Ha). unfold in_reach. rewrite Hc, Ha.
  intros [?|(c & Hl & Ht)]; [by left|]. right. exists c. by rewrite lookup_delete_ne.
Qed.

Lemma reach_active_tokens w r :
  in_reach w r -> rq_cancellation r ∈ active_tokens w ∪ cancelled w.
Proof.
  intros [?|(c & Hl & <-)]; [set_solver|]. apply elem_of_union_l. unfold active_tokens.
  apply elem_of_list_to_set, list_elem_of_fmap. exists (rq_correlation_id r, c). split; [done|].
  by apply elem_of_map_to_list.
Qed.

Lemma inv_subset s w' held' taken' :
  WorkerInv s ->
  blen (requests (inbox w')) <= capacity (inbox w') ->
  sublist (taken' ++ oks (requests (inbox w'))) (taken s ++ queued s) ->
  sublist (held' ++ oks (requests (inbox w'))) (held s ++ queued s) ->
  next_token (worker s) <= next_token w' ->
  Forall (in_reach w') (held' ++ oks (requests (inbox w'))) ->
  WorkerInv {| worker := w'; held := held'; taken := taken' |}.
Proof.
  intros [Hb Ho Ht Hi Hr] Hbound Htaken Hheld Hn Hreach. split; [done|..]; unfold queued in *; cbn [worker held taken] in *.
  - eapply sorted_sublist; [|exact Ho]. by apply fmap_sublist.
  - eapply sublist_forall; [apply fmap_sublist; exact Htaken|]. eapply Forall_impl; [exact Ht | cbn; lia].
  - eapply sublist_NoDup; [exact Hi|]. by apply fmap_sublist.
  - done.
Qed.

(** Cancelling whatever is active, and emptying the queue. *)
Lemma inv_cleared s w' :
  WorkerInv s -> requests (inbox w') = [] -> next_token (worker s) <= next_token w' ->
  active_tokens (worker s) ∪ cancelled (worker s) ⊆ cancelled w' ->
  WorkerInv {| worker := w'; held := held s; taken := taken s |}
  /\ Forall (fun r => rq_cancellation r ∈ cancelled w') (held s).
Proof.
  intros Hi Hq Hn Hc.
  assert (Hall : Forall (fun r => rq_cancellation r ∈ cancelled w') (held s)).
  { pose proof (wi_reach _ Hi) as Hr. apply Forall_app in Hr as [Hr _]. eapply Forall_impl; [exact Hr|].
    cbn. intros r Hx. apply reach_active_tokens in Hx. by apply Hc. }
  split; [|exact Hall].
  apply (inv_subset s); try done; rewrite Hq; cbn; rewrite ?app_nil_r.
  - apply N.le_0_l.
  - by apply sublist_inserts_r.
  - by apply sublist_inserts_r.
  - eapply Forall_impl; [exact Hall | by left].
Qed.

Lemma inv_generation s :
  WorkerInv s ->
  WorkerInv {| worker := on_generation (worker s); held := held s; taken := taken s |}
  /\ Forall (fun r => rq_cancellation r ∈ cancelled (on_generation (worker s))) (held s).
Proof.
  intros Hi. unfold on_generation, clear_inbox.
  match goal with |- context [drop_results ?l ?w] => destruct (drop_results_same l w) as (Hin & Hn & Hc) end.
  apply inv_cleared; [done | by rewrite Hin | by rewrite Hn | by rewrite Hc].
Qed.

Lemma inv_drop_worker s :
  WorkerInv s ->
  WorkerInv {| worker := drop_worker (worker s); held := held s; taken := taken s |}
  /\ Forall (fun r => rq_cancellation r ∈ cancelled (drop_worker (worker s))) (held s).
Proof.
  intros Hi. unfold drop_worker, clear_inbox.
  match goal with |- context [drop_results ?l ?w] => destruct (drop_results_same l w) as (Hin & Hn & Hc) end.
  apply inv_cleared; [done | by rewrite Hin | by rewrite Hn | by rewrite Hc].
Qed.

(** A step that touches neither the queue nor the tokens handed out. *)
Lemma inv_same s w' :
  WorkerInv s -> requests (inbox w') = requests (inbox (worker s)) ->
  capacity (inbox w') = capacity (inbox (worker s)) -> next_token w' = next_token (worker s) ->
  (forall r, in_reach (worker s) r -> in_reach w' r) ->
  WorkerInv {| worker := w'; held := held s; taken := taken s |}.
Proof.
  intros Hi Hin Hcap Hn Hr. apply (inv_subset s); try done; rewrite ?Hin, ?Hcap, ?Hn; try done.
  - apply Hi.
  - eapply Forall_impl; [apply (wi_reach _ Hi) | exact Hr].
Qed.

(** An item that is not a request changes no request. *)
Lemma inv_push_error s e :
  WorkerInv s -> WorkerInv {| worker := on_push (Err e) (worker s); held := held s; taken := taken s |}.
Proof.
  intros Hi. unfold on_push, push. destruct (_ || _) eqn:E; [by apply inv_same|].
  apply orb_false_iff in E as [_ E%N.leb_gt].
  assert (Ho : oks (requests (inbox (worker s)) ++ [Err e]) = queued s) by (rewrite oks_app; apply app_nil_r).
  apply (inv_subset s); try done; cbn [inbox set_inbox set_requests requests capacity]; rewrite ?Ho; try done.
  - rewrite blen_app. change (blen [_]) with 1. lia.
  - apply (wi_reach _ Hi).
Qed.

(** A request that arrives: queued at the end, or rejected and forgotten. *)
Lemma inv_push_request s w r :
  WorkerInv s -> inbox w = inbox (worker s) -> rq_correlation_id r ∉ ids (held s ++ queued s) ->
  rq_cancellation r = next_token (worker s) -> next_token w = next_token (worker s) + 1 ->
  (forall x, rq_correlation_id x <> rq_correlation_id r -> in_reach (worker s) x -> in_reach w x) -> in_reach w r ->
  WorkerInv {| worker := on_push (Ok r) w; held := held s; taken := taken s |}.
Proof.
  intros Hi Hin Hid Htok Hn Hothers Hr. unfold on_push, push. rewrite Hin.
  assert (Hne : forall x, x ∈ held s ++ queued s -> rq_correlation_id x <> rq_correlation_id r).
  { intros x Hx Heq. destruct Hid. rewrite <- Heq. by apply list_elem_of_fmap_2. }
  assert (Hall : Forall (in_reach w) (held s ++ queued s)).
  { apply Forall_forall. intros x Hx. apply Hothers; [by apply Hne|].
    pose proof (wi_reach _ Hi) as Hf. rewrite Forall_forall in Hf. by apply Hf. }
  destruct (_ || _) eqn:E.
  - unfold reject. set (w1 := if negb _ && _ then _ else _).
    assert (Hw1 : inbox w1 = inbox (worker s) /\ next_token w1 = next_token w /\ (forall x, in_reach w x -> in_reach w1 x)).
    { unfold w1. destruct (_ && _); by repeat split. }
    destruct Hw1 as (Hi1 & Hn1 & Hr1). destruct (drop_request_same r w1) as (Hi2 & Hn2 & _).
    apply (inv_subset s); try done; rewrite ?Hi2, ?Hi1, ?Hn2, ?Hn1; try done; [apply Hi | lia|].
    apply Forall_forall. intros x Hx. apply reach_drop; [by apply Hne|]. apply Hr1.
    rewrite Forall_forall in Hall. by apply Hall.
  - apply orb_false_iff in E as [_ E%N.leb_gt].
    assert (Ho : oks (requests (inbox (worker s)) ++ [Ok r]) = oks (requests (inbox (worker s))) ++ [r]) by apply oks_app.
    destruct Hi as [Hb Hso Ht Hnd Hre].
    split; unfold queued in *; cbn [worker held taken inbox set_inbox set_requests requests capacity next_token];
      rewrite ?Ho, ?app_assoc, ?Hn.
    + rewrite blen_app. change (blen [_]) with 1. lia.
    + unfold tokens. rewrite map_app. apply StronglySorted_app_2; [|exact Hso | by repeat constructor].
      intros x1 x2 H1 H2. apply list_elem_of_singleton in H2 as ->. rewrite Htok.
      rewrite Forall_forall in Ht. by apply Ht.
    + unfold tokens. rewrite map_app. apply Forall_app. split; [eapply Forall_impl; [exact Ht | cbn; lia]|].
      apply Forall_singleton. lia.
    + unfold ids. rewrite map_app. apply NoDup_app. split; [exact Hnd|]. split; [|apply NoDup_singleton].
      intros x Hx Hx2. apply list_elem_of_singleton in Hx2 as ->. done.
    + apply Forall_app. split; [exact Hall | by apply Forall_singleton].
Qed.

Lemma inv_request e s :
  WorkerInv s -> fresh_id s (Turn false (Some e) None) ->
  WorkerInv {| worker := on_request e (worker s); held := held s; taken := taken s |}.
Proof.
  intros Hi Hf. destruct e as [now received| |]; cbn [on_request]; [|by apply inv_push_error | by apply inv_same].
  destruct (_ =? _); [|by apply inv_same]. cbn [fresh_id] in Hf. unfold decode_request.
  destruct (run_dec _ _) as [[[[[id route] body] budget]|]|error]; [|by apply inv_same | by apply inv_push_error].
  specialize (Hf _ _ _ _ eq_refl). cbn [take_token]. set (t := next_token (worker s)).
  set (call := {| call_cancellation := t; cancellation_requested := false |}).
  apply inv_push_request; try done; cbn [rq_correlation_id rq_cancellation].
  - by destruct (option_map _ _) as [d|]; [destruct (d <=? now)|].
  - by destruct (option_map _ _) as [d|]; [destruct (d <=? now)|].
  - intros x Hne Hx. destruct Hx as [Hx|(c & Hl & Hc)]; [left|right; exists c].
    + destruct (option_map _ _) as [d|]; [destruct (d <=? now)|]; cbn; try done. set_solver.
    + destruct (option_map _ _) as [d|]; [destruct (d <=? now)|]; cbn; by rewrite lookup_insert_ne.
  - right. exists call. split; [|done].
    destruct (option_map _ _) as [d|]; [destruct (d <=? now)|]; cbn; by rewrite lookup_insert_eq.
Qed.

Lemma reach_cancel_call payload w r : in_reach w r -> in_reach (cancel_worker_call payload w) r.
Proof.
  unfold cancel_worker_call. destruct (negb _); [done|].
  destruct (active_calls w !! slice 1 17 payload) as [call|] eqn:E; [|done].
  intros [Hc|(c & Hl & Ht)]; [left; cbn; set_solver|].
  destruct (decide (slice 1 17 payload = rq_correlation_id r)) as [Heq|Hne].
  - left. cbn. rewrite Heq in E. rewrite E in Hl. injection Hl as ->. rewrite Ht. set_solver.
  - right. exists c. cbn. by rewrite lookup_insert_ne.
Qed.

Lemma cancel_call_same payload w :
  inbox (cancel_worker_call payload w) = inbox w /\ next_token (cancel_worker_call payload w) = next_token w.
Proof. unfold cancel_worker_call. destruct (negb _); [done|]. by destruct (active_calls w !! _). Qed.

Lemma inv_lifecycle e s :
  WorkerInv s -> WorkerInv {| worker := on_lifecycle e (worker s); held := held s; taken := taken s |}.
Proof.
  intros Hi. destruct e as [payload| |]; cbn [on_lifecycle]; [|by apply inv_same | by apply inv_same].
  destruct (is_worker_cancellation payload); [|by apply inv_same].
  destruct (remove_first _ _) as [[r rest]|] eqn:E.
  - apply remove_first_some in E as (Hid & a & b & Hq & Hrest).
    set (w1 := set_inbox _ (worker s)). destruct (drop_request_same r w1) as (Hi2 & Hn2 & _).
    assert (Hqueue : oks (a ++ Ok r :: b) = oks a ++ r :: oks b) by apply oks_app.
    assert (Hrest2 : oks (requests (inbox w1)) = oks a ++ oks b) by (cbn; rewrite Hrest; apply oks_app).
    assert (Hqd : queued s = oks a ++ r :: oks b) by (unfold queued; by rewrite Hq).
    assert (Hsub : sublist (oks a ++ oks b) (queued s)).
    { rewrite Hqd. apply sublist_app; [done|]. by constructor. }
    pose proof (wi_ids _ Hi) as Hnd. rewrite Hqd in Hnd. unfold ids in Hnd.
    rewrite app_assoc, map_app in Hnd. cbn [map] in Hnd. apply NoDup_app in Hnd as (_ & Hx & Hnd).
    apply NoDup_cons in Hnd as [Hy _].
    apply (inv_subset s); try done; rewrite ?Hi2, ?Hn2; try done; rewrite ?Hrest2.
    + cbn. pose proof (wi_bound _ Hi) as Hb. rewrite Hq in Hb. rewrite Hrest.
      rewrite blen_app, blen_cons in Hb. rewrite blen_app. lia.
    + by apply sublist_app.
    + by apply sublist_app.
    + apply Forall_forall. intros x Hin. apply reach_drop.
      * intros Heq. apply elem_of_app in Hin as [Hin|Hin]; [|apply elem_of_app in Hin as [Hin|Hin]].
        -- apply (Hx (rq_correlation_id x)); [apply list_elem_of_fmap_2, elem_of_app; by left|]. rewrite Heq. by left.
        -- apply (Hx (rq_correlation_id x)); [apply list_elem_of_fmap_2, elem_of_app; by right|]. rewrite Heq. by left.
        -- apply Hy. rewrite <- Heq. by apply list_elem_of_fmap_2.
      * assert (Hf : Forall (in_reach (worker s)) (held s ++ oks a ++ oks b)).
        { eapply sublist_forall; [|apply (wi_reach _ Hi)]. by apply sublist_app. }
        rewrite Forall_forall in Hf. exact (Hf _ Hin).
  - destruct (cancel_call_same payload (worker s)) as [Hin Hn].
    apply inv_same; [done | by rewrite Hin | by rewrite Hin | done | intros r; apply reach_cancel_call].
Qed.

Lemma inv_turn wc rq lc s :
  WorkerInv s -> fresh_id s (Turn wc rq lc) ->
  WorkerInv {| worker := turn wc rq lc (worker s); held := held s; taken := taken s |}.
Proof.
  intros Hi Hf. unfold turn.
  destruct (stopped (worker s)); [by apply inv_same|]. destruct (shutdown (worker s)); [by apply inv_same|].
  destruct wc; [by apply inv_same|]. destruct (negb _); [by apply inv_generation|].
  destruct rq as [e|]; [by apply inv_request|]. destruct lc as [e|]; [by apply inv_lifecycle | by apply inv_same].
Qed.

Lemma inv_take s : WorkerInv s -> WorkerInv (worker_step s Take).
Proof.
  intros Hi. cbn [worker_step]. unfold worker_poll_next, inbox_poll_next.
  destruct (requests (inbox (worker s))) as [|[r|e] l] eqn:E.
  - by destruct (inbox_closed _); apply inv_same.
  - assert (Hq : queued s = r :: oks l) by (unfold queued; by rewrite E).
    apply (inv_subset s); try done; cbn [inbox set_inbox set_requests requests capacity].
    + pose proof (wi_bound _ Hi) as Hb. rewrite E, blen_cons in Hb. lia.
    + by rewrite Hq, <- app_assoc.
    + by rewrite Hq, <- app_assoc.
    + pose proof (wi_reach _ Hi) as Hr. rewrite Hq in Hr. by rewrite <- app_assoc.
  - assert (Hq : queued s = oks l) by (unfold queued; by rewrite E).
    apply (inv_subset s); try done; cbn [inbox set_inbox set_requests requests capacity]; rewrite <- ?Hq; try done.
    + pose proof (wi_bound _ Hi) as Hb. rewrite E, blen_cons in Hb. lia.
    + apply (wi_reach _ Hi).
Qed.

Lemma inv_drop_held s k : WorkerInv s -> WorkerInv (worker_step s (DropHeld k)).
Proof.
  intros Hi. cbn [worker_step]. destruct (held s !! k) as [r|] eqn:E; [|by destruct s].
  destruct (drop_request_same r (worker s)) as (Hin & Hn & _).
  assert (Hsub : sublist (delete k (held s) ++ queued s) (held s ++ queued s)).
  { apply sublist_app; [apply sublist_delete | done]. }
  apply (inv_subset s); try done; rewrite ?Hin, ?Hn; try done; [apply Hi|].
  apply Forall_forall. intros x Hx.
  assert (Hf : Forall (in_reach (worker s)) (delete k (held s) ++ queued s)) by (eapply sublist_forall; [exact Hsub | apply Hi]).
  rewrite Forall_forall in Hf. apply reach_drop; [|by apply Hf]. intros Heq.
  pose proof (wi_ids _ Hi) as Hnd. pose proof (eq_sym (take_drop_middle _ _ _ E)) as Hh.
  set (a := take k (held s)) in *. set (b := drop (S k) (held s)) in *.
  rewrite Hh in Hnd. unfold ids in Hnd. rewrite <- app_assoc, map_app in Hnd. cbn [app map] in Hnd.
  assert (Hd : delete k (held s) = a ++ b) by apply delete_take_drop.
  rewrite Hd, <- app_assoc in Hx. apply NoDup_app in Hnd as (_ & Hdis & Hnd). apply NoDup_cons in Hnd as [Hnb _].
  apply elem_of_app in Hx as [Hx|Hx].
  - apply (Hdis (rq_correlation_id x)); [by apply list_elem_of_fmap_2|]. rewrite Heq. by left.
  - apply Hnb. rewrite <- Heq. by apply list_elem_of_fmap_2.
Qed.

Lemma inv_worker_step s x : WorkerInv s -> fresh_id s x -> WorkerInv (worker_step s x).
Proof.
  intros Hi Hf. destruct x as [wc rq lc| | |k|token|]; [by apply inv_turn | by apply inv_same | by apply inv_take
    | by apply inv_drop_held | | by apply inv_drop_worker].
  apply inv_same; try done. intros r [?|?]; [left; cbn; set_solver | by right].
Qed.

Definition opened (pattern : bytes) (supports : bool) (capacity session : N) : Handling :=
  {| worker := start pattern supports capacity session; held := []; taken := [] |}.

Lemma inv_handled pattern supports capacity session s :
  handled (opened pattern supports capacity session) s -> WorkerInv s.
Proof.
  induction 1 as [|s x _ IH Hf]; [|by apply inv_worker_step].
  split; cbn; [apply N.le_0_l | constructor..].
Qed.

(** ** Cancellation reaches every request *)

Definition cancel_message (id : bytes) (reason : N) : bytes := be_bytes 1 2 ++ id ++ be_bytes 1 reason.

Lemma cancel_message_fields id reason :
  blen id = 16 -> in_range 1 4 reason = true ->
  is_worker_cancellation (cancel_message id reason) = true /\ slice 1 17 (cancel_message id reason) = id.
Proof.
  intros Hl Hr. apply N.eqb_eq in Hl as Hl'. unfold cancel_message.
  assert (Hlen : length id = 16%nat) by (unfold blen in Hl; lia).
  do 16 (destruct id as [|? id]; [discriminate Hlen|]). destruct id; [|discriminate Hlen].
  assert (Hc : reason = 1 \/ reason = 2 \/ reason = 3 \/ reason = 4).
  { unfold in_range in Hr. bool_to_prop. lia. }
  by destruct Hc as [->|[->|[->| ->]]].
Qed.

(** C10: requests in a worker's hands.  The inbox keeps to its bound; requests
    are handed out once each, in the order they arrived; and a request that is
    held is within reach of a cancellation, as long as its correlation id is
    its own: the broker's cancellation message cancels its token, and so does
    the task when it notices another session, and the drop of the worker. *)
Theorem held_requests_within_reach pattern supports capacity session s :
  handled (opened pattern supports capacity session) s ->
  blen (requests (inbox (worker s))) <= RpcWorker.capacity (inbox (worker s))
  /\ StronglySorted N.lt (tokens (taken s ++ queued s))
  /\ Forall (in_reach (worker s)) (held s)
  /\ (stopped (worker s) = false -> shutdown (worker s) = false ->
      if RpcWorker.session (worker s) =? seen (worker s)
      then forall r reason, r ∈ held s -> blen (rq_correlation_id r) = 16 -> in_range 1 4 reason = true ->
           rq_cancellation r ∈ cancelled (turn false None (Some (Lifecycle (cancel_message (rq_correlation_id r) reason))) (worker s))
      else forall rq lc, Forall (fun r => rq_cancellation r ∈ cancelled (turn false rq lc (worker s))) (held s))
  /\ Forall (fun r => rq_cancellation r ∈ cancelled (drop_worker (worker s))) (held s).
Proof.
  intros Hs. pose proof (inv_handled _ _ _ _ _ Hs) as Hi. pose proof (wi_reach _ Hi) as Hr.
  apply Forall_app in Hr as [Hr _].
  split; [apply Hi|]. split; [apply Hi|]. split; [exact Hr|]. split; [|by apply inv_drop_worker].
  intros Hst Hsh. unfold turn. rewrite Hst, Hsh.
  destruct (N.eqb_spec (RpcWorker.session (worker s)) (seen (worker s))) as [|Hne]; cbn [negb].
  - intros r reason Hin Hl Hreason. destruct (cancel_message_fields _ _ Hl Hreason) as [Hw Hid].
    cbn [on_lifecycle]. rewrite Hw, Hid.
    destruct (remove_first _ _) as [[x rest]|] eqn:E.
    { exfalso. apply remove_first_some in E as (Hx & a & b & Hq & _).
      pose proof (wi_ids _ Hi) as Hnd. unfold ids in Hnd. rewrite map_app in Hnd. apply NoDup_app in Hnd as (_ & Hd & _).
      apply (Hd (rq_correlation_id r)); [by apply list_elem_of_fmap_2|]. rewrite <- Hx. apply list_elem_of_fmap_2.
      unfold queued. rewrite Hq, oks_app. apply elem_of_app. right. by left. }
    rewrite Forall_forall in Hr. specialize (Hr _ Hin). unfold cancel_worker_call. rewrite Hw, Hid. cbn [negb].
    destruct Hr as [Hc|(call & Hl' & Ht)].
    + destruct (active_calls (worker s) !! _); [|done]. cbn. set_solver.
    + rewrite Hl'. cbn. rewrite Ht. set_solver.
  - intros rq lc. by apply inv_generation.
Qed.

(** ** What crosses the wire *)

Local Arguments be_bytes : simpl never.

(** One field of an encoding, read off its front. *)
Lemma dec_step {A B} (g : Dec A) (k : A -> Dec B) enc (H : Exact g enc) a l tail d :
  enc a l -> dec_wf d -> rest d = l ++ tail ->
  exists d', mbind k g d = k a d' /\ dec_wf d' /\ rest d' = tail.
Proof.
  intros He Hwf Hr. exists (advance (blen l) d). rewrite dec_bindE, (exact_reads a l He d tail Hwf Hr). split; [done|].
  split; [by eapply wf_advance | by eapply rest_advance].
Qed.

Lemma at_end_step {B} (k : bool -> Dec B) d : dec_wf d -> mbind k at_end d = k (bool_decide (rest d = [])) d.
Proof. intros Hwf. rewrite dec_bindE. unfold at_end. by rewrite is_empty_rest. Qed.

(** Reads the field [a] in front of the goal's reader, with its exactness [X]. *)
Ltac read_field X a d' W' R' :=
  lazymatch goal with
  | |- context [@mbind Dec _ _ _ ?k ?g ?d] =>
      lazymatch goal with
      | W : dec_wf d, R : rest d = ?l ++ ?tail |- _ =>
          let E := fresh in
          edestruct (dec_step g k _ X a l tail d) as (d' & E & W' & R'); [| exact W | exact R | rewrite E; clear E]
      end
  end.

Definition text_fits (s : bytes) : Prop := utf8_valid s = true /\ blen s <= u32_max.

Definition budget_bytes (budget : option N) : bytes :=
  match budget with Some ms => be_bytes 1 1 ++ be_bytes 4 ms | None => be_bytes 1 0 end.

Lemma call_payload_layout id route body timeout elapsed :
  blen route <= u32_max -> blen body <= u32_max ->
  call_payload id route body timeout elapsed
  = id ++ field_bytes route ++ field_bytes body ++ budget_bytes (option_map (fun t => budget_ms t elapsed) timeout).
Proof.
  intros Hr Hb. unfold call_payload, finish. destruct timeout as [t|]; cbn [option_map budget_bytes put_u8 put_u32 extend enc_buf];
    rewrite put_bytes_buf, put_string_buf by done; cbn [put_raw extend enc_buf PayloadEncoder_new app];
    unfold field_bytes; by rewrite <- !app_assoc.
Qed.

Lemma decode_budget budget d :
  (forall ms, budget = Some ms -> ms <= 86400000) -> dec_wf d -> rest d = budget_bytes budget ->
  exists d', decode_rpc_request_budget d = Ok (option_map millis budget, d').
Proof.
  intros Hms W R. unfold decode_rpc_request_budget. destruct budget as [ms|]; cbn [budget_bytes option_map] in *.
  - specialize (Hms ms eq_refl).
    read_field exact_u8 1 d1 W1 R1; [by apply enc_uint_intro|]. change (1 =? 0) with false. cbn [negb].
    rewrite <- (app_nil_r (be_bytes 4 ms)) in R1.
    read_field exact_u32 ms d2 W2 R2; [apply enc_uint_intro; change (2 ^ _) with 4294967296; lia|].
    rewrite at_end_step by done. rewrite R2. exists d2. cbn [negb]. change (1 =? 1) with true. cbn [negb orb].
    destruct (N.ltb_spec 86400000 ms); [lia | done].
  - rewrite <- (app_nil_r (be_bytes 1 0)) in R.
    read_field exact_u8 0 d1 W1 R1; [by apply enc_uint_intro|]. change (0 =? 0) with true. cbn [negb].
    rewrite at_end_step by done. rewrite R1. by exists d1.
Qed.

Lemma budget_bounded t elapsed : budget_ms t elapsed <= 86400000.
Proof. unfold budget_ms. lia. Qed.

Lemma request_crosses id route body timeout elapsed pattern supports :
  blen id = 16 -> text_fits route -> blen body <= u32_max -> route_matches_pattern route pattern = true ->
  supports = true ->
  run_dec (decode_request_fields pattern supports) (call_payload id route body timeout elapsed)
  = Ok (Some (id, route, body, option_map (fun t => millis (budget_ms t elapsed)) timeout)).
Proof.
  intros Hid [Hu Hr] Hb Hm ->. rewrite call_payload_layout by done. unfold run_dec, decode_request_fields.
  set (payload := id ++ _). pose proof (new_wf payload) as W0.
  assert (R0 : rest (PayloadDecoder_new payload) = payload) by done. unfold payload in R0 at 2.
  read_field (exact_fixed 16) id d1 W1 R1; [done|].
  read_field exact_string route d2 W2 R2; [by split|]. rewrite Hm. cbn [negb].
  read_field exact_bytes body d3 W3 R3; [done|]. rewrite at_end_step by done. cbn [negb andb].
  destruct (decode_budget (option_map (fun t => budget_ms t elapsed) timeout) d3) as (d4 & Hd); [| done | done|].
  - intros ms Hms. destruct timeout; [|done]. injection Hms as <-. apply budget_bounded.
  - rewrite dec_bindE, Hd. by destruct timeout.
Qed.

Lemma response_layout id seq body is_end :
  blen body <= u32_max ->
  response_payload id seq body is_end
  = id ++ be_bytes 8 seq ++ be_bytes 1 (N.b2n is_end) ++ field_bytes body.
Proof.
  intros Hb. unfold response_payload, finish. rewrite put_bytes_buf by done.
  cbn [put_u8 put_u64 put_raw extend enc_buf PayloadEncoder_new app]. unfold field_bytes. by rewrite <- !app_assoc.
Qed.

Lemma response_crosses id seq body is_end :
  blen id = 16 -> seq < 2 ^ 64 -> blen body <= u32_max ->
  Rpc.verdict id (Received (response_payload id seq body is_end))
  = if is_end
    then Final (match decode_terminal_error body with Some e => Err e | None => Ok {| frame_body := body; sequence := seq |} end)
    else Item (Ok {| frame_body := body; sequence := seq |}).
Proof.
  intros Hid Hs Hb. unfold Rpc.verdict. rewrite response_layout by done. set (payload := id ++ _).
  pose proof (new_wf payload) as W0.
  assert (R0 : rest (PayloadDecoder_new payload) = payload) by done. unfold payload in R0 at 2.
  rewrite (exact_reads (Exact := exact_fixed 16) id id (conj eq_refl Hid) _ _ W0 R0).
  rewrite bytes_eqb_refl. cbn [negb].
  assert (W1 : dec_wf (advance (blen id) (PayloadDecoder_new payload))) by (by eapply wf_advance).
  assert (R1 : rest (advance (blen id) (PayloadDecoder_new payload)) = be_bytes 8 seq ++ be_bytes 1 (N.b2n is_end) ++ field_bytes body)
    by (by eapply rest_advance).
  unfold decode_rpc_response_frame.
  read_field exact_u64 seq d2 W2 R2; [by apply enc_uint_intro|].
  read_field exact_u8 (N.b2n is_end) d3 W3 R3; [apply enc_uint_intro; by destruct is_end|].
  assert (Hf : (N.b2n is_end =? 0) || (N.b2n is_end =? 1) = true) by (by destruct is_end). rewrite Hf. cbn [negb].
  rewrite <- (app_nil_r (field_bytes body)) in R3.
  read_field exact_bytes body d4 W4 R4; [done|]. rewrite at_end_step by done. rewrite R4. cbn [negb].
  by destruct is_end.
Qed.

(** C24: what a caller and a worker send each other reads back: the request of
    a call decodes at every worker whose pattern its route matches to the same
    correlation id, route and body and to the budget that was left; each
    response the worker sends for it is, at the caller, the frame with its
    number and body, the last one ending the stream; and the answer of an
    overloaded worker ends the call with the error 6005.  A call whose route a
    worker's pattern does not match is none of its business. *)
Theorem rpc_exchange_crosses id route body timeout elapsed pattern seq answer is_end :
  blen id = 16 -> text_fits route -> blen body <= u32_max -> seq < 2 ^ 64 -> blen answer <= u32_max ->
  run_dec (decode_request_fields pattern true) (call_payload id route body timeout elapsed)
  = Ok (if route_matches_pattern route pattern
        then Some (id, route, body, option_map (fun t => millis (budget_ms t elapsed)) timeout) else None)
  /\ Rpc.verdict id (Received (response_payload id seq answer is_end))
     = (if is_end
        then Final (match decode_terminal_error answer with Some e => Err e | None => Ok {| frame_body := answer; sequence := seq |} end)
        else Item (Ok {| frame_body := answer; sequence := seq |}))
  /\ Rpc.verdict id (Received (response_payload id 0 overload_body true))
     = Final (Err (DomainWire 6005 5 0 (str "Local RPC worker is overloaded"))).
Proof.
  intros Hid Ht Hb Hs Ha. split; [|split; [by apply response_crosses|]].
  - destruct (route_matches_pattern route pattern) eqn:Hm; [by apply request_crosses|].
    destruct Ht as [Hu Hr]. rewrite call_payload_layout by done. unfold run_dec, decode_request_fields.
    set (payload := id ++ _). pose proof (new_wf payload) as W0.
    assert (R0 : rest (PayloadDecoder_new payload) = payload) by done. unfold payload in R0 at 2.
    read_field (exact_fixed 16) id d1 W1 R1; [done|].
    read_field exact_string route d2 W2 R2; [by split|]. by rewrite Hm.
  - rewrite response_crosses by done. reflexivity.
Qed.

Lemma rpc_exchange_crosses_witness :
  blen sample_id = 16 /\ text_fits (str "rpc://realm/app/op")
  /\ run_dec (decode_request_fields (str "rpc://realm/*/op") true)
       (call_payload sample_id (str "rpc://realm/app/op") (str "b") (Some (secs 2)) (millis 500))
     = Ok (Some (sample_id, str "rpc://realm/app/op", str "b", Some (millis 1500)))
  /\ Rpc.verdict sample_id (Received (response_payload sample_id 3 (str "r") true))
     = Final (Ok {| frame_body := str "r"; sequence := 3 |}).
Proof.
  assert (Ht : text_fits (str "rpc://realm/app/op")) by (by vm_compute).
  pose proof (rpc_exchange_crosses sample_id (str "rpc://realm/app/op") (str "b") (Some (secs 2)) (millis 500)
    (str "rpc://realm/*/op") 3 (str "r") true eq_refl Ht ltac:(by vm_compute) ltac:(by vm_compute) ltac:(by vm_compute))
    as (Hq & Hr & _).
  split; [reflexivity|]. split; [exact Ht|]. split.
  - rewrite Hq. vm_compute. reflexivity.
  - rewrite Hr. vm_compute. reflexivity.
Defined.

(** ** Responses *)

Section Respond.
Context {W : Type} `{LinkLaws W}.

(** A response is submitted at most once, under its request's number and
    generation (as long as no other thread moves that after the check); the number moves on only when the broker took it, so that a
    response that failed is repeated under the same number; and once the last
    one was taken, or the session was replaced, nothing more is submitted. *)
Theorem respond_numbers body is_end (w : W) r res w' r' :
  respond body is_end (w, r) = (res, (w', r')) ->
  if rq_finished r || negb (generation_of w =? rq_generation r)
  then res = Err StaleHandle /\ w' = w /\ r' = r
  else submits (fun s => is_command false message_type.RPC_RESPONSE 0
                           (response_payload (rq_correlation_id r) (next_sequence r) body is_end) s
                         /\ sent_generation s = stamp_of w
                         /\ (undisturbed w -> sent_generation s = rq_generation r)) 1 w w'
       /\ match res with
          | Ok _ => rq_finished r' = is_end /\ next_sequence r' = next_sequence r + 1
                    /\ rq_correlation_id r' = rq_correlation_id r /\ rq_generation r' = rq_generation r
          | Err _ => r' = r
          end.
Proof.
  unfold respond. destruct (_ || _) eqn:E; [by intros [= <- <- <-]|].
  apply orb_false_iff in E as [_ Eg%negb_false_iff%N.eqb_eq].
  unfold mbind, IO_mbind, on_link, on_state.
  destruct (send _ _ w) as [r1 w1] eqn:Es. apply send_law in Es.
  destruct r1 as [[]|e]; intros [= <- <- <-]; (split; [|done]);
    (eapply submits_weaken; [exact Es | | done]); intros s [Hc Hst]; (split; [exact Hc|]); (split; [exact Hst|]);
    intros Hu; by rewrite Hst, stamp_law.
Qed.
End Respond.

Definition sample_request : RpcRequest :=
  {| rq_correlation_id := sample_id; rq_route := str "rpc://realm/app/op"; rq_body := str "b"; rq_cancellation := 0;
     rq_deadline := None; rq_supports_cancellation := true; next_sequence := 0; rq_finished := false;
     rq_generation := 0 |}.

(** One response is taken, the next times out. *)
Lemma respond_numbers_witness :
  let '(res, (w, r)) := (respond (str "x") false;; respond (str "y") true) (answering [Ok []], sample_request) in
  res = Err Timeout /\ next_sequence r = 1 /\ rq_finished r = false
  /\ forall w2 r2 res2, respond (str "z") false (w, answered_with true r) = (res2, (w2, r2)) ->
       res2 = Err StaleHandle /\ w2 = w /\ r2 = answered_with true r.
Proof.
  destruct ((respond (str "x") false;; respond (str "y") true) (answering [Ok []], sample_request)) as [res [w r]] eqn:E.
  assert (Hv : res = Err Timeout /\ next_sequence r = 1 /\ rq_finished r = false)
    by (vm_compute in E; injection E as <- _ <-; done).
  destruct Hv as (H1 & H2 & H3). do 3 (split; [assumption|]).
  intros w2 r2 res2 E2. exact (respond_numbers _ _ _ _ _ _ _ E2).
Defined.

(** A request arrives, is taken, and is cancelled by the broker. *)
Definition arriving : ReceivedNotification :=
  {| rn_payload := call_payload sample_id (str "rpc://realm/app/op") (str "b") None 0; rn_received_at := 0; rn_generation := 0 |}.
Definition handled_run : Handling :=
  worker_step (worker_step (opened (str "rpc://realm/app/op") true 4 0) (Turn false (Some (Request 0 arriving)) None)) Take.

Lemma handled_run_reached : handled (opened (str "rpc://realm/app/op") true 4 0) handled_run.
Proof.
  unfold handled_run. apply (handled_step _ _ Take); [|done].
  apply (handled_step _ _ (Turn false (Some (Request 0 arriving)) None)); [apply handled_start|].
  intros id route body budget _. apply not_elem_of_nil.
Qed.

Example handled_run_holds :
  ids (held handled_run) = [sample_id] /\ stopped (worker handled_run) = false /\ shutdown (worker handled_run) = false
  /\ (session (worker handled_run) =? seen (worker handled_run)) = true.
Proof. vm_compute. done. Qed.

Lemma held_requests_within_reach_witness :
  ids (held handled_run) = [sample_id]
  /\ Forall (in_reach (worker handled_run)) (held handled_run)
  /\ Forall (fun r => rq_cancellation r ∈ cancelled (drop_worker (worker handled_run))) (held handled_run).
Proof.
  destruct handled_run_holds as [Hh _].
  destruct (held_requests_within_reach _ _ _ _ _ handled_run_reached) as (_ & _ & Hr & _ & Hd).
  split; [exact Hh|]. split; [exact Hr | exact Hd].
Defined.
