(* ===== verification/Client.v ===== *)
(** * Client

    [src/src/lib.rs]: the builder, the client's lifecycle ([connect],
    [connect_when_ready], [close]), per-call options, and the domain handles,
    with what two handles of one client share. *)

From S2P Require Import Prelude Errors Protocol Codec Shared Session Supervisor Observability.
From S2P Require Import Conn Subscriptions SharedSubs Schedule Notice Lease.

(** ** Names

    [trim], [chars] and [char::is_control] on a valid UTF-8 string, by code
    points. *)

Definition char_length (b : byte) : nat :=
  let n := Byte.to_N b in if n <? 128 then 1 else if n <? 224 then 2 else if n <? 240 then 3 else 4.

Fixpoint split_chars (fuel : nat) (s : bytes) : list bytes :=
  match fuel, s with
  | S fuel', b :: _ => take (char_length b) s :: split_chars fuel' (drop (char_length b) s)
  | _, _ => []
  end.
Definition chars (s : bytes) : list bytes := split_chars (length s) s.

Definition code_point (c : bytes) : N :=
  match map Byte.to_N c with
  | [a] => a
  | [a; b] => (a - 192) * 64 + (b - 128)
  | [a; b; c] => ((a - 224) * 64 + (b - 128)) * 64 + (c - 128)
  | [a; b; c; d] => (((a - 240) * 64 + (b - 128)) * 64 + (c - 128)) * 64 + (d - 128)
  | _ => 0
  end.

(** Unicode [White_Space] and general category [Cc]. *)
Definition is_whitespace (c : bytes) : bool :=
  let n := code_point c in
  in_range 9 13 n || in_range 8192 8202 n
  || existsb (N.eqb n) [32; 133; 160; 5760; 8232; 8233; 8239; 8287; 12288].
Definition is_control (c : bytes) : bool :=
  let n := code_point c in (n <? 32) || in_range 127 159 n.

Fixpoint drop_while {A : Type} (f : A -> bool) (l : list A) : list A :=
  match l with x :: l' => if f x then drop_while f l' else l | [] => [] end.

Definition trim (s : bytes) : bytes :=
  concat (rev (drop_while is_whitespace (rev (drop_while is_whitespace (chars s))))).

(** ** The builder

    [TP] is the token provider, which the builder only carries. *)

Section Builder.
Context {TP : Type}.

Record ClientBuilder : Type := {
  cb_endpoint : bytes;
  cb_token_provider : TP;
  cb_timeout : duration;
  cb_max_in_flight : N;
  cb_reconnect : ReconnectPolicy;
  cb_retry : RetryPolicy;
  cb_heartbeat : HeartbeatOptions;
  cb_observability : FitzObservability;
  cb_service_name : option bytes;
}.

Definition builder (endpoint : bytes) (token_provider : TP) : ClientBuilder :=
  {| cb_endpoint := endpoint; cb_token_provider := token_provider; cb_timeout := secs 30;
     cb_max_in_flight := 256; cb_reconnect := ReconnectPolicy_default; cb_retry := RetryPolicy_default;
     cb_heartbeat := HeartbeatOptions_default; cb_observability := FitzObservability_default;
     cb_service_name := None |}.

(** The provider of [anonymous] answers with an empty token. *)
Definition AnonymousTokenProvider_token : Result bytes := Ok [].
Definition anonymous (anonymous_provider : TP) (endpoint : bytes) : ClientBuilder :=
  builder endpoint anonymous_provider.

Definition with_service_name (name : bytes) (b : ClientBuilder) : ClientBuilder :=
  {| cb_endpoint := cb_endpoint b; cb_token_provider := cb_token_provider b; cb_timeout := cb_timeout b;
     cb_max_in_flight := cb_max_in_flight b; cb_reconnect := cb_reconnect b; cb_retry := cb_retry b;
     cb_heartbeat := cb_heartbeat b; cb_observability := cb_observability b;
     cb_service_name := Some (trim name) |}.

Definition max_in_flight_requests (limit : N) (b : ClientBuilder) : ClientBuilder :=
  {| cb_endpoint := cb_endpoint b; cb_token_provider := cb_token_provider b; cb_timeout := cb_timeout b;
     cb_max_in_flight := N.max limit 1; cb_reconnect := cb_reconnect b; cb_retry := cb_retry b;
     cb_heartbeat := cb_heartbeat b; cb_observability := cb_observability b;
     cb_service_name := cb_service_name b |}.

Definition request_timeout (timeout : duration) (b : ClientBuilder) : ClientBuilder :=
  {| cb_endpoint := cb_endpoint b; cb_token_provider := cb_token_provider b; cb_timeout := timeout;
     cb_max_in_flight := cb_max_in_flight b; cb_reconnect := cb_reconnect b; cb_retry := cb_retry b;
     cb_heartbeat := cb_heartbeat b; cb_observability := cb_observability b;
     cb_service_name := cb_service_name b |}.

Definition reconnect_policy (policy : ReconnectPolicy) (b : ClientBuilder) : ClientBuilder :=
  {| cb_endpoint := cb_endpoint b; cb_token_provider := cb_token_provider b; cb_timeout := cb_timeout b;
     cb_max_in_flight := cb_max_in_flight b; cb_reconnect := policy; cb_retry := cb_retry b;
     cb_heartbeat := cb_heartbeat b; cb_observability := cb_observability b;
     cb_service_name := cb_service_name b |}.

Definition retry_policy (policy : RetryPolicy) (b : ClientBuilder) : ClientBuilder :=
  {| cb_endpoint := cb_endpoint b; cb_token_provider := cb_token_provider b; cb_timeout := cb_timeout b;
     cb_max_in_flight := cb_max_in_flight b; cb_reconnect := cb_reconnect b; cb_retry := policy;
     cb_heartbeat := cb_heartbeat b; cb_observability := cb_observability b;
     cb_service_name := cb_service_name b |}.

Definition heartbeat_options (options : HeartbeatOptions) (b : ClientBuilder) : ClientBuilder :=
  {| cb_endpoint := cb_endpoint b; cb_token_provider := cb_token_provider b; cb_timeout := cb_timeout b;
     cb_max_in_flight := cb_max_in_flight b; cb_reconnect := cb_reconnect b; cb_retry := cb_retry b;
     cb_heartbeat := options; cb_observability := cb_observability b;
     cb_service_name := cb_service_name b |}.

Definition observability (hooks : FitzObservability) (b : ClientBuilder) : ClientBuilder :=
  {| cb_endpoint := cb_endpoint b; cb_token_provider := cb_token_provider b; cb_timeout := cb_timeout b;
     cb_max_in_flight := cb_max_in_flight b; cb_reconnect := cb_reconnect b; cb_retry := cb_retry b;
     cb_heartbeat := cb_heartbeat b; cb_observability := hooks; cb_service_name := cb_service_name b |}.

Definition service_name_ok (name : bytes) : bool :=
  negb (bytes_eqb (trim name) [] || (128 <? blen name) || existsb is_control (chars name)).

(** The client's configuration is the builder's. *)
Definition build (b : ClientBuilder) : Result ClientBuilder :=
  match cb_service_name b with
  | Some name =>
      if service_name_ok name then Ok b
      else Err (Connection (str
        "service name must be non-empty, at most 128 UTF-8 bytes, and contain no control characters"))
  | None => Ok b
  end.
End Builder.

(** ** The client

    [connection] is the slot, with the shared state of the spawned connection;
    its state channel is the client's, which [idle_state] holds while the slot
    is empty.  [notice_slot] is the memoized Notice client. *)

Record Client : Type := {
  connection : option Shared;
  idle_state : ConnectionState;
  notice_slot : option NoticeState;
}.

Definition new_client : Client := {| connection := None; idle_state := Disconnected; notice_slot := None |}.

Definition state (c : Client) : ConnectionState :=
  match connection c with Some sh => conn_state sh | None => idle_state c end.

(** A handle on a connection, as [h_connect] and [h_close] take it. *)
Definition handle_on (retry : RetryPolicy) (sh : Shared) : World :=
  {| shared := sh; policy := retry; script := []; log := []; answered := []; cancellations := [];
     slept := []; nap := fun s => s |}.

(** [connect]: the state is replaced before the connection is asked; what the
    connection answers is [h_connect]'s. *)
Definition connect (max_in_flight : N) (retry : RetryPolicy) (accepted : Submission) (timed_out : bool)
    (reply : Reply unit) (c : Client) : Result unit * Client :=
  if bool_decide (state c = ClosedState) then (Err Closed, c)
  else
    let sh := set_state Connecting (default (Shared_new max_in_flight) (connection c)) in
    (h_connect accepted timed_out reply (handle_on retry sh),
     {| connection := Some sh; idle_state := idle_state c; notice_slot := notice_slot c |}).

(** [close]: the connection is taken out of the slot and closed; other handles
    may still hold it. *)
Definition close (retry : RetryPolicy) (c : Client) : option World * Client :=
  (option_map (fun sh => (h_close (handle_on retry sh)).2) (connection c),
   {| connection := None; idle_state := ClosedState; notice_slot := notice_slot c |}).

(** [self.connection()?]. *)
Definition require_connection (c : Client) : Result Shared :=
  match connection c with Some sh => Ok sh | None => Err ConnectionClosed end.

(** [schedule] and [stream] make a client with a map of its own; [notice]
    memoizes one. *)
Definition schedule (c : Client) : Result Subs := _ <- require_connection c;; Ok ∅.
Definition stream (c : Client) : Result Subs := _ <- require_connection c;; Ok ∅.
Definition notice (c : Client) : Result NoticeState * Client :=
  match require_connection c with
  | Err e => (Err e, c)
  | Ok _ =>
      let n := default no_subscriptions (notice_slot c) in
      (Ok n, {| connection := connection c; idle_state := idle_state c; notice_slot := Some n |})
  end.

(** The other domain clients hold nothing but the connection; the Lease client
    also a gate of its own. *)
Definition kv (c : Client) : Result Shared := require_connection c.
Definition queue (c : Client) : Result Shared := require_connection c.
Definition rpc (c : Client) : Result Shared := require_connection c.
Definition lease (c : Client) : Result LeaseClient := _ <- require_connection c;; Ok LeaseClient_new.

(** What the client reports of its session, or of having none. *)
Definition correlation_enabled (c : Client) : bool :=
  match connection c with Some sh => Shared.correlation_enabled sh | None => false end.
Definition server_capabilities (c : Client) : N * N :=
  match connection c with Some sh => (protocol_version sh, capability_bits sh) | None => (0, 0) end.
Definition capability_ids (c : Client) : list N :=
  match connection c with Some sh => Shared.capability_ids sh | None => [] end.
Definition server_limits (c : Client) : N * N :=
  match connection c with Some sh => negotiated_limits sh | None => (0, 0) end.

(** The options of one operation; [operation_canceled] is whether its token
    is. *)
Record OperationOptions : Set := { operation_timeout : duration; operation_canceled : bool }.
Definition OperationOptions_default : OperationOptions :=
  {| operation_timeout := secs 30; operation_canceled := false |}.

(** [OperationOptions::run]: the branch of the select that completes first. *)
Inductive Completion (A : Type) : Type :=
| Cancelled
| Elapsed
| Completed (r : Result A).
Arguments Cancelled {A}.
Arguments Elapsed {A}.
Arguments Completed {A} r.

Definition run_operation {A : Type} (first : Completion A) : Result A :=
  match first with
  | Cancelled => Err Canceled
  | Elapsed => Err Timeout
  | Completed r => r
  end.

(** ** Waiting for readiness *)

Record ConnectWhenReadyOptions : Set := {
  ready_timeout : duration;
  initial_delay : duration;
  ready_maximum_delay : duration;
}.

Definition ConnectWhenReadyOptions_default : ConnectWhenReadyOptions :=
  {| ready_timeout := secs 30; initial_delay := millis 250; ready_maximum_delay := secs 2 |}.

(** One round: what [connect] returned ([None]: cancelled first), how long it
    took, whether the sleep was cancelled, and by how much it overslept. *)
Record Round : Type := {
  outcome : option (Result unit);
  took : duration;
  sleep_cancelled : bool;
  overslept : duration;
}.

Definition is_fatal (e : FitzError) : bool :=
  is_auth_failure e || match e with Closed | VersionMismatch _ _ => true | _ => false end.

(** The result, once there is one, and the delays slept so far. *)
Fixpoint ready_loop (rounds : list Round) (now deadline delay maximum : duration) (naps : list duration) :
    option (Result unit) * list duration :=
  match rounds with
  | [] => (None, naps)
  | r :: rounds =>
      match outcome r with
      | None => (Some (Err Canceled), naps)
      | Some (Ok _) => (Some (Ok tt), naps)
      | Some (Err error) =>
          if is_fatal error then (Some (Err error), naps)
          else
            let now := now + took r in
            let remaining := deadline - now in
            if remaining =? 0 then (Some (Err Timeout), naps)
            else if sleep_cancelled r then (Some (Err Canceled), naps)
            else
              let nap := N.min delay remaining in
              ready_loop rounds (now + nap + overslept r) deadline
                (N.min (duration_saturating_mul delay 2) maximum) maximum (naps ++ [nap])
      end
  end.

Definition connect_when_ready (options : ConnectWhenReadyOptions) (rounds : list Round) :
    option (Result unit) * list duration :=
  ready_loop rounds 0 (ready_timeout options) (initial_delay options) (ready_maximum_delay options) [].

(** ** Facts *)

Definition total (l : list duration) : duration := fold_right N.add 0 l.

Lemma total_app a b : total (a ++ b) = total a + total b.
Proof. unfold total. induction a as [|x a IH]; [done|]. cbn [app fold_right]. rewrite IH. lia. Qed.

Lemma total_one x : total [x] = x.
Proof. cbn. lia. Qed.

(** The errors that end the wait: the broker rejects the credentials (two
    constructors), the client is closed, the versions differ. *)
Inductive ends_the_wait : FitzError -> Prop :=
| rejected_credentials m : ends_the_wait (Authentication m)
| failed_authentication m : ends_the_wait (AuthFailed m)
| closed_client : ends_the_wait Closed
| other_version c m : ends_the_wait (VersionMismatch c m).

Lemma is_fatal_ends e : reflect (ends_the_wait e) (is_fatal e).
Proof. destruct e; constructor; try constructor; by inversion 1. Qed.

(** An attempt that failed with an error of another kind. *)
Definition failed_transiently (x : Round) : Prop :=
  exists e, outcome x = Some (Err e) /\ ~ ends_the_wait e.

(** The attempt after the last sleep, and what it makes of the wait. *)
Definition last_word (rounds : list Round) (k : nat) (r : option (Result unit)) : Prop :=
  forall x, rounds !! k = Some x ->
    (outcome x = Some (Ok tt) -> r = Some (Ok tt))
    /\ (forall e, outcome x = Some (Err e) -> ends_the_wait e -> r = Some (Err e)).

(** What the loop is worth from [now] on. *)
Definition waits_well (rounds : list Round) (now deadline : duration) (naps : list duration)
    (r : option (Result unit)) (slept : list duration) : Prop :=
  exists more, slept = naps ++ more /\ total slept <= deadline
    /\ Forall failed_transiently (take (length more) rounds)
    /\ last_word rounds (length more) r
    /\ (r = None -> length more = length rounds)
    /\ (forall e, r = Some (Err e) -> ends_the_wait e \/ e = Canceled \/ e = Timeout)
    /\ (Forall (fun x => 0 < took x) rounds -> deadline - now < blen rounds -> r <> None).

Lemma waits_no_more x rounds now deadline naps r :
  total naps <= deadline ->
  (forall e, r = Err e -> ends_the_wait e \/ e = Canceled \/ e = Timeout) ->
  (outcome x = Some (Ok tt) -> r = Ok tt) ->
  (forall e, outcome x = Some (Err e) -> ends_the_wait e -> r = Err e) ->
  waits_well (x :: rounds) now deadline naps (Some r) naps.
Proof.
  intros Hd He Hok Herr. exists []. rewrite app_nil_r. split; [done|]. split; [done|]. split; [constructor|].
  split; [|split; [done|]; split; [|done]; intros e' [= ->]; by apply He].
  intros y [= <-]. split; [intros Ho; f_equal; by apply Hok | intros e' Ho Hw; f_equal; by apply Herr].
Qed.

(** The wait is given up after a transient failure. *)
Lemma waits_given_up x rounds now deadline naps error e :
  total naps <= deadline -> outcome x = Some (Err error) -> ~ ends_the_wait error -> e = Canceled \/ e = Timeout ->
  waits_well (x :: rounds) now deadline naps (Some (Err e)) naps.
Proof.
  intros Hd Ho Hf He. apply waits_no_more; [done|..].
  - intros e' [= <-]. by right.
  - by rewrite Ho.
  - rewrite Ho. by intros e' [= ->].
Qed.

Lemma ready_loop_spec rounds deadline maximum : forall now delay naps r slept,
  ready_loop rounds now deadline delay maximum naps = (r, slept) ->
  total naps <= now -> total naps <= deadline -> waits_well rounds now deadline naps r slept.
Proof.
  induction rounds as [|x rounds IH]; intros now delay naps r slept; cbn [ready_loop].
  - intros [= <- <-] _ Hd. exists []. rewrite app_nil_r. repeat (split; [done|]).
    intros _ Hl. change (blen (@nil Round)) with 0 in Hl. lia.
  - intros Hr Hn Hd. destruct (outcome x) as [[[]|error]|] eqn:Ho.
    + injection Hr as <- <-. by apply waits_no_more; rewrite ?Ho.
    + destruct (is_fatal_ends error) as [Hf|Hf].
      { injection Hr as <- <-. apply waits_no_more; rewrite ?Ho; try done; intros ? [= <-]; auto. }
      destruct (N.eqb_spec (deadline - (now + took x)) 0) as [|Hrem];
        [injection Hr as <- <-; eapply waits_given_up; eauto|].
      destruct (sleep_cancelled x); [injection Hr as <- <-; eapply waits_given_up; eauto|].
      apply IH in Hr as (more & -> & Ht & Hall & Hlast & Hnone & Herr & Hlive); [|rewrite total_app, total_one; lia..].
      exists (N.min delay (deadline - (now + took x)) :: more). rewrite <- app_assoc in *. split; [done|].
      split; [exact Ht|]. split; [constructor; [by exists error | exact Hall]|]. split; [exact Hlast|].
      split; [intros E; cbn; by rewrite Hnone|]. split; [exact Herr|].
      intros Hpos Hlen. inversion Hpos as [|? ? Hp Hps]; subst. apply Hlive; [done|]. rewrite blen_cons in Hlen. lia.
    + injection Hr as <- <-. apply waits_no_more; rewrite ?Ho; try done. intros ? [= <-]; auto.
Qed.

(** C31: waiting for readiness never sleeps longer in total than its timeout.
    It sleeps, and so goes on, only after an attempt that failed with an error
    other than rejected credentials ([Authentication], [AuthFailed]), closure
    and a version mismatch; one of these, and a success, is what it returns at
    once, and it makes up no error but its own cancellation and its own
    timeout.  When every attempt takes time it ends,
    within as many rounds as its timeout has nanoseconds, and one. *)
Theorem connect_when_ready_bounded options rounds r slept :
  connect_when_ready options rounds = (r, slept) ->
  total slept <= ready_timeout options
  /\ Forall failed_transiently (take (length slept) rounds)
  /\ last_word rounds (length slept) r
  /\ (r = None -> length slept = length rounds)
  /\ (forall e, r = Some (Err e) -> ends_the_wait e \/ e = Canceled \/ e = Timeout)
  /\ (Forall (fun x => 0 < took x) rounds -> ready_timeout options < blen rounds -> r <> None).
Proof.
  intros E. apply ready_loop_spec in E as (more & -> & Ht & Hall & Hlast & Hnone & Herr & Hlive); [|cbn; lia..].
  do 5 (split; [done|]). intros Hp Hl. apply Hlive; [done | lia].
Qed.

(** Two refused attempts, then a rejected token: the third attempt is the
    last, though a fourth would have succeeded. *)
Lemma connect_when_ready_bounded_witness :
  let failing e := {| outcome := Some (Err e); took := millis 1; sleep_cancelled := false; overslept := 0 |} in
  let refused := failing (Connection (str "refused")) in
  let rejected := failing (AuthFailed (str "token")) in
  let ready := {| outcome := Some (Ok tt); took := millis 1; sleep_cancelled := false; overslept := 0 |} in
  let '(r, slept) := connect_when_ready ConnectWhenReadyOptions_default [refused; refused; rejected; ready] in
  r = Some (Err (AuthFailed (str "token"))) /\ slept = [millis 250; millis 500] /\ total slept <= secs 30.
Proof.
  cbn zeta. destruct (connect_when_ready _ _) as [r slept] eqn:E. pose proof E as E'.
  apply connect_when_ready_bounded in E' as [Ht _]. vm_compute in E. injection E as <- <-.
  split; [done|]. split; [by vm_compute | exact Ht].
Defined.

(** [connect] on an authenticated client: the state stays at connecting, since
    the session answers the command without touching it. *)
Lemma connect_hides_session max retry c sh transport st generation response :
  connection c = Some sh -> conn_state sh = Authenticated -> close_requested sh = false ->
  let '(r, c') := connect max retry Accepted false (Replied (Ok tt)) c in
  r = Ok tt /\ state c' = Connecting
  /\ forall sh', connection c' = Some sh' ->
       st_shared (handle_command transport sh' st generation (Some (Connect response))).1 = sh'.
Proof.
  intros Hc Ha Hcl. assert (Hst : state c = Authenticated) by (unfold state; by rewrite Hc).
  unfold connect. rewrite bool_decide_eq_false_2 by (by rewrite Hst). rewrite Hc. unfold h_connect. cbn. rewrite Hcl.
  split; [done|]. split; [done|]. by intros sh' [= <-].
Qed.

(** Two Schedule handles of one client: the operations of each on its own
    map. *)
Definition on_first {W A : Type} (m : IO (W * Subs) A) : IO (W * (Subs * Subs)) A := fun '(w, (m1, m2)) =>
  let '(r, (w', m1')) := m (w, m1) in (r, (w', (m1', m2))).
Definition on_second {W A : Type} (m : IO (W * Subs) A) : IO (W * (Subs * Subs)) A := fun '(w, (m1, m2)) =>
  let '(r, (w', m2')) := m (w, m2) in (r, (w', (m1, m2'))).

(** The Schedule handles of one client count their subscriptions apart,
    where its Notice handles share one count: when two handles of one client
    subscribe the same pattern the broker is asked twice, and unsubscribing the
    first submits the UNSUBSCRIBE of that pattern while the second is still
    subscribed and counted. *)
Theorem schedule_handles_count_apart :
  let pattern := str "schedule://realm/area/job/*" in
  let subscribed_as id := be_bytes 1 0 ++ be_bytes 1 1 ++ be_bytes 8 id in
  let w := answering [Ok (subscribed_as 42); Ok (subscribed_as 43); Ok [Byte.x00]] in
  let c := {| connection := Some (shared w); idle_state := Disconnected; notice_slot := None |} in
  let program : IO (World * (Subs * Subs)) (ScheduleSubscription * ScheduleSubscription) :=
    s1 <- on_first (Schedule.subscribe pattern);;
    s2 <- on_second (Schedule.subscribe pattern);;
    on_first (Schedule.unsubscribe s1);;
    mret (s1, s2) in
  schedule c = Ok ∅
  /\ (let '(r, (w, (m1, m2))) := program (w, (∅, ∅)) in
      map (fun s => (sent_type s, sent_payload s)) (log w)
      = [(message_type.SCHEDULE_SUBSCRIBE, field_bytes pattern);
         (message_type.SCHEDULE_SUBSCRIBE, field_bytes pattern);
         (message_type.SCHEDULE_UNSUBSCRIBE, field_bytes pattern)]
      /\ option_map references (m1 !! pattern) = None
      /\ option_map references (m2 !! pattern) = Some 1
      /\ match r with
         | Ok (_, s2) => bool_decide (is_Some (registrations (shared w) !! key (handle_registration (Schedule.handle s2))))
         | Err _ => false
         end = true)
  /\ (notice (notice c).2).1 = (notice c).1 /\ (notice (notice c).2).2 = (notice c).2.
Proof.
  cbn zeta. split; [done|]. split; [|done]. vm_compute. repeat split.
Qed.
