(* ===== verification/Conformance.v ===== *)
(** * Conformance

    The unit tests the repository keeps beside its pure code, run against the
    model: each definition translates one test (what it arranges, calls and
    asserts) to a boolean, under the test's own name, and the example after it
    evaluates it.  [codec.rs], [wire3.rs] with its shared vectors
    ([src/tests/fixtures/wire3_vectors.txt]), [error.rs], [domains/routes.rs],
    [client_domains/kv.rs], [client_domains/queue.rs] and
    [client_domains/schedule.rs]. *)

From S2P Require Import Prelude Errors Protocol Codec Wire3 Routes Responses Shared.
From S2P Require Kv Queue Schedule.

(** ** What the tests assert with *)

Definition is_err {A} (r : Result A) : bool := negb (is_ok r).
Definition fails_as {A} (p : FitzError -> bool) (r : Result A) : bool := match r with Err e => p e | Ok _ => false end.
Definition is_codec (e : FitzError) : bool := match e with Codec _ => true | _ => false end.
Definition is_protocol (e : FitzError) : bool := match e with Protocol _ => true | _ => false end.
Definition is_wire (code : N) (e : FitzError) : bool := match e with DomainWire c _ _ _ => c =? code | _ => false end.
(** [assert_eq!(r.unwrap(), v)]. *)
Definition gives {A} `{EqDecision A} (v : A) (r : Result A) : bool := match r with Ok a => bool_decide (a = v) | Err _ => false end.

(** ** [codec.rs] *)

(** The helpers of the tests. *)
Definition encode_message_frame (msg_type : N) (payload : bytes) : bytes :=
  match try_encode_message_frame msg_type payload with Ok frame => frame | Err _ => [] end.
Definition decode_message_frame (buf : bytes) : Result (N * N) :=
  header <- decode_frame_header buf;; Ok (message_type header, payload_start header).

Definition should_round_trip_u64 : bool :=
  gives 81985529216486895 (run_dec get_u64 (finish (PayloadEncoder_new .> put_u64 81985529216486895))).
Example should_round_trip_u64_passes : should_round_trip_u64 = true.
Proof. vm_compute. reflexivity. Qed.

Definition should_round_trip_string : bool :=
  gives (str "hello") (run_dec get_string (finish (PayloadEncoder_new .> put_string (str "hello")))).
Example should_round_trip_string_passes : should_round_trip_string = true.
Proof. vm_compute. reflexivity. Qed.

Definition should_round_trip_bytes : bool :=
  gives (str "data") (run_dec get_bytes (finish (PayloadEncoder_new .> put_bytes (str "data")))).
Example should_round_trip_bytes_passes : should_round_trip_bytes = true.
Proof. vm_compute. reflexivity. Qed.

Definition round_trips_type (payload : bytes) (mt : N) : bool :=
  match decode_message_frame (encode_message_frame mt payload) with Ok x => fst x =? mt | Err _ => false end.
Definition should_round_trip_message_type_boundary_given_single_byte_encoding_when_frame_decoded : bool :=
  forallb (round_trips_type (str "hello")) [0; 1; 254].
Example single_byte_types_pass : should_round_trip_message_type_boundary_given_single_byte_encoding_when_frame_decoded = true.
Proof. vm_compute. reflexivity. Qed.

Definition should_decode_message_frame : bool :=
  let frame := encode_message_frame 100 (str "hello") in
  match decode_message_frame frame with
  | Ok (msg_type, start) => (msg_type =? 100) && bytes_eqb (drop (N.to_nat start) frame) (str "hello")
  | Err _ => false
  end.
Example should_decode_message_frame_passes : should_decode_message_frame = true.
Proof. vm_compute. reflexivity. Qed.

Definition should_decode_response_final_flag_given_correlated_terminal_response : bool :=
  match (frame <- try_encode_frame 104 RESPONSE_FINAL 1 (str "ok");; decode_frame_header frame) with
  | Ok header => (flags header =? RESPONSE_FINAL) && (correlation_id header =? 1)
  | Err _ => false
  end.
Example response_final_flag_passes : should_decode_response_final_flag_given_correlated_terminal_response = true.
Proof. vm_compute. reflexivity. Qed.

Definition should_encode_message_type_zero_in_fixed_header : bool :=
  let frame := encode_message_frame 0 (str "ok") in
  match decode_frame_header frame with
  | Ok header => (message_type header =? 0) && bytes_eqb (drop (N.to_nat FRAME_HEADER_LEN) frame) (str "ok")
  | Err _ => false
  end.
Example message_type_zero_passes : should_encode_message_type_zero_in_fixed_header = true.
Proof. vm_compute. reflexivity. Qed.

Definition should_round_trip_message_type_boundary_given_escaped_encoding_when_frame_decoded : bool :=
  forallb (round_trips_type (str "ok")) [255; 256; u16_max].
Example escaped_types_pass : should_round_trip_message_type_boundary_given_escaped_encoding_when_frame_decoded = true.
Proof. vm_compute. reflexivity. Qed.

Definition should_reject_oversized_payload_given_value_above_frame_limit_when_encoding_attempted : bool :=
  let payload := repeat Byte.x00 (N.to_nat (MAX_MESSAGE_SIZE - FRAME_HEADER_LEN + 1)) in
  fails_as (fun e => match e with FrameTooLarge _ => true | _ => false end) (try_encode_message_frame 100 payload).
Example oversized_payload_passes :
  should_reject_oversized_payload_given_value_above_frame_limit_when_encoding_attempted = true.
Proof. vm_compute. reflexivity. Qed.

Definition should_reject_truncated_headers_given_incomplete_frame_bytes_when_frame_decoded : bool :=
  forallb (fun frame => is_err (decode_message_frame (map byte_of_N frame))) [[]; [255]; [255; 0]; [100; 0]].
Example truncated_headers_pass : should_reject_truncated_headers_given_incomplete_frame_bytes_when_frame_decoded = true.
Proof. vm_compute. reflexivity. Qed.

Definition should_reject_trailing_bytes_given_extra_frame_data_when_strict_decoding_used : bool :=
  fails_as (fun e => bool_decide (kind e = KProtocol)) (decode_message_frame (encode_message_frame 100 (str "hi") ++ str "!")).
Example trailing_bytes_pass : should_reject_trailing_bytes_given_extra_frame_data_when_strict_decoding_used = true.
Proof. vm_compute. reflexivity. Qed.

Definition should_reject_truncated_value_given_incomplete_length_prefixed_field_when_decoding_attempted : bool :=
  fails_as is_codec (run_dec get_bytes (map byte_of_N [0; 0; 0; 4; 97; 98])).
Example truncated_value_passes :
  should_reject_truncated_value_given_incomplete_length_prefixed_field_when_decoding_attempted = true.
Proof. vm_compute. reflexivity. Qed.

(** ** [wire3.rs] *)

Definition nibble (b : byte) : N := let n := Byte.to_N b in if n <? 58 then n - 48 else n - 87.
Fixpoint from_hex (hex : bytes) : bytes :=
  match hex with a :: b :: hex' => byte_of_N (nibble a * 16 + nibble b) :: from_hex hex' | _ => [] end.

(** The vectors shared with the other clients of the broker. *)
Definition wire3_vectors : list (string * string) := [
  ("core_only_type104_corr1_value_hi", "0068000000000000000001000000026869");
  ("connect_wire3_empty_capabilities", "00010400000000000000000000002c00000020000300030000000000000000000000000000000c6669747a2d746573746b69740001000000020000");
  ("hello_wire3_empty_capabilities_session42", "000204000000000000000000000022000000160003000000000010000000000040000000000000002a0001000000020000");
  ("unknown_extension_type104_corr1_core_hi", "006804000000000000000100000012000000026869100000000006667574757265");
  ("hello_wire3_queue_capabilities", "00020400000000000000000000002a000000160003000000000010000000000040000000000000002a00010000000a00020000000100000002");
  ("enqueue_wire3_ttl2h_corr1", "00c80400000000000000010000002d0000001f0000001371756575653a2f2f61636d652f6a6f62732f71000000036a6f620000010000000400000002");
  ("nack_wire3_immediate_corr2", "00d20000000000000000020000002f0000001371756575653a2f2f61636d652f6a6f62732f71000000000000000100000000000000090000000000000000");
  ("nack_wire3_delay60_corr3", "00d20000000000000000030000002f0000001371756575653a2f2f61636d652f6a6f62732f7100000000000000010000000000000009000000000000003c")
]%string.
Definition wire3_vector (name : string) : bytes :=
  match list_find (fun x => fst x = name) wire3_vectors with Some (_, (_, hex)) => from_hex (str hex) | None => [] end.

Definition should_decode_shared_wire_three_vectors : bool :=
  forallb (fun x =>
    let frame := from_hex (str (snd x)) in
    match (header <- decode_frame_header frame;; Wire3.decode (drop 15 frame) (message_type header) (flags header)) with
    | Ok (core, mask) =>
        negb (bytes_eqb core []) && (negb (String.eqb (fst x) "hello_wire3_queue_capabilities") || (mask =? 6))
    | Err _ => false
    end) wire3_vectors.
Example should_decode_shared_wire_three_vectors_passes : should_decode_shared_wire_three_vectors = true.
Proof. vm_compute. reflexivity. Qed.

Definition should_reject_malformed_envelopes : bool :=
  forallb (fun payload => is_err (Wire3.decode (map byte_of_N payload) 104 4))
    [[]; [0; 0; 0; 0]; [0; 0; 0; 9]; [0; 0; 0; 0; 1]; [0; 0; 0; 0; 0; 0; 0; 0; 0; 0]; [0; 0; 0; 0; 0; 9; 255; 255; 255; 255]].
Example should_reject_malformed_envelopes_passes : should_reject_malformed_envelopes = true.
Proof. vm_compute. reflexivity. Qed.

Definition should_reject_duplicate_hello_capabilities : bool :=
  is_err (Wire3.decode (map byte_of_N [0; 0; 0; 0; 0; 1; 0; 0; 0; 2; 0; 0; 0; 1; 0; 0; 0; 2; 0; 0]) 2 4).
Example should_reject_duplicate_hello_capabilities_passes : should_reject_duplicate_hello_capabilities = true.
Proof. vm_compute. reflexivity. Qed.

(** The test compares pointers: without the flag the core is the payload. *)
Definition should_borrow_core_only_payload : bool :=
  match Wire3.decode (str "hi") 104 0 with Ok (core, _) => bytes_eqb core (str "hi") | Err _ => false end.
Example should_borrow_core_only_payload_passes : should_borrow_core_only_payload = true.
Proof. vm_compute. reflexivity. Qed.

Definition should_reject_every_truncated_prefix_of_wire_three_hello : bool :=
  let payload := drop 15 (wire3_vector "hello_wire3_queue_capabilities") in
  negb (bytes_eqb payload []) && forallb (fun size => is_err (Wire3.decode (take size payload) 2 4)) (seq 0 (length payload)).
Example should_reject_every_truncated_prefix_of_wire_three_hello_passes :
  should_reject_every_truncated_prefix_of_wire_three_hello = true.
Proof. vm_compute. reflexivity. Qed.

Definition should_skip_repeated_unknown_fields_in_any_order : bool :=
  match Wire3.decode (from_hex (str "000000026869100100000000100000000000100000000000")) 104 4 with
  | Ok (core, _) => bytes_eqb core (str "hi")
  | Err _ => false
  end.
Example should_skip_repeated_unknown_fields_in_any_order_passes : should_skip_repeated_unknown_fields_in_any_order = true.
Proof. vm_compute. reflexivity. Qed.

(** ** [error.rs] *)

Definition should_classify_retryable_error_given_timeout_when_is_retryable_called : bool := is_retryable Timeout.
Definition should_classify_retryable_error_given_no_worker_code_when_is_retryable_called : bool :=
  is_retryable (DomainWire 6051 0 0 (str "no worker")).
Definition should_classify_indeterminate_schedule_backend_error_as_terminal : bool :=
  (error_code.SCHEDULE_BACKEND_ERROR =? 7006) && negb (is_retryable (DomainWire 7006 6 1 (str "backend busy"))).
Definition should_fail_fast_given_unauthorized_code_when_retry_policy_evaluated : bool :=
  negb (is_retryable (Domain 1001 (str "unauthorized"))).
Definition should_fail_fast_given_fatal_protocol_error_when_retry_policy_evaluated : bool :=
  negb (is_retryable (Protocol (str "fatal"))).
Definition should_match_broker_retry_table_for_domain_codes : bool :=
  let classify '(code, class, effect) := is_retryable (DomainWire code class effect []) in
  forallb classify [(1005, 5, 0); (2005, 5, 0); (4005, 5, 0); (5050, 0, 0); (6051, 0, 0)]
  && forallb (fun code => negb (classify code)) [(1009, 9, 0); (2006, 6, 1); (4007, 7, 1); (7006, 6, 1); (4005, 5, 1)].

Example error_tests_pass :
  should_classify_retryable_error_given_timeout_when_is_retryable_called
  && should_classify_retryable_error_given_no_worker_code_when_is_retryable_called
  && should_classify_indeterminate_schedule_backend_error_as_terminal
  && should_fail_fast_given_unauthorized_code_when_retry_policy_evaluated
  && should_fail_fast_given_fatal_protocol_error_when_retry_policy_evaluated
  && should_match_broker_retry_table_for_domain_codes = true.
Proof. vm_compute. reflexivity. Qed.

(** ** [domains/routes.rs] *)

Definition should_accept_concrete_route_shape_given_valid_scheme_and_segment_count_when_validation_runs : bool :=
  is_ok (validate_fixed_route (str "queue://realm/area/resource") (str "queue") 3).
Definition should_reject_wrong_scheme_given_domain_route_when_validation_runs : bool :=
  is_err (validate_fixed_route (str "notice://realm/area/resource") (str "queue") 3).
Definition should_reject_empty_segment_given_route_with_empty_component_when_validation_runs : bool :=
  is_err (validate_fixed_route (str "queue://realm//resource") (str "queue") 3).

Definition registers (pattern : string) : bool := is_ok (validate_registration_pattern (str pattern) (str "queue") 3).

Definition should_accept_registration_patterns_given_exact_and_whole_segment_wildcards_when_validation_runs : bool :=
  forallb registers
    ["queue://realm/area/resource"; "queue://realm/area/*"; "queue://realm/**"; "queue://*/area/resource";
     "queue://**/resource"; "queue://**/renderers/**"; "queue://realm/**"; "queue://**"]%string.
Definition should_reject_adjacent_double_wildcard_segments_given_registration_pattern_when_validation_runs : bool :=
  forallb (fun p => negb (registers p)) ["queue://acme/**/**"; "queue://**/**"; "queue://**/**/resource"]%string.
Definition should_reject_registration_patterns_given_invalid_shape_when_validation_runs : bool :=
  forallb (fun p => negb (registers p))
    ["stream://realm/area/resource"; "queue://realm//resource"; "queue://realm/area/res*"; "queue://realm/area";
     "queue://realm/area/resource/extra/**"]%string.
Definition should_match_concrete_routes_given_middle_and_repeated_double_wildcards_when_matching_runs : bool :=
  forallb (fun '(route, pattern, expected) => Bool.eqb (route_matches_pattern (str route) (str pattern)) expected)
    [("rpc://acme/orders/v1/create", "rpc://*/orders/**", true); ("rpc://acme/orders/create", "rpc://acme/**/**", true);
     ("rpc://acme/create", "rpc://acme/**/orders", false); ("queue://acme/app/jobs", "stream://**", false)]%string.
Definition should_validate_stream_selectors_given_server_grammar : bool :=
  forallb (fun s => is_ok (validate_stream_selector (str s)))
    ["stream://realm/area/resource"; "stream://realm/area/*"; "stream://realm/*/resource"; "stream://realm/*/*";
     "stream://realm/**"; "stream://*/area/resource"; "stream://*/area/*"; "stream://*/*/resource"; "stream://*/*/*";
     "stream://**"]%string
  && forallb (fun s => is_err (validate_stream_selector (str s)))
    ["stream://realm/area/**"; "stream://*/**"; "stream://realm/area"]%string.

Example route_tests_pass :
  should_accept_concrete_route_shape_given_valid_scheme_and_segment_count_when_validation_runs
  && should_reject_wrong_scheme_given_domain_route_when_validation_runs
  && should_reject_empty_segment_given_route_with_empty_component_when_validation_runs
  && should_accept_registration_patterns_given_exact_and_whole_segment_wildcards_when_validation_runs
  && should_reject_adjacent_double_wildcard_segments_given_registration_pattern_when_validation_runs
  && should_reject_registration_patterns_given_invalid_shape_when_validation_runs
  && should_match_concrete_routes_given_middle_and_repeated_double_wildcards_when_matching_runs
  && should_validate_stream_selectors_given_server_grammar = true.
Proof. vm_compute. reflexivity. Qed.

(** ** [client_domains/kv.rs] *)

Definition scan_response (fields : PayloadEncoder -> PayloadEncoder) : Result Kv.KvScanPage :=
  Kv.decode_scan_response (finish (fields PayloadEncoder_new)).

Definition should_reject_scan_response_without_has_more : bool :=
  fails_as is_codec (scan_response (fun e => e .> put_u8 0 .> put_u32 0)).
Definition should_reject_scan_response_with_invalid_has_more : bool :=
  fails_as is_protocol (scan_response (fun e => e .> put_u8 0 .> put_u32 0 .> put_u8 2)).
Definition should_reject_scan_response_with_trailing_bytes : bool :=
  fails_as is_protocol (scan_response (fun e => e .> put_u8 0 .> put_u32 0 .> put_u8 0 .> put_u8 255)).
Definition should_reject_impossible_scan_count_before_allocating : bool :=
  fails_as is_protocol (scan_response (fun e => e .> put_u8 0 .> put_u32 u32_max)).
Definition should_treat_inverted_scan_bounds_as_empty_for_direction : bool :=
  Kv.scan_range_is_empty (Some (str "z")) (Some (str "a")) false
  && Kv.scan_range_is_empty (Some (str "a")) (Some (str "z")) true
  && negb (Kv.scan_range_is_empty (Some (str "z")) (Some (str "a")) true).

Example kv_tests_pass :
  should_reject_scan_response_without_has_more && should_reject_scan_response_with_invalid_has_more
  && should_reject_scan_response_with_trailing_bytes && should_reject_impossible_scan_count_before_allocating
  && should_treat_inverted_scan_bounds_as_empty_for_direction = true.
Proof. vm_compute. reflexivity. Qed.

(** ** [client_domains/queue.rs] *)

Definition should_not_retry_malformed_enqueue_capacity_response : bool :=
  negb (Queue.is_retryable_enqueue_rejection (map byte_of_N [1; 0; 0; 15; 165])).
Definition should_reject_legacy_plain_error_without_inferring_capacity : bool :=
  fails_as (fun e => is_protocol e || is_codec e)
    (Queue.decode_queue_plain_ok (finish (PayloadEncoder_new .> put_u8 1 .> put_string (repeat Byte.x78 (N.to_nat 4005))))).
(** A completion answered with the common error envelope. *)
Definition completion_error (code class effect : N) (message : string) : Result unit :=
  Queue.decode_queue_plain_ok
    (finish (PayloadEncoder_new .> put_u8 1 .> put_u16 code .> put_u8 class .> put_u8 effect .> put_string (str message))).
Definition should_classify_indeterminate_completion_as_terminal : bool :=
  fails_as (fun e => is_wire 4007 e && negb (is_retryable e)) (completion_error 4007 7 1 "outcome unknown").
Definition should_preserve_coded_capacity_rejection_for_completion : bool :=
  fails_as (is_wire 4005) (completion_error 4005 5 0 "not accepted").
Definition should_encode_enqueue_delay_in_seconds_without_truncation : bool :=
  let route := str "queue://realm/area/jobs" in
  let fields : Dec (bytes * bytes * N * N * bool) :=
    (r <- get_string;; b <- get_bytes;; tag <- get_u8;; seconds <- get_u64;; fin <- at_end;; mret (r, b, tag, seconds, fin)) in
  match run_dec fields (Queue.encode_enqueue route (str "body") (Some 2)) with
  | Ok (r, b, tag, seconds, fin) => bytes_eqb r route && bytes_eqb b (str "body") && (tag =? 1) && (seconds =? 2) && fin
  | Err _ => false
  end.
Definition should_decode_length_prefixed_queue_notify_payload : bool :=
  match run_dec Queue.decode_queue_notification
    (finish (PayloadEncoder_new .> put_string (str "queue://realm/area/jobs") .> put_bytes (str "opaque queue state"))) with
  | Ok n => bytes_eqb (Queue.qn_route n) (str "queue://realm/area/jobs") && bytes_eqb (Queue.qn_payload n) (str "opaque queue state")
  | Err _ => false
  end.

Example queue_tests_pass :
  should_not_retry_malformed_enqueue_capacity_response && should_reject_legacy_plain_error_without_inferring_capacity
  && should_classify_indeterminate_completion_as_terminal && should_preserve_coded_capacity_rejection_for_completion
  && should_encode_enqueue_delay_in_seconds_without_truncation && should_decode_length_prefixed_queue_notify_payload = true.
Proof. vm_compute. reflexivity. Qed.

(** ** [client_domains/schedule.rs] *)

Definition should_decode_versioned_schedule_cursor_page : bool :=
  let payload := finish (PayloadEncoder_new .> put_u8 1 .> put_u8 1 .> put_u8 1 .> put_string (str "next") .> put_u8 1
    .> put_string (str "schedule://realm/area/job/run") .> put_string (str "*/5 * * * *") .> put_u8 1
    .> put_bytes (str "payload") .> put_u8 0) in
  match run_dec Schedule.decode_cursor_page payload with
  | Ok page =>
      Schedule.has_more page && bool_decide (Schedule.continuation page = Some (str "next"))
      && (blen (Schedule.entries page) =? 1)
  | Err _ => false
  end.
Definition should_preserve_coded_ingress_error_for_schedule_extension : bool :=
  fails_as (is_wire 7006)
    (run_dec (Schedule.plain_success (str "LIST_V2"))
       (finish (PayloadEncoder_new .> put_u8 1 .> put_u16 7006 .> put_u8 6 .> put_u8 1 .> put_string (str "broker busy")))).

Example schedule_tests_pass :
  should_decode_versioned_schedule_cursor_page && should_preserve_coded_ingress_error_for_schedule_extension = true.
Proof. vm_compute. reflexivity. Qed.
