(* ===== verification/Scenarios.v ===== *)
(** * Scenarios

    The repository's tests that run a client against a scripted broker, run
    against the model: the broker fixture of [src/src/test_support.rs], and the
    tests of [async_connection.rs], [client_domains/notice.rs],
    [client_domains/schedule.rs], [client_domains/stream.rs] and
    [client_domains/lease.rs] under their own names.  Where a test leaves an
    interleaving to the scheduler, the definition takes the one its comments
    describe; sockets, sleeps and timeouts of the tests themselves have no
    counterpart. *)

From S2P Require Import Prelude Errors Protocol Codec Wire3 Routes Shared Session SessionFacts Supervisor.
From S2P Require Import Conn Subscriptions SharedSubs Conformance.
From S2P Require Notice Schedule StreamClient Lease WithLease LeaseObserver ObserverFacts.
Import message_type.

(** ** The broker fixture: [test_support.rs] *)

(** The correlation ids of the requests read and not answered yet, by type. *)
Definition TestPending : Type := gmap N (list N).

(** [read]: [None] is a failed [unwrap]. *)
Definition test_read (frame : bytes) (pending : TestPending) : option (N * bytes * TestPending) :=
  match decode_frame_header frame with
  | Ok header =>
      match Wire3.decode (frame_payload header frame) (message_type header) (flags header) with
      | Ok (core, _) =>
          Some (message_type header, core,
                if correlation_id header =? 0 then pending
                else <[message_type header := default [] (pending !! message_type header) ++ [correlation_id header]]> pending)
      | Err _ => None
      end
  | Err _ => None
  end.

(** A queued ENQUEUE answer of kind 2 keeps its request waiting. *)
Definition keeps_waiting (kind : N) (payload : bytes) : bool :=
  (kind =? 400) && starts_with (map byte_of_N [0; 2]) payload.

Definition test_write (kind : N) (payload : bytes) (pending : TestPending) : Result bytes * TestPending :=
  let '(correlation, pending) :=
    match pending !! kind with
    | Some (c :: cs) => (c, if keeps_waiting kind payload then pending else <[kind := cs]> pending)
    | _ => (0, pending)
    end in
  let response_final := negb (correlation =? 0) && negb (keeps_waiting kind payload) in
  let flags := if response_final then RESPONSE_FINAL else 0 in
  (if kind =? 2
   then extended <- Wire3.encode payload [(1, CLIENT_CAPABILITIES)];; try_encode_frame kind EXTENSIONS_PRESENT correlation extended
   else try_encode_frame kind flags correlation payload, pending).

(** [test_hello_payload] of [codec.rs]. *)
Definition test_hello_payload : bytes :=
  finish (PayloadEncoder_new .> put_u16 3 .> put_u32 0 .> put_u32 MAX_MESSAGE_SIZE .> put_u32 256 .> put_u64 1).

(** ** [async_connection.rs] *)

Definition should_exhaust_correlation_ids_without_wrapping_or_reusing : bool :=
  let '(last, next) := allocate_request_id u64_max in
  gives u64_max last && fails_as is_protocol (fst (allocate_request_id next)).
Example correlation_ids_pass : should_exhaust_correlation_ids_without_wrapping_or_reusing = true.
Proof. vm_compute. reflexivity. Qed.

Definition waiting_17 : SessionState := set_correlated {[17 := {| pr_id := 17; pr_response := Some 1 |}]} SessionState_new.
Definition should_keep_correlated_request_until_final_response_frame : bool :=
  match dispatch_correlated waiting_17 17 (str "queued") false with
  | Ok (st, e) =>
      match e, dispatch_correlated st 17 (str "grant") true with
      | [], Ok (st, [Session.Reply r x]) => (r =? 1) && gives (str "grant") x && bool_decide (correlated st = ∅)
      | _, _ => false
      end
  | Err _ => false
  end.
Example keeps_until_final_passes : should_keep_correlated_request_until_final_response_frame = true.
Proof. vm_compute. reflexivity. Qed.

Definition should_reject_unknown_correlated_response_without_notification_fallback : bool :=
  fails_as is_protocol (dispatch_correlated SessionState_new 99 (str "late") true).
Example unknown_response_passes : should_reject_unknown_correlated_response_without_notification_fallback = true.
Proof. vm_compute. reflexivity. Qed.

(** A session against the fixture: what the task takes, and what the broker
    reads and writes, in turn. *)
Inductive SessionAct : Set := Takes (event : IoEvent) | BrokerReads | BrokerWrites (kind : N) (payload : bytes).

(** The frames the broker has not read yet, and the effects so far. *)
Fixpoint play (acts : list SessionAct) (sh : Shared) (st : SessionState) (unread : list bytes) (pending : TestPending)
    (e : list Effect) : option (list Effect) :=
  match acts with
  | [] => Some e
  | Takes event :: acts =>
      let s := io_step accepts 0 sh st event in
      play acts (st_shared s) (st_session s) (unread ++ written (st_effects s)) pending (e ++ st_effects s)
  | BrokerReads :: acts =>
      match unread with
      | frame :: unread =>
          match test_read frame pending with Some (_, _, pending) => play acts sh st unread pending e | None => None end
      | [] => None
      end
  | BrokerWrites kind payload :: acts =>
      match test_write kind payload pending with
      | (Ok frame, pending) =>
          let s := io_step accepts 0 sh st (IoFrame (Ok frame)) in
          play acts (st_shared s) (st_session s) (unread ++ written (st_effects s)) pending (e ++ st_effects s)
      | (Err _, _) => None
      end
  end.

(** The session the fixture's HELLO establishes. *)
Definition established_by_fixture : Shared :=
  match apply_server_hello (Shared_new 8) test_hello_payload 6 with Ok sh => sh | Err _ => Shared_new 8 end.

Definition should_isolate_canceled_request_given_late_correlated_response : bool :=
  match play
    [Takes (IoCommand (Some (Request 1 0 100 0 (str "first") 1))); BrokerReads; Takes (IoCancel 1);
     BrokerWrites 100 (str "late"); Takes (IoCommand (Some (Request 2 0 100 0 (str "second") 2))); BrokerReads;
     BrokerWrites 100 (str "second")]
    established_by_fixture SessionState_new [] ∅ [] with
  | Some e => bool_decide (answers e = [(2, str "second")])
  | None => false
  end.
Example canceled_request_passes : should_isolate_canceled_request_given_late_correlated_response = true.
Proof. vm_compute. reflexivity. Qed.

(** A turn of the connect loop whose broker answers CONNECT with a frame, and
    whose session then stays idle. *)
Definition answered_connect (token : bytes) (frame : bytes) : Turn :=
  {| attempt := {| Supervisor.token := Ok token; connect_socket := Ok tt; set_keepalive := Ok tt; write_socket := fun _ => Ok tt;
                   tcp_read := Some (Ok frame); ws_reads := [] |};
     round_trips := fun _ => {| rt_write := fun _ => Ok tt; rt_reads := [] |};
     run_session := fun sh => run_io accepts sh [];
     during_open := fun sh => sh; during_sleep := fun sh => sh |}.
Definition no_reconnect : Supervisor.Supervisor :=
  {| endpoint := str "tcp://127.0.0.1:4091"; service_name := None;
     reconnect := {| reconnect_enabled := false; reconnect_base := millis 100; multiplier_num := 2; multiplier_den := 1;
                     reconnect_maximum := secs 30; reconnect_attempts := 0 |};
     heartbeat := HeartbeatOptions_default |}.
Definition replies_to (r : responder) (e : list Effect) : list (Result unit) :=
  omap (fun x => match x with ReplyUnit r' result => if r' =? r then Some result else None | _ => None end) e.

Definition should_allow_connect_retry_with_refreshed_token_after_auth_failure : bool :=
  let rejection := finish (PayloadEncoder_new .> put_u16 1 .> put_string (str "invalid token")) in
  let hello := match Wire3.encode test_hello_payload [(1, CLIENT_CAPABILITIES)] with
               | Ok core => match try_encode_frame HELLO EXTENSIONS_PRESENT 0 core with Ok frame => frame | Err _ => [] end
               | Err _ => []
               end in
  let '(sh, first, _) :=
    connect_and_run no_reconnect [answered_connect (str "token-0") (encode_message_frame CONNECT_REJECTED rejection)]
      (Some 1) (Shared_new 8) in
  let '(_, second, _) := connect_and_run no_reconnect [answered_connect (str "token-1") hello] (Some 2) sh in
  match replies_to 1 first, replies_to 2 second with
  | [Err (Authentication _)], [Ok _] => true
  | _, _ => false
  end.
Example connect_retry_passes : should_allow_connect_retry_with_refreshed_token_after_auth_failure = true.
Proof. vm_compute. reflexivity. Qed.

Definition should_fail_stale_queued_command_instead_of_replaying_on_new_generation : bool :=
  let s := run_io accepts (set_generation 1 (Shared_new 256))
             [IoCommand (Some (Request 1 0 100 0 (map byte_of_N [1]) 1)); IoCommand (Some (Close 2))] in
  match st_effects s, st_result s with
  | Session.Reply 1 (Err ConnectionClosed) :: rest, Some SessionClosed =>
      bool_decide (written rest = []) && negb (bool_decide (replies_to 2 rest = []))
  | _, _ => false
  end.
Example stale_command_passes : should_fail_stale_queued_command_instead_of_replaying_on_new_generation = true.
Proof. vm_compute. reflexivity. Qed.

Definition should_continue_restoring_registrations_after_one_restore_fails : bool :=
  let bad := {| reg_message_type := 501; reg_payload := []; reg_decoder := fun _ => Err (Protocol (str "restore rejected")) |} in
  let good := {| reg_message_type := 703; reg_payload := [];
                 reg_decoder := fun p => if blen p =? 8 then Ok (from_be p) else Err (Protocol (str "bad id")) |} in
  let sh := set_registrations (<[1 := bad]> {[2 := good]}) (<[1 := 1]> {[2 := 1]}) 3 (Shared_new 256) in
  let rts k := {| rt_write := fun _ => Ok tt;
                  rt_reads := [if k =? 1 then Ok (encode_message_frame 501 []) else Ok (encode_message_frame 703 (be_bytes 8 99))] |} in
  bool_decide (wire_ids (fst (restore_registrations rts sh)) !! 2 = Some 99).
Example restore_continues_passes : should_continue_restoring_registrations_after_one_restore_fails = true.
Proof. vm_compute. reflexivity. Qed.

(** ** [client_domains/notice.rs], [client_domains/schedule.rs], [client_domains/stream.rs]

    The scripted broker checks the types it reads: the requests the client
    submitted. *)

Definition types_read (w : World) : list N := map sent_type (log w).

Definition should_reference_count_duplicate_notice_subscriptions : bool :=
  let start := (answering [Ok (Notice.subscribed_with 42); Ok [Byte.x00]], Notice.no_subscriptions) in
  match Notice.subscribe (str "notice://realm/area/*") start with
  | (Ok first, st) =>
      match Notice.subscribe (str "notice://realm/area/*") st with
      | (Ok second, st) =>
          match Notice.unsubscribe first st with
          | (Ok _, st) =>
              let '(r, (w, _)) := Notice.unsubscribe second st in
              is_ok r && bool_decide (types_read w = [NOTICE_SUBSCRIBE; NOTICE_UNSUBSCRIBE])
          | _ => false
          end
      | _ => false
      end
  | _ => false
  end.
Example notice_references_pass : should_reference_count_duplicate_notice_subscriptions = true.
Proof. vm_compute. reflexivity. Qed.

Definition should_end_existing_notice_handles_after_bulk_unsubscribe : bool :=
  let start := (answering [Ok (Notice.subscribed_with 42); Ok [Byte.x00]], Notice.no_subscriptions) in
  match Notice.subscribe (str "notice://realm/area/*") start with
  | (Ok subscription, st) =>
      let '(r, st) := Notice.unsubscribe_all st in
      let w := fst st in
      is_ok r && bool_decide (types_read w = [NOTICE_SUBSCRIBE; NOTICE_UNSUBSCRIBE_ALL])
      && match map sent_payload (log w) with [_; []] => true | _ => false end
      && match fst (Notice.poll_next subscription st) with Ready None => true | _ => false end
  | _ => false
  end.
Example bulk_unsubscribe_passes : should_end_existing_notice_handles_after_bulk_unsubscribe = true.
Proof. vm_compute. reflexivity. Qed.

(** A registration with two references on a connection that never connects,
    before and after one handle is unsubscribed. *)
Definition one_of_two_unsubscribed (d : Domain) (pattern : bytes) : Result unit * option N :=
  let '(registration, sh) :=
    register_restorable {| reg_message_type := subscribe_type d; reg_payload := []; reg_decoder := decode_id d |} 42
      (Shared_new 4) in
  let held := {| key := registration; registered := true |} in
  let '(r, (_, subs)) :=
    shared_unsubscribe d {| handle_pattern := pattern; handle_registration := held |}
      (set_shared sh (answering []), {[pattern := {| shared_registration := held; references := 2 |}]}) in
  (r, references <$> subs !! pattern).

Definition should_retain_schedule_wire_subscription_until_last_local_handle : bool :=
  let '(r, remaining) := one_of_two_unsubscribed Schedule.schedule_domain (str "schedule://realm/area/job/*") in
  is_ok r && bool_decide (remaining = Some 1).
Example schedule_references_pass : should_retain_schedule_wire_subscription_until_last_local_handle = true.
Proof. vm_compute. reflexivity. Qed.

Definition should_retain_stream_wire_subscription_until_last_local_handle : bool :=
  let '(r, remaining) := one_of_two_unsubscribed StreamClient.stream_domain (str "stream://realm/area/*") in
  is_ok r && bool_decide (remaining = Some 1).
Example stream_references_pass : should_retain_stream_wire_subscription_until_last_local_handle = true.
Proof. vm_compute. reflexivity. Qed.
