(* ===== verification/LeaseScenarios.v ===== *)
(** * LeaseScenarios

    The tests of [src/src/client_domains/lease.rs] against their scripted
    brokers, run against the model: acquisition and managed execution, LIST,
    subscriptions, and the observer.  A broker's script is the list of its
    answers; what it asserts of the frames it reads is asserted of the requests
    the client submitted. *)

From S2P Require Import Prelude Errors Protocol Codec Routes Responses Shared Conn Subscriptions Conformance.
From S2P Require Import Lease WithLease LeaseObserver ObserverFacts.
Import message_type.

(** ** What the scripted broker answers *)

Definition acquire_response (kind fencing_token : N) : bytes :=
  finish (PayloadEncoder_new .> put_u8 0 .> put_u8 kind .> put_u64 fencing_token).
Definition token_response (fencing_token : N) : bytes := finish (PayloadEncoder_new .> put_u8 0 .> put_u64 fencing_token).
Definition error_response (code : N) (message : bytes) : bytes :=
  finish (PayloadEncoder_new .> put_u8 1 .> put_u16 code .> put_u8 0 .> put_u8 0 .> put_string message).
Definition ok_response : bytes := finish (PayloadEncoder_new .> put_u8 0).
Definition notify_payload (id : N) (route : bytes) : bytes := finish (PayloadEncoder_new .> put_u64 id .> put_string route).

Definition put_item (e : PayloadEncoder) (i : LeaseListItem) : PayloadEncoder :=
  e .> put_string (li_route i) .> put_string (li_owner_id i) .> put_u64 (holder_incarnation i)
    .> put_string (acquired_at i) .> put_u64 (expires_in_secs i) .> put_u32 (renewals i).
Definition list_response (page : list LeaseListItem) (next : option LeaseListCursor) : bytes :=
  let e := fold_left put_item page (PayloadEncoder_new .> put_u8 0 .> put_u32 (N.of_nat (length page))) in
  finish match next with
         | Some cursor => e .> put_u8 1 .> put_u64 (snapshot_id cursor) .> put_u32 (offset cursor)
         | None => e .> put_u8 0
         end.
Definition sample_item : LeaseListItem :=
  {| li_route := str "lease://acme/renderers/doc-1"; li_owner_id := str "worker-1"; holder_incarnation := 7;
     acquired_at := str "2026-08-29T00:00:00Z"; expires_in_secs := 30; renewals := 2 |}.

(** [trailing_u64] and [renewal_token] of a request. *)
Definition trailing_u64 (payload : bytes) : N := from_be (skipn (length payload - 8) payload).
Definition renewal_token (payload : bytes) : N := from_be (firstn 8 (skipn (length payload - 16) payload)).

Definition resource : bytes := str "lease://realm/area/resource".
Definition no_completion : Inbox := {| events := []; ended := false |}.
Definition completed (payload : bytes) : Inbox := {| events := [Received payload]; ended := false |}.
Definition sent_types (w : World) : list N := map sent_type (log w).
Definition sent_payloads (w : World) : list bytes := map sent_payload (log w).

(** ** Responses *)

Definition should_preserve_domain_code_given_typed_error_when_decoding_lease_response : bool :=
  fails_as (is_wire 5050) (run_dec (lease_success (str "ACQUIRE")) (error_response 5050 (str "HeldByOther: worker-1"))).
Example typed_error_passes : should_preserve_domain_code_given_typed_error_when_decoding_lease_response = true.
Proof. vm_compute. reflexivity. Qed.

Definition should_reject_huge_list_count_without_unbounded_preallocation : bool :=
  is_err (run_dec decode_list_page (finish (PayloadEncoder_new .> put_u32 u32_max))).
Example huge_count_passes : should_reject_huge_list_count_without_unbounded_preallocation = true.
Proof. lazy. reflexivity. Qed.

Definition should_decode_invalid_list_cursor_error : bool :=
  fails_as (is_wire 5057) (run_dec (lease_success (str "LIST"))
    (error_response error_code.LEASE_INVALID_LIST_CURSOR (str "cursor does not match this scan"))).
Example invalid_cursor_passes : should_decode_invalid_list_cursor_error = true.
Proof. vm_compute. reflexivity. Qed.

Definition should_decode_invalid_list_pattern_error : bool :=
  fails_as (is_wire 5003) (run_dec (lease_success (str "LIST"))
    (error_response error_code.LEASE_INVALID_LIST_PATTERN (str "pattern fails the wildcard grammar"))).
Example invalid_pattern_passes : should_decode_invalid_list_pattern_error = true.
Proof. vm_compute. reflexivity. Qed.

(** ** Patterns *)

Definition lease_pattern_ok (route : bytes) : bool := is_ok (validate_registration_pattern route (str "lease") 3).

Definition should_reject_malformed_wildcard_routes_when_subscribing : bool :=
  forallb (fun route => negb (lease_pattern_ok route))
    [str "lease://acme/renderers/lock*"; str "notice://acme/renderers/*"; str "lease://acme/*";
     str "lease://acme/renderers/*/extra"].
Example malformed_wildcards_pass : should_reject_malformed_wildcard_routes_when_subscribing = true.
Proof. vm_compute. reflexivity. Qed.

Definition should_accept_full_wildcard_matrix_when_subscribing : bool :=
  forallb lease_pattern_ok
    [str "lease://acme/renderers/doc-1"; str "lease://acme/renderers/*"; str "lease://acme/*/doc-1";
     str "lease://*/renderers/doc-1"; str "lease://acme/*/*"; str "lease://*/renderers/*"; str "lease://*/*/doc-1";
     str "lease://*/*/*"; str "lease://acme/**"; str "lease://**"].
Example wildcard_matrix_passes : should_accept_full_wildcard_matrix_when_subscribing = true.
Proof. vm_compute. reflexivity. Qed.

Definition should_reject_malformed_list_pattern_client_side : bool :=
  negb (lease_pattern_ok (str "lease://acme/renderers/lock*")).
Example malformed_list_pattern_passes : should_reject_malformed_list_pattern_client_side = true.
Proof. vm_compute. reflexivity. Qed.

Definition should_accept_wildcard_route_when_subscribing : bool :=
  let '(r, w) := Lease.subscribe (str "lease://acme/renderers/*") (answering [Ok (token_response 1)]) in
  is_ok r && bool_decide (sent_types w = [LEASE_SUBSCRIBE])
  && forallb (fun p => gives (str "lease://acme/renderers/*") (run_dec get_string p)) (sent_payloads w).
Example wildcard_subscription_passes : should_accept_wildcard_route_when_subscribing = true.
Proof. vm_compute. reflexivity. Qed.

(** ** Acquisition and managed execution *)

Definition should_return_typed_error_given_already_queued_acquire_outcome : bool :=
  let '(r, w) := acquire resource (str "worker-1") 30 {| wait_seconds := 5 |} no_completion (fun w => w)
                   (answering [Ok (acquire_response 3 0)]) in
  bool_decide (sent_types w = [LEASE_ACQUIRE])
  && fails_as (fun e => match e with LeaseAlreadyQueued => true | _ => false end) r.
Example already_queued_passes : should_return_typed_error_given_already_queued_acquire_outcome = true.
Proof. vm_compute. reflexivity. Qed.

(** A callback that returns the token of its authority, at its first poll or
    after one renewal. *)
Definition callback_returns (a : LeaseAuthority) : Turn World N N := turn_at (Some (Returned (Ok (authority_token a)))) false.
Definition at_once (a : LeaseAuthority) : list (Turn World N N) := [callback_returns a].
Definition once_renewed (a : LeaseAuthority) : list (Turn World N N) := [turn_at None true; callback_returns a].

(** A managed execution against a broker's answers, whose deferred completion
    is [deferred]: whether the callback was admitted, how the call ended, and
    the requests. *)
Definition managed (ttl_secs wait : N) (turns : LeaseAuthority -> list (Turn World N N)) (answers : list bytes)
    (deferred : Inbox) : option LeaseAuthority * Ending N N * World :=
  let '(authority, x, w) :=
    with_lease_authority_with_options resource (str "worker-1") ttl_secs turns {| execution_wait_seconds := wait |}
      deferred (fun w => w) (answering (map Ok answers)) in
  (authority, ending x, w).
Definition returned (value : N) (e : Ending N N) : bool := match e with Finished (Ok v) => v =? value | _ => false end.
Definition not_acquired (code : N) (e : Ending N N) : bool :=
  match e with Finished (Err (Acquisition error)) => is_wire code error | _ => false end.
Definition released_with (token : N) (w : World) : bool :=
  match last (log w) with Some s => (sent_type s =? LEASE_RELEASE) && (trailing_u64 (sent_payload s) =? token) | None => false end.

Definition should_pass_immediate_acquisition_authority_to_callback : bool :=
  let '(_, e, w) := managed 30 0 at_once [acquire_response 0 42; [Byte.x00]] no_completion in
  returned 42 e && bool_decide (sent_types w = [LEASE_ACQUIRE; LEASE_RELEASE]) && released_with 42 w.
Example immediate_authority_passes : should_pass_immediate_acquisition_authority_to_callback = true.
Proof. vm_compute. reflexivity. Qed.

Definition should_pass_already_held_authority_to_callback : bool :=
  let '(_, e, w) := managed 30 0 at_once [acquire_response 1 43; [Byte.x00]] no_completion in
  returned 43 e && bool_decide (sent_types w = [LEASE_ACQUIRE; LEASE_RELEASE]).
Example already_held_passes : should_pass_already_held_authority_to_callback = true.
Proof. vm_compute. reflexivity. Qed.

Definition should_pass_final_queued_authority_instead_of_provisional_token : bool :=
  let '(_, e, w) := managed 30 7 at_once [acquire_response 2 7; [Byte.x00]] (completed (acquire_response 0 42)) in
  returned 42 e && bool_decide (sent_types w = [LEASE_ACQUIRE; LEASE_RELEASE]) && released_with 42 w.
Example queued_authority_passes : should_pass_final_queued_authority_instead_of_provisional_token = true.
Proof. vm_compute. reflexivity. Qed.

Definition should_not_invoke_authority_callback_when_queued_acquisition_times_out : bool :=
  let '(authority, e, _) :=
    managed 30 7 at_once [acquire_response 2 7] (completed (error_response 5055 (str "lease acquisition wait timed out"))) in
  not_acquired 5055 e && match authority with None => true | Some _ => false end.
Example queued_timeout_passes : should_not_invoke_authority_callback_when_queued_acquisition_times_out = true.
Proof. vm_compute. reflexivity. Qed.

Definition should_keep_authority_stable_when_renewal_rotates_live_token : bool :=
  let '(_, e, w) := managed 3 0 once_renewed [acquire_response 0 42; token_response 99; [Byte.x00]] no_completion in
  returned 42 e && bool_decide (sent_types w = [LEASE_ACQUIRE; LEASE_RENEW; LEASE_RELEASE]) && released_with 99 w
  && match sent_payloads w with [_; renew; _] => renewal_token renew =? 42 | _ => false end.
Example rotated_token_passes : should_keep_authority_stable_when_renewal_rotates_live_token = true.
Proof. vm_compute. reflexivity. Qed.

Definition should_not_invoke_authority_callback_when_acquisition_fails : bool :=
  let '(authority, e, _) := managed 30 0 at_once [error_response 5050 (str "held by another owner")] no_completion in
  not_acquired 5050 e && match authority with None => true | Some _ => false end.
Example failed_acquisition_passes : should_not_invoke_authority_callback_when_acquisition_fails = true.
Proof. vm_compute. reflexivity. Qed.

(** The future is dropped while it waits for the completion. *)
Definition should_not_invoke_authority_callback_when_acquisition_is_canceled : bool :=
  match managed 30 30 at_once [acquire_response 2 7] no_completion with
  | (None, Running, _) => true
  | _ => false
  end.
Example canceled_acquisition_passes : should_not_invoke_authority_callback_when_acquisition_is_canceled = true.
Proof. vm_compute. reflexivity. Qed.

(** Callbacks that return whether they were cancelled. *)
Definition should_keep_one_argument_managed_lease_callbacks_compatible : bool :=
  let asks : list (Turn World bool N) :=
    [{| meanwhile := fun w => w; callback_ready := Some (Returned (Ok false)); renewal_due := false |}] in
  let broker token := answering [Ok (acquire_response 0 token); Ok [Byte.x00]] in
  let served (x : option LeaseAuthority * Execution World bool N * World) : bool :=
    negb (cancelled (snd (fst x))) && match ending (snd (fst x)) with Finished (Ok b) => negb b | _ => false end
    && bool_decide (sent_types (snd x) = [LEASE_ACQUIRE; LEASE_RELEASE]) in
  served (with_lease resource (str "worker-1") 30 asks no_completion (fun w => w) (broker 41))
  && served (with_lease_with_options resource (str "worker-1") 30 asks LeaseExecutionOptions_default no_completion
               (fun w => w) (broker 42)).
Example one_argument_passes : should_keep_one_argument_managed_lease_callbacks_compatible = true.
Proof. vm_compute. reflexivity. Qed.

Definition should_release_deferred_grant_when_handle_dropped : bool :=
  match acquire resource (str "worker-1") 30 {| wait_seconds := 7 |} (completed (acquire_response 0 42)) (fun w => w)
          (answering [Ok (acquire_response 2 0)]) with
  | (Ok (Some handle), w) =>
      match sent_payloads w, handle_drop true w handle with
      | [acquired], Some released =>
          (from_be (skipn (length acquired - 4) acquired) =? 7) && (trailing_u64 released =? 42)
      | _, _ => false
      end
  | _ => false
  end.
Example deferred_drop_passes : should_release_deferred_grant_when_handle_dropped = true.
Proof. vm_compute. reflexivity. Qed.

(** ** LIST *)

Definition should_round_trip_list_page_without_cursor : bool :=
  let '(r, w) := list_leases (str "lease://acme/renderers/*") None 50 (answering [Ok (list_response [sample_item] None)]) in
  let asked := pattern <- get_string;; has_cursor <- get_u8;; limit <- get_u32;; mret (pattern, has_cursor, limit) in
  match r, log w with
  | Ok page, [s] =>
      bool_decide (items page = [sample_item]) && bool_decide (next_cursor page = None)
      && (sent_type s =? LEASE_LIST)
      && gives (str "lease://acme/renderers/*", 0, 50) (run_dec asked (sent_payload s))
  | _, _ => false
  end.
Example list_page_passes : should_round_trip_list_page_without_cursor = true.
Proof. vm_compute. reflexivity. Qed.

Definition should_continue_list_scan_using_returned_cursor : bool :=
  let cursor := {| snapshot_id := 123; offset := 100 |} in
  let asked :=
    pattern <- get_string;; has_cursor <- get_u8;; snapshot <- get_u64;; offset <- get_u32;; limit <- get_u32;;
    mret (pattern, has_cursor, snapshot, offset, limit) in
  match list_leases (str "lease://**") None 100
          (answering [Ok (list_response [sample_item] (Some cursor)); Ok (list_response [] None)]) with
  | (Ok first, w) =>
      let '(r, w) := list_leases (str "lease://**") (next_cursor first) 100 w in
      match r, sent_payloads w with
      | Ok second, [_; continued] =>
          bool_decide (next_cursor first = Some cursor) && bool_decide (items second = [])
          && bool_decide (next_cursor second = None) && bool_decide (sent_types w = [LEASE_LIST; LEASE_LIST])
          && gives (str "lease://**", 1, 123, 100, 100) (run_dec asked continued)
      | _, _ => false
      end
  | _ => false
  end.
Example list_scan_passes : should_continue_list_scan_using_returned_cursor = true.
Proof. vm_compute. reflexivity. Qed.

(** ** The observer *)

(** What happens to an observer, in order. *)
Inductive Stimulus : Type :=
| Wakes (k : Wake)
(** a notification of the type, and one the observer's receiver gets *)
| Counted (message_type : N)
| Notified (payload : bytes)
(** a new session, that restored the subscription under the wire id *)
| Reconnects (wire : N)
| ObserverCloses
| ConnectionCloses.

(** The request an await waits for. *)
Definition asks (a : At) : list N :=
  match a with
  | Listing _ _ _ _ _ => [LEASE_LIST]
  | Unsubscribing _ | Leaving => [LEASE_UNSUBSCRIBE]
  | Subscribing _ _ => [LEASE_SUBSCRIBE]
  | _ => []
  end.

Definition stimulate (s : Stimulus) (o : Observer) : Observer :=
  match s with
  | Wakes k => wake k o
  | Counted message_type => set_conn (bump_epoch message_type (conn o)) o
  | Notified payload => push_event (Received payload) (set_conn (bump_epoch LEASE_NOTIFY (conn o)) o)
  | Reconnects wire =>
      set_conn (rewire {[key (registration (subscription o)) := wire]} (set_generation (generation (conn o) + 1) (conn o))) o
  | ObserverCloses => set_shutdown o
  | ConnectionCloses => set_conn (set_close_requested (set_generation (generation (conn o) + 1) (conn o))) o
  end.

(** The requests a sequence of stimuli makes the observer submit, and where it
    ends up. *)
Fixpoint observed (ss : list Stimulus) (o : Observer) (asked : list N) : Observer * list N :=
  match ss with
  | [] => (o, asked)
  | s :: ss =>
      let o' := stimulate s o in
      observed ss o' (asked ++ match s with Wakes _ => asks (at_ o') | _ => [] end)
  end.

(** The answer to LIST, and a pass whose installation nothing precedes. *)
Definition listed (page : list LeaseListItem) : list Stimulus := [Wakes (Listed (decode_list (list_response page None)))].
Definition listed_alone (page : list LeaseListItem) : list Stimulus := listed page ++ [Wakes Resumed].
Definition notified (wire : N) : Stimulus := Notified (notify_payload wire (str "lease://acme/renderers/doc-1")).
(** [observer.close()]: the steady state sees it, and UNSUBSCRIBE is answered. *)
Definition closes : list Stimulus := [ObserverCloses; Wakes (Polls false false); Wakes Unsubscribed].

(** An observer of a pattern, subscribed under a wire id, through a script. *)
Definition observing (wire : N) (options : ObserveOptions) (ss : list Stimulus) : option (Observer * list N) :=
  match observe shared (str "lease://acme/**") options (answering [Ok (token_response wire)]) with
  | (Ok o, w) => Some (observed ss o (sent_types w ++ asks (at_ o)))
  | (Err _, _) => None
  end.

Definition is_gone (o : Observer) : bool := match at_ o with Gone => true | _ => false end.
Definition shows (page : list LeaseListItem) (o : Observer) : bool := bool_decide (snapshot o = page).
Definition observes (wire : N) (options : ObserveOptions) (ss : list Stimulus) (p : Observer -> bool) (requests : list N) : bool :=
  match observing wire options ss with Some (o, asked) => p o && bool_decide (asked = requests) | None => false end.
Local Abbreviation observes_by_default := (observes 1 ObserveOptions_default).

(** The unrelated traffic counts while LIST is under way. *)
Definition should_converge_bootstrap_despite_continuous_unrelated_notification_traffic : bool :=
  let flood := repeat (Counted QUEUE_NOTIFY) 3 in
  observes_by_default (flood ++ listed [] ++ flood ++ [Wakes Resumed] ++ flood) ready [LEASE_SUBSCRIBE; LEASE_LIST]
  && observes_by_default (flood ++ listed [] ++ flood ++ [Wakes Resumed] ++ flood ++ closes) is_gone
       [LEASE_SUBSCRIBE; LEASE_LIST; LEASE_UNSUBSCRIBE].
Example unrelated_traffic_passes : should_converge_bootstrap_despite_continuous_unrelated_notification_traffic = true.
Proof. vm_compute. reflexivity. Qed.

Definition should_relist_once_when_notifications_arrive_during_bootstrap : bool :=
  let script := notified 1 :: listed [] ++ listed_alone [sample_item] in
  observes_by_default script (fun o => ready o && shows [sample_item] o) [LEASE_SUBSCRIBE; LEASE_LIST; LEASE_LIST]
  && observes_by_default (script ++ closes) is_gone [LEASE_SUBSCRIBE; LEASE_LIST; LEASE_LIST; LEASE_UNSUBSCRIBE].
Example relist_once_passes : should_relist_once_when_notifications_arrive_during_bootstrap = true.
Proof. vm_compute. reflexivity. Qed.

Definition should_relist_complete_items_on_steady_state_notification : bool :=
  let steady := listed_alone [] in
  let held := steady ++ [notified 1; Wakes (Polls false false)] ++ listed_alone [sample_item] in
  let released := held ++ [notified 1; Wakes (Polls false false)] ++ listed_alone [] in
  observes_by_default steady ready [LEASE_SUBSCRIBE; LEASE_LIST]
  && observes_by_default held (shows [sample_item]) [LEASE_SUBSCRIBE; LEASE_LIST; LEASE_LIST]
  && observes_by_default released (shows []) [LEASE_SUBSCRIBE; LEASE_LIST; LEASE_LIST; LEASE_LIST].
Example steady_relist_passes : should_relist_complete_items_on_steady_state_notification = true.
Proof. vm_compute. reflexivity. Qed.

(** The replacement of a subscription, called from the steady state. *)
Definition should_retry_replacement_subscription_after_transient_failure : bool :=
  match Lease.subscribe (str "lease://acme/**") (answering [Ok (token_response 1)]) with
  | (Ok s, w) =>
      let o := replace ToBootstrap
        {| conn := shared w; subscription := s; view := ∅; ready := false; shutdown := false; baseline := 0;
           consumed := false; at_ := Steady |} in
      let failed := fst (Lease.subscribe (str "lease://acme/**")
                      (answering [Ok (error_response 5010 (str "transient subscribe failure"))])) in
      let again := fst (Lease.subscribe (str "lease://acme/**") (answering [Ok (token_response 2)])) in
      let '(o, asked) :=
        observed [Wakes Unsubscribed; Wakes (Subscribed failed); Wakes Slept; Wakes (Subscribed again)] o
          (sent_types w ++ asks (at_ o)) in
      bool_decide (asked = [LEASE_SUBSCRIBE; LEASE_UNSUBSCRIBE; LEASE_SUBSCRIBE; LEASE_SUBSCRIBE])
      && is_err failed && is_ok again && match at_ o with Pausing => true | _ => false end
      && negb (closed (subscription o))
  | _ => false
  end.
Example replacement_passes : should_retry_replacement_subscription_after_transient_failure = true.
Proof. vm_compute. reflexivity. Qed.

Definition should_fire_periodic_reconciliation_on_its_configured_interval : bool :=
  let options := {| reconciliation_interval := millis 30; list_page_size := list_page_size ObserveOptions_default |} in
  let script := listed_alone [] ++ [Wakes (Polls false true)] ++ listed_alone [sample_item] in
  observes 1 options script (shows [sample_item]) [LEASE_SUBSCRIBE; LEASE_LIST; LEASE_LIST]
  && observes 1 options (script ++ closes) is_gone [LEASE_SUBSCRIBE; LEASE_LIST; LEASE_LIST; LEASE_UNSUBSCRIBE].
Example periodic_passes : should_fire_periodic_reconciliation_on_its_configured_interval = true.
Proof. vm_compute. reflexivity. Qed.

(** The wire id is 11, and 29 once restored. *)
Definition should_rebootstrap_from_scratch_when_connection_reconnects : bool :=
  let script := listed_alone [] ++ [Reconnects 29; Wakes (Polls true false)] ++ listed_alone [sample_item] in
  observes 11 ObserveOptions_default (listed_alone []) ready [LEASE_SUBSCRIBE; LEASE_LIST]
  && observes 11 ObserveOptions_default script (fun o => shows [sample_item] o && ready o && (wire o =? 29))
       [LEASE_SUBSCRIBE; LEASE_LIST; LEASE_LIST]
  && observes 11 ObserveOptions_default (script ++ closes) is_gone
       [LEASE_SUBSCRIBE; LEASE_LIST; LEASE_LIST; LEASE_UNSUBSCRIBE].
Example rebootstrap_passes : should_rebootstrap_from_scratch_when_connection_reconnects = true.
Proof. vm_compute. reflexivity. Qed.

Definition should_unsubscribe_observer_when_closed : bool :=
  observes_by_default (listed_alone [] ++ closes) is_gone [LEASE_SUBSCRIBE; LEASE_LIST; LEASE_UNSUBSCRIBE].
Example observer_close_passes : should_unsubscribe_observer_when_closed = true.
Proof. vm_compute. reflexivity. Qed.

(** The last UNSUBSCRIBE is refused by the closed connection. *)
Definition should_stop_observer_recovery_when_client_connection_is_closed : bool :=
  match observing 1 ObserveOptions_default (listed_alone [] ++ [ConnectionCloses; Wakes (Polls false false); Wakes Unsubscribed]) with
  | Some (o, _) => is_gone o && negb (ready o)
  | None => false
  end.
Example connection_close_passes : should_stop_observer_recovery_when_client_connection_is_closed = true.
Proof. vm_compute. reflexivity. Qed.
